(* ===== verification/_CoqProject ===== *)
-Q . S2P
Prelude.v
Prog.v
Contract.v
GoStrings.v
Flags.v
ApiTypes.v
GoHeap.v
DeepCopy.v
Effects.v
Runner.v
TlsConf.v
Demo.v
Placement.v
Registrar.v
Nodes.v
StoragePoolController.v
ShareController.v
VolumeWatch.v
TargetController.v
ClaimBinder.v
TierClassController.v
LocalUserController.v
Lvm.v
Mdraid.v
Replace.v
Smart.v
PoolAgent.v
PoolTeardown.v
PoolLive.v
PoolAgentSafety.v
PoolHandshake.v
Lio.v
TargetAgent.v
UserAgent.v
ShareAgent.v
Inventory.v
EventBus.v
Hub.v
HubServe.v
TtlCache.v
Tasks.v
ReflectStore.v
Ui.v
Auth.v
Api.v
ApiSafety.v
ShareConfig.v
Schema.v
Wiring.v
Rotation.v
Access.v
UiServer.v
ServerAccess.v
Spa.v
Startup.v
ClusterState.v
RestFactory.v
