(* ===== verification/Prelude.v ===== *)
(** * stornas: a verification development

    stornas turns the disks of a Kubernetes cluster into a NAS.  A user
    declares StoragePools, Shares, Targets and LocalUsers; an operator
    (operator/) places them and registers pools with r-drbd, which replicates
    volumes; an agent on each node (internal/agent) runs the host tools (LVM,
    mdadm, targetcli, samba, nfs) that make them real; a UI server
    (internal/stream, internal/eventbus, ...) streams snapshots of it all to
    browsers.  Operator and agents share no memory: they meet only in the API
    objects, through finalizers and status conditions.

    ** How a reconcile is modelled

    A Go function that talks to the outside is a [prog] ([Prog.v]): a tree
    whose nodes are operations ([Effects.op]: API reads and writes, host
    commands, file operations, status writes) and whose continuations take the
    answer.  Every operation of the source is one node, in source order, and
    an answer is arbitrary: any API call may fail, any command may print
    anything.  A Go [error] is an [error] record (its text and the class the
    [apierrors] predicates see), and a function returning one returns
    [option error].  [runs] is the operational semantics (a run is the list of
    operation/answer pairs), [wp] the predicate transformer the theorems use
    ("every operation the program issues, after the history so far, satisfies
    P, and so does its result"), and [issues] bounds the operations of a
    program without looking at the answers.  Pure functions are Gallina
    functions; both are executable, and the examples evaluate them on
    concrete inputs.

    ** The files and what they model (paths under src/)

    - [Prelude.v], [Prog.v], [Contract.v], [GoStrings.v]: errors, generic
      lemmas, the effect monad and its logic, with contracts on operations and
      their answers; the parts of Go's [strings], [fmt], [strconv] and [sort]
      the code uses.
    - [Flags.v]: Go's flag package as the entry points use it.
    - [ApiTypes.v]: operator/api/v1alpha1 and operator/api/rdrbd/v1alpha1, one
      record per struct with the fields the code reads or writes, the
      condition helpers of conditions.go and [meta.SetStatusCondition].
      [Effects.v]: the operations.  [Demo.v]: objects the witnesses share.
      [Schema.v]: the validation markers of the statuses.  [GoHeap.v] and
      [DeepCopy.v]: Go values on a heap, and the generated copy functions of
      both packages, one definition each.
    - Shared.  [Runner.v]: internal/agent/runner.go and Exec of internal/lvm;
      [TlsConf.v]: internal/tlsconf.
    - Operator.  [Placement.v] and [Registrar.v]: operator/internal/rdrbd;
      [Nodes.v] and [VolumeWatch.v]: controller/nodes.go and claim.go;
      [StoragePoolController.v], [ShareController.v], [TargetController.v],
      [ClaimBinder.v], [TierClassController.v], [LocalUserController.v]: the
      reconcilers of the same names, each the whole [Reconcile] with its
      deletion branch.
    - Agent.  [Lvm.v], [Mdraid.v]: internal/lvm and internal/mdraid with their
      parsers; [Smart.v], [Replace.v], [PoolAgent.v]: smart.go, replace.go,
      pool.go, with [PoolTeardown.v], [PoolLive.v] and [PoolAgentSafety.v]
      holding its theorems; [Lio.v], [TargetAgent.v]: lio.go and
      target_reconciler.go; [ShareAgent.v], [UserAgent.v]: share.go,
      share_reconciler.go, user_reconciler.go, with [ShareConfig.v] reading
      the written files back; [Inventory.v]: inventory.go.
    - Watches.  [Wiring.v]: the SetupWithManager functions and the
      reconcilers that cmd/stornas-agent and operator/cmd start; [Rotation.v]:
      a Secret's way from the operator's pass to the host.
    - Processes.  [Startup.v]: the main functions of operator/cmd,
      cmd/stornas-agent and cmd/stornas, from the command line to the running
      process; [Access.v] and [ServerAccess.v]: the rbac markers of the
      controllers and the roles of image/manifests/stornas, against the
      requests of the reconcilers and of the UI server.
    - Operator and agent together.  [PoolHandshake.v]: any number of operator
      workers and agents, each running its own [Reconcile], interleaved one
      operation at a time with users and r-drbd over one API server that
      refuses stale writes.
    - UI server.  [EventBus.v], [Hub.v], [HubServe.v], [TtlCache.v],
      [Tasks.v]: internal/eventbus, internal/stream (the hub, and one
      connection in time), internal/ttlcache, internal/tasks;
      [ReflectStore.v]: internal/reflect and the wiring of
      internal/clusterstate to the bus; [ClusterState.v]: the frame of
      internal/clusterstate and internal/model; [Ui.v], [Auth.v], [Api.v],
      [ApiSafety.v], [UiServer.v]: the operations of the handlers,
      internal/auth, internal/api with its theorems, and the routes of
      cmd/stornas/main.go, whose file handler is [Spa.v]; [RestFactory.v]:
      internal/restfactory.

    ** What the theorems show

    - Data safety.  A pool agent destroys a device's contents only when the
      operator cleared the deletion, and then only what it has seen to belong
      to the pool ([wipe_only_when_cleared], [teardown_only_own],
      [teardown_complete], [live_pass_lawful], [convergeDevices_order],
      [replace_converges]); a share's volume is formatted only when probed
      blank ([share_mkfs_safe]).
    - The deletion protocol.  The operator clears a deletion only after r-drbd
      released the pool, releases the finalizer only when the host reported the
      teardown or is gone, and the agent reports a teardown only after it ran
      ([deregistered_only_after_release], [finalizer_release_chain],
      [torn_down_truthful], the release theorems of Share and Target).  Under
      every interleaving no host wipes a pool that is still registered, as long
      as reads are current ([wipe_meets_no_registered_pool], by rely and
      guarantee over the programs; [lagging_cache_clears] shows that a lagging
      read breaks it).
    - Status is truthful: what each reconciler reports follows from what it saw
      in that pass (the [..._status_sound] theorems,
      [available_only_when_registered], [live_status_kept]), and every status
      written satisfies the schema the API server checks, but for the length
      of a condition's message ([status_schema]).  A target's or share's
      [Removed] says that the teardown was run, not that it succeeded
      ([removed_though_delete_failed], [removed_though_umount_failed]).
    - Waking.  A pass that ends without error or requeue has found all it
      looked for, but for kinds it watches ([quiet_pass_waits_watched]); a
      change that matters enqueues the request ([relevant_changes_wake]); a
      rotated Secret is published by the operator, wakes the agent and is set
      on the host's ACLs there ([rotation_reaches_host], by
      [target_key_exact]).
    - Files.  What the share agent writes reads back, by the rules of
      exports(5) and smb.conf(5), as exactly the shares and clients that were
      admitted ([share_files_exact]); the web server serves files of its build
      directory only ([spa_confined]).
    - Access.  A Target with CHAP is never opened without credentials
      ([target_access_fail_closed]); SMB logins exist only for enabled users
      ([smb_access_sound]).  The UI server writes only for an admin who logged
      in with the password of a LocalUser and whose session is live
      ([login_needs_password], [auth_sessions_refine],
      [no_write_without_login]), only behind the handlers' own guards
      ([api_writes_guarded]), and leaves a record ([api_writes_recorded]);
      a password changes only for who holds the old one
      ([password_change_sound]); a client minted for a token carries no other
      identity ([factory_identity]).
    - Rights and start-up.  Every request a reconciler, a watch, the inventory
      or a handler issues is one its process's role grants, on a type its
      scheme knows ([activity_authorized], [server_requests_granted]); a manager
      starts with all its reconcilers or not at all, with the network surface
      its flags ask for ([manager_starts_whole]); the UI server's parts share
      one namespace ([ui_comes_up]); a printed command line reads back
      ([flags_roundtrip]).
    - Copies.  A generated copy denotes the same value as its original and
      shares nothing mutable with it ([deepcopy_separates]).
    - Inventory: a disk is offered as unclaimed only on this pass's evidence,
      under its best stable name, and the publisher's memory is what the API
      server accepted ([inventory_truthful], [inventory_fresh],
      [inventory_rounds_track], [aliases_best]).
    - Placement: soundness, preference, stickiness and the exact failure
      condition; the watch predicate misses no change that placement can see
      ([volume_watch_complete]).
    - The snapshot stream loses no update and settles ([hub_no_lost_update],
      [hub_settles], [publish_visible]); every mutation of a watched store
      moves a version the hub reads ([store_signals_mutations],
      [mutation_wakes_hub]), and the frame does not depend on the order of the
      listings or of Go's maps ([snapshot_deterministic], with its tie
      conditions; [alert_feed_sound]).  A connection that stopped answering is
      gone within 100 s, one that answers is never cut ([keepalive_sound]).
      The TTL cache, the activity feed and
      the session table refine the log of their calls ([ttl_cache_refines],
      [feed_refines_log], [auth_sessions_refine]).

    ** Bounds, fuel and assumptions

    No definition runs on fuel: loops are over the lists the code ranges over,
    and programs are trees.  Event-bus versions are [N] modulo 2^64 with the
    wrap written out; the hub theorems hold for fewer than 2^64 publishes
    between two builds, which no run reaches.  JSON and float parsing (Go's
    [encoding/json], [strconv.ParseFloat]) are class parameters
    ([Lvm.HostParse], [Lio.IpParse], [Smart.SmartParse],
    [Inventory.LsblkParse]) with no laws assumed, and so are resource
    quantities and time formatting ([Api.Quantity], [ClusterState.TimeFormat]).
    Starting a process ([Runner.v]), PEM and URL parsing ([TlsConf.PemParse],
    [HubServe.UrlParse]) are parameters too.  Time in [HubServe.v] is in
    nanoseconds: 60 s of silence end the read loop and at most four writes of
    10 s each keep the pump.  Alert counts are int32 with their wrap.  In [PoolHandshake.v]
    a read answers what the parameter [cache] makes of the stored objects; the
    theorem takes it to be current, which an informer cache that lags is not.
    A write checks the resource version, as the API server documents.  Log lines and metric counters are not operations,
    but for the lines of [Startup.v].  Copies of types of other packages
    ([GoHeap.Library]) are assumed deep, as their packages document, and the
    flags that packages register themselves are a parameter of [Startup.v].
    [Access.v] and [ServerAccess.v] assume that the API server answers a get
    with an object of the namespace asked for; that an agent may read every
    Secret it asks for takes Targets and LocalUsers that live in the system
    namespace, and elsewhere exactly those reads are refused.  [filepath.Join] of
    cleaned parts is concatenation with a slash.  The order in which Go ranges
    over a map is a parameter where it can be observed.

    ** Not modelled

    WebSocket framing, HTTP parsing and the content Go's file server sends;
    controller-runtime's work queues and caches (a change enqueues a request,
    and a request is a pass), the servers and the leader election it runs from
    its options; the construction of clients.  They are third-party code and
    keep no state of the program's own. *)

From stdpp Require Export base list gmap strings pretty numbers sorting.
From Stdlib Require Export ZArith Lia.

#[global] Set Default Proof Using "Type".

(** ** Go errors

    A Go [error] is seen by the program through its text ([Error()]) and
    through the classifiers of [apierrors] and [os] ([IsNotFound],
    [IsConflict], ...); [%w] keeps the class.  A function that returns
    [error] returns [option error] here: [None] is Go's [nil]. *)
Inductive errkind :=
  | KNotFound | KConflict | KAlreadyExists | KInvalid | KBadRequest
  | KForbidden | KNotExist | KOther.

#[global] Instance errkind_eq_dec : EqDecision errkind.
Proof. solve_decision. Defined.

Record error := Err { emsg : string; ekind : errkind }.

#[global] Instance error_eq_dec : EqDecision error.
Proof. solve_decision. Defined.

Definition errorf (s : string) : error := Err s KOther.
Definition wrapf (s : string) (e : error) : error := Err (s +:+ emsg e) (ekind e).

Definition has_kind (k : errkind) (e : option error) : bool :=
  match e with Some x => bool_decide (ekind x = k) | None => false end.

Definition IsNotFound (e : option error) : bool := has_kind KNotFound e.
Definition IsConflict (e : option error) : bool := has_kind KConflict e.
Definition IsAlreadyExists (e : option error) : bool := has_kind KAlreadyExists e.

(** [client.IgnoreNotFound]. *)
Definition IgnoreNotFound (e : option error) : option error :=
  if IsNotFound e then None else e.

(** The proofs treat the classifiers as atoms. *)
Arguments IsNotFound : simpl never.
Arguments IsConflict : simpl never.
Arguments IsAlreadyExists : simpl never.
Arguments IgnoreNotFound : simpl never.

Definition err_of {A} (r : error + A) : option error :=
  match r with inl e => Some e | inr _ => None end.

(** ** Machine integers *)
Definition wrap (w : Z) (x : Z) : Z := x `mod` 2 ^ w.
Definition u64 (x : Z) : Z := wrap 64 x.
Definition int64_max : Z := 2 ^ 63 - 1.
Definition int64_min : Z := - 2 ^ 63.

(** ** Go maps

    A [map[string]bool] used as a set reads [false] when the key is absent,
    a [map[string]string] reads the empty string. *)
Definition mget (m : gmap string string) (k : string) : string := default "" (m !! k).
Definition bget (m : gset string) (k : string) : bool := bool_decide (k ∈ m).

Arguments mget : simpl never.
Arguments bget : simpl never.

Lemma bget_true m k : bget m k = true ↔ k ∈ m.
Proof. apply bool_decide_eq_true. Qed.
Lemma bget_false m k : bget m k = false ↔ k ∉ m.
Proof. apply bool_decide_eq_false. Qed.

(** Go randomises the order in which [range] visits a map.  The order is a
    parameter: every statement holds for every order. *)
Class MapRange := {
  range : ∀ {V : Type}, gmap string V → list (string * V);
  range_perm : ∀ {V : Type} (m : gmap string V), range m ≡ₚ map_to_list m;
}.

(** [sort.Slice] promises a sorted permutation when the comparison is a strict
    weak order, and nothing about ties. *)
Record strict_weak_order {A} (lt : A → A → bool) : Prop := {
  swo_irrefl : ∀ a, lt a a = false;
  swo_trans : ∀ a b c, lt a b = true → lt b c = true → lt a c = true;
  swo_incomp : ∀ a b c, lt b a = false → lt c b = false → lt c a = false;
}.

Class SliceSort := {
  sort_slice : ∀ {A : Type}, (A → A → bool) → list A → list A;
  sort_slice_perm : ∀ {A} (lt : A → A → bool) l, sort_slice lt l ≡ₚ l;
  sort_slice_sorted : ∀ {A} (lt : A → A → bool) l,
    strict_weak_order lt → StronglySorted (λ a b, lt b a = false) (sort_slice lt l);
}.

(** Reference instances: the order of [map_to_list], and insertion sort. *)
Definition map_range : MapRange :=
  {| range _ m := map_to_list m; range_perm _ m := reflexivity _ |}.

Section InsertionSort.
Context {A : Type} (lt : A → A → bool).

Fixpoint insert_sorted (x : A) (l : list A) : list A :=
  match l with
  | [] => [x]
  | y :: l' => if lt y x then y :: insert_sorted x l' else x :: y :: l'
  end.

Definition insertion_sort (l : list A) : list A := foldr insert_sorted [] l.

Lemma insert_sorted_perm x l : insert_sorted x l ≡ₚ x :: l.
Proof.
  induction l as [|y l IH]; cbn; [done|]. destruct (lt y x); [|done].
  rewrite IH. apply Permutation_swap.
Qed.

Lemma insertion_sort_perm l : insertion_sort l ≡ₚ l.
Proof. induction l as [|x l IH]; cbn; [done|]. by rewrite insert_sorted_perm, IH. Qed.

Lemma insert_sorted_sorted x l :
  strict_weak_order lt →
  StronglySorted (λ a b, lt b a = false) l →
  StronglySorted (λ a b, lt b a = false) (insert_sorted x l).
Proof.
  intros Hlt. induction 1 as [|y l Hs IH Hall]; cbn; [repeat constructor|].
  destruct (lt y x) eqn:E.
  - constructor; [done|]. rewrite insert_sorted_perm. constructor; [|done].
    destruct (lt x y) eqn:E'; [|done].
    by rewrite <- (swo_irrefl _ Hlt y), (swo_trans _ Hlt y x y).
  - constructor; [by constructor|]. constructor; [done|].
    eapply Forall_impl; [exact Hall|]. intros z Hz. by eapply (swo_incomp _ Hlt).
Qed.

Lemma insertion_sort_sorted l :
  strict_weak_order lt → StronglySorted (λ a b, lt b a = false) (insertion_sort l).
Proof.
  intros Hlt. induction l; cbn; [constructor|]. by apply insert_sorted_sorted.
Qed.
End InsertionSort.

Definition insertion_slice_sort : SliceSort :=
  {| sort_slice _ lt l := insertion_sort lt l;
     sort_slice_perm _ lt l := insertion_sort_perm lt l;
     sort_slice_sorted _ lt l H := insertion_sort_sorted lt l H |}.

(** Boolean tests of the code as facts. *)
Ltac bools :=
  repeat match goal with
  | H : false = true |- _ => discriminate H
  | H : true = false |- _ => discriminate H
  | H : negb _ = true |- _ => apply negb_true_iff in H
  | H : negb _ = false |- _ => apply negb_false_iff in H
  | H : _ && _ = true |- _ => apply andb_true_iff in H as [? H]
  | H : _ || _ = false |- _ => apply orb_false_iff in H as [? H]
  | H : bool_decide _ = true |- _ => apply bool_decide_eq_true_1 in H
  | H : bool_decide _ = false |- _ => apply bool_decide_eq_false_1 in H
  | H : match ?o with Some _ => false | None => true end = _ |- _ => destruct o
  | H : ¬ (_ ≠ _) |- _ => apply dec_stable in H
  end.
(** The same with case distinctions. *)
Ltac bool_cases :=
  bools;
  repeat (match goal with
  | H : _ && _ = false |- _ => apply andb_false_iff in H as [H|H]
  | H : _ || _ = true |- _ => apply orb_true_iff in H as [H|H]
  end; bools).
