(* ===== verification/Prog.v ===== *)
(** * Effectful Go code as a free monad

    Every Go function that talks to the outside world (a host command, a
    file, the Kubernetes API, the clock) is a [prog op A]: a finite tree
    that either returns or issues one operation of the signature [op] and
    continues with the answer.  Nothing is assumed about the answers:
    [runs p tr a] says that some environment answers lead [p] to the
    result [a] along the trace [tr], and the theorems quantify over all of
    them.  [wp] computes the same statement by recursion, and [run] is the
    executable interpreter for a concrete environment. *)

From S2P Require Import Prelude.

Inductive prog (op : Type → Type) (A : Type) : Type :=
  | Ret (a : A)
  | Op {X : Type} (o : op X) (k : X → prog op A).
Arguments Ret {op A} a.
Arguments Op {op A X} o k.

Fixpoint bind {op A B} (p : prog op A) (f : A → prog op B) : prog op B :=
  match p with
  | Ret a => f a
  | Op o k => Op o (λ x, bind (k x) f)
  end.

Definition call {op X} (o : op X) : prog op X := Op o Ret.

Declare Scope prog_scope.
Delimit Scope prog_scope with prog.
Notation "'let!' x ':=' p 'in' q" := (bind p (λ x, q))
  (at level 10, x pattern, p at level 100, q at level 200) : prog_scope.
Notation "p ';;;' q" := (bind p (λ _, q))
  (at level 199, right associativity) : prog_scope.
Open Scope prog_scope.

(** [x, err := p; if err != nil { return err }] in a function whose own result
    is a value or an error, and the same for a call that only returns an error. *)
Definition ebind {op A B} (p : prog op (error + A)) (f : A → prog op (error + B)) : prog op (error + B) :=
  bind p (λ r, match r with inl e => Ret (inl e) | inr a => f a end).
Definition guard {op B} (p : prog op (option error)) (q : prog op (error + B)) : prog op (error + B) :=
  bind p (λ r, match r with Some e => Ret (inl e) | None => q end).
Definition seq_err {op} (p q : prog op (option error)) : prog op (option error) :=
  bind p (λ r, match r with Some e => Ret (Some e) | None => q end).
Notation "'let?' x ':=' p 'in' q" := (ebind p (λ x, q))
  (at level 10, x pattern, p at level 100, q at level 200) : prog_scope.
Notation "p ';?;' q" := (guard p q) (at level 199, right associativity) : prog_scope.
Notation "p ';!;' q" := (seq_err p q) (at level 199, right associativity) : prog_scope.

(** [if err := f(x); err != nil { return err }] over a slice. *)
Fixpoint for_err {op A} (l : list A) (f : A → prog op (option error)) : prog op (option error) :=
  match l with
  | [] => Ret None
  | x :: l' =>
      let! e := f x in
      match e with
      | Some err => Ret (Some err)
      | None => for_err l' f
      end
  end.

(** A loop that threads state and may leave the function early with [inr]. *)
Fixpoint for_state {op A S R} (l : list A) (s : S) (f : S → A → prog op (S + R)) : prog op (S + R) :=
  match l with
  | [] => Ret (inl s)
  | x :: l' =>
      let! r := f s x in
      match r with
      | inl s' => for_state l' s' f
      | inr out => Ret (inr out)
      end
  end.

(** A loop that cannot leave early. *)
Fixpoint for_each {op A} (l : list A) (f : A → prog op unit) : prog op unit :=
  match l with
  | [] => Ret tt
  | x :: l' => f x ;;; for_each l' f
  end.

(** Effectful filter: keeps the elements the body answers [true] for. *)
Fixpoint filterM {op A} (f : A → prog op bool) (l : list A) : prog op (list A) :=
  match l with
  | [] => Ret []
  | x :: l' =>
      let! b := f x in
      let! r := filterM f l' in
      Ret (if b then x :: r else r)
  end.

Inductive event (op : Type → Type) : Type :=
  | Ev {X : Type} (o : op X) (x : X).
Arguments Ev {op X} o x.

Abbreviation trace op := (list (event op)).

Inductive runs {op A} : prog op A → trace op → A → Prop :=
  | runs_ret a : runs (Ret a) [] a
  | runs_op X (o : op X) k x tr a : runs (k x) tr a → runs (Op o k) (Ev o x :: tr) a.

Fixpoint wp {op A} (p : prog op A) (Q : trace op → A → Prop) : Prop :=
  match p with
  | Ret a => Q [] a
  | Op o k => ∀ x, wp (k x) (λ tr a, Q (Ev o x :: tr) a)
  end.

(** An environment answers every operation and moves its own state. *)
Definition env (op : Type → Type) (S : Type) : Type := ∀ X, op X → S → X * S.

Fixpoint run {op S A} (h : env op S) (p : prog op A) (s : S) : A * trace op * S :=
  match p with
  | Ret a => (a, [], s)
  | Op o k =>
      let '(x, s') := h _ o s in
      let '(a, tr, s'') := run h (k x) s' in
      (a, Ev o x :: tr, s'')
  end.

Section Wp.
Context {op : Type → Type}.

Lemma wp_mono {A} (p : prog op A) (Q Q' : trace op → A → Prop) :
  wp p Q → (∀ tr a, Q tr a → Q' tr a) → wp p Q'.
Proof. revert Q Q'. induction p; cbn; eauto. Qed.

Lemma wp_bind {A B} (p : prog op A) (f : A → prog op B) Q :
  wp (bind p f) Q ↔ wp p (λ tr a, wp (f a) (λ tr' b, Q (tr ++ tr') b)).
Proof.
  revert Q. induction p as [a|X o k IH]; cbn; intros Q; [done|].
  split; intros H x; by apply (IH x (λ tr, Q (Ev o x :: tr))).
Qed.

Lemma wp_bind_2 {A B} (p : prog op A) (f : A → prog op B) Q :
  wp p (λ tr a, wp (f a) (λ tr' b, Q (tr ++ tr') b)) → wp (bind p f) Q.
Proof. by intros ?%wp_bind. Qed.

Lemma wp_ebind {A B} (p : prog op (error + A)) (f : A → prog op (error + B)) Q :
  wp p (λ tr r, match r with
                | inl e => Q tr (inl e)
                | inr a => wp (f a) (λ tr' b, Q (tr ++ tr') b)
                end) → wp (ebind p f) Q.
Proof.
  intros Hp. apply wp_bind_2. eapply wp_mono; [exact Hp|]. intros tr [e|a]; cbn; [|done].
  by rewrite app_nil_r.
Qed.

Lemma wp_guard {B} (p : prog op (option error)) (q : prog op (error + B)) Q :
  wp p (λ tr r, match r with
                | Some e => Q tr (inl e)
                | None => wp q (λ tr' b, Q (tr ++ tr') b)
                end) → wp (guard p q) Q.
Proof.
  intros Hp. apply wp_bind_2. eapply wp_mono; [exact Hp|]. intros tr [e|]; cbn; [|done].
  by rewrite app_nil_r.
Qed.

Lemma wp_seq_err (p q : prog op (option error)) Q :
  wp p (λ tr r, match r with
                | Some e => Q tr (Some e)
                | None => wp q (λ tr' r', Q (tr ++ tr') r')
                end) → wp (seq_err p q) Q.
Proof.
  intros Hp. apply wp_bind_2. eapply wp_mono; [exact Hp|]. intros tr [e|]; cbn; [|done].
  by rewrite app_nil_r.
Qed.

Lemma wp_and {A} (p : prog op A) (Q Q' : trace op → A → Prop) :
  wp p Q → wp p Q' → wp p (λ tr a, Q tr a ∧ Q' tr a).
Proof. revert Q Q'. induction p; cbn; eauto. Qed.

Lemma wp_runs {A} (p : prog op A) Q tr a : wp p Q → runs p tr a → Q tr a.
Proof.
  intros Hwp Hr. revert Q Hwp.
  induction Hr as [|X o k x tr a _ IH]; cbn; intros Q Hwp; [done|].
  exact (IH _ (Hwp x)).
Qed.

Lemma runs_wp {A} (p : prog op A) Q : (∀ tr a, runs p tr a → Q tr a) → wp p Q.
Proof.
  revert Q. induction p as [a|X o k IH]; cbn; intros Q H.
  - apply H. constructor.
  - intros x. apply IH. intros tr a Hr. apply H. by constructor.
Qed.

Lemma run_runs {S A} (h : env op S) (p : prog op A) s :
  runs p (run h p s).1.2 (run h p s).1.1.
Proof.
  revert s. induction p as [a|X o k IH]; cbn; intros s; [constructor|].
  destruct (h X o s) as [x s']. specialize (IH x s').
  destruct (run h (k x) s') as [[a tr] s'']. by constructor.
Qed.

(** Every program has a run: the model never blocks. *)
Lemma runs_total {S A} (h : env op S) (p : prog op A) (s : S) : ∃ tr a, runs p tr a.
Proof. eexists _, _. apply (run_runs h p s). Qed.

(** The loop rule with results: the trace is the concatenation of one trace
    per iteration that ran, and a loop that ends without error ran them all. *)
Lemma wp_for_err_all {A} (P : A → trace op → option error → Prop) (l : list A) f :
  (∀ x, x ∈ l → wp (f x) (P x)) →
  wp (for_err l f) (λ tr r, ∃ trs, tr = concat trs ∧
    Forall (λ t, ∃ x e, x ∈ l ∧ P x t e) trs ∧
    (r = None → Forall2 (λ x t, P x t None) l trs)).
Proof.
  induction l as [|x l IH]; cbn; intros H.
  { exists []. split_and!; [done|constructor|constructor]. }
  apply wp_bind. eapply wp_mono; [apply H; set_solver|]. intros tr r Hr.
  destruct r as [e|]; cbn.
  - exists [tr]. cbn. rewrite !app_nil_r. split_and!; [done| |done].
    constructor; [|constructor]. exists x, (Some e). set_solver.
  - eapply wp_mono; [apply IH; set_solver|].
    intros tr' r (trs & -> & Hall & Hok). exists (tr :: trs). split_and!; [done| |].
    + constructor; [exists x, None; set_solver|].
      eapply Forall_impl; [exact Hall|]. intros t (y & e & ? & ?). exists y, e. set_solver.
    + intros ?. constructor; auto.
Qed.

(** The same, event by event: a loop that ends without error did every element. *)
Lemma for_err_phase {A} (P : A → event op → Prop) (D : A → trace op → Prop) (l : list A) f :
  (∀ x, x ∈ l → wp (f x) (λ tr r, (∀ e, e ∈ tr → P x e) ∧ (r = None → D x tr))) →
  (∀ x t1 t2, D x t1 ∨ D x t2 → D x (t1 ++ t2)) →
  wp (for_err l f) (λ tr r, (∀ e, e ∈ tr → ∃ x, x ∈ l ∧ P x e) ∧ (r = None → ∀ x, x ∈ l → D x tr)).
Proof.
  intros Hf HD. induction l as [|x l IH]; cbn.
  { split; [intros e []%elem_of_nil|intros _ x []%elem_of_nil]. }
  apply wp_bind_2. eapply wp_mono; [apply Hf; set_solver|]. intros t1 r1 [H1 D1].
  destruct r1 as [e1|]; cbn.
  { rewrite app_nil_r. split; [|done]. intros e He. exists x. set_solver. }
  eapply wp_mono; [apply IH; set_solver|]. intros t2 r2 [H2 D2]. split.
  - intros e [He|He]%elem_of_app; [exists x; set_solver|]. destruct (H2 e He) as (y & ? & ?). exists y. set_solver.
  - intros Hr y [->|Hy]%elem_of_cons; auto.
Qed.

(** The loop rule with an invariant over the elements done and the state. *)
Lemma wp_for_state_inv {A S R} (I : list A → S → trace op → Prop) (E : trace op → R → Prop)
    (f : S → A → prog op (S + R)) l done s tr :
  I done s tr →
  (∀ done x s tr, x ∈ l → I done s tr →
     wp (f s x) (λ t r, match r with inl s' => I (done ++ [x]) s' (tr ++ t) | inr o => E (tr ++ t) o end)) →
  wp (for_state l s f) (λ t r, match r with inl s' => I (done ++ l) s' (tr ++ t) | inr o => E (tr ++ t) o end).
Proof.
  revert done s tr. induction l as [|x l IH]; intros done s tr HI Hf; cbn; [by rewrite !app_nil_r|].
  apply wp_bind_2. eapply wp_mono; [apply (Hf done x s tr); [set_solver|done]|].
  intros t1 [s'|o] H1; cbn; [|by rewrite app_nil_r].
  eapply wp_mono; [apply (IH (done ++ [x]) s' (tr ++ t1)); [done|]|].
  - intros. apply Hf; [set_solver|done].
  - intros t2 [s''|o] H2; by rewrite <- ?app_assoc in *.
Qed.

(** Loop rules.  [I] is a property of traces closed under concatenation. *)
Context (I : trace op → Prop).
Context (I_nil : I []) (I_app : ∀ t1 t2, I t1 → I t2 → I (t1 ++ t2)).

Lemma wp_for_err {A} (l : list A) (f : A → prog op (option error)) :
  (∀ x, x ∈ l → wp (f x) (λ tr _, I tr)) → wp (for_err l f) (λ tr _, I tr).
Proof using I_nil I_app.
  induction l as [|x l IH]; cbn; intros H; [done|].
  apply wp_bind. eapply wp_mono; [apply H; set_solver|].
  intros tr [e|] Htr; cbn.
  - by rewrite app_nil_r.
  - eapply wp_mono; [apply IH; set_solver|]. auto.
Qed.

Lemma wp_for_each {A} (l : list A) (f : A → prog op unit) :
  (∀ x, x ∈ l → wp (f x) (λ tr _, I tr)) → wp (for_each l f) (λ tr _, I tr).
Proof using I_nil I_app.
  induction l as [|x l IH]; cbn; intros H; [done|].
  apply wp_bind. eapply wp_mono; [apply H; set_solver|].
  intros tr [] Htr; cbn. eapply wp_mono; [apply IH; set_solver|]. auto.
Qed.

Lemma wp_for_state {A S R} (l : list A) (s : S) (f : S → A → prog op (S + R)) :
  (∀ s x, x ∈ l → wp (f s x) (λ tr _, I tr)) → wp (for_state l s f) (λ tr _, I tr).
Proof using I_nil I_app.
  revert s. induction l as [|x l IH]; cbn; intros s H; [done|].
  apply wp_bind. eapply wp_mono; [apply H; set_solver|].
  intros tr [s'|r] Htr; cbn.
  - eapply wp_mono; [apply IH; set_solver|]. auto.
  - by rewrite app_nil_r.
Qed.

Lemma wp_filterM {A} (f : A → prog op bool) (l : list A) :
  (∀ x, x ∈ l → wp (f x) (λ tr _, I tr)) →
  wp (filterM f l) (λ tr r, I tr ∧ r ⊆ l).
Proof using I_nil I_app.
  induction l as [|x l IH]; cbn; intros H; [done|].
  apply wp_bind. eapply wp_mono; [apply H; set_solver|].
  intros tr b Htr; cbn. apply wp_bind. eapply wp_mono; [apply IH; set_solver|].
  intros tr' r [Htr' Hsub]. cbn. rewrite app_nil_r. split; [auto|].
  destruct b; set_solver.
Qed.
End Wp.

(** Symbolic execution of a program: step through operations, split on the
    code's own matches, stop at the postcondition. *)
Ltac prog_head p :=
  lazymatch p with
  | bind ?q _ => prog_head q
  | _ => p
  end.
Ltac wp_step :=
  cbn [wp bind call ebind guard seq_err];
  lazymatch goal with
  | |- ∀ x, wp (@?p x) (@?q x) => intros ?
  | |- ∀ x : (string * option error)%type, _ => intros ?
  | |- ∀ x : (error + _)%type, _ => intros ?
  | |- wp ?p _ =>
      let h := prog_head p in
      lazymatch h with match ?x with _ => _ end => destruct x eqn:? end
  end.
Ltac wp_go := repeat wp_step; cbn [wp bind call ebind guard seq_err].

(** ** Which operations a program can issue at all *)
Section Issues.
Context {op : Type → Type} (P : ∀ X, op X → Prop).

Fixpoint issues {A} (p : prog op A) : Prop :=
  match p with
  | Ret _ => True
  | Op o k => P _ o ∧ ∀ x, issues (k x)
  end.

Definition ev_issues (e : event op) : Prop := match e with Ev o _ => P _ o end.

Lemma issues_wp {A} (p : prog op A) : issues p → wp p (λ tr _, Forall ev_issues tr).
Proof.
  induction p as [a|X o k IH]; cbn; [constructor|]. intros [Ho Hk] x.
  eapply wp_mono; [by apply IH|]. intros tr ? Htr. by constructor.
Qed.

Lemma issues_bind {A B} (p : prog op A) (f : A → prog op B) :
  issues p → (∀ a, issues (f a)) → issues (bind p f).
Proof. intros Hp Hf. induction p as [a|X o k IH]; cbn in *; [done|]. naive_solver. Qed.

Lemma issues_for_err {A} (l : list A) f : (∀ x, issues (f x)) → issues (for_err l f).
Proof. intros Hf. induction l; cbn; [done|]. apply issues_bind; [done|]. by intros []. Qed.
Lemma issues_for_each {A} (l : list A) f : (∀ x, issues (f x)) → issues (for_each l f).
Proof. intros Hf. induction l; cbn; [done|]. by apply issues_bind. Qed.
Lemma issues_for_state {A S R} (l : list A) (s : S) (f : S → A → prog op (S + R)) :
  (∀ s x, issues (f s x)) → issues (for_state l s f).
Proof.
  intros Hf. revert s. induction l; intros s; cbn; [done|]. apply issues_bind; [done|]. by intros [].
Qed.
(** What every run shows, the program issues: given an answer to each
    operation. *)
Lemma wp_issues (answer : ∀ X, op X → X) {A} (p : prog op A) :
  wp p (λ tr _, Forall ev_issues tr) → issues p.
Proof.
  induction p as [a|X o k IH]; cbn; [done|]. intros Hwp. split.
  - destruct (runs_total (λ X o s, (answer X o, s)) (k (answer X o)) tt) as (tr & a & Hr).
    pose proof (wp_runs _ _ _ _ (Hwp (answer X o)) Hr) as Hall. by inversion Hall.
  - intros x. apply IH. eapply wp_mono; [apply Hwp|]. intros tr a Hall. by inversion Hall.
Qed.
End Issues.

(** Walks an unfolded program down to its operations. *)
Ltac issues_go :=
  repeat (intros; cbn beta iota delta [issues call];
    lazymatch goal with
    | |- True => exact I
    | |- _ ∧ _ => split; [done|]
    | |- issues _ (Ret _) => exact I
    | |- issues _ (bind _ _) => apply issues_bind
    | |- issues _ (seq_err _ _) => apply issues_bind
    | |- issues _ (for_err _ _) => apply issues_for_err
    | |- issues _ (for_each _ _) => apply issues_for_each
    | |- issues _ (for_state _ _ _) => apply issues_for_state
    | |- issues _ (match ?x with _ => _ end) => destruct x
    | |- issues _ (if ?x then _ else _) => destruct x
    end).

(** A trace is lawful when every event is allowed by what came before it. *)
Definition lawful {op : Type → Type} (allow : trace op → event op → Prop) (tr : trace op) : Prop :=
  ∀ tr1 e tr2, tr = tr1 ++ e :: tr2 → allow tr1 e.

Section Lawful.
Context {op : Type → Type} (allow : trace op → event op → Prop).

Lemma lawful_nil : lawful allow [].
Proof. intros [|??] ?? [=]. Qed.

Lemma lawful_in tr e : lawful allow tr → e ∈ tr → ∃ tr1 tr2, tr = tr1 ++ e :: tr2 ∧ allow tr1 e.
Proof. intros H (l1 & l2 & ->)%list_elem_of_split. eauto. Qed.

Lemma lawful_app_dep t1 t2 :
  lawful allow t1 → lawful (λ t, allow (t1 ++ t)) t2 → lawful allow (t1 ++ t2).
Proof.
  intros H1 H2 tr1 e tr2 Heq.
  apply app_eq_inv in Heq as [(k & -> & Heq)|(k & -> & Heq)]; [|eauto].
  destruct k as [|e' k]; cbn in *; simplify_eq; [|eauto].
  rewrite app_nil_r in *. rewrite <- (app_nil_r tr1). by apply (H2 [] e tr2).
Qed.

Context (mono : ∀ t1 t2 e, allow t2 e → allow (t1 ++ t2) e).
Lemma lawful_app t1 t2 : lawful allow t1 → lawful allow t2 → lawful allow (t1 ++ t2).
Proof using mono. intros H1 H2. apply lawful_app_dep; [done|]. intros tr1 e tr2 ->. eauto. Qed.
End Lawful.

Lemma lawful_cons {op} (allow : trace op → event op → Prop) e tr :
  allow [] e → lawful (λ t, allow (e :: t)) tr → lawful allow (e :: tr).
Proof.
  intros He Htr. apply (lawful_app_dep allow [e]); [|done].
  intros [|? [|??]] ? ? [=]; by subst.
Qed.
Lemma lawful_mono {op} (allow allow' : trace op → event op → Prop) tr :
  lawful allow tr → (∀ t e, allow t e → allow' t e) → lawful allow' tr.
Proof. intros H Hi tr1 e tr2 ->. eauto. Qed.
Ltac lawful_go := repeat (apply lawful_cons; [|]); try apply lawful_nil.

(** Case analysis on [e ∈ e1 :: .. :: en :: []]. *)
Ltac split_in :=
  repeat match goal with
  | H : _ ∈ [] |- _ => by apply elem_of_nil in H
  | H : _ ∈ _ :: _ |- _ => apply elem_of_cons in H as [H|H]; [subst|]
  | H : _ ∈ _ ++ _ |- _ => apply elem_of_app in H as [H|H]
  end.
