(* ===== verification/Contract.v ===== *)
(** * Assume and guarantee

    A judgement on effectful programs for properties that pass from the
    answers a program receives to the operations it issues: [good p Q] says
    that as long as every answer so far satisfied [answers], every operation
    [p] issues satisfies [emits], and its result satisfies [Q].  It is defined
    by recursion on the program like [wp], but forgets the trace, so that the
    proofs follow the code's own structure. *)

From S2P Require Import Prelude Prog.

Section Contract.
Context {op : Type → Type} (emits : ∀ X, op X → Prop) (answers : ∀ X, op X → X → Prop).

Fixpoint good {A} (p : prog op A) (Q : A → Prop) : Prop :=
  match p with
  | Ret a => Q a
  | Op o k => emits _ o ∧ ∀ x, answers _ o x → good (k x) Q
  end.

Definition ev_answers (e : event op) : Prop := match e with Ev o x => answers _ o x end.

Lemma good_sound {A} (p : prog op A) Q tr a :
  good p Q → runs p tr a → Forall ev_answers tr → Forall (ev_issues emits) tr ∧ Q a.
Proof.
  intros Hg Hr. revert Hg. induction Hr as [a|X o k x tr a _ IH]; cbn; [by auto|].
  intros [Ho Hk] (Hx & Htr)%Forall_cons_1. destruct (IH (Hk x Hx) Htr). split; [by constructor|done].
Qed.

Lemma good_mono {A} (p : prog op A) (Q Q' : A → Prop) : good p Q → (∀ a, Q a → Q' a) → good p Q'.
Proof. intros Hp HQ. induction p as [a|X o k IH]; cbn in *; [auto|]. naive_solver. Qed.

Lemma good_bind {A B} (p : prog op A) (f : A → prog op B) (Q : A → Prop) (Q' : B → Prop) :
  good p Q → (∀ a, Q a → good (f a) Q') → good (bind p f) Q'.
Proof. intros Hp Hf. induction p as [a|X o k IH]; cbn in *; [auto|]. naive_solver. Qed.

(** A program whose operations are harmless on their own, with what its runs
    are known to return. *)
Lemma good_wp {A} (p : prog op A) (Q : A → Prop) : issues emits p → wp p (λ _ a, Q a) → good p Q.
Proof. induction p as [a|X o k IH]; cbn; [done|]. intros [Ho Hk] Hwp. split; [done|]. auto. Qed.
Lemma good_issues {A} (p : prog op A) : issues emits p → good p (λ _, True).
Proof. intros Hi. apply good_wp; [done|]. clear Hi. induction p; cbn; auto. Qed.

(** Loops keep an invariant of their state. *)
Lemma good_for_state {A S R} (l : list A) (s : S) (f : S → A → prog op (S + R)) (I : S → Prop) (E : R → Prop) :
  I s → (∀ s x, I s → good (f s x) (λ r, match r with inl s' => I s' | inr e => E e end)) →
  good (for_state l s f) (λ r, match r with inl s' => I s' | inr e => E e end).
Proof.
  revert s. induction l as [|x l IH]; intros s Hs Hf; cbn; [done|].
  eapply good_bind; [by apply Hf|]. intros [s'|e]; cbn; auto.
Qed.
End Contract.
Arguments good {op} emits answers {A} !p Q.

Lemma issues_impl {op A} (P P' : ∀ X, op X → Prop) (p : prog op A) :
  (∀ X o, P X o → P' X o) → issues P p → issues P' p.
Proof. intros Hi. induction p as [a|X o k IH]; cbn; [done|]. naive_solver. Qed.
