(* ===== verification/GoStrings.v ===== *)
(** * The parts of Go's [strings] and [strconv] packages the sources use

    Strings are byte strings.  White space is the ASCII set of
    [unicode.IsSpace]; the tools whose output is parsed print ASCII. *)

From S2P Require Import Prelude.
From Stdlib Require Import Ascii String.
Open Scope string_scope.
Open Scope list_scope.

Definition newline : ascii := "010"%char.
Definition slash : ascii := "/"%char.
Definition bar : ascii := "|"%char.
Definition colon : ascii := ":"%char.
Definition nl : string := String newline "".

Definition is_space (c : ascii) : bool :=
  let n := nat_of_ascii c in
  (n =? 32)%nat || ((9 <=? n)%nat && (n <=? 13)%nat).

Definition ch_eqb (a b : ascii) : bool := Ascii.eqb a b.
Arguments ch_eqb : simpl never.

(** [strings.HasPrefix], [strings.Contains]. *)
Fixpoint HasPrefix (s p : string) : bool :=
  match p, s with
  | "", _ => true
  | String c p', String d s' => ch_eqb c d && HasPrefix s' p'
  | _, "" => false
  end.

Fixpoint Contains (s sub : string) : bool :=
  HasPrefix s sub || match s with "" => false | String _ s' => Contains s' sub end.

(** The rest of [s] after its first [n] bytes: the slice [s[n:]]. *)
Fixpoint sdrop (n : nat) (s : string) : string :=
  match n, s with
  | S n', String _ s' => sdrop n' s'
  | _, _ => s
  end.

Fixpoint stake (n : nat) (s : string) : string :=
  match n, s with
  | S n', String c s' => String c (stake n' s')
  | _, _ => ""
  end.

Definition CutPrefix (s p : string) : string * bool :=
  if HasPrefix s p then (sdrop (String.length p) s, true) else (s, false).
Definition TrimPrefix (s p : string) : string := (CutPrefix s p).1.

(** [strings.Cut] on a one-byte separator: before, after, found. *)
Fixpoint Cut (s : string) (sep : ascii) : string * string * bool :=
  match s with
  | "" => ("", "", false)
  | String c s' =>
      if ch_eqb c sep then ("", s', true)
      else let '(b, a, f) := Cut s' sep in (String c b, a, f)
  end.

(** [strings.Split] on a one-byte separator. *)
Fixpoint Split (s : string) (sep : ascii) : list string :=
  match s with
  | "" => [""]
  | String c s' =>
      if ch_eqb c sep then "" :: Split s' sep
      else match Split s' sep with
           | [] => [String c ""]
           | w :: ws => String c w :: ws
           end
  end.

Definition SplitLines (s : string) : list string := Split s newline.

Fixpoint TrimLeftSpace (s : string) : string :=
  match s with
  | String c s' => if is_space c then TrimLeftSpace s' else s
  | "" => ""
  end.

(** Drops the trailing bytes satisfying [f]. *)
Fixpoint TrimRightFunc (f : ascii → bool) (s : string) : string :=
  match s with
  | "" => ""
  | String c s' =>
      match TrimRightFunc f s' with
      | "" => if f c then "" else String c ""
      | r => String c r
      end
  end.

Definition TrimSpace (s : string) : string := TrimRightFunc is_space (TrimLeftSpace s).
Definition TrimRightNl (s : string) : string := TrimRightFunc (ch_eqb newline) s.

(** [strings.Fields]: the maximal runs of non-space bytes. *)
Fixpoint Fields_aux (cur : string) (s : string) : list string :=
  match s with
  | "" => if bool_decide (cur = "") then [] else [cur]
  | String c s' =>
      if is_space c
      then if bool_decide (cur = "") then Fields_aux "" s' else cur :: Fields_aux "" s'
      else Fields_aux (cur +:+ String c "") s'
  end.
Definition Fields (s : string) : list string := Fields_aux "" s.

Fixpoint Join (l : list string) (sep : string) : string :=
  match l with
  | [] => ""
  | [x] => x
  | x :: l' => x +:+ sep +:+ Join l' sep
  end.

(** [strings.IndexByte], [strings.LastIndex] on one byte; [None] is [-1]. *)
Fixpoint IndexByte (s : string) (c : ascii) : option nat :=
  match s with
  | "" => None
  | String d s' => if ch_eqb c d then Some 0 else S <$> IndexByte s' c
  end.
Fixpoint LastIndexByte (s : string) (c : ascii) : option nat :=
  match s with
  | "" => None
  | String d s' =>
      match LastIndexByte s' c with
      | Some i => Some (S i)
      | None => if ch_eqb c d then Some 0 else None
      end
  end.

(** [strings.Index] on a string. *)
Fixpoint Index (s sub : string) : option nat :=
  if HasPrefix s sub then Some 0
  else match s with "" => None | String _ s' => S <$> Index s' sub end.

(** [strconv.Itoa], [%d]. *)
Definition Itoa (n : Z) : string := pretty n.

(** [strconv.ParseInt(s, 10, 64)]: the value and the error.  A syntax error
    yields 0, a range error the nearest representable value. *)
Definition digit (c : ascii) : option Z :=
  let n := Z.of_nat (nat_of_ascii c) in
  if (48 <=? n)%Z && (n <=? 57)%Z then Some (n - 48)%Z else None.
Fixpoint parse_digits (acc : Z) (s : string) : option Z :=
  match s with
  | "" => Some acc
  | String c s' => d ← digit c; parse_digits (acc * 10 + d)%Z s'
  end.
Definition ParseInt (s : string) : Z * option error :=
  let '(neg, ds) :=
    match s with
    | String "-" s' => (true, s')
    | String "+" s' => (false, s')
    | _ => (false, s)
    end in
  match ds, parse_digits 0 ds with
  | "", _ | _, None => (0%Z, Some (errorf ("strconv.ParseInt: parsing " +:+ s +:+ ": invalid syntax")))
  | _, Some n =>
      let v := if neg then (- n)%Z else n in
      if (v <? int64_min)%Z then (int64_min, Some (errorf ("strconv.ParseInt: parsing " +:+ s +:+ ": value out of range")))
      else if (int64_max <? v)%Z then (int64_max, Some (errorf ("strconv.ParseInt: parsing " +:+ s +:+ ": value out of range")))
      else (v, None)
  end.

(** Go's [<] on strings: bytewise lexicographic. *)
Definition ch_ltb (c d : ascii) : bool := (nat_of_ascii c <? nat_of_ascii d)%nat.
Arguments ch_ltb : simpl never.
Fixpoint str_ltb (a b : string) : bool :=
  match a, b with
  | _, "" => false
  | "", String _ _ => true
  | String c a', String d b' =>
      ch_ltb c d || (ch_eqb c d && str_ltb a' b')
  end.

(** ** Facts *)

Lemma ch_eqb_eq a b : ch_eqb a b = true ↔ a = b.
Proof. apply Ascii.eqb_eq. Qed.
Lemma ch_eqb_refl a : ch_eqb a a = true.
Proof. apply Ascii.eqb_refl. Qed.

Lemma sapp_cons c a b : String c a +:+ b = String c (a +:+ b).
Proof. done. Qed.
Lemma sapp_nil_l b : "" +:+ b = b.
Proof. done. Qed.

Lemma HasPrefix_nil s : HasPrefix s "" = true.
Proof. by destruct s. Qed.

Lemma HasPrefix_app p s : HasPrefix (p +:+ s) p = true.
Proof.
  induction p as [|c p IH]; rewrite ?sapp_cons; cbn; [apply HasPrefix_nil|].
  by rewrite ch_eqb_refl.
Qed.

Lemma HasPrefix_spec s p : HasPrefix s p = true ↔ ∃ r, s = p +:+ r.
Proof.
  split; [|intros [r ->]; apply HasPrefix_app].
  revert s. induction p as [|c p IH]; intros s; [by exists s|].
  destruct s as [|d s]; [done|]. cbn. rewrite andb_true_iff, ch_eqb_eq.
  intros [-> [r ->]%IH]. by exists r.
Qed.

Lemma sapp_nil_r s : s +:+ "" = s.
Proof. induction s as [|c s IH]; [done|]. by rewrite sapp_cons, IH. Qed.

Lemma sapp_assoc a b c : (a +:+ b) +:+ c = a +:+ b +:+ c.
Proof. induction a as [|x a IH]; [done|]. by rewrite !sapp_cons, IH. Qed.

#[global] Instance sapp_inj_r p : Inj (=) (=) (String.append p).
Proof. intros a b. induction p as [|c p IH]; [done|]. rewrite !sapp_cons. intros [= H]. auto. Qed.

(** A separator occurs in a string. *)
Fixpoint has_char (c : ascii) (s : string) : bool :=
  match s with "" => false | String d s' => ch_eqb c d || has_char c s' end.
Lemma has_char_app c a b : has_char c (a +:+ b) = has_char c a || has_char c b.
Proof. induction a as [|d a IH]; [done|]. rewrite sapp_cons. cbn. by rewrite IH, orb_assoc. Qed.

Lemma cut_unique c a b a' b' :
  has_char c a = false → has_char c a' = false →
  a +:+ String c b = a' +:+ String c b' → a = a' ∧ b = b'.
Proof.
  revert a'. induction a as [|x a IH]; intros [|y a'];
    rewrite ?sapp_cons, ?sapp_nil_l; cbn; intros Ha Ha' [=]; subst; try done.
  - rewrite ch_eqb_refl in Ha'. done.
  - rewrite ch_eqb_refl in Ha. done.
  - apply orb_false_iff in Ha as [_ Ha]. apply orb_false_iff in Ha' as [_ Ha'].
    destruct (IH a') as [-> ->]; auto.
Qed.

Lemma ch_ltb_lt c d : ch_ltb c d = true ↔ (nat_of_ascii c < nat_of_ascii d)%nat.
Proof. apply Nat.ltb_lt. Qed.
Lemma ch_ltb_ge c d : ch_ltb c d = false ↔ (nat_of_ascii d <= nat_of_ascii c)%nat.
Proof. apply Nat.ltb_ge. Qed.

Lemma str_ltb_irrefl a : str_ltb a a = false.
Proof.
  induction a as [|c a IH]; cbn; [done|].
  rewrite IH, andb_false_r, orb_false_r. apply ch_ltb_ge. lia.
Qed.

Lemma str_ltb_trans a b c : str_ltb a b = true → str_ltb b c = true → str_ltb a c = true.
Proof.
  revert b c. induction a as [|x a IH]; intros [|y b] [|z c]; cbn; try done.
  rewrite !orb_true_iff, !andb_true_iff, !ch_ltb_lt, !ch_eqb_eq.
  intros [?|[<- Hab]] [?|[<- Hbc]]; [left; lia..|right]. eauto.
Qed.

Lemma str_ltb_total a b : str_ltb a b = false → str_ltb b a = false → a = b.
Proof.
  revert b. induction a as [|x a IH]; intros [|y b]; cbn; try done.
  rewrite !orb_false_iff, !ch_ltb_ge. intros [? H1] [? H2].
  assert (x = y) as ->.
  { rewrite <- (ascii_nat_embedding x), <- (ascii_nat_embedding y). f_equal. lia. }
  rewrite ch_eqb_refl in H1, H2. f_equal. by apply IH.
Qed.

Lemma str_ltb_swo {A} (key : A → string) :
  strict_weak_order (λ a b, str_ltb (key a) (key b)).
Proof.
  split.
  - intros. apply str_ltb_irrefl.
  - intros a b c. apply str_ltb_trans.
  - intros a b c Hba Hcb. destruct (str_ltb (key c) (key a)) eqn:Hca; [|done].
    destruct (str_ltb (key a) (key b)) eqn:Hab.
    + by rewrite (str_ltb_trans _ _ _ Hca Hab) in Hcb.
    + pose proof (str_ltb_total _ _ Hab Hba) as Heq. congruence.
Qed.

(** Well-known outputs, by computation. *)
Example split_ex : Split "a,b,,c" "," = ["a"; "b"; ""; "c"].
Proof. reflexivity. Qed.
Example fields_ex : Fields "  vdb[0]  x " = ["vdb[0]"; "x"].
Proof. reflexivity. Qed.
Example trim_ex : TrimSpace "  a b  " = "a b".
Proof. reflexivity. Qed.
Example parseint_ex : ParseInt "-120" = ((-120)%Z, None).
Proof. reflexivity. Qed.
