(* ===== verification/Flags.v ===== *)
(** * Command lines

    Go's flag package as the entry points use it: [flag.Parse] over the
    process's arguments.  A flag is named with one or two dashes; a string flag
    takes its value after an equals sign or from the next argument, a boolean
    flag only after an equals sign.  The command line's FlagSet exits the
    process on an error. *)

From Stdlib Require Import Ascii.
From S2P Require Import Prelude GoStrings.

(** [strconv.ParseBool] *)
Definition ParseBool (s : string) : option bool :=
  if bool_decide (s ∈ ["1"; "t"; "T"; "TRUE"; "true"; "True"]) then Some true
  else if bool_decide (s ∈ ["0"; "f"; "F"; "FALSE"; "false"; "False"]) then Some false
  else None.

Record flag_def := { fd_bool : bool; fd_accepts : string → bool }.
Abbreviation FlagSet := (gmap string flag_def).
Definition StringVar : flag_def := {| fd_bool := false; fd_accepts _ := true |}.
Definition BoolVar : flag_def := {| fd_bool := true; fd_accepts s := bool_decide (is_Some (ParseBool s)) |}.

(** ** One argument *)
Definition dash : ascii := "-"%char.
Definition equals : ascii := "="%char.
Inductive word := NotFlag | Terminator | BadSyntax | FlagWord (name : string) (value : option string).
Definition flag_word (name : string) : word :=
  match name with
  | "" => BadSyntax
  | String c rest =>
      if ch_eqb c dash || ch_eqb c equals then BadSyntax
      else let '(before, after, found) := Cut rest equals in
           FlagWord (String c before) (if found then Some after else None)
  end.
Definition arg_word (s : string) : word :=
  match s with
  | "" | String _ "" => NotFlag
  | String c (String d rest) =>
      if negb (ch_eqb c dash) then NotFlag
      else if ch_eqb d dash then (if bool_decide (rest = "") then Terminator else flag_word rest)
      else flag_word (String d rest)
  end.

(** ** The command line *)
Inductive parsed := Parsed (set : gmap string string) (rest : list string) | HelpAsked | BadArgument (arg : string).
Fixpoint Parse (fs : FlagSet) (args : list string) (set : gmap string string) : parsed :=
  match args with
  | [] => Parsed set []
  | s :: rest =>
      match arg_word s with
      | NotFlag => Parsed set args
      | Terminator => Parsed set rest
      | BadSyntax => BadArgument s
      | FlagWord name value =>
          match fs !! name with
          | None => if bool_decide (name ∈ ["help"; "h"]) then HelpAsked else BadArgument s
          | Some d =>
              if fd_bool d then
                let v := default "true" value in
                if fd_accepts d v then Parse fs rest (<[name := v]> set) else BadArgument s
              else
                match value, rest with
                | Some v, _ => if fd_accepts d v then Parse fs rest (<[name := v]> set) else BadArgument s
                | None, v :: rest' => if fd_accepts d v then Parse fs rest' (<[name := v]> set) else BadArgument s
                | None, [] => BadArgument s
                end
          end
      end
  end.
(** The variables after [flag.Parse]. *)
Definition string_flag (set : gmap string string) (name def : string) : string := default def (set !! name).
Definition bool_flag (set : gmap string string) (name : string) (def : bool) : bool :=
  default def (set !! name ≫= ParseBool).

(** ** Arguments read back *)
Definition flag_name (name : string) : bool :=
  match name with
  | "" => false
  | String c rest => negb (ch_eqb c dash || ch_eqb c equals) && negb (has_char equals rest)
  end.
Definition setting (x : string * string) : string := "--" +:+ x.1 +:+ String equals x.2.
Definition settable (fs : FlagSet) (x : string * string) : bool :=
  flag_name x.1 && match fs !! x.1 with Some d => fd_accepts d x.2 | None => false end.

Lemma Cut_app c a b : has_char c a = false → Cut (a +:+ String c b) c = (a, b, true).
Proof.
  induction a as [|d a IH]; intros Ha.
  - rewrite sapp_nil_l. cbn. by rewrite ch_eqb_refl.
  - cbn in Ha. apply orb_false_iff in Ha as [Hd Ha]. rewrite sapp_cons. cbn. rewrite (IH Ha).
    destruct (ch_eqb d c) eqn:E; [|done]. apply ch_eqb_eq in E as ->. by rewrite ch_eqb_refl in Hd.
Qed.
Lemma setting_word n v : flag_name n = true → arg_word (setting (n, v)) = FlagWord n (Some v).
Proof.
  destruct n as [|c n]; [done|]. cbn. intros [Hc Hn]%andb_true_iff. apply negb_true_iff in Hc, Hn.
  change (flag_word (String c (n +:+ String equals v)) = FlagWord (String c n) (Some v)).
  cbn [flag_word]. by rewrite Hc, Cut_app.
Qed.
Lemma parse_setting fs x rest set : settable fs x = true → Parse fs (setting x :: rest) set = Parse fs rest (<[x.1 := x.2]> set).
Proof.
  destruct x as [n v]. unfold settable. intros [Hn Hs]%andb_true_iff. cbn [Parse]. cbn in Hn, Hs. rewrite (setting_word n v Hn). cbn.
  destruct (fs !! n) as [d|] eqn:E; [|done]. rewrite Hs. by destruct (fd_bool d).
Qed.

(** What was set was accepted by its flag. *)
Definition set_ok (fs : FlagSet) (set : gmap string string) : Prop :=
  map_Forall (λ n v, ∃ d, fs !! n = Some d ∧ fd_accepts d v = true) set.
Lemma set_ok_insert fs set n d v : fs !! n = Some d → fd_accepts d v = true → set_ok fs set → set_ok fs (<[n := v]> set).
Proof. intros ? ? Hs. apply map_Forall_insert_2; [by exists d|exact Hs]. Qed.
Lemma parse_ok fs args : ∀ set set' rest, set_ok fs set → Parse fs args set = Parsed set' rest → set_ok fs set' ∧ suffix rest args.
Proof.
  assert (∀ (n : nat) args set set' rest, (length args ≤ n)%nat → set_ok fs set → Parse fs args set = Parsed set' rest →
    set_ok fs set' ∧ suffix rest args) as Hn; [|intros set set' rest; by apply (Hn (length args))].
  clear args. induction n as [|n IH]; intros args set set' rest Hlen Hs; (destruct args as [|s args]; [intros [= <- <-]; by split|]);
    cbn in Hlen; [lia|].
  cbn [Parse]. destruct (arg_word s) as [| | |name value]; [by intros [= <- <-]|intros [= <- <-]; split; [done|by exists [s]]|done|].
  destruct (fs !! name) as [d|] eqn:Ed; [|by case_bool_decide].
  assert (∀ args' v, suffix args' args → fd_accepts d v = true → Parse fs args' (<[name := v]> set) = Parsed set' rest →
    set_ok fs set' ∧ suffix rest (s :: args)) as Hgo.
  { intros args' v Hsuf Hv Hp. pose proof (suffix_length _ _ Hsuf).
    destruct (IH args' _ _ _ ltac:(lia) (set_ok_insert _ _ _ _ _ Ed Hv Hs) Hp). split; [done|]. apply suffix_cons_r. by transitivity args'. }
  destruct (fd_bool d).
  - destruct (fd_accepts d _) eqn:Hv; [|done]. by apply Hgo.
  - destruct value as [v|]; [destruct (fd_accepts d v) eqn:Hv; [by apply Hgo|done]|].
    destruct args as [|v args]; [done|]. destruct (fd_accepts d v) eqn:Hv; [|done]. apply Hgo; [by exists [v]|done].
Qed.

(** A printed command line is read back.  Arguments that set flags of the
    set to values the flags accept, one after the other, parse to exactly those
    values, the last one of a flag winning, and leave the arguments that follow;
    and whatever the arguments, every value a parse returns was accepted by its
    flag, so a boolean flag it sets has a boolean value. *)
Lemma flags_roundtrip fs (l : list (string * string)) rest :
  Forall (λ x, settable fs x = true) l →
  Parse fs ((setting <$> l) ++ rest) ∅ = Parse fs rest (list_to_map (reverse l)) ∧
  ∀ args set rest', Parse fs args ∅ = Parsed set rest' → set_ok fs set ∧ suffix rest' args.
Proof.
  intros Hl. split; [|intros args set rest'; apply parse_ok, map_Forall_empty].
  cut (∀ set, Parse fs ((setting <$> l) ++ rest) set = Parse fs rest (list_to_map (reverse l) ∪ set)).
  { intros H. by rewrite H, (right_id_L ∅ (∪)). }
  induction Hl as [|[n v] l Hx _ IH]; intros set; cbn [fmap list_fmap app].
  { by rewrite reverse_nil, list_to_map_nil, (left_id_L ∅ (∪)). }
  rewrite (parse_setting _ _ _ _ Hx), IH. f_equal. rewrite reverse_cons, list_to_map_app. cbn.
  by rewrite insert_empty, <- (assoc_L (∪)), insert_union_singleton_l.
Qed.

Definition demo_flags : FlagSet := {["leader-elect" := BoolVar; "metrics-bind-address" := StringVar]}.
Example flags_ex :
  Parse demo_flags ["--leader-elect=false"; "--leader-elect=1"; "-metrics-bind-address"; ":8443"] ∅ =
    Parsed {["leader-elect" := "1"; "metrics-bind-address" := ":8443"]} [] ∧
  Parse demo_flags ["--leader-elect=maybe"] ∅ = BadArgument "--leader-elect=maybe".
Proof.
  split; [|vm_compute; reflexivity].
  pose proof (proj1 (flags_roundtrip demo_flags [("leader-elect", "false"); ("leader-elect", "1")] ["-metrics-bind-address"; ":8443"]
    ltac:(repeat constructor))) as E.
  etrans; [exact E|vm_compute; reflexivity].
Defined.
