(* ===== verification/ApiTypes.v ===== *)
(** * The API objects (operator/api)

    One record per Go struct with the fields the code reads or writes.
    [TypeMeta] and fields nothing in the modelled code touches are left
    out.  A [*T] is an [option T]; a [*resource.Quantity] is an option of
    its [Value()], a [[]byte] a string.  The Kubernetes types (Node, PVC, PV,
    Secret, StorageClass) carry the fields the code uses. *)

From S2P Require Import Prelude GoStrings.

(** ** metav1 *)
Record NamespacedName := NN { nn_Namespace : string; nn_Name : string }.
#[global] Instance NamespacedName_eq_dec : EqDecision NamespacedName.
Proof. solve_decision. Defined.
#[global] Instance NamespacedName_countable : Countable NamespacedName.
Proof.
  apply (inj_countable' (λ n, (nn_Namespace n, nn_Name n)) (λ p, NN p.1 p.2)).
  by intros [].
Defined.

Record ObjectMeta := {
  Name : string;
  Namespace : string;
  Generation : Z;
  ResourceVersion : string;
  DeletionTimestamp : option Z;
  Finalizers : list string;
  Annotations : gmap string string;
  Labels : gmap string string;
}.

Definition named (ns name : string) : ObjectMeta :=
  {| Name := name; Namespace := ns; Generation := 0; ResourceVersion := "";
     DeletionTimestamp := None; Finalizers := []; Annotations := ∅; Labels := ∅ |}.

Definition deleting (m : ObjectMeta) : bool :=
  match DeletionTimestamp m with Some _ => true | None => false end.
Arguments deleting : simpl never.
Definition key_of (m : ObjectMeta) : NamespacedName := NN (Namespace m) (Name m).

Record Condition := {
  c_Type : string;
  c_Status : string;
  c_Reason : string;
  c_Message : string;
  c_ObservedGeneration : Z;
}.
#[global] Instance Condition_eq_dec : EqDecision Condition.
Proof. solve_decision. Defined.

Definition ConditionTrue : string := "True".
Definition ConditionFalse : string := "False".
Definition ConditionUnknown : string := "Unknown".

(** [k8s.io/apimachinery/pkg/api/meta] and controller-runtime's
    [controllerutil] are third-party: they are parameters, with their
    documented behaviour as laws.  [LastTransitionTime] is not modelled. *)
Class K8sMeta := {
  FindStatusCondition : list Condition → string → option Condition;
  IsStatusConditionTrue : list Condition → string → bool;
  SetStatusCondition : list Condition → Condition → list Condition;
  ContainsFinalizer : ObjectMeta → string → bool;
  AddFinalizer : ObjectMeta → string → ObjectMeta * bool;
  RemoveFinalizer : ObjectMeta → string → ObjectMeta;

  find_set_eq : ∀ cs c, FindStatusCondition (SetStatusCondition cs c) (c_Type c) = Some c;
  find_set_ne : ∀ cs c t, c_Type c ≠ t →
    FindStatusCondition (SetStatusCondition cs c) t = FindStatusCondition cs t;
  is_true_find : ∀ cs t, IsStatusConditionTrue cs t = true ↔
    ∃ c, FindStatusCondition cs t = Some c ∧ c_Status c = ConditionTrue;

  contains_fin : ∀ m f, ContainsFinalizer m f = true ↔ f ∈ Finalizers m;
  add_fin : ∀ m f, AddFinalizer m f =
    if ContainsFinalizer m f then (m, false)
    else ({| Name := Name m; Namespace := Namespace m; Generation := Generation m;
             ResourceVersion := ResourceVersion m; DeletionTimestamp := DeletionTimestamp m;
             Finalizers := Finalizers m ++ [f]; Annotations := Annotations m;
             Labels := Labels m |}, true);
  remove_fin : ∀ m f, RemoveFinalizer m f =
    {| Name := Name m; Namespace := Namespace m; Generation := Generation m;
       ResourceVersion := ResourceVersion m; DeletionTimestamp := DeletionTimestamp m;
       Finalizers := filter (λ x, x ≠ f) (Finalizers m); Annotations := Annotations m;
       Labels := Labels m |};
}.

(** ** conditions.go *)
Definition ConditionAvailable : string := "Available".
Definition ConditionHostReady : string := "HostReady".
Definition ConditionRegistered : string := "Registered".
Definition ConditionTornDown : string := "TornDown".
Definition ConditionDeregistered : string := "Deregistered".

Definition ReasonReady : string := "Ready".
Definition ReasonInvalidSpec : string := "InvalidSpec".
Definition ReasonWaitingForAgent : string := "WaitingForAgent".
Definition ReasonWaitingForVolume : string := "WaitingForVolume".
Definition ReasonHostError : string := "HostError".
Definition ReasonNotConfigured : string := "NotConfigured".
Definition ReasonWaitingForPool : string := "WaitingForPool".
Definition ReasonBackendError : string := "BackendError".
Definition ReasonUnsupported : string := "Unsupported".
Definition ReasonHostNotReady : string := "HostNotReady".

Definition DefaultTier : string := "default".
Definition LocalClass : string := "stornas-local".
Definition ReplicatedClass : string := "stornas-replicated".
Definition TierClassLabel : string := "storage.stornas.io/tier".
Definition PoolAnnotation : string := "r-drbd.io/pool".
Definition ThinLV : string := "thin".
Definition IQNPrefix : string := "iqn.2026-08.io.stornas:".
Definition ConsumerAnnotation : string := "storage.stornas.io/consumer".
Definition ConsumerHost : string := "host".

Definition TierClasses (tier : string) : string * string :=
  if bool_decide (tier = "") || bool_decide (tier = DefaultTier)
  then (LocalClass, ReplicatedClass)
  else (LocalClass +:+ "-" +:+ tier, ReplicatedClass +:+ "-" +:+ tier).

Definition MinDevices (raid : string) : nat :=
  if bool_decide (raid = "raid1") then 2
  else if bool_decide (raid = "raid5") then 3
  else if bool_decide (raid = "raid10") then 4
  else 1.

(** ** storagepool_types.go *)
Record StoragePoolSpec := {
  sp_Node : string;
  sp_Devices : list string;
  sp_Tier : string;
  sp_Raid : string;
  sp_Thin : option bool;
}.
Record DeviceStatus := {
  ds_Path : string;
  ds_Serial : string;
  ds_Smart : string;
  ds_State : string;
}.
Record StoragePoolStatus := {
  sp_Conditions : list Condition;
  sp_VG : string;
  sp_Capacity : option Z;
  sp_Free : option Z;
  sp_Health : string;
  sp_StatusDevices : list DeviceStatus;
  sp_RebuildPercent : option Z;
}.
Record StoragePool := {
  sp_meta : ObjectMeta;
  sp_spec : StoragePoolSpec;
  sp_status : StoragePoolStatus;
}.
Definition VGName (p : StoragePool) : string := "stornas-" +:+ Name (sp_meta p).

Definition sp_conds (p : StoragePool) : list Condition := sp_Conditions (sp_status p).
Definition sp_set_conds (p : StoragePool) (cs : list Condition) : StoragePool :=
  {| sp_meta := sp_meta p; sp_spec := sp_spec p;
     sp_status := {| sp_Conditions := cs; sp_VG := sp_VG (sp_status p);
       sp_Capacity := sp_Capacity (sp_status p); sp_Free := sp_Free (sp_status p);
       sp_Health := sp_Health (sp_status p); sp_StatusDevices := sp_StatusDevices (sp_status p);
       sp_RebuildPercent := sp_RebuildPercent (sp_status p) |} |}.
Definition sp_set_meta (p : StoragePool) (m : ObjectMeta) : StoragePool :=
  {| sp_meta := m; sp_spec := sp_spec p; sp_status := sp_status p |}.

(** ** rdrbd/v1alpha1 *)
Definition Driver : string := "r-drbd.io".
Definition ParamTier : string := "tier".
Definition RConditionAvailable : string := "Available".
Definition ConditionSplitBrain : string := "SplitBrain".

Record PoolSpec := {
  ps_Node : string; ps_Tier : string; ps_VG : string; ps_ThinPool : string;
  ps_OvercommitPercent : option Z; ps_ReservePercent : option Z;
}.
Record PoolStatus := {
  ps_Volumes : list string;
  ps_Conditions : list Condition;
}.
Record Pool := { p_meta : ObjectMeta; p_spec : PoolSpec; p_status : PoolStatus }.

Inductive Role := RoleDiskful | RoleDiskless | RoleTiebreaker | RoleOther (s : string).
#[global] Instance Role_eq_dec : EqDecision Role.
Proof. solve_decision. Defined.

Record AssignedReplica := {
  ar_Node : string; ar_Pool : string; ar_NodeID : Z; ar_Role : Role;
}.
Record ReplicaStatus := {
  rs_Node : string;
  rs_Present : bool;
  rs_DiskState : string;
  rs_SyncPercent : option Z;
  rs_Peers : gmap string string;
  rs_InUse : bool;
  rs_Quorum : option bool;
  rs_DevicePath : string;
}.
#[global] Instance ReplicaStatus_eq_dec : EqDecision ReplicaStatus.
Proof. solve_decision. Defined.

Record Volume := {
  v_meta : ObjectMeta;
  v_SizeBytes : Z;
  v_Assignment : option (list AssignedReplica);
  v_Resolve : option string;
  v_Phase : string;
  v_Conditions : list Condition;
  v_Primary : string;
  v_Replicas : list ReplicaStatus;
}.

(** [Volume.Diskful] *)
Definition Diskful (v : Volume) (node : string) : bool :=
  match v_Assignment v with
  | None => false
  | Some rs => existsb (λ r, bool_decide (ar_Node r = node) && bool_decide (ar_Role r = RoleDiskful)) rs
  end.

(** ** share_types.go *)
Record NFSExport := { nfs_Clients : list string }.
Record SMBExport := { smb_Name : string; smb_ValidUsers : list string }.
Record Share := {
  sh_meta : ObjectMeta;
  sh_ClaimName : string;
  sh_NFS : option NFSExport;
  sh_SMB : option SMBExport;
  sh_Conditions : list Condition;
  sh_Node : string;
  sh_Device : string;
  sh_State : string;
}.

(** ** target_types.go *)
Record LUN := { lun_ID : Z; lun_ClaimName : string }.
Record Initiator := { ini_IQN : string; ini_ChapSecretRef : string }.
Record LUNStatus := { ls_ID : Z; ls_Device : string }.
Record SecretVersion := { sv_Name : string; sv_ResourceVersion : string }.
Record Target := {
  t_meta : ObjectMeta;
  t_VIP : string;
  t_LUNs : list LUN;
  t_Initiators : list Initiator;
  t_Conditions : list Condition;
  t_IQN : string;
  t_ActiveNode : string;
  t_StatusLUNs : list LUNStatus;
  t_ChapSecretVersions : list SecretVersion;
  t_Sessions : Z;
  t_State : string;
}.

(** [ChapCredentials]: the pair a Secret's data holds. *)
Definition ChapCredentials (data : gmap string string) : string * string * bool :=
  let user := mget data "username" in
  let password := mget data "password" in
  (user, password, negb (bool_decide (user = "")) && negb (bool_decide (password = ""))).

(** ** localuser_types.go *)
Record LocalUser := {
  lu_meta : ObjectMeta;
  lu_Role : string;
  lu_SMB : bool;
  lu_PasswordSecretRef : string;
  lu_Conditions : list Condition;
  lu_PasswordSecretVersion : string;
}.

(** [LocalUserPassword] *)
Definition LocalUserPassword (data : gmap string string) : string * bool :=
  let password := mget data "password" in
  (password, negb (bool_decide (password = ""))).

(** ** corev1, storagev1: the fields the code reads *)
Record NodeCondition := { nc_Type : string; nc_Status : string }.
Record Node := { n_meta : ObjectMeta; n_Conditions : list NodeCondition }.
Record PersistentVolumeClaim := {
  pvc_meta : ObjectMeta;
  pvc_VolumeName : string;
  pvc_StorageClassName : option string;
}.
Record CSISource := { csi_Driver : string; csi_VolumeHandle : string }.
Record PersistentVolume := {
  pv_meta : ObjectMeta;
  pv_CSI : option CSISource;
  pv_ClaimRef : option NamespacedName;
}.
Record Secret := { sec_meta : ObjectMeta; sec_Data : gmap string string }.
Record StorageClass := {
  sc_meta : ObjectMeta;
  sc_Provisioner : string;
  sc_Parameters : gmap string string;
  sc_ReclaimPolicy : option string;
  sc_MountOptions : list string;
  sc_AllowVolumeExpansion : option bool;
  sc_VolumeBindingMode : option string;
}.

(** ** nodeinventory_types.go *)
Record Disk := {
  dk_Path : string; dk_Model : string; dk_Serial : string; dk_Size : option Z; dk_Rotational : bool;
  dk_Claimed : bool; dk_Smart : string; dk_TempCelsius : option Z; dk_PowerOnHours : option Z;
}.
#[global] Instance Disk_eq_dec : EqDecision Disk.
Proof. solve_decision. Defined.
Record NodeInventory := { inv_meta : ObjectMeta; inv_Disks : list Disk; inv_ObservedAt : option Z }.

(** ** A concrete [K8sMeta], for running the definitions. *)
Module RefMeta.
Fixpoint find (cs : list Condition) (t : string) : option Condition :=
  match cs with
  | [] => None
  | c :: cs' => if bool_decide (c_Type c = t) then Some c else find cs' t
  end.
Definition is_true (cs : list Condition) (t : string) : bool :=
  match find cs t with Some c => bool_decide (c_Status c = ConditionTrue) | None => false end.
Fixpoint set (cs : list Condition) (c : Condition) : list Condition :=
  match cs with
  | [] => [c]
  | d :: cs' => if bool_decide (c_Type d = c_Type c) then c :: cs' else d :: set cs' c
  end.
Definition with_fins (m : ObjectMeta) (fs : list string) : ObjectMeta :=
  {| Name := Name m; Namespace := Namespace m; Generation := Generation m;
     ResourceVersion := ResourceVersion m; DeletionTimestamp := DeletionTimestamp m;
     Finalizers := fs; Annotations := Annotations m; Labels := Labels m |}.
Definition contains (m : ObjectMeta) (f : string) : bool := bool_decide (f ∈ Finalizers m).

Lemma find_set_eq cs c : find (set cs c) (c_Type c) = Some c.
Proof.
  induction cs as [|d cs IH]; cbn; [by rewrite bool_decide_eq_true_2|].
  destruct (bool_decide_reflect (c_Type d = c_Type c)); cbn.
  - by rewrite bool_decide_eq_true_2.
  - by rewrite bool_decide_eq_false_2.
Qed.
Lemma find_set_ne cs c t : c_Type c ≠ t → find (set cs c) t = find cs t.
Proof.
  intros Hne. induction cs as [|d cs IH]; cbn; [by rewrite bool_decide_eq_false_2|].
  destruct (bool_decide_reflect (c_Type d = c_Type c)); cbn.
  - rewrite !bool_decide_eq_false_2; congruence.
  - by rewrite IH.
Qed.
Lemma is_true_find cs t :
  is_true cs t = true ↔ ∃ c, find cs t = Some c ∧ c_Status c = ConditionTrue.
Proof.
  unfold is_true. destruct (find cs t); [rewrite bool_decide_eq_true|]; naive_solver.
Qed.
Lemma contains_fin m f : contains m f = true ↔ f ∈ Finalizers m.
Proof. apply bool_decide_eq_true. Qed.

Definition meta : K8sMeta := {|
  FindStatusCondition := find; IsStatusConditionTrue := is_true;
  SetStatusCondition := set; ContainsFinalizer := contains;
  AddFinalizer m f :=
    if contains m f then (m, false) else (with_fins m (Finalizers m ++ [f]), true);
  RemoveFinalizer m f := with_fins m (filter (λ x, x ≠ f) (Finalizers m));
  ApiTypes.find_set_eq := find_set_eq; ApiTypes.find_set_ne := find_set_ne;
  ApiTypes.is_true_find := is_true_find; ApiTypes.contains_fin := contains_fin;
  add_fin _ _ := eq_refl; remove_fin _ _ := eq_refl |}.
End RefMeta.

Section ConditionFacts.
Context `{K8sMeta}.

Lemma is_true_set_eq cs c :
  IsStatusConditionTrue (SetStatusCondition cs c) (c_Type c)
  = bool_decide (c_Status c = ConditionTrue).
Proof.
  apply eq_true_iff_eq. rewrite is_true_find, bool_decide_eq_true, find_set_eq. naive_solver.
Qed.

Lemma is_true_set_ne cs c t :
  c_Type c ≠ t →
  IsStatusConditionTrue (SetStatusCondition cs c) t = IsStatusConditionTrue cs t.
Proof.
  intros. apply eq_true_iff_eq. by rewrite !is_true_find, find_set_ne.
Qed.

Lemma remove_fin_not m f : ContainsFinalizer (RemoveFinalizer m f) f = false.
Proof.
  apply not_true_iff_false. rewrite contains_fin, remove_fin; cbn.
  rewrite list_elem_of_filter. tauto.
Qed.
End ConditionFacts.
