(* ===== verification/GoHeap.v ===== *)
(** * A heap of Go values, for code that is about sharing

    Elsewhere an API object is a value.  In Go it is a tree of pointers,
    slices and maps, and a copy of a struct shares everything below it: the
    value model is right because the objects a reconciler works on were deep
    copied.  This file has the memory, the statements that generated copy
    functions are made of, and the condition under which such a function is a
    deep copy; [DeepCopy.v] has the functions.

    A slice is an array, an offset and a length; a string, a number, a bool
    or a time is data.  A panic is [None].  Types of libraries (ObjectMeta,
    Quantity, ...) are opaque: [Library] gives what owning one means, and the
    documented behaviour of its copy function. *)

From S2P Require Import Prelude.

Abbreviation loc := nat.
Record slice := { sl_arr : loc; sl_off : nat; sl_len : nat }.
Inductive gval :=
  | VData (s : string)
  | VEnd | VField (n : string) (v rest : gval)      (* a struct, field by field *)
  | VPtr (p : option loc)
  | VSlice (s : option slice)
  | VMap (m : option loc).
Inductive cell := CVar (v : gval) | CArr (l : list gval) | CMap (m : gmap string string).
Abbreviation heap := (gmap loc cell).

Inductive ty :=
  | TData
  | TEnd | TField (n : string) (T rest : ty)
  | TPtr (T : ty)
  | TSlice (T : ty)
  | TMap
  | TLib (n : string).

(** What a value denotes, all sharing forgotten. *)
Inductive tree :=
  | LData (s : string)
  | LEnd | LField (n : string) (t rest : tree)
  | LNil | LPtr (t : tree) | LSlice (l : list tree) | LMap (m : gmap string string).

(** ** Computations on the heap *)
Definition M (A : Type) : Type := heap → option (A * heap).
#[global] Instance M_ret : MRet M := λ A a h, Some (a, h).
#[global] Instance M_bind : MBind M := λ A B f m h, match m h with Some (a, h') => f a h' | None => None end.

Definition new (c : cell) : M loc := λ h, let l := fresh (dom h) in Some (l, <[l := c]> h).
Definition load (l : loc) : M gval := λ h, match h !! l with Some (CVar v) => Some (v, h) | _ => None end.
Definition elems (h : heap) (s : slice) : option (list gval) :=
  match h !! sl_arr s with
  | Some (CArr l) => if bool_decide (sl_off s + sl_len s ≤ length l)%nat then Some (take (sl_len s) (drop (sl_off s) l)) else None
  | _ => None
  end.
Definition load_elems (s : slice) : M (list gval) := λ h, (λ l, (l, h)) <$> elems h s.
Definition load_map (l : loc) : M (gmap string string) := λ h, match h !! l with Some (CMap m) => Some (m, h) | _ => None end.
Definition store (l : loc) (c : cell) : M unit := λ h, if bool_decide (l ∈ dom h) then Some (tt, <[l := c]> h) else None.
(** [( *out)[i] = v] *)
Definition store_elem (l : loc) (i : nat) (v : gval) : M unit := λ h,
  match h !! l with
  | Some (CArr a) => if bool_decide (i < length a)%nat then Some (tt, <[l := CArr (<[i := v]> a)]> h) else None
  | _ => None
  end.

Fixpoint get_field (n : string) (v : gval) : option gval :=
  match v with VField m x r => if bool_decide (m = n) then Some x else get_field n r | _ => None end.
Fixpoint set_field (n : string) (y v : gval) : gval :=
  match v with VField m x r => if bool_decide (m = n) then VField m y r else VField m x (set_field n y r) | _ => v end.

(** ** Libraries *)
Class Library := {
  lib_zero : string → gval;
  lib_copy : string → gval → M gval;
  lib_own : string → gset loc → heap → gval → tree → Prop;
  lib_mono n S S' h v t : S ⊆ S' → lib_own n S h v t → lib_own n S' h v t;
  lib_frame n S h h' v t : (∀ l, l ∈ S → h' !! l = h !! l) → lib_own n S h v t → lib_own n S h' v t;
  lib_deep n h v t : lib_own n (dom h) h v t → ∃ v' h', lib_copy n v h = Some (v', h') ∧ h ⊆ h' ∧
    lib_own n (dom h' ∖ dom h) h' v' t;
}.

Section Go.
Context `{Library}.

Fixpoint zero (T : ty) : gval :=
  match T with
  | TData => VData ""
  | TEnd => VEnd
  | TField n T R => VField n (zero T) (zero R)
  | TPtr _ => VPtr None
  | TSlice _ => VSlice None
  | TMap => VMap None
  | TLib n => lib_zero n
  end.

(** A value of type [T] denotes [t] and reaches no memory outside [S]. *)
Fixpoint own (T : ty) (S : gset loc) (h : heap) (v : gval) (t : tree) : Prop :=
  match T, v, t with
  | TData, VData s, LData s' => s = s'
  | TEnd, VEnd, LEnd => True
  | TField n T R, VField m x r, LField k t u => m = n ∧ k = n ∧ own T S h x t ∧ own R S h r u
  | TPtr T, VPtr None, LNil => True
  | TPtr T, VPtr (Some l), LPtr t => l ∈ S ∧ ∃ x, h !! l = Some (CVar x) ∧ own T S h x t
  | TSlice T, VSlice None, LNil => True
  | TSlice T, VSlice (Some s), LSlice ts => sl_arr s ∈ S ∧ ∃ xs, elems h s = Some xs ∧ Forall2 (own T S h) xs ts
  | TMap, VMap None, LNil => True
  | TMap, VMap (Some l), LMap m => l ∈ S ∧ h !! l = Some (CMap m)
  | TLib n, v, t => lib_own n S h v t
  | _, _, _ => False
  end.
(** No pointer, slice, map or library value inside: assignment copies it. *)
Fixpoint flat (T : ty) : bool :=
  match T with TData | TEnd => true | TField _ T R => flat T && flat R | _ => false end.

(** A deep copy: it does not panic, changes no memory there was, and its
    result denotes the same and reaches new memory only. *)
Definition deep (T : ty) (f : gval → M gval) : Prop :=
  ∀ h v t, own T (dom h) h v t → ∃ v' h', f v h = Some (v', h') ∧ h ⊆ h' ∧ own T (dom h' ∖ dom h) h' v' t.

(** ** The statements of a generated function *)

(** [*out = new(T); **out = **in] *)
Definition new_copy (T : ty) (v : gval) : M gval :=
  match v with
  | VPtr None => mret v
  | VPtr (Some p) => o ← new (CVar (zero T)); x ← load p; _ ← store o (CVar x); mret (VPtr (Some o))
  | _ => λ _, None
  end.
(** [*out = new(T); ( *in).DeepCopyInto( *out)] *)
Definition new_into (T : ty) (f : gval → M gval) (v : gval) : M gval :=
  match v with
  | VPtr None => mret v
  | VPtr (Some p) => o ← new (CVar (zero T)); x ← load p; y ← f x; _ ← store o (CVar y); mret (VPtr (Some o))
  | _ => λ _, None
  end.
(** [x := ( *in).DeepCopy(); *out = &x] *)
Definition new_deepcopy (f : gval → M gval) (v : gval) : M gval :=
  match v with
  | VPtr None => mret v
  | VPtr (Some p) => x ← load p; y ← f x; o ← new (CVar y); mret (VPtr (Some o))
  | _ => λ _, None
  end.
Definition whole (o : loc) (n : nat) : gval := VSlice (Some {| sl_arr := o; sl_off := 0; sl_len := n |}).
(** [*out = make([]T, len( *in)); copy( *out, *in)] *)
Definition make_copy (T : ty) (v : gval) : M gval :=
  match v with
  | VSlice None => mret v
  | VSlice (Some s) =>
      o ← new (CArr (replicate (sl_len s) (zero T))); xs ← load_elems s; _ ← store o (CArr xs); mret (whole o (sl_len s))
  | _ => λ _, None
  end.
(** [*out = make([]T, len( *in)); for i := range *in { ( *in)[i].DeepCopyInto(&( *out)[i]) }] *)
Fixpoint each (f : gval → M gval) (o : loc) (i : nat) (xs : list gval) : M unit :=
  match xs with
  | [] => mret tt
  | x :: xs' => y ← f x; _ ← store_elem o i y; each f o (S i) xs'
  end.
Definition make_each (T : ty) (f : gval → M gval) (v : gval) : M gval :=
  match v with
  | VSlice None => mret v
  | VSlice (Some s) =>
      o ← new (CArr (replicate (sl_len s) (zero T))); xs ← load_elems s; _ ← each f o 0 xs; mret (whole o (sl_len s))
  | _ => λ _, None
  end.
(** [*out = make(map[string]string, len( *in)); for key, val := range *in { ( *out)[key] = val }] *)
Definition make_map (v : gval) : M gval :=
  match v with
  | VMap None => mret v
  | VMap (Some p) =>
      m ← load_map p; o ← new (CMap (foldr (λ kv out, <[kv.1 := kv.2]> out) ∅ (map_to_list m))); mret (VMap (Some o))
  | _ => λ _, None
  end.

(** The body of a DeepCopyInto: [*out = *in], then one statement per field. *)
Fixpoint statements (l : list (string * (gval → M gval))) (inp out : gval) : M gval :=
  match l with
  | [] => mret out
  | (n, f) :: l' => match get_field n inp with
                    | Some x => y ← f x; statements l' inp (set_field n y out)
                    | None => λ _, None
                    end
  end.
Definition into (l : list (string * (gval → M gval))) (inp : gval) : M gval := statements l inp inp.

(** [DeepCopy] of a pointer: nil for nil, else a new variable. *)
Definition deepcopy (T : ty) (f : gval → M gval) (p : option loc) : M (option loc) :=
  match p with
  | None => mret None
  | Some l => o ← new (CVar (zero T)); x ← load l; y ← f x; _ ← store o (CVar y); mret (Some o)
  end.
(** [DeepCopyObject]: the nil pointer becomes the nil interface. *)
Definition deepcopy_object (copy : option loc → M (option loc)) (p : option loc) : M (option loc) :=
  c ← copy p; match c with Some l => mret (Some l) | None => mret None end.

(** ** Owning *)
Lemma own_mono T S S' h v t : S ⊆ S' → own T S h v t → own T S' h v t.
Proof.
  intros HS. revert v t. induction T as [| |n T IHT R IHR|T IH|T IH| |n]; intros v t; cbn; try done.
  - destruct v, t; try done. naive_solver.
  - destruct v as [| | |[l|]| |], t; try done. intros (? & x & ? & ?). split; [set_solver|]. eauto.
  - destruct v as [| | | |[s|]|], t; try done. intros (? & xs & ? & Hx). split; [set_solver|]. exists xs. split; [done|].
    eapply Forall2_impl; [exact Hx|]. auto.
  - destruct v as [| | | | |[l|]], t; try done. set_solver.
  - by apply lib_mono.
Qed.
Lemma elems_frame h h' s : h' !! sl_arr s = h !! sl_arr s → elems h' s = elems h s.
Proof. unfold elems. by intros ->. Qed.
Lemma own_frame T S h h' v t : (∀ l, l ∈ S → h' !! l = h !! l) → own T S h v t → own T S h' v t.
Proof.
  intros Hl. revert v t. induction T as [| |n T IHT R IHR|T IH|T IH| |n]; intros v t; cbn; try done.
  - destruct v, t; try done. naive_solver.
  - destruct v as [| | |[l|]| |], t; try done. intros (? & x & ? & ?). rewrite Hl by done. eauto.
  - destruct v as [| | | |[s|]|], t; try done. intros (? & xs & ? & Hx). split; [done|]. exists xs.
    rewrite (elems_frame h) by auto. split; [done|]. eapply Forall2_impl; [exact Hx|]. auto.
  - destruct v as [| | | | |[l|]], t; try done. intros [? ?]. by rewrite Hl.
  - by apply lib_frame.
Qed.
Lemma own_flat T S S' h h' v t : flat T = true → own T S h v t → own T S' h' v t.
Proof.
  revert v t. induction T as [| |n T IHT R IHR|T IH|T IH| |n]; intros v t; cbn; try done.
  intros [? ?]%andb_true_iff. destruct v, t; try done. naive_solver.
Qed.

Lemma kept (h h' : heap) l : h ⊆ h' → l ∈ dom h → h' !! l = h !! l.
Proof. intros Hs [c Hc]%elem_of_dom. rewrite Hc. by eapply lookup_weaken. Qed.
Lemma dom_sub (h h' : heap) : h ⊆ h' → dom h ⊆ dom h'.
Proof. apply subseteq_dom. Qed.
(** A value of the old heap, in a heap that has grown. *)
Lemma own_grown T h h' v t : h ⊆ h' → own T (dom h) h v t → own T (dom h') h' v t.
Proof.
  intros Hs Ho. apply (own_mono T (dom h)); [by apply dom_sub|]. apply (own_frame T _ h); [|done].
  intros l. by apply kept.
Qed.
(** A value of new memory, in a heap that has grown since. *)
Lemma own_later T (h h1 h2 : heap) v t : h1 ⊆ h2 → own T (dom h1 ∖ dom h) h1 v t → own T (dom h2 ∖ dom h) h2 v t.
Proof.
  intros Hs Ho. pose proof (dom_sub _ _ Hs). apply (own_mono T (dom h1 ∖ dom h)); [set_solver|].
  apply (own_frame T _ h1); [|done]. intros l Hl. apply kept; [done|set_solver].
Qed.
(** A value of memory newer than [o], after an assignment to [o]. *)
Lemma own_stored T (h h1 h2 : heap) o c v t : h ⊆ h1 → h1 ⊆ h2 → o ∈ dom h1 → own T (dom h2 ∖ dom h1) h2 v t →
  own T (dom (<[o := c]> h2) ∖ dom h) (<[o := c]> h2) v t.
Proof.
  intros H1%dom_sub H2%dom_sub Ho Hv. rewrite dom_insert_L. apply (own_mono T (dom h2 ∖ dom h1)); [set_solver|].
  apply (own_frame T _ h2); [|done]. intros l Hl. rewrite lookup_insert_ne; [done|]. set_solver.
Qed.
Lemma new_sub (h : heap) c : h ⊆ <[fresh (dom h) := c]> h.
Proof. apply insert_subseteq. apply not_elem_of_dom, is_fresh. Qed.
Lemma store_sub (h h2 : heap) o c : h ⊆ h2 → o ∉ dom h → h ⊆ <[o := c]> h2.
Proof.
  intros Hs Ho. apply map_subseteq_spec. intros l x Hx. rewrite lookup_insert_ne; [by eapply lookup_weaken|].
  intros ->. apply Ho. by eapply elem_of_dom_2.
Qed.
Lemma load_var h l v : h !! l = Some (CVar v) → load l h = Some (v, h).
Proof. unfold load. by intros ->. Qed.
Lemma store_var h l c : l ∈ dom h → store l c h = Some (tt, <[l := c]> h).
Proof. intros ?. unfold store. by rewrite bool_decide_eq_true_2. Qed.

(** ** Each statement copies deeply *)
Lemma deep_flat T : flat T = true → deep T mret.
Proof. intros Hf h v t Ho. exists v, h. split_and!; [done..|]. by eapply own_flat. Qed.
Lemma deep_lib n : deep (TLib n) (lib_copy n).
Proof. intros h v t. apply lib_deep. Qed.

Lemma new_into_run T f h l x t : deep T f → h !! l = Some (CVar x) → own T (dom h) h x t →
  ∃ o h', new_into T f (VPtr (Some l)) h = Some (VPtr (Some o), h') ∧ deepcopy T f (Some l) h = Some (Some o, h') ∧ h ⊆ h' ∧
    own (TPtr T) (dom h' ∖ dom h) h' (VPtr (Some o)) (LPtr t).
Proof.
  intros Hf Hl Ho. set (o := fresh (dom h)). set (h1 := <[o := CVar (zero T)]> h).
  assert (o ∉ dom h) as Hn by apply is_fresh. pose proof (new_sub h (CVar (zero T)) : h ⊆ h1) as H1.
  destruct (Hf h1 x t) as (y & h2 & Hy & H2 & Hown); [by eapply own_grown|].
  assert (o ∈ dom h1) as Ho1 by (subst h1; rewrite dom_insert_L; set_solver).
  assert (o ∈ dom h2) as Ho2 by (by apply (dom_sub _ _ H2)).
  exists o, (<[o := CVar y]> h2). assert (h1 !! l = Some (CVar x)) as Hl1 by (by eapply lookup_weaken). split_and!.
  - unfold new_into, mbind, M_bind, new. cbn. fold o h1. by rewrite (load_var _ _ _ Hl1), Hy, store_var.
  - unfold deepcopy, mbind, M_bind, new. cbn. fold o h1. by rewrite (load_var _ _ _ Hl1), Hy, store_var.
  - apply store_sub; [by etrans|done].
  - cbn. split; [rewrite dom_insert_L; set_solver|]. exists y. rewrite lookup_insert_eq. split; [done|].
    by eapply own_stored.
Qed.
Lemma deep_new_into T f : deep T f → deep (TPtr T) (new_into T f).
Proof.
  intros Hf h v t Ho. destruct v as [| | |[l|]| |], t; try done; cbn in Ho.
  - destruct Ho as (_ & x & Hl & Hx). destruct (new_into_run T f h l x t Hf Hl Hx) as (o & h' & ? & _ & ? & ?). eauto.
  - exists (VPtr None), h. done.
Qed.
Lemma deep_new_copy T : flat T = true → deep (TPtr T) (new_copy T).
Proof. intros Hf. exact (deep_new_into T mret (deep_flat T Hf)). Qed.
Lemma deep_new_deepcopy n : deep (TPtr (TLib n)) (new_deepcopy (lib_copy n)).
Proof.
  intros h v t Ho. destruct v as [| | |[l|]| |], t; try done; cbn [own] in Ho; [|by exists (VPtr None), h].
  destruct Ho as (_ & x & Hl & Hx). destruct (lib_deep n h x t Hx) as (y & h1 & Hy & H1 & Hown).
  set (o := fresh (dom h1)). assert (o ∉ dom h1) as Hn by apply is_fresh. pose proof (dom_sub _ _ H1).
  exists (VPtr (Some o)), (<[o := CVar y]> h1). split_and!.
  - unfold new_deepcopy, mbind, M_bind. by rewrite (load_var _ _ _ Hl), Hy.
  - apply store_sub; [done|set_solver].
  - cbn [own]. split; [rewrite dom_insert_L; set_solver|]. exists y. rewrite lookup_insert_eq. split; [done|].
    apply (own_later (TLib n) h h1); [|done]. by apply insert_subseteq, not_elem_of_dom.
Qed.
Lemma deep_make_map : deep TMap make_map.
Proof.
  intros h v t Ho. destruct v as [| | | | |[l|]], t; try done; cbn [own] in Ho; [|by exists (VMap None), h].
  destruct Ho as (_ & Hl). set (o := fresh (dom h)). assert (o ∉ dom h) as Hn by apply is_fresh.
  exists (VMap (Some o)), (<[o := CMap m]> h). split_and!.
  - unfold make_map, mbind, M_bind, load_map. rewrite Hl. change (foldr _ _ _) with (list_to_map (map_to_list m) : gmap string string).
    by rewrite list_to_map_to_list.
  - by apply new_sub.
  - cbn [own]. rewrite lookup_insert_eq, dom_insert_L. set_solver.
Qed.

Lemma elems_length h s xs : elems h s = Some xs → length xs = sl_len s.
Proof.
  unfold elems. destruct (h !! sl_arr s) as [[]|]; try done. case_bool_decide; [|done]. intros [= <-].
  rewrite length_take, length_drop. lia.
Qed.
Lemma elems_whole (h : heap) o xs : h !! o = Some (CArr xs) →
  elems h {| sl_arr := o; sl_off := 0; sl_len := length xs |} = Some xs.
Proof. intros Ho. unfold elems. cbn. rewrite Ho, bool_decide_eq_true_2 by lia. by rewrite take_ge. Qed.

Lemma fill_next (a : list gval) i y ys n : (i < length a)%nat →
  take (S i) (<[i := y]> a) ++ ys ++ drop (S i + n) (<[i := y]> a) = take i a ++ (y :: ys) ++ drop (i + S n) a.
Proof.
  intros Hi. rewrite (take_S_r _ _ y) by (by apply list_lookup_insert_eq). rewrite take_insert_ge, drop_insert_lt by lia.
  rewrite <- app_assoc. cbn. do 4 f_equal. lia.
Qed.
Lemma each_run T f h0 o ts : deep T f → o ∉ dom h0 → ∀ xs i h a, h0 ⊆ h → h !! o = Some (CArr a) →
  (i + length xs ≤ length a)%nat → Forall2 (own T (dom h0) h0) xs ts →
  ∃ ys h', each f o i xs h = Some (tt, h') ∧ h0 ⊆ h' ∧ dom h ⊆ dom h' ∧ (∀ l, l ∈ dom h → l ≠ o → h' !! l = h !! l) ∧
    h' !! o = Some (CArr (take i a ++ ys ++ drop (i + length xs) a)) ∧
    Forall2 (own T (dom h' ∖ dom h0 ∖ {[o]}) h') ys ts.
Proof.
  intros Hf Hn xs. revert ts. induction xs as [|x xs IH]; intros ts i h a H0 Ho Hlen Hx.
  - inversion Hx; subst. exists [], h. cbn. rewrite Nat.add_0_r, take_drop. split_and!; done || by constructor.
  - inversion Hx as [|? t ? ts' Hxt Hxs]; subst. cbn [length] in Hlen.
    destruct (Hf h x t) as (y & h1 & Hy & H1 & Hown); [by eapply own_grown|].
    assert (o ∈ dom h) as Hod by (by eapply elem_of_dom_2). pose proof (dom_sub _ _ H0). pose proof (dom_sub _ _ H1).
    assert (h1 !! o = Some (CArr a)) as Ho1 by (by eapply lookup_weaken).
    set (h2 := <[o := CArr (<[i := y]> a)]> h1).
    assert (dom h2 = dom h1) as Hd2 by (subst h2; rewrite dom_insert_L; set_solver).
    destruct (IH ts' (S i) h2 (<[i := y]> a)) as (ys & h' & Hrun & Hbase & Hd & Hk & Hcell & Hys).
    { apply store_sub; [by etrans|done]. } { apply lookup_insert_eq. } { rewrite length_insert. lia. } { done. }
    exists (y :: ys), h'. split_and!.
    + cbn [each]. unfold mbind, M_bind. rewrite Hy. unfold store_elem. rewrite Ho1, bool_decide_eq_true_2 by lia. exact Hrun.
    + done.
    + set_solver.
    + intros l Hl Hne. rewrite Hk; [|set_solver|done]. subst h2. rewrite lookup_insert_ne by done. by apply kept.
    + rewrite Hcell, fill_next by lia. done.
    + constructor; [|done]. apply (own_mono T (dom h1 ∖ dom h)); [set_solver|]. apply (own_frame T _ h1); [|done].
      intros l Hl. assert (l ≠ o) by set_solver. rewrite Hk; [|set_solver|done]. subst h2. by rewrite lookup_insert_ne.
Qed.

Lemma deep_make_each T f : deep T f → deep (TSlice T) (make_each T f).
Proof.
  intros Hf h v t Ho. destruct v as [| | | |[s|]|], t; try done; cbn [own] in Ho; [|by exists (VSlice None), h].
  destruct Ho as (Hs & xs & Hel & Hx). pose proof (elems_length _ _ _ Hel) as Hlen.
  set (o := fresh (dom h)). assert (o ∉ dom h) as Hn by apply is_fresh.
  set (h1 := <[o := CArr (replicate (sl_len s) (zero T))]> h).
  destruct (each_run T f h o l Hf Hn xs 0 h1 (replicate (sl_len s) (zero T))) as (ys & h' & Hrun & H0 & Hd & _ & Hcell & Hys).
  { apply new_sub. } { by apply lookup_insert_eq. } { rewrite length_replicate. lia. } { done. }
  assert (o ∈ dom h') as Hod by (by eapply elem_of_dom_2).
  assert (length ys = sl_len s) as Hly by (by rewrite (Forall2_length _ _ _ Hys), <- (Forall2_length _ _ _ Hx)).
  exists (whole o (sl_len s)), h'. split_and!.
  - unfold make_each, mbind, M_bind, new. fold o h1. unfold load_elems. rewrite (elems_frame h), Hel.
    + cbn. by rewrite Hrun.
    + apply lookup_insert_ne. intros Heq. apply Hn. by rewrite Heq.
  - done.
  - cbn [own whole]. split; [cbn; set_solver|]. exists ys. rewrite <- Hly. split.
    + apply elems_whole. rewrite Hcell. rewrite drop_ge by (rewrite length_replicate; lia). by rewrite app_nil_r.
    + eapply Forall2_impl; [exact Hys|]. intros. eapply own_mono; [|done]. set_solver.
Qed.
Lemma each_ret o xs : ∀ i h a, h !! o = Some (CArr a) → (i + length xs ≤ length a)%nat →
  each mret o i xs h = Some (tt, <[o := CArr (take i a ++ xs ++ drop (i + length xs) a)]> h).
Proof.
  induction xs as [|x xs IH]; intros i h a Ho Hlen; cbn [each length] in *.
  - unfold mret, M_ret. cbn. rewrite Nat.add_0_r, take_drop. by rewrite insert_id.
  - unfold mbind, M_bind, mret, M_ret, store_elem. rewrite Ho, bool_decide_eq_true_2 by lia.
    rewrite (IH _ _ (<[i := x]> a)); [|by rewrite lookup_insert_eq|rewrite length_insert; lia].
    by rewrite insert_insert_eq, fill_next by lia.
Qed.
(** [copy] is the loop of assignments. *)
Lemma make_copy_each T h v : make_copy T v h = make_each T mret v h.
Proof.
  destruct v as [| | | |[s|]|]; try done. unfold make_copy, make_each, mbind, M_bind, new, load_elems.
  set (o := fresh (dom h)). set (h1 := <[o := _]> h). destruct (elems h1 s) as [xs|] eqn:E; [|done]. cbn.
  pose proof (elems_length _ _ _ E) as Hl.
  rewrite (each_ret _ _ _ _ (replicate (sl_len s) (zero T))); [|by apply lookup_insert_eq|rewrite length_replicate; lia].
  rewrite store_var by (subst h1; rewrite dom_insert_L; set_solver). cbn.
  rewrite drop_ge by (rewrite length_replicate; lia). by rewrite app_nil_r.
Qed.
Lemma deep_make_copy T : flat T = true → deep (TSlice T) (make_copy T).
Proof.
  intros Hf h v t Ho. destruct (deep_make_each T mret (deep_flat T Hf) h v t Ho) as (v' & h' & Hr & ?).
  rewrite <- make_copy_each in Hr. eauto.
Qed.

(** ** The body as a whole

    The statements follow the fields: a field with a statement is copied
    deeply by it, one without has nothing to share. *)
Fixpoint fields (T : ty) : list string := match T with TField n _ R => n :: fields R | _ => [] end.
Inductive covers : ty → list (string * (gval → M gval)) → Prop :=
  | cov_end : covers TEnd []
  | cov_stmt n T R f l : n ∉ fields R → deep T f → covers R l → covers (TField n T R) ((n, f) :: l)
  | cov_flat n T R l : n ∉ fields R → flat T = true → covers R l → covers (TField n T R) l.

Definition prefixed (pre : list (string * gval)) (v : gval) : gval := foldr (λ nv r, VField nv.1 nv.2 r) v pre.
Lemma prefixed_snoc pre n x v : prefixed pre (VField n x v) = prefixed (pre ++ [(n, x)]) v.
Proof. unfold prefixed. by rewrite foldr_app. Qed.
Lemma get_prefixed pre n x r : n ∉ pre.*1 → get_field n (prefixed pre (VField n x r)) = Some x.
Proof.
  induction pre as [|[m y] pre IH]; cbn; [by rewrite bool_decide_eq_true_2|]. intros [? ?]%not_elem_of_cons.
  rewrite bool_decide_eq_false_2 by done. auto.
Qed.
Lemma set_prefixed pre n x y r : n ∉ pre.*1 → set_field n y (prefixed pre (VField n x r)) = prefixed pre (VField n y r).
Proof.
  induction pre as [|[m z] pre IH]; cbn; [by rewrite bool_decide_eq_true_2|]. intros [? ?]%not_elem_of_cons.
  rewrite bool_decide_eq_false_2 by done. f_equal. auto.
Qed.

Lemma covers_run T l : covers T l → ∀ pre pre' h v t, pre.*1 = pre'.*1 → Forall (λ n, n ∉ fields T) pre.*1 →
  own T (dom h) h v t → ∃ v' h', statements l (prefixed pre v) (prefixed pre' v) h = Some (prefixed pre' v', h') ∧ h ⊆ h' ∧
    own T (dom h' ∖ dom h) h' v' t.
Proof.
  induction 1 as [|n T R f l Hn Hf _ IH|n T R l Hn Hf _ IH]; intros pre pre' h v t Hpre Hfresh Ho.
  - exists v, h. by destruct v, t.
  - destruct v as [| |m x r| | |], t as [| |k t u| | | |]; try done. destruct Ho as (-> & -> & Hx & Hr).
    assert (n ∉ pre.*1) as Hnp by (intros Hin; rewrite Forall_forall in Hfresh; apply (Hfresh n Hin); by left).
    destruct (Hf h x t Hx) as (x' & h1 & Hx' & H1 & Hown).
    destruct (IH (pre ++ [(n, x)]) (pre' ++ [(n, x')]) h1 r u) as (r' & h2 & Hr' & H2 & Hown').
    { by rewrite !fmap_app, Hpre. }
    { rewrite fmap_app, Forall_app. split; [|by repeat constructor]. eapply Forall_impl; [exact Hfresh|]. cbn. set_solver. }
    { by eapply own_grown. }
    exists (VField n x' r'), h2. split_and!.
    + cbn [statements]. rewrite get_prefixed by done. unfold mbind, M_bind. rewrite Hx', set_prefixed by (by rewrite <- Hpre).
      by rewrite !prefixed_snoc.
    + by etrans.
    + cbn [own]. split_and!; [done..|by eapply own_later|]. pose proof (dom_sub _ _ H1). eapply own_mono; [|exact Hown']. set_solver.
  - destruct v as [| |m x r| | |], t as [| |k t u| | | |]; try done. destruct Ho as (-> & -> & Hx & Hr).
    destruct (IH (pre ++ [(n, x)]) (pre' ++ [(n, x)]) h r u) as (r' & h2 & Hr' & H2 & Hown'); [|..|done|].
    { by rewrite !fmap_app, Hpre. }
    { rewrite fmap_app, Forall_app. split; [|by repeat constructor]. eapply Forall_impl; [exact Hfresh|]. cbn. set_solver. }
    exists (VField n x r'), h2. rewrite !prefixed_snoc. split_and!; [done..|]. cbn [own]. split_and!; [done..| |done].
    by eapply own_flat.
Qed.
Lemma deep_into T l : covers T l → deep T (into l).
Proof. intros Hc h v t Ho. apply (covers_run T l Hc [] []); [done|constructor|done]. Qed.
End Go.
