(* ===== verification/DeepCopy.v ===== *)
(** * The generated copy functions

    operator/api/v1alpha1/zz_generated.deepcopy.go and the same file of
    operator/api/rdrbd: for every struct its type, its DeepCopyInto statement
    by statement, and the DeepCopy and DeepCopyObject on top of it.  A cached
    read hands out a DeepCopy of the informer's object, and controllers change
    what they read: the theorem is that such a change cannot reach the cache,
    nor the other way round. *)

From S2P Require Import Prelude GoHeap.

Definition TypeMeta_t : ty := TField "Kind" TData (TField "APIVersion" TData TEnd).

(** ** The structs *)
Definition DeviceStatus_t : ty :=
  TField "Path" TData (TField "Serial" TData (TField "Smart" TData (TField "State" TData TEnd))).
Definition Disk_t : ty :=
  TField "Path" TData (TField "Model" TData (TField "Serial" TData (TField "Size" (TPtr (TLib "Quantity")) (
    TField "Rotational" TData (TField "Claimed" TData (TField "Smart" TData (TField "TempCelsius" (TPtr TData) (
    TField "PowerOnHours" (TPtr TData) TEnd)))))))).
Definition Initiator_t : ty :=
  TField "IQN" TData (TField "ChapSecretRef" TData TEnd).
Definition LUN_t : ty :=
  TField "ID" TData (TField "ClaimName" TData TEnd).
Definition LUNStatus_t : ty :=
  TField "ID" TData (TField "Device" TData TEnd).
Definition LocalUserSpec_t : ty :=
  TField "Role" TData (TField "SMB" TData (TField "PasswordSecretRef" TData TEnd)).
Definition LocalUserStatus_t : ty :=
  TField "Conditions" (TSlice (TLib "Condition")) (TField "PasswordSecretVersion" TData TEnd).
Definition LocalUser_t : ty :=
  TField "TypeMeta" TypeMeta_t (TField "ObjectMeta" (TLib "ObjectMeta") (TField "Spec" LocalUserSpec_t (
    TField "Status" LocalUserStatus_t TEnd))).
Definition LocalUserList_t : ty :=
  TField "TypeMeta" TypeMeta_t (TField "ListMeta" (TLib "ListMeta") (TField "Items" (TSlice LocalUser_t) TEnd)).
Definition NFSExport_t : ty :=
  TField "Clients" (TSlice TData) TEnd.
Definition NodeInventorySpec_t : ty :=
  TEnd.
Definition NodeInventoryStatus_t : ty :=
  TField "Disks" (TSlice Disk_t) (TField "ObservedAt" (TLib "Time") TEnd).
Definition NodeInventory_t : ty :=
  TField "TypeMeta" TypeMeta_t (TField "ObjectMeta" (TLib "ObjectMeta") (TField "Spec" NodeInventorySpec_t (
    TField "Status" NodeInventoryStatus_t TEnd))).
Definition NodeInventoryList_t : ty :=
  TField "TypeMeta" TypeMeta_t (TField "ListMeta" (TLib "ListMeta") (TField "Items" (TSlice NodeInventory_t) TEnd)).
Definition SMBExport_t : ty :=
  TField "Name" TData (TField "ValidUsers" (TSlice TData) TEnd).
Definition SecretVersion_t : ty :=
  TField "Name" TData (TField "ResourceVersion" TData TEnd).
Definition ShareSpec_t : ty :=
  TField "ClaimName" TData (TField "NFS" (TPtr NFSExport_t) (TField "SMB" (TPtr SMBExport_t) TEnd)).
Definition ShareStatus_t : ty :=
  TField "Conditions" (TSlice (TLib "Condition")) (TField "Node" TData (TField "Device" TData (
    TField "State" TData TEnd))).
Definition Share_t : ty :=
  TField "TypeMeta" TypeMeta_t (TField "ObjectMeta" (TLib "ObjectMeta") (TField "Spec" ShareSpec_t (
    TField "Status" ShareStatus_t TEnd))).
Definition ShareList_t : ty :=
  TField "TypeMeta" TypeMeta_t (TField "ListMeta" (TLib "ListMeta") (TField "Items" (TSlice Share_t) TEnd)).
Definition StoragePoolSpec_t : ty :=
  TField "Node" TData (TField "Devices" (TSlice TData) (TField "Tier" TData (TField "Raid" TData (
    TField "Thin" (TPtr TData) TEnd)))).
Definition StoragePoolStatus_t : ty :=
  TField "Conditions" (TSlice (TLib "Condition")) (TField "VG" TData (TField "Capacity" (TPtr (TLib "Quantity")) (
    TField "Free" (TPtr (TLib "Quantity")) (TField "Health" TData (TField "Devices" (TSlice DeviceStatus_t) (
    TField "RebuildPercent" (TPtr TData) TEnd)))))).
Definition StoragePool_t : ty :=
  TField "TypeMeta" TypeMeta_t (TField "ObjectMeta" (TLib "ObjectMeta") (TField "Spec" StoragePoolSpec_t (
    TField "Status" StoragePoolStatus_t TEnd))).
Definition StoragePoolList_t : ty :=
  TField "TypeMeta" TypeMeta_t (TField "ListMeta" (TLib "ListMeta") (TField "Items" (TSlice StoragePool_t) TEnd)).
Definition TargetSpec_t : ty :=
  TField "VIP" TData (TField "LUNs" (TSlice LUN_t) (TField "Initiators" (TSlice Initiator_t) TEnd)).
Definition TargetStatus_t : ty :=
  TField "Conditions" (TSlice (TLib "Condition")) (TField "IQN" TData (TField "ActiveNode" TData (
    TField "LUNs" (TSlice LUNStatus_t) (TField "ChapSecretVersions" (TSlice SecretVersion_t) (
    TField "Sessions" TData (TField "State" TData TEnd)))))).
Definition Target_t : ty :=
  TField "TypeMeta" TypeMeta_t (TField "ObjectMeta" (TLib "ObjectMeta") (TField "Spec" TargetSpec_t (
    TField "Status" TargetStatus_t TEnd))).
Definition TargetList_t : ty :=
  TField "TypeMeta" TypeMeta_t (TField "ListMeta" (TLib "ListMeta") (TField "Items" (TSlice Target_t) TEnd)).
Definition AssignedReplica_t : ty :=
  TField "Node" TData (TField "Pool" TData (TField "NodeID" TData (TField "Role" TData TEnd))).
Definition Assignment_t : ty :=
  TField "Replicas" (TSlice AssignedReplica_t) TEnd.
Definition PoolSpec_t : ty :=
  TField "Node" TData (TField "Tier" TData (TField "VG" TData (TField "ThinPool" TData (
    TField "OvercommitPercent" (TPtr TData) (TField "ReservePercent" (TPtr TData) TEnd))))).
Definition PoolStatus_t : ty :=
  TField "TotalBytes" (TPtr TData) (TField "FreeBytes" (TPtr TData) (TField "Volumes" (TSlice TData) (
    TField "CommittedBytes" (TPtr TData) (TField "PlaceableBytes" (TPtr TData) (
    TField "Conditions" (TSlice (TLib "Condition")) TEnd))))).
Definition Pool_t : ty :=
  TField "TypeMeta" TypeMeta_t (TField "ObjectMeta" (TLib "ObjectMeta") (TField "Spec" PoolSpec_t (
    TField "Status" PoolStatus_t TEnd))).
Definition PoolList_t : ty :=
  TField "TypeMeta" TypeMeta_t (TField "ListMeta" (TLib "ListMeta") (TField "Items" (TSlice Pool_t) TEnd)).
Definition ReplicaStatus_t : ty :=
  TField "Node" TData (TField "Present" TData (TField "DiskState" TData (TField "SyncPercent" (TPtr TData) (
    TField "Peers" TMap (TField "InUse" TData (TField "Quorum" (TPtr TData) (TField "DevicePath" TData TEnd))))))).
Definition Resolve_t : ty :=
  TField "Survivor" TData TEnd.
Definition VolumeSpec_t : ty :=
  TField "SizeBytes" TData (TField "Replicas" TData (TField "Tier" TData (TField "Pool" TData (TField "Node" TData (
    TField "Resolve" (TPtr Resolve_t) (TField "Assignment" (TPtr Assignment_t) TEnd)))))).
Definition VolumeStatus_t : ty :=
  TField "Phase" TData (TField "Conditions" (TSlice (TLib "Condition")) (TField "Primary" TData (
    TField "Replicas" (TSlice ReplicaStatus_t) TEnd))).
Definition Volume_t : ty :=
  TField "TypeMeta" TypeMeta_t (TField "ObjectMeta" (TLib "ObjectMeta") (TField "Spec" VolumeSpec_t (
    TField "Status" VolumeStatus_t TEnd))).
Definition VolumeList_t : ty :=
  TField "TypeMeta" TypeMeta_t (TField "ListMeta" (TLib "ListMeta") (TField "Items" (TSlice Volume_t) TEnd)).

Ltac decided := refine (bool_decide_eq_true_1 _ _); vm_compute; reflexivity.

(** ** The functions *)
Section Copies.
Context `{Library}.

Definition DeviceStatus_DeepCopyInto : gval → M gval := into [].
Definition DeviceStatus_DeepCopy : option loc → M (option loc) := deepcopy DeviceStatus_t DeviceStatus_DeepCopyInto.
Definition Disk_DeepCopyInto : gval → M gval := into [
  ("Size", new_deepcopy (lib_copy "Quantity")); ("TempCelsius", new_copy TData); ("PowerOnHours", new_copy TData)].
Definition Disk_DeepCopy : option loc → M (option loc) := deepcopy Disk_t Disk_DeepCopyInto.
Definition Initiator_DeepCopyInto : gval → M gval := into [].
Definition Initiator_DeepCopy : option loc → M (option loc) := deepcopy Initiator_t Initiator_DeepCopyInto.
Definition LUN_DeepCopyInto : gval → M gval := into [].
Definition LUN_DeepCopy : option loc → M (option loc) := deepcopy LUN_t LUN_DeepCopyInto.
Definition LUNStatus_DeepCopyInto : gval → M gval := into [].
Definition LUNStatus_DeepCopy : option loc → M (option loc) := deepcopy LUNStatus_t LUNStatus_DeepCopyInto.
Definition LocalUserSpec_DeepCopyInto : gval → M gval := into [].
Definition LocalUserSpec_DeepCopy : option loc → M (option loc) := deepcopy LocalUserSpec_t LocalUserSpec_DeepCopyInto.
Definition LocalUserStatus_DeepCopyInto : gval → M gval := into [
  ("Conditions", make_each (TLib "Condition") (lib_copy "Condition"))].
Definition LocalUserStatus_DeepCopy : option loc → M (option loc) := deepcopy LocalUserStatus_t LocalUserStatus_DeepCopyInto.
Definition LocalUser_DeepCopyInto : gval → M gval := into [
  ("TypeMeta", mret); ("ObjectMeta", lib_copy "ObjectMeta"); ("Spec", mret); ("Status", LocalUserStatus_DeepCopyInto)].
Definition LocalUser_DeepCopy : option loc → M (option loc) := deepcopy LocalUser_t LocalUser_DeepCopyInto.
Definition LocalUser_DeepCopyObject : option loc → M (option loc) := deepcopy_object LocalUser_DeepCopy.
Definition LocalUserList_DeepCopyInto : gval → M gval := into [
  ("TypeMeta", mret); ("ListMeta", lib_copy "ListMeta"); ("Items", make_each LocalUser_t LocalUser_DeepCopyInto)].
Definition LocalUserList_DeepCopy : option loc → M (option loc) := deepcopy LocalUserList_t LocalUserList_DeepCopyInto.
Definition LocalUserList_DeepCopyObject : option loc → M (option loc) := deepcopy_object LocalUserList_DeepCopy.
Definition NFSExport_DeepCopyInto : gval → M gval := into [
  ("Clients", make_copy TData)].
Definition NFSExport_DeepCopy : option loc → M (option loc) := deepcopy NFSExport_t NFSExport_DeepCopyInto.
Definition NodeInventorySpec_DeepCopyInto : gval → M gval := into [].
Definition NodeInventorySpec_DeepCopy : option loc → M (option loc) := deepcopy NodeInventorySpec_t NodeInventorySpec_DeepCopyInto.
Definition NodeInventoryStatus_DeepCopyInto : gval → M gval := into [
  ("Disks", make_each Disk_t Disk_DeepCopyInto); ("ObservedAt", lib_copy "Time")].
Definition NodeInventoryStatus_DeepCopy : option loc → M (option loc) := deepcopy NodeInventoryStatus_t NodeInventoryStatus_DeepCopyInto.
Definition NodeInventory_DeepCopyInto : gval → M gval := into [
  ("TypeMeta", mret); ("ObjectMeta", lib_copy "ObjectMeta"); ("Spec", mret);
    ("Status", NodeInventoryStatus_DeepCopyInto)].
Definition NodeInventory_DeepCopy : option loc → M (option loc) := deepcopy NodeInventory_t NodeInventory_DeepCopyInto.
Definition NodeInventory_DeepCopyObject : option loc → M (option loc) := deepcopy_object NodeInventory_DeepCopy.
Definition NodeInventoryList_DeepCopyInto : gval → M gval := into [
  ("TypeMeta", mret); ("ListMeta", lib_copy "ListMeta");
    ("Items", make_each NodeInventory_t NodeInventory_DeepCopyInto)].
Definition NodeInventoryList_DeepCopy : option loc → M (option loc) := deepcopy NodeInventoryList_t NodeInventoryList_DeepCopyInto.
Definition NodeInventoryList_DeepCopyObject : option loc → M (option loc) := deepcopy_object NodeInventoryList_DeepCopy.
Definition SMBExport_DeepCopyInto : gval → M gval := into [
  ("ValidUsers", make_copy TData)].
Definition SMBExport_DeepCopy : option loc → M (option loc) := deepcopy SMBExport_t SMBExport_DeepCopyInto.
Definition SecretVersion_DeepCopyInto : gval → M gval := into [].
Definition SecretVersion_DeepCopy : option loc → M (option loc) := deepcopy SecretVersion_t SecretVersion_DeepCopyInto.
Definition ShareSpec_DeepCopyInto : gval → M gval := into [
  ("NFS", new_into NFSExport_t NFSExport_DeepCopyInto); ("SMB", new_into SMBExport_t SMBExport_DeepCopyInto)].
Definition ShareSpec_DeepCopy : option loc → M (option loc) := deepcopy ShareSpec_t ShareSpec_DeepCopyInto.
Definition ShareStatus_DeepCopyInto : gval → M gval := into [
  ("Conditions", make_each (TLib "Condition") (lib_copy "Condition"))].
Definition ShareStatus_DeepCopy : option loc → M (option loc) := deepcopy ShareStatus_t ShareStatus_DeepCopyInto.
Definition Share_DeepCopyInto : gval → M gval := into [
  ("TypeMeta", mret); ("ObjectMeta", lib_copy "ObjectMeta"); ("Spec", ShareSpec_DeepCopyInto);
    ("Status", ShareStatus_DeepCopyInto)].
Definition Share_DeepCopy : option loc → M (option loc) := deepcopy Share_t Share_DeepCopyInto.
Definition Share_DeepCopyObject : option loc → M (option loc) := deepcopy_object Share_DeepCopy.
Definition ShareList_DeepCopyInto : gval → M gval := into [
  ("TypeMeta", mret); ("ListMeta", lib_copy "ListMeta"); ("Items", make_each Share_t Share_DeepCopyInto)].
Definition ShareList_DeepCopy : option loc → M (option loc) := deepcopy ShareList_t ShareList_DeepCopyInto.
Definition ShareList_DeepCopyObject : option loc → M (option loc) := deepcopy_object ShareList_DeepCopy.
Definition StoragePoolSpec_DeepCopyInto : gval → M gval := into [
  ("Devices", make_copy TData); ("Thin", new_copy TData)].
Definition StoragePoolSpec_DeepCopy : option loc → M (option loc) := deepcopy StoragePoolSpec_t StoragePoolSpec_DeepCopyInto.
Definition StoragePoolStatus_DeepCopyInto : gval → M gval := into [
  ("Conditions", make_each (TLib "Condition") (lib_copy "Condition"));
    ("Capacity", new_deepcopy (lib_copy "Quantity")); ("Free", new_deepcopy (lib_copy "Quantity"));
    ("Devices", make_copy DeviceStatus_t); ("RebuildPercent", new_copy TData)].
Definition StoragePoolStatus_DeepCopy : option loc → M (option loc) := deepcopy StoragePoolStatus_t StoragePoolStatus_DeepCopyInto.
Definition StoragePool_DeepCopyInto : gval → M gval := into [
  ("TypeMeta", mret); ("ObjectMeta", lib_copy "ObjectMeta"); ("Spec", StoragePoolSpec_DeepCopyInto);
    ("Status", StoragePoolStatus_DeepCopyInto)].
Definition StoragePool_DeepCopy : option loc → M (option loc) := deepcopy StoragePool_t StoragePool_DeepCopyInto.
Definition StoragePool_DeepCopyObject : option loc → M (option loc) := deepcopy_object StoragePool_DeepCopy.
Definition StoragePoolList_DeepCopyInto : gval → M gval := into [
  ("TypeMeta", mret); ("ListMeta", lib_copy "ListMeta"); ("Items", make_each StoragePool_t StoragePool_DeepCopyInto)].
Definition StoragePoolList_DeepCopy : option loc → M (option loc) := deepcopy StoragePoolList_t StoragePoolList_DeepCopyInto.
Definition StoragePoolList_DeepCopyObject : option loc → M (option loc) := deepcopy_object StoragePoolList_DeepCopy.
Definition TargetSpec_DeepCopyInto : gval → M gval := into [
  ("LUNs", make_copy LUN_t); ("Initiators", make_copy Initiator_t)].
Definition TargetSpec_DeepCopy : option loc → M (option loc) := deepcopy TargetSpec_t TargetSpec_DeepCopyInto.
Definition TargetStatus_DeepCopyInto : gval → M gval := into [
  ("Conditions", make_each (TLib "Condition") (lib_copy "Condition")); ("LUNs", make_copy LUNStatus_t);
    ("ChapSecretVersions", make_copy SecretVersion_t)].
Definition TargetStatus_DeepCopy : option loc → M (option loc) := deepcopy TargetStatus_t TargetStatus_DeepCopyInto.
Definition Target_DeepCopyInto : gval → M gval := into [
  ("TypeMeta", mret); ("ObjectMeta", lib_copy "ObjectMeta"); ("Spec", TargetSpec_DeepCopyInto);
    ("Status", TargetStatus_DeepCopyInto)].
Definition Target_DeepCopy : option loc → M (option loc) := deepcopy Target_t Target_DeepCopyInto.
Definition Target_DeepCopyObject : option loc → M (option loc) := deepcopy_object Target_DeepCopy.
Definition TargetList_DeepCopyInto : gval → M gval := into [
  ("TypeMeta", mret); ("ListMeta", lib_copy "ListMeta"); ("Items", make_each Target_t Target_DeepCopyInto)].
Definition TargetList_DeepCopy : option loc → M (option loc) := deepcopy TargetList_t TargetList_DeepCopyInto.
Definition TargetList_DeepCopyObject : option loc → M (option loc) := deepcopy_object TargetList_DeepCopy.
Definition AssignedReplica_DeepCopyInto : gval → M gval := into [].
Definition AssignedReplica_DeepCopy : option loc → M (option loc) := deepcopy AssignedReplica_t AssignedReplica_DeepCopyInto.
Definition Assignment_DeepCopyInto : gval → M gval := into [
  ("Replicas", make_copy AssignedReplica_t)].
Definition Assignment_DeepCopy : option loc → M (option loc) := deepcopy Assignment_t Assignment_DeepCopyInto.
Definition PoolSpec_DeepCopyInto : gval → M gval := into [
  ("OvercommitPercent", new_copy TData); ("ReservePercent", new_copy TData)].
Definition PoolSpec_DeepCopy : option loc → M (option loc) := deepcopy PoolSpec_t PoolSpec_DeepCopyInto.
Definition PoolStatus_DeepCopyInto : gval → M gval := into [
  ("TotalBytes", new_copy TData); ("FreeBytes", new_copy TData); ("Volumes", make_copy TData);
    ("CommittedBytes", new_copy TData); ("PlaceableBytes", new_copy TData);
    ("Conditions", make_each (TLib "Condition") (lib_copy "Condition"))].
Definition PoolStatus_DeepCopy : option loc → M (option loc) := deepcopy PoolStatus_t PoolStatus_DeepCopyInto.
Definition Pool_DeepCopyInto : gval → M gval := into [
  ("TypeMeta", mret); ("ObjectMeta", lib_copy "ObjectMeta"); ("Spec", PoolSpec_DeepCopyInto);
    ("Status", PoolStatus_DeepCopyInto)].
Definition Pool_DeepCopy : option loc → M (option loc) := deepcopy Pool_t Pool_DeepCopyInto.
Definition Pool_DeepCopyObject : option loc → M (option loc) := deepcopy_object Pool_DeepCopy.
Definition PoolList_DeepCopyInto : gval → M gval := into [
  ("TypeMeta", mret); ("ListMeta", lib_copy "ListMeta"); ("Items", make_each Pool_t Pool_DeepCopyInto)].
Definition PoolList_DeepCopy : option loc → M (option loc) := deepcopy PoolList_t PoolList_DeepCopyInto.
Definition PoolList_DeepCopyObject : option loc → M (option loc) := deepcopy_object PoolList_DeepCopy.
Definition ReplicaStatus_DeepCopyInto : gval → M gval := into [
  ("SyncPercent", new_copy TData); ("Peers", make_map); ("Quorum", new_copy TData)].
Definition ReplicaStatus_DeepCopy : option loc → M (option loc) := deepcopy ReplicaStatus_t ReplicaStatus_DeepCopyInto.
Definition Resolve_DeepCopyInto : gval → M gval := into [].
Definition Resolve_DeepCopy : option loc → M (option loc) := deepcopy Resolve_t Resolve_DeepCopyInto.
Definition VolumeSpec_DeepCopyInto : gval → M gval := into [
  ("Resolve", new_copy Resolve_t); ("Assignment", new_into Assignment_t Assignment_DeepCopyInto)].
Definition VolumeSpec_DeepCopy : option loc → M (option loc) := deepcopy VolumeSpec_t VolumeSpec_DeepCopyInto.
Definition VolumeStatus_DeepCopyInto : gval → M gval := into [
  ("Conditions", make_each (TLib "Condition") (lib_copy "Condition"));
    ("Replicas", make_each ReplicaStatus_t ReplicaStatus_DeepCopyInto)].
Definition VolumeStatus_DeepCopy : option loc → M (option loc) := deepcopy VolumeStatus_t VolumeStatus_DeepCopyInto.
Definition Volume_DeepCopyInto : gval → M gval := into [
  ("TypeMeta", mret); ("ObjectMeta", lib_copy "ObjectMeta"); ("Spec", VolumeSpec_DeepCopyInto);
    ("Status", VolumeStatus_DeepCopyInto)].
Definition Volume_DeepCopy : option loc → M (option loc) := deepcopy Volume_t Volume_DeepCopyInto.
Definition Volume_DeepCopyObject : option loc → M (option loc) := deepcopy_object Volume_DeepCopy.
Definition VolumeList_DeepCopyInto : gval → M gval := into [
  ("TypeMeta", mret); ("ListMeta", lib_copy "ListMeta"); ("Items", make_each Volume_t Volume_DeepCopyInto)].
Definition VolumeList_DeepCopy : option loc → M (option loc) := deepcopy VolumeList_t VolumeList_DeepCopyInto.
Definition VolumeList_DeepCopyObject : option loc → M (option loc) := deepcopy_object VolumeList_DeepCopy.

(** ** Every body covers its struct *)
Ltac cover := apply deep_into;
  repeat first
    [ apply cov_end
    | apply cov_stmt; [decided|solve [eauto with deepcopy]|]
    | apply cov_flat; [decided|reflexivity|] ].
#[local] Hint Resolve deep_lib deep_new_into deep_new_deepcopy deep_make_each deep_make_map : deepcopy.
#[local] Hint Extern 1 (deep _ mret) => (apply deep_flat; reflexivity) : deepcopy.
#[local] Hint Extern 1 (deep _ (new_copy _)) => (apply deep_new_copy; reflexivity) : deepcopy.
#[local] Hint Extern 1 (deep _ (make_copy _)) => (apply deep_make_copy; reflexivity) : deepcopy.

Lemma DeviceStatus_deep : deep DeviceStatus_t DeviceStatus_DeepCopyInto.
Proof. cover. Qed.
#[local] Hint Resolve DeviceStatus_deep : deepcopy.
Lemma Disk_deep : deep Disk_t Disk_DeepCopyInto.
Proof. cover. Qed.
#[local] Hint Resolve Disk_deep : deepcopy.
Lemma Initiator_deep : deep Initiator_t Initiator_DeepCopyInto.
Proof. cover. Qed.
#[local] Hint Resolve Initiator_deep : deepcopy.
Lemma LUN_deep : deep LUN_t LUN_DeepCopyInto.
Proof. cover. Qed.
#[local] Hint Resolve LUN_deep : deepcopy.
Lemma LUNStatus_deep : deep LUNStatus_t LUNStatus_DeepCopyInto.
Proof. cover. Qed.
#[local] Hint Resolve LUNStatus_deep : deepcopy.
Lemma LocalUserSpec_deep : deep LocalUserSpec_t LocalUserSpec_DeepCopyInto.
Proof. cover. Qed.
#[local] Hint Resolve LocalUserSpec_deep : deepcopy.
Lemma LocalUserStatus_deep : deep LocalUserStatus_t LocalUserStatus_DeepCopyInto.
Proof. cover. Qed.
#[local] Hint Resolve LocalUserStatus_deep : deepcopy.
Lemma LocalUser_deep : deep LocalUser_t LocalUser_DeepCopyInto.
Proof. cover. Qed.
#[local] Hint Resolve LocalUser_deep : deepcopy.
Lemma LocalUserList_deep : deep LocalUserList_t LocalUserList_DeepCopyInto.
Proof. cover. Qed.
#[local] Hint Resolve LocalUserList_deep : deepcopy.
Lemma NFSExport_deep : deep NFSExport_t NFSExport_DeepCopyInto.
Proof. cover. Qed.
#[local] Hint Resolve NFSExport_deep : deepcopy.
Lemma NodeInventorySpec_deep : deep NodeInventorySpec_t NodeInventorySpec_DeepCopyInto.
Proof. cover. Qed.
#[local] Hint Resolve NodeInventorySpec_deep : deepcopy.
Lemma NodeInventoryStatus_deep : deep NodeInventoryStatus_t NodeInventoryStatus_DeepCopyInto.
Proof. cover. Qed.
#[local] Hint Resolve NodeInventoryStatus_deep : deepcopy.
Lemma NodeInventory_deep : deep NodeInventory_t NodeInventory_DeepCopyInto.
Proof. cover. Qed.
#[local] Hint Resolve NodeInventory_deep : deepcopy.
Lemma NodeInventoryList_deep : deep NodeInventoryList_t NodeInventoryList_DeepCopyInto.
Proof. cover. Qed.
#[local] Hint Resolve NodeInventoryList_deep : deepcopy.
Lemma SMBExport_deep : deep SMBExport_t SMBExport_DeepCopyInto.
Proof. cover. Qed.
#[local] Hint Resolve SMBExport_deep : deepcopy.
Lemma SecretVersion_deep : deep SecretVersion_t SecretVersion_DeepCopyInto.
Proof. cover. Qed.
#[local] Hint Resolve SecretVersion_deep : deepcopy.
Lemma ShareSpec_deep : deep ShareSpec_t ShareSpec_DeepCopyInto.
Proof. cover. Qed.
#[local] Hint Resolve ShareSpec_deep : deepcopy.
Lemma ShareStatus_deep : deep ShareStatus_t ShareStatus_DeepCopyInto.
Proof. cover. Qed.
#[local] Hint Resolve ShareStatus_deep : deepcopy.
Lemma Share_deep : deep Share_t Share_DeepCopyInto.
Proof. cover. Qed.
#[local] Hint Resolve Share_deep : deepcopy.
Lemma ShareList_deep : deep ShareList_t ShareList_DeepCopyInto.
Proof. cover. Qed.
#[local] Hint Resolve ShareList_deep : deepcopy.
Lemma StoragePoolSpec_deep : deep StoragePoolSpec_t StoragePoolSpec_DeepCopyInto.
Proof. cover. Qed.
#[local] Hint Resolve StoragePoolSpec_deep : deepcopy.
Lemma StoragePoolStatus_deep : deep StoragePoolStatus_t StoragePoolStatus_DeepCopyInto.
Proof. cover. Qed.
#[local] Hint Resolve StoragePoolStatus_deep : deepcopy.
Lemma StoragePool_deep : deep StoragePool_t StoragePool_DeepCopyInto.
Proof. cover. Qed.
#[local] Hint Resolve StoragePool_deep : deepcopy.
Lemma StoragePoolList_deep : deep StoragePoolList_t StoragePoolList_DeepCopyInto.
Proof. cover. Qed.
#[local] Hint Resolve StoragePoolList_deep : deepcopy.
Lemma TargetSpec_deep : deep TargetSpec_t TargetSpec_DeepCopyInto.
Proof. cover. Qed.
#[local] Hint Resolve TargetSpec_deep : deepcopy.
Lemma TargetStatus_deep : deep TargetStatus_t TargetStatus_DeepCopyInto.
Proof. cover. Qed.
#[local] Hint Resolve TargetStatus_deep : deepcopy.
Lemma Target_deep : deep Target_t Target_DeepCopyInto.
Proof. cover. Qed.
#[local] Hint Resolve Target_deep : deepcopy.
Lemma TargetList_deep : deep TargetList_t TargetList_DeepCopyInto.
Proof. cover. Qed.
#[local] Hint Resolve TargetList_deep : deepcopy.
Lemma AssignedReplica_deep : deep AssignedReplica_t AssignedReplica_DeepCopyInto.
Proof. cover. Qed.
#[local] Hint Resolve AssignedReplica_deep : deepcopy.
Lemma Assignment_deep : deep Assignment_t Assignment_DeepCopyInto.
Proof. cover. Qed.
#[local] Hint Resolve Assignment_deep : deepcopy.
Lemma PoolSpec_deep : deep PoolSpec_t PoolSpec_DeepCopyInto.
Proof. cover. Qed.
#[local] Hint Resolve PoolSpec_deep : deepcopy.
Lemma PoolStatus_deep : deep PoolStatus_t PoolStatus_DeepCopyInto.
Proof. cover. Qed.
#[local] Hint Resolve PoolStatus_deep : deepcopy.
Lemma Pool_deep : deep Pool_t Pool_DeepCopyInto.
Proof. cover. Qed.
#[local] Hint Resolve Pool_deep : deepcopy.
Lemma PoolList_deep : deep PoolList_t PoolList_DeepCopyInto.
Proof. cover. Qed.
#[local] Hint Resolve PoolList_deep : deepcopy.
Lemma ReplicaStatus_deep : deep ReplicaStatus_t ReplicaStatus_DeepCopyInto.
Proof. cover. Qed.
#[local] Hint Resolve ReplicaStatus_deep : deepcopy.
Lemma Resolve_deep : deep Resolve_t Resolve_DeepCopyInto.
Proof. cover. Qed.
#[local] Hint Resolve Resolve_deep : deepcopy.
Lemma VolumeSpec_deep : deep VolumeSpec_t VolumeSpec_DeepCopyInto.
Proof. cover. Qed.
#[local] Hint Resolve VolumeSpec_deep : deepcopy.
Lemma VolumeStatus_deep : deep VolumeStatus_t VolumeStatus_DeepCopyInto.
Proof. cover. Qed.
#[local] Hint Resolve VolumeStatus_deep : deepcopy.
Lemma Volume_deep : deep Volume_t Volume_DeepCopyInto.
Proof. cover. Qed.
#[local] Hint Resolve Volume_deep : deepcopy.
Lemma VolumeList_deep : deep VolumeList_t VolumeList_DeepCopyInto.
Proof. cover. Qed.
#[local] Hint Resolve VolumeList_deep : deepcopy.

(** The functions by type: DeepCopyInto with what DeepCopy and, for an API
    object, DeepCopyObject make of a pointer. *)
Record generated := {
  g_ty : ty; g_into : gval → M gval; g_copy : option loc → M (option loc); g_object : option (option loc → M (option loc));
}.
Definition generated_copies : list (string * generated) := [
  ("DeviceStatus", {| g_ty := DeviceStatus_t; g_into := DeviceStatus_DeepCopyInto; g_copy := DeviceStatus_DeepCopy;
    g_object := None |});
  ("Disk", {| g_ty := Disk_t; g_into := Disk_DeepCopyInto; g_copy := Disk_DeepCopy;
    g_object := None |});
  ("Initiator", {| g_ty := Initiator_t; g_into := Initiator_DeepCopyInto; g_copy := Initiator_DeepCopy;
    g_object := None |});
  ("LUN", {| g_ty := LUN_t; g_into := LUN_DeepCopyInto; g_copy := LUN_DeepCopy;
    g_object := None |});
  ("LUNStatus", {| g_ty := LUNStatus_t; g_into := LUNStatus_DeepCopyInto; g_copy := LUNStatus_DeepCopy;
    g_object := None |});
  ("LocalUserSpec", {| g_ty := LocalUserSpec_t; g_into := LocalUserSpec_DeepCopyInto; g_copy := LocalUserSpec_DeepCopy;
    g_object := None |});
  ("LocalUserStatus", {| g_ty := LocalUserStatus_t; g_into := LocalUserStatus_DeepCopyInto; g_copy := LocalUserStatus_DeepCopy;
    g_object := None |});
  ("LocalUser", {| g_ty := LocalUser_t; g_into := LocalUser_DeepCopyInto; g_copy := LocalUser_DeepCopy;
    g_object := Some LocalUser_DeepCopyObject |});
  ("LocalUserList", {| g_ty := LocalUserList_t; g_into := LocalUserList_DeepCopyInto; g_copy := LocalUserList_DeepCopy;
    g_object := Some LocalUserList_DeepCopyObject |});
  ("NFSExport", {| g_ty := NFSExport_t; g_into := NFSExport_DeepCopyInto; g_copy := NFSExport_DeepCopy;
    g_object := None |});
  ("NodeInventorySpec", {| g_ty := NodeInventorySpec_t; g_into := NodeInventorySpec_DeepCopyInto; g_copy := NodeInventorySpec_DeepCopy;
    g_object := None |});
  ("NodeInventoryStatus", {| g_ty := NodeInventoryStatus_t; g_into := NodeInventoryStatus_DeepCopyInto; g_copy := NodeInventoryStatus_DeepCopy;
    g_object := None |});
  ("NodeInventory", {| g_ty := NodeInventory_t; g_into := NodeInventory_DeepCopyInto; g_copy := NodeInventory_DeepCopy;
    g_object := Some NodeInventory_DeepCopyObject |});
  ("NodeInventoryList", {| g_ty := NodeInventoryList_t; g_into := NodeInventoryList_DeepCopyInto; g_copy := NodeInventoryList_DeepCopy;
    g_object := Some NodeInventoryList_DeepCopyObject |});
  ("SMBExport", {| g_ty := SMBExport_t; g_into := SMBExport_DeepCopyInto; g_copy := SMBExport_DeepCopy;
    g_object := None |});
  ("SecretVersion", {| g_ty := SecretVersion_t; g_into := SecretVersion_DeepCopyInto; g_copy := SecretVersion_DeepCopy;
    g_object := None |});
  ("ShareSpec", {| g_ty := ShareSpec_t; g_into := ShareSpec_DeepCopyInto; g_copy := ShareSpec_DeepCopy;
    g_object := None |});
  ("ShareStatus", {| g_ty := ShareStatus_t; g_into := ShareStatus_DeepCopyInto; g_copy := ShareStatus_DeepCopy;
    g_object := None |});
  ("Share", {| g_ty := Share_t; g_into := Share_DeepCopyInto; g_copy := Share_DeepCopy;
    g_object := Some Share_DeepCopyObject |});
  ("ShareList", {| g_ty := ShareList_t; g_into := ShareList_DeepCopyInto; g_copy := ShareList_DeepCopy;
    g_object := Some ShareList_DeepCopyObject |});
  ("StoragePoolSpec", {| g_ty := StoragePoolSpec_t; g_into := StoragePoolSpec_DeepCopyInto; g_copy := StoragePoolSpec_DeepCopy;
    g_object := None |});
  ("StoragePoolStatus", {| g_ty := StoragePoolStatus_t; g_into := StoragePoolStatus_DeepCopyInto; g_copy := StoragePoolStatus_DeepCopy;
    g_object := None |});
  ("StoragePool", {| g_ty := StoragePool_t; g_into := StoragePool_DeepCopyInto; g_copy := StoragePool_DeepCopy;
    g_object := Some StoragePool_DeepCopyObject |});
  ("StoragePoolList", {| g_ty := StoragePoolList_t; g_into := StoragePoolList_DeepCopyInto; g_copy := StoragePoolList_DeepCopy;
    g_object := Some StoragePoolList_DeepCopyObject |});
  ("TargetSpec", {| g_ty := TargetSpec_t; g_into := TargetSpec_DeepCopyInto; g_copy := TargetSpec_DeepCopy;
    g_object := None |});
  ("TargetStatus", {| g_ty := TargetStatus_t; g_into := TargetStatus_DeepCopyInto; g_copy := TargetStatus_DeepCopy;
    g_object := None |});
  ("Target", {| g_ty := Target_t; g_into := Target_DeepCopyInto; g_copy := Target_DeepCopy;
    g_object := Some Target_DeepCopyObject |});
  ("TargetList", {| g_ty := TargetList_t; g_into := TargetList_DeepCopyInto; g_copy := TargetList_DeepCopy;
    g_object := Some TargetList_DeepCopyObject |});
  ("AssignedReplica", {| g_ty := AssignedReplica_t; g_into := AssignedReplica_DeepCopyInto; g_copy := AssignedReplica_DeepCopy;
    g_object := None |});
  ("Assignment", {| g_ty := Assignment_t; g_into := Assignment_DeepCopyInto; g_copy := Assignment_DeepCopy;
    g_object := None |});
  ("PoolSpec", {| g_ty := PoolSpec_t; g_into := PoolSpec_DeepCopyInto; g_copy := PoolSpec_DeepCopy;
    g_object := None |});
  ("PoolStatus", {| g_ty := PoolStatus_t; g_into := PoolStatus_DeepCopyInto; g_copy := PoolStatus_DeepCopy;
    g_object := None |});
  ("Pool", {| g_ty := Pool_t; g_into := Pool_DeepCopyInto; g_copy := Pool_DeepCopy;
    g_object := Some Pool_DeepCopyObject |});
  ("PoolList", {| g_ty := PoolList_t; g_into := PoolList_DeepCopyInto; g_copy := PoolList_DeepCopy;
    g_object := Some PoolList_DeepCopyObject |});
  ("ReplicaStatus", {| g_ty := ReplicaStatus_t; g_into := ReplicaStatus_DeepCopyInto; g_copy := ReplicaStatus_DeepCopy;
    g_object := None |});
  ("Resolve", {| g_ty := Resolve_t; g_into := Resolve_DeepCopyInto; g_copy := Resolve_DeepCopy;
    g_object := None |});
  ("VolumeSpec", {| g_ty := VolumeSpec_t; g_into := VolumeSpec_DeepCopyInto; g_copy := VolumeSpec_DeepCopy;
    g_object := None |});
  ("VolumeStatus", {| g_ty := VolumeStatus_t; g_into := VolumeStatus_DeepCopyInto; g_copy := VolumeStatus_DeepCopy;
    g_object := None |});
  ("Volume", {| g_ty := Volume_t; g_into := Volume_DeepCopyInto; g_copy := Volume_DeepCopy;
    g_object := Some Volume_DeepCopyObject |});
  ("VolumeList", {| g_ty := VolumeList_t; g_into := VolumeList_DeepCopyInto; g_copy := VolumeList_DeepCopy;
    g_object := Some VolumeList_DeepCopyObject |})].

Record copies_ok (g : generated) : Prop := {
  ok_deep : deep (g_ty g) (g_into g);
  ok_copy : g_copy g = deepcopy (g_ty g) (g_into g);
  ok_object f : g_object g = Some f → f = deepcopy_object (g_copy g);
}.
Lemma generated_ok : Forall (λ ng, copies_ok ng.2) generated_copies.
Proof. repeat (constructor; [split; cbn; [solve [eauto with deepcopy]|done|naive_solver]|]). constructor. Qed.
Lemma deepcopy_object_same copy p h : deepcopy_object copy p h = copy p h.
Proof. unfold deepcopy_object, mbind, M_bind. by destruct (copy p h) as [[[l|] h']|]. Qed.
Lemma deepcopy_deep T f p h t : deep T f → own (TPtr T) (dom h) h (VPtr p) t →
  ∃ p' h', deepcopy T f p h = Some (p', h') ∧ h ⊆ h' ∧ own (TPtr T) (dom h' ∖ dom h) h' (VPtr p') t.
Proof.
  intros Hf Ho. destruct p as [l|]; [|exists None, h; by destruct t]. destruct t; try done. destruct Ho as (_ & x & Hl & Hx).
  destruct (new_into_run T f h l x t Hf Hl Hx) as (o & h' & _ & ? & ? & ?). eauto.
Qed.

(** C15: A copy shares nothing with its original.  For every API type, DeepCopy
    of a pointer (and DeepCopyObject, where the type has it) does not panic,
    leaves the memory there was as it is, and returns nil for nil or an object
    that denotes the same value and reaches only memory allocated by the call;
    so no write to the copy changes what the original denotes, and no write to
    memory that existed before changes what the copy denotes. *)
Theorem deepcopy_separates name g p h t :
  (name, g) ∈ generated_copies → own (TPtr (g_ty g)) (dom h) h (VPtr p) t →
  ∃ p' h', g_copy g p h = Some (p', h') ∧ (∀ f, g_object g = Some f → f p h = Some (p', h')) ∧ h ⊆ h' ∧
    own (TPtr (g_ty g)) (dom h' ∖ dom h) h' (VPtr p') t ∧
    (∀ h2, (∀ l, l ∈ dom h → h2 !! l = h' !! l) → own (TPtr (g_ty g)) (dom h) h2 (VPtr p) t) ∧
    (∀ h2, (∀ l, l ∈ dom h' ∖ dom h → h2 !! l = h' !! l) → own (TPtr (g_ty g)) (dom h' ∖ dom h) h2 (VPtr p') t).
Proof.
  intros Hin Ho. pose proof generated_ok as Hok. rewrite Forall_forall in Hok. destruct (Hok _ Hin) as [Hd Hc Hobj]. cbn in Hd, Hc, Hobj.
  destruct (deepcopy_deep _ _ p h t Hd Ho) as (p' & h' & Hrun & Hsub & Hown). exists p', h'. rewrite Hc. split_and!.
  - done.
  - intros f ->%Hobj. by rewrite deepcopy_object_same, Hc.
  - done.
  - done.
  - intros h2 Hk. apply (own_frame (TPtr (g_ty g)) _ h); [|done]. intros l Hl. rewrite Hk by done. by apply kept.
  - intros h2 Hk. by apply (own_frame (TPtr (g_ty g)) _ h').
Qed.
End Copies.

(** ** Witness: a share with clients, and a library whose values hold slices *)
#[local] Instance plain_library : Library.
Proof.
  refine {| lib_zero _ := VData ""; lib_copy _ := mret; lib_own _ _ _ v t := ∃ s, v = VData s ∧ t = LData s |}; [done..|].
  intros n h v t Hv. by exists v, h.
Defined.
Definition slice_library : Library.
Proof.
  refine {| lib_zero _ := VSlice None; lib_copy _ := make_copy TData; lib_own _ := own (TSlice TData) |}.
  - intros n. apply own_mono.
  - intros n. apply own_frame.
  - intros n. by apply (deep_make_copy TData).
Defined.

Definition share_heap : heap :=
  {[ 0 := CVar (VField "TypeMeta" (VField "Kind" (VData "Share") (VField "APIVersion" (VData "v1alpha1") VEnd))
             (VField "ObjectMeta" (VSlice (Some {| sl_arr := 1; sl_off := 0; sl_len := 1 |}))
             (VField "Spec" (VField "ClaimName" (VData "docs") (VField "NFS" (VPtr (Some 2)) (VField "SMB" (VPtr None) VEnd)))
             (VField "Status" (VField "Conditions" (VSlice None) (VField "Node" (VData "") (VField "Device" (VData "")
               (VField "State" (VData "") VEnd)))) VEnd))));
     1 := CArr [VData "finalizer"];
     2 := CVar (VField "Clients" (VSlice (Some {| sl_arr := 3; sl_off := 1; sl_len := 2 |})) VEnd);
     3 := CArr [VData "x"; VData "10.0.0.0/8"; VData "::1"] ]}.
Definition share_tree : tree :=
  LPtr (LField "TypeMeta" (LField "Kind" (LData "Share") (LField "APIVersion" (LData "v1alpha1") LEnd))
    (LField "ObjectMeta" (LSlice [LData "finalizer"])
    (LField "Spec" (LField "ClaimName" (LData "docs")
      (LField "NFS" (LPtr (LField "Clients" (LSlice [LData "10.0.0.0/8"; LData "::1"]) LEnd)) (LField "SMB" LNil LEnd)))
    (LField "Status" (LField "Conditions" LNil (LField "Node" (LData "") (LField "Device" (LData "")
      (LField "State" (LData "") LEnd)))) LEnd)))).

Section Witness.
#[local] Existing Instance slice_library.
Definition share_copies : generated :=
  {| g_ty := Share_t; g_into := Share_DeepCopyInto; g_copy := Share_DeepCopy; g_object := Some Share_DeepCopyObject |}.
Lemma share_generated : ("Share", share_copies) ∈ generated_copies.
Proof. repeat first [left; reflexivity | right]. Qed.
(** The copy has clients of its own: emptying the array it reaches leaves the
    original as it was. *)
Lemma deepcopy_separates_witness : ∃ p' h', Share_DeepCopy (Some 0) share_heap = Some (p', h') ∧
  own (TPtr Share_t) (dom h' ∖ dom share_heap) h' (VPtr p') share_tree ∧
  ∀ l, l ∈ dom h' ∖ dom share_heap → own (TPtr Share_t) (dom share_heap) (<[l := CArr []]> h') (VPtr (Some 0)) share_tree.
Proof.
  destruct (deepcopy_separates "Share" share_copies (Some 0) share_heap share_tree share_generated)
    as (p' & h' & Hr & _ & _ & Ho & Hk & _).
  - cbn. refine (conj _ (ex_intro _ _ (conj eq_refl _))); [decided|]. cbn. split_and!; try done.
    all: repeat first [ done | decided | split | eexists | constructor ].
  - exists p', h'. split; [exact Hr|]. split; [exact Ho|]. intros l Hl. apply Hk. intros l' Hl'.
    apply lookup_insert_ne. intros ->. apply elem_of_difference in Hl as [_ []]. exact Hl'.
Defined.
End Witness.
