(* ===== verification/Effects.v ===== *)
(** * The operations the Go code issues

    [Run]/[RunInput] are the agent's [Runner] (one host command; on success
    the output is stdout, on failure stdout and stderr together), the [F..]
    operations are [os] file calls, the typed operations are the
    controller-runtime client, [Now] the clock and [Eventf] the event
    recorder.  Log lines ([fmt.Printf], [logf]) are not operations. *)

From S2P Require Import Prelude GoStrings Prog ApiTypes.

Inductive kind :=
  | KStoragePool | KPool | KVolume | KNode | KShare | KTarget | KLocalUser
  | KSecret | KPVC | KPV | KStorageClass | KNodeInventory.
#[global] Instance kind_eq_dec : EqDecision kind.
Proof. solve_decision. Defined.

Definition obj (k : kind) : Type :=
  match k with
  | KStoragePool => StoragePool | KPool => Pool | KVolume => Volume | KNode => Node
  | KShare => Share | KTarget => Target | KLocalUser => LocalUser | KSecret => Secret
  | KPVC => PersistentVolumeClaim | KPV => PersistentVolume | KStorageClass => StorageClass
  | KNodeInventory => NodeInventory
  end.

Inductive op : Type → Type :=
  | Run (name : string) (args : list string) : op (string * option error)
  | RunInput (stdin name : string) (args : list string) : op (string * option error)
  | FRead (path : string) : op (error + string)
  | FWrite (path data : string) : op (option error)
  | FRemove (path : string) : op (option error)
  | FMkdirAll (path : string) : op (option error)
  | FStat (path : string) : op (option error)
  | Get (k : kind) (key : NamespacedName) : op (error + obj k)
  | List (k : kind) (ns : option string) : op (error + list (obj k))
  | ListLabelled (k : kind) (label : string) : op (error + list (obj k))
  | Create (k : kind) (o : obj k) : op (error + obj k)
  | Update (k : kind) (o : obj k) : op (error + obj k)
  | StatusUpdate (k : kind) (o : obj k) : op (option error)
  | PatchObj (k : kind) (old new : obj k) : op (option error)
  | Delete (k : kind) (o : obj k) : op (option error)
  | Now : op Z
  | Eventf (type reason action note : string) : op unit.

Abbreviation io := (prog op).

(** controller-runtime's [ctrl.Result] and a reconcile's two results. *)
Record Result := { RequeueAfter : Z }.
Definition NoRequeue : Result := {| RequeueAfter := 0 |}.
Definition second : Z := 1000000000.
Definition requeue (d : Z) : Result := {| RequeueAfter := d |}.
Abbreviation reconcile := (Result * option error)%type.
Definition done_ok : reconcile := (NoRequeue, None).
Definition done_err (e : option error) : reconcile := (NoRequeue, e).

(** Observers of a trace. *)
Definition ev_run (e : event op) : option (string * list string * (string * option error)) :=
  match e with
  | Ev o x =>
      match o in op X return X → _ with
      | Run n a => λ r, Some (n, a, r)
      | RunInput _ n a => λ r, Some (n, a, r)
      | _ => λ _, None
      end x
  end.

(** The command line of an event. *)
Definition cmd_of (e : event op) : option (string * list string) :=
  (λ r, r.1) <$> ev_run e.

(** Typed observers: the object of kind [k] an event writes, deletes,
    creates or reads; [None] for every other event. *)
Definition as_kind (k : kind) {k' : kind} (x : obj k') : option (obj k) :=
  match decide (k' = k) with
  | left e => Some (eq_rect k' obj x k e)
  | right _ => None
  end.

Lemma as_kind_refl k (x : obj k) : as_kind k x = Some x.
Proof.
  unfold as_kind. destruct (decide (k = k)) as [e|]; [|done].
  by rewrite (proof_irrel e eq_refl).
Qed.
Lemma as_kind_ne k k' (x : obj k') : k' ≠ k → as_kind k x = None.
Proof. intros. unfold as_kind. by destruct (decide _). Qed.
#[global] Opaque as_kind.

Definition ev_status (k : kind) (e : event op) : option (obj k) :=
  match e with
  | Ev o _ => match o with StatusUpdate _ x => as_kind k x | _ => None end
  end.
Definition ev_update (k : kind) (e : event op) : option (obj k) :=
  match e with
  | Ev o _ => match o with Update _ x => as_kind k x | _ => None end
  end.
Definition ev_create (k : kind) (e : event op) : option (obj k) :=
  match e with
  | Ev o _ => match o with Create _ x => as_kind k x | _ => None end
  end.
Definition ev_delete (k : kind) (e : event op) : option (obj k) :=
  match e with
  | Ev o _ => match o with Delete _ x => as_kind k x | _ => None end
  end.
(** A patch of one object: the object as read and as wanted. *)
Definition ev_patch (k : kind) (e : event op) : option (obj k * obj k) :=
  match e with
  | Ev o _ => match o with
              | PatchObj _ x y => a ← as_kind k x; b ← as_kind k y; Some (a, b)
              | _ => None
              end
  end.
(** A read of one object and its answer. *)
Definition ev_get (k : kind) (e : event op) : option (NamespacedName * (error + obj k)) :=
  match e with
  | Ev o x =>
      match o in op X return X → _ with
      | Get k' key => λ r,
          match r with
          | inl err => if decide (k' = k) then Some (key, inl err) else None
          | inr y => (λ z, (key, inr z)) <$> as_kind k y
          end
      | _ => λ _, None
      end x
  end.

(** A read determines its answer: no axiom on the dependent pair is needed. *)
Lemma get_head_inj k key (x y : error + obj k) (t1 t2 : trace op) :
  Ev (Get k key) x :: t1 = Ev (Get k key) y :: t2 → x = y ∧ t1 = t2.
Proof.
  intros Heq. split; [|by injection Heq].
  assert (ev_get k (Ev (Get k key) x) = ev_get k (Ev (Get k key) y)) as Hg by (f_equal; congruence).
  destruct x, y; cbn in Hg; rewrite ?as_kind_refl in Hg; rewrite ?decide_True in Hg by done; cbn in Hg; congruence.
Qed.

(** The server's answer to an update. *)
Definition ev_updated (k : kind) (e : event op) : option (obj k) :=
  match e with
  | Ev o x =>
      match o in op X return X → _ with
      | Update _ _ => λ r, match r with inr y => as_kind k y | inl _ => None end
      | _ => λ _, None
      end x
  end.

(** [tr] read [key] of kind [k] and was answered [r]. *)
Definition saw (k : kind) (key : NamespacedName) (r : error + obj k) (tr : trace op) : Prop :=
  ∃ e, e ∈ tr ∧ ev_get k e = Some (key, r).

Lemma saw_cons k key r e tr : ev_get k e = Some (key, r) ∨ saw k key r tr → saw k key r (e :: tr).
Proof. intros [?|(x & ? & ?)]; [exists e|exists x]; rewrite elem_of_cons; auto. Qed.
Lemma saw_app_l k key r t1 t2 : saw k key r t1 → saw k key r (t1 ++ t2).
Proof. intros (x & ? & ?). exists x. rewrite elem_of_app. auto. Qed.
Lemma saw_app_r k key r t1 t2 : saw k key r t2 → saw k key r (t1 ++ t2).
Proof. intros (x & ? & ?). exists x. rewrite elem_of_app. auto. Qed.
Lemma saw_here k key r e tr : ev_get k e = Some (key, r) → saw k key r (e :: tr).
Proof. intros. apply saw_cons. auto. Qed.
Lemma saw_there k key r e tr : saw k key r tr → saw k key r (e :: tr).
Proof. intros. apply saw_cons. auto. Qed.

(** [x] is the object at [key] as some answer of the API server in [tr] had it:
    a read, or the answer to an update. *)
Definition known (k : kind) (key : NamespacedName) (x : obj k) (tr : trace op) : Prop :=
  saw k key (inr x) tr ∨ ∃ e, e ∈ tr ∧ ev_updated k e = Some x.

(** Evaluation of the observers. *)
Ltac kind_simpl :=
  repeat match goal with
  | H : context [as_kind ?k ?x] |- _ => first [rewrite (as_kind_refl k) in H | rewrite (as_kind_ne k) in H by done]
  | |- context [as_kind ?k ?x] => first [rewrite (as_kind_refl k) | rewrite (as_kind_ne k) by done]
  | H : context [decide (?a = ?b)] |- _ => first [rewrite (decide_True (P := a = b)) in H by done | rewrite (decide_False (P := a = b)) in H by done]
  | |- context [decide (?a = ?b)] => first [rewrite (decide_True (P := a = b)) by done | rewrite (decide_False (P := a = b)) by done]
  end.
Ltac ev_simpl := cbn in *; kind_simpl; simplify_eq; try done.

(** Open the answers of commands. *)
Ltac outs :=
  repeat match goal with x : (string * option error)%type |- _ => destruct x end;
  cbn in *; simplify_eq.

Lemma known_get k key x tr : known k key x (Ev (Get k key) (inr x) :: tr).
Proof. left. apply saw_here. cbn. by rewrite as_kind_refl. Qed.
Lemma known_update k key x y e tr : known k key x (e :: Ev (Update k y) (inr x) :: tr).
Proof.
  right. eexists. split; [right; left|]. cbn. by rewrite as_kind_refl.
Qed.

(** Every operation has an answer. *)
Definition some_answer (X : Type) (o : op X) : X :=
  match o with
  | Run _ _ | RunInput _ _ _ => ("", None)
  | FRead _ | Get _ _ | List _ _ | ListLabelled _ _ | Create _ _ | Update _ _ => inl (errorf "")
  | FWrite _ _ | FRemove _ | FMkdirAll _ | FStat _ | StatusUpdate _ _ | PatchObj _ _ _ | Delete _ _ => None
  | Now => 0%Z
  | Eventf _ _ _ _ => tt
  end.

(** The operations on the node itself: commands and files. *)
Definition host_op (X : Type) (o : op X) : Prop :=
  match o with
  | Run _ _ | RunInput _ _ _ | FRead _ | FWrite _ _ | FRemove _ | FMkdirAll _ | FStat _ => True
  | _ => False
  end.
Abbreviation host_only := (Forall (ev_issues host_op)).
Lemma host_no_status tr k e p : host_only tr → e ∈ tr → ev_status k e ≠ Some p.
Proof. intros Ht He. rewrite Forall_forall in Ht. specialize (Ht e He). by destruct e as [? []]. Qed.
Lemma host_no_saw tr k key r : host_only tr → ¬ saw k key r tr.
Proof.
  intros Ht (e & He & Hev). rewrite Forall_forall in Ht. specialize (Ht e He). by destruct e as [? []].
Qed.

(** Evidence in a trace: [eauto with evidence] finds the event. *)
Create HintDb evidence.
#[export] Hint Resolve saw_app_l saw_app_r saw_there | 2 : evidence.
#[export] Hint Resolve saw_here | 1 : evidence.
#[export] Hint Extern 1 (ev_get _ _ = Some _) => (cbn; kind_simpl; reflexivity) : evidence.

(** [e] runs one of the commands satisfying [P]. *)
Definition runs_cmd (P : string → list string → bool) (e : event op) : bool :=
  match cmd_of e with Some (n, a) => P n a | None => false end.

(** The event occurs in the trace before position [i] only with evidence:
    every event satisfying [bad] is preceded, in the same trace, by one
    satisfying [ev bad_event]. *)
Definition guarded (bad : event op → Prop) (ev : event op → event op → Prop) (tr : trace op) : Prop :=
  ∀ tr1 e tr2, tr = tr1 ++ e :: tr2 → bad e → ∃ e', e' ∈ tr1 ∧ ev e e'.

Section Guarded.
Context (bad : event op → Prop) (ev : event op → event op → Prop).

Lemma guarded_nil : guarded bad ev [].
Proof. intros [|??] ?? [=]. Qed.

Lemma guarded_app t1 t2 : guarded bad ev t1 → guarded bad ev t2 → guarded bad ev (t1 ++ t2).
Proof.
  intros H1 H2 tr1 e tr2 Heq Hbad.
  apply app_eq_inv in Heq as [(k & -> & Heq)|(k & -> & Heq)].
  - destruct k as [|e' k]; cbn in *; simplify_eq.
    + destruct (H2 [] e tr2) as (x & Hx & _); [done..|]. set_solver.
    + edestruct H1 as (x & ? & ?); eauto.
  - destruct (H2 k e tr2) as (x & ? & ?); [done..|]. exists x. set_solver.
Qed.

Lemma guarded_safe tr : (∀ e, e ∈ tr → ¬ bad e) → guarded bad ev tr.
Proof. intros H tr1 e tr2 -> Hb. destruct (H e); [set_solver|done]. Qed.

(** One guarded event at the end of a harmless prefix holding evidence. *)
Lemma guarded_snoc tr e : (∀ x, x ∈ tr → ¬ bad x) → (bad e → ∃ e', e' ∈ tr ∧ ev e e') →
  guarded bad ev (tr ++ [e]).
Proof.
  intros Htr He tr1 x tr2 Heq Hbad.
  destruct tr2 as [|y tr2 _] using rev_ind.
  - apply app_inj_tail in Heq as [-> ->]. auto.
  - assert (x ∈ tr) as Hx.
    { rewrite app_comm_cons, app_assoc in Heq. apply app_inj_tail in Heq as [-> _]. set_solver. }
    by destruct (Htr x).
Qed.
End Guarded.

Lemma lawful_guarded bad ev tr :
  lawful (λ t e, bad e → ∃ e', e' ∈ t ∧ ev e e') tr ↔ guarded bad ev tr.
Proof. done. Qed.

(** The command ran in [tr] and succeeded. *)
Definition did (name : string) (args : list string) (tr : trace op) : Prop :=
  ∃ e out, e ∈ tr ∧ ev_run e = Some (name, args, (out, None)).

Lemma did_here n a e tr out : ev_run e = Some (n, a, (out, None)) → did n a (e :: tr).
Proof. intros. exists e, out. set_solver. Qed.
Lemma did_there n a e tr : did n a tr → did n a (e :: tr).
Proof. intros (x & out & ? & ?). exists x, out. set_solver. Qed.
Lemma did_app_l n a t1 t2 : did n a t1 → did n a (t1 ++ t2).
Proof. intros (x & out & ? & ?). exists x, out. set_solver. Qed.
Lemma did_app_r n a t1 t2 : did n a t2 → did n a (t1 ++ t2).
Proof. intros (x & out & ? & ?). exists x, out. set_solver. Qed.
Lemma did_concat n a ts t : t ∈ ts → did n a t → did n a (concat ts).
Proof.
  intros Ht (x & out & ? & ?). exists x, out. split; [|done].
  rewrite list_elem_of_In, in_concat. setoid_rewrite <- list_elem_of_In. eauto.
Qed.
#[export] Hint Resolve did_app_l did_app_r did_there | 2 : evidence.
#[export] Hint Extern 1 (did _ _ (_ :: _)) => (eapply did_here; cbn; reflexivity) : evidence.

(** The command ran in [tr] with an answer satisfying [P]. *)
Definition seen (name : string) (args : list string) (P : string → option error → Prop) (tr : trace op) : Prop :=
  ∃ e out err, e ∈ tr ∧ ev_run e = Some (name, args, (out, err)) ∧ P out err.

Lemma seen_here n a P e tr out err :
  ev_run e = Some (n, a, (out, err)) → P out err → seen n a P (e :: tr).
Proof. intros. exists e, out, err. set_solver. Qed.
Lemma seen_there n a P e tr : seen n a P tr → seen n a P (e :: tr).
Proof. intros (x & out & err & ? & ?). exists x, out, err. set_solver. Qed.
Lemma seen_app_l n a P t1 t2 : seen n a P t1 → seen n a P (t1 ++ t2).
Proof. intros (x & out & err & ? & ?). exists x, out, err. set_solver. Qed.
Lemma seen_app_r n a P t1 t2 : seen n a P t2 → seen n a P (t1 ++ t2).
Proof. intros (x & out & err & ? & ?). exists x, out, err. set_solver. Qed.
Lemma seen_sub n a P t1 t2 : t1 ⊆ t2 → seen n a P t1 → seen n a P t2.
Proof. intros Hs (x & out & err & ? & ?). exists x, out, err. set_solver. Qed.
#[export] Hint Resolve seen_app_l seen_app_r seen_there | 3 : evidence.
#[export] Hint Extern 1 (seen _ _ _ (_ :: _)) => (eapply seen_here; [cbn; reflexivity|]; cbn; solve [eauto]) : evidence.

(** A bad event of [A ++ B] that does not occur in [A] comes after all of [A]. *)
Lemma bad_after (bad : event op → Prop) (A B tr1 tr2 : trace op) e :
  (∀ x, x ∈ A → ¬ bad x) → A ++ B = tr1 ++ e :: tr2 → bad e →
  ∃ k, tr1 = A ++ k ∧ B = k ++ e :: tr2.
Proof.
  intros HA Heq Hbad. apply app_eq_inv in Heq as [(k & -> & Heq)|(k & -> & Heq)]; [|eauto].
  destruct k as [|x k]; cbn in *; simplify_eq; [exists []; by rewrite !app_nil_r|].
  destruct (HA x); set_solver.
Qed.

(** A concrete environment: commands and files answered by [cmd] and [file],
    reads by [get] and [lst], every write accepted. *)
Definition demo_env (cmd : string → list string → string * option error)
    (get : ∀ k, NamespacedName → error + obj k) (lst : ∀ k, list (obj k)) : env op unit := λ X o s,
  (match o in op X return X with
   | Run n a => cmd n a
   | RunInput _ n a => cmd n a
   | FRead _ => inr ""
   | FWrite _ _ | FRemove _ | FMkdirAll _ | FStat _ => None
   | Get k key => get k key
   | List k _ => inr (lst k)
   | ListLabelled k _ => inr (lst k)
   | Create _ o => inr o
   | Update _ o => inr o
   | StatusUpdate _ _ | PatchObj _ _ _ | Delete _ _ => None
   | Now => 0%Z
   | Eventf _ _ _ _ => tt
   end, s).
Definition cmd_ok (n : string) (a : list string) : string * option error := ("", None).
Definition get_none (k : kind) (key : NamespacedName) : error + obj k := inl (Err "not found" KNotFound).
Definition list_none (k : kind) : list (obj k) := [].
Definition ok_env : env op unit := demo_env cmd_ok get_none list_none.
