(* ===== verification/Runner.v ===== *)
(** * Running a host command

    internal/lvm/lvm.go (Exec) and internal/agent/runner.go: every command of
    the agents goes through [nsenter] into the host's namespaces.  Starting a
    process is a parameter, [spawn]: argument vector and standard input to the
    process's failure, standard output and standard error. *)

From S2P Require Import Prelude GoStrings Prog ApiTypes Effects.

Record Process := { pr_err : option error; pr_stdout : string; pr_stderr : string }.
(** [None] is a command without standard input. *)
Abbreviation spawner := (list string → option string → Process).

(** [lvm.Exec] on the outcome of [cmd.Run()]. *)
Definition Exec (cmd : Process) (name : string) (args : list string) : string * option error :=
  match pr_err cmd with
  | Some err =>
      let out := pr_stdout cmd +:+ pr_stderr cmd in
      (out, Some (Err (name +:+ " " +:+ Join args " " +:+ ": " +:+ emsg err +:+ ": " +:+ TrimSpace out) (ekind err)))
  | None => (pr_stdout cmd, None)
  end.

Definition nsenter_args : list string := ["-t"; "1"; "-m"; "-u"; "-i"; "-n"; "--"].
Definition hostExec (spawn : spawner) (stdin name : string) (args : list string) : string * option error :=
  let full := nsenter_args ++ name :: args in
  Exec (spawn ("nsenter" :: full) (if bool_decide (stdin = "") then None else Some stdin)) name args.
Definition HostRunner_Run (spawn : spawner) (name : string) (args : list string) : string * option error :=
  hostExec spawn "" name args.
Definition HostRunner_RunInput (spawn : spawner) (stdin name : string) (args : list string) : string * option error :=
  hostExec spawn stdin name args.

Lemma slength_app a b : String.length (a +:+ b) = (String.length a + String.length b)%nat.
Proof. induction a as [|c a IH]; [done|]. rewrite sapp_cons. cbn. by rewrite IH. Qed.

(** The runner contract the callers rely on: a success is standard output
    alone, so a warning cannot corrupt what is parsed; a failure carries both
    streams, keeps the class of the process's error and names the command as
    the caller wrote it.  The process is the command entered into PID 1's
    namespaces, and standard input is passed only where there is one. *)
Record runner_contract (spawn : spawner) (stdin name : string) (args : list string) (out : string) (err : option error)
    : Prop := {
  rc_argv : ∃ p, p = spawn (["nsenter"; "-t"; "1"; "-m"; "-u"; "-i"; "-n"; "--"; name] ++ args)
                       (if bool_decide (stdin = "") then None else Some stdin) ∧
    match pr_err p with
    | None => out = pr_stdout p ∧ err = None
    | Some e => out = pr_stdout p +:+ pr_stderr p ∧
        ∃ e', err = Some e' ∧ ekind e' = ekind e ∧
          HasPrefix (emsg e') (name +:+ " " +:+ Join args " " +:+ ": ") = true
    end
}.
Lemma hostExec_contract spawn stdin name args :
  runner_contract spawn stdin name args (hostExec spawn stdin name args).1 (hostExec spawn stdin name args).2.
Proof.
  split. eexists. split; [reflexivity|]. unfold hostExec, Exec. cbn [app].
  destruct (spawn _ _) as [[e|] out errs]; cbn; [|done]. split; [done|]. eexists. split_and!; [done..|].
  cbn [emsg]. apply HasPrefix_spec. eexists. by rewrite !sapp_assoc.
Qed.
