(* ===== verification/TlsConf.v ===== *)
(** * internal/tlsconf/tlsconf.go: optional CA bundles *)

From S2P Require Import Prelude GoStrings Prog ApiTypes Effects.

(** [x509.CertPool.AppendCertsFromPEM]: the certificates a text holds. *)
Class PemParse := { cert : Type; pem_certs : string → list cert }.

(** A pool, or [nil]: the caller stays on the system's trust pool. *)
Definition RootCAs `{PemParse} (caFile : string) : io (option (list cert)) :=
  let! pem := call (FRead caFile) in
  match pem with
  | inl _ => Ret None
  | inr text => match pem_certs text with [] => Ret None | certs => Ret (Some certs) end
  end.

(** The tolerance rule: a pool is the certificates of the readable bundle and
    is never empty, so a bad bundle cannot turn verification into trusting
    nothing or everything; every other case falls back. *)
Definition ca_rule `{PemParse} (caFile : string) (tr : trace op) (r : option (list cert)) : Prop :=
  ∃ answer, tr = [Ev (FRead caFile) answer] ∧
    match answer with
    | inl _ => r = None
    | inr text => r = if bool_decide (length (pem_certs text) = 0%nat) then None else Some (pem_certs text)
    end.
Lemma root_cas_tolerant `{PemParse} caFile tr r : runs (RootCAs caFile) tr r → ca_rule caFile tr r.
Proof.
  apply wp_runs. unfold RootCAs. cbn [wp bind call]. intros [e|text]; cbn [wp]; [by eexists|].
  destruct (pem_certs text) eqn:E; cbn [wp]; eexists; (split; [reflexivity|]); cbn; by rewrite E.
Qed.
