(* ===== verification/Demo.v ===== *)
(** * Concrete objects

    A small cluster the witnesses of the theorems run on: one StoragePool on
    node n1 with its r-drbd Pool. *)

From S2P Require Import Prelude GoStrings Prog ApiTypes Effects.

Definition demo_meta (name : string) (fins : list string) (del : option Z) : ObjectMeta :=
  {| Name := name; Namespace := ""; Generation := 1; ResourceVersion := "1"; DeletionTimestamp := del;
     Finalizers := fins; Annotations := ∅; Labels := ∅ |}.
Definition demo_cond (type status : string) : Condition :=
  {| c_Type := type; c_Status := status; c_Reason := "Ready"; c_Message := ""; c_ObservedGeneration := 1 |}.

(** A linear pool [tank] of one disk, with the given conditions. *)
Definition demo_pool (fins : list string) (del : option Z) (cs : list Condition) : StoragePool :=
  {| sp_meta := demo_meta "tank" fins del;
     sp_spec := {| sp_Node := "n1"; sp_Devices := ["/dev/sdb"]; sp_Tier := "default"; sp_Raid := "none"; sp_Thin := None |};
     sp_status := {| sp_Conditions := cs; sp_VG := ""; sp_Capacity := None; sp_Free := None; sp_Health := "";
                     sp_StatusDevices := []; sp_RebuildPercent := None |} |}.
Definition demo_raid_pool (del : option Z) (cs : list Condition) : StoragePool :=
  {| sp_meta := demo_meta "tank" [] del;
     sp_spec := {| sp_Node := "n1"; sp_Devices := ["/dev/sdb"; "/dev/sdc"]; sp_Tier := "default"; sp_Raid := "raid1"; sp_Thin := None |};
     sp_status := {| sp_Conditions := cs; sp_VG := ""; sp_Capacity := None; sp_Free := None; sp_Health := "";
                     sp_StatusDevices := []; sp_RebuildPercent := None |} |}.

(** Its registered r-drbd Pool. *)
Definition demo_rpool : Pool :=
  {| p_meta := demo_meta "tank" [] None;
     p_spec := {| ps_Node := "n1"; ps_Tier := "default"; ps_VG := "stornas-tank"; ps_ThinPool := "thin";
                  ps_OvercommitPercent := None; ps_ReservePercent := None |};
     p_status := {| ps_Volumes := []; ps_Conditions := [demo_cond "Available" "True"] |} |}.

(** An API server holding the given StoragePool and r-drbd Pool. *)
Definition demo_get (sp : option StoragePool) (rp : option Pool) (k : kind) (key : NamespacedName) : error + obj k :=
  match k return error + obj k with
  | KStoragePool => match sp with Some p => inr p | None => inl (Err "not found" KNotFound) end
  | KPool => match rp with Some p => inr p | None => inl (Err "not found" KNotFound) end
  | _ => inl (Err "not found" KNotFound)
  end.
Definition demo_api (sp : option StoragePool) (rp : option Pool) : env op unit :=
  demo_env cmd_ok (demo_get sp rp) list_none.
