(* ===== verification/Placement.v ===== *)
(** * Placement: operator/internal/rdrbd/resolver.go

    [ResolvePlacement] picks the node that serves a Volume.  The abstract
    contract is [best_candidate]: an eligible replica none of the eligible
    ones outranks, ranking by (UpToDate, in use, preferred) in that order
    and by position among equals. *)

From S2P Require Import Prelude GoStrings ApiTypes.

Record candidate := {
  cand_node : string;
  cand_device : string;
  cand_inUse : bool;
  cand_upToDate : bool;
}.
#[global] Instance candidate_eq_dec : EqDecision candidate.
Proof. solve_decision. Defined.

(** The filter of the first loop: a present, diskful replica with a device. *)
Definition usable (v : Volume) (r : ReplicaStatus) : bool :=
  rs_Present r && negb (bool_decide (rs_DevicePath r = "")) && Diskful v (rs_Node r).

Definition to_candidate (v : Volume) (r : ReplicaStatus) : candidate :=
  {| cand_node := rs_Node r;
     cand_device := rs_DevicePath r;
     cand_inUse := rs_InUse r || bool_decide (v_Primary v = rs_Node r);
     cand_upToDate := bool_decide (rs_DiskState r = "UpToDate") |}.

Fixpoint candidates_of (v : Volume) (rs : list ReplicaStatus) : list candidate :=
  match rs with
  | [] => []
  | r :: rs' =>
      if negb (usable v r) then candidates_of v rs' else to_candidate v r :: candidates_of v rs'
  end.
Definition candidates (v : Volume) : list candidate := candidates_of v (v_Replicas v).

(** [replicas]: the diskful copies of the assignment. *)
Definition diskful_count (v : Volume) : nat :=
  match v_Assignment v with
  | None => 0
  | Some rs => length (filter (λ a, ar_Role a = RoleDiskful) rs)
  end.

Definition score (prefer : string) (c : candidate) : Z :=
  let s := (if cand_upToDate c then 4 else 0)%Z in
  if cand_inUse c then (s + 2)%Z
  else if bool_decide (cand_node c = prefer) then (s + 1)%Z
  else s.

(** The pick loop; [None] is [pick == -1]. *)
Fixpoint pick_from (prefer : string) (avoid : gset string) (pick : option candidate)
    (all : list candidate) : option candidate :=
  match all with
  | [] => pick
  | c :: all' =>
      if bget avoid (cand_node c) then pick_from prefer avoid pick all'
      else match pick with
           | None => pick_from prefer avoid (Some c) all'
           | Some p =>
               if (score prefer p <? score prefer c)%Z
               then pick_from prefer avoid (Some c) all'
               else pick_from prefer avoid pick all'
           end
  end.

Definition no_replica_error (v : Volume) : error :=
  errorf ("volume " +:+ Name (v_meta v) +:+ " has no healthy diskful replica with a device").

(** node, device, replicas, err *)
Definition ResolvePlacement (v : Volume) (prefer : string) (avoid : gset string)
    : string * string * nat * option error :=
  let replicas := diskful_count v in
  match pick_from prefer avoid None (candidates v) with
  | None => ("", "", replicas, Some (no_replica_error v))
  | Some c => (cand_node c, cand_device c, replicas, None)
  end.

(** ** Specification *)

Definition eligible (avoid : gset string) (all : list candidate) (c : candidate) : Prop :=
  c ∈ all ∧ cand_node c ∉ avoid.

(** First maximum: nothing eligible scores higher, and everything eligible
    before it scores strictly lower. *)
Definition first_max (prefer : string) (avoid : gset string) (all : list candidate) (c : candidate) : Prop :=
  ∃ l1 l2, all = l1 ++ c :: l2 ∧ cand_node c ∉ avoid ∧
    (∀ d, d ∈ l1 → cand_node d ∉ avoid → (score prefer d < score prefer c)%Z) ∧
    (∀ d, d ∈ l2 → cand_node d ∉ avoid → (score prefer d ≤ score prefer c)%Z).

Lemma elem_candidates v c :
  c ∈ candidates v ↔ ∃ r, r ∈ v_Replicas v ∧ usable v r = true ∧ c = to_candidate v r.
Proof.
  unfold candidates. induction (v_Replicas v) as [|r rs IH]; cbn [candidates_of].
  { split; [by intros ?%elem_of_nil|]. by intros (? & ?%elem_of_nil & _). }
  destruct (usable v r) eqn:E; cbn [negb]; rewrite ?elem_of_cons, IH; split.
  - intros [->|(x & ? & ? & ?)]; [exists r|exists x]; rewrite elem_of_cons; auto.
  - intros (x & [->|?]%elem_of_cons & ? & ?); eauto.
  - intros (x & ? & ? & ?). exists x. rewrite elem_of_cons; auto.
  - intros (x & [->|?]%elem_of_cons & ? & ?); [congruence|eauto].
Qed.

(** Inserting an avoided or a beaten candidate keeps the first maximum. *)
Lemma first_max_skip prefer avoid p d l c :
  cand_node d ∈ avoid ∨ (score prefer d ≤ score prefer p ∧ cand_node p ∉ avoid)%Z →
  first_max prefer avoid (p :: l) c → first_max prefer avoid (p :: d :: l) c.
Proof.
  intros Hd ([|x l1] & l2 & [= -> ->] & Hc & H1 & H2).
  - exists [], (d :: l2). split_and!; [done..|].
    intros x [->|Hx]%elem_of_cons Hx'; [naive_solver|auto].
  - exists (x :: d :: l1), l2. split_and!; [done..| |done].
    intros y [->|[->|Hy]%elem_of_cons]%elem_of_cons Hy'; try (apply H1; set_solver).
    destruct Hd as [?|[? Hx]]; [done|]. specialize (H1 x ltac:(set_solver) Hx). lia.
Qed.

(** Dropping a candidate the new maximum strictly beats. *)
Lemma first_max_cons prefer avoid d l c p :
  cand_node p ∈ avoid ∨ (score prefer p < score prefer d)%Z → cand_node d ∉ avoid ∨ cand_node p ∈ avoid →
  first_max prefer avoid (d :: l) c → first_max prefer avoid (p :: d :: l) c.
Proof.
  intros Hp Hd (l1 & l2 & Heq & Hc & H1 & H2). exists (p :: l1), l2.
  rewrite Heq. split_and!; [done..| |done].
  intros y [->|Hy]%elem_of_cons Hy'; [|auto].
  destruct Hp as [?|Hlt]; [done|]. destruct Hd as [Hd|?]; [|done].
  destruct l1 as [|x l1]; cbn in Heq; simplify_eq; [done|].
  specialize (H1 x ltac:(set_solver) Hd). lia.
Qed.

(** The loop with its accumulator: the result is the first maximum of the
    accumulator followed by the rest. *)
Lemma pick_from_max prefer avoid pick all c :
  (∀ p, pick = Some p → cand_node p ∉ avoid) →
  pick_from prefer avoid pick all = Some c →
  first_max prefer avoid (option_list pick ++ all) c.
Proof.
  revert pick. induction all as [|d all IH]; intros pick Hp; cbn.
  { intros ->. exists [], []. cbn. split_and!; [done|auto|set_solver..]. }
  destruct (bget avoid (cand_node d)) eqn:Hd;
    [apply bget_true in Hd|apply bget_false in Hd]; destruct pick as [p|]; cbn.
  - intros H%IH; [|done]. apply first_max_skip; auto.
  - intros H%IH; [|done]. destruct H as (l1 & l2 & Heq & ? & H1 & H2). cbn in Heq. subst all.
    exists (d :: l1), l2. split_and!; [done..| |done].
    intros x [->|?]%elem_of_cons ?; [done|auto].
  - destruct (score prefer p <? score prefer d)%Z eqn:Hs; intros H%IH; try naive_solver.
    + apply first_max_cons; [right; lia|auto|done].
    + apply first_max_skip; [right; split; [lia|auto]|done].
  - intros H%IH; naive_solver.
Qed.

Lemma pick_from_none prefer avoid pick all :
  pick_from prefer avoid pick all = None ↔
  pick = None ∧ ∀ c, c ∈ all → cand_node c ∈ avoid.
Proof.
  revert pick. induction all as [|d all IH]; intros pick; cbn; [set_solver|].
  destruct (bget avoid (cand_node d)) eqn:Hd.
  - apply bget_true in Hd. rewrite IH. set_solver.
  - apply bget_false in Hd. destruct pick as [p|]; [destruct (_ <? _)%Z|]; rewrite IH; set_solver.
Qed.

(** The first maximum is unique up to equality, whatever the loop does. *)
Lemma first_max_unique prefer avoid all c d :
  first_max prefer avoid all c → first_max prefer avoid all d → c = d.
Proof.
  intros (l1 & l2 & -> & Hc & H1 & H2) (k1 & k2 & Heq & Hd & K1 & K2).
  apply app_eq_inv in Heq as [(k & -> & Heq)|(k & -> & Heq)];
    destruct k as [|x k]; cbn in *; simplify_eq; try done.
  - specialize (H1 x ltac:(set_solver) Hd). specialize (K2 c ltac:(set_solver) Hc). lia.
  - specialize (K1 x ltac:(set_solver) Hc). specialize (H2 d ltac:(set_solver) Hd). lia.
Qed.

Lemma resolve_ok_inv v prefer avoid n dev k :
  ResolvePlacement v prefer avoid = (n, dev, k, None) →
  ∃ c, first_max prefer avoid (candidates v) c ∧ n = cand_node c ∧ dev = cand_device c ∧ k = diskful_count v.
Proof.
  unfold ResolvePlacement. destruct (pick_from _ _ _ _) as [c|] eqn:E; [|done].
  intros [= <- <- <-]. exists c. split; [|done]. by apply pick_from_max in E.
Qed.

(** ** Properties *)

(** C18: Soundness of placement.  A node [ResolvePlacement] returns is never in
    the avoid set, holds a replica the volume's status reports present with a
    non-empty device, is assigned diskful, and the device returned is that
    replica's. *)
Theorem placement_sound v prefer avoid n dev k :
  ResolvePlacement v prefer avoid = (n, dev, k, None) →
  n ∉ avoid ∧ Diskful v n = true ∧
  ∃ r, r ∈ v_Replicas v ∧ rs_Node r = n ∧ rs_Present r = true ∧
       rs_DevicePath r = dev ∧ dev ≠ "".
Proof.
  intros (c & (l1 & l2 & Heq & Hna & _) & -> & -> & _)%resolve_ok_inv.
  assert (c ∈ candidates v) as (r & Hr & Hu & ->)%elem_candidates by (rewrite Heq; set_solver).
  unfold usable in Hu. apply andb_true_iff in Hu as [[? Hd%negb_true_iff]%andb_true_iff ?].
  apply bool_decide_eq_false in Hd. cbn in *. split_and!; [done..|]. by exists r.
Qed.

(** C23: Completeness of placement.  Placement fails exactly when every present
    diskful replica with a device sits on a node to avoid. *)
Theorem placement_fails_iff v prefer avoid :
  (ResolvePlacement v prefer avoid).2 ≠ None ↔
  ∀ r, r ∈ v_Replicas v → usable v r = true → rs_Node r ∈ avoid.
Proof.
  unfold ResolvePlacement. destruct (pick_from _ _ _ _) as [c|] eqn:E; cbn.
  - split; [done|]. intros H. apply pick_from_max in E as (l1 & l2 & Heq & Hna & _); [|done].
    assert (c ∈ candidates v) as (r & Hr & Hu & ->)%elem_candidates by (cbn in Heq; rewrite Heq; set_solver).
    by destruct Hna; cbn; apply H.
  - apply pick_from_none in E as [_ E]. split; [|done]. intros _ r Hr Hu.
    apply (E (to_candidate v r)). apply elem_candidates. eauto.
Qed.

(** Serving stale data is worse than moving.  When any node outside the
    avoid set has an UpToDate usable replica, the chosen replica is UpToDate;
    and when some such UpToDate replica is in use (or is the primary), the
    chosen one is in use too: a live UpToDate primary is never moved off. *)
Theorem placement_prefers_uptodate v prefer avoid n dev k r :
  ResolvePlacement v prefer avoid = (n, dev, k, None) →
  r ∈ v_Replicas v → usable v r = true → rs_Node r ∉ avoid → rs_DiskState r = "UpToDate" →
  ∃ r', r' ∈ v_Replicas v ∧ rs_Node r' = n ∧ rs_DevicePath r' = dev ∧
        rs_DiskState r' = "UpToDate" ∧
        (rs_InUse r = true ∨ v_Primary v = rs_Node r →
         rs_InUse r' = true ∨ v_Primary v = n).
Proof.
  intros (c & (l1 & l2 & Heq & Hna & H1 & H2) & -> & -> & _)%resolve_ok_inv Hr Hu Hav Hup.
  assert (to_candidate v r ∈ candidates v) as Hin by (apply elem_candidates; eauto).
  assert (score prefer (to_candidate v r) ≤ score prefer c)%Z as Hle.
  { rewrite Heq in Hin. apply elem_of_app in Hin as [Hin|[<-|Hin]%elem_of_cons]; [|lia|auto].
    specialize (H1 _ Hin Hav). lia. }
  assert (c ∈ candidates v) as (r' & Hr' & Hu' & ->)%elem_candidates by (rewrite Heq; set_solver).
  exists r'. split_and!; [done..| |]; unfold score in Hle; cbn in Hle;
    rewrite (bool_decide_eq_true_2 (rs_DiskState r = _)) in Hle by done;
    destruct (bool_decide_reflect (rs_DiskState r' = "UpToDate")); try done.
  - repeat case_match; lia.
  - intros Huse. rewrite <- (bool_decide_eq_true (v_Primary v = rs_Node r)), <- orb_true_iff in Huse.
    rewrite Huse in Hle.
    destruct (rs_InUse r' || bool_decide (v_Primary v = rs_Node r')) eqn:E'.
    + apply orb_true_iff in E' as [?|?%bool_decide_eq_true]; auto.
    + exfalso. case_match; lia.
  - exfalso. repeat case_match; lia.
Qed.

(** Placement does not flap.  Re-resolving the same volume with the node
    just chosen as the preference chooses the same node and device again. *)
Theorem placement_sticky v prefer avoid n dev k :
  ResolvePlacement v prefer avoid = (n, dev, k, None) →
  ResolvePlacement v n avoid = (n, dev, k, None).
Proof.
  intros Hres. pose proof Hres as (c & Hmax & -> & -> & ->)%resolve_ok_inv.
  assert (first_max (cand_node c) avoid (candidates v) c) as Hmax'.
  { destruct Hmax as (l1 & l2 & Heq & Hna & H1 & H2). exists l1, l2. split_and!; [done..| |];
      intros d Hd Hda; [specialize (H1 d Hd Hda)|specialize (H2 d Hd Hda)];
      unfold score in *; repeat case_bool_decide; repeat case_match; simplify_eq; try lia; congruence. }
  unfold ResolvePlacement. destruct (pick_from (cand_node c) avoid None (candidates v)) as [d|] eqn:E.
  - apply pick_from_max in E; [|done]. cbn in E. by rewrite (first_max_unique _ _ _ _ _ E Hmax').
  - apply pick_from_none in E as [_ E]. destruct Hmax' as (l1 & l2 & Heq & Hna & _).
    destruct Hna. apply E. rewrite Heq. set_solver.
Qed.

(** ** A concrete volume: two diskful replicas, one outdated, a tiebreaker. *)
Definition demo_replica (n dev disk : string) (use : bool) : ReplicaStatus :=
  {| rs_Node := n; rs_Present := true; rs_DiskState := disk; rs_SyncPercent := None;
     rs_Peers := ∅; rs_InUse := use; rs_Quorum := None; rs_DevicePath := dev |}.
Definition demo_assigned (n : string) (r : Role) : AssignedReplica :=
  {| ar_Node := n; ar_Pool := "p"; ar_NodeID := 0; ar_Role := r |}.
Definition demo_volume : Volume :=
  {| v_meta := named "" "pvc-1"; v_SizeBytes := 1;
     v_Assignment := Some [demo_assigned "a" RoleDiskful; demo_assigned "b" RoleDiskful;
                           demo_assigned "c" RoleTiebreaker];
     v_Resolve := None; v_Phase := ""; v_Conditions := []; v_Primary := "a";
     v_Replicas := [demo_replica "a" "/dev/drbd1" "Outdated" true;
                    demo_replica "b" "/dev/drbd1" "UpToDate" false;
                    demo_replica "c" "/dev/drbd1" "Diskless" false] |}.

Lemma placement_sound_witness :
  "b" ∉ (∅ : gset string) ∧ Diskful demo_volume "b" = true ∧
  ∃ r, r ∈ v_Replicas demo_volume ∧ rs_Node r = "b" ∧ rs_Present r = true ∧
       rs_DevicePath r = "/dev/drbd1" ∧ "/dev/drbd1" ≠ "".
Proof. apply (placement_sound demo_volume "a" ∅ "b" "/dev/drbd1" 2). vm_compute. reflexivity. Defined.

Lemma placement_prefers_uptodate_witness :
  ∃ r', r' ∈ v_Replicas demo_volume ∧ rs_Node r' = "b" ∧ rs_DevicePath r' = "/dev/drbd1" ∧
        rs_DiskState r' = "UpToDate" ∧
        (false = true ∨ v_Primary demo_volume = "b" → rs_InUse r' = true ∨ v_Primary demo_volume = "b").
Proof.
  apply (placement_prefers_uptodate demo_volume "a" ∅ "b" "/dev/drbd1" 2
           (demo_replica "b" "/dev/drbd1" "UpToDate" false)).
  - vm_compute. reflexivity.
  - right. left.
  - vm_compute. reflexivity.
  - apply not_elem_of_empty.
  - reflexivity.
Defined.

Lemma placement_sticky_witness :
  ResolvePlacement demo_volume "a" ∅ = ("b", "/dev/drbd1", 2, None) ∧
  ResolvePlacement demo_volume "b" ∅ = ("b", "/dev/drbd1", 2, None).
Proof.
  split; [vm_compute; reflexivity|]. apply (placement_sticky demo_volume "a" ∅ "b" "/dev/drbd1" 2).
  vm_compute. reflexivity.
Defined.
