(* ===== verification/Registrar.v ===== *)
(** * Registration with r-drbd: operator/internal/rdrbd/registrar.go

    A StoragePool registers as the r-drbd Pool of the same name. *)

From S2P Require Import Prelude GoStrings Prog ApiTypes Effects Demo.

Section Registrar.
Context `{K8sMeta}.

(** [PoolSpec]: the Pool a StoragePool registers as. *)
Definition PoolSpec_of (sp : StoragePool) : PoolSpec :=
  let tier := if bool_decide (sp_Tier (sp_spec sp) = "") then DefaultTier else sp_Tier (sp_spec sp) in
  {| ps_Node := sp_Node (sp_spec sp); ps_Tier := tier; ps_VG := VGName sp; ps_ThinPool := ThinLV;
     ps_OvercommitPercent := None; ps_ReservePercent := None |}.

Definition sameLocation (a b : PoolSpec) : bool :=
  bool_decide (ps_Node a = ps_Node b) && bool_decide (ps_Tier a = ps_Tier b) &&
  bool_decide (ps_VG a = ps_VG b) && bool_decide (ps_ThinPool a = ps_ThinPool b).

Definition pool_key (sp : StoragePool) : NamespacedName := NN "" (Name (sp_meta sp)).

(** ready, msg, err *)
Definition EnsurePool (sp : StoragePool) : io (bool * string * option error) :=
  let name := Name (sp_meta sp) in
  let want := PoolSpec_of sp in
  let! g := call (Get KPool (pool_key sp)) in
  match g with
  | inl e =>
      if IsNotFound (Some e) then
        let pool : Pool := {| p_meta := named "" name; p_spec := want;
                              p_status := {| ps_Volumes := []; ps_Conditions := [] |} |} in
        let! c := call (Create KPool pool) in
        match c with
        | inl e' =>
            if IsAlreadyExists (Some e')
            then Ret (false, "r-drbd pool created, waiting for the agent", None)
            else Ret (false, "", Some (wrapf ("create r-drbd pool " +:+ name +:+ ": ") e'))
        | inr _ => Ret (false, "r-drbd pool created, waiting for the agent", None)
        end
      else Ret (false, "", Some (wrapf ("get r-drbd pool " +:+ name +:+ ": ") e))
  | inr pool =>
      if negb (sameLocation (p_spec pool) want) then
        Ret (false,
          "r-drbd pool " +:+ name +:+ " exists for " +:+ ps_VG (p_spec pool) +:+ "/" +:+
          ps_ThinPool (p_spec pool) +:+ " on " +:+ ps_Node (p_spec pool) +:+ " in tier " +:+
          ps_Tier (p_spec pool) +:+ ", not " +:+ ps_VG want +:+ "/" +:+ ps_ThinPool want +:+
          " on " +:+ ps_Node want +:+ " in tier " +:+ ps_Tier want, None)
      else if deleting (p_meta pool) then
        Ret (false, "r-drbd pool " +:+ name +:+ " is still being deleted", None)
      else match FindStatusCondition (ps_Conditions (p_status pool)) RConditionAvailable with
           | None => Ret (false, "waiting for the r-drbd agent to report the pool", None)
           | Some cond =>
               if bool_decide (c_Status cond ≠ ConditionTrue)
               then Ret (false, "r-drbd pool not available: " +:+ c_Message cond, None)
               else Ret (true, "", None)
           end
  end.

(** gone, msg, err *)
Definition DeletePool (sp : StoragePool) : io (bool * string * option error) :=
  let name := Name (sp_meta sp) in
  let! g := call (Get KPool (pool_key sp)) in
  match g with
  | inl e =>
      if IsNotFound (Some e) then Ret (true, "", None)
      else Ret (false, "", Some (wrapf ("get r-drbd pool " +:+ name +:+ ": ") e))
  | inr pool =>
      if negb (bool_decide (ps_Node (p_spec pool) = sp_Node (sp_spec sp))) ||
         negb (bool_decide (ps_VG (p_spec pool) = VGName sp))
      then Ret (true, "", None)
      else
        let! derr :=
          (if negb (deleting (p_meta pool)) then call (Delete KPool pool) else Ret None) in
        match IgnoreNotFound derr with
        | Some e => Ret (false, "", Some (wrapf ("delete r-drbd pool " +:+ name +:+ ": ") e))
        | None =>
            match ps_Volumes (p_status pool) with
            | [] => Ret (false, "waiting for r-drbd to release the pool", None)
            | vs => Ret (false, "pool still backs volumes: " +:+ Join vs ", ", None)
            end
        end
  end.

(** [pool] is the Pool this StoragePool registered: same node, same VG. *)
Definition owns (sp : StoragePool) (pool : Pool) : Prop :=
  ps_Node (p_spec pool) = sp_Node (sp_spec sp) ∧ ps_VG (p_spec pool) = VGName sp.

(** What [gone] promises its caller: the trace saw the Pool absent, or saw
    one of the same name that is not this StoragePool's. *)
Definition released (sp : StoragePool) (tr : trace op) : Prop :=
  ∃ r, saw KPool (pool_key sp) r tr ∧
    match r with inl e => ekind e = KNotFound | inr pool => ¬ owns sp pool end.

Lemma IsNotFound_kind e : IsNotFound (Some e) = true ↔ ekind e = KNotFound.
Proof. apply bool_decide_eq_true. Qed.

Lemma not_owns_test sp pool :
  negb (bool_decide (ps_Node (p_spec pool) = sp_Node (sp_spec sp))) ||
  negb (bool_decide (ps_VG (p_spec pool) = VGName sp)) = true ↔ ¬ owns sp pool.
Proof.
  unfold owns. rewrite orb_true_iff, !negb_true_iff, !bool_decide_eq_false.
  destruct (decide (ps_Node (p_spec pool) = sp_Node (sp_spec sp)));
  destruct (decide (ps_VG (p_spec pool) = VGName sp)); tauto.
Qed.

Lemma owns_test sp pool :
  negb (bool_decide (ps_Node (p_spec pool) = sp_Node (sp_spec sp))) ||
  negb (bool_decide (ps_VG (p_spec pool) = VGName sp)) = false → owns sp pool.
Proof.
  rewrite orb_false_iff, !negb_false_iff, !bool_decide_eq_true. done.
Qed.

Lemma released_absent sp e tr :
  saw KPool (pool_key sp) (inl e) tr → IsNotFound (Some e) = true → released sp tr.
Proof. intros ? ?%IsNotFound_kind. by exists (inl e). Qed.
Lemma released_foreign sp pool tr :
  saw KPool (pool_key sp) (inr pool) tr →
  negb (bool_decide (ps_Node (p_spec pool) = sp_Node (sp_spec sp))) ||
  negb (bool_decide (ps_VG (p_spec pool) = VGName sp)) = true → released sp tr.
Proof. intros ? ?%not_owns_test. by exists (inr pool). Qed.

Lemma sameLocation_spec a b :
  sameLocation a b = true ↔
  ps_Node a = ps_Node b ∧ ps_Tier a = ps_Tier b ∧ ps_VG a = ps_VG b ∧ ps_ThinPool a = ps_ThinPool b.
Proof. unfold sameLocation. rewrite !andb_true_iff, !bool_decide_eq_true. tauto. Qed.

(** [DeletePool] as a weakest precondition: [gone] only with a released
    Pool, and every delete hits a Pool this StoragePool owns. *)
Lemma wp_DeletePool sp :
  wp (DeletePool sp) (λ tr '(gone, msg, err),
    (gone = true → released sp tr ∧ err = None) ∧
    (∀ e pool, e ∈ tr → ev_delete KPool e = Some pool → owns sp pool) ∧
    (∀ e, e ∈ tr → ev_status KStoragePool e = None ∧ ev_update KStoragePool e = None)).
Proof.
  unfold DeletePool. wp_go; split_and!; intros; split_in; ev_simpl;
    eauto 6 using released_absent, released_foreign, owns_test with evidence.
Qed.

(** [EnsurePool] writes nothing but the Pool it creates. *)
Lemma wp_EnsurePool_quiet sp :
  wp (EnsurePool sp) (λ tr _, ∀ e, e ∈ tr →
    ev_status KStoragePool e = None ∧ ev_update KStoragePool e = None).
Proof. unfold EnsurePool. wp_go; intros; split_in; ev_simpl. Qed.

(** Registration never adopts a foreign Pool.  [EnsurePool] reports ready
    only after reading the Pool of the StoragePool's name, finding it in the
    same location (node, tier, VG, thin pool), not being deleted, and marked
    Available by the r-drbd agent; and the only write it issues is the
    creation, after a NotFound, of a Pool with exactly that location. *)
Theorem EnsurePool_no_adoption sp tr ready msg err :
  runs (EnsurePool sp) tr (ready, msg, err) →
  (ready = true → err = None ∧ ∃ pool c,
     saw KPool (pool_key sp) (inr pool) tr ∧ sameLocation (p_spec pool) (PoolSpec_of sp) = true ∧
     deleting (p_meta pool) = false ∧
     FindStatusCondition (ps_Conditions (p_status pool)) RConditionAvailable = Some c ∧
     c_Status c = ConditionTrue) ∧
  (∀ e, e ∈ tr → ev_delete KPool e = None ∧ ev_update KPool e = None) ∧
  (∀ e pool, e ∈ tr → ev_create KPool e = Some pool →
     p_spec pool = PoolSpec_of sp ∧ Name (p_meta pool) = Name (sp_meta sp) ∧
     ∃ ne, saw KPool (pool_key sp) (inl ne) tr ∧ ekind ne = KNotFound).
Proof.
  intros Hr. refine (wp_runs _ (λ tr '(ready, msg, err), _) _ _ _ Hr).
  unfold EnsurePool. wp_go; split_and!; intros; split_in; ev_simpl; bools.
  all: try (split_and!; [done..|]; eexists; split; [eauto with evidence|by apply IsNotFound_kind]).
  split; [done|]. eexists _, _. split; [eauto with evidence|].
  by split_and!.
Qed.

(** Deregistration never touches a foreign Pool.  Every delete
    [DeletePool] issues hits a Pool on the StoragePool's own node and VG, and
    it reports the Pool gone only after seeing it absent, or seeing that the
    Pool of that name belongs to another location. *)
Theorem DeletePool_only_own sp tr gone msg err :
  runs (DeletePool sp) tr (gone, msg, err) →
  (gone = true → err = None ∧ released sp tr) ∧
  (∀ e pool, e ∈ tr → ev_delete KPool e = Some pool → owns sp pool).
Proof.
  intros Hr. destruct (wp_runs _ _ _ _ (wp_DeletePool sp) Hr) as (Hgone & Hdel & _).
  split; [|done]. intros Hg. by destruct (Hgone Hg).
Qed.
End Registrar.
#[export] Hint Resolve released_absent released_foreign : evidence.

(** ** Witnesses *)
Lemma EnsurePool_no_adoption_witness :
  let sp := demo_pool [] None [] in
  let '(r, tr, _) := run (demo_api None (Some demo_rpool)) (@EnsurePool RefMeta.meta sp) tt in
  r.1.1 = true ∧ ∃ pool, saw KPool (pool_key sp) (inr pool) tr ∧ sameLocation (p_spec pool) (PoolSpec_of sp) = true.
Proof.
  pose proof (@EnsurePool_no_adoption RefMeta.meta (demo_pool [] None []) _ true "" None
    (run_runs (demo_api None (Some demo_rpool)) (@EnsurePool RefMeta.meta (demo_pool [] None [])) tt)) as [H _].
  destruct (H eq_refl) as (_ & pool & c & Hs & Hl & _). split; [reflexivity|]. exists pool. exact (conj Hs Hl).
Defined.

Lemma DeletePool_only_own_witness :
  let sp := demo_pool [] (Some 1%Z) [] in
  let '(r, tr, _) := run (demo_api None (Some demo_rpool)) (DeletePool sp) tt in
  r.1.1 = false ∧ owns sp demo_rpool.
Proof.
  split; [reflexivity|].
  eapply (proj2 (DeletePool_only_own (demo_pool [] (Some 1%Z) []) _ false "waiting for r-drbd to release the pool" None
    (run_runs (demo_api None (Some demo_rpool)) (DeletePool (demo_pool [] (Some 1%Z) [])) tt)))
    with (e := Ev (Delete KPool demo_rpool) None).
  - cbn. right. left.
  - exact (as_kind_refl KPool demo_rpool).
Defined.
