(* ===== verification/Nodes.v ===== *)
(** * Node readiness and claim resolution

    operator/internal/controller/nodes.go and claim.go, shared by the Share,
    Target, StoragePool and claim-binding controllers. *)

From S2P Require Import Prelude GoStrings Prog ApiTypes Effects.

(** [nodeReady]: the first Ready condition decides. *)
Fixpoint nodeReady_of (cs : list NodeCondition) : bool :=
  match cs with
  | [] => false
  | c :: cs' =>
      if bool_decide (nc_Type c = "Ready") then bool_decide (nc_Status c = "True")
      else nodeReady_of cs'
  end.
Definition nodeReady (n : Node) : bool := nodeReady_of (n_Conditions n).

(** The set a readiness sweep produces. *)
Fixpoint down_set (ns : list Node) : gset string :=
  match ns with
  | [] => ∅
  | n :: ns' => if negb (nodeReady n) then {[Name (n_meta n)]} ∪ down_set ns' else down_set ns'
  end.

Definition unreadyNodes : io (error + gset string) :=
  let! l := call (List KNode None) in
  match l with
  | inl e => Ret (inl e)
  | inr nodes => Ret (inr (down_set nodes))
  end.

Definition nodeGoneOrUnready (name : string) : io (error + bool) :=
  let! g := call (Get KNode (NN "" name)) in
  match g with
  | inl e => if IsNotFound (Some e) then Ret (inr true) else Ret (inl e)
  | inr n => Ret (inr (negb (nodeReady n)))
  end.

(** The predicate on node events: only a readiness flip or a removal. *)
Inductive node_event := NodeCreate (n : Node) | NodeUpdate (old new : Node) | NodeDelete (n : Node).
Definition nodeReadyChanged (e : node_event) : bool :=
  match e with
  | NodeCreate _ => false
  | NodeUpdate o n => negb (Bool.eqb (nodeReady o) (nodeReady n))
  | NodeDelete _ => true
  end.

(** [claimVolume]: the Volume, or a reason and a message. *)
Definition claimVolume (namespace claim : string) : io ((string * string) + Volume) :=
  let! g := call (Get KPVC (NN namespace claim)) in
  match g with
  | inl _ => Ret (inl (ReasonWaitingForVolume, "claim " +:+ claim +:+ " not found"))
  | inr pvc =>
      if bool_decide (pvc_VolumeName pvc = "")
      then Ret (inl (ReasonWaitingForVolume, "claim " +:+ claim +:+ " not bound"))
      else
        let! gp := call (Get KPV (NN "" (pvc_VolumeName pvc))) in
        match gp with
        | inl _ => Ret (inl (ReasonWaitingForVolume, "volume " +:+ pvc_VolumeName pvc +:+ " not found"))
        | inr pv =>
            match pv_CSI pv with
            | None => Ret (inl (ReasonInvalidSpec, "claim is not backed by r-drbd"))
            | Some csi =>
                if bool_decide (csi_Driver csi ≠ Driver)
                then Ret (inl (ReasonInvalidSpec, "claim is not backed by r-drbd"))
                else
                  let! gv := call (Get KVolume (NN "" (csi_VolumeHandle csi))) in
                  match gv with
                  | inl _ => Ret (inl (ReasonWaitingForVolume,
                               "r-drbd volume " +:+ csi_VolumeHandle csi +:+ " not found"))
                  | inr v => Ret (inr v)
                  end
            end
        end
  end.

(** [volumeClaim]: the claim bound to the PV of a Volume's name. *)
Definition volumeClaim (name : string) : io (option NamespacedName) :=
  let! g := call (Get KPV (NN "" name)) in
  match g with
  | inl _ => Ret None
  | inr pv => Ret (pv_ClaimRef pv)
  end.

(** [serving]: what placement reads from a Volume. *)
Record servingKey := {
  sk_primary : string;
  sk_roles : gmap string Role;
  sk_replicas : gmap string ReplicaStatus;
}.
#[global] Instance servingKey_eq_dec : EqDecision servingKey.
Proof. solve_decision. Defined.

Definition serving_replica (r : ReplicaStatus) : ReplicaStatus :=
  {| rs_Node := rs_Node r; rs_Present := rs_Present r; rs_DiskState := rs_DiskState r;
     rs_SyncPercent := None; rs_Peers := ∅; rs_InUse := rs_InUse r; rs_Quorum := None;
     rs_DevicePath := rs_DevicePath r |}.

Definition serving (v : Volume) : servingKey :=
  {| sk_primary := v_Primary v;
     sk_roles :=
       match v_Assignment v with
       | None => ∅
       | Some rs => foldl (λ m r, <[ar_Node r := ar_Role r]> m) ∅ rs
       end;
     sk_replicas := foldl (λ m r, <[rs_Node r := serving_replica r]> m) ∅ (v_Replicas v) |}.

(** The predicate on Volume updates ([reflect.DeepEqual] of the two keys). *)
Definition volumeServingChanged (old new : Volume) : bool :=
  negb (bool_decide (serving old = serving new)).

(** ** Facts *)

Lemma elem_down_set ns x :
  x ∈ down_set ns ↔ ∃ n, n ∈ ns ∧ nodeReady n = false ∧ Name (n_meta n) = x.
Proof.
  induction ns as [|n ns IH]; cbn [down_set].
  { split; [set_solver|]. by intros (? & ?%elem_of_nil & _). }
  destruct (nodeReady n) eqn:E; cbn [negb]; rewrite ?elem_of_union, ?elem_of_singleton, IH;
    setoid_rewrite elem_of_cons; split.
  - intros (m & ? & ? & ?). eauto.
  - intros (m & [->|?] & ? & ?); [congruence|eauto].
  - intros [->|(m & ? & ? & ?)]; eauto.
  - intros (m & [->|?] & ? & ?); eauto.
Qed.

(** [nodeGoneOrUnready] answers [true] only for a node seen absent or unready,
    and [false] only for one seen ready. *)
Definition node_dead (name : string) (tr : trace op) : Prop :=
  ∃ r, saw KNode (NN "" name) r tr ∧
    match r with inl e => ekind e = KNotFound | inr n => nodeReady n = false end.

Lemma node_dead_absent name e tr :
  saw KNode (NN "" name) (inl e) tr → IsNotFound (Some e) = true → node_dead name tr.
Proof. intros ? ?%bool_decide_eq_true_1. by exists (inl e). Qed.
Lemma node_dead_unready name n tr :
  saw KNode (NN "" name) (inr n) tr → nodeReady n = false → node_dead name tr.
Proof. intros. by exists (inr n). Qed.
#[export] Hint Resolve node_dead_absent node_dead_unready : evidence.

(** An event that writes no object. *)
Definition reads_only (e : event op) : Prop :=
  match e with
  | Ev o _ =>
      match o with
      | Get _ _ | List _ _ | ListLabelled _ _ | Now => True
      | _ => False
      end
  end.

Lemma wp_nodeGoneOrUnready name :
  wp (nodeGoneOrUnready name) (λ tr r,
    (r = inr true → node_dead name tr) ∧ Forall reads_only tr).
Proof.
  unfold nodeGoneOrUnready. wp_go; (split; [|by repeat constructor]); intros [=]; bools;
    eauto with evidence.
Qed.

Lemma wp_unreadyNodes :
  wp unreadyNodes (λ tr r, Forall reads_only tr ∧
    ∀ avoid, r = inr avoid → ∃ nodes, (Ev (List KNode None) (inr nodes) : event op) ∈ tr ∧ avoid = down_set nodes).
Proof.
  unfold unreadyNodes. wp_go; (split; [by repeat constructor|]); intros avoid [=]; subst.
  eexists. split; [apply list_elem_of_singleton; reflexivity|done].
Qed.

Lemma wp_claimVolume ns claim : wp (claimVolume ns claim) (λ tr _, Forall reads_only tr).
Proof. unfold claimVolume. wp_go; by repeat constructor. Qed.

(** The chain claim, PV, Volume a pass followed, and the readiness sweep it
    took. *)
Definition claim_backed (ns claim : string) (v : Volume) (tr : trace op) : Prop :=
  ∃ pvc pv csi, saw KPVC (NN ns claim) (inr pvc) tr ∧ saw KPV (NN "" (pvc_VolumeName pvc)) (inr pv) tr ∧
    pv_CSI pv = Some csi ∧ csi_Driver csi = Driver ∧ saw KVolume (NN "" (csi_VolumeHandle csi)) (inr v) tr.
Definition swept (avoid : gset string) (tr : trace op) : Prop :=
  ∃ nodes, (Ev (List KNode None) (inr nodes) : event op) ∈ tr ∧ avoid = down_set nodes.

Lemma saw_sub k key r t1 t2 : t1 ⊆ t2 → saw k key r t1 → saw k key r t2.
Proof. intros Hs (e & ? & ?). exists e. set_solver. Qed.
Lemma claim_backed_sub ns claim v t1 t2 : t1 ⊆ t2 → claim_backed ns claim v t1 → claim_backed ns claim v t2.
Proof. intros Hs (pvc & pv & csi & ? & ? & ? & ? & ?). exists pvc, pv, csi. eauto 10 using saw_sub. Qed.
Lemma swept_sub avoid t1 t2 : t1 ⊆ t2 → swept avoid t1 → swept avoid t2.
Proof. intros Hs (nodes & ? & ?). exists nodes. set_solver. Qed.

Lemma wp_claimVolume_backed ns claim :
  wp (claimVolume ns claim) (λ tr r, Forall reads_only tr ∧ ∀ v, r = inr v → claim_backed ns claim v tr).
Proof.
  unfold claimVolume, claim_backed. wp_go; (split; [by repeat constructor|]); intros ? [=]; subst; bools.
  eexists _, _, _. split_and!; eauto 6 with evidence.
Qed.
Lemma wp_unreadyNodes_swept :
  wp unreadyNodes (λ tr r, Forall reads_only tr ∧ ∀ avoid, r = inr avoid → swept avoid tr).
Proof. eapply wp_mono; [apply wp_unreadyNodes|]. intros tr r [? ?]. split; eauto. Qed.
Lemma reads_only_no_write k e : reads_only e → ev_status k e = None ∧ ev_update k e = None.
Proof. destruct e as [X o x]. by destruct o. Qed.

(** A pass that reads, then writes at most one status, which is its last event. *)
Definition last_write (k : kind) (ok : obj k → trace op → Prop) (tr : trace op) : Prop :=
  ∃ t0 t1, tr = t0 ++ t1 ∧ Forall reads_only t0 ∧
    (t1 = [] ∨ ∃ p e, t1 = [Ev (StatusUpdate k p) e] ∧ ok p t0).
Lemma last_write_none k ok t0 : Forall reads_only t0 → last_write k ok t0.
Proof. intros R. exists t0, []. rewrite app_nil_r. auto. Qed.
Lemma last_write_one k (ok : obj k → trace op → Prop) t0 p e : Forall reads_only t0 → ok p t0 →
  last_write k ok (t0 ++ [Ev (StatusUpdate k p) e]).
Proof. intros R Hok. eexists t0, _. split_and!; [done..|]. right. by eexists _, _. Qed.

Lemma known_app k key x t1 t2 : known k key x t1 → known k key x (t1 ++ t2).
Proof. intros [?|(e & ? & ?)]; [left; eauto with evidence|right; exists e; set_solver]. Qed.

(** Such a pass after a prefix that holds the object it works on. *)
Lemma last_write_safe k key s (ok : obj k → obj k → trace op → Prop) (held : obj k → Prop) t0 t :
  (∀ s p t1 t2, t1 ⊆ t2 → ok s p t1 → ok s p t2) →
  known k key s t0 → (∀ e, e ∈ t0 → ev_status k e = None) → (∀ e p, e ∈ t0 → ev_update k e = Some p → held p) →
  last_write k (ok s) t →
  (∀ e p, e ∈ t0 ++ t → ev_status k e = Some p → ∃ s, known k key s (t0 ++ t) ∧ ok s p (t0 ++ t)) ∧
  (∀ e p, e ∈ t0 ++ t → ev_update k e = Some p → held p).
Proof.
  intros Hmono Hk Hs0 Hu0 (ta & tb & -> & R & Hb). rewrite Forall_forall in R. split; intros e p He Hev; split_in.
  - rewrite Hs0 in Hev; done.
  - destruct (reads_only_no_write k e (R e He)). congruence.
  - destruct Hb as [->|(p' & u & -> & Hok)]; split_in. ev_simpl. exists s. split; [by apply known_app|].
    eapply Hmono; [|done]. set_solver.
  - eauto.
  - destruct (reads_only_no_write k e (R e He)). congruence.
  - destruct Hb as [->|(p' & u & -> & _)]; split_in. ev_simpl.
Qed.
