(* ===== verification/StoragePoolController.v ===== *)
(** * The StoragePool controller

    operator/internal/controller/storagepool_controller.go.  The operator
    registers a pool with r-drbd once its node agent reports the host ready,
    and on deletion walks the finalizer chain: delete the r-drbd Pool, clear
    the agent to wipe ([Deregistered]), wait for the wipe ([TornDown]) or for
    the node to be dead, release the finalizer. *)

From S2P Require Import Prelude GoStrings Prog ApiTypes Effects Demo Registrar Nodes.

Definition poolFinalizer : string := "storage.stornas.io/deregister".
(** 15 seconds, in nanoseconds. *)
Definition volumeSettleInterval : Z := 15 * second.

Section StoragePoolController.
Context `{K8sMeta}.

Definition mk_cond (pool : StoragePool) (type status reason msg : string) : Condition :=
  {| c_Type := type; c_Status := status; c_Reason := reason; c_Message := msg;
     c_ObservedGeneration := Generation (sp_meta pool) |}.
Definition set_cond (pool : StoragePool) (type status reason msg : string) : StoragePool :=
  sp_set_conds pool (SetStatusCondition (sp_conds pool) (mk_cond pool type status reason msg)).
Definition cond_true (pool : StoragePool) (type : string) : bool :=
  IsStatusConditionTrue (sp_conds pool) type.

(** The deletion branch of [Reconcile]. *)
Definition reconcileDeleting (pool : StoragePool) : io reconcile :=
  if negb (ContainsFinalizer (sp_meta pool) poolFinalizer) then Ret done_ok
  else
    let! d := DeletePool pool in
    let '(gone, msg, err) := d in
    match err with
    | Some e => Ret (done_err (Some e))
    | None =>
        if negb gone then
          let pool' := set_cond pool ConditionDeregistered ConditionFalse ReasonWaitingForPool msg in
          let! e := call (StatusUpdate KStoragePool pool') in
          match e with
          | Some _ => if IsConflict e then Ret done_ok else Ret (done_err (IgnoreNotFound e))
          | None => Ret done_ok
          end
        else if negb (cond_true pool ConditionDeregistered) then
          let pool' := set_cond pool ConditionDeregistered ConditionTrue ReasonReady "" in
          let! e := call (StatusUpdate KStoragePool pool') in
          match e with
          | Some _ => if IsConflict e then Ret done_ok else Ret (done_err (IgnoreNotFound e))
          | None => Ret (requeue volumeSettleInterval, None)
          end
        else
          let! w :=
            (if negb (cond_true pool ConditionTornDown) then nodeGoneOrUnready (sp_Node (sp_spec pool))
             else Ret (inr true)) in
          match w with
          | inl e => Ret (done_err (Some e))
          | inr false => Ret (requeue volumeSettleInterval, None)
          | inr true =>
              let pool' := sp_set_meta pool (RemoveFinalizer (sp_meta pool) poolFinalizer) in
              let! u := call (Update KStoragePool pool') in
              match u with
              | inl e => Ret (done_err (IgnoreNotFound (Some e)))
              | inr _ => Ret done_ok
              end
          end
    end.

(** The Warning event naming the bad members of an unhealthy pool. *)
Definition bad_members (ds : list DeviceStatus) : string :=
  foldl (λ msg d,
    if bool_decide (ds_State d = "Missing") || bool_decide (ds_State d = "Failed")
    then msg +:+ "; " +:+ ds_Path d +:+ " " +:+ ds_State d else msg) "" ds.
Definition warn (recorder : bool) (pool : StoragePool) : io unit :=
  let h := sp_Health (sp_status pool) in
  if recorder && (bool_decide (h = "Degraded") || bool_decide (h = "Failed"))
  then call (Eventf "Warning" ("Pool" +:+ h) "Degrade"
               ("pool " +:+ Name (sp_meta pool) +:+ " is " +:+ h +:+
                bad_members (sp_StatusDevices (sp_status pool))))
  else Ret tt.

(** The [switch] of the live branch: the pool with its Registered condition,
    the status, reason and message of Available, and the backend error. *)
Definition registration (pool : StoragePool)
    : io (StoragePool * (string * string * string) * option error) :=
  let raid := sp_Raid (sp_spec pool) in
  if (length (sp_Devices (sp_spec pool)) <? MinDevices raid)%nat then
    Ret (pool, (ConditionFalse, ReasonInvalidSpec,
      raid +:+ " needs at least " +:+ Itoa (Z.of_nat (MinDevices raid)) +:+ " devices, got " +:+
      Itoa (Z.of_nat (length (sp_Devices (sp_spec pool))))), None)
  else if bool_decide (sp_Thin (sp_spec pool) = Some false) then
    Ret (set_cond pool ConditionRegistered ConditionFalse ReasonUnsupported "r-drbd pools are thin only",
         (ConditionFalse, ReasonUnsupported, "r-drbd pools are thin only"), None)
  else if negb (cond_true pool ConditionHostReady) then
    let msg := "waiting for the node agent to converge host state" in
    Ret (set_cond pool ConditionRegistered ConditionUnknown ReasonHostNotReady msg,
         (ConditionFalse, ReasonWaitingForAgent, msg), None)
  else
    let! r := EnsurePool pool in
    let '(ready, msg, err) := r in
    match err with
    | Some e =>
        Ret (set_cond pool ConditionRegistered ConditionFalse ReasonBackendError (emsg e),
             (ConditionFalse, ReasonBackendError, emsg e), Some e)
    | None =>
        if negb ready then
          Ret (set_cond pool ConditionRegistered ConditionFalse ReasonWaitingForPool msg,
               (ConditionFalse, ReasonWaitingForPool, msg), None)
        else
          Ret (set_cond pool ConditionRegistered ConditionTrue ReasonReady "",
               (ConditionTrue, ReasonReady, ""), None)
    end.

(** The live branch of [Reconcile] after the finalizer is in place. *)
Definition reconcileStatus (recorder : bool) (pool : StoragePool) : io reconcile :=
  warn recorder pool ;;;
  let! r := registration pool in
  let '(pool', (status, reason, msg), backendErr) := r in
  let pool'' := set_cond pool' ConditionAvailable status reason msg in
  let! e := call (StatusUpdate KStoragePool pool'') in
  match e with
  | Some _ => if IsConflict e then Ret done_ok else Ret (done_err e)
  | None => Ret (NoRequeue, backendErr)
  end.

(** The live branch of [Reconcile]. *)
Definition reconcileLive (recorder : bool) (pool : StoragePool) : io reconcile :=
  let '(m, added) := AddFinalizer (sp_meta pool) poolFinalizer in
  let! u := (if added then call (Update KStoragePool (sp_set_meta pool m)) else Ret (inr pool)) in
  match u with
  | inl e => Ret (done_err (Some e))
  | inr pool => reconcileStatus recorder pool
  end.

Definition StoragePool_Reconcile (recorder : bool) (req : NamespacedName) : io reconcile :=
  let! g := call (Get KStoragePool req) in
  match g with
  | inl e => Ret (done_err (IgnoreNotFound (Some e)))
  | inr pool =>
      if deleting (sp_meta pool) then reconcileDeleting pool else reconcileLive recorder pool
  end.

(** ** Facts *)

Lemma cond_true_set_eq pool type status reason msg :
  cond_true (set_cond pool type status reason msg) type = bool_decide (status = ConditionTrue).
Proof. unfold cond_true, set_cond, sp_conds. cbn. apply (is_true_set_eq _ (mk_cond _ _ _ _ _)). Qed.
Lemma cond_true_set_ne pool type status reason msg type' :
  type ≠ type' → cond_true (set_cond pool type status reason msg) type' = cond_true pool type'.
Proof. intros. unfold cond_true, set_cond, sp_conds. cbn. by apply is_true_set_ne. Qed.
Lemma set_cond_meta pool type status reason msg :
  sp_meta (set_cond pool type status reason msg) = sp_meta pool.
Proof. done. Qed.
Lemma set_cond_spec pool type status reason msg :
  sp_spec (set_cond pool type status reason msg) = sp_spec pool.
Proof. done. Qed.

(** The StoragePool [p] as some answer of the API server in [tr] had it. *)
Definition answered (req : NamespacedName) (p : StoragePool) (tr : trace op) : Prop :=
  saw KStoragePool req (inr p) tr ∨ ∃ e, e ∈ tr ∧ ev_updated KStoragePool e = Some p.

Lemma answered_get req p tr : saw KStoragePool req (inr p) tr → answered req p tr.
Proof. by left. Qed.

Lemma contains_added m : ContainsFinalizer (AddFinalizer m poolFinalizer).1 poolFinalizer = true.
Proof.
  rewrite add_fin. destruct (ContainsFinalizer m poolFinalizer) eqn:E; [done|].
  apply contains_fin. cbn. set_solver.
Qed.

Lemma registration_keeps pool t :
  t ≠ ConditionRegistered → t ≠ ConditionAvailable →
  wp (registration pool) (λ tr '(pool', (st, re, ms), _),
    sp_meta pool' = sp_meta pool ∧ sp_spec pool' = sp_spec pool ∧
    cond_true (set_cond pool' ConditionAvailable st re ms) t = cond_true pool t ∧
    Forall (λ e, ev_status KStoragePool e = None ∧ ev_update KStoragePool e = None) tr).
Proof.
  intros. unfold registration, EnsurePool. wp_go; split_and!; try done;
    try (repeat constructor; by ev_simpl); by rewrite ?cond_true_set_ne.
Qed.

(** The clearances a pass may write, with their evidence. *)
Definition clearance_ok (req : NamespacedName) (tr : trace op) : Prop :=
  ∀ e p, e ∈ tr → ev_status KStoragePool e = Some p →
  cond_true p ConditionDeregistered = true →
  ∃ p0, answered req p0 tr ∧ sp_meta p = sp_meta p0 ∧ sp_spec p = sp_spec p0 ∧
    (cond_true p0 ConditionDeregistered = true ∨ deleting (sp_meta p0) = true ∧ released p0 tr).

Definition release_ok (req : NamespacedName) (tr : trace op) : Prop :=
  ∀ e p, e ∈ tr → ev_update KStoragePool e = Some p →
  ContainsFinalizer (sp_meta p) poolFinalizer = false →
  ∃ p0, saw KStoragePool req (inr p0) tr ∧
    deleting (sp_meta p0) = true ∧ released p0 tr ∧
    cond_true p0 ConditionDeregistered = true ∧
    (cond_true p0 ConditionTornDown = true ∨ node_dead (sp_Node (sp_spec p0)) tr).

Lemma wp_reconcileDeleting req pool :
  deleting (sp_meta pool) = true →
  wp (reconcileDeleting pool) (λ tr _,
    clearance_ok req (Ev (Get KStoragePool req) (inr pool) :: tr) ∧
    release_ok req (Ev (Get KStoragePool req) (inr pool) :: tr)).
Proof.
  intros Hdel. unfold reconcileDeleting, DeletePool, nodeGoneOrUnready.
  wp_go; (split; intros e' p' He Hev Hc); split_in; ev_simpl; bools;
    rewrite ?cond_true_set_eq, ?bool_decide_eq_true in Hc; try discriminate Hc;
    exists pool; split_and!; eauto 6 using answered_get with evidence.
Qed.

(** The status write of a live pass: the answered pool with its Registered
    and Available conditions, and nothing else. *)
Lemma wp_reconcileStatus recorder pool t :
  t ≠ ConditionRegistered → t ≠ ConditionAvailable →
  wp (reconcileStatus recorder pool) (λ tr _, ∀ e, e ∈ tr →
    ev_update KStoragePool e = None ∧
    ∀ p, ev_status KStoragePool e = Some p →
      sp_meta p = sp_meta pool ∧ sp_spec p = sp_spec pool ∧ cond_true p t = cond_true pool t).
Proof.
  intros Hr Ha. unfold reconcileStatus. apply wp_bind_2. eapply wp_mono.
  { instantiate (1 := λ tr _, Forall (λ e, ev_status KStoragePool e = None ∧ ev_update KStoragePool e = None) tr).
    unfold warn. wp_go; repeat constructor. }
  intros t1 [] H1. apply wp_bind_2. eapply wp_mono; [apply (registration_keeps pool t Hr Ha)|].
  intros t2 [[pool' [[st re] ms]] be] (Hm & Hs & Hc & H2). rewrite Forall_forall in H1, H2.
  wp_go; intros e' He; split_in; try (destruct (H1 _ He)); try (destruct (H2 _ He));
    try (split; [done|]; intros; congruence); ev_simpl; (split; [done|]); intros; ev_simpl.
Qed.

Lemma wp_reconcileLive req recorder pool :
  deleting (sp_meta pool) = false →
  wp (reconcileLive recorder pool) (λ tr _,
    clearance_ok req (Ev (Get KStoragePool req) (inr pool) :: tr) ∧
    release_ok req (Ev (Get KStoragePool req) (inr pool) :: tr)).
Proof.
  intros Hdel. unfold reconcileLive.
  pose proof (contains_added (sp_meta pool)) as Hadd.
  destruct (AddFinalizer (sp_meta pool) poolFinalizer) as [m added]. cbn in Hadd.
  wp_step; cbn [wp bind call].
  - intros [err|p1]; cbn [wp].
    + split; intros e' p' He Hev Hc; split_in; ev_simpl. cbn in Hc; congruence.
    + eapply wp_mono; [apply (wp_reconcileStatus recorder p1 ConditionDeregistered); done|].
      intros tr r Htr. split; intros e' p' He Hev Hc; split_in; ev_simpl; try (cbn in Hc; congruence);
        destruct (Htr e' He) as [Hu Hst]; [|congruence].
      destruct (Hst p' Hev) as (? & ? & ?). exists p1. split_and!; try done; [|left; congruence].
      right. eexists. split; [right; left|]. by ev_simpl.
  - eapply wp_mono; [apply (wp_reconcileStatus recorder pool ConditionDeregistered); done|].
    intros tr r Htr. split; intros e' p' He Hev Hc; split_in; ev_simpl;
      destruct (Htr e' He) as [Hu Hst]; [|congruence].
    destruct (Hst p' Hev) as (? & ? & ?). exists pool.
    split_and!; try done; [eauto using answered_get with evidence|left; congruence].
Qed.

Lemma wp_StoragePool_Reconcile recorder req :
  wp (StoragePool_Reconcile recorder req) (λ tr _, clearance_ok req tr ∧ release_ok req tr).
Proof.
  unfold StoragePool_Reconcile. wp_go.
  - split; intros e' p' He; split_in; ev_simpl.
  - by apply wp_reconcileDeleting.
  - by apply wp_reconcileLive.
Qed.

(** C6: The wipe clearance.  Whatever the API server answers, a reconcile
    writes [Deregistered=True] to a StoragePool only if the pool it was
    answered already carried it, or that pool is being deleted and this same
    pass was answered that its r-drbd Pool does not exist or is at another
    location.  This is about the answers of the pass: whether the Pool is gone
    from the API server too depends on the cache they come from. *)
Theorem deregistered_only_after_release recorder req tr r :
  runs (StoragePool_Reconcile recorder req) tr r →
  ∀ e p, e ∈ tr → ev_status KStoragePool e = Some p →
  cond_true p ConditionDeregistered = true →
  ∃ p0, answered req p0 tr ∧ sp_meta p = sp_meta p0 ∧ sp_spec p = sp_spec p0 ∧
    (cond_true p0 ConditionDeregistered = true ∨ deleting (sp_meta p0) = true ∧ released p0 tr).
Proof. intros Hr. exact (proj1 (wp_runs _ _ _ _ (wp_StoragePool_Reconcile recorder req) Hr)). Qed.

(** C24: The finalizer chain.  A reconcile drops the deregister finalizer only
    from a pool that is being deleted, whose r-drbd Pool the pass saw
    released, whose [Deregistered] was already true when read, and whose host
    wipe is confirmed by [TornDown], or whose node the pass saw absent or
    not ready. *)
Theorem finalizer_release_chain recorder req tr r :
  runs (StoragePool_Reconcile recorder req) tr r →
  ∀ e p, e ∈ tr → ev_update KStoragePool e = Some p →
  ContainsFinalizer (sp_meta p) poolFinalizer = false →
  ∃ p0, saw KStoragePool req (inr p0) tr ∧
    deleting (sp_meta p0) = true ∧ released p0 tr ∧
    cond_true p0 ConditionDeregistered = true ∧
    (cond_true p0 ConditionTornDown = true ∨ node_dead (sp_Node (sp_spec p0)) tr).
Proof. intros Hr. exact (proj2 (wp_runs _ _ _ _ (wp_StoragePool_Reconcile recorder req) Hr)). Qed.

(** [p] may be reported Available on the evidence of [tr]. *)
Definition available_ok (p : StoragePool) (tr : trace op) : Prop :=
  cond_true p ConditionHostReady = true ∧ cond_true p ConditionRegistered = true ∧
  (MinDevices (sp_Raid (sp_spec p)) ≤ length (sp_Devices (sp_spec p)))%nat ∧
  sp_Thin (sp_spec p) ≠ Some false ∧
  ∃ rp, saw KPool (pool_key p) (inr rp) tr ∧
    sameLocation (p_spec rp) (PoolSpec_of p) = true ∧ deleting (p_meta rp) = false.

Lemma available_ok_mono p t1 t2 : available_ok p t2 → available_ok p (t1 ++ t2).
Proof.
  intros (? & ? & ? & ? & rp & ? & ?). split_and!; [done..|]. exists rp. auto with evidence.
Qed.
Lemma available_ok_app p t1 t2 : available_ok p t1 → available_ok p (t1 ++ t2).
Proof.
  intros (? & ? & ? & ? & rp & ? & ?). split_and!; [done..|]. exists rp. auto with evidence.
Qed.

Lemma wp_registration_available pool :
  wp (registration pool) (λ tr '(pool', (st, re, ms), _),
    st = ConditionTrue → available_ok (set_cond pool' ConditionAvailable st re ms) tr).
Proof.
  unfold registration, EnsurePool. wp_go; intros Hst; try discriminate Hst; bools.
  split_and!; [by rewrite !cond_true_set_ne|by rewrite cond_true_set_ne, cond_true_set_eq| |done|].
  - by apply Nat.ltb_ge.
  - eexists. split; [eauto with evidence|done].
Qed.

Lemma wp_reconcileStatus_available recorder pool :
  wp (reconcileStatus recorder pool) (λ tr _, ∀ e p, e ∈ tr → ev_status KStoragePool e = Some p →
    cond_true p ConditionAvailable = true → available_ok p tr).
Proof.
  unfold reconcileStatus. apply wp_bind_2. eapply wp_mono.
  { instantiate (1 := λ tr _, Forall (λ e, ev_status KStoragePool e = None) tr).
    unfold warn. wp_go; repeat constructor. }
  intros t1 [] H1. apply wp_bind_2. eapply wp_mono.
  { apply wp_and; [apply wp_registration_available|].
    by apply (registration_keeps pool ConditionHostReady). }
  intros t2 [[pool' [[st re] ms]] be] [Hav (_ & _ & _ & H2)]. rewrite Forall_forall in H1, H2.
  wp_go; intros e' p' He Hev Hc; split_in;
    try (rewrite (H1 _ He) in Hev; done); try (destruct (H2 _ He); congruence); ev_simpl;
    rewrite cond_true_set_eq, bool_decide_eq_true in Hc;
    apply available_ok_mono, available_ok_app; auto.
Qed.

(** A pool is only reported usable when it is.  A reconcile of a pool that
    is not being deleted writes [Available=True] only together with
    [HostReady=True] and [Registered=True], for a thin pool with enough
    devices for its raid level, after reading its r-drbd Pool in the right
    location and not being deleted. *)
Theorem available_only_when_registered recorder req tr r e p :
  runs (StoragePool_Reconcile recorder req) tr r →
  e ∈ tr → ev_status KStoragePool e = Some p →
  deleting (sp_meta p) = false → cond_true p ConditionAvailable = true →
  available_ok p tr.
Proof.
  intros Hr. revert e p.
  refine (wp_runs _ (λ tr _, ∀ e p, e ∈ tr → ev_status KStoragePool e = Some p →
    deleting (sp_meta p) = false → cond_true p ConditionAvailable = true → available_ok p tr) _ _ _ Hr).
  unfold StoragePool_Reconcile. wp_go.
  - intros; split_in; ev_simpl.
  - rename Heqb into Hdel. unfold reconcileDeleting, DeletePool, nodeGoneOrUnready.
    wp_go; intros; split_in; ev_simpl; cbn in *; congruence.
  - unfold reconcileLive. destruct (AddFinalizer _ _) as [m added]. wp_step; cbn [wp bind call].
    + intros [err|p1]; cbn [wp]; [intros; split_in; ev_simpl|].
      eapply wp_mono; [apply wp_reconcileStatus_available|].
      intros t ? Ht e p He Hev ? ?. split_in; ev_simpl.
      apply (available_ok_mono _ [_; _]). eauto.
    + eapply wp_mono; [apply wp_reconcileStatus_available|].
      intros t ? Ht e p He Hev ? ?. split_in; ev_simpl.
      apply (available_ok_mono _ [_]). eauto.
Qed.
End StoragePoolController.

(** ** Witnesses *)
#[local] Existing Instance RefMeta.meta.
Definition demo_cleared : list Condition := [demo_cond ConditionDeregistered ConditionTrue].
Abbreviation demo_reconcile := (@StoragePool_Reconcile RefMeta.meta false (NN "" "tank")).

(** The pass that grants the clearance, the pass that releases the finalizer
    of a wiped pool, and the pass that makes a pool Available. *)
Definition demo_granting : StoragePool := demo_pool [poolFinalizer] (Some 1%Z) [].
Definition demo_wiped : StoragePool :=
  demo_pool [poolFinalizer] (Some 1%Z) (demo_cond ConditionTornDown ConditionTrue :: demo_cleared).
Definition demo_hosted : StoragePool := demo_pool [poolFinalizer] None [demo_cond ConditionHostReady ConditionTrue].

Abbreviation demo_set := (@set_cond RefMeta.meta).
Lemma deregistered_only_after_release_witness :
  let p := demo_set demo_granting ConditionDeregistered ConditionTrue ReasonReady "" in
  let tr := (run (demo_api (Some demo_granting) None) demo_reconcile tt).1.2 in
  ∃ p0, answered (NN "" "tank") p0 tr ∧ sp_meta p = sp_meta p0 ∧ sp_spec p = sp_spec p0 ∧
    (@cond_true RefMeta.meta p0 ConditionDeregistered = true ∨ deleting (sp_meta p0) = true ∧ released p0 tr).
Proof.
  apply (@deregistered_only_after_release RefMeta.meta false (NN "" "tank") _ _
    (run_runs (demo_api (Some demo_granting) None) demo_reconcile tt)
    (Ev (StatusUpdate KStoragePool (demo_set demo_granting ConditionDeregistered ConditionTrue ReasonReady "")) None)).
  - cbn. right. right. left.
  - exact (as_kind_refl KStoragePool _).
  - vm_compute. reflexivity.
Defined.

Lemma finalizer_release_chain_witness :
  let tr := (run (demo_api (Some demo_wiped) None) demo_reconcile tt).1.2 in
  ∃ p0, saw KStoragePool (NN "" "tank") (inr p0) tr ∧
    deleting (sp_meta p0) = true ∧ released p0 tr ∧
    @cond_true RefMeta.meta p0 ConditionDeregistered = true ∧
    (@cond_true RefMeta.meta p0 ConditionTornDown = true ∨ node_dead (sp_Node (sp_spec p0)) tr).
Proof.
  apply (@finalizer_release_chain RefMeta.meta false (NN "" "tank") _ _
    (run_runs (demo_api (Some demo_wiped) None) demo_reconcile tt)
    (Ev (Update KStoragePool (sp_set_meta demo_wiped (RemoveFinalizer (sp_meta demo_wiped) poolFinalizer)))
        (inr (sp_set_meta demo_wiped (RemoveFinalizer (sp_meta demo_wiped) poolFinalizer))))
    (sp_set_meta demo_wiped (RemoveFinalizer (sp_meta demo_wiped) poolFinalizer))).
  - cbn. right. right. left.
  - exact (as_kind_refl KStoragePool _).
  - vm_compute. reflexivity.
Defined.

Definition demo_available : StoragePool :=
  demo_set (demo_set demo_hosted ConditionRegistered ConditionTrue ReasonReady "")
    ConditionAvailable ConditionTrue ReasonReady "".
Lemma available_only_when_registered_witness :
  @available_ok RefMeta.meta demo_available
    (run (demo_api (Some demo_hosted) (Some demo_rpool)) demo_reconcile tt).1.2.
Proof.
  apply (@available_only_when_registered RefMeta.meta false (NN "" "tank") _ _
    (Ev (StatusUpdate KStoragePool demo_available) None) demo_available
    (run_runs (demo_api (Some demo_hosted) (Some demo_rpool)) demo_reconcile tt)).
  - cbn. right. right. left.
  - exact (as_kind_refl KStoragePool _).
  - reflexivity.
  - vm_compute. reflexivity.
Defined.
