(* ===== verification/ShareController.v ===== *)
(** * The Share controller

    operator/internal/controller/share_controller.go: the operator places a
    share on a node that can serve its volume, keeps [Available] in step with
    the serving agent, and on deletion waits for the agent's teardown. *)

From S2P Require Import Prelude GoStrings Prog ApiTypes Effects Demo Placement Nodes StoragePoolController.

Definition teardownFinalizer : string := "storage.stornas.io/teardown".

Definition sh_set_meta (s : Share) (m : ObjectMeta) : Share :=
  {| sh_meta := m; sh_ClaimName := sh_ClaimName s; sh_NFS := sh_NFS s; sh_SMB := sh_SMB s;
     sh_Conditions := sh_Conditions s; sh_Node := sh_Node s; sh_Device := sh_Device s; sh_State := sh_State s |}.
Definition sh_set_conds (s : Share) (cs : list Condition) : Share :=
  {| sh_meta := sh_meta s; sh_ClaimName := sh_ClaimName s; sh_NFS := sh_NFS s; sh_SMB := sh_SMB s;
     sh_Conditions := cs; sh_Node := sh_Node s; sh_Device := sh_Device s; sh_State := sh_State s |}.
Definition sh_set_place (s : Share) (node device : string) : Share :=
  {| sh_meta := sh_meta s; sh_ClaimName := sh_ClaimName s; sh_NFS := sh_NFS s; sh_SMB := sh_SMB s;
     sh_Conditions := sh_Conditions s; sh_Node := node; sh_Device := device; sh_State := sh_State s |}.

Section ShareController.
Context `{K8sMeta}.

Definition sh_cond (s : Share) (type status reason msg : string) : Share :=
  sh_set_conds s (SetStatusCondition (sh_Conditions s)
    {| c_Type := type; c_Status := status; c_Reason := reason; c_Message := msg;
       c_ObservedGeneration := Generation (sh_meta s) |}).
Definition sh_true (s : Share) (type : string) : bool := IsStatusConditionTrue (sh_Conditions s) type.

(** The common end of [Reconcile]: set Available, write the status. *)
Definition share_write (s : Share) (status reason msg : string) (res : Result) : io reconcile :=
  let s' := sh_cond s ConditionAvailable status reason msg in
  let! e := call (StatusUpdate KShare s') in
  match e with
  | Some _ => if IsConflict e then Ret done_ok else Ret (done_err e)
  | None => Ret (res, None)
  end.

(** The placement branch: the share on its node, HostReady reset if it moved. *)
Definition share_placed (s : Share) (node device : string) : Share :=
  let moved := negb (bool_decide (sh_Node s = "")) && negb (bool_decide (sh_Node s = node)) in
  let s1 := sh_set_place s node device in
  if moved then sh_cond s1 ConditionHostReady ConditionFalse ReasonWaitingForAgent ("moved to " +:+ node) else s1.

Definition share_live (s : Share) : io reconcile :=
  let! c := claimVolume (Namespace (sh_meta s)) (sh_ClaimName s) in
  match c with
  | inl (reason, msg) =>
      share_write s ConditionFalse reason msg
        (if bool_decide (reason = ReasonWaitingForVolume) then requeue volumeSettleInterval else NoRequeue)
  | inr vol =>
      let! a := unreadyNodes in
      match a with
      | inl e => Ret (done_err (Some e))
      | inr avoid =>
          match ResolvePlacement vol (sh_Node s) avoid with
          | (_, _, _, Some e) => share_write s ConditionFalse ReasonWaitingForVolume (emsg e) NoRequeue
          | (node, device, _, None) =>
              let s' := share_placed s node device in
              if sh_true s' ConditionHostReady
              then share_write s' ConditionTrue ReasonReady "" NoRequeue
              else share_write s' ConditionFalse ReasonWaitingForAgent
                     "waiting for the node agent to mount and export" NoRequeue
          end
      end
  end.

Definition Share_reconcileDelete (s : Share) : io reconcile :=
  if negb (ContainsFinalizer (sh_meta s) teardownFinalizer) then Ret done_ok
  else
    let done0 := bool_decide (sh_Node s = "") || bool_decide (sh_State s = "Removed") in
    let! d := (if done0 then Ret (inr true) else nodeGoneOrUnready (sh_Node s)) in
    match d with
    | inl e => Ret (done_err (Some e))
    | inr false => Ret (requeue volumeSettleInterval, None)
    | inr true =>
        let! u := call (Update KShare (sh_set_meta s (RemoveFinalizer (sh_meta s) teardownFinalizer))) in
        match u with
        | inl e => if IsConflict (Some e) then Ret done_ok else Ret (done_err (IgnoreNotFound (Some e)))
        | inr _ => Ret done_ok
        end
    end.

Definition Share_Reconcile (req : NamespacedName) : io reconcile :=
  let! g := call (Get KShare req) in
  match g with
  | inl e => Ret (done_err (IgnoreNotFound (Some e)))
  | inr s =>
      if deleting (sh_meta s) then Share_reconcileDelete s
      else
        let '(m, added) := AddFinalizer (sh_meta s) teardownFinalizer in
        let! u := (if added then call (Update KShare (sh_set_meta s m)) else Ret (inr s)) in
        match u with
        | inl e => if IsConflict (Some e) then Ret done_ok else Ret (done_err (Some e))
        | inr s' => share_live s'
        end
  end.

(** The watch mappings. *)
Definition allShares : io (list NamespacedName) :=
  let! l := call (List KShare None) in
  match l with
  | inl _ => Ret []
  | inr shares => Ret (map (λ s, key_of (sh_meta s)) shares)
  end.
Definition volumeShares (volume : string) : io (list NamespacedName) :=
  let! c := volumeClaim volume in
  match c with
  | None => Ret []
  | Some claim =>
      let! l := call (List KShare (Some (nn_Namespace claim))) in
      match l with
      | inl _ => Ret []
      | inr shares =>
          Ret (map (λ s, key_of (sh_meta s)) (filter (λ s, sh_ClaimName s = nn_Name claim) (shares : list Share)))
      end
  end.

(** ** Facts *)

Lemma sh_true_eq s type status reason msg :
  sh_true (sh_cond s type status reason msg) type = bool_decide (status = ConditionTrue).
Proof. apply (is_true_set_eq (sh_Conditions s) {| c_Type := type; c_Status := status |}). Qed.
Lemma sh_true_ne s type status reason msg type' :
  type ≠ type' → sh_true (sh_cond s type status reason msg) type' = sh_true s type'.
Proof. intros. by apply is_true_set_ne. Qed.

Lemma placed_host_ready s node device :
  sh_true (share_placed s node device) ConditionHostReady = true →
  sh_true s ConditionHostReady = true ∧ (sh_Node s = "" ∨ sh_Node s = node).
Proof.
  unfold share_placed. destruct (_ && _) eqn:E; [by rewrite sh_true_eq|].
  intros Ht. split; [done|]. bool_cases; auto.
Qed.
Lemma placed_fields s node device :
  let s' := share_placed s node device in
  sh_meta s' = sh_meta s ∧ sh_ClaimName s' = sh_ClaimName s ∧ sh_State s' = sh_State s ∧
  sh_Node s' = node ∧ sh_Device s' = device.
Proof. unfold share_placed. by destruct (_ && _). Qed.

(** What a live pass may write over the share [s]. *)
Definition share_ok (s p : Share) (tr : trace op) : Prop :=
  sh_meta p = sh_meta s ∧ sh_ClaimName p = sh_ClaimName s ∧ sh_State p = sh_State s ∧
  ((sh_Node p = sh_Node s ∧ sh_Device p = sh_Device s ∧ sh_true p ConditionAvailable = false) ∨
   (∃ v avoid replicas, claim_backed (Namespace (sh_meta s)) (sh_ClaimName s) v tr ∧ swept avoid tr ∧
      ResolvePlacement v (sh_Node s) avoid = (sh_Node p, sh_Device p, replicas, None) ∧
      (sh_true p ConditionAvailable = true →
         sh_true s ConditionHostReady = true ∧ (sh_Node s = "" ∨ sh_Node s = sh_Node p)))).
Lemma share_ok_sub s p t1 t2 : t1 ⊆ t2 → share_ok s p t1 → share_ok s p t2.
Proof.
  intros Hs (? & ? & ? & [?|(v & avoid & n & ? & ? & ?)]); split_and!; auto.
  right. exists v, avoid, n. split_and!; try tauto; [by eapply claim_backed_sub|by eapply swept_sub].
Qed.

Lemma wp_share_write s status reason msg res :
  wp (share_write s status reason msg res) (λ tr _, ∃ e,
    tr = [Ev (StatusUpdate KShare (sh_cond s ConditionAvailable status reason msg)) e]).
Proof. unfold share_write. wp_go; eauto. Qed.

(** The one write of a live pass comes last. *)
Definition share_pass (s : Share) : trace op → Prop := last_write KShare (share_ok s).

Lemma wp_share_finish s s' status reason msg res t0 :
  Forall reads_only t0 → share_ok s (sh_cond s' ConditionAvailable status reason msg) t0 →
  wp (share_write s' status reason msg res) (λ t _, share_pass s (t0 ++ t)).
Proof.
  intros R Hok. eapply wp_mono; [apply wp_share_write|]. intros t r (e & ->). by apply last_write_one.
Qed.
Lemma unplaced_ok s reason msg t : share_ok s (sh_cond s ConditionAvailable ConditionFalse reason msg) t.
Proof. split_and!; try done. left. by rewrite sh_true_eq. Qed.
Lemma placed_ok s v avoid node device n status reason msg t :
  claim_backed (Namespace (sh_meta s)) (sh_ClaimName s) v t → swept avoid t →
  ResolvePlacement v (sh_Node s) avoid = (node, device, n, None) →
  (status = ConditionTrue → sh_true (share_placed s node device) ConditionHostReady = true) →
  share_ok s (sh_cond (share_placed s node device) ConditionAvailable status reason msg) t.
Proof.
  intros Hv Ha E Hs. destruct (placed_fields s node device) as (? & ? & ? & Hn & Hd).
  split_and!; try done. right. exists v, avoid, n. split_and!; [done..| |].
  - cbn. by rewrite Hn, Hd.
  - rewrite sh_true_eq, bool_decide_eq_true. intros Hst. apply Hs, placed_host_ready in Hst as [? ?].
    cbn. by rewrite Hn.
Qed.

Lemma wp_share_live s : wp (share_live s) (λ tr _, share_pass s tr).
Proof.
  unfold share_live. apply wp_bind_2. eapply wp_mono; [apply wp_claimVolume_backed|].
  intros t1 [[reason msg]|v] [R1 Hv].
  { apply wp_share_finish; [done|apply unplaced_ok]. }
  specialize (Hv _ eq_refl). apply wp_bind_2. eapply wp_mono; [apply wp_unreadyNodes_swept|].
  intros t2 [e2|avoid] [R2 Ha].
  { cbn. rewrite app_nil_r. apply last_write_none. by apply Forall_app. }
  specialize (Ha _ eq_refl). apply (wp_mono _ (λ t _, share_pass s ((t1 ++ t2) ++ t)));
    [|intros t r; by rewrite <- app_assoc].
  assert (Forall reads_only (t1 ++ t2)) as R by (by apply Forall_app).
  apply (claim_backed_sub _ _ _ _ (t1 ++ t2)) in Hv; [|set_solver].
  apply (swept_sub _ _ (t1 ++ t2)) in Ha; [|set_solver].
  destruct (ResolvePlacement v (sh_Node s) avoid) as [[[node device] n] [err|]] eqn:E.
  { apply wp_share_finish; [done|apply unplaced_ok]. }
  destruct (sh_true (share_placed s node device) ConditionHostReady) eqn:Hh;
    (apply wp_share_finish; [done|]); by eapply placed_ok.
Qed.

(** The finalizer leaves only when nothing serves the share any more. *)
Definition share_released (s : Share) (tr : trace op) : Prop :=
  deleting (sh_meta s) = true ∧
  (sh_Node s = "" ∨ sh_State s = "Removed" ∨ node_dead (sh_Node s) tr).

Definition share_safe (req : NamespacedName) (tr : trace op) : Prop :=
  (∀ e p, e ∈ tr → ev_status KShare e = Some p → ∃ s, known KShare req s tr ∧ share_ok s p tr) ∧
  (∀ e p, e ∈ tr → ev_update KShare e = Some p →
     ContainsFinalizer (sh_meta p) teardownFinalizer = false →
     ∃ s, saw KShare req (inr s) tr ∧ share_released s tr).

Lemma wp_Share_reconcileDelete req s : deleting (sh_meta s) = true →
  wp (Share_reconcileDelete s) (λ tr _, share_safe req (Ev (Get KShare req) (inr s) :: tr)).
Proof.
  intros Hdel. unfold Share_reconcileDelete, nodeGoneOrUnready, share_safe, share_released.
  wp_go; (split; intros e' p' He Hev; [split_in; ev_simpl|intros Hc; split_in; ev_simpl]);
    exists s; (split; [eauto with evidence|split; [done|]]); bool_cases; eauto 8 with evidence.
Qed.

(** A live pass, after any prefix that holds the object it works on. *)
Lemma share_pass_safe req s t0 t :
  known KShare req s t0 → (∀ e, e ∈ t0 → ev_status KShare e = None) →
  (∀ e p, e ∈ t0 → ev_update KShare e = Some p → ContainsFinalizer (sh_meta p) teardownFinalizer = true) →
  share_pass s t → share_safe req (t0 ++ t).
Proof.
  intros Hk Hs Hu Hp.
  destruct (last_write_safe KShare req s share_ok _ t0 t share_ok_sub Hk Hs Hu Hp) as [H1 H2].
  split; [done|]. intros e p He Hev Hc. rewrite (H2 e p He Hev) in Hc. done.
Qed.

Lemma added_finalizer m f : ContainsFinalizer (AddFinalizer m f).1 f = true.
Proof.
  rewrite add_fin. destruct (ContainsFinalizer m f) eqn:E; [done|]. apply contains_fin. cbn. set_solver.
Qed.

Lemma wp_Share_Reconcile req : wp (Share_Reconcile req) (λ tr _, share_safe req tr).
Proof.
  unfold Share_Reconcile. cbn [wp bind call]. intros [e0|s]; cbn [wp bind call].
  { split; intros; split_in; ev_simpl. }
  wp_step; [by apply wp_Share_reconcileDelete|].
  pose proof (added_finalizer (sh_meta s) teardownFinalizer) as Hadd.
  destruct (AddFinalizer _ _) as [m added]. cbn in Hadd. wp_step.
  - wp_step; cbn [wp bind]. wp_step.
    + wp_go; split; intros; split_in; ev_simpl; cbn in *; congruence.
    + eapply wp_mono; [apply wp_share_live|]. intros t r.
      apply (share_pass_safe req _ [_; _]); [apply known_update|..]; intros; split_in; ev_simpl.
  - eapply wp_mono; [apply wp_share_live|]. intros t r.
    apply (share_pass_safe req _ [_]); [apply known_get|..]; intros; split_in; ev_simpl.
Qed.
End ShareController.

(** A share is served only from a node that can serve it.  Every status
    the controller writes keeps the placement it read and is not Available, or
    carries the node and device [ResolvePlacement] picked for the volume the
    pass found behind the claim, avoiding the nodes the same pass saw unready.
    It says Available only if the agent had already reported the host ready
    and the share did not just move to another node. *)
Theorem share_status_sound `{K8sMeta} req tr r e p :
  runs (Share_Reconcile req) tr r → e ∈ tr → ev_status KShare e = Some p →
  ∃ s, known KShare req s tr ∧ share_ok s p tr.
Proof.
  intros Hr. exact (proj1 (wp_runs _ _ _ _ (wp_Share_Reconcile req) Hr) e p).
Qed.

(** Revocation is confirmed.  The controller drops a share's teardown
    finalizer only if the share is being deleted and was never placed, or the
    serving agent reported it Removed, or the pass saw the serving node gone or
    unready. *)
Theorem share_release_sound `{K8sMeta} req tr r e p :
  runs (Share_Reconcile req) tr r → e ∈ tr → ev_update KShare e = Some p →
  ContainsFinalizer (sh_meta p) teardownFinalizer = false →
  ∃ s, saw KShare req (inr s) tr ∧ share_released s tr.
Proof.
  intros Hr. exact (proj2 (wp_runs _ _ _ _ (wp_Share_Reconcile req) Hr) e p).
Qed.

(** ** Witnesses *)
#[local] Existing Instance RefMeta.meta.
Definition demo_share (del : option Z) (node state : string) (cs : list Condition) : Share :=
  {| sh_meta := demo_meta "s" [teardownFinalizer] del; sh_ClaimName := "c"; sh_NFS := None; sh_SMB := None;
     sh_Conditions := cs; sh_Node := node; sh_Device := "/dev/drbd1"; sh_State := state |}.
Definition demo_pvc : PersistentVolumeClaim :=
  {| pvc_meta := demo_meta "c" [] None; pvc_VolumeName := "pvc-1"; pvc_StorageClassName := None |}.
Definition demo_pv : PersistentVolume :=
  {| pv_meta := demo_meta "pvc-1" [] None; pv_CSI := Some {| csi_Driver := Driver; csi_VolumeHandle := "pvc-1" |};
     pv_ClaimRef := Some (NN "" "c") |}.
Definition demo_share_get (s : Share) (k : kind) (key : NamespacedName) : error + obj k :=
  match k return error + obj k with
  | KShare => inr s
  | KPVC => inr demo_pvc
  | KPV => inr demo_pv
  | KVolume => inr demo_volume
  | _ => inl (Err "not found" KNotFound)
  end.
Definition demo_share_api (s : Share) : env op unit := demo_env cmd_ok (demo_share_get s) list_none.
Definition demo_served : Share := demo_share None "b" "Serving" [demo_cond ConditionHostReady ConditionTrue].
Definition demo_share_up : Share :=
  sh_cond (share_placed demo_served "b" "/dev/drbd1") ConditionAvailable ConditionTrue ReasonReady "".

Lemma share_status_sound_witness :
  ∃ s, known KShare (NN "" "s") s (run (demo_share_api demo_served) (Share_Reconcile (NN "" "s")) tt).1.2 ∧
    share_ok s demo_share_up (run (demo_share_api demo_served) (Share_Reconcile (NN "" "s")) tt).1.2.
Proof.
  apply (share_status_sound (NN "" "s") _ _ (Ev (StatusUpdate KShare demo_share_up) None) demo_share_up
    (run_runs (demo_share_api demo_served) (Share_Reconcile (NN "" "s")) tt)).
  - apply list_elem_of_In. vm_compute. tauto.
  - exact (as_kind_refl KShare _).
Defined.

Definition demo_share_gone : Share := demo_share (Some 1%Z) "b" "Removed" [].
Lemma share_release_sound_witness :
  ∃ s, saw KShare (NN "" "s") (inr s) (run (demo_share_api demo_share_gone) (Share_Reconcile (NN "" "s")) tt).1.2 ∧
    share_released s (run (demo_share_api demo_share_gone) (Share_Reconcile (NN "" "s")) tt).1.2.
Proof.
  set (p := sh_set_meta demo_share_gone (RemoveFinalizer (sh_meta demo_share_gone) teardownFinalizer)).
  apply (share_release_sound (NN "" "s") _ _ (Ev (Update KShare p) (inr p)) p
    (run_runs (demo_share_api demo_share_gone) (Share_Reconcile (NN "" "s")) tt)).
  - apply list_elem_of_In. vm_compute. tauto.
  - exact (as_kind_refl KShare _).
  - vm_compute. reflexivity.
Defined.
