(* ===== verification/VolumeWatch.v ===== *)
(** * The Volume watch wakes what it must

    The Share and Target controllers do not requeue when no replica can
    serve; they rely on [volumeServingChanged] letting the event of the next
    servable state through (claim.go). *)

From S2P Require Import Prelude GoStrings Prog ApiTypes Effects Placement Nodes.

(** Node names are unique in a Volume's status and assignment. *)
Definition volume_wf (v : Volume) : Prop :=
  NoDup (rs_Node <$> v_Replicas v) ∧ NoDup (ar_Node <$> default [] (v_Assignment v)).

(** Reading back a map filled by a loop over a list of distinct keys. *)
Lemma foldl_insert_lookup {A B} (key : A → string) (val : A → B) (l : list A) (m : gmap string B) k :
  NoDup (key <$> l) →
  foldl (λ m a, <[key a := val a]> m) m l !! k =
  match list_find (λ a, key a = k) l with Some (_, a) => Some (val a) | None => m !! k end.
Proof.
  revert m. induction l as [|a l IH]; intros m; [done|]. rewrite fmap_cons, NoDup_cons. intros [Ha Hl].
  cbn [foldl list_find]. rewrite IH by done. destruct (decide (key a = k)) as [<-|Hne].
  - destruct (list_find (λ a', key a' = key a) l) as [[i a']|] eqn:E; cbn; [|by rewrite lookup_insert_eq].
    apply list_find_Some in E as (Hi & Hk & _). destruct Ha. rewrite <- Hk.
    apply list_elem_of_fmap. exists a'. split; [done|]. by eapply list_elem_of_lookup_2.
  - destruct (list_find (λ a', key a' = k) l) as [[i a']|]; cbn; [done|]. by rewrite lookup_insert_ne.
Qed.
Lemma find_key {A} (key : A → string) (l : list A) a :
  NoDup (key <$> l) → a ∈ l → ∃ i, list_find (λ x, key x = key a) l = Some (i, a).
Proof.
  induction l as [|b l IH]; [by intros _ ?%elem_of_nil|]. rewrite fmap_cons, NoDup_cons.
  intros [Hb Hl] [->|Ha]%elem_of_cons; cbn; [rewrite decide_True by done; eauto|].
  rewrite decide_False; [|intros Hk; destruct Hb; rewrite Hk; apply list_elem_of_fmap; eauto].
  destruct (IH Hl Ha) as [i ->]. cbn. eauto.
Qed.

Lemma serving_replicas v r : volume_wf v → r ∈ v_Replicas v →
  sk_replicas (serving v) !! rs_Node r = Some (serving_replica r).
Proof.
  intros [Hn _] Hr. cbn. rewrite (foldl_insert_lookup rs_Node) by done.
  by destruct (find_key rs_Node _ r Hn Hr) as [i ->].
Qed.
Lemma serving_replicas_inv v k x : volume_wf v → sk_replicas (serving v) !! k = Some x →
  ∃ r, r ∈ v_Replicas v ∧ rs_Node r = k ∧ x = serving_replica r.
Proof.
  intros [Hn _]. cbn. rewrite (foldl_insert_lookup rs_Node) by done.
  destruct (list_find _ _) as [[i r]|] eqn:E; [|by rewrite lookup_empty].
  apply list_find_Some in E as (Hi & Hk & _). intros [= <-].
  exists r. split_and!; [by eapply list_elem_of_lookup_2|done..].
Qed.
Lemma serving_diskful v node : volume_wf v →
  Diskful v node = bool_decide (sk_roles (serving v) !! node = Some RoleDiskful).
Proof.
  intros [_ Hn]. apply eq_true_iff_eq. rewrite bool_decide_eq_true. unfold Diskful. cbn.
  destruct (v_Assignment v) as [rs|]; [|rewrite lookup_empty; naive_solver]. cbn in Hn.
  rewrite (foldl_insert_lookup ar_Node), existsb_exists by done. setoid_rewrite <- list_elem_of_In. split.
  - intros (a & Ha & Ht). bools. subst. destruct (find_key ar_Node rs a Hn Ha) as [i ->]. by f_equal.
  - destruct (list_find _ _) as [[i a]|] eqn:E; [|by rewrite lookup_empty].
    apply list_find_Some in E as (Hi & Hk & _). intros [= Hr].
    exists a. split; [by eapply list_elem_of_lookup_2|]. rewrite !bool_decide_eq_true_2 by done. done.
Qed.

(** Equal keys give the same servable replicas. *)
Lemma serving_candidates old new c : volume_wf old → volume_wf new →
  serving old = serving new → c ∈ candidates old → c ∈ candidates new.
Proof.
  intros Ho Hn Heq (r & Hr & Hu & ->)%elem_candidates.
  pose proof (serving_replicas old r Ho Hr) as Hs. rewrite Heq in Hs.
  apply serving_replicas_inv in Hs as (r' & Hr' & Hnode & Hrep); [|done].
  injection Hrep as Hnode' Hp Hd Hi Hpath. apply elem_candidates. exists r'. split_and!; [done| |].
  - unfold usable in *. rewrite <- Hp, <- Hpath, <- Hnode'.
    by rewrite serving_diskful, <- Heq, <- serving_diskful.
  - assert (v_Primary old = v_Primary new) as Hpr by (by injection Heq).
    unfold to_candidate. by rewrite Hnode', Hpath, Hi, Hd, Hpr.
Qed.

(** The Volume watch misses no recovery.  If no replica of a volume can
    serve and an update makes one servable, the watch predicate lets the update
    through, whatever the preferred and avoided nodes: the controllers may wait
    without requeueing. *)
Theorem volume_watch_complete old new prefer avoid node device replicas err :
  volume_wf old → volume_wf new →
  (ResolvePlacement old prefer avoid).2 = Some err →
  ResolvePlacement new prefer avoid = (node, device, replicas, None) →
  volumeServingChanged old new = true.
Proof.
  intros Ho Hn Hold Hnew. unfold volumeServingChanged. apply negb_true_iff, bool_decide_eq_false. intros Heq.
  apply resolve_ok_inv in Hnew as (c & Hmax & _).
  destruct Hmax as (l1 & l2 & Hall & Hc & _).
  unfold ResolvePlacement in Hold. destruct (pick_from prefer avoid None (candidates old)) eqn:E; [done|].
  apply pick_from_none in E as [_ E]. apply Hc, (E c).
  apply (serving_candidates new old); [done..|]. rewrite Hall. set_solver.
Qed.

(** The volume of the placement witnesses, before its disks came up. *)
Definition demo_down : Volume :=
  {| v_meta := named "" "pvc-1"; v_SizeBytes := 1; v_Assignment := v_Assignment demo_volume;
     v_Resolve := None; v_Phase := ""; v_Conditions := []; v_Primary := ""; v_Replicas := [] |}.
Lemma volume_watch_complete_witness : volumeServingChanged demo_down demo_volume = true.
Proof.
  apply (volume_watch_complete demo_down demo_volume "a" ∅ "b" "/dev/drbd1" 2 (no_replica_error demo_down)).
  - split; refine (bool_decide_eq_true_1 _ _); vm_compute; reflexivity.
  - split; refine (bool_decide_eq_true_1 _ _); vm_compute; reflexivity.
  - reflexivity.
  - vm_compute. reflexivity.
Defined.
