(* ===== verification/TargetController.v ===== *)
(** * The Target controller

    operator/internal/controller/target_controller.go: iSCSI targets.  Every
    LUN of a target is served from one node; CHAP Secrets are checked and
    their versions published so that the agent re-applies on rotation. *)

From S2P Require Import Prelude GoStrings Prog ApiTypes Effects Demo Placement Nodes StoragePoolController ShareController.

Definition t_set_meta (t : Target) (m : ObjectMeta) : Target :=
  {| t_meta := m; t_VIP := t_VIP t; t_LUNs := t_LUNs t; t_Initiators := t_Initiators t;
     t_Conditions := t_Conditions t; t_IQN := t_IQN t; t_ActiveNode := t_ActiveNode t;
     t_StatusLUNs := t_StatusLUNs t; t_ChapSecretVersions := t_ChapSecretVersions t;
     t_Sessions := t_Sessions t; t_State := t_State t |}.
Definition t_set_conds (t : Target) (cs : list Condition) : Target :=
  {| t_meta := t_meta t; t_VIP := t_VIP t; t_LUNs := t_LUNs t; t_Initiators := t_Initiators t;
     t_Conditions := cs; t_IQN := t_IQN t; t_ActiveNode := t_ActiveNode t;
     t_StatusLUNs := t_StatusLUNs t; t_ChapSecretVersions := t_ChapSecretVersions t;
     t_Sessions := t_Sessions t; t_State := t_State t |}.
Definition t_set_identity (t : Target) (iqn : string) (versions : list SecretVersion) : Target :=
  {| t_meta := t_meta t; t_VIP := t_VIP t; t_LUNs := t_LUNs t; t_Initiators := t_Initiators t;
     t_Conditions := t_Conditions t; t_IQN := iqn; t_ActiveNode := t_ActiveNode t;
     t_StatusLUNs := t_StatusLUNs t; t_ChapSecretVersions := versions;
     t_Sessions := t_Sessions t; t_State := t_State t |}.
Definition t_set_place (t : Target) (node : string) (luns : list LUNStatus) : Target :=
  {| t_meta := t_meta t; t_VIP := t_VIP t; t_LUNs := t_LUNs t; t_Initiators := t_Initiators t;
     t_Conditions := t_Conditions t; t_IQN := t_IQN t; t_ActiveNode := node;
     t_StatusLUNs := luns; t_ChapSecretVersions := t_ChapSecretVersions t;
     t_Sessions := t_Sessions t; t_State := t_State t |}.

(** ** chapSecrets *)
Record chap_state := { cs_versions : list SecretVersion; cs_problem : string; cs_seen : gset string }.
Definition chap_problem (st : chap_state) (ref msg : string) : chap_state :=
  {| cs_versions := cs_versions st;
     cs_problem := if bool_decide (cs_problem st = "") then msg else cs_problem st;
     cs_seen := {[ref]} ∪ cs_seen st |}.
Definition chap_step (ns : string) (st : chap_state) (ini : Initiator) : io (chap_state + error) :=
  let ref := ini_ChapSecretRef ini in
  if bool_decide (ref = "") || bget (cs_seen st) ref then Ret (inl st)
  else
    let! g := call (Get KSecret (NN ns ref)) in
    match g with
    | inl e =>
        if IsNotFound (Some e) then Ret (inl (chap_problem st ref ("chap secret " +:+ ref +:+ " not found")))
        else Ret (inr e)
    | inr secret =>
        let '(_, _, usable) := ChapCredentials (sec_Data secret) in
        if negb usable
        then Ret (inl (chap_problem st ref ("chap secret " +:+ ref +:+ " has no username or password key")))
        else Ret (inl {| cs_versions := cs_versions st ++
                           [{| sv_Name := ref; sv_ResourceVersion := ResourceVersion (sec_meta secret) |}];
                         cs_problem := cs_problem st; cs_seen := {[ref]} ∪ cs_seen st |})
    end.
Definition chapSecrets (t : Target) : io (error + (list SecretVersion * string)) :=
  let! r := for_state (t_Initiators t) {| cs_versions := []; cs_problem := ""; cs_seen := ∅ |}
              (chap_step (Namespace (t_meta t))) in
  match r with
  | inl st => Ret (inr (cs_versions st, cs_problem st))
  | inr e => Ret (inl e)
  end.

(** A usable Secret the pass read, at the version it publishes. *)
Definition secret_usable (ns : string) (sv : SecretVersion) (tr : trace op) : Prop :=
  ∃ secret, saw KSecret (NN ns (sv_Name sv)) (inr secret) tr ∧
    (ChapCredentials (sec_Data secret)).2 = true ∧ sv_ResourceVersion sv = ResourceVersion (sec_meta secret).

Record chap_inv (ns : string) (done : list Initiator) (st : chap_state) (tr : trace op) : Prop := {
  ci_reads : Forall reads_only tr;
  ci_usable : ∀ sv, sv ∈ cs_versions st → secret_usable ns sv tr;
  ci_seen : ∀ sv, sv ∈ cs_versions st → sv_Name sv ∈ cs_seen st;
  ci_nodup : NoDup (sv_Name <$> cs_versions st);
  ci_complete : cs_problem st = "" → ∀ ref, ref ∈ cs_seen st → ∃ sv, sv ∈ cs_versions st ∧ sv_Name sv = ref;
  ci_done : ∀ ini, ini ∈ done → ini_ChapSecretRef ini = "" ∨ ini_ChapSecretRef ini ∈ cs_seen st;
}.

Lemma secret_usable_app ns sv t1 t2 : secret_usable ns sv t1 → secret_usable ns sv (t1 ++ t2).
Proof. intros (s & ? & ? & ?). exists s. eauto with evidence. Qed.

Lemma chap_inv_skip ns done st tr ini :
  chap_inv ns done st tr → bool_decide (ini_ChapSecretRef ini = "") || bget (cs_seen st) (ini_ChapSecretRef ini) = true →
  chap_inv ns (done ++ [ini]) st (tr ++ []).
Proof.
  intros [] Hb. rewrite app_nil_r. split; try done. intros x [?| ->%list_elem_of_singleton]%elem_of_app; [auto|].
  bool_cases; [auto|]. right. by apply bget_true.
Qed.
Lemma chap_inv_problem ns done st tr ini e msg :
  chap_inv ns done st tr → reads_only e → msg ≠ "" →
  chap_inv ns (done ++ [ini]) (chap_problem st (ini_ChapSecretRef ini) msg) (tr ++ [e]).
Proof.
  intros [] He Hm. split; cbn.
  - apply Forall_app. split; [done|]. by constructor.
  - intros. apply secret_usable_app. auto.
  - set_solver.
  - done.
  - case_bool_decide; [done|]. intros ?. done.
  - intros x [?| ->%list_elem_of_singleton]%elem_of_app; [|set_solver]. destruct (ci_done0 x); [done|auto|set_solver].
Qed.
Lemma chap_inv_good ns done st tr ini secret :
  chap_inv ns done st tr → ini_ChapSecretRef ini ∉ cs_seen st →
  (ChapCredentials (sec_Data secret)).2 = true →
  chap_inv ns (done ++ [ini])
    {| cs_versions := cs_versions st ++ [{| sv_Name := ini_ChapSecretRef ini;
                                            sv_ResourceVersion := ResourceVersion (sec_meta secret) |}];
       cs_problem := cs_problem st; cs_seen := {[ini_ChapSecretRef ini]} ∪ cs_seen st |}
    (tr ++ [Ev (Get KSecret (NN ns (ini_ChapSecretRef ini))) (inr secret)]).
Proof.
  intros [] Hn Hu. split; cbn.
  - apply Forall_app. split; [done|]. by constructor.
  - intros sv [?| ->%list_elem_of_singleton]%elem_of_app; [apply secret_usable_app; auto|].
    exists secret. split; [|done]. cbn. eauto with evidence.
  - intros sv [?| ->%list_elem_of_singleton]%elem_of_app; [|cbn; set_solver].
    apply elem_of_union_r. auto.
  - rewrite fmap_app. apply NoDup_app. split_and!; [done| |apply NoDup_singleton].
    intros x (sv & -> & Hsv)%list_elem_of_fmap Hx. cbn in Hx. apply list_elem_of_singleton in Hx.
    apply Hn. rewrite <- Hx. auto.
  - intros Hp ref [ ->%elem_of_singleton|Hr]%elem_of_union; [eexists; split; [apply elem_of_app; right; by left|done]|].
    destruct (ci_complete0 Hp ref Hr) as (sv & ? & ?). exists sv. set_solver.
  - intros x [?| ->%list_elem_of_singleton]%elem_of_app; [|set_solver]. destruct (ci_done0 x); [done|auto|set_solver].
Qed.

Lemma wp_chap_step ns done st tr ini : chap_inv ns done st tr →
  wp (chap_step ns st ini) (λ t r, match r with
    | inl st' => chap_inv ns (done ++ [ini]) st' (tr ++ t)
    | inr _ => Forall reads_only (tr ++ t) end).
Proof.
  intros HI. unfold chap_step. wp_step; [cbn; by apply chap_inv_skip|]. bools.
  cbn [wp bind call]. intros [e|secret]; cbn [wp bind].
  - wp_step; cbn.
    + by apply chap_inv_problem.
    + apply Forall_app. split; [apply HI|by repeat constructor].
  - destruct (ChapCredentials (sec_Data secret)) as [[u pw] usable] eqn:E. wp_step; cbn; bools.
    + by apply chap_inv_problem.
    + apply chap_inv_good; [done|by apply bget_false|by rewrite E].
Qed.

(** What [chapSecrets] promises: the published versions are of distinct,
    usable Secrets, and without a problem every reference is among them. *)
Definition chap_ok (t : Target) (versions : list SecretVersion) (problem : string) (tr : trace op) : Prop :=
  (∀ sv, sv ∈ versions → secret_usable (Namespace (t_meta t)) sv tr) ∧ NoDup (sv_Name <$> versions) ∧
  (problem = "" → ∀ ini, ini ∈ t_Initiators t → ini_ChapSecretRef ini ≠ "" →
     ∃ sv, sv ∈ versions ∧ sv_Name sv = ini_ChapSecretRef ini).
Lemma wp_chapSecrets t :
  wp (chapSecrets t) (λ tr r, Forall reads_only tr ∧
    ∀ versions problem, r = inr (versions, problem) → chap_ok t versions problem tr).
Proof.
  unfold chapSecrets. apply wp_bind_2. eapply wp_mono.
  { apply (wp_for_state_inv (chap_inv (Namespace (t_meta t))) (λ tr _, Forall reads_only tr) _ _ [] _ []).
    - split; cbn; [constructor|intros ? []%elem_of_nil|intros ? []%elem_of_nil|constructor|set_solver|intros ? []%elem_of_nil].
    - intros done x st tr _ HI. by apply wp_chap_step. }
  intros tr [st|e] HI; cbn in *; rewrite app_nil_r; [|by split]. destruct HI. split; [done|].
  intros ? ? [= <- <-]. split_and!; [done..|]. intros Hp ini Hini Hne. destruct (ci_done0 ini Hini); naive_solver.
Qed.

(** ** Placement of the LUNs *)

(** The volumes behind the LUNs, or the first problem. *)
Fixpoint lun_volumes (ns : string) (luns : list LUN) : io ((string * string) + list Volume) :=
  match luns with
  | [] => Ret (inr [])
  | lun :: luns' =>
      let! c := claimVolume ns (lun_ClaimName lun) in
      match c with
      | inl p => Ret (inl p)
      | inr v =>
          let! r := lun_volumes ns luns' in
          match r with inl p => Ret (inl p) | inr vs => Ret (inr (v :: vs)) end
      end
  end.

(** The loop over [vols]: the node of the first, whether any is replicated,
    the statuses so far. *)
Fixpoint place_luns (prefer : string) (avoid : gset string) (i : nat) (node : string) (replicated : bool)
    (acc : list LUNStatus) (l : list (LUN * Volume)) : error + (string * bool * list LUNStatus) :=
  match l with
  | [] => inr (node, replicated, acc)
  | (lun, v) :: l' =>
      match ResolvePlacement v prefer avoid with
      | (_, _, _, Some e) => inl e
      | (n, device, replicas, None) =>
          place_luns prefer avoid (S i) (if bool_decide (i = 0%nat) then n else node)
            (replicated || (1 <? replicas)%nat) (acc ++ [{| ls_ID := lun_ID lun; ls_Device := device |}]) l'
      end
  end.

(** One LUN's status: its id, and the device placement picked for its volume. *)
Definition lun_placed (prefer : string) (avoid : gset string) (x : LUN * Volume) (ls : LUNStatus) : Prop :=
  ls_ID ls = lun_ID x.1 ∧ ∃ n, ResolvePlacement x.2 prefer avoid = (n, ls_Device ls, diskful_count x.2, None).

Lemma place_luns_spec prefer avoid i node repl acc l node' repl' luns :
  place_luns prefer avoid i node repl acc l = inr (node', repl', luns) →
  ∃ rest, luns = acc ++ rest ∧ Forall2 (lun_placed prefer avoid) l rest ∧
    repl' = repl || existsb (λ x, (1 <? diskful_count x.2)%nat) l ∧
    (i ≠ 0%nat → node' = node) ∧
    (i = 0%nat → ∀ lun v l', l = (lun, v) :: l' → (ResolvePlacement v prefer avoid).1.1.1 = node').
Proof.
  revert i node repl acc. induction l as [|[lun v] l IH]; intros i node repl acc; cbn.
  { intros [= -> -> ->]. exists []. rewrite app_nil_r, orb_false_r. split_and!; done || constructor. }
  destruct (ResolvePlacement v prefer avoid) as [[[n device] k] [e|]] eqn:E; [done|].
  intros (rest & -> & Hf & -> & Hn & _)%IH. specialize (Hn ltac:(lia)).
  assert (k = diskful_count v) as -> by (by apply resolve_ok_inv in E as (? & _ & _ & _ & ?)).
  eexists (_ :: rest). rewrite <- app_assoc. split_and!; [done| | | |].
  - constructor; [|done]. split; [done|]. by exists n.
  - by rewrite orb_assoc.
  - intros Hi. rewrite Hn. by rewrite bool_decide_eq_false_2.
  - intros -> ? ? ? [= <- <- <-]. rewrite E. cbn. by rewrite Hn, bool_decide_eq_true_2.
Qed.

Lemma wp_lun_volumes ns luns :
  wp (lun_volumes ns luns) (λ tr r, Forall reads_only tr ∧
    ∀ vs, r = inr vs → Forall2 (λ lun v, claim_backed ns (lun_ClaimName lun) v tr) luns vs).
Proof.
  induction luns as [|lun luns IH]; cbn [lun_volumes].
  { cbn. split; [constructor|]. intros ? [= <-]. constructor. }
  apply wp_bind_2. eapply wp_mono; [apply wp_claimVolume_backed|]. intros t1 [p|v] [R1 Hv]; cbn.
  { rewrite app_nil_r. by split. }
  specialize (Hv _ eq_refl). apply wp_bind_2. eapply wp_mono; [apply IH|].
  intros t2 [p|vs] [R2 Hvs]; cbn; rewrite app_nil_r; (split; [by apply Forall_app|]); [by intros ? [=]|].
  intros ? [= <-]. constructor; [eapply claim_backed_sub; [|done]; set_solver|].
  eapply Forall2_impl; [exact (Hvs _ eq_refl)|]. cbn. intros lun' v' Hx. eapply claim_backed_sub; [|exact Hx]. set_solver.
Qed.

Section TargetController.
Context `{K8sMeta}.

Definition t_cond (t : Target) (type status reason msg : string) : Target :=
  t_set_conds t (SetStatusCondition (t_Conditions t)
    {| c_Type := type; c_Status := status; c_Reason := reason; c_Message := msg;
       c_ObservedGeneration := Generation (t_meta t) |}).
Definition t_true (t : Target) (type : string) : bool := IsStatusConditionTrue (t_Conditions t) type.

Definition target_write (t : Target) (status reason msg : string) (res : Result) : io reconcile :=
  let! e := call (StatusUpdate KTarget (t_cond t ConditionAvailable status reason msg)) in
  match e with
  | Some _ => if IsConflict e then Ret done_ok else Ret (done_err e)
  | None => Ret (res, None)
  end.

Definition target_placed (t : Target) (node : string) (luns : list LUNStatus) : Target :=
  let moved := negb (bool_decide (t_ActiveNode t = "")) && negb (bool_decide (t_ActiveNode t = node)) in
  let t1 := t_set_place t node luns in
  if moved then t_cond t1 ConditionHostReady ConditionFalse ReasonWaitingForAgent ("moved to " +:+ node) else t1.

(** The inner [switch], once every LUN is placed. *)
Definition target_serve (t : Target) (problem node : string) (replicated : bool) (luns : list LUNStatus)
    : io reconcile :=
  if replicated && bool_decide (t_VIP t = "")
  then target_write t ConditionFalse ReasonInvalidSpec "vip is required when a LUN is replicated" NoRequeue
  else
    let t' := target_placed t node luns in
    if negb (bool_decide (problem = "")) then target_write t' ConditionFalse ReasonInvalidSpec problem NoRequeue
    else if t_true t' ConditionHostReady then target_write t' ConditionTrue ReasonReady "" NoRequeue
    else target_write t' ConditionFalse ReasonWaitingForAgent
           "waiting for the node agent to export the target" NoRequeue.

Definition target_live (t0 : Target) : io reconcile :=
  let! c := chapSecrets t0 in
  match c with
  | inl e => Ret (done_err (Some e))
  | inr (versions, problem) =>
      let t := t_set_identity t0 (IQNPrefix +:+ Name (t_meta t0)) versions in
      let! vs := lun_volumes (Namespace (t_meta t)) (t_LUNs t) in
      match vs with
      | inl (reason, msg) =>
          target_write t ConditionFalse reason msg
            (if bool_decide (reason = ReasonWaitingForVolume) then requeue volumeSettleInterval else NoRequeue)
      | inr vols =>
          let! a := unreadyNodes in
          match a with
          | inl e => Ret (done_err (Some e))
          | inr avoid =>
              match place_luns (t_ActiveNode t) avoid 0 "" false [] (zip (t_LUNs t) vols) with
              | inl e => target_write t ConditionFalse ReasonWaitingForVolume (emsg e) NoRequeue
              | inr (node, replicated, luns) => target_serve t problem node replicated luns
              end
          end
      end
  end.

Definition Target_reconcileDelete (t : Target) : io reconcile :=
  if negb (ContainsFinalizer (t_meta t) teardownFinalizer) then Ret done_ok
  else
    let done0 := bool_decide (t_ActiveNode t = "") || bool_decide (t_State t = "Removed") in
    let! d := (if done0 then Ret (inr true) else nodeGoneOrUnready (t_ActiveNode t)) in
    match d with
    | inl e => Ret (done_err (Some e))
    | inr false => Ret (requeue volumeSettleInterval, None)
    | inr true =>
        let! u := call (Update KTarget (t_set_meta t (RemoveFinalizer (t_meta t) teardownFinalizer))) in
        match u with
        | inl e => if IsConflict (Some e) then Ret done_ok else Ret (done_err (Some e))
        | inr _ => Ret done_ok
        end
    end.

Definition Target_Reconcile (req : NamespacedName) : io reconcile :=
  let! g := call (Get KTarget req) in
  match g with
  | inl e => Ret (done_err (IgnoreNotFound (Some e)))
  | inr t =>
      if deleting (t_meta t) then Target_reconcileDelete t
      else
        let '(m, added) := AddFinalizer (t_meta t) teardownFinalizer in
        let! u := (if added then call (Update KTarget (t_set_meta t m)) else Ret (inr t)) in
        match u with
        | inl e => if IsConflict (Some e) then Ret done_ok else Ret (done_err (Some e))
        | inr t' => target_live t'
        end
  end.

(** The watch mappings. *)
Definition allTargets : io (list NamespacedName) :=
  let! l := call (List KTarget None) in
  match l with
  | inl _ => Ret []
  | inr ts => Ret (map (λ t, key_of (t_meta t)) ts)
  end.
Definition secretTargets (secret : ObjectMeta) : io (list NamespacedName) :=
  let! l := call (List KTarget (Some (Namespace secret))) in
  match l with
  | inl _ => Ret []
  | inr ts => Ret (map (λ t, key_of (t_meta t))
      (filter (λ t, Name secret ∈ map ini_ChapSecretRef (t_Initiators t)) (ts : list Target)))
  end.
Definition volumeTargets (volume : string) : io (list NamespacedName) :=
  let! c := volumeClaim volume in
  match c with
  | None => Ret []
  | Some claim =>
      let! l := call (List KTarget (Some (nn_Namespace claim))) in
      match l with
      | inl _ => Ret []
      | inr ts => Ret (map (λ t, key_of (t_meta t))
          (filter (λ t, nn_Name claim ∈ map lun_ClaimName (t_LUNs t)) (ts : list Target)))
      end
  end.

(** ** Facts *)

Lemma t_true_eq t type status reason msg :
  t_true (t_cond t type status reason msg) type = bool_decide (status = ConditionTrue).
Proof. apply (is_true_set_eq (t_Conditions t) {| c_Type := type; c_Status := status |}). Qed.

Lemma target_placed_ready t node luns :
  t_true (target_placed t node luns) ConditionHostReady = true →
  t_true t ConditionHostReady = true ∧ (t_ActiveNode t = "" ∨ t_ActiveNode t = node).
Proof.
  unfold target_placed. destruct (_ && _) eqn:E; [by rewrite t_true_eq|].
  intros Ht. split; [done|]. bool_cases; auto.
Qed.
Lemma target_placed_fields t node luns :
  let t' := target_placed t node luns in
  t_meta t' = t_meta t ∧ t_VIP t' = t_VIP t ∧ t_State t' = t_State t ∧ t_IQN t' = t_IQN t ∧
  t_ChapSecretVersions t' = t_ChapSecretVersions t ∧ t_ActiveNode t' = node ∧ t_StatusLUNs t' = luns.
Proof. unfold target_placed. by destruct (_ && _). Qed.

(** The placement a pass may write: every LUN in spec order on its device,
    the node of the first LUN, a VIP when a LUN is replicated. *)
Definition target_place_ok (t p : Target) (tr : trace op) : Prop :=
  ∃ vols avoid, Forall2 (λ lun v, claim_backed (Namespace (t_meta t)) (lun_ClaimName lun) v tr) (t_LUNs t) vols ∧
    swept avoid tr ∧ Forall2 (lun_placed (t_ActiveNode t) avoid) (zip (t_LUNs t) vols) (t_StatusLUNs p) ∧
    (∀ v vs, vols = v :: vs → (ResolvePlacement v (t_ActiveNode t) avoid).1.1.1 = t_ActiveNode p) ∧
    (t_VIP t = "" → ∀ v, v ∈ vols → (diskful_count v ≤ 1)%nat).
Definition target_ok (t p : Target) (tr : trace op) : Prop :=
  t_meta p = t_meta t ∧ t_State p = t_State t ∧ t_IQN p = IQNPrefix +:+ Name (t_meta t) ∧
  ∃ problem, chap_ok t (t_ChapSecretVersions p) problem tr ∧
  ((t_ActiveNode p = t_ActiveNode t ∧ t_StatusLUNs p = t_StatusLUNs t ∧ t_true p ConditionAvailable = false) ∨
   (target_place_ok t p tr ∧
    (t_true p ConditionAvailable = true →
       problem = "" ∧ t_true t ConditionHostReady = true ∧
       (t_ActiveNode t = "" ∨ t_ActiveNode t = t_ActiveNode p)))).

Lemma secret_usable_sub ns sv t1 t2 : t1 ⊆ t2 → secret_usable ns sv t1 → secret_usable ns sv t2.
Proof. intros Hs (x & ? & ? & ?). exists x. eauto using saw_sub. Qed.
Lemma chap_ok_sub t vs pr t1 t2 : t1 ⊆ t2 → chap_ok t vs pr t1 → chap_ok t vs pr t2.
Proof. intros Hs (? & ? & ?). split_and!; eauto using secret_usable_sub. Qed.
Lemma claims_backed_sub ns (luns : list LUN) vols t1 t2 : t1 ⊆ t2 →
  Forall2 (λ lun v, claim_backed ns (lun_ClaimName lun) v t1) luns vols →
  Forall2 (λ lun v, claim_backed ns (lun_ClaimName lun) v t2) luns vols.
Proof. intros Hs H2. eapply Forall2_impl; [done|]. intros. by eapply claim_backed_sub. Qed.
Lemma target_ok_sub t p t1 t2 : t1 ⊆ t2 → target_ok t p t1 → target_ok t p t2.
Proof.
  intros Hs (? & ? & ? & pr & ? & [?|[(vols & avoid & ? & ? & ?) ?]]); split_and!; auto;
    exists pr; (split; [by eapply chap_ok_sub|]); [auto|right; split; [|done]].
  exists vols, avoid. split_and!; try tauto; [by eapply claims_backed_sub|by eapply swept_sub].
Qed.

Definition target_pass (t : Target) : trace op → Prop := last_write KTarget (target_ok t).
Lemma wp_target_finish t t' status reason msg res t0 :
  Forall reads_only t0 → target_ok t (t_cond t' ConditionAvailable status reason msg) t0 →
  wp (target_write t' status reason msg res) (λ k _, target_pass t (t0 ++ k)).
Proof. intros R Hok. unfold target_write. wp_go; by apply last_write_one. Qed.

Lemma target_unplaced_ok t versions problem reason msg tr : chap_ok t versions problem tr →
  target_ok t (t_cond (t_set_identity t (IQNPrefix +:+ Name (t_meta t)) versions)
                 ConditionAvailable ConditionFalse reason msg) tr.
Proof.
  intros Hc. split_and!; try done. exists problem. split; [done|]. left. split_and!; [done..|by rewrite t_true_eq].
Qed.
Lemma target_served_ok t versions problem node luns status reason msg tr :
  let t' := t_set_identity t (IQNPrefix +:+ Name (t_meta t)) versions in
  let p := t_cond (target_placed t' node luns) ConditionAvailable status reason msg in
  chap_ok t versions problem tr → target_place_ok t p tr →
  (status = ConditionTrue → problem = "" ∧ t_true (target_placed t' node luns) ConditionHostReady = true) →
  target_ok t p tr.
Proof.
  intros t' p Hc Hp Hs. destruct (target_placed_fields t' node luns) as (? & ? & ? & ? & Hv & Hn & _).
  split_and!; try done. exists problem. split; [by cbn; rewrite Hv|]. right. split; [done|].
  unfold p. rewrite t_true_eq, bool_decide_eq_true. intros Hst. destruct (Hs Hst) as [? Hh].
  apply target_placed_ready in Hh as [? ?]. cbn. rewrite Hn. auto.
Qed.

Lemma wp_target_serve t versions problem vols avoid node replicated luns tr :
  let t' := t_set_identity t (IQNPrefix +:+ Name (t_meta t)) versions in
  Forall reads_only tr → chap_ok t versions problem tr →
  Forall2 (λ lun v, claim_backed (Namespace (t_meta t)) (lun_ClaimName lun) v tr) (t_LUNs t) vols →
  swept avoid tr →
  place_luns (t_ActiveNode t) avoid 0 "" false [] (zip (t_LUNs t) vols) = inr (node, replicated, luns) →
  wp (target_serve t' problem node replicated luns) (λ k _, target_pass t (tr ++ k)).
Proof.
  intros t' R Hc Hv Ha (rest & -> & Hl & -> & _ & Hnode)%place_luns_spec. specialize (Hnode eq_refl).
  unfold target_serve. cbn [orb app]. destruct (_ && _) eqn:Hvip.
  { apply wp_target_finish; [done|by eapply target_unplaced_ok]. }
  assert (∀ status reason msg, target_place_ok t
    (t_cond (target_placed t' node rest) ConditionAvailable status reason msg) tr) as Hp.
  { intros. destruct (target_placed_fields t' node rest) as (_ & _ & _ & _ & _ & Hn & Hls).
    exists vols, avoid. cbn. rewrite Hn, Hls. split_and!; [done..| |].
    - intros v vs ->. destruct (t_LUNs t) as [|lun luns'] eqn:El; [by inversion Hv|]. by eapply Hnode.
    - intros Hempty v Hin. rewrite bool_decide_eq_true_2, andb_true_r in Hvip by done.
      apply not_true_iff_false in Hvip. destruct (Nat.le_gt_cases (diskful_count v) 1) as [?|Hgt]; [done|].
      destruct Hvip. apply existsb_exists. apply list_elem_of_lookup in Hin as [i Hi].
      destruct (Forall2_lookup_r _ _ _ i v Hv Hi) as (lun & Hlun & _).
      exists (lun, v). split; [|by apply Nat.ltb_lt]. apply list_elem_of_In, (list_elem_of_lookup_2 _ i).
      by rewrite lookup_zip_with, Hlun, Hi. }
  repeat case_match; (apply wp_target_finish; [done|]); eapply target_served_ok; eauto; bools; done.
Qed.

Lemma wp_target_live t : wp (target_live t) (λ tr _, target_pass t tr).
Proof.
  unfold target_live. apply wp_bind_2. eapply wp_mono; [apply wp_chapSecrets|].
  intros t1 [e|[versions problem]] [R1 Hc]; cbn [wp].
  { rewrite app_nil_r. by apply last_write_none. }
  specialize (Hc _ _ eq_refl). apply wp_bind_2. eapply wp_mono; [apply wp_lun_volumes|].
  intros t2 [[reason msg]|vols] [R2 Hv].
  { apply (wp_mono _ (λ k _, target_pass t ((t1 ++ t2) ++ k))); [|intros k r; by rewrite <- app_assoc].
    apply wp_target_finish; [by apply Forall_app|].
    apply (target_unplaced_ok _ _ problem). eapply chap_ok_sub; [|done]. set_solver. }
  specialize (Hv _ eq_refl). apply wp_bind_2. eapply wp_mono; [apply wp_unreadyNodes_swept|].
  intros t3 [e|avoid] [R3 Ha]; cbn [wp].
  { rewrite app_nil_r. apply last_write_none. by repeat (apply Forall_app; split). }
  specialize (Ha _ eq_refl).
  apply (wp_mono _ (λ k _, target_pass t ((t1 ++ t2 ++ t3) ++ k))); [|intros k r; by rewrite <- !app_assoc].
  assert (Forall reads_only (t1 ++ t2 ++ t3)) as R by (by repeat (apply Forall_app; split)).
  apply (chap_ok_sub _ _ _ _ (t1 ++ t2 ++ t3)) in Hc; [|set_solver].
  apply (claims_backed_sub _ _ _ _ (t1 ++ t2 ++ t3)) in Hv; [|set_solver].
  apply (swept_sub _ _ (t1 ++ t2 ++ t3)) in Ha; [|set_solver].
  destruct (place_luns _ _ _ _ _ _ _) as [e|[[node replicated] luns]] eqn:E.
  - apply wp_target_finish; [done|by eapply target_unplaced_ok].
  - by eapply wp_target_serve.
Qed.

Definition target_released (t : Target) (tr : trace op) : Prop :=
  deleting (t_meta t) = true ∧
  (t_ActiveNode t = "" ∨ t_State t = "Removed" ∨ node_dead (t_ActiveNode t) tr).
Definition target_safe (req : NamespacedName) (tr : trace op) : Prop :=
  (∀ e p, e ∈ tr → ev_status KTarget e = Some p → ∃ t, known KTarget req t tr ∧ target_ok t p tr) ∧
  (∀ e p, e ∈ tr → ev_update KTarget e = Some p →
     ContainsFinalizer (t_meta p) teardownFinalizer = false →
     ∃ t, saw KTarget req (inr t) tr ∧ target_released t tr).
Lemma wp_Target_reconcileDelete req t : deleting (t_meta t) = true →
  wp (Target_reconcileDelete t) (λ tr _, target_safe req (Ev (Get KTarget req) (inr t) :: tr)).
Proof.
  intros Hdel. unfold Target_reconcileDelete, nodeGoneOrUnready, target_safe, target_released.
  wp_go; (split; intros e' p' He Hev; [split_in; ev_simpl|intros Hc; split_in; ev_simpl]);
    exists t; (split; [eauto with evidence|split; [done|]]); bool_cases; eauto 8 with evidence.
Qed.
Lemma target_pass_safe req t t0 k :
  known KTarget req t t0 → (∀ e, e ∈ t0 → ev_status KTarget e = None) →
  (∀ e p, e ∈ t0 → ev_update KTarget e = Some p → ContainsFinalizer (t_meta p) teardownFinalizer = true) →
  target_pass t k → target_safe req (t0 ++ k).
Proof.
  intros Hk Hs Hu Hp.
  destruct (last_write_safe KTarget req t target_ok _ t0 k target_ok_sub Hk Hs Hu Hp) as [H1 H2].
  split; [done|]. intros e p He Hev Hc. rewrite (H2 e p He Hev) in Hc. done.
Qed.
Lemma wp_Target_Reconcile req : wp (Target_Reconcile req) (λ tr _, target_safe req tr).
Proof.
  unfold Target_Reconcile. cbn [wp bind call]. intros [e0|t]; cbn [wp bind call].
  { split; intros; split_in; ev_simpl. }
  wp_step; [by apply wp_Target_reconcileDelete|].
  pose proof (added_finalizer (t_meta t) teardownFinalizer) as Hadd.
  destruct (AddFinalizer _ _) as [m added]. cbn in Hadd. wp_step.
  - wp_step; cbn [wp bind]. wp_step.
    + wp_go; split; intros; split_in; ev_simpl; cbn in *; congruence.
    + eapply wp_mono; [apply wp_target_live|]. intros k r.
      apply (target_pass_safe req _ [_; _]); [apply known_update|..]; intros; split_in; ev_simpl.
  - eapply wp_mono; [apply wp_target_live|]. intros k r.
    apply (target_pass_safe req _ [_]); [apply known_get|..]; intros; split_in; ev_simpl.
Qed.
End TargetController.

(** C36: A target is served whole, from a node that can serve it.  Every
    status written carries the target's IQN and the versions of distinct,
    usable CHAP Secrets the pass read; it keeps the old placement and is not
    Available, or places every LUN, in spec order, on the device
    [ResolvePlacement] picked for the volume behind its claim, on the first
    LUN's node, with a VIP if any LUN is replicated.  It says Available only
    when every referenced Secret is usable, the agent had reported ready, and
    the target did not just move. *)
Theorem target_status_sound `{K8sMeta} req tr r e p :
  runs (Target_Reconcile req) tr r → e ∈ tr → ev_status KTarget e = Some p →
  ∃ t, known KTarget req t tr ∧ target_ok t p tr.
Proof. intros Hr. exact (proj1 (wp_runs _ _ _ _ (wp_Target_Reconcile req) Hr) e p). Qed.

(** A target's finalizer is dropped only if it is being deleted and was
    never placed, or its agent reported it Removed, or the pass saw the active
    node gone or unready. *)
Theorem target_release_sound `{K8sMeta} req tr r e p :
  runs (Target_Reconcile req) tr r → e ∈ tr → ev_update KTarget e = Some p →
  ContainsFinalizer (t_meta p) teardownFinalizer = false →
  ∃ t, saw KTarget req (inr t) tr ∧ target_released t tr.
Proof. intros Hr. exact (proj2 (wp_runs _ _ _ _ (wp_Target_Reconcile req) Hr) e p). Qed.

(** ** Witnesses *)
#[local] Existing Instance RefMeta.meta.
Definition demo_target (del : option Z) (node state : string) (cs : list Condition) : Target :=
  {| t_meta := demo_meta "t" [teardownFinalizer] del; t_VIP := "10.0.0.9/24";
     t_LUNs := [{| lun_ID := 0; lun_ClaimName := "c" |}];
     t_Initiators := [{| ini_IQN := "iqn.x"; ini_ChapSecretRef := "chap" |}];
     t_Conditions := cs; t_IQN := ""; t_ActiveNode := node; t_StatusLUNs := []; t_ChapSecretVersions := [];
     t_Sessions := 0; t_State := state |}.
Definition demo_secret : Secret :=
  {| sec_meta := demo_meta "chap" [] None; sec_Data := list_to_map [("username", "u"); ("password", "p")] |}.
Definition demo_target_get (t : Target) (k : kind) (key : NamespacedName) : error + obj k :=
  match k return error + obj k with
  | KTarget => inr t
  | KSecret => inr demo_secret
  | KPVC => inr demo_pvc
  | KPV => inr demo_pv
  | KVolume => inr demo_volume
  | _ => inl (Err "not found" KNotFound)
  end.
Definition demo_target_api (t : Target) : env op unit := demo_env cmd_ok (demo_target_get t) list_none.
Definition demo_exported : Target := demo_target None "b" "Serving" [demo_cond ConditionHostReady ConditionTrue].
Definition demo_target_up : Target :=
  t_cond (target_placed
      (t_set_identity demo_exported (IQNPrefix +:+ "t") [{| sv_Name := "chap"; sv_ResourceVersion := "1" |}])
      "b" [{| ls_ID := 0; ls_Device := "/dev/drbd1" |}])
    ConditionAvailable ConditionTrue ReasonReady "".

Lemma target_status_sound_witness :
  ∃ t, known KTarget (NN "" "t") t (run (demo_target_api demo_exported) (Target_Reconcile (NN "" "t")) tt).1.2 ∧
    target_ok t demo_target_up (run (demo_target_api demo_exported) (Target_Reconcile (NN "" "t")) tt).1.2.
Proof.
  apply (target_status_sound (NN "" "t") _ _ (Ev (StatusUpdate KTarget demo_target_up) None) demo_target_up
    (run_runs (demo_target_api demo_exported) (Target_Reconcile (NN "" "t")) tt)).
  - apply list_elem_of_In. vm_compute. tauto.
  - exact (as_kind_refl KTarget _).
Defined.

Definition demo_target_gone : Target := demo_target (Some 1%Z) "b" "Removed" [].
Lemma target_release_sound_witness :
  ∃ t, saw KTarget (NN "" "t") (inr t) (run (demo_target_api demo_target_gone) (Target_Reconcile (NN "" "t")) tt).1.2 ∧
    target_released t (run (demo_target_api demo_target_gone) (Target_Reconcile (NN "" "t")) tt).1.2.
Proof.
  set (p := t_set_meta demo_target_gone (RemoveFinalizer (t_meta demo_target_gone) teardownFinalizer)).
  apply (target_release_sound (NN "" "t") _ _ (Ev (Update KTarget p) (inr p)) p
    (run_runs (demo_target_api demo_target_gone) (Target_Reconcile (NN "" "t")) tt)).
  - apply list_elem_of_In. vm_compute. tauto.
  - exact (as_kind_refl KTarget _).
  - vm_compute. reflexivity.
Defined.
