(* ===== verification/ClaimBinder.v ===== *)
(** * The claim binder

    operator/internal/controller/claim_binder.go: completes
    WaitForFirstConsumer for claims the host consumes, by writing the
    selected-node annotation no scheduler will write. *)

From S2P Require Import Prelude GoStrings Prog ApiTypes Effects Demo Nodes.

Definition selectedNodeAnnotation : string := "volume.kubernetes.io/selected-node".
Definition WaitForFirstConsumer : string := "WaitForFirstConsumer".

Definition hostClaimPending (pvc : PersistentVolumeClaim) : bool :=
  negb (deleting (pvc_meta pvc)) && bool_decide (pvc_VolumeName pvc = "") &&
  bool_decide (mget (Annotations (pvc_meta pvc)) selectedNodeAnnotation = "") &&
  bool_decide (mget (Annotations (pvc_meta pvc)) ConsumerAnnotation = ConsumerHost).

Definition wffcClass (pvc : PersistentVolumeClaim) : io (error + option StorageClass) :=
  match pvc_StorageClassName pvc with
  | None => Ret (inr None)
  | Some name =>
      if bool_decide (name = "") then Ret (inr None)
      else
        let! g := call (Get KStorageClass (NN "" name)) in
        match g with
        | inl e => if IsNotFound (Some e) then Ret (inr None) else Ret (inl e)
        | inr sc =>
            if negb (bool_decide (sc_Provisioner sc = Driver)) ||
               negb (bool_decide (sc_VolumeBindingMode sc = Some WaitForFirstConsumer))
            then Ret (inr None) else Ret (inr (Some sc))
        end
  end.

(** [if tier == "" { tier = DefaultTier }] *)
Definition or_default (tier : string) : string := if bool_decide (tier = "") then DefaultTier else tier.
Definition with_annotation (pvc : PersistentVolumeClaim) (k v : string) : PersistentVolumeClaim :=
  {| pvc_meta := {| Name := Name (pvc_meta pvc); Namespace := Namespace (pvc_meta pvc);
       Generation := Generation (pvc_meta pvc); ResourceVersion := ResourceVersion (pvc_meta pvc);
       DeletionTimestamp := DeletionTimestamp (pvc_meta pvc); Finalizers := Finalizers (pvc_meta pvc);
       Annotations := <[k := v]> (Annotations (pvc_meta pvc)); Labels := Labels (pvc_meta pvc) |};
     pvc_VolumeName := pvc_VolumeName pvc; pvc_StorageClassName := pvc_StorageClassName pvc |}.

Section ClaimBinder.
Context `{K8sMeta} `{MapRange} `{SliceSort}.

Definition pool_available (p : StoragePool) : bool := IsStatusConditionTrue (sp_conds p) ConditionAvailable.

(** The pinned pool's node, if the pool is Available. *)
Fixpoint pinned_node (pinned : string) (pools : list StoragePool) : string :=
  match pools with
  | [] => ""
  | p :: ps =>
      if bool_decide (Name (sp_meta p) = pinned) && pool_available p then sp_Node (sp_spec p)
      else pinned_node pinned ps
  end.

(** Best pool free space per node holding the tier. *)
Definition pool_in_tier (tier : string) (p : StoragePool) : bool :=
  bool_decide (or_default (sp_Tier (sp_spec p)) = tier) && pool_available p.
Definition pool_free (p : StoragePool) : Z := default 0%Z (sp_Free (sp_status p)).
Definition free_step (tier : string) (m : gmap string Z) (p : StoragePool) : gmap string Z :=
  if negb (pool_in_tier tier p) then m
  else match m !! sp_Node (sp_spec p) with
       | Some cur => if (cur <? pool_free p)%Z then <[sp_Node (sp_spec p) := pool_free p]> m else m
       | None => <[sp_Node (sp_spec p) := pool_free p]> m
       end.
Definition free_map (tier : string) (pools : list StoragePool) : gmap string Z :=
  foldl (free_step tier) ∅ pools.

Definition ready_step (acc : list string) (n : string) : io (list string + error) :=
  let! g := nodeGoneOrUnready n in
  match g with
  | inl e => Ret (inr e)
  | inr gone => Ret (inl (if negb gone then acc ++ [n] else acc))
  end.

(** The comparison of [sort.Slice]. *)
Definition free_lt (free : gmap string Z) (a b : string) : bool :=
  let fa := default 0%Z (free !! a) in
  let fb := default 0%Z (free !! b) in
  if negb (fa =? fb)%Z then (fb <? fa)%Z else str_ltb a b.

Definition pickNode (pvc : PersistentVolumeClaim) (sc : StorageClass) : io (error + string) :=
  let! l := call (List KStoragePool None) in
  match l with
  | inl e => Ret (inl e)
  | inr pools =>
      let pinned := mget (Annotations (pvc_meta pvc)) PoolAnnotation in
      if negb (bool_decide (pinned = "")) then Ret (inr (pinned_node pinned pools))
      else
        let tier := or_default (mget (sc_Parameters sc) ParamTier) in
        let free := free_map tier pools in
        let! r := for_state (map fst (range free)) [] ready_step in
        match r with
        | inr e => Ret (inl e)
        | inl [] => Ret (inr "")
        | inl nodes => Ret (inr (default "" (head (sort_slice (free_lt free) nodes))))
        end
  end.

Definition ClaimBinder_Reconcile (req : NamespacedName) : io reconcile :=
  let! g := call (Get KPVC req) in
  match g with
  | inl e => Ret (done_err (IgnoreNotFound (Some e)))
  | inr pvc =>
      if negb (hostClaimPending pvc) then Ret done_ok
      else
        let! c := wffcClass pvc in
        match c with
        | inl e => Ret (done_err (Some e))
        | inr None => Ret done_ok
        | inr (Some sc) =>
            let! n := pickNode pvc sc in
            match n with
            | inl e => Ret (done_err (Some e))
            | inr node =>
                if bool_decide (node = "") then Ret done_ok
                else
                  let! e := call (PatchObj KPVC pvc (with_annotation pvc selectedNodeAnnotation node)) in
                  match e with
                  | Some _ => Ret (done_err e)
                  | None => Ret done_ok
                  end
            end
        end
  end.

Definition pendingHostClaims : io (list NamespacedName) :=
  let! l := call (List KPVC None) in
  match l with
  | inl _ => Ret []
  | inr pvcs => Ret (map (λ c, key_of (pvc_meta c))
      (filter (λ c, hostClaimPending c = true) (pvcs : list PersistentVolumeClaim)))
  end.

(** ** Facts *)

Lemma free_lt_swo free : strict_weak_order (free_lt free).
Proof.
  unfold free_lt. split.
  - intros a. rewrite Z.eqb_refl. apply str_ltb_irrefl.
  - intros a b c. destruct (Z.eqb_spec (default 0%Z (free !! a)) (default 0%Z (free !! b)));
      destruct (Z.eqb_spec (default 0%Z (free !! b)) (default 0%Z (free !! c)));
      destruct (Z.eqb_spec (default 0%Z (free !! a)) (default 0%Z (free !! c))); cbn; try lia.
    apply str_ltb_trans.
  - intros a b c. destruct (Z.eqb_spec (default 0%Z (free !! b)) (default 0%Z (free !! a)));
      destruct (Z.eqb_spec (default 0%Z (free !! c)) (default 0%Z (free !! b)));
      destruct (Z.eqb_spec (default 0%Z (free !! c)) (default 0%Z (free !! a))); cbn; try lia.
    apply (swo_incomp _ (str_ltb_swo id)).
Qed.

(** The head of a sorted slice is a least element, whatever the algorithm. *)
Lemma sort_slice_head {A} (lt : A → A → bool) (l : list A) x l' :
  strict_weak_order lt → sort_slice lt l = x :: l' → x ∈ l ∧ ∀ y, y ∈ l → lt y x = false.
Proof.
  intros Hlt Hs. pose proof (sort_slice_perm lt l) as Hp. pose proof (sort_slice_sorted lt l Hlt) as Hsort.
  rewrite Hs in Hp, Hsort. apply StronglySorted_inv in Hsort as [_ Hall]. rewrite Forall_forall in Hall. split.
  - rewrite <- Hp. left.
  - intros y Hy. rewrite <- Hp in Hy. apply elem_of_cons in Hy as [->|Hy]; [apply Hlt|auto].
Qed.

Record free_ok (tier : string) (pools : list StoragePool) (m : gmap string Z) : Prop := {
  fo_max : ∀ n f, m !! n = Some f → ∃ p, p ∈ pools ∧ pool_in_tier tier p = true ∧
             sp_Node (sp_spec p) = n ∧ pool_free p = f;
  fo_all : ∀ p, p ∈ pools → pool_in_tier tier p = true →
             ∃ f, m !! sp_Node (sp_spec p) = Some f ∧ (pool_free p ≤ f)%Z;
}.
Lemma free_step_ok tier pools m p : free_ok tier pools m → free_ok tier (pools ++ [p]) (free_step tier m p).
Proof.
  intros [Hm Ha]. unfold free_step. destruct (pool_in_tier tier p) eqn:E; cbn.
  2:{ split; [intros n f Hf; destruct (Hm n f Hf) as (q & ? & ?); exists q; set_solver|].
      intros q [?| ->%list_elem_of_singleton]%elem_of_app ?; [eauto|congruence]. }
  assert (∀ f0, (∀ cur, m !! sp_Node (sp_spec p) = Some cur → (cur ≤ f0)%Z) → f0 = pool_free p →
    free_ok tier (pools ++ [p]) (<[sp_Node (sp_spec p) := f0]> m)) as Hins.
  { intros f0 Hcur ->. split.
    - intros n f. rewrite lookup_insert_Some. intros [[<- <-]|[_ Hf]]; [exists p; set_solver|].
      destruct (Hm n f Hf) as (q & ? & ?). exists q. set_solver.
    - intros q [Hq| ->%list_elem_of_singleton]%elem_of_app Ht.
      + destruct (Ha q Hq Ht) as (f & Hf & ?).
        destruct (decide (sp_Node (sp_spec p) = sp_Node (sp_spec q))) as [He|He].
        * rewrite <- He in *. rewrite lookup_insert_eq. eexists. split; [done|]. specialize (Hcur f Hf). lia.
        * rewrite lookup_insert_ne by done. eauto.
      + rewrite lookup_insert_eq. eexists. split; [done|]. lia. }
  destruct (m !! sp_Node (sp_spec p)) as [cur|] eqn:El; [|by apply Hins].
  destruct (Z.ltb_spec cur (pool_free p)) as [Hlt|Hge].
  { apply Hins; [|done]. intros ? [= <-]. lia. }
  split; [intros n f Hf; destruct (Hm n f Hf) as (q & ? & ?); exists q; set_solver|].
  intros q [?| ->%list_elem_of_singleton]%elem_of_app ?; eauto.
Qed.
Lemma free_map_ok tier pools : free_ok tier pools (free_map tier pools).
Proof.
  unfold free_map. induction pools as [|p pools IH] using rev_ind.
  - cbn. split; [intros n f; by rewrite lookup_empty|by intros p ?%elem_of_nil].
  - rewrite foldl_app. by apply free_step_ok.
Qed.

(** The readiness sweep over the nodes. *)
Definition node_up (n : string) (tr : trace op) : Prop :=
  ∃ node, saw KNode (NN "" n) (inr node) tr ∧ nodeReady node = true.
Definition ready_inv (done acc : list string) (tr : trace op) : Prop :=
  Forall reads_only tr ∧ (∀ n, n ∈ acc → n ∈ done ∧ node_up n tr) ∧
  (∀ n, n ∈ done → n ∈ acc ∨ node_dead n tr).
Lemma wp_ready_step done acc n tr : ready_inv done acc tr →
  wp (ready_step acc n) (λ t r, match r with
    | inl acc' => ready_inv (done ++ [n]) acc' (tr ++ t)
    | inr _ => Forall reads_only (tr ++ t) end).
Proof.
  intros (R & Hacc & Hdone). unfold ready_step, nodeGoneOrUnready.
  assert (∀ e, reads_only e → Forall reads_only (tr ++ [e])) as R'.
  { intros e He. apply Forall_app. split; [done|by constructor]. }
  assert (∀ t, (∀ m, m ∈ acc → m ∈ done ++ [n] ∧ node_up m (tr ++ t)) ∧
               (∀ m, m ∈ done → m ∈ acc ∨ node_dead m (tr ++ t))) as Hold.
  { intros t. split.
    - intros m Hm. destruct (Hacc m Hm) as [? (nd & ? & ?)]. split; [set_solver|]. exists nd. eauto with evidence.
    - intros m Hm. destruct (Hdone m Hm) as [?|(x & ? & ?)]; [auto|]. right. exists x. eauto with evidence. }
  cbn [wp bind call]. intros g. destruct (Hold [Ev (Get KNode (NN "" n)) g]) as [Ha Hd].
  assert (∀ b : bool, (b = true → node_up n (tr ++ [Ev (Get KNode (NN "" n)) g])) →
    (b = false → node_dead n (tr ++ [Ev (Get KNode (NN "" n)) g])) →
    ready_inv (done ++ [n]) (if b then acc ++ [n] else acc) (tr ++ [Ev (Get KNode (NN "" n)) g])) as Hadd.
  { intros b Hup Hdead. split_and!; [by apply R'| |].
    - intros m Hm. destruct b; [|by apply Ha].
      apply elem_of_app in Hm as [Hm| ->%list_elem_of_singleton]; [by apply Ha|]. split; [set_solver|auto].
    - intros m [Hm| ->%list_elem_of_singleton]%elem_of_app; [destruct (Hd m Hm); [left|auto]; destruct b; set_solver|].
      destruct b; [left; set_solver|auto]. }
  destruct g as [e|node]; wp_go; bools; try (by apply R').
  - apply (Hadd false); [done|]. intros _. eauto with evidence.
  - apply Hadd; rewrite ?negb_involutive; intros ?; [exists node|]; eauto with evidence.
Qed.

(** What a choice of node rests on. *)
Definition tier_choice (tier : string) (pools : list StoragePool) (n : string) (tr : trace op) : Prop :=
  ∃ p, p ∈ pools ∧ pool_in_tier tier p = true ∧ sp_Node (sp_spec p) = n ∧ node_up n tr ∧
    ∀ q, q ∈ pools → pool_in_tier tier q = true →
      node_dead (sp_Node (sp_spec q)) tr ∨ (pool_free q < pool_free p)%Z ∨
      (pool_free q = pool_free p ∧ str_ltb (sp_Node (sp_spec q)) n = false).
Definition choice_ok (pvc : PersistentVolumeClaim) (sc : StorageClass) (n : string) (tr : trace op) : Prop :=
  ∃ pools, (Ev (List KStoragePool None) (inr pools) : event op) ∈ tr ∧
    let pinned := mget (Annotations (pvc_meta pvc)) PoolAnnotation in
    if bool_decide (pinned = "")
    then tier_choice (or_default (mget (sc_Parameters sc) ParamTier)) pools n tr
    else ∃ p, p ∈ pools ∧ Name (sp_meta p) = pinned ∧ pool_available p = true ∧ sp_Node (sp_spec p) = n.

Lemma pinned_node_spec pinned pools n : pinned_node pinned pools = n → n ≠ "" →
  ∃ p, p ∈ pools ∧ Name (sp_meta p) = pinned ∧ pool_available p = true ∧ sp_Node (sp_spec p) = n.
Proof.
  induction pools as [|p pools IH]; cbn; [congruence|]. destruct (_ && _) eqn:E.
  - intros <- _. bools. exists p. set_solver.
  - intros Hn Hne. destruct (IH Hn Hne) as (q & ? & ?). exists q. set_solver.
Qed.

Lemma chosen_tier tier pools nodes n l tr :
  ready_inv (map fst (range (free_map tier pools))) nodes tr →
  sort_slice (free_lt (free_map tier pools)) nodes = n :: l → tier_choice tier pools n tr.
Proof.
  intros (_ & Hacc & Hdone) Hs. destruct (free_map_ok tier pools) as [Hm Ha].
  set (free := free_map tier pools) in *.
  destruct (sort_slice_head _ _ _ _ (free_lt_swo free) Hs) as [Hin Hmin].
  destruct (Hacc n Hin) as [Hn Hup]. apply list_elem_of_fmap in Hn as ([n' f] & -> & Hf). cbn in *.
  rewrite range_perm, elem_of_map_to_list in Hf. destruct (Hm n' f Hf) as (p & ? & ? & ? & Hpf).
  exists p. split_and!; [done..|]. intros q Hq Ht. destruct (Ha q Hq Ht) as (fq & Hfq & Hle).
  assert (sp_Node (sp_spec q) ∈ map fst (range free)) as Hqn.
  { apply list_elem_of_fmap. exists (sp_Node (sp_spec q), fq). split; [done|]. by rewrite range_perm, elem_of_map_to_list. }
  destruct (Hdone _ Hqn) as [Hqa|?]; [|auto]. right. specialize (Hmin _ Hqa). unfold free_lt in Hmin.
  rewrite Hf, Hfq in Hmin. cbn in Hmin. destruct (Z.eqb_spec fq f); cbn in Hmin; [|left; lia].
  destruct (decide (pool_free q = pool_free p)); [auto|left; lia].
Qed.
Lemma wp_pickNode pvc sc :
  wp (pickNode pvc sc) (λ tr r, Forall reads_only tr ∧ ∀ n, r = inr n → n ≠ "" → choice_ok pvc sc n tr).
Proof.
  unfold pickNode, choice_ok. cbn [wp bind call]. intros [e|pools]; cbn [wp bind].
  { split; [by repeat constructor|by intros ? [=]]. }
  destruct (bool_decide _) eqn:Ep; cbn [negb wp bind].
  2:{ split; [by repeat constructor|]. intros n [= <-] Hne. exists pools. split; [left|]. by apply pinned_node_spec. }
  apply wp_bind_2. eapply wp_mono.
  { apply (wp_for_state_inv ready_inv (λ tr _, Forall reads_only tr) _ _ [] _ [Ev (List KStoragePool None) (inr pools)]).
    - split_and!; [by repeat constructor|by intros ? ?%elem_of_nil|by intros ? ?%elem_of_nil].
    - intros done x acc tr _ HI. by apply wp_ready_step. }
  intros t [nodes|e] HI; cbn [wp]; [|split; [by rewrite app_nil_r|by intros ? [=]]].
  assert (Forall reads_only (Ev (List KStoragePool None) (inr pools) :: t)) as R by apply HI.
  destruct nodes as [|x nodes]; cbn [wp]; rewrite app_nil_r; (split; [exact R|]); intros n [= <-] Hne; [done|].
  exists pools. split; [left|].
  destruct (sort_slice _ (x :: nodes)) as [|y l] eqn:Es; [done|]. by eapply chosen_tier.
Qed.

Definition class_ok (pvc : PersistentVolumeClaim) (sc : StorageClass) (tr : trace op) : Prop :=
  ∃ name, pvc_StorageClassName pvc = Some name ∧ saw KStorageClass (NN "" name) (inr sc) tr ∧
    sc_Provisioner sc = Driver ∧ sc_VolumeBindingMode sc = Some WaitForFirstConsumer.
Lemma wp_wffcClass pvc :
  wp (wffcClass pvc) (λ tr r, Forall reads_only tr ∧ ∀ sc, r = inr (Some sc) → class_ok pvc sc tr).
Proof.
  unfold wffcClass, class_ok. wp_go; (split; [by repeat constructor|]); intros ? [=]; subst; bools.
  eexists. split_and!; eauto with evidence.
Qed.

(** A patch the binder may issue. *)
Definition patch_ok (req : NamespacedName) (old new : PersistentVolumeClaim) (tr : trace op) : Prop :=
  saw KPVC req (inr old) tr ∧ hostClaimPending old = true ∧
  ∃ sc n, class_ok old sc tr ∧ n ≠ "" ∧ choice_ok old sc n tr ∧
    new = with_annotation old selectedNodeAnnotation n.
Lemma choice_ok_sub pvc sc n t1 t2 : t1 ⊆ t2 → choice_ok pvc sc n t1 → choice_ok pvc sc n t2.
Proof.
  assert (∀ x t1 t2, t1 ⊆ t2 → node_dead x t1 → node_dead x t2) as Hdead.
  { intros x u1 u2 Hu (r & ? & ?). exists r. split; [by eapply saw_sub|done]. }
  intros Hs (pools & ? & Hc). exists pools. split; [set_solver|]. cbn zeta in *. destruct (bool_decide _); [|done].
  destruct Hc as (p & ? & ? & ? & (nd & ? & ?) & Hall). exists p. split_and!; try done.
  - exists nd. split; [by eapply saw_sub|done].
  - intros q ? ?. destruct (Hall q) as [?|?]; eauto.
Qed.
Lemma class_ok_sub pvc sc t1 t2 : t1 ⊆ t2 → class_ok pvc sc t1 → class_ok pvc sc t2.
Proof. intros Hs (name & ? & ? & ?). exists name. eauto using saw_sub. Qed.

Lemma reads_only_no_patch k e : reads_only e → ev_patch k e = None.
Proof. destruct e as [X o x]. by destruct o. Qed.
Lemma no_patch_reads req tr : Forall reads_only tr →
  ∀ e old new, e ∈ tr → ev_patch KPVC e = Some (old, new) → patch_ok req old new tr.
Proof.
  rewrite Forall_forall. intros R e old new He Hp. by rewrite (reads_only_no_patch KPVC e (R e He)) in Hp.
Qed.

Lemma wp_ClaimBinder_Reconcile req :
  wp (ClaimBinder_Reconcile req) (λ tr _, ∀ e old new, e ∈ tr →
    ev_patch KPVC e = Some (old, new) → patch_ok req old new tr).
Proof.
  unfold ClaimBinder_Reconcile. cbn [wp bind call]. intros [e|pvc]; cbn [wp bind].
  { apply no_patch_reads. by repeat constructor. }
  wp_step; [cbn [wp]; apply no_patch_reads; by repeat constructor|]. bools. rename Heqb into Hpend.
  apply wp_bind_2. eapply wp_mono; [apply wp_wffcClass|]. intros t1 c [R1 Hc].
  destruct c as [e|[sc|]]; cbn [wp]; rewrite ?app_nil_r; try (apply no_patch_reads; by constructor).
  specialize (Hc sc eq_refl). apply wp_bind_2. eapply wp_mono; [apply wp_pickNode|]. intros t2 r [R2 Hr].
  assert (Forall reads_only (Ev (Get KPVC req) (inr pvc) :: t1 ++ t2)) as R.
  { constructor; [done|]. by apply Forall_app. }
  destruct r as [e|n]; cbn [wp]; [rewrite app_nil_r; by apply no_patch_reads|].
  wp_step; cbn [wp bind]; [rewrite app_nil_r; by apply no_patch_reads|]. bools.
  assert (∀ u, (λ tr, ∀ e old new, e ∈ tr → ev_patch KPVC e = Some (old, new) → patch_ok req old new tr)
    (Ev (Get KPVC req) (inr pvc) :: t1 ++ t2 ++ [Ev (PatchObj KPVC pvc (with_annotation pvc selectedNodeAnnotation n)) u])) as Hfin.
  { intros u e old new He Hp. rewrite Forall_forall in R.
    assert (e ∈ Ev (Get KPVC req) (inr pvc) :: t1 ++ t2 ∨
      e = Ev (PatchObj KPVC pvc (with_annotation pvc selectedNodeAnnotation n)) u) as [He'| ->] by set_solver.
    { by rewrite (reads_only_no_patch KPVC e (R e He')) in Hp. }
    cbn in Hp. rewrite !(as_kind_refl KPVC) in Hp. cbn in Hp. simplify_eq.
    split_and!; [eauto with evidence|done|]. exists sc, n. split_and!; [|done| |done].
    - eapply class_ok_sub; [|exact Hc]. set_solver.
    - eapply choice_ok_sub; [|by apply Hr]. set_solver. }
  intros u. destruct u; exact (Hfin _).
Qed.
End ClaimBinder.

(** C37: Host claims are bound soundly.  Every patch the binder issues is of the
    claim it was called for, which it read as a pending host claim of an r-drbd
    WaitForFirstConsumer class; it changes only the selected-node annotation;
    and the node is that of the Available pool the claim pins, or, for an
    unpinned claim, a node the pass saw Ready holding an Available pool of the
    class's tier such that every other such pool sits on a node seen down, or
    has less free space, or as much on a node not earlier in name order: the
    choice does not depend on map order or on the sorting algorithm. *)
Theorem binder_patch_sound `{K8sMeta} `{MapRange} `{SliceSort} req tr r e old new :
  runs (ClaimBinder_Reconcile req) tr r → e ∈ tr → ev_patch KPVC e = Some (old, new) →
  patch_ok req old new tr.
Proof. intros Hr. exact (wp_runs _ _ _ _ (wp_ClaimBinder_Reconcile req) Hr e old new). Qed.

(** ** Witness *)
#[local] Existing Instance RefMeta.meta.
#[local] Existing Instance map_range.
#[local] Existing Instance insertion_slice_sort.
Definition demo_claim : PersistentVolumeClaim :=
  {| pvc_meta := {| Name := "c"; Namespace := "ns"; Generation := 1; ResourceVersion := "1";
       DeletionTimestamp := None; Finalizers := []; Annotations := {[ConsumerAnnotation := ConsumerHost]}; Labels := ∅ |};
     pvc_VolumeName := ""; pvc_StorageClassName := Some LocalClass |}.
Definition demo_class : StorageClass :=
  {| sc_meta := demo_meta LocalClass [] None; sc_Provisioner := Driver; sc_Parameters := ∅;
     sc_ReclaimPolicy := None; sc_MountOptions := []; sc_AllowVolumeExpansion := None;
     sc_VolumeBindingMode := Some WaitForFirstConsumer |}.
Definition demo_binder : env op unit :=
  demo_env cmd_ok
    (λ k _, match k return error + obj k with
            | KPVC => inr demo_claim
            | KStorageClass => inr demo_class
            | KNode => inr {| n_meta := demo_meta "n1" [] None; n_Conditions := [{| nc_Type := "Ready"; nc_Status := "True" |}] |}
            | _ => inl (Err "not found" KNotFound)
            end)
    (λ k, match k return list (obj k) with
          | KStoragePool => [demo_pool [] None [demo_cond ConditionAvailable ConditionTrue]]
          | _ => []
          end).
Lemma binder_patch_sound_witness :
  patch_ok (NN "ns" "c") demo_claim (with_annotation demo_claim selectedNodeAnnotation "n1")
    (run demo_binder (ClaimBinder_Reconcile (NN "ns" "c")) tt).1.2.
Proof.
  apply (binder_patch_sound (NN "ns" "c") _ _
    (Ev (PatchObj KPVC demo_claim (with_annotation demo_claim selectedNodeAnnotation "n1")) None) _ _
    (run_runs demo_binder (ClaimBinder_Reconcile (NN "ns" "c")) tt)).
  - apply list_elem_of_In. vm_compute. tauto.
  - cbn. rewrite !(as_kind_refl KPVC). reflexivity.
Defined.
