(* ===== verification/TierClassController.v ===== *)
(** * The tier classes controller

    operator/internal/controller/tier_classes.go: a local and a replicated
    StorageClass for every tier a StoragePool names, cloned from the shipped
    default-tier classes. *)

From S2P Require Import Prelude GoStrings Prog ApiTypes Effects Demo Nodes.

(** The set of non-default tiers, as the Go map [tiers]. *)
Definition tier_named (p : StoragePool) : bool :=
  negb (bool_decide (sp_Tier (sp_spec p) = "")) && negb (bool_decide (sp_Tier (sp_spec p) = DefaultTier)).
Definition tiers_of (pools : list StoragePool) : gmap string bool :=
  foldl (λ m p, if tier_named p then <[sp_Tier (sp_spec p) := true]> m else m) ∅ pools.

Definition clone_class (base : StorageClass) (name tier : string) : StorageClass :=
  {| sc_meta := {| Name := name; Namespace := ""; Generation := 0; ResourceVersion := "";
       DeletionTimestamp := None; Finalizers := []; Annotations := ∅; Labels := {[TierClassLabel := tier]} |};
     sc_Provisioner := sc_Provisioner base; sc_Parameters := <[ParamTier := tier]> (sc_Parameters base);
     sc_ReclaimPolicy := sc_ReclaimPolicy base; sc_MountOptions := sc_MountOptions base;
     sc_AllowVolumeExpansion := sc_AllowVolumeExpansion base; sc_VolumeBindingMode := sc_VolumeBindingMode base |}.

Definition ensureClone (from name tier : string) : io (option error) :=
  let! g := call (Get KStorageClass (NN "" from)) in
  match g with
  | inl e => Ret (Some (wrapf ("base class " +:+ from +:+ ": ") e))
  | inr base =>
      let! c := call (Create KStorageClass (clone_class base name tier)) in
      match c with
      | inl e => if IsAlreadyExists (Some e) then Ret None else Ret (Some (wrapf ("create class " +:+ name +:+ ": ") e))
      | inr _ => Ret None
      end
  end.

Definition ensure_tier (tier : string) : io (option error) :=
  let '(local, replicated) := TierClasses tier in
  ensureClone LocalClass local tier ;!; ensureClone ReplicatedClass replicated tier.

Section TierClasses.
Context `{MapRange}.

(** A class whose tier no pool names any more goes. *)
Definition prune_class (tiers : gmap string bool) (c : StorageClass) : io (option error) :=
  if negb (default false (tiers !! mget (Labels (sc_meta c)) TierClassLabel)) then
    let! e := call (Delete KStorageClass c) in
    match IgnoreNotFound e with Some _ => Ret e | None => Ret None end
  else Ret None.

Definition TierClasses_Reconcile : io reconcile :=
  let! l := call (List KStoragePool None) in
  match l with
  | inl e => Ret (done_err (Some e))
  | inr pools =>
      let tiers := tiers_of pools in
      let! e1 := for_err (map fst (range tiers)) ensure_tier in
      match e1 with
      | Some e => Ret (done_err (Some e))
      | None =>
          let! lc := call (ListLabelled KStorageClass TierClassLabel) in
          match lc with
          | inl e => Ret (done_err (Some e))
          | inr classes =>
              let! e2 := for_err (classes : list StorageClass) (prune_class tiers) in
              match e2 with
              | Some e => Ret (done_err (Some e))
              | None => Ret done_ok
              end
          end
      end
  end.
End TierClasses.

(** ** Facts *)

Lemma tiers_of_lookup pools tier :
  tiers_of pools !! tier = Some true ↔ ∃ p, p ∈ pools ∧ tier_named p = true ∧ sp_Tier (sp_spec p) = tier.
Proof.
  unfold tiers_of. induction pools as [|p pools IH] using rev_ind; cbn.
  { rewrite lookup_empty. split; [done|]. by intros (? & ?%elem_of_nil & _). }
  rewrite foldl_app. cbn. setoid_rewrite elem_of_app. setoid_rewrite list_elem_of_singleton.
  destruct (tier_named p) eqn:E; [rewrite lookup_insert_Some|]; rewrite IH; split.
  - intros [[<- _]|[_ (q & ? & ?)]]; eauto 6.
  - intros (q & [?| ->] & ? & <-); [|auto].
    destruct (decide (sp_Tier (sp_spec p) = sp_Tier (sp_spec q))); [auto|right; eauto].
  - intros (q & ? & ?). eauto.
  - intros (q & [?| ->] & ? & ?); [eauto|congruence].
Qed.
Lemma tiers_of_true pools tier b : tiers_of pools !! tier = Some b → b = true.
Proof.
  unfold tiers_of. induction pools as [|p pools IH] using rev_ind; cbn; [by rewrite lookup_empty|].
  rewrite foldl_app. cbn. destruct (tier_named p); [|done]. rewrite lookup_insert_Some. naive_solver.
Qed.

Section TierFacts.
Context `{MapRange}.
Context (pools : list StoragePool).

Definition wanted_tier (tier : string) : Prop :=
  ∃ p, p ∈ pools ∧ tier_named p = true ∧ sp_Tier (sp_spec p) = tier.
Definition class_pair (tier from name : string) : Prop :=
  (from, name) = (LocalClass, (TierClasses tier).1) ∨ (from, name) = (ReplicatedClass, (TierClasses tier).2).

(** What a pass over these pools may do to the classes. *)
Inductive may_class (tr : trace op) (e : event op) : Prop :=
  | class_read : reads_only e → may_class tr e
  | class_create base from name tier : wanted_tier tier → class_pair tier from name →
      saw KStorageClass (NN "" from) (inr base) tr →
      ev_create KStorageClass e = Some (clone_class base name tier) → may_class tr e
  | class_delete c classes : (Ev (ListLabelled KStorageClass TierClassLabel) (inr classes) : event op) ∈ tr →
      c ∈ (classes : list StorageClass) → ¬ wanted_tier (mget (Labels (sc_meta c)) TierClassLabel) →
      ev_delete KStorageClass e = Some c → may_class tr e.

(** The class exists: created now, or already there. *)
Definition class_there (name : string) (tr : trace op) : Prop :=
  ∃ c r, (Ev (Create KStorageClass c) r : event op) ∈ tr ∧ Name (sc_meta c) = name ∧
    match r with inl e => ekind e = KAlreadyExists | inr _ => True end.
Definition tier_there (tier : string) (tr : trace op) : Prop :=
  class_there (TierClasses tier).1 tr ∧ class_there (TierClasses tier).2 tr.

Lemma may_class_sub t1 t2 e : t1 ⊆ t2 → may_class t1 e → may_class t2 e.
Proof.
  intros Hs [?|base from name tier ? ? ? ?|c classes ? ? ? ?].
  - by apply class_read.
  - eapply class_create; eauto using saw_sub.
  - eapply class_delete; eauto.
Qed.
Lemma may_class_mono t1 t2 e : may_class t2 e → may_class (t1 ++ t2) e.
Proof. apply may_class_sub. set_solver. Qed.
Lemma class_there_sub name t1 t2 : t1 ⊆ t2 → class_there name t1 → class_there name t2.
Proof. intros Hs (c & r & ? & ?). exists c, r. set_solver. Qed.
Lemma tier_there_app tier t1 t2 : tier_there tier t1 ∨ tier_there tier t2 → tier_there tier (t1 ++ t2).
Proof. intros [[? ?]|[? ?]]; (split; (eapply class_there_sub; [|done]); set_solver). Qed.

Lemma wp_ensureClone from name tier : wanted_tier tier → class_pair tier from name →
  wp (ensureClone from name tier) (λ tr r, lawful may_class tr ∧ (r = None → class_there name tr)).
Proof.
  intros Hw Hp. unfold ensureClone. wp_go; (split; [|intros ?; simplify_eq]).
  all: try (lawful_go; [by apply class_read|]; eapply class_create; [done|done|by eauto with evidence|];
            cbn; apply (as_kind_refl KStorageClass)).
  - lawful_go. by apply class_read.
  - eexists _, _. split; [right; left|]. split; [done|]. by apply bool_decide_eq_true_1 in Heqb.
  - eexists _, _. split; [right; left|]. done.
Qed.
Lemma wp_ensure_tier tier : wanted_tier tier →
  wp (ensure_tier tier) (λ tr r, lawful may_class tr ∧ (r = None → tier_there tier tr)).
Proof.
  intros Hw. unfold ensure_tier, tier_there. destruct (TierClasses tier) as [l r] eqn:E.
  unfold seq_err. apply wp_bind_2. eapply wp_mono; [apply (wp_ensureClone _ _ tier); [done|left; by rewrite E]|].
  intros t1 [e|] [L1 D1]; cbn [wp]; [by rewrite app_nil_r|].
  eapply wp_mono; [apply (wp_ensureClone _ _ tier); [done|right; by rewrite E]|]. intros t2 r2 [L2 D2].
  split; [by apply lawful_app; [apply may_class_mono|..]|]. intros ->.
  split; (eapply class_there_sub; [|by eauto]); set_solver.
Qed.

Lemma wp_prune_class classes c base :
  (Ev (ListLabelled KStorageClass TierClassLabel) (inr classes) : event op) ∈ base →
  c ∈ (classes : list StorageClass) →
  wp (prune_class (tiers_of pools) c) (λ tr _, lawful (λ t, may_class (base ++ t)) tr).
Proof.
  intros Hb Hc. unfold prune_class. wp_step; [|apply lawful_nil]. bools.
  assert (∀ u, may_class base (Ev (Delete KStorageClass c) u)) as Hd.
  { intros u. eapply class_delete; [done|done| |apply (as_kind_refl KStorageClass)].
    intros Hw%tiers_of_lookup. by rewrite Hw in Heqb. }
  wp_go; (apply lawful_cons; [|apply lawful_nil]); eapply may_class_sub; [|apply Hd| |apply Hd]; set_solver.
Qed.

Definition tier_pass (tr : trace op) (r : reconcile) : Prop :=
  lawful may_class tr ∧ (r.2 = None → ∀ tier, wanted_tier tier → tier_there tier tr).
End TierFacts.

Lemma wp_TierClasses_Reconcile `{MapRange} :
  wp TierClasses_Reconcile (λ tr r, (∃ e tr0, tr = Ev (List KStoragePool None) (inl e) :: tr0 ∧ tr0 = []) ∨
    ∃ pools tr0, tr = Ev (List KStoragePool None) (inr pools) :: tr0 ∧ tier_pass pools tr0 r).
Proof.
  unfold TierClasses_Reconcile. cbn [wp bind call]. intros [e|pools]; cbn [wp bind]; [left; eauto|].
  apply (wp_mono _ (tier_pass pools)); [|intros tr r ?; right; eauto].
  assert (∀ tier, tier ∈ map fst (range (tiers_of pools)) ↔ wanted_tier pools tier) as Hdom.
  { intros tier. unfold wanted_tier. rewrite <- tiers_of_lookup, list_elem_of_fmap. split.
    - intros ([t b] & -> & Hb). rewrite range_perm, elem_of_map_to_list in Hb. cbn.
      by rewrite <- (tiers_of_true _ _ _ Hb).
    - intros Ht. exists (tier, true). split; [done|]. by rewrite range_perm, elem_of_map_to_list. }
  apply wp_bind_2. eapply wp_mono.
  { apply wp_and.
    - apply (wp_for_err (lawful (may_class pools)) (lawful_nil _) (lawful_app _ (may_class_mono pools))).
      intros tier Ht. eapply wp_mono; [apply wp_ensure_tier, Hdom, Ht|]. by intros ?? [? _].
    - apply (for_err_phase (λ _ _, True) tier_there); [|apply tier_there_app].
      intros tier Ht. eapply wp_mono; [apply (wp_ensure_tier pools), Hdom, Ht|]. by intros ?? [_ ?]. }
  intros t1 [e|] [L1 [_ D1]]; cbn [wp]; [split; [by rewrite app_nil_r|done]|]. specialize (D1 eq_refl).
  assert (∀ tier t, wanted_tier pools tier → tier_there tier (t1 ++ t)) as Dall.
  { intros tier t Hw. apply tier_there_app. left. by apply D1, Hdom. }
  assert (∀ x, lawful (may_class pools) (t1 ++ [Ev (ListLabelled KStorageClass TierClassLabel) x])) as L2.
  { intros x. apply lawful_app; [apply may_class_mono|done|]. lawful_go. by apply class_read. }
  intros [e|classes]; cbn [wp bind]; [by split; [|auto]|].
  apply wp_bind_2. eapply wp_mono.
  { apply (wp_for_err (lawful (λ t, may_class pools ((t1 ++ [Ev (ListLabelled KStorageClass TierClassLabel) (inr classes)]) ++ t)))).
    - apply lawful_nil.
    - apply lawful_app. intros k1 k2 e. apply may_class_sub. set_solver.
    - intros c Hc. eapply wp_prune_class; [|done]. set_solver. }
  intros t2 r2 L3. apply (lawful_app_dep _ _ _ (L2 _)) in L3. rewrite <- app_assoc in L3.
  destruct r2; cbn [wp]; rewrite app_nil_r; split; auto.
Qed.

(** C38: Tier classes follow the pools.  A pass that could list the pools only
    creates clones of the shipped local and replicated classes, read in the
    same pass, named for and labelled with a non-default tier some listed pool
    names; it deletes only labelled classes whose tier no listed pool names;
    and when it succeeds both classes of every such tier exist. *)
Theorem tier_classes_sound `{MapRange} tr r :
  runs TierClasses_Reconcile tr r →
  (∃ e, tr = [Ev (List KStoragePool None) (inl e)]) ∨
  ∃ pools tr0, tr = Ev (List KStoragePool None) (inr pools) :: tr0 ∧
    lawful (may_class pools) tr0 ∧ (r.2 = None → ∀ tier, wanted_tier pools tier → tier_there tier tr0).
Proof.
  intros Hr. destruct (wp_runs _ _ _ _ wp_TierClasses_Reconcile Hr) as [(e & tr0 & -> & ->)|(pools & tr0 & -> & ?)]; eauto.
Qed.

(** ** Witness: one pool of tier fast, one stale class *)
#[local] Existing Instance map_range.
Definition demo_fast_pool : StoragePool :=
  {| sp_meta := demo_meta "tank" [] None;
     sp_spec := {| sp_Node := "n1"; sp_Devices := ["/dev/sdb"]; sp_Tier := "fast"; sp_Raid := "none"; sp_Thin := None |};
     sp_status := sp_status (demo_pool [] None []) |}.
Definition demo_base : StorageClass :=
  {| sc_meta := demo_meta LocalClass [] None; sc_Provisioner := Driver; sc_Parameters := ∅;
     sc_ReclaimPolicy := None; sc_MountOptions := []; sc_AllowVolumeExpansion := None; sc_VolumeBindingMode := None |}.
Definition demo_tiers : env op unit :=
  demo_env cmd_ok
    (λ k _, match k return error + obj k with
            | KStorageClass => inr demo_base
            | _ => inl (Err "not found" KNotFound)
            end)
    (λ k, match k return list (obj k) with
          | KStoragePool => [demo_fast_pool]
          | KStorageClass => [clone_class demo_base "stornas-local-slow" "slow"]
          | _ => []
          end).
Abbreviation demo_tier_run := (run demo_tiers TierClasses_Reconcile tt).
Lemma tier_classes_sound_witness :
  (∃ e, demo_tier_run.1.2 = [Ev (List KStoragePool None) (inl e)]) ∨
  ∃ pools tr0, demo_tier_run.1.2 = Ev (List KStoragePool None) (inr pools) :: tr0 ∧
    lawful (may_class pools) tr0 ∧ (demo_tier_run.1.1.2 = None → ∀ tier, wanted_tier pools tier → tier_there tier tr0).
Proof. exact (tier_classes_sound _ _ (run_runs demo_tiers TierClasses_Reconcile tt)). Defined.
Example demo_tier_ok : bool_decide (demo_tier_run.1.1.2 = None) = true.
Proof. vm_compute. reflexivity. Qed.
