(* ===== verification/LocalUserController.v ===== *)
(** * The LocalUser controller

    operator/internal/controller/localuser_controller.go: validates the
    password Secret a user names and publishes its version, so that the node
    agents re-apply the password on rotation. *)

From S2P Require Import Prelude GoStrings Prog ApiTypes Effects Demo Nodes.

Section LocalUserController.
Context `{K8sMeta}.

(** The status written over [user]. *)
Definition user_status (user : LocalUser) (status reason msg version : string) : LocalUser :=
  {| lu_meta := lu_meta user; lu_Role := lu_Role user; lu_SMB := lu_SMB user;
     lu_PasswordSecretRef := lu_PasswordSecretRef user;
     lu_Conditions := SetStatusCondition (lu_Conditions user)
       {| c_Type := ConditionAvailable; c_Status := status; c_Reason := reason; c_Message := msg;
          c_ObservedGeneration := Generation (lu_meta user) |};
     lu_PasswordSecretVersion := version |}.
Definition user_write (user : LocalUser) : io reconcile :=
  let! e := call (StatusUpdate KLocalUser user) in
  match e with
  | Some _ => if IsConflict e then Ret done_ok else Ret (done_err e)
  | None => Ret done_ok
  end.

Definition LocalUser_Reconcile (req : NamespacedName) : io reconcile :=
  let! g := call (Get KLocalUser req) in
  match g with
  | inl e => Ret (done_err (IgnoreNotFound (Some e)))
  | inr user =>
      let ref := lu_PasswordSecretRef user in
      let! s := call (Get KSecret (NN (Namespace (lu_meta user)) ref)) in
      match s with
      | inl e =>
          if IsNotFound (Some e)
          then user_write (user_status user ConditionFalse ReasonInvalidSpec
                 ("password secret " +:+ ref +:+ " not found") "")
          else Ret (done_err (Some e))
      | inr secret =>
          let '(_, usable) := LocalUserPassword (sec_Data secret) in
          if negb usable
          then user_write (user_status user ConditionFalse ReasonInvalidSpec
                 ("password secret " +:+ ref +:+ " has no password key") "")
          else user_write (user_status user ConditionTrue ReasonReady "" (ResourceVersion (sec_meta secret)))
      end
  end.

Definition secretUsers (secret : ObjectMeta) : io (list NamespacedName) :=
  let! l := call (List KLocalUser (Some (Namespace secret))) in
  match l with
  | inl _ => Ret []
  | inr us => Ret (map (λ u, key_of (lu_meta u))
      (filter (λ u, lu_PasswordSecretRef u = Name secret) (us : list LocalUser)))
  end.

Definition user_true (u : LocalUser) : bool := IsStatusConditionTrue (lu_Conditions u) ConditionAvailable.
Lemma user_true_status user status reason msg version :
  user_true (user_status user status reason msg version) = bool_decide (status = ConditionTrue).
Proof. apply (is_true_set_eq _ {| c_Type := ConditionAvailable; c_Status := status |}). Qed.

(** What a user's status rests on: usable exactly when the Secret read in
    this pass holds a password, whose version is then published. *)
Definition user_ok (user p : LocalUser) (tr : trace op) : Prop :=
  lu_meta p = lu_meta user ∧ lu_Role p = lu_Role user ∧ lu_PasswordSecretRef p = lu_PasswordSecretRef user ∧
  ∃ r, saw KSecret (NN (Namespace (lu_meta user)) (lu_PasswordSecretRef user)) r tr ∧
    match r with
    | inl e => ekind e = KNotFound ∧ user_true p = false ∧ lu_PasswordSecretVersion p = ""
    | inr secret =>
        user_true p = (LocalUserPassword (sec_Data secret)).2 ∧
        lu_PasswordSecretVersion p = (if user_true p then ResourceVersion (sec_meta secret) else "")
    end.

Lemma wp_LocalUser_Reconcile req :
  wp (LocalUser_Reconcile req) (λ tr _, ∀ e p, e ∈ tr → ev_status KLocalUser e = Some p →
    ∃ user, saw KLocalUser req (inr user) tr ∧ user_ok user p tr).
Proof.
  unfold LocalUser_Reconcile, user_write.
  cbn [wp bind call]. intros [e|user]; cbn [wp bind]; [intros; split_in; ev_simpl|].
  intros [e|secret]; cbn [wp bind].
  - wp_go; intros e' p' He Hev; split_in; ev_simpl; exists user; (split; [eauto with evidence|]);
      (split_and!; [done..|]); exists (inl e); (split; [eauto with evidence|]);
      (split; [by apply bool_decide_eq_true_1 in Heqb|]); by rewrite user_true_status.
  - destruct (LocalUserPassword (sec_Data secret)) as [pw usable] eqn:E.
    wp_go; intros e' p' He Hev; split_in; ev_simpl; exists user; (split; [eauto with evidence|]);
      (split_and!; [done..|]); exists (inr secret); (split; [eauto with evidence|]);
      rewrite user_true_status, E; bools; by subst.
Qed.
End LocalUserController.

(** A user is usable exactly when its Secret is.  Every status the
    controller writes follows a read of the Secret the user names: absent means
    not Available, present means Available exactly when it holds a password,
    and a Secret version is published only for an Available user, the one read. *)
Theorem user_status_sound `{K8sMeta} req tr r e p :
  runs (LocalUser_Reconcile req) tr r → e ∈ tr → ev_status KLocalUser e = Some p →
  ∃ user, saw KLocalUser req (inr user) tr ∧ user_ok user p tr.
Proof. intros Hr. exact (wp_runs _ _ _ _ (wp_LocalUser_Reconcile req) Hr e p). Qed.

(** ** Witness *)
#[local] Existing Instance RefMeta.meta.
Definition demo_user : LocalUser :=
  {| lu_meta := demo_meta "u" [] None; lu_Role := "admin"; lu_SMB := true; lu_PasswordSecretRef := "pw";
     lu_Conditions := []; lu_PasswordSecretVersion := "" |}.
Definition demo_users : env op unit :=
  demo_env cmd_ok
    (λ k _, match k return error + obj k with
            | KLocalUser => inr demo_user
            | KSecret => inr {| sec_meta := demo_meta "pw" [] None; sec_Data := {["password" := "x"]} |}
            | _ => inl (Err "not found" KNotFound)
            end) list_none.
Lemma user_status_sound_witness :
  ∃ user, saw KLocalUser (NN "" "u") (inr user) (run demo_users (LocalUser_Reconcile (NN "" "u")) tt).1.2 ∧
    user_ok user (user_status demo_user ConditionTrue ReasonReady "" "1")
      (run demo_users (LocalUser_Reconcile (NN "" "u")) tt).1.2.
Proof.
  apply (user_status_sound (NN "" "u") _ _
    (Ev (StatusUpdate KLocalUser (user_status demo_user ConditionTrue ReasonReady "" "1")) None) _
    (run_runs demo_users (LocalUser_Reconcile (NN "" "u")) tt)).
  - apply list_elem_of_In. vm_compute. tauto.
  - exact (as_kind_refl KLocalUser _).
Defined.
