(* ===== verification/Lvm.v ===== *)
(** * internal/lvm/lvm.go: the host LVM tools

    One definition per method of [LVM].  [encoding/json] and
    [strconv.ParseFloat] enter as the class [HostParse]: every statement
    holds for every decoder, and the parsing code around them is modelled. *)

From S2P Require Import Prelude GoStrings Prog ApiTypes Effects.

Abbreviation row := (gmap string string).

(** [json.Unmarshal] into [lvmReport] gives, per report entry, its [vg] and
    [pv] rows; into the [lvs] report its [lv] rows; into [lsblkReport] and
    friends in the other packages.  [float64] values are kept abstract with
    the two operations the code applies to them. *)
Class HostParse := {
  json_lvmReport : string → error + list (list row * list row);
  json_lvReport : string → error + list (list row);
  float64 : Type;
  ParseFloat : string → option float64;
  float_ge_100 : float64 → bool;
  float_int32 : float64 → Z;
}.

Record VGInfo_t := { SizeBytes : Z; FreeBytes : Z }.
Record PV := { pv_Name : string; pv_Missing : bool; pv_UsedBytes : Z }.

(** [_, err := l.run.Run(...); return err] and [return err == nil]. *)
Definition run_err (name : string) (args : list string) : io (option error) :=
  let! r := call (Run name args) in Ret r.2.
Definition run_ok (name : string) (args : list string) : io bool :=
  let! r := call (Run name args) in Ret (match r.2 with None => true | Some _ => false end).

Definition IsPV (dev : string) : io bool := run_ok "pvs" [dev].
Definition CreatePV (dev : string) : io (option error) := run_err "pvcreate" [dev].
Definition VGExists (vg : string) : io bool := run_ok "vgs" [vg].
Definition CreateVG (vg : string) (devices : list string) : io (option error) :=
  run_err "vgcreate" (vg :: devices).

Definition IsThinPool (vg lv : string) : io bool :=
  let! r := call (Run "lvs" ["--noheadings"; "--options"; "lv_attr"; vg +:+ "/" +:+ lv]) in
  Ret (match r.2 with None => HasPrefix (TrimSpace r.1) "t" | Some _ => false end).

Definition CreateThinPool (vg lv : string) : io (option error) :=
  run_err "lvcreate" ["--type"; "thin-pool"; "--extents"; "90%VG"; "--name"; lv; vg].

Definition IsBlockDev (dev : string) : io bool := run_ok "test" ["-b"; dev].

Definition ResolvePath (dev : string) : io string :=
  let! r := call (Run "readlink" ["-f"; dev]) in
  match r.2 with
  | Some _ => Ret dev
  | None => let t := TrimSpace r.1 in Ret (if bool_decide (t = "") then dev else t)
  end.

(** The map [ResolvePaths] returns from the tool's lines. *)
Definition identity_paths (devs : list string) : gmap string string :=
  foldl (λ m d, <[d := d]> m) ∅ devs.
Fixpoint resolve_lines (devs lines : list string) (m : gmap string string) : gmap string string :=
  match devs, lines with
  | d :: devs', l :: lines' =>
      let r := TrimSpace l in
      resolve_lines devs' lines' (if bool_decide (r = "") then m else <[d := r]> m)
  | _, _ => m
  end.
Definition resolved_from (devs : list string) (out : string) (err : option error) : gmap string string :=
  match err with
  | Some _ => identity_paths devs
  | None =>
      let lines := SplitLines (TrimRightNl out) in
      if bool_decide (length lines ≠ length devs) then identity_paths devs
      else resolve_lines devs lines (identity_paths devs)
  end.
Definition ResolvePaths (devs : list string) : io (gmap string string) :=
  match devs with
  | [] => Ret (identity_paths devs)
  | _ =>
      let! r := call (Run "readlink" ("-m" :: devs)) in
      Ret (resolved_from devs r.1 r.2)
  end.

Definition VGExtend (vg dev : string) : io (option error) := run_err "vgextend" [vg; dev].
Definition VGReduce (vg dev : string) : io (option error) := run_err "vgreduce" [vg; dev].
Definition PVRemove (dev : string) : io (option error) := run_err "pvremove" [dev].

Definition VGRemove (vg : string) : io (option error) :=
  let! r := call (Run "vgremove" ["-ff"; "-y"; vg]) in
  match r.2 with
  | Some e => if Contains r.1 "not found" then Ret None else Ret (Some e)
  | None => Ret None
  end.

Definition PVWipe (dev : string) : io (option error) :=
  let! r := call (Run "pvremove" ["-ff"; "-y"; dev]) in
  match r.2 with
  | Some e =>
      if Contains r.1 "o PV label" || Contains r.1 "not found" then Ret None else Ret (Some e)
  | None => Ret None
  end.

(** [None] is the second result false; [Some vg] the VG name, possibly "". *)
Definition PVVG (dev : string) : io (option string) :=
  let! r := call (Run "pvs" ["--noheadings"; "--options"; "vg_name"; dev]) in
  match r.2 with
  | Some _ => Ret None
  | None => Ret (Some (TrimSpace r.1))
  end.

Definition PVMove (dev dst : string) : io (option error) :=
  let args := ["--background"; dev] ++ (if bool_decide (dst = "") then [] else [dst]) in
  let! r := call (Run "pvmove" args) in
  match r.2 with
  | Some e => if Contains r.1 "in progress" then Ret None else Ret (Some e)
  | None => Ret None
  end.

Section Reports.
Context `{HostParse}.

Definition VGInfo (vg : string) : io (error + VGInfo_t) :=
  let! r := call (Run "vgs" ["--reportformat"; "json"; "--units"; "b"; "--nosuffix";
                             "--options"; "vg_size,vg_free"; vg]) in
  match r.2 with
  | Some e => Ret (inl e)
  | None =>
      match json_lvmReport r.1 with
      | inl e => Ret (inl (wrapf ("parse vgs report for " +:+ vg +:+ ": ") e))
      | inr rep =>
          match concat (fst <$> rep) with
          | [] => Ret (inl (errorf ("vg " +:+ vg +:+ " not in vgs report")))
          | row0 :: _ =>
              match ParseInt (mget row0 "vg_size") with
              | (_, Some e) => Ret (inl (wrapf ("parse vg_size " +:+ mget row0 "vg_size" +:+ ": ") e))
              | (size, None) =>
                  match ParseInt (mget row0 "vg_free") with
                  | (_, Some e) => Ret (inl (wrapf ("parse vg_free " +:+ mget row0 "vg_free" +:+ ": ") e))
                  | (free, None) => Ret (inr {| SizeBytes := size; FreeBytes := free |})
                  end
              end
          end
      end
  end.

Definition pv_of_row (r : row) : PV :=
  {| pv_Name := mget r "pv_name"; pv_Missing := negb (bool_decide (mget r "pv_missing" = ""));
     pv_UsedBytes := (ParseInt (mget r "pv_used")).1 |}.
Definition PVs (vg : string) : io (error + list PV) :=
  let! r := call (Run "pvs" ["--reportformat"; "json"; "--units"; "b"; "--nosuffix";
                             "--options"; "pv_name,pv_missing,pv_used"; "--select"; "vg_name=" +:+ vg]) in
  match r.2 with
  | Some e => Ret (inl e)
  | None =>
      match json_lvmReport r.1 with
      | inl e => Ret (inl (wrapf ("parse pvs report for " +:+ vg +:+ ": ") e))
      | inr rep => Ret (inr (pv_of_row <$> concat (snd <$> rep)))
      end
  end.

(** The [consider] closure and the loop over the rows. *)
Definition consider (lowest : option Z) (s : string) : option Z :=
  match ParseFloat s with
  | None => lowest
  | Some f =>
      if float_ge_100 f then lowest
      else
        let p := float_int32 f in
        match lowest with
        | None => Some p
        | Some l => if (p <? l)%Z then Some p else lowest
        end
  end.
Definition lowest_sync (rows : list row) : option Z :=
  foldl (λ lo r, consider (consider lo (mget r "sync_percent")) (mget r "copy_percent")) None rows.
Definition SyncPercent (vg : string) : io (error + option Z) :=
  let! r := call (Run "lvs" ["--reportformat"; "json"; "-a"; "--options";
                             "lv_name,sync_percent,copy_percent"; vg]) in
  match r.2 with
  | Some e => Ret (inl e)
  | None =>
      match json_lvReport r.1 with
      | inl e => Ret (inl (wrapf ("parse lvs report for " +:+ vg +:+ ": ") e))
      | inr rep => Ret (inr (lowest_sync (concat rep)))
      end
  end.

(** ** SyncPercent reports the lowest running copy. *)

(** The percentages the rows show, below 100. *)
Definition percents (rows : list row) : list Z :=
  r ← rows; s ← [mget r "sync_percent"; mget r "copy_percent"];
  match ParseFloat s with
  | Some f => if float_ge_100 f then [] else [float_int32 f]
  | None => []
  end.

Lemma consider_spec lo s :
  consider lo s =
  match (match ParseFloat s with Some f => if float_ge_100 f then [] else [float_int32 f] | None => [] end), lo with
  | [], _ => lo
  | p :: _, None => Some p
  | p :: _, Some l => Some (Z.min p l)
  end.
Proof.
  unfold consider. destruct (ParseFloat s) as [f|]; [|done].
  destruct (float_ge_100 f); [done|]. destruct lo as [l|]; [|done].
  destruct (float_int32 f <? l)%Z eqn:E; f_equal; lia.
Qed.

Lemma lowest_sync_acc lo rows :
  foldl (λ lo r, consider (consider lo (mget r "sync_percent")) (mget r "copy_percent")) lo rows
  = foldl (λ lo p, match lo with None => Some p | Some l => Some (Z.min p l) end) lo (percents rows).
Proof.
  revert lo. induction rows as [|r rows IH]; intros lo; [done|].
  cbn [foldl]. rewrite IH. unfold percents. cbn. rewrite !foldl_app, !consider_spec.
  repeat case_match; simplify_eq; cbn; done.
Qed.

(** The rebuild percentage is the minimum.  [SyncPercent]'s answer is
    absent exactly when no row shows a percentage below 100, and otherwise
    is one of the shown percentages, none of which is lower. *)
Theorem lowest_sync_min rows :
  match lowest_sync rows with
  | None => percents rows = []
  | Some p => p ∈ percents rows ∧ Forall (λ q, (p ≤ q)%Z) (percents rows)
  end.
Proof.
  unfold lowest_sync. rewrite lowest_sync_acc. generalize (percents rows) as l. intros l.
  assert (∀ lo, match foldl (λ lo p, match lo with None => Some p | Some l => Some (Z.min p l) end) lo l with
                | None => l = [] ∧ lo = None
                | Some p => (p ∈ l ∨ lo = Some p) ∧ Forall (λ q, (p ≤ q)%Z) l ∧
                            (∀ q, lo = Some q → (p ≤ q)%Z)
                end) as Hacc.
  { induction l as [|x l IH]; intros lo; cbn.
    { destruct lo; [|done]. split_and!; [auto|constructor|]. intros ? [= ->]. lia. }
    specialize (IH (match lo with None => Some x | Some l => Some (Z.min x l) end)).
    destruct (foldl _ _ l) as [p|]; [|by destruct lo; destruct IH].
    destruct IH as (Hin & Hall & Hlo). rewrite elem_of_cons, Forall_cons.
    destruct lo as [y|].
    - specialize (Hlo _ eq_refl). split_and!; [|lia|done|intros ? [= ->]; lia].
      destruct Hin as [?|[= Hp]]; [auto|]. destruct (Z.min_spec x y) as [[_ E]|[_ E]]; rewrite E in Hp; subst; auto.
    - specialize (Hlo _ eq_refl). split_and!; [naive_solver|lia|done|done]. }
  specialize (Hacc None). destruct (foldl _ None l); naive_solver.
Qed.
End Reports.

(** ** Facts about path resolution *)

Lemma identity_paths_lookup devs d :
  identity_paths devs !! d = if bool_decide (d ∈ devs) then Some d else None.
Proof.
  unfold identity_paths.
  assert (∀ m : gmap string string, foldl (λ m d, <[d := d]> m) m devs !! d
    = if bool_decide (d ∈ devs) then Some d else m !! d) as Hg.
  { induction devs as [|x devs IH]; intros m; cbn; [by rewrite bool_decide_eq_false_2 by apply not_elem_of_nil|].
    rewrite IH. repeat case_bool_decide; try set_solver.
    - assert (x = d) as -> by set_solver. by rewrite lookup_insert_eq.
    - rewrite lookup_insert_ne; set_solver. }
  rewrite Hg. by rewrite lookup_empty.
Qed.

Lemma resolve_lines_dom devs lines m d :
  d ∈ devs ∨ is_Some (m !! d) → (∀ x, x ∈ devs → is_Some (m !! x)) →
  is_Some (resolve_lines devs lines m !! d).
Proof.
  revert lines m. induction devs as [|x devs IH]; intros lines m Hd Hall; cbn.
  { destruct Hd; [set_solver|done]. }
  destruct lines as [|l lines]; [destruct Hd as [Hd|?]; [by apply Hall|done]|].
  apply IH.
  - destruct Hd as [[->|?]%elem_of_cons|?]; [right| |right]; [|auto|];
      (case_bool_decide; [|rewrite lookup_insert; case_decide]); eauto; apply Hall; set_solver.
  - intros y Hy. case_bool_decide; [apply Hall; set_solver|].
    rewrite lookup_insert. case_decide; [eauto|]. apply Hall; set_solver.
Qed.

(** Every device asked for resolves to something: [resolved[d]] is never "". *)
Lemma resolved_from_dom devs out err d : d ∈ devs → is_Some (resolved_from devs out err !! d).
Proof.
  assert (∀ d, d ∈ devs → is_Some (identity_paths devs !! d)) as Hid.
  { intros x Hx. rewrite identity_paths_lookup, bool_decide_eq_true_2; eauto. }
  intros Hd. unfold resolved_from. destruct err; [auto|]. case_bool_decide; [auto|].
  apply resolve_lines_dom; auto.
Qed.

(** No answer of the tool resolves a named device to nothing. *)
Lemma resolve_lines_nonempty devs lines m d :
  mget m d ≠ "" → mget (resolve_lines devs lines m) d ≠ "".
Proof.
  revert lines m. induction devs as [|x devs IH]; intros [|l lines] m Hm; try done. cbn. apply IH.
  case_bool_decide; [done|]. unfold mget. rewrite lookup_insert. by case_decide.
Qed.
Lemma resolved_from_nonempty devs out err d :
  d ∈ devs → d ≠ "" → mget (resolved_from devs out err) d ≠ "".
Proof.
  intros Hd Hne. assert (mget (identity_paths devs) d ≠ "") as Hid.
  { unfold mget. by rewrite identity_paths_lookup, bool_decide_eq_true_2. }
  unfold resolved_from. destruct err; [done|]. case_bool_decide; [done|]. by apply resolve_lines_nonempty.
Qed.

(** The map a pass works with comes from its own [readlink] answer. *)
Definition resolved_by (devs : list string) (m : gmap string string) (tr : trace op) : Prop :=
  ∀ d, d ∈ devs → seen "readlink" ("-m" :: devs) (λ out err, m = resolved_from devs out err) tr.
Lemma wp_ResolvePaths devs :
  wp (ResolvePaths devs) (λ tr m, resolved_by devs m tr ∧
    ∀ e, e ∈ tr → cmd_of e = Some ("readlink", "-m" :: devs)).
Proof.
  unfold ResolvePaths, resolved_by. destruct devs as [|d0 devs0] eqn:E; rewrite <- E in *.
  - cbn. split; subst; [intros d []%elem_of_nil|intros e []%elem_of_nil].
  - wp_go. outs. split; [|intros; by split_in]. intros d Hd. eauto with evidence.
Qed.

(** Decoders for the witnesses: one VG of one PV, nothing syncing. *)
Definition demo_row (kvs : list (string * string)) : row := list_to_map kvs.
Definition demo_parse : HostParse := {|
  json_lvmReport _ := inr [([demo_row [("vg_size", "100"); ("vg_free", "40")]],
                            [demo_row [("pv_name", "/dev/sdb"); ("pv_used", "60")]])];
  json_lvReport _ := inr [];
  float64 := Z; ParseFloat _ := None; float_ge_100 f := (100 <=? f)%Z; float_int32 f := f |}.
