(* ===== verification/Mdraid.v ===== *)
(** * internal/mdraid/mdraid.go: md arrays through mdadm *)

From Stdlib Require Import Ascii.
From S2P Require Import Prelude GoStrings Prog ApiTypes Effects Lvm.

Definition DevPath (pool : string) : string := "/dev/md/stornas-" +:+ pool.

Definition MD_Exists (dev : string) : io bool := run_ok "mdadm" ["--detail"; dev].

Definition MD_Create (dev name level : string) (devices : list string) : io (option error) :=
  run_err "mdadm"
    (["--create"; dev; "--run"; "--force"; "--name=" +:+ name; "--homehost=stornas";
      "--level=" +:+ level; "--raid-devices=" +:+ Itoa (Z.of_nat (length devices))] ++ devices).

Inductive MemberState := InSync | Rebuilding | Failed | Missing.
#[global] Instance MemberState_eq_dec : EqDecision MemberState.
Proof. solve_decision. Defined.
Definition state_name (s : MemberState) : string :=
  match s with
  | InSync => "InSync" | Rebuilding => "Rebuilding" | Failed => "Failed" | Missing => "Missing"
  end.

Record Member := { m_Path : string; m_State : MemberState }.
Record Detail := {
  d_Degraded : bool;
  d_SyncPercent : option Z;
  d_Members : list Member;
}.

(** [parseMember]: the last /dev/ field, and the state by keyword. *)
Definition member_path (fields : list string) : string :=
  foldl (λ p f, if HasPrefix f "/dev/" then f else p) "" fields.
Definition parseMember (line : string) : Member :=
  {| m_Path := member_path (Fields line);
     m_State :=
       if Contains line "removed" then Missing
       else if Contains line "faulty" then Failed
       else if Contains line "rebuilding" || Contains line "spare" then Rebuilding
       else InSync |}.

Section Parse.
Context `{HostParse}.

(** One iteration of [parseDetail]'s loop: the detail and [inTable]. *)
Definition parse_line (acc : Detail * bool) (line : string) : Detail * bool :=
  let '(d, inTable) := acc in
  let t := TrimSpace line in
  if HasPrefix t "State :" then
    ({| d_Degraded := Contains t "degraded"; d_SyncPercent := d_SyncPercent d;
        d_Members := d_Members d |}, inTable)
  else if HasPrefix t "Rebuild Status :" || HasPrefix t "Resync Status :" then
    match IndexByte t ":"%char with
    | None => (d, inTable)
    | Some i =>
        let '(pct, _, _) := Cut (TrimSpace (sdrop (S i) t)) "%"%char in
        match ParseFloat pct with
        | None => (d, inTable)
        | Some f => ({| d_Degraded := d_Degraded d; d_SyncPercent := Some (float_int32 f);
                        d_Members := d_Members d |}, inTable)
        end
    end
  else if HasPrefix t "Number" && Contains t "RaidDevice" then (d, true)
  else if inTable && negb (bool_decide (t = "")) then
    ({| d_Degraded := d_Degraded d; d_SyncPercent := d_SyncPercent d;
        d_Members := d_Members d ++ [parseMember t] |}, inTable)
  else (d, inTable).

Definition no_detail : Detail := {| d_Degraded := false; d_SyncPercent := None; d_Members := [] |}.
Definition parseDetail (out : string) : Detail :=
  (foldl parse_line (no_detail, false) (SplitLines out)).1.

Definition MD_Detail (dev : string) : io (error + Detail) :=
  let! r := call (Run "mdadm" ["--detail"; dev]) in
  match r.2 with
  | Some e => Ret (inl (wrapf ("mdadm detail " +:+ dev +:+ ": ") e))
  | None => Ret (inr (parseDetail r.1))
  end.
End Parse.

(** [Replace]: the spare joins before the old member is replaced. *)
Definition MD_Replace (dev old with_ : string) : io (option error) :=
  let! e := run_err "mdadm" [dev; "--add-spare"; with_] in
  match e with
  | Some err => Ret (Some err)
  | None => run_err "mdadm" [dev; "--replace"; old; "--with"; with_]
  end.

Definition MD_Add (dev member : string) : io (option error) :=
  run_err "mdadm" [dev; "--add"; member].

Definition FailDetached (dev : string) : io (option error) :=
  run_err "mdadm" [dev; "--fail"; "detached"].

Definition RemoveFailed (dev : string) : io (option error) :=
  let! e := run_err "mdadm" [dev; "--remove"; "failed"] in
  match e with
  | Some err => Ret (Some err)
  | None => run_err "mdadm" [dev; "--remove"; "detached"]
  end.

Definition MD_Fail (dev member : string) : io (option error) :=
  run_err "mdadm" [dev; "--fail"; member].

Definition MD_Stop (dev : string) : io (option error) :=
  let! r := call (Run "mdadm" ["--stop"; dev]) in
  match r.2 with
  | Some e =>
      if Contains r.1 "No such file" || Contains (emsg e) "No such file" then Ret None else Ret (Some e)
  | None => Ret None
  end.

Definition ZeroSuperblock (member : string) : io (option error) :=
  let! r := call (Run "mdadm" ["--zero-superblock"; member]) in
  match r.2 with
  | Some e =>
      if Contains r.1 "Unrecognised" || Contains r.1 "No such file" || Contains r.1 "Couldn't open"
      then Ret None else Ret (Some e)
  | None => Ret None
  end.

(** [ExamineName]: the array name of the first "Name" line. *)
Fixpoint examine_lines (lines : list string) : string :=
  match lines with
  | [] => ""
  | line :: lines' =>
      let '(k, v, ok) := Cut line ":"%char in
      if negb ok || negb (bool_decide (TrimSpace k = "Name")) then examine_lines lines'
      else match Fields (TrimSpace v) with
           | [] => ""
           | name :: _ =>
               match LastIndexByte name ":"%char with
               | Some i => sdrop (S i) name
               | None => name
               end
           end
  end.
Definition ExamineName (member : string) : io string :=
  let! r := call (Run "mdadm" ["--examine"; member]) in
  match r.2 with
  | Some _ => Ret ""
  | None => Ret (examine_lines (SplitLines r.1))
  end.

(** [Members]: the member tokens of /proc/mdstat. *)
Definition mdstat_members (out : string) : gset string :=
  list_to_set (
    line ← SplitLines out;
    if negb (Contains line " : ") then []
    else f ← Fields line;
         match IndexByte f "["%char with
         | Some (S i) => ["/dev/" +:+ stake (S i) f]
         | _ => []
         end).
Definition MD_Members : io (gset string) :=
  let! r := call (Run "cat" ["/proc/mdstat"]) in
  match r.2 with
  | Some _ => Ret ∅
  | None => Ret (mdstat_members r.1)
  end.

(** ** mdadm's own output, parsed *)

Example mdstat_ex :
  "/dev/vdc" ∈ mdstat_members "md127 : active raid1 vdc[1](F) vdb[0]" ∧
  "/dev/md127" ∉ mdstat_members "md127 : active raid1 vdc[1](F) vdb[0]".
Proof.
  split; [refine (bool_decide_eq_true_1 _ _)|refine (bool_decide_eq_false_1 _ _)];
    vm_compute; reflexivity.
Qed.

Example examine_ex : examine_lines ["   Version : 1.2"; "   Name : stornas:stornas-tank  (local to host stornas)"] = "stornas-tank".
Proof. reflexivity. Qed.

