(* ===== verification/Replace.v ===== *)
(** * internal/agent/replace.go: VG membership converges to the spec

    [planDevices] compares spec.devices with the observed PVs;
    [convergeDevices] executes the plan. *)

From S2P Require Import Prelude GoStrings Prog ApiTypes Effects Lvm.

Record devicePlan := {
  Add : list string;
  Evacuate : list string;
  Drop : list string;
  PlanMissing : bool;
}.

Definition plan_empty (p : devicePlan) : bool :=
  bool_decide (Add p = []) && bool_decide (Evacuate p = []) && bool_decide (Drop p = []) &&
  negb (PlanMissing p).

(** [r := resolved[dev]; if r == "" { r = dev }] *)
Definition resolve_dev (resolved : gmap string string) (dev : string) : string :=
  let r := mget resolved dev in if bool_decide (r = "") then dev else r.

(** The loop over the PVs, from the back so that appends read in order. *)
Fixpoint scan_pvs (want : gset string) (pvs : list PV) : list string * list string * bool * gset string :=
  match pvs with
  | [] => ([], [], false, ∅)
  | pv :: pvs' =>
      let '(ev, dr, mi, present) := scan_pvs want pvs' in
      if pv_Missing pv then (ev, dr, true, present)
      else
        let present' := {[pv_Name pv]} ∪ present in
        if bget want (pv_Name pv) then (ev, dr, mi, present')
        else if (0 <? pv_UsedBytes pv)%Z then (pv_Name pv :: ev, dr, mi, present')
        else (ev, pv_Name pv :: dr, mi, present')
  end.

Definition planDevices (spec : list string) (resolved : gmap string string) (pvs : list PV) : devicePlan :=
  let want : gset string := list_to_set (resolve_dev resolved <$> spec) in
  let '(ev, dr, mi, present) := scan_pvs want pvs in
  {| Add := filter (λ dev, bget present (resolve_dev resolved dev) = false) spec;
     Evacuate := ev; Drop := dr; PlanMissing := mi |}.

(** One add of the plan: label the device when needed, then extend the VG. *)
Definition add_device (vg dev : string) : io (option error) :=
  let! ispv := IsPV dev in
  let! e := (if negb ispv then CreatePV dev else Ret None) in
  match e with
  | Some err => Ret (Some err)
  | None => VGExtend vg dev
  end.
Definition drop_device (vg dev : string) : io (option error) :=
  let! e := VGReduce vg dev in
  match e with
  | Some err => Ret (Some err)
  | None => PVRemove dev
  end.

Definition convergeDevices (vg : string) (plan : devicePlan) : io (option error) :=
  let! e1 := for_err (Add plan) (add_device vg) in
  match e1 with
  | Some err => Ret (Some err)
  | None =>
      let dst := match Add plan with [d] => d | _ => "" end in
      let! e2 := for_err (Evacuate plan) (λ dev, PVMove dev dst) in
      match e2 with
      | Some err => Ret (Some err)
      | None => for_err (Drop plan) (drop_device vg)
      end
  end.

(** On a map the host tools produced, the fallback never fires for a named
    device. *)
Lemma resolve_dev_from devs out err d :
  d ∈ devs → resolve_dev (resolved_from devs out err) d = mget (resolved_from devs out err) d.
Proof.
  intros Hd. unfold resolve_dev. case_bool_decide as E; [|done].
  destruct (decide (d = "")) as [->|Hne]; [done|]. by destruct (resolved_from_nonempty devs out err d).
Qed.

(** ** The plan, declaratively *)

Section Plan.
Context (spec : list string) (resolved : gmap string string) (pvs : list PV).

(** The kernel paths the spec asks for, and the live members. *)
Definition wanted (n : string) : Prop := ∃ dev, dev ∈ spec ∧ resolve_dev resolved dev = n.
Definition member (n : string) : Prop := ∃ pv, pv ∈ pvs ∧ pv_Missing pv = false ∧ pv_Name pv = n.

Lemma elem_want n : n ∈ (list_to_set (resolve_dev resolved <$> spec) : gset string) ↔ wanted n.
Proof. unfold wanted. rewrite elem_of_list_to_set, list_elem_of_fmap. naive_solver. Qed.
End Plan.

(** The loop, as filters of the observed PVs. *)
Definition live (pv : PV) : Prop := pv_Missing pv = false.
Definition stray (want : gset string) (pv : PV) : Prop := live pv ∧ pv_Name pv ∉ want.
#[global] Instance live_dec pv : Decision (live pv).
Proof. unfold live. apply _. Defined.
#[global] Instance stray_dec want pv : Decision (stray want pv).
Proof. unfold stray. apply _. Defined.

Lemma scan_pvs_filters want pvs :
  scan_pvs want pvs =
  (pv_Name <$> filter (λ pv, stray want pv ∧ (0 < pv_UsedBytes pv)%Z) pvs,
   pv_Name <$> filter (λ pv, stray want pv ∧ (pv_UsedBytes pv ≤ 0)%Z) pvs,
   existsb pv_Missing pvs,
   list_to_set (pv_Name <$> filter live pvs)).
Proof.
  induction pvs as [|pv pvs IH]; [done|]. cbn [scan_pvs existsb]. rewrite IH, !filter_cons.
  repeat case_decide; unfold stray, live, bget in *;
    destruct (pv_Missing pv) eqn:Em; cbn; repeat case_bool_decide;
    destruct (Z.ltb_spec 0 (pv_UsedBytes pv)); try done; exfalso; intuition lia.
Qed.

Lemma scan_pvs_spec want pvs :
  let '(ev, dr, mi, present) := scan_pvs want pvs in
  (∀ n, n ∈ ev ↔ ∃ pv, pv ∈ pvs ∧ pv_Missing pv = false ∧ pv_Name pv = n ∧ n ∉ want ∧ (0 < pv_UsedBytes pv)%Z) ∧
  (∀ n, n ∈ dr ↔ ∃ pv, pv ∈ pvs ∧ pv_Missing pv = false ∧ pv_Name pv = n ∧ n ∉ want ∧ (pv_UsedBytes pv ≤ 0)%Z) ∧
  (mi = true ↔ ∃ pv, pv ∈ pvs ∧ pv_Missing pv = true) ∧
  (∀ n, n ∈ present ↔ member pvs n).
Proof.
  rewrite scan_pvs_filters. unfold stray, live, member. split_and!; intros.
  - rewrite list_elem_of_fmap. setoid_rewrite list_elem_of_filter. split.
    + intros (x & -> & [[? ?] ?] & ?). eauto 7.
    + intros (x & ? & ? & <- & ? & ?). eauto 7.
  - rewrite list_elem_of_fmap. setoid_rewrite list_elem_of_filter. split.
    + intros (x & -> & [[? ?] ?] & ?). eauto 7.
    + intros (x & ? & ? & <- & ? & ?). eauto 7.
  - rewrite existsb_exists. by setoid_rewrite list_elem_of_In.
  - rewrite elem_of_list_to_set, list_elem_of_fmap. setoid_rewrite list_elem_of_filter. split.
    + intros (x & -> & ? & ?). eauto 7.
    + intros (x & ? & ? & <-). eauto 7.
Qed.

Lemma planDevices_sets spec resolved pvs :
  let plan := planDevices spec resolved pvs in
  (∀ dev, dev ∈ Add plan ↔ dev ∈ spec ∧ ¬ member pvs (resolve_dev resolved dev)) ∧
  (∀ n, n ∈ Evacuate plan ↔ ∃ pv, pv ∈ pvs ∧ pv_Missing pv = false ∧ pv_Name pv = n ∧
          ¬ wanted spec resolved n ∧ (0 < pv_UsedBytes pv)%Z) ∧
  (∀ n, n ∈ Drop plan ↔ ∃ pv, pv ∈ pvs ∧ pv_Missing pv = false ∧ pv_Name pv = n ∧
          ¬ wanted spec resolved n ∧ (pv_UsedBytes pv ≤ 0)%Z) ∧
  (PlanMissing plan = true ↔ ∃ pv, pv ∈ pvs ∧ pv_Missing pv = true).
Proof.
  unfold planDevices.
  pose proof (scan_pvs_spec (list_to_set (resolve_dev resolved <$> spec)) pvs) as Hs.
  destruct (scan_pvs _ pvs) as [[[ev dr] mi] present]. destruct Hs as (He & Hd & Hm & Hp). cbn.
  split_and!; [|setoid_rewrite He|setoid_rewrite Hd|done].
  - intros dev. rewrite list_elem_of_filter, bget_false, Hp. tauto.
  - intros n. by setoid_rewrite elem_want.
  - intros n. by setoid_rewrite elem_want.
Qed.

(** The plan is exactly the difference between spec and host.  A spec
    device is added iff its kernel path is not a live member; a live member is
    evacuated iff the spec does not want it and it holds extents, dropped iff
    the spec does not want it and it holds none; Missing iff a member's disk is
    gone. *)
Theorem planDevices_spec spec resolved pvs :
  let plan := planDevices spec resolved pvs in
  (∀ dev, dev ∈ Add plan ↔ dev ∈ spec ∧ ¬ member pvs (resolve_dev resolved dev)) ∧
  (∀ n, n ∈ Evacuate plan ↔ ∃ pv, pv ∈ pvs ∧ pv_Missing pv = false ∧ pv_Name pv = n ∧
          ¬ wanted spec resolved n ∧ (0 < pv_UsedBytes pv)%Z) ∧
  (∀ n, n ∈ Drop plan ↔ ∃ pv, pv ∈ pvs ∧ pv_Missing pv = false ∧ pv_Name pv = n ∧
          ¬ wanted spec resolved n ∧ (pv_UsedBytes pv ≤ 0)%Z) ∧
  (PlanMissing plan = true ↔ ∃ pv, pv ∈ pvs ∧ pv_Missing pv = true).
Proof. apply planDevices_sets. Qed.

Section Convergence.
Context (spec : list string) (resolved : gmap string string).
Abbreviation plan pvs := (planDevices spec resolved pvs).

#[local] Instance member_dec pvs n : Decision (member pvs n).
Proof.
  destruct (decide (n ∈ pv_Name <$> filter live pvs)) as [H|H]; rewrite list_elem_of_fmap in H;
    setoid_rewrite list_elem_of_filter in H; unfold live in H; [left|right]; unfold member; naive_solver.
Defined.

Lemma plan_empty_sets pvs :
  plan_empty (plan pvs) = true ↔
  (∀ d, d ∉ Add (plan pvs)) ∧ (∀ n, n ∉ Evacuate (plan pvs)) ∧ (∀ n, n ∉ Drop (plan pvs)) ∧
  ¬ ∃ pv, pv ∈ pvs ∧ pv_Missing pv = true.
Proof.
  pose proof (planDevices_sets spec resolved pvs) as (_ & _ & _ & Hm). cbn zeta in Hm.
  unfold plan_empty. rewrite !andb_true_iff, !bool_decide_eq_true, negb_true_iff, <- Hm, not_true_iff_false.
  split.
  - intros [[[-> ->] ->] ->]. split_and!; [apply not_elem_of_nil..|done].
  - intros (? & ? & ? & ?). split_and!; [by apply elem_of_nil_inv..|done].
Qed.

(** A live member the spec does not want is evacuated or dropped. *)
Lemma stray_planned pvs n :
  member pvs n → ¬ wanted spec resolved n → n ∈ Evacuate (plan pvs) ∨ n ∈ Drop (plan pvs).
Proof.
  pose proof (planDevices_sets spec resolved pvs) as (_ & He & Hd & _). cbn zeta in *.
  intros (pv & ? & ? & <-) ?. rewrite He, Hd.
  destruct (Z.lt_ge_cases 0 (pv_UsedBytes pv)); [left|right]; eauto 7.
Qed.

Lemma plan_empty_converged pvs :
  plan_empty (plan pvs) = true ↔
  (∀ pv, pv ∈ pvs → pv_Missing pv = false) ∧ (∀ n, member pvs n ↔ wanted spec resolved n).
Proof.
  rewrite plan_empty_sets.
  pose proof (planDevices_sets spec resolved pvs) as (Ha & He & Hd & _). cbn zeta in *. split.
  - intros (Na & Ne & Nd & Nm). split.
    { intros pv Hpv. destruct (pv_Missing pv) eqn:E; [|done]. destruct Nm; eauto. }
    intros n. split.
    + intros Hn. destruct (decide (n ∈ (list_to_set (resolve_dev resolved <$> spec) : gset string))) as [Hw|Hw];
        rewrite elem_want in Hw; [done|].
      destruct (stray_planned _ _ Hn Hw); naive_solver.
    + intros (dev & Hdev & <-). destruct (decide (member pvs (resolve_dev resolved dev))); [done|].
      destruct (Na dev). by apply Ha.
  - intros [Nm Hmw]. split_and!.
    + intros d [? Hn]%Ha. destruct Hn. apply Hmw. by exists d.
    + intros n (pv & ? & ? & ? & Hn & _)%He. destruct Hn. apply Hmw. by exists pv.
    + intros n (pv & ? & ? & ? & Hn & _)%Hd. destruct Hn. apply Hmw. by exists pv.
    + intros (pv & Hpv & ?). rewrite (Nm pv Hpv) in *. done.
Qed.

(** The effect of a plan that was carried out: members are the old ones minus
    the dropped plus the added, no disk is lost meanwhile, and an evacuated PV
    holds no extents. *)
Record pass_done (pvs pvs' : list PV) : Prop := {
  pd_alive : ∀ pv, pv ∈ pvs' → pv_Missing pv = false;
  pd_members : ∀ n, member pvs' n ↔
    (member pvs n ∧ n ∉ Drop (plan pvs)) ∨ ∃ d, d ∈ Add (plan pvs) ∧ resolve_dev resolved d = n;
  pd_evacuated : ∀ pv, pv ∈ pvs' → pv_Name pv ∈ Evacuate (plan pvs) → (pv_UsedBytes pv ≤ 0)%Z;
}.

(** After one pass every wanted device is a member and the strays left are
    the evacuated ones. *)
Lemma pass_one pvs pvs' : pass_done pvs pvs' →
  (∀ n, wanted spec resolved n → member pvs' n) ∧
  (∀ n, member pvs' n → ¬ wanted spec resolved n → n ∈ Evacuate (plan pvs)).
Proof.
  intros [_ Hm _]. pose proof (planDevices_sets spec resolved pvs) as (Ha & He & Hd & _). cbn zeta in *.
  split.
  - intros n (dev & Hdev & <-). apply Hm. destruct (decide (member pvs (resolve_dev resolved dev))).
    + left. split; [done|]. intros (pv & _ & _ & _ & Hn & _)%Hd. destruct Hn. by exists dev.
    + right. exists dev. split; [|done]. by apply Ha.
  - intros n [[Hn Hnd]|(d & Hd' & <-)]%Hm Hw.
    + by destruct (stray_planned _ _ Hn Hw).
    + destruct Hw. exists d. split; [|done]. by apply Ha in Hd' as [? _].
Qed.

Lemma two_passes pvs pvs1 pvs2 :
  pass_done pvs pvs1 → pass_done pvs1 pvs2 → plan_empty (plan pvs2) = true.
Proof.
  intros H1 H2. apply plan_empty_converged. split; [apply H2|].
  pose proof (pass_one _ _ H1) as [Hw1 Hs1]. pose proof (pass_one _ _ H2) as [Hw2 Hs2].
  intros n. split; [|apply Hw2]. intros Hn.
  destruct (decide (n ∈ (list_to_set (resolve_dev resolved <$> spec) : gset string))) as [Hw|Hw];
    rewrite elem_want in Hw; [done|exfalso].
  pose proof (planDevices_sets spec resolved pvs1) as (_ & He & _ & _). cbn zeta in He.
  apply Hs2 in Hn as (pv & Hpv & Hlive & Hname & _ & Hu)%He; [|done].
  enough (pv_UsedBytes pv ≤ 0)%Z by lia.
  apply (pd_evacuated _ _ H1); [done|]. apply Hs1; [by exists pv|by rewrite Hname].
Qed.
End Convergence.

(** An empty plan means converged.  [plan.empty()] holds exactly when no
    member's disk is missing and the live members are the spec's devices. *)
Theorem plan_empty_iff_converged spec resolved pvs :
  plan_empty (planDevices spec resolved pvs) = true ↔
  (∀ pv, pv ∈ pvs → pv_Missing pv = false) ∧
  (∀ n, member pvs n ↔ wanted spec resolved n).
Proof. apply plan_empty_converged. Qed.

(** ** Execution order *)

(** What the phases of [convergeDevices] may run. *)
Definition add_cmd (vg : string) (plan : devicePlan) (e : event op) : Prop :=
  ∃ d, d ∈ Add plan ∧ cmd_of e ∈ [Some ("pvs", [d]); Some ("pvcreate", [d]); Some ("vgextend", [vg; d])].
Definition move_cmd (plan : devicePlan) (e : event op) : Prop :=
  ∃ d dst, d ∈ Evacuate plan ∧ cmd_of e = Some ("pvmove", "--background" :: d :: dst).
Definition drop_cmd (vg : string) (plan : devicePlan) (e : event op) : Prop :=
  ∃ d, d ∈ Drop plan ∧ cmd_of e ∈ [Some ("vgreduce", [vg; d]); Some ("pvremove", [d])].

Lemma wp_add_device vg d :
  wp (add_device vg d) (λ tr r,
    (∀ e, e ∈ tr → cmd_of e ∈ [Some ("pvs", [d]); Some ("pvcreate", [d]); Some ("vgextend", [vg; d])]) ∧
    (r = None → did "vgextend" [vg; d] tr)).
Proof.
  unfold add_device, IsPV, CreatePV, VGExtend, run_ok, run_err.
  wp_go; (split; [intros; split_in; cbn; set_solver|]); intros ?; outs; eauto 8 with evidence.
Qed.

Lemma wp_PVMove dev dst :
  wp (PVMove dev dst) (λ tr r, ∀ e, e ∈ tr → ∃ rest, cmd_of e = Some ("pvmove", "--background" :: dev :: rest)).
Proof. unfold PVMove. wp_go; intros; split_in; cbn; eauto. Qed.

(** A dropped device leaves the VG before its label is removed. *)
Definition unlabels (e : event op) : Prop := ∃ d, cmd_of e = Some ("pvremove", [d]).
Definition reduced (vg : string) (e e' : event op) : Prop :=
  ∃ d out, cmd_of e = Some ("pvremove", [d]) ∧ ev_run e' = Some ("vgreduce", [vg; d], (out, None)).
Definition drop_ok (vg d : string) (tr : trace op) (r : option error) : Prop :=
  (∀ e, e ∈ tr → cmd_of e ∈ [Some ("vgreduce", [vg; d]); Some ("pvremove", [d])]) ∧
  (r = None → did "vgreduce" [vg; d] tr ∧ did "pvremove" [d] tr) ∧
  guarded unlabels (reduced vg) tr.
Lemma wp_drop_device vg d : wp (drop_device vg d) (drop_ok vg d).
Proof.
  unfold drop_device, VGReduce, PVRemove, run_err, drop_ok. wp_go; split_and!;
    lazymatch goal with
    | |- guarded _ _ _ => idtac
    | |- _ = None → _ => intros ?; outs; eauto 8 with evidence
    | _ => intros; split_in; cbn; set_solver
    end.
  - apply guarded_safe. unfold unlabels. intros; split_in; cbn. naive_solver.
  - apply (guarded_snoc _ _ [_]).
    + unfold unlabels. intros; split_in; cbn. naive_solver.
    + intros _. outs. eexists. split; [by left|]. by eexists _, _.
Qed.

(** The three phases. *)
Lemma wp_phase_add vg plan :
  wp (for_err (Add plan) (add_device vg)) (λ tr r, (∀ e, e ∈ tr → add_cmd vg plan e) ∧
    (r = None → ∀ d, d ∈ Add plan → did "vgextend" [vg; d] tr)).
Proof.
  unfold add_cmd. apply (for_err_phase
    (λ d e, cmd_of e ∈ [Some ("pvs", [d]); Some ("pvcreate", [d]); Some ("vgextend", [vg; d])])
    (λ d, did "vgextend" [vg; d])).
  - intros d _. apply wp_add_device.
  - intros d t1 t2 [?|?]; eauto with evidence.
Qed.
Lemma wp_phase_move plan dst :
  wp (for_err (Evacuate plan) (λ d, PVMove d dst)) (λ tr _, ∀ e, e ∈ tr → move_cmd plan e).
Proof.
  eapply wp_mono; [apply (for_err_phase
    (λ d e, ∃ rest, cmd_of e = Some ("pvmove", "--background" :: d :: rest)) (λ _ _, True))|].
  - intros d _. eapply wp_mono; [apply wp_PVMove|]. eauto.
  - done.
  - intros tr r [H _] e He. destruct (H e He) as (d & ? & rest & ?). by exists d, rest.
Qed.
Lemma wp_phase_drop vg plan :
  wp (for_err (Drop plan) (drop_device vg)) (λ tr r, (∀ e, e ∈ tr → drop_cmd vg plan e) ∧
    (r = None → ∀ d, d ∈ Drop plan → did "vgreduce" [vg; d] tr ∧ did "pvremove" [d] tr)).
Proof.
  unfold drop_cmd. apply (for_err_phase
    (λ d e, cmd_of e ∈ [Some ("vgreduce", [vg; d]); Some ("pvremove", [d])])
    (λ d tr, did "vgreduce" [vg; d] tr ∧ did "pvremove" [d] tr)).
  - intros d _. eapply wp_mono; [apply wp_drop_device|]. by intros tr r (? & ? & _).
  - intros d t1 t2 [[? ?]|[? ?]]; eauto with evidence.
Qed.
Lemma wp_converge_unlabels vg plan :
  wp (convergeDevices vg plan) (λ tr _, guarded unlabels (reduced vg) tr).
Proof.
  assert (∀ t, (∀ e, e ∈ t → add_cmd vg plan e ∨ move_cmd plan e) → guarded unlabels (reduced vg) t) as Hs.
  { intros t Ht. apply guarded_safe. intros e He [d Hd].
    destruct (Ht e He) as [(? & _ & H')|(? & ? & _ & H')]; split_in; congruence. }
  unfold convergeDevices. apply wp_bind_2. eapply wp_mono; [apply wp_phase_add|]. intros t1 r1 [H1 _].
  destruct r1 as [e1|]; cbn [wp]; [rewrite app_nil_r; eauto|].
  apply wp_bind_2. eapply wp_mono; [apply wp_phase_move|]. intros t2 r2 H2.
  destruct r2 as [e2|]; cbn [wp]; [rewrite app_nil_r; apply guarded_app; eauto|].
  eapply wp_mono; [apply (wp_for_err (guarded unlabels (reduced vg)) (guarded_nil _ _) (guarded_app _ _))|].
  - intros d _. eapply wp_mono; [apply wp_drop_device|]. by intros tr r (_ & _ & ?).
  - intros t3 r3 H3. repeat apply guarded_app; eauto.
Qed.

(** A device is labelled only after the probe said it is not a PV. *)
Definition labels (e : event op) : Prop := ∃ d, cmd_of e = Some ("pvcreate", [d]).
Definition probed (e e' : event op) : Prop :=
  ∃ d out err, cmd_of e = Some ("pvcreate", [d]) ∧ ev_run e' = Some ("pvs", [d], (out, Some err)).
Lemma wp_add_device_labels vg d : wp (add_device vg d) (λ tr _, guarded labels probed tr).
Proof.
  unfold add_device, IsPV, CreatePV, VGExtend, run_ok, run_err.
  wp_go; outs; bools; rewrite <- lawful_guarded; lawful_go; intros [d' Hd']; cbn in Hd'; simplify_eq;
    (eexists; split; [left|by eexists _, _, _]).
Qed.
Lemma wp_converge_labels vg plan :
  wp (convergeDevices vg plan) (λ tr _, guarded labels probed tr).
Proof.
  assert (∀ t, (∀ e, e ∈ t → move_cmd plan e ∨ drop_cmd vg plan e) → guarded labels probed t) as Hs.
  { intros t Ht. apply guarded_safe. intros e He [d Hd].
    destruct (Ht e He) as [(? & ? & _ & H')|(? & _ & H')]; split_in; congruence. }
  unfold convergeDevices. apply wp_bind_2.
  eapply wp_mono; [apply (wp_for_err (guarded labels probed) (guarded_nil _ _) (guarded_app _ _)); intros d _;
    apply wp_add_device_labels|]. intros t1 r1 H1.
  destruct r1 as [e1|]; cbn [wp]; [by rewrite app_nil_r|].
  apply wp_bind_2. eapply wp_mono; [apply wp_phase_move|]. intros t2 r2 H2.
  destruct r2 as [e2|]; cbn [wp]; [rewrite app_nil_r; apply guarded_app; eauto|].
  eapply wp_mono; [apply wp_phase_drop|]. intros t3 r3 [H3 _]. repeat apply guarded_app; eauto.
Qed.

(** The commands of the first phase are not those of the later ones. *)
Lemma add_not_late vg plan e :
  add_cmd vg plan e → move_cmd plan e ∨ drop_cmd vg plan e → False.
Proof.
  intros (d & _ & He) [(d' & dst & _ & Hm)|(d' & _ & Hd)]; split_in; congruence.
Qed.

Definition converge_ok (vg : string) (plan : devicePlan) (tr : trace op) (r : option error) : Prop :=
  (∀ tr1 e tr2, tr = tr1 ++ e :: tr2 → move_cmd plan e ∨ drop_cmd vg plan e →
     ∀ d, d ∈ Add plan → did "vgextend" [vg; d] tr1) ∧
  (∀ e, e ∈ tr → add_cmd vg plan e ∨ move_cmd plan e ∨ drop_cmd vg plan e) ∧
  (r = None → (∀ d, d ∈ Add plan → did "vgextend" [vg; d] tr) ∧
     (∀ d, d ∈ Drop plan → did "vgreduce" [vg; d] tr ∧ did "pvremove" [d] tr)).
Lemma wp_convergeDevices vg plan : wp (convergeDevices vg plan) (converge_ok vg plan).
Proof.
  unfold convergeDevices, converge_ok.
  apply wp_bind_2. eapply wp_mono; [apply wp_phase_add|]. intros t1 r1 [H1 D1].
  destruct r1 as [e1|]; cbn [wp].
  { rewrite app_nil_r. split_and!; [|by eauto 6|done]. intros tr1 e tr2 -> Hb.
    destruct (add_not_late vg plan e); [apply H1; set_solver|done]. }
  specialize (D1 eq_refl). apply wp_bind_2.
  eapply wp_mono; [apply wp_phase_move|]. intros t2 r2 H2.
  assert (∀ B tr1 e tr2, t1 ++ B = tr1 ++ e :: tr2 → move_cmd plan e ∨ drop_cmd vg plan e →
    ∀ d, d ∈ Add plan → did "vgextend" [vg; d] tr1) as Hlate.
  { intros B tr1 e tr2 Heq Hb d Hd.
    apply (bad_after (λ e, move_cmd plan e ∨ drop_cmd vg plan e)) in Heq as (k & -> & _); [|eauto..].
    - eauto with evidence.
    - intros x Hx ?. by eapply add_not_late; [apply H1|]. }
  destruct r2 as [e2|]; cbn [wp].
  { rewrite app_nil_r. split_and!; [eauto| |done]. intros e [He|He]%elem_of_app; eauto. }
  eapply wp_mono; [apply wp_phase_drop|]. intros t3 r3 [H3 D3]. split_and!; [eauto| |].
  - intros e [He|[He|He]%elem_of_app]%elem_of_app; eauto.
  - intros Hn. split; [eauto with evidence|]. intros d Hd.
    destruct (D3 Hn d Hd); eauto 6 with evidence.
Qed.

(** The replacement joins first.  In every run of [convergeDevices],
    a [pvmove] or a [vgreduce] is issued only after every planned device
    joined the VG successfully; every command serves a device of the plan; a PV
    label is removed only after the VG was reduced by that device; and a run that reports success extended the VG by every added device and
    reduced it by, and unlabelled, every dropped one. *)
Theorem convergeDevices_order vg plan tr r :
  runs (convergeDevices vg plan) tr r →
  (∀ tr1 e tr2, tr = tr1 ++ e :: tr2 → move_cmd plan e ∨ drop_cmd vg plan e →
     ∀ d, d ∈ Add plan → did "vgextend" [vg; d] tr1) ∧
  (∀ e, e ∈ tr → add_cmd vg plan e ∨ move_cmd plan e ∨ drop_cmd vg plan e) ∧
  guarded unlabels (reduced vg) tr ∧
  (r = None → (∀ d, d ∈ Add plan → did "vgextend" [vg; d] tr) ∧
     (∀ d, d ∈ Drop plan → did "vgreduce" [vg; d] tr ∧ did "pvremove" [d] tr)).
Proof.
  intros Hr. pose proof (wp_runs _ _ _ _ (wp_converge_unlabels vg plan) Hr) as Hg.
  pose proof (wp_runs _ _ _ _ (wp_convergeDevices vg plan) Hr) as (? & ? & ?). auto.
Qed.

(** ** The replace flow ends at the spec *)

(** A move off [d] was asked for. *)
Definition asked (d : string) (tr : trace op) : Prop :=
  ∃ e rest, e ∈ tr ∧ cmd_of e = Some ("pvmove", "--background" :: d :: rest).
Lemma wp_converge_moves vg plan : wp (convergeDevices vg plan) (λ tr r, r = None → ∀ d, d ∈ Evacuate plan → asked d tr).
Proof.
  assert (∀ d t1 t2, asked d t1 ∨ asked d t2 → asked d (t1 ++ t2)) as Happ by (unfold asked; set_solver).
  unfold convergeDevices. apply wp_bind_2. eapply wp_mono; [apply wp_phase_add|]. intros t1 [e1|] _; [done|].
  apply wp_bind_2. eapply wp_mono; [apply (for_err_phase (λ _ _, True) asked); [|exact Happ]|].
  { intros d _. unfold PVMove, asked. wp_go; (split; [done|]); intros _; (eexists _, _; split; [left|reflexivity]). }
  intros t2 r2 [_ H2]. destruct r2 as [e2|]; [done|]. eapply wp_mono; [apply wp_phase_drop|]. intros t3 r3 _ _ d Hd.
  apply Happ. right. apply Happ. left. by apply H2.
Qed.

(** LVM's part between two reports, in terms of the commands of the pass: a
    vgextend that succeeded adds the PV at the path the device resolves to, a
    vgreduce that succeeded removes one, nothing else changes the members; no
    disk of the VG is lost; the moves that were asked for are over by then. *)
Record lvm_after (vg : string) (resolved : gmap string string) (pvs : list PV) (tr : trace op) (pvs' : list PV) : Prop := {
  la_alive : ∀ pv, pv ∈ pvs' → pv_Missing pv = false;
  la_members : ∀ n, member pvs' n ↔
    (member pvs n ∧ ¬ did "vgreduce" [vg; n] tr) ∨ ∃ d, did "vgextend" [vg; d] tr ∧ resolve_dev resolved d = n;
  la_moved : ∀ pv, pv ∈ pvs' → asked (pv_Name pv) tr → (pv_UsedBytes pv ≤ 0)%Z;
}.

(** What a successful run extended and reduced is what was planned. *)
Lemma converge_exact vg plan tr : runs (convergeDevices vg plan) tr None →
  (∀ d, did "vgextend" [vg; d] tr ↔ d ∈ Add plan) ∧ (∀ n, did "vgreduce" [vg; n] tr ↔ n ∈ Drop plan).
Proof.
  intros Hr. destruct (wp_runs _ _ _ _ (wp_convergeDevices vg plan) Hr) as (_ & Hc & Hok).
  destruct (Hok eq_refl) as [Ha Hd].
  split; intros n; (split; [|by (apply Ha || apply Hd)]); intros (e & out & He & Hev);
    (assert (cmd_of e = Some (_, [vg; n])) as Hcmd by (unfold cmd_of; by rewrite Hev));
    destruct (Hc e He) as [(d & Hd' & Hx)|[(d & dst & Hd' & Hx)|(d & Hd' & Hx)]]; rewrite Hcmd in Hx; split_in; by simplify_eq.
Qed.
Lemma executed_pass vg spec resolved pvs tr pvs' :
  runs (convergeDevices vg (planDevices spec resolved pvs)) tr None → lvm_after vg resolved pvs tr pvs' →
  pass_done spec resolved pvs pvs'.
Proof.
  intros Hr [Hl Hm Hv]. destruct (converge_exact _ _ _ Hr) as [Ha Hd]. split; [done| |].
  - intros n. rewrite Hm, Hd. by setoid_rewrite Ha.
  - intros pv Hpv Hev. apply Hv; [done|]. exact (wp_runs _ _ _ _ (wp_converge_moves _ _) Hr eq_refl _ Hev).
Qed.

(** C26: The disk replace flow ends at the spec.  Take two successive runs of
    [convergeDevices], each of the plan made from the report before it and each
    ending without error, and let LVM carry out the commands between the
    reports: a vgextend or vgreduce that succeeded changes the members, nothing
    else does, no disk of the VG is lost, and the moves asked for are over.
    From any starting membership the members are then exactly the devices of
    the spec, and the next plan is empty. *)
Theorem replace_converges vg spec resolved pvs tr1 pvs1 tr2 pvs2 :
  runs (convergeDevices vg (planDevices spec resolved pvs)) tr1 None → lvm_after vg resolved pvs tr1 pvs1 →
  runs (convergeDevices vg (planDevices spec resolved pvs1)) tr2 None → lvm_after vg resolved pvs1 tr2 pvs2 →
  (∀ n, member pvs2 n ↔ wanted spec resolved n) ∧ plan_empty (planDevices spec resolved pvs2) = true.
Proof.
  intros R1 L1 R2 L2. pose proof (two_passes _ _ _ _ _ (executed_pass _ _ _ _ _ _ R1 L1) (executed_pass _ _ _ _ _ _ R2 L2)) as Hp.
  split; [by apply plan_empty_converged in Hp as [_ Hp]|done].
Qed.

(** ** Witnesses: one disk swapped for another *)
Module SwapDemo.
Definition disk (n : string) (used : Z) : PV :=
  {| pv_Name := n; pv_Missing := false; pv_UsedBytes := used |}.
Definition spec : list string := ["/dev/sdc"].
Definition before : list PV := [disk "/dev/sdb" 4096].
Definition moved : list PV := [disk "/dev/sdb" 0; disk "/dev/sdc" 4096].
Definition after : list PV := [disk "/dev/sdc" 4096].

Abbreviation swap pvs := (run ok_env (convergeDevices "stornas-tank" (planDevices spec ∅ pvs)) tt).
Lemma trace_first : (swap before).1.2 = [Ev (Run "pvs" ["/dev/sdc"]) ("", None); Ev (Run "vgextend" ["stornas-tank"; "/dev/sdc"]) ("", None);
  Ev (Run "pvmove" ["--background"; "/dev/sdb"; "/dev/sdc"]) ("", None)].
Proof. vm_compute. reflexivity. Qed.
Lemma trace_second : (swap moved).1.2 = [Ev (Run "vgreduce" ["stornas-tank"; "/dev/sdb"]) ("", None); Ev (Run "pvremove" ["/dev/sdb"]) ("", None)].
Proof. vm_compute. reflexivity. Qed.
Lemma member_disks n l : member ((λ x, disk x.1 x.2) <$> l) n ↔ n ∈ l.*1.
Proof.
  unfold member. split.
  - intros (pv & (x & -> & Hx)%list_elem_of_fmap & _ & <-). apply list_elem_of_fmap. by exists x.
  - intros (x & -> & Hx)%list_elem_of_fmap. exists (disk x.1 x.2). split_and!; [|done|done]. apply list_elem_of_fmap. by exists x.
Qed.
Ltac no_such := intros (e & ? & He & Hev); split_in; cbn in Hev; by simplify_eq.
Lemma members_before n : member before n ↔ n = "/dev/sdb".
Proof. rewrite (member_disks n [("/dev/sdb", 4096%Z)]). cbn. set_solver. Qed.
Lemma members_moved n : member moved n ↔ n = "/dev/sdb" ∨ n = "/dev/sdc".
Proof. rewrite (member_disks n [("/dev/sdb", 0%Z); ("/dev/sdc", 4096%Z)]). cbn. set_solver. Qed.
Lemma members_after n : member after n ↔ n = "/dev/sdc".
Proof. rewrite (member_disks n [("/dev/sdc", 4096%Z)]). cbn. set_solver. Qed.
Lemma first_pass : lvm_after "stornas-tank" ∅ before (swap before).1.2 moved.
Proof.
  rewrite trace_first. split.
  - intros pv Hpv. unfold moved in Hpv. by split_in.
  - intros n. rewrite members_moved, members_before. split.
    + intros [->| ->]; [left; split; [done|no_such]|]. right. exists "/dev/sdc". split; [eauto with evidence|done].
    + intros [[-> _]|(d & (e & out & He & Hev) & <-)]; [by left|right].
      split_in; cbn in Hev; simplify_eq. reflexivity.
  - intros pv Hpv (e & rest & He & Hev). unfold moved in Hpv. split_in; cbn in *; simplify_eq; lia.
Qed.
Lemma second_pass : lvm_after "stornas-tank" ∅ moved (swap moved).1.2 after.
Proof.
  rewrite trace_second. split.
  - intros pv Hpv. unfold after in Hpv. by split_in.
  - intros n. rewrite members_moved, members_after. split.
    + intros ->. left. split; [by right|no_such].
    + intros [[[->| ->] Hn]|(d & Hd & _)]; [|done|exfalso; revert Hd; no_such]. destruct Hn. eauto with evidence.
  - intros pv Hpv (e & rest & He & Hev). split_in; cbn in *; simplify_eq.
Qed.
End SwapDemo.

Lemma replace_converges_witness :
  (∀ n, member SwapDemo.after n ↔ wanted SwapDemo.spec ∅ n) ∧ plan_empty (planDevices SwapDemo.spec ∅ SwapDemo.after) = true.
Proof.
  refine (replace_converges "stornas-tank" SwapDemo.spec ∅ SwapDemo.before _ SwapDemo.moved _ SwapDemo.after
    _ SwapDemo.first_pass _ SwapDemo.second_pass).
  - exact (run_runs ok_env (convergeDevices "stornas-tank" (planDevices SwapDemo.spec ∅ SwapDemo.before)) tt).
  - exact (run_runs ok_env (convergeDevices "stornas-tank" (planDevices SwapDemo.spec ∅ SwapDemo.moved)) tt).
Defined.

Lemma convergeDevices_order_witness :
  let plan := planDevices ["/dev/sdc"] ∅ [SwapDemo.disk "/dev/sdb" 0] in
  let '(r, tr, _) := run ok_env (convergeDevices "stornas-tank" plan) tt in
  r = None ∧ did "vgextend" ["stornas-tank"; "/dev/sdc"] tr ∧ did "vgreduce" ["stornas-tank"; "/dev/sdb"] tr.
Proof.
  pose proof (convergeDevices_order _ _ _ _ (run_runs ok_env (convergeDevices "stornas-tank"
    (planDevices ["/dev/sdc"] ∅ [SwapDemo.disk "/dev/sdb" 0])) tt)) as (_ & _ & _ & H).
  destruct (H eq_refl) as [Ha Hd].
  split; [reflexivity|]. split; [apply Ha; left|].
  exact (proj1 (Hd "/dev/sdb" ltac:(left))).
Defined.
