(* ===== verification/Smart.v ===== *)
(** * internal/agent/smart.go: SMART verdicts

    The store shared by the inventory sweep (the one writer) and the pool
    reconciler is its map; both methods hold the lock for their whole body,
    so each is one atomic step.  [smartctl]'s JSON is decoded by the class
    [SmartParse]. *)

From S2P Require Import Prelude GoStrings Prog ApiTypes Effects.

Record SmartInfo := {
  si_Verdict : string;
  si_TempCelsius : option Z;
  si_PowerOnHours : option Z;
}.

Abbreviation SmartStore := (gmap string SmartInfo).
Definition NewSmartStore : SmartStore := ∅.
Definition Smart_Put (s : SmartStore) (info : SmartInfo) (paths : list string) : SmartStore :=
  foldl (λ s p, if bool_decide (p = "") then s else <[p := info]> s) s paths.
Definition Smart_Get (s : SmartStore) (path : string) : option SmartInfo := s !! path.

Record smartctlReport := {
  SmartStatus_Passed : option bool;
  Temperature_Current : option Z;
  PowerOnTime_Hours : option Z;
}.
Class SmartParse := { json_smartctl : string → error + smartctlReport }.

Definition CheckSmart `{SmartParse} (dev : string) : io SmartInfo :=
  let! r := call (Run "smartctl" ["--json=c"; "-H"; "-A"; "-n"; "standby"; dev]) in
  let unknown := {| si_Verdict := "Unknown"; si_TempCelsius := None; si_PowerOnHours := None |} in
  match json_smartctl r.1 with
  | inl _ => Ret unknown
  | inr rep =>
      match SmartStatus_Passed rep with
      | None => Ret unknown
      | Some passed =>
          Ret {| si_Verdict := if passed then "Passed" else "Failed";
                 si_TempCelsius := Temperature_Current rep;
                 si_PowerOnHours := PowerOnTime_Hours rep |}
      end
  end.

(** The store answers with the last verdict put under a path, and a path
    never put, the empty one included, with nothing. *)
Lemma Smart_Get_Put s info paths p :
  Smart_Get (Smart_Put s info paths) p =
  if bool_decide (p ∈ paths ∧ p ≠ "") then Some info else Smart_Get s p.
Proof.
  unfold Smart_Put, Smart_Get. revert s. induction paths as [|q paths IH]; intros s; cbn.
  { case_bool_decide as Hd; [|done]. by destruct Hd as [Hd%elem_of_nil _]. }
  rewrite IH. repeat case_bool_decide; try set_solver; subst.
  - assert (p = q) as -> by set_solver. by rewrite lookup_insert_eq.
  - rewrite lookup_insert_ne; set_solver.
Qed.
