(* ===== verification/PoolAgent.v ===== *)
(** * The pool agent

    internal/agent/pool.go: one node's agent converges the host (LVM, mdadm)
    to the StoragePools of its node, reports what it saw, and wipes the disks
    of a pool under deletion once the operator cleared it. *)

From S2P Require Import Prelude GoStrings Prog ApiTypes Effects Lvm Mdraid Replace Smart.

Record Report := {
  rep_VG : string;
  rep_Capacity : Z;
  rep_Free : Z;
  rep_Health : string;
  rep_Devices : list DeviceStatus;
  rep_Rebuild : option Z;
}.

Definition refreshInterval : Z := 60 * second.
Definition rebuildInterval : Z := 10 * second.

Definition is_raid (pool : StoragePool) : bool :=
  negb (bool_decide (sp_Raid (sp_spec pool) = "")) && negb (bool_decide (sp_Raid (sp_spec pool) = "none")).
Definition array_name (pool : StoragePool) : string := "stornas-" +:+ Name (sp_meta pool).
Definition devices (pool : StoragePool) : list string := sp_Devices (sp_spec pool).

(** ** TeardownPool *)

(** The loop body over a raid pool's devices. *)
Definition wipe_member (pool : StoragePool) (dev : string) : io (option error) :=
  let! path := ResolvePath dev in
  let! blk := IsBlockDev path in
  if negb blk then Ret None
  else
    let! name := ExamineName path in
    if bool_decide (name ≠ array_name pool) then Ret None
    else ZeroSuperblock path.

(** The loop body over a linear pool's devices. *)
Definition wipe_pv (pool : StoragePool) (dev : string) : io (option error) :=
  let! blk := IsBlockDev dev in
  if negb blk then Ret None
  else
    let! owner := PVVG dev in
    match owner with
    | None => Ret None
    | Some vg =>
        if negb (bool_decide (vg = "")) && negb (bool_decide (vg = VGName pool)) then Ret None
        else PVWipe dev
    end.

Definition TeardownPool (pool : StoragePool) : io (option error) :=
  VGRemove (VGName pool) ;!;
  if is_raid pool
  then MD_Stop (DevPath (Name (sp_meta pool))) ;!; for_err (devices pool) (wipe_member pool)
  else for_err (devices pool) (wipe_pv pool).

(** Report under the spec's paths: kernel path to spec device.  The order in
    which Go visits [resolved] decides which of two spec devices of the same
    kernel path wins. *)
Definition spec_paths `{MapRange} (resolved : gmap string string) : gmap string string :=
  foldl (λ m '(dev, r), <[r := dev]> m) ∅ (range resolved).
Definition orphans (spec : list string) (present : gset string) : list string :=
  filter (λ dev, bget present dev = false) spec.

(** ** Linear pools *)
Section Linear.
Context `{HostParse} `{MapRange}.

(** VG and thin pool exist, or are created from the spec. *)
Definition label_device (dev : string) : io (option error) :=
  let! ispv := IsPV dev in
  if negb ispv then CreatePV dev else Ret None.
Definition ensure_vg (vg : string) (devs : list string) : io (option error) :=
  let! exists_ := VGExists vg in
  if negb exists_ then for_err devs label_device ;!; CreateVG vg devs else Ret None.
Definition ensure_thin (vg : string) : io (option error) :=
  let! thin := IsThinPool vg ThinLV in
  if negb thin then CreateThinPool vg ThinLV else Ret None.

(** Membership: the plan with only the devices the host has, executed; the
    kernel paths just added and the PVs afterwards. *)
Definition with_add (plan : devicePlan) (add : list string) : devicePlan :=
  {| Add := add; Evacuate := Evacuate plan; Drop := Drop plan; PlanMissing := PlanMissing plan |}.
Definition converge_linear (pool : StoragePool) (resolved : gmap string string) (pvs : list PV)
    : io (error + (gset string * list PV)) :=
  let plan0 := planDevices (devices pool) resolved pvs in
  let! live := filterM IsBlockDev (Add plan0) in
  let plan := with_add plan0 live in
  if plan_empty plan then Ret (inr (∅, pvs))
  else
    convergeDevices (VGName pool) plan ;?;
    let? pvs' := PVs (VGName pool) in
    Ret (inr (list_to_set (mget resolved <$> Add plan), pvs')).

(** [presentSpec]: the spec devices seen alive. *)
Definition present_linear (specPath : gmap string string) (pvs : list PV) : gset string :=
  foldl (λ s pv, match specPath !! pv_Name pv with
                 | Some sp => if negb (pv_Missing pv) then {[sp]} ∪ s else s
                 | None => s
                 end) ∅ pvs.

(** The report loop: one entry per PV, a dead one named by the next orphan. *)
Definition linear_state (added : gset string) (rebuild : option Z) (pv : PV) : string :=
  if pv_Missing pv then "Missing"
  else if bool_decide (rebuild ≠ None) && bget added (pv_Name pv) then "Rebuilding"
  else "InSync".
Fixpoint linear_devices (specPath : gmap string string) (added : gset string) (rebuild : option Z)
    (orphaned : list string) (pvs : list PV) : list DeviceStatus :=
  match pvs with
  | [] => []
  | pv :: pvs' =>
      let '(path, orphaned') :=
        match specPath !! pv_Name pv with
        | Some sp => (sp, orphaned)
        | None =>
            match orphaned with
            | o :: os => if pv_Missing pv then (o, os) else (pv_Name pv, orphaned)
            | [] => (pv_Name pv, [])
            end
        end in
      {| ds_Path := path; ds_Serial := ""; ds_Smart := ""; ds_State := linear_state added rebuild pv |}
      :: linear_devices specPath added rebuild orphaned' pvs'
  end.

Definition linear_report (pool : StoragePool) (resolved : gmap string string) (added : gset string)
    (pvs : list PV) (info : VGInfo_t) (rebuild : option Z) : Report :=
  let specPath := spec_paths resolved in
  let orphaned := orphans (devices pool) (present_linear specPath pvs) in
  {| rep_VG := VGName pool; rep_Capacity := SizeBytes info; rep_Free := FreeBytes info;
     rep_Health := if existsb pv_Missing pvs then "Degraded" else "Online";
     rep_Devices := linear_devices specPath added rebuild orphaned pvs;
     rep_Rebuild := rebuild |}.

Definition linear_pass (pool : StoragePool) : io (error + Report) :=
  let vg := VGName pool in
  ensure_vg vg (devices pool) ;?;
  ensure_thin vg ;?;
  let? pvs := PVs vg in
  let! resolved := ResolvePaths (devices pool) in
  let? c := converge_linear pool resolved pvs in
  let? info := VGInfo vg in
  let? rebuild := SyncPercent vg in
  Ret (inr (linear_report pool resolved c.1 c.2 info rebuild)).
End Linear.

(** ** Raid pools *)
Section Raid.
Context `{HostParse} `{MapRange}.

(** A healthy member the spec no longer names, to be replaced in place. *)
Fixpoint replace_victim (inSpec : gset string) (ms : list Member) : string :=
  match ms with
  | [] => ""
  | mb :: ms' =>
      if negb (bool_decide (m_Path mb = "")) && bool_decide (m_State mb = InSync) &&
         negb (bget inSpec (m_Path mb))
      then m_Path mb else replace_victim inSpec ms'
  end.

(** Failed members leave first. *)
Definition drop_failed (dev : string) (detail : Detail) : io (error + Detail) :=
  if existsb (λ mb, bool_decide (m_State mb = Failed)) (d_Members detail) then
    RemoveFailed dev ;?; MD_Detail dev
  else Ret (inr detail).

(** The loop body over the spec's devices. *)
Definition join_device (dev : string) (resolved : gmap string string) (members inSpec : gset string)
    (detail : Detail) (d : string) : io (Detail + error) :=
  if bget members (mget resolved d) then Ret (inl detail)
  else
    let! blk := IsBlockDev d in
    if negb blk then Ret (inl detail)
    else
      let old := replace_victim inSpec (d_Members detail) in
      let! e := (if negb (bool_decide (old = "")) then MD_Replace dev old d else MD_Add dev d) in
      match e with
      | Some err => Ret (inr err)
      | None =>
          let! r := MD_Detail dev in
          match r with inl err => Ret (inr err) | inr detail' => Ret (inl detail') end
      end.
Definition member_paths (ms : list Member) : gset string :=
  list_to_set (filter (λ p, p ≠ "") (m_Path <$> ms)).
Definition converge_raid (dev : string) (pool : StoragePool) (resolved : gmap string string)
    (detail : Detail) : io (error + Detail) :=
  let members := member_paths (d_Members detail) in
  let inSpec : gset string := list_to_set (mget resolved <$> devices pool) in
  let! r := for_state (devices pool) detail (join_device dev resolved members inSpec) in
  match r with inl detail' => Ret (inr detail') | inr e => Ret (inl e) end.

Definition present_raid (kernelToSpec : gmap string string) (ms : list Member) : gset string :=
  foldl (λ s mb, match kernelToSpec !! m_Path mb with
                 | Some sp => if negb (bool_decide (m_Path mb = "")) then {[sp]} ∪ s else s
                 | None => s
                 end) ∅ ms.

Fixpoint raid_devices (kernelToSpec : gmap string string) (orphaned : list string) (ms : list Member)
    : list DeviceStatus :=
  match ms with
  | [] => []
  | mb :: ms' =>
      let fallback :=
        match orphaned with
        | o :: os => if bool_decide (m_State mb ≠ InSync) then (o, os) else (m_Path mb, orphaned)
        | [] => (m_Path mb, [])
        end in
      let '(path, orphaned') :=
        match kernelToSpec !! m_Path mb with
        | Some sp => if negb (bool_decide (m_Path mb = "")) then (sp, orphaned) else fallback
        | None => fallback
        end in
      {| ds_Path := path; ds_Serial := ""; ds_Smart := ""; ds_State := state_name (m_State mb) |}
      :: raid_devices kernelToSpec orphaned' ms'
  end.

Definition raid_report (pool : StoragePool) (resolved : gmap string string) (detail : Detail)
    (info : VGInfo_t) : Report :=
  let kernelToSpec := spec_paths resolved in
  let orphaned := orphans (devices pool) (present_raid kernelToSpec (d_Members detail)) in
  {| rep_VG := VGName pool; rep_Capacity := SizeBytes info; rep_Free := FreeBytes info;
     rep_Health := if d_Degraded detail then "Degraded" else "Online";
     rep_Devices := raid_devices kernelToSpec orphaned (d_Members detail);
     rep_Rebuild := d_SyncPercent detail |}.

Definition ensure_array (dev : string) (pool : StoragePool) : io (option error) :=
  let! exists_ := MD_Exists dev in
  if negb exists_ then MD_Create dev (array_name pool) (sp_Raid (sp_spec pool)) (devices pool)
  else Ret None.

Definition raid_pass (pool : StoragePool) : io (error + Report) :=
  let vg := VGName pool in
  let dev := DevPath (Name (sp_meta pool)) in
  ensure_array dev pool ;?;
  ensure_vg vg [dev] ;?;
  ensure_thin vg ;?;
  FailDetached dev ;;;
  let? detail0 := MD_Detail dev in
  let? detail1 := drop_failed dev detail0 in
  let! resolved := ResolvePaths (devices pool) in
  let? detail := converge_raid dev pool resolved detail1 in
  let? info := VGInfo vg in
  Ret (inr (raid_report pool resolved detail info)).
End Raid.

(** ** EnsurePool and the reconciler *)
Section Reconciler.
Context `{K8sMeta} `{HostParse} `{MapRange}.

(** Every error return carries the report as it was initialised. *)
Definition failed_report (pool : StoragePool) : Report :=
  {| rep_VG := VGName pool; rep_Capacity := 0; rep_Free := 0; rep_Health := "Failed";
     rep_Devices := []; rep_Rebuild := None |}.
Definition reported (pool : StoragePool) (p : io (error + Report)) : io (Report * option error) :=
  let! r := p in
  match r with
  | inl e => Ret (failed_report pool, Some e)
  | inr rep => Ret (rep, None)
  end.
Definition ensureLinearPool (pool : StoragePool) : io (Report * option error) :=
  reported pool (linear_pass pool).
Definition ensureRaidPool (pool : StoragePool) : io (Report * option error) :=
  reported pool (raid_pass pool).
Definition Agent_EnsurePool (pool : StoragePool) : io (Report * option error) :=
  if is_raid pool then ensureRaidPool pool else ensureLinearPool pool.

(** The SMART verdicts joined onto the report. *)
Definition with_smart (smart : option SmartStore) (d : DeviceStatus) : DeviceStatus :=
  match smart ≫= (λ s, Smart_Get s (ds_Path d)) with
  | Some info => {| ds_Path := ds_Path d; ds_Serial := ds_Serial d; ds_Smart := si_Verdict info;
                    ds_State := ds_State d |}
  | None => d
  end.

(** The status one pass writes, before the HostReady condition. *)
Definition pass_status (smart : option SmartStore) (pool : StoragePool) (rep : Report) : StoragePoolStatus :=
  let st := sp_status pool in
  let ds := with_smart smart <$> rep_Devices rep in
  {| sp_Conditions := sp_Conditions st; sp_VG := rep_VG rep;
     sp_Capacity := if (0 <? rep_Capacity rep)%Z then Some (rep_Capacity rep) else sp_Capacity st;
     sp_Free := if (0 <? rep_Capacity rep)%Z then Some (rep_Free rep) else sp_Free st;
     sp_Health := rep_Health rep;
     sp_StatusDevices := match ds with [] => sp_StatusDevices st | _ => ds end;
     sp_RebuildPercent := match ds with [] => sp_RebuildPercent st | _ => rep_Rebuild rep end |}.
Definition host_ready (pool : StoragePool) (err : option error) : Condition :=
  {| c_Type := ConditionHostReady;
     c_Status := match err with Some _ => ConditionFalse | None => ConditionTrue end;
     c_Reason := match err with Some _ => ReasonHostError | None => ReasonReady end;
     c_Message := match err with Some e => emsg e | None => "" end;
     c_ObservedGeneration := Generation (sp_meta pool) |}.
Definition pass_pool (smart : option SmartStore) (pool : StoragePool) (rep : Report) (err : option error)
    : StoragePool :=
  let pool1 := {| sp_meta := sp_meta pool; sp_spec := sp_spec pool;
                  sp_status := pass_status smart pool rep |} in
  sp_set_conds pool1 (SetStatusCondition (sp_conds pool1) (host_ready pool err)).

Definition torn_down_cond (pool : StoragePool) : Condition :=
  {| c_Type := ConditionTornDown; c_Status := ConditionTrue; c_Reason := ReasonReady; c_Message := "";
     c_ObservedGeneration := Generation (sp_meta pool) |}.

(** The deletion branch. *)
Definition agent_deleting (pool : StoragePool) : io reconcile :=
  if IsStatusConditionTrue (sp_conds pool) ConditionTornDown then Ret done_ok
  else if negb (IsStatusConditionTrue (sp_conds pool) ConditionDeregistered) then Ret done_ok
  else
    let! e := TeardownPool pool in
    match e with
    | Some err => Ret (done_err (Some err))
    | None =>
        let pool' := sp_set_conds pool (SetStatusCondition (sp_conds pool) (torn_down_cond pool)) in
        let! e := call (StatusUpdate KStoragePool pool') in
        match e with
        | Some _ => Ret (done_err (IgnoreNotFound e))
        | None => Ret done_ok
        end
    end.

Definition agent_live (smart : option SmartStore) (pool : StoragePool) : io reconcile :=
  let! r := Agent_EnsurePool pool in
  let '(rep, ensureErr) := r in
  let! e := call (StatusUpdate KStoragePool (pass_pool smart pool rep ensureErr)) in
  match e with
  | Some _ => if IsConflict e then Ret done_ok else Ret (done_err e)
  | None =>
      match ensureErr with
      | Some _ => Ret (done_err ensureErr)
      | None =>
          match rep_Rebuild rep with
          | Some _ => Ret (requeue rebuildInterval, None)
          | None => Ret (requeue refreshInterval, None)
          end
      end
  end.

Definition PoolAgent_Reconcile (node : string) (smart : option SmartStore) (req : NamespacedName)
    : io reconcile :=
  let! g := call (Get KStoragePool req) in
  match g with
  | inl e => Ret (done_err (IgnoreNotFound (Some e)))
  | inr pool =>
      if bool_decide (sp_Node (sp_spec pool) ≠ node) then Ret done_ok
      else if deleting (sp_meta pool) then agent_deleting pool
      else agent_live smart pool
  end.
End Reconciler.
