(* ===== verification/PoolTeardown.v ===== *)
(** * What the agent's teardown may destroy

    Safety and completeness of [TeardownPool], and the conditions under which
    the agent runs it. *)

From S2P Require Import Prelude GoStrings Prog ApiTypes Effects Demo Lvm Mdraid Replace Smart PoolAgent.

(** Commands that only look. *)
Definition query (n : string) (args : list string) : Prop :=
  n = "pvs" ∨ n = "test" ∨ n = "readlink" ∨ (n = "mdadm" ∧ ∃ d, args = ["--examine"; d]).

#[local] Hint Unfold query : core.

Section Teardown.
Context (pool : StoragePool).

(** The disk at [path] carries a member superblock of this pool's array. *)
Definition seen_member (path : string) : trace op → Prop :=
  seen "mdadm" ["--examine"; path]
    (λ out err, err = None ∧ examine_lines (SplitLines out) = array_name pool).
(** [dev] is a PV of no VG, or of this pool's. *)
Definition seen_pv (dev : string) : trace op → Prop :=
  seen "pvs" ["--noheadings"; "--options"; "vg_name"; dev]
    (λ out err, err = None ∧ (TrimSpace out = "" ∨ TrimSpace out = VGName pool)).

#[local] Hint Unfold seen_member seen_pv : evidence.

(** What a teardown step may be, given the trace before it. *)
Inductive may_wipe (tr1 : trace op) (e : event op) : Prop :=
  | wipe_query n args : cmd_of e = Some (n, args) → query n args → may_wipe tr1 e
  | wipe_vg : cmd_of e = Some ("vgremove", ["-ff"; "-y"; VGName pool]) → may_wipe tr1 e
  | wipe_stop : is_raid pool = true →
      cmd_of e = Some ("mdadm", ["--stop"; DevPath (Name (sp_meta pool))]) → may_wipe tr1 e
  | wipe_super path : is_raid pool = true → seen_member path tr1 →
      cmd_of e = Some ("mdadm", ["--zero-superblock"; path]) → may_wipe tr1 e
  | wipe_label dev : is_raid pool = false → dev ∈ devices pool → seen_pv dev tr1 →
      cmd_of e = Some ("pvremove", ["-ff"; "-y"; dev]) → may_wipe tr1 e.

Lemma may_wipe_mono t1 t2 e : may_wipe t2 e → may_wipe (t1 ++ t2) e.
Proof.
  destruct 1; unfold seen_member, seen_pv in *; eauto using may_wipe with evidence.
Qed.

(** How a teardown pass leaves one spec device: wiped, or seen to hold
    nothing of this pool. *)
Definition resolves (dev path : string) : trace op → Prop :=
  seen "readlink" ["-f"; dev] (λ out err,
    path = match err with
           | Some _ => dev
           | None => if bool_decide (TrimSpace out = "") then dev else TrimSpace out
           end).
#[local] Hint Unfold resolves : evidence.
Inductive member_settled (dev : string) (tr : trace op) : Prop :=
  | ms_wiped path : resolves dev path tr →
      seen "mdadm" ["--zero-superblock"; path] (λ out err,
        err = None ∨ Contains out "Unrecognised" || Contains out "No such file" || Contains out "Couldn't open" = true) tr →
      member_settled dev tr
  | ms_absent path : resolves dev path tr →
      seen "test" ["-b"; path] (λ _ err, err ≠ None) tr → member_settled dev tr
  | ms_foreign path : resolves dev path tr →
      seen "mdadm" ["--examine"; path] (λ out err, err = None ∧ examine_lines (SplitLines out) ≠ array_name pool) tr →
      member_settled dev tr
  | ms_unread path : resolves dev path tr →
      seen "mdadm" ["--examine"; path] (λ _ err, err ≠ None) tr → member_settled dev tr.
Inductive pv_settled (dev : string) (tr : trace op) : Prop :=
  | ps_wiped : seen "pvremove" ["-ff"; "-y"; dev] (λ out err,
        err = None ∨ Contains out "o PV label" || Contains out "not found" = true) tr → pv_settled dev tr
  | ps_absent : seen "test" ["-b"; dev] (λ _ err, err ≠ None) tr → pv_settled dev tr
  | ps_foreign : seen "pvs" ["--noheadings"; "--options"; "vg_name"; dev]
        (λ out err, err = None ∧ TrimSpace out ≠ "" ∧ TrimSpace out ≠ VGName pool) tr → pv_settled dev tr
  | ps_unread : seen "pvs" ["--noheadings"; "--options"; "vg_name"; dev] (λ _ err, err ≠ None) tr → pv_settled dev tr.

Lemma member_settled_app dev t1 t2 :
  member_settled dev t1 ∨ member_settled dev t2 → member_settled dev (t1 ++ t2).
Proof. unfold resolves. intros [[]|[]]; unfold resolves in *; eauto 6 using member_settled with evidence. Qed.
Lemma pv_settled_app dev t1 t2 : pv_settled dev t1 ∨ pv_settled dev t2 → pv_settled dev (t1 ++ t2).
Proof. intros [[]|[]]; eauto using pv_settled with evidence. Qed.

Ltac law :=
  solve [ eapply wipe_query; [reflexivity|unfold query; by eauto 6]
        | by apply wipe_vg
        | by apply wipe_stop
        | eapply wipe_super; [done| |reflexivity]; unfold seen_member; eauto 6 with evidence
        | eapply wipe_label; [done|done| |reflexivity]; unfold seen_pv; eauto 6 with evidence ].

Ltac settled :=
  solve [ apply ps_absent; eauto with evidence
        | apply ps_foreign; eauto with evidence
        | apply ps_unread; eauto with evidence
        | apply ps_wiped; eauto 6 with evidence
        | eapply ms_absent; unfold resolves; eauto 6 with evidence
        | eapply ms_wiped; unfold resolves; eauto 8 with evidence
        | eapply ms_foreign; unfold resolves; eauto 8 with evidence
        | eapply ms_unread; unfold resolves; eauto 8 with evidence ].

Lemma wp_wipe_pv dev : is_raid pool = false → dev ∈ devices pool →
  wp (wipe_pv pool dev) (λ tr r, lawful may_wipe tr ∧ (r = None → pv_settled dev tr)).
Proof.
  intros Hraid Hdev. unfold wipe_pv, IsBlockDev, PVVG, PVWipe, run_ok.
  wp_go; outs; bools; (split; [lawful_go; try law; bool_cases; law|]); intros ?; simplify_eq; settled.
Qed.
Lemma wp_wipe_member dev : is_raid pool = true →
  wp (wipe_member pool dev) (λ tr r, lawful may_wipe tr ∧ (r = None → member_settled dev tr)).
Proof.
  intros Hraid. unfold wipe_member, ResolvePath, IsBlockDev, ExamineName, ZeroSuperblock, run_ok.
  wp_go; outs; bools; (split; [lawful_go; law|]); intros ?; simplify_eq; settled.
Qed.

(** The VG removal succeeded, or found nothing to remove; the array stop
    likewise. *)
Definition vg_gone : trace op → Prop :=
  seen "vgremove" ["-ff"; "-y"; VGName pool] (λ out err, err = None ∨ Contains out "not found" = true).
Definition array_stopped : trace op → Prop :=
  seen "mdadm" ["--stop"; DevPath (Name (sp_meta pool))] (λ out err,
    match err with
    | None => True
    | Some e => Contains out "No such file" || Contains (emsg e) "No such file" = true
    end).
Definition torn_down (tr : trace op) : Prop :=
  vg_gone tr ∧
  (if is_raid pool
   then array_stopped tr ∧ ∀ dev, dev ∈ devices pool → member_settled dev tr
   else ∀ dev, dev ∈ devices pool → pv_settled dev tr).

Lemma torn_down_sub t1 t2 : t1 ⊆ t2 → torn_down t1 → torn_down t2.
Proof.
  intros Hs. unfold torn_down, vg_gone, array_stopped.
  intros [Hv Hd]. split; [by eapply seen_sub|]. destruct (is_raid pool).
  - destruct Hd as [Ha Hm]. split; [by eapply seen_sub|]. intros dev Hdev.
    destruct (Hm dev Hdev) as [p|p|p|p]; unfold resolves in *;
      [eapply (ms_wiped _ _ p)|eapply (ms_absent _ _ p)|eapply (ms_foreign _ _ p)|eapply (ms_unread _ _ p)]; by eapply seen_sub.
  - intros dev Hdev. destruct (Hd dev Hdev); [eapply ps_wiped|eapply ps_absent|eapply ps_foreign|eapply ps_unread]; by eapply seen_sub.
Qed.

Lemma wp_for_err_wipe (S : string → trace op → Prop) l f :
  (∀ d t1 t2, S d t1 ∨ S d t2 → S d (t1 ++ t2)) →
  (∀ d, d ∈ l → wp (f d) (λ tr r, lawful may_wipe tr ∧ (r = None → S d tr))) →
  wp (for_err l f) (λ tr r, lawful may_wipe tr ∧ (r = None → ∀ d, d ∈ l → S d tr)).
Proof.
  intros HS Hf. apply wp_and.
  - apply wp_for_err; [apply lawful_nil|apply lawful_app, may_wipe_mono|].
    intros d Hd. eapply wp_mono; [by apply Hf|]. by intros ?? [? _].
  - eapply wp_mono; [apply (for_err_phase (λ _ _, True) S)|].
    + intros d Hd. eapply wp_mono; [by apply Hf|]. by intros ?? [_ ?].
    + done.
    + by intros ?? [_ ?].
Qed.

Lemma wp_TeardownPool : wp (TeardownPool pool) (λ tr r, lawful may_wipe tr ∧ (r = None → torn_down tr)).
Proof.
  unfold TeardownPool, torn_down, seq_err. apply wp_bind_2.
  apply (wp_mono _ (λ tr r, lawful may_wipe tr ∧ (r = None → vg_gone tr))).
  { unfold VGRemove, vg_gone. wp_go; outs; (split; [lawful_go; law|]); intros ?; simplify_eq; eauto with evidence. }
  intros t1 r1 [L1 D1]. destruct r1 as [e1|]; cbn [wp]; [by rewrite app_nil_r|]. specialize (D1 eq_refl).
  destruct (is_raid pool) eqn:Hraid.
  - apply wp_bind_2. apply (wp_mono _ (λ tr r, lawful may_wipe tr ∧ (r = None → array_stopped tr))).
    { unfold MD_Stop, array_stopped. wp_go; outs; (split; [lawful_go; law|]); intros ?; simplify_eq; eauto with evidence. }
    intros t2 r2 [L2 D2]. destruct r2 as [e2|]; cbn [wp].
    { rewrite app_nil_r. split; [|done]. by apply lawful_app; [apply may_wipe_mono|..]. }
    eapply wp_mono; [apply (wp_for_err_wipe member_settled); [apply member_settled_app|eauto using wp_wipe_member]|].
    intros t3 r3 [L3 D3]. split; [repeat (apply lawful_app; [apply may_wipe_mono|done|]); done|].
    intros ->. split_and!; [eapply seen_app_l, D1|eapply seen_app_r, seen_app_l; by apply D2|].
    intros dev Hdev. apply member_settled_app. right. apply member_settled_app. auto.
  - eapply wp_mono; [apply (wp_for_err_wipe pv_settled); [apply pv_settled_app|eauto using wp_wipe_pv]|].
    intros t3 r3 [L3 D3]. split; [by apply lawful_app; [apply may_wipe_mono|..]|].
    intros ->. split; [eapply seen_app_l, D1|]. intros. apply pv_settled_app. auto.
Qed.
End Teardown.

(** C5: Teardown destroys only its own.  Whatever the host answers, every
    command of [TeardownPool] is a query, the removal of the pool's own VG,
    the stop of its own array, the zeroing of a superblock that the same run
    read and found to name this pool's array, or the wipe of a spec device
    whose PV label the same run read and found owned by no VG or by this one. *)
Theorem teardown_only_own pool tr r :
  runs (TeardownPool pool) tr r → lawful (may_wipe pool) tr.
Proof. intros Hr. exact (proj1 (wp_runs _ _ _ _ (wp_TeardownPool pool) Hr)). Qed.


(** ** Witnesses: a raid pool on a host that answers every command *)
Definition demo_deleting : StoragePool := demo_raid_pool (Some 1%Z) [demo_cond ConditionDeregistered ConditionTrue].
Definition demo_examine (n : string) (a : list string) : string * option error :=
  if bool_decide (head a = Some "--examine") then (" Name : stornas:stornas-tank", None) else ("", None).
Definition demo_disks : env op unit := demo_env demo_examine (demo_get (Some demo_deleting) None) list_none.

Lemma teardown_only_own_witness :
  let '(r, tr, _) := run demo_disks (TeardownPool demo_deleting) tt in
  r = None ∧ did "mdadm" ["--zero-superblock"; "/dev/sdb"] tr ∧ lawful (may_wipe demo_deleting) tr.
Proof.
  pose proof (teardown_only_own demo_deleting _ _ (run_runs demo_disks (TeardownPool demo_deleting) tt)) as H.
  split; [reflexivity|]. split; [|exact H]. eexists (Ev (Run _ _) (_, _)), "".
  split; [|reflexivity]. apply list_elem_of_In. vm_compute. tauto.
Defined.

