(* ===== verification/PoolLive.v ===== *)
(** * What a live pass of the pool agent may do

    [EnsurePool] of a pool that is not being deleted: it creates what is
    missing and converges membership; the theorems bound every command it can
    issue and tie each of the risky ones to what the same pass observed. *)

From S2P Require Import Prelude GoStrings Prog ApiTypes Effects Demo Lvm Mdraid Replace Smart PoolAgent.

Section Live.
Context `{HostParse} `{MapRange}.
Context (pool : StoragePool).
Abbreviation vg := (VGName pool).
Abbreviation md := (DevPath (Name (sp_meta pool))).

(** A command whose name, or mdadm mode, only reads. *)
Definition looks (n : string) (args : list string) : Prop :=
  n ∈ ["pvs"; "vgs"; "lvs"; "test"; "readlink"] ∨ (n = "mdadm" ∧ args = ["--detail"; md]).

Definition failed_probe (n : string) (args : list string) : trace op → Prop :=
  seen n args (λ _ err, err ≠ None).

(** The thin pool was looked for and not found: lvs failed, or its attributes
    are not a thin pool's. *)
Definition no_thin : trace op → Prop :=
  seen "lvs" ["--noheadings"; "--options"; "lv_attr"; vg +:+ "/" +:+ ThinLV]
    (λ out err, err ≠ None ∨ HasPrefix (TrimSpace out) "t" = false).

(** A PV report of this VG showed [n] alive with no extents allocated. *)
Definition seen_idle (n : string) : trace op → Prop :=
  seen "pvs" ["--reportformat"; "json"; "--units"; "b"; "--nosuffix";
              "--options"; "pv_name,pv_missing,pv_used"; "--select"; "vg_name=" +:+ vg]
    (λ out err, err = None ∧ ∃ rep pv, json_lvmReport out = inr rep ∧
       pv ∈ pv_of_row <$> concat (snd <$> rep) ∧
       pv_Name pv = n ∧ pv_Missing pv = false ∧ (pv_UsedBytes pv ≤ 0)%Z).
(** No spec device resolves to [n]. *)
Definition not_in_spec (n : string) (tr : trace op) : Prop :=
  ∀ d, d ∈ devices pool → seen "readlink" ("-m" :: devices pool)
    (λ out err, mget (resolved_from (devices pool) out err) d ≠ n) tr.

Inductive may_live (tr : trace op) (e : event op) : Prop :=
  | live_look n args : cmd_of e = Some (n, args) → looks n args → may_live tr e
  | live_label d : d = md ∨ d ∈ devices pool → failed_probe "pvs" [d] tr →
      cmd_of e = Some ("pvcreate", [d]) → may_live tr e
  | live_vgcreate devs : devs = [md] ∨ devs = devices pool → failed_probe "vgs" [vg] tr →
      cmd_of e = Some ("vgcreate", vg :: devs) → may_live tr e
  | live_thin : no_thin tr → cmd_of e = Some ("lvcreate", ["--type"; "thin-pool"; "--extents"; "90%VG"; "--name"; ThinLV; vg]) →
      may_live tr e
  | live_extend d : d ∈ devices pool → cmd_of e = Some ("vgextend", [vg; d]) → may_live tr e
  | live_move d rest : not_in_spec d tr → cmd_of e = Some ("pvmove", "--background" :: d :: rest) → may_live tr e
  | live_reduce d : seen_idle d tr → not_in_spec d tr →
      cmd_of e = Some ("vgreduce", [vg; d]) → may_live tr e
  | live_unlabel d : seen_idle d tr → not_in_spec d tr →
      cmd_of e = Some ("pvremove", [d]) → may_live tr e
  | live_mdcreate rest : failed_probe "mdadm" ["--detail"; md] tr →
      cmd_of e = Some ("mdadm", "--create" :: md :: rest) → may_live tr e
  | live_detached mode what : (mode, what) ∈ [("--fail", "detached"); ("--remove", "failed"); ("--remove", "detached")] →
      cmd_of e = Some ("mdadm", [md; mode; what]) → may_live tr e
  | live_join mode d : mode ∈ ["--add"; "--add-spare"] → d ∈ devices pool →
      cmd_of e = Some ("mdadm", [md; mode; d]) → may_live tr e
  | live_replace old d : not_in_spec old tr → d ∈ devices pool →
      cmd_of e = Some ("mdadm", [md; "--replace"; old; "--with"; d]) → may_live tr e.

Lemma failed_probe_sub n a t1 t2 : t1 ⊆ t2 → failed_probe n a t1 → failed_probe n a t2.
Proof. apply seen_sub. Qed.
Lemma no_thin_sub t1 t2 : t1 ⊆ t2 → no_thin t1 → no_thin t2.
Proof. apply seen_sub. Qed.
Lemma seen_idle_sub n t1 t2 : t1 ⊆ t2 → seen_idle n t1 → seen_idle n t2.
Proof. apply seen_sub. Qed.
Lemma not_in_spec_sub n t1 t2 : t1 ⊆ t2 → not_in_spec n t1 → not_in_spec n t2.
Proof. intros Hs Hn d Hd. eapply seen_sub; [done|]. auto. Qed.
Lemma may_live_sub t1 t2 e : t1 ⊆ t2 → may_live t1 e → may_live t2 e.
Proof.
  intros Hs. destruct 1; eauto using may_live, failed_probe_sub, no_thin_sub, seen_idle_sub, not_in_spec_sub.
Qed.
Lemma may_live_mono t1 t2 e : may_live t2 e → may_live (t1 ++ t2) e.
Proof. apply may_live_sub. set_solver. Qed.
Lemma live_app t1 t2 : lawful may_live t1 → lawful may_live t2 → lawful may_live (t1 ++ t2).
Proof. apply lawful_app, may_live_mono. Qed.
(** Events allowed on the evidence of [base] are allowed after it. *)
Lemma live_after base t : lawful may_live base →
  (∀ e, e ∈ t → may_live base e) → lawful may_live (base ++ t).
Proof.
  intros Hb Ht. apply lawful_app_dep; [done|]. intros t1 e t2 ->.
  eapply may_live_sub; [|apply Ht; set_solver]. set_solver.
Qed.

Ltac in_list := refine (bool_decide_eq_true_1 _ _); vm_compute; reflexivity.
Ltac live :=
  solve [ eapply live_look; [reflexivity|unfold looks; first [left; in_list | right; split; reflexivity]]
        | eapply live_label; [by eauto| |reflexivity]; unfold failed_probe; eauto 6 with evidence
        | eapply live_vgcreate; [by eauto| |reflexivity]; unfold failed_probe; eauto 6 with evidence
        | eapply live_mdcreate; [|reflexivity]; unfold failed_probe; eauto 6 with evidence
        | eapply live_detached; [|reflexivity]; in_list ].
Ltac lives := wp_go; outs; bools; lawful_go; live.

Lemma wp_ensure_vg devs : devs = [md] ∨ devs = devices pool →
  wp (ensure_vg vg devs) (λ tr _, lawful may_live tr).
Proof.
  intros Hd. unfold ensure_vg, VGExists, run_ok, seq_err. cbn. intros [out [e|]]; cbn; [|lawful_go; live].
  apply wp_bind_2. eapply wp_mono.
  { apply (wp_for_err (lawful may_live)); [apply lawful_nil|apply live_app|].
    intros d Hin. unfold label_device, IsPV, CreatePV, run_ok, run_err.
    assert (d = md ∨ d ∈ devices pool) by (destruct Hd as [->| ->]; set_solver). lives. }
  intros t1 r1 L1.
  assert (lawful may_live (Ev (Run "vgs" [vg]) (out, Some e) :: t1)) as L
    by (apply (live_app [_]); [lawful_go; live|done]).
  wp_go; [by rewrite app_nil_r|]. apply (live_after (_ :: _)); [done|]. intros. split_in. live.
Qed.
Lemma wp_ensure_thin : wp (ensure_thin vg) (λ tr _, lawful may_live tr).
Proof.
  unfold ensure_thin, IsThinPool, CreateThinPool, run_err. cbn [wp bind call]. intros [out err]; cbn [fst snd].
  destruct (match err with None => _ | Some _ => _ end) eqn:E; cbn [negb wp bind call].
  { lawful_go; live. }
  assert (err ≠ None ∨ HasPrefix (TrimSpace out) "t" = false) as Hp by (destruct err; [by left|by right]).
  intros [o2 e2]. cbn. lawful_go; [live|]. apply live_thin; [|reflexivity]. eexists _, out, err. split; [by left|done].
Qed.

(** The PVs a pass plans with come from its own report. *)
Definition pvs_by (pvs : list PV) : trace op → Prop :=
  seen "pvs" ["--reportformat"; "json"; "--units"; "b"; "--nosuffix";
              "--options"; "pv_name,pv_missing,pv_used"; "--select"; "vg_name=" +:+ vg]
    (λ out err, err = None ∧ ∃ rep, json_lvmReport out = inr rep ∧ pvs = pv_of_row <$> concat (snd <$> rep)).
Lemma wp_PVs : wp (PVs vg) (λ tr r, lawful may_live tr ∧ ∀ pvs, r = inr pvs → pvs_by pvs tr).
Proof.
  unfold PVs, pvs_by. wp_go; outs; (split; [lawful_go; live|]); intros; simplify_eq; eauto 6 with evidence.
Qed.
Lemma wp_ResolvePaths_live :
  wp (ResolvePaths (devices pool)) (λ tr m, lawful may_live tr ∧ resolved_by (devices pool) m tr).
Proof.
  eapply wp_mono; [apply wp_ResolvePaths|]. intros tr m [Hm Hc]. split; [|done].
  intros t1 e t2 ->. eapply live_look; [apply Hc; set_solver|]. unfold looks. set_solver.
Qed.

Lemma not_in_spec_by resolved n base : resolved_by (devices pool) resolved base →
  (∀ d, d ∈ devices pool → mget resolved d ≠ n) → not_in_spec n base.
Proof.
  intros Hr Hn d Hd. destruct (Hr d Hd) as (e & out & err & ? & ? & ->). exists e, out, err. auto.
Qed.
Lemma not_wanted_spec resolved n base : resolved_by (devices pool) resolved base →
  ¬ wanted (devices pool) resolved n → not_in_spec n base.
Proof.
  intros Hr Hw. eapply not_in_spec_by; [done|]. intros d Hin Heq. apply Hw. exists d. split; [done|].
  rewrite <- Heq. destruct (Hr d Hin) as (_ & out & err & _ & _ & ->). by apply resolve_dev_from.
Qed.
Lemma planned_drop_idle resolved pvs base n :
  resolved_by (devices pool) resolved base → pvs_by pvs base →
  n ∈ Drop (planDevices (devices pool) resolved pvs) → seen_idle n base ∧ not_in_spec n base.
Proof.
  intros Hr Hp Hn. pose proof (planDevices_sets (devices pool) resolved pvs) as (_ & _ & Hd & _).
  apply Hd in Hn as (pv & Hpv & ? & <- & Hw & ?). split.
  - destruct Hp as (e & out & err & ? & ? & -> & rep & ? & ->). exists e, out, None. eauto 10.
  - eapply not_in_spec_by; [done|]. intros d Hin Heq. apply Hw. exists d. split; [done|].
    rewrite <- Heq. destruct (Hr d Hin) as (_ & out & err & _ & _ & ->). by apply resolve_dev_from.
Qed.

Lemma planned_move_stray resolved pvs base n :
  resolved_by (devices pool) resolved base →
  n ∈ Evacuate (planDevices (devices pool) resolved pvs) → not_in_spec n base.
Proof.
  intros Hr Hn. pose proof (planDevices_sets (devices pool) resolved pvs) as (_ & He & _).
  apply He in Hn as (pv & _ & _ & _ & Hw & _). by eapply not_wanted_spec.
Qed.

Lemma wp_live_assoc {A} (p : io A) base t :
  wp p (λ tr _, lawful may_live ((base ++ t) ++ tr)) → wp p (λ tr _, lawful may_live (base ++ t ++ tr)).
Proof. intros Hp. eapply wp_mono; [exact Hp|]. intros tr r ?. by rewrite app_assoc. Qed.
Lemma wp_live_alone {A} (p : io A) base : lawful may_live base →
  wp p (λ tr _, lawful may_live tr) → wp p (λ tr _, lawful may_live (base ++ tr)).
Proof. intros Lb Hp. eapply wp_mono; [exact Hp|]. intros tr r ?. by apply live_app. Qed.

Lemma wp_converge_linear resolved pvs base :
  lawful may_live base → resolved_by (devices pool) resolved base → pvs_by pvs base →
  wp (converge_linear pool resolved pvs) (λ tr _, lawful may_live (base ++ tr)).
Proof.
  intros Lb Hr Hp. unfold converge_linear. apply wp_bind_2. eapply wp_mono.
  { apply (wp_filterM (lawful may_live)); [apply lawful_nil|apply live_app|].
    intros d _. unfold IsBlockDev, run_ok. lives. }
  intros t1 add [L1 Hadd]. apply wp_live_assoc. apply (live_app base t1) in L1; [|done].
  destruct (plan_empty _); cbn [wp]; [by rewrite app_nil_r|].
  apply wp_guard. eapply wp_mono; [apply wp_and; [apply wp_convergeDevices|apply wp_converge_labels]|].
  intros t2 r2 [(_ & Hcmds & _) Hlab].
  assert (lawful may_live ((base ++ t1) ++ t2)) as L2.
  { apply lawful_app_dep; [done|]. intros k1 e k2 ->. specialize (Hcmds e ltac:(set_solver)).
    destruct Hcmds as [(d & Hd & He)|[(d & dst & Hd & He)|(d & Hd & He)]].
    - assert (d ∈ devices pool) by (apply (planDevices_sets (devices pool) resolved pvs), Hadd, Hd).
      split_in.
      + eapply live_look; [done|unfold looks; set_solver].
      + eapply live_label; [by right| |done].
        destruct (Hlab k1 e k2) as (e' & ? & d' & out & err & ? & ?); [done|by eexists|]. simplify_eq.
        apply seen_app_r. exists e', out, (Some err). naive_solver.
      + by eapply live_extend.
    - eapply (may_live_sub base); [set_solver|]. eapply live_move; [exact (planned_move_stray resolved pvs base d Hr Hd)|done].
    - destruct (planned_drop_idle resolved pvs base d) as [Hi Hn]; [done..|].
      eapply (may_live_sub base); [set_solver|]. split_in; eauto using live_reduce, live_unlabel. }
  destruct r2 as [e2|]; [done|]. apply wp_live_assoc.
  apply wp_ebind. eapply wp_mono; [apply wp_PVs|]. intros t3 [e3|pvs'] [L3 _]; cbn [wp].
  - by apply live_app.
  - rewrite app_nil_r. by apply live_app.
Qed.

Lemma wp_VGInfo_live : wp (VGInfo vg) (λ tr _, lawful may_live tr).
Proof. unfold VGInfo. lives. Qed.
Lemma wp_SyncPercent_live : wp (SyncPercent vg) (λ tr _, lawful may_live tr).
Proof. unfold SyncPercent. lives. Qed.
Lemma wp_MD_Detail_live : wp (MD_Detail md) (λ tr _, lawful may_live tr).
Proof. unfold MD_Detail. lives. Qed.

(** One fallible step after a lawful prefix. *)
Lemma wp_live_ebind {A B} (p : io (error + A)) (f : A → io (error + B)) base : lawful may_live base →
  wp p (λ tr _, lawful may_live tr) →
  (∀ a t, lawful may_live (base ++ t) → wp (f a) (λ tr _, lawful may_live ((base ++ t) ++ tr))) →
  wp (ebind p f) (λ tr _, lawful may_live (base ++ tr)).
Proof.
  intros Lb Hp Hf. apply wp_ebind. eapply wp_mono; [exact Hp|]. intros t [e|a] Lt.
  - by apply live_app.
  - apply wp_live_assoc, Hf. by apply live_app.
Qed.
Lemma wp_live_guard {B} (p : io (option error)) (q : io (error + B)) base : lawful may_live base →
  wp p (λ tr _, lawful may_live tr) →
  (∀ t, lawful may_live (base ++ t) → wp q (λ tr _, lawful may_live ((base ++ t) ++ tr))) →
  wp (guard p q) (λ tr _, lawful may_live (base ++ tr)).
Proof.
  intros Lb Hp Hf. apply wp_guard. eapply wp_mono; [exact Hp|]. intros t [e|] Lt.
  - by apply live_app.
  - apply wp_live_assoc, Hf. by apply live_app.
Qed.
(** The last steps of a linear pass. *)
Lemma wp_linear_tail base (k : VGInfo_t → option Z → Report) : lawful may_live base →
  wp (let? info := VGInfo vg in let? rebuild := SyncPercent vg in Ret (inr (k info rebuild)))
     (λ tr _, lawful may_live (base ++ tr)).
Proof.
  intros Lb. apply wp_live_ebind; [done|apply wp_VGInfo_live|]. intros info t Lt.
  apply wp_live_ebind; [done|apply wp_SyncPercent_live|]. intros r t' Lt'. cbn. by rewrite app_nil_r.
Qed.

Lemma wp_linear_pass : wp (linear_pass pool) (λ tr _, lawful may_live tr).
Proof.
  apply (wp_live_guard _ _ [] (lawful_nil _)); [apply wp_ensure_vg; auto|]. intros t1 L1.
  apply wp_live_guard; [done|apply wp_ensure_thin|]. intros t2 L2.
  apply wp_ebind. eapply wp_mono; [apply wp_PVs|]. intros t3 [e3|pvs] [L3 Hp]; [by apply live_app|].
  apply wp_live_assoc. apply (live_app ([] ++ t1 ++ t2)) in L3; [|done]. rewrite app_assoc in L3.
  apply wp_bind_2. eapply wp_mono; [apply wp_ResolvePaths_live|]. intros t4 resolved [L4 Hr].
  apply wp_live_assoc. apply (live_app _ t4 L3) in L4.
  apply wp_ebind. eapply wp_mono; [apply wp_converge_linear; [exact L4| |]|].
  - intros d Hd. exact (seen_app_r _ _ _ _ _ (Hr d Hd)).
  - apply seen_app_l, seen_app_r. by apply Hp.
  - intros t5 [e5|c] L5; [done|]. apply wp_live_assoc, wp_linear_tail. done.
Qed.

(** The victim of a replace is not a spec device. *)
Lemma replace_victim_spec inSpec ms :
  replace_victim inSpec ms ≠ "" → replace_victim inSpec ms ∉ inSpec.
Proof.
  induction ms as [|mb ms IH]; cbn; [done|].
  destruct (_ && _) eqn:E; [|done]. bools. by rewrite <- bget_false.
Qed.

Lemma wp_join_device resolved members inSpec detail d base :
  resolved_by (devices pool) resolved base → d ∈ devices pool →
  inSpec = list_to_set (mget resolved <$> devices pool) →
  wp (join_device md resolved members inSpec detail d) (λ tr _, lawful (λ t, may_live (base ++ t)) tr).
Proof.
  intros Hr Hd Hin.
  assert (∀ old t, old ∉ inSpec → not_in_spec old (base ++ t)) as Hold.
  { intros old t Ho. eapply not_in_spec_sub; [|eapply not_in_spec_by; [done|]]; [set_solver|].
    intros x Hx <-. apply Ho. rewrite Hin. apply elem_of_list_to_set, list_elem_of_fmap. eauto. }
  unfold join_device, IsBlockDev, MD_Replace, MD_Add, MD_Detail, run_ok, run_err.
  wp_go; outs; bools; try apply lawful_nil;
    repeat (apply lawful_cons; [|]); try apply lawful_nil; cbv beta;
    solve [ eapply live_look; [reflexivity|unfold looks; first [left; in_list | right; split; reflexivity]]
          | eapply live_join; [|done|reflexivity]; in_list
          | eapply live_replace; [by apply Hold, replace_victim_spec|done|reflexivity] ].
Qed.

Lemma wp_converge_raid resolved detail base :
  lawful may_live base → resolved_by (devices pool) resolved base →
  wp (converge_raid md pool resolved detail) (λ tr _, lawful may_live (base ++ tr)).
Proof.
  intros Lb Hr. unfold converge_raid. apply wp_bind_2. eapply wp_mono.
  - apply (wp_for_state (lawful (λ t, may_live (base ++ t)))).
    + apply lawful_nil.
    + apply lawful_app. intros t1 t2 e. apply may_live_sub. set_solver.
    + intros s d Hd. by apply wp_join_device.
  - intros t r Lt. destruct r; cbn; rewrite app_nil_r; by apply lawful_app_dep.
Qed.

Lemma wp_raid_pass : wp (raid_pass pool) (λ tr _, lawful may_live tr).
Proof.
  apply (wp_live_guard _ _ [] (lawful_nil _)).
  { unfold ensure_array, MD_Exists, MD_Create, run_ok, run_err. lives. }
  intros t1 L1. apply wp_live_guard; [done|apply wp_ensure_vg; auto|]. intros t2 L2.
  apply wp_live_guard; [done|apply wp_ensure_thin|]. intros t3 L3.
  apply wp_bind_2. eapply wp_mono.
  { instantiate (1 := λ tr _, lawful may_live tr). unfold FailDetached, run_err. lives. }
  intros t4 r4 L4. apply wp_live_assoc. apply (live_app _ t4 L3) in L4.
  apply wp_live_ebind; [done|apply wp_MD_Detail_live|]. intros detail0 t5 L5.
  apply wp_live_ebind; [done| |].
  { unfold drop_failed. destruct (existsb _ _); [|apply lawful_nil].
    apply (wp_live_guard _ _ [] (lawful_nil _)); [unfold RemoveFailed, run_err; lives|].
    intros t Lt. apply wp_live_alone; [done|apply wp_MD_Detail_live]. }
  intros detail1 t6 L6. apply wp_bind_2. eapply wp_mono; [apply wp_ResolvePaths_live|].
  intros t7 resolved [L7 Hr]. apply wp_live_assoc. apply (live_app _ t7 L6) in L7.
  apply wp_ebind. eapply wp_mono; [apply wp_converge_raid; [exact L7|]|].
  { intros d Hd. exact (seen_app_r _ _ _ _ _ (Hr d Hd)). }
  intros t8 [e8|detail] L8; [done|]. apply wp_live_assoc.
  apply wp_live_ebind; [done|apply wp_VGInfo_live|]. intros info t9 L9. cbn. by rewrite app_nil_r.
Qed.

Lemma wp_Agent_EnsurePool : wp (Agent_EnsurePool pool) (λ tr _, lawful may_live tr).
Proof.
  unfold Agent_EnsurePool, ensureLinearPool, ensureRaidPool, reported. destruct (is_raid pool);
    apply wp_bind_2; (eapply wp_mono; [apply wp_raid_pass || apply wp_linear_pass|]);
    intros t [e|rep] Lt; cbn; by rewrite app_nil_r.
Qed.
End Live.


(** ** Witness: a first pass on a host without the VG *)
Definition demo_fresh (n : string) (a : list string) : string * option error :=
  if bool_decide (n = "pvs" ∧ a = ["/dev/sdb"]) || bool_decide (n = "vgs" ∧ length a = 1%nat)
  then ("", Some (errorf "not found")) else ("", None).
Definition demo_new_host (pool : StoragePool) : env op unit :=
  demo_env demo_fresh (demo_get (Some pool) None) list_none.

