(* ===== verification/PoolAgentSafety.v ===== *)
(** * The pool agent's reconcile: when it wipes, what it reports *)

From S2P Require Import Prelude GoStrings Prog ApiTypes Effects Demo Nodes Lvm Mdraid Replace Smart PoolAgent PoolTeardown PoolLive.

(** Commands that destroy data irrecoverably. *)
Definition wiping (n : string) (args : list string) : bool :=
  bool_decide (n = "vgremove") ||
  bool_decide (n = "pvremove") && bool_decide (take 2 args = ["-ff"; "-y"]) ||
  bool_decide (n = "mdadm") && (bool_decide (head args = Some "--stop") || bool_decide (head args = Some "--zero-superblock")).

Section Safety.
Context `{K8sMeta} `{HostParse} `{MapRange}.

Lemma live_not_wiping pool t e n args :
  may_live pool t e → cmd_of e = Some (n, args) → wiping n args = false.
Proof.
  intros Hl Hc. destruct Hl as [n' args' He Hl|d _ _ He|devs _ _ He|_ He|d _ He|d rest _ He|d _ _ He|d _ _ He
    |rest _ He|mode what _ He|mode d _ _ He|old d _ _ He]; rewrite Hc in He; simplify_eq; try reflexivity;
    [|unfold wiping; by rewrite (bool_decide_eq_false_2 (take 2 [d] = _))].
  destruct Hl as [Hl|[-> ->]]; [|reflexivity]. split_in; reflexivity.
Qed.

(** What a pass of the agent reads first. *)
Definition cleared (node : string) (pool : StoragePool) : Prop :=
  sp_Node (sp_spec pool) = node ∧ deleting (sp_meta pool) = true ∧
  IsStatusConditionTrue (sp_conds pool) ConditionDeregistered = true ∧
  IsStatusConditionTrue (sp_conds pool) ConditionTornDown = false.

(** The three outcomes of a pass. *)
Inductive agent_pass (node : string) (smart : option SmartStore) (req : NamespacedName)
    : trace op → reconcile → Prop :=
  | pass_quiet tr r : Forall reads_only tr → agent_pass node smart req tr r
  | pass_wipe pool tr0 tr1 r : cleared node pool → lawful (may_wipe pool) tr0 →
      (tr1 = [] ∧ r.2 ≠ None ∨ torn_down pool tr0 ∧ ∃ e,
         tr1 = [Ev (StatusUpdate KStoragePool
                 (sp_set_conds pool (SetStatusCondition (sp_conds pool) (torn_down_cond pool)))) e]) →
      agent_pass node smart req (Ev (Get KStoragePool req) (inr pool) :: tr0 ++ tr1) r
  | pass_live pool tr0 rep err e r : sp_Node (sp_spec pool) = node → deleting (sp_meta pool) = false →
      runs (Agent_EnsurePool pool) tr0 (rep, err) → lawful (may_live pool) tr0 →
      agent_pass node smart req
        (Ev (Get KStoragePool req) (inr pool) :: tr0 ++
         [Ev (StatusUpdate KStoragePool (pass_pool smart pool rep err)) e]) r.

Lemma wp_agent_deleting node smart req pool : sp_Node (sp_spec pool) = node → deleting (sp_meta pool) = true →
  wp (agent_deleting pool) (λ tr, agent_pass node smart req (Ev (Get KStoragePool req) (inr pool) :: tr)).
Proof.
  intros Hn Hd. unfold agent_deleting. wp_step; [by apply pass_quiet; repeat constructor|].
  wp_step; [by apply pass_quiet; repeat constructor|]. bools.
  assert (cleared node pool) by done.
  apply wp_bind_2. eapply wp_mono; [apply wp_TeardownPool|]. intros t0 [e|] [L D]; cbn [wp].
  { apply pass_wipe; auto. }
  wp_go; (apply pass_wipe; [done|done|right; split; [by apply D|eauto]]).
Qed.
Lemma wp_agent_live node smart req pool : sp_Node (sp_spec pool) = node → deleting (sp_meta pool) = false →
  wp (agent_live smart pool) (λ tr, agent_pass node smart req (Ev (Get KStoragePool req) (inr pool) :: tr)).
Proof.
  intros Hn Hd. unfold agent_live. apply wp_bind_2.
  eapply wp_mono; [apply wp_and; [apply (runs_wp _ (runs (Agent_EnsurePool pool))); eauto|apply wp_Agent_EnsurePool]|].
  intros t0 [rep err] [Hr L]. wp_go; by eapply pass_live.
Qed.
Lemma wp_PoolAgent_Reconcile node smart req :
  wp (PoolAgent_Reconcile node smart req) (agent_pass node smart req).
Proof.
  unfold PoolAgent_Reconcile. wp_go; bools; try (apply pass_quiet; by repeat constructor).
  - by apply wp_agent_deleting.
  - by apply wp_agent_live.
Qed.

Lemma agent_runs node smart req tr r :
  runs (PoolAgent_Reconcile node smart req) tr r → agent_pass node smart req tr r.
Proof. intros Hr. exact (wp_runs _ _ _ _ (wp_PoolAgent_Reconcile node smart req) Hr). Qed.

Lemma reads_only_observed e : reads_only e → cmd_of e = None ∧ ev_status KStoragePool e = None.
Proof. destruct e as [X o x]. by destruct o. Qed.
(** A command event writes no status. *)
Lemma cmd_no_status e n args : cmd_of e = Some (n, args) → ev_status KStoragePool e = None.
Proof. destruct e as [X o x]. by destruct o. Qed.
Lemma may_wipe_cmd pool t e : may_wipe pool t e → ∃ n args, cmd_of e = Some (n, args).
Proof. destruct 1; eauto. Qed.
Lemma may_live_cmd pool t e : may_live pool t e → ∃ n args, cmd_of e = Some (n, args).
Proof. destruct 1; eauto. Qed.
(** Commands alone write no status. *)
Lemma commands_no_status (allow : trace op → event op → Prop) tr e p :
  (∀ t e, allow t e → ∃ n args, cmd_of e = Some (n, args)) →
  lawful allow tr → e ∈ tr → ev_status KStoragePool e = Some p → False.
Proof.
  intros Ha L He Hs. apply (lawful_in _ _ e L) in He as (t1 & t2 & _ & Hm).
  destruct (Ha _ _ Hm) as (n & args & Hc). by rewrite (cmd_no_status _ _ _ Hc) in Hs.
Qed.

(** A failed pass reports the initial report. *)
Lemma wp_EnsurePool_failed pool :
  wp (Agent_EnsurePool pool) (λ _ '(rep, err), err ≠ None → rep = failed_report pool).
Proof.
  unfold Agent_EnsurePool, ensureLinearPool, ensureRaidPool, reported. destruct (is_raid pool);
    apply wp_bind_2; (eapply wp_mono; [apply wp_raid_pass || apply wp_linear_pass|]);
    intros t [e|rep] _; cbn; done.
Qed.

(** The status a live pass writes over what it read. *)
Definition status_kept (pool p : StoragePool) (err : option error) : Prop :=
  IsStatusConditionTrue (sp_conds p) ConditionHostReady = bool_decide (err = None) ∧
  (err ≠ None →
     sp_StatusDevices (sp_status p) = sp_StatusDevices (sp_status pool) ∧
     sp_RebuildPercent (sp_status p) = sp_RebuildPercent (sp_status pool) ∧
     sp_Capacity (sp_status p) = sp_Capacity (sp_status pool) ∧
     sp_Free (sp_status p) = sp_Free (sp_status pool) ∧
     sp_Health (sp_status p) = "Failed").
Lemma pass_pool_kept smart pool tr rep err :
  runs (Agent_EnsurePool pool) tr (rep, err) → status_kept pool (pass_pool smart pool rep err) err.
Proof.
  intros Hr. pose proof (wp_runs _ _ _ _ (wp_EnsurePool_failed pool) Hr) as Hf. cbn in Hf.
  split; [|intros He; rewrite (Hf He); done].
  unfold pass_pool, sp_conds. cbn [sp_set_conds sp_status sp_Conditions].
  rewrite (is_true_set_eq _ (host_ready pool err)). by destruct err.
Qed.
End Safety.

(** C2: The wipe needs the operator's clearance.  A pass of the agent runs a
    command that destroys data only if the StoragePool it read is on this
    agent's node, is being deleted, carries [Deregistered=True], and is not
    torn down yet. *)
Theorem wipe_only_when_cleared `{K8sMeta} `{HostParse} `{MapRange} node smart req tr r e n args :
  runs (PoolAgent_Reconcile node smart req) tr r →
  e ∈ tr → cmd_of e = Some (n, args) → wiping n args = true →
  ∃ pool, saw KStoragePool req (inr pool) tr ∧ cleared node pool.
Proof.
  intros Hr He Hc Hw.
  destruct (agent_runs _ _ _ _ _ Hr) as [tr r Hq|pool tr0 tr1 r Hcl _ _|pool tr0 rep err u r _ _ _ L].
  - rewrite Forall_forall in Hq. destruct (reads_only_observed e (Hq e He)). congruence.
  - exists pool. split; [eauto with evidence|done].
  - split_in; [done| |done]. apply (lawful_in _ _ e L) in He as (t1 & t2 & _ & Hm).
    by rewrite (live_not_wiping _ _ _ _ _ Hm Hc) in Hw.
Qed.

(** [TornDown] tells the truth.  The agent writes [TornDown=True] only on
    a pool that already carried it, or after a teardown in the same pass that
    left nothing of the pool behind. *)
Theorem torn_down_truthful `{K8sMeta} `{HostParse} `{MapRange} node smart req tr r e p :
  runs (PoolAgent_Reconcile node smart req) tr r →
  e ∈ tr → ev_status KStoragePool e = Some p →
  IsStatusConditionTrue (sp_conds p) ConditionTornDown = true →
  ∃ pool, saw KStoragePool req (inr pool) tr ∧
    (IsStatusConditionTrue (sp_conds pool) ConditionTornDown = true ∨
     cleared node pool ∧ torn_down pool tr).
Proof.
  intros Hr He Hs Ht.
  destruct (agent_runs _ _ _ _ _ Hr) as [tr r Hq|pool tr0 tr1 r Hcl L Hd|pool tr0 rep err u r _ _ _ L].
  - rewrite Forall_forall in Hq. destruct (reads_only_observed e (Hq e He)). congruence.
  - exists pool. split; [eauto with evidence|].
    destruct Hd as [[-> _]|(Hd & u & ->)]; rewrite ?app_nil_r in *.
    + split_in; [done|]. by destruct (commands_no_status _ _ _ _ (may_wipe_cmd pool) L He Hs).
    + right. split; [done|]. eapply torn_down_sub; [|done]. set_solver.
  - exists pool. split; [eauto with evidence|]. left. split_in; [done| |].
    + by destruct (commands_no_status _ _ _ _ (may_live_cmd pool) L He Hs).
    + cbn in Hs. kind_simpl. simplify_eq. unfold pass_pool in Ht. cbn in Ht.
      by rewrite is_true_set_ne in Ht.
Qed.

(** A failed pass keeps the last view.  Every status the agent writes is
    over the pool it read, spec and metadata untouched; outside a wipe it
    follows an [EnsurePool] run, marks [HostReady] true exactly when that run
    returned no error, and otherwise keeps devices, rebuild progress, capacity
    and free space as they were. *)
Theorem live_status_kept `{K8sMeta} `{HostParse} `{MapRange} node smart req tr r e p :
  runs (PoolAgent_Reconcile node smart req) tr r →
  e ∈ tr → ev_status KStoragePool e = Some p →
  ∃ pool, saw KStoragePool req (inr pool) tr ∧ sp_meta p = sp_meta pool ∧ sp_spec p = sp_spec pool ∧
    (cleared node pool ∨
     ∃ tr0 rep err, runs (Agent_EnsurePool pool) tr0 (rep, err) ∧ status_kept pool p err).
Proof.
  intros Hr He Hs.
  destruct (agent_runs _ _ _ _ _ Hr) as [tr r Hq|pool tr0 tr1 r Hcl L Hd|pool tr0 rep err u r _ _ Hrun L].
  - rewrite Forall_forall in Hq. destruct (reads_only_observed e (Hq e He)). congruence.
  - exists pool. split; [eauto with evidence|]. assert (e ∈ tr1) as He1.
    { split_in; [done| |done]. by destruct (commands_no_status _ _ _ _ (may_wipe_cmd pool) L He Hs). }
    clear He. destruct Hd as [[-> _]|(Hd & u & ->)]; split_in. cbn in Hs. kind_simpl. simplify_eq. auto.
  - exists pool. split; [eauto with evidence|]. split_in; [done| |].
    + by destruct (commands_no_status _ _ _ _ (may_live_cmd pool) L He Hs).
    + cbn in Hs. kind_simpl. simplify_eq. eauto 10 using pass_pool_kept.
Qed.

(** ** Naming the victims *)
Section Victims.
(** The members a linear report cannot name by kernel path. *)
Definition dead (specPath : gmap string string) (pv : PV) : Prop :=
  pv_Missing pv = true ∧ specPath !! pv_Name pv = None.
#[global] Instance dead_dec specPath pv : Decision (dead specPath pv).
Proof. unfold dead. apply _. Defined.

(** The paths the report gives them. *)
Definition victims (specPath : gmap string string) (pvs : list PV) (ds : list DeviceStatus) : list string :=
  (λ x, ds_Path x.2) <$> filter (λ x, dead specPath x.1) (zip pvs ds).

Lemma linear_devices_dead specPath added rebuild orphaned pvs :
  victims specPath pvs (linear_devices specPath added rebuild orphaned pvs) = take (length (filter (dead specPath) pvs)) orphaned ++
    (pv_Name <$> drop (length orphaned) (filter (dead specPath) pvs)).
Proof.
  unfold victims. revert orphaned. induction pvs as [|pv pvs IH]; intros orphaned; cbn [linear_devices zip_with]; [by destruct orphaned|].
  destruct (decide (dead specPath pv)) as [Hd|Hd].
  - destruct Hd as [Hm Hn] eqn:E. rewrite Hn, Hm. clear E.
    destruct orphaned as [|o os]; cbn [zip_with]; rewrite !filter_cons_True by done; cbn.
    + f_equal. rewrite IH. cbn. by rewrite take_nil, drop_0.
    + f_equal. apply IH.
  - destruct (match specPath !! pv_Name pv with Some sp => _ | None => _ end) as [path orphaned'] eqn:E.
    cbn [zip_with]. rewrite !filter_cons_False by done. rewrite IH.
    replace orphaned' with orphaned; [done|]. unfold dead in Hd.
    destruct (specPath !! pv_Name pv); [congruence|]. destruct orphaned, (pv_Missing pv); cbn in *; try congruence.
    tauto.
Qed.

Lemma linear_devices_shape specPath added rebuild orphaned pvs :
  Forall2 (λ pv d, ds_State d = linear_state added rebuild pv ∧
    (∀ sp, specPath !! pv_Name pv = Some sp → ds_Path d = sp)) pvs
    (linear_devices specPath added rebuild orphaned pvs).
Proof.
  revert orphaned. induction pvs as [|pv pvs IH]; intros orphaned; cbn; [constructor|].
  destruct (specPath !! pv_Name pv) eqn:E.
  - constructor; [|done]. cbn. naive_solver.
  - destruct orphaned; [|destruct (pv_Missing pv)]; (constructor; [|done]; cbn; naive_solver).
Qed.
End Victims.

(** A dead disk is named.  In a linear pool's report there is one entry
    per member, a live member appears under the spec device it belongs to,
    and, when the spec lost at least as many devices as members died, the dead
    members appear under distinct spec devices, none of which was seen alive. *)
Theorem linear_report_names_victims `{MapRange} pool resolved added pvs info rebuild :
  let specPath := spec_paths resolved in
  let rep := linear_report pool resolved added pvs info rebuild in
  let named := victims specPath pvs (rep_Devices rep) in
  NoDup (devices pool) →
  (length (filter (dead specPath) pvs) ≤ length (orphans (devices pool) (present_linear specPath pvs)))%nat →
  Forall2 (λ pv d, ds_State d = linear_state added rebuild pv ∧
    (∀ sp, specPath !! pv_Name pv = Some sp → ds_Path d = sp)) pvs (rep_Devices rep) ∧
  NoDup named ∧ length named = length (filter (dead specPath) pvs) ∧
  ∀ d, d ∈ named → d ∈ devices pool ∧ d ∉ present_linear specPath pvs.
Proof.
  intros specPath rep named Hnd Hlen. split; [apply linear_devices_shape|].
  assert (named = take (length (filter (dead specPath) pvs)) (orphans (devices pool) (present_linear specPath pvs))) as ->.
  { unfold named, rep. cbn [linear_report rep_Devices]. rewrite linear_devices_dead, drop_ge, app_nil_r; done. }
  split_and!.
  - eapply sublist_NoDup; [|apply sublist_take]. by apply NoDup_filter.
  - rewrite length_take. lia.
  - intros d Hd%elem_of_take. unfold orphans in Hd.
    destruct Hd as (i & Hd & _). apply list_elem_of_lookup_2, list_elem_of_filter in Hd as [Hb ?].
    by rewrite bget_false in Hb.
Qed.

(** ** Witnesses *)
#[local] Existing Instance RefMeta.meta.
#[local] Existing Instance demo_parse.
#[local] Existing Instance map_range.
Abbreviation demo_agent := (PoolAgent_Reconcile "n1" None (NN "" "tank")).

Lemma wipe_only_when_cleared_witness :
  ∃ pool, saw KStoragePool (NN "" "tank") (inr pool) (run demo_disks demo_agent tt).1.2 ∧ cleared "n1" pool.
Proof.
  apply (wipe_only_when_cleared "n1" None (NN "" "tank") _ _
    (Ev (Run "vgremove" ["-ff"; "-y"; "stornas-tank"]) ("", None)) "vgremove" ["-ff"; "-y"; "stornas-tank"]
    (run_runs demo_disks demo_agent tt)).
  - apply list_elem_of_In. vm_compute. tauto.
  - reflexivity.
  - vm_compute. reflexivity.
Defined.

Definition demo_torn : StoragePool :=
  sp_set_conds demo_deleting (SetStatusCondition (sp_conds demo_deleting) (torn_down_cond demo_deleting)).
Lemma torn_down_truthful_witness :
  ∃ pool, saw KStoragePool (NN "" "tank") (inr pool) (run demo_disks demo_agent tt).1.2 ∧
    (IsStatusConditionTrue (sp_conds pool) ConditionTornDown = true ∨
     cleared "n1" pool ∧ torn_down pool (run demo_disks demo_agent tt).1.2).
Proof.
  apply (torn_down_truthful "n1" None (NN "" "tank") _ _
    (Ev (StatusUpdate KStoragePool demo_torn) None) demo_torn (run_runs demo_disks demo_agent tt)).
  - apply list_elem_of_In. vm_compute. tauto.
  - exact (as_kind_refl KStoragePool demo_torn).
  - vm_compute. reflexivity.
Defined.

Definition demo_live : StoragePool := demo_pool [] None [].
(** A host where everything fails: the status keeps what it had. *)
Definition demo_broken : env op unit :=
  demo_env (λ _ _, ("", Some (errorf "boom"))) (demo_get (Some demo_live) None) list_none.
Lemma live_status_kept_witness :
  let p := pass_pool None demo_live (failed_report demo_live) (Some (errorf "boom")) in
  ∃ pool, saw KStoragePool (NN "" "tank") (inr pool) (run demo_broken demo_agent tt).1.2 ∧
    sp_meta p = sp_meta pool ∧ sp_spec p = sp_spec pool ∧
    (cleared "n1" pool ∨
     ∃ tr0 rep err, runs (Agent_EnsurePool pool) tr0 (rep, err) ∧ status_kept pool p err).
Proof.
  apply (live_status_kept "n1" None (NN "" "tank") _ _
    (Ev (StatusUpdate KStoragePool (pass_pool None demo_live (failed_report demo_live) (Some (errorf "boom")))) None) _
    (run_runs demo_broken demo_agent tt)).
  - apply list_elem_of_In. vm_compute. tauto.
  - exact (as_kind_refl KStoragePool _).
Defined.

Lemma linear_report_names_victims_witness :
  let pvs := [{| pv_Name := "[unknown]"; pv_Missing := true; pv_UsedBytes := 0 |}] in
  let resolved : gmap string string := {["/dev/sdb" := "/dev/sdb"]} in
  victims (spec_paths resolved) pvs (rep_Devices (linear_report demo_live resolved ∅ pvs
    {| SizeBytes := 1; FreeBytes := 0 |} None)) = ["/dev/sdb"] ∧
  "/dev/sdb" ∉ present_linear (spec_paths resolved) pvs.
Proof.
  split; [vm_compute; reflexivity|].
  eapply (linear_report_names_victims demo_live {["/dev/sdb" := "/dev/sdb"]} ∅
    [{| pv_Name := "[unknown]"; pv_Missing := true; pv_UsedBytes := 0 |}]
    {| SizeBytes := 1; FreeBytes := 0 |} None).
  - apply NoDup_singleton.
  - vm_compute. lia.
  - vm_compute. left.
Defined.
