(* ===== verification/PoolHandshake.v ===== *)
(** * Pool deletion as a protocol

    The operator's StoragePool workers, the pool agents of all nodes, r-drbd
    and the user run at once and meet only in the API server.  The state here
    is that server's StoragePools and r-drbd Pools with the passes in flight;
    a step is one operation of one pass (the programs of
    [StoragePoolController] and [PoolAgent], unchanged), the start or the loss
    of a pass, or a move of the user or of r-drbd.  The work queue of
    controller-runtime runs at most one pass per object and process.

    The API server: reads return the stored object; a write carries the
    resource version it was read at and is refused if the stored one moved
    on; every write takes a fresh version; a write answered with an error may
    or may not have happened.  [spec.node] is immutable (the CEL rule of
    storagepool_types.go) as are the location fields of an r-drbd Pool. *)

From S2P Require Import Prelude GoStrings Prog ApiTypes Effects Demo Registrar Nodes StoragePoolController Lvm Mdraid Replace Smart PoolAgent PoolTeardown PoolLive PoolAgentSafety.

Section Handshake.
Context `{K8sMeta} `{HostParse} `{MapRange}.

(** [clearing] is an auxiliary variable: the (node, pool name) pairs whose
    agent pass read a clearance.  No transition depends on it. *)
Record world := {
  sps : gmap string StoragePool;
  pools : gmap string Pool;
  used : gset string;
  clearing : gset (string * string);
}.
Definition set_clearing (w : world) (c : gset (string * string)) : world :=
  {| sps := sps w; pools := pools w; used := used w; clearing := c |}.
Definition set_pools (w : world) (ps : gmap string Pool) : world :=
  {| sps := sps w; pools := ps; used := used w; clearing := clearing w |}.
Definition set_sps (w : world) (m : gmap string StoragePool) (u : gset string) : world :=
  {| sps := m; pools := pools w; used := u; clearing := clearing w |}.

Definition rv (p : StoragePool) : string := ResourceVersion (sp_meta p).
Definition node_of (p : StoragePool) : string := sp_Node (sp_spec p).
(** The VG of the StoragePool called [nm]. *)
Definition vg_name (nm : string) : string := "stornas-" +:+ nm.

(** Store [p'] as the next version of [nm]. *)
Definition put (w : world) (nm : string) (p' : StoragePool) (w' : world) : Prop :=
  rv p' ∉ used w ∧ w' = set_sps w (<[nm := p']> (sps w)) ({[rv p']} ∪ used w).
(** The version check of a write of [o] over the stored [p]. *)
Definition unmoved (o p : StoragePool) : Prop := rv o = "" ∨ rv o = rv p.

(** A status write: the status of [o] on the stored metadata and spec. *)
Definition status_write (w : world) (o : StoragePool) (w' : world) : Prop :=
  ∃ p p', sps w !! Name (sp_meta o) = Some p ∧ unmoved o p ∧
    Name (sp_meta p') = Name (sp_meta p) ∧ DeletionTimestamp (sp_meta p') = DeletionTimestamp (sp_meta p) ∧
    sp_spec p' = sp_spec p ∧ sp_status p' = sp_status o ∧
    put w (Name (sp_meta o)) p' w'.
(** A write of metadata and spec: the status stays; an object under deletion
    that lost its last finalizer is gone. *)
Definition meta_write (w : world) (o p' : StoragePool) (w' : world) : Prop :=
  ∃ p, sps w !! Name (sp_meta o) = Some p ∧ unmoved o p ∧
    Name (sp_meta p') = Name (sp_meta p) ∧ DeletionTimestamp (sp_meta p') = DeletionTimestamp (sp_meta p) ∧
    node_of p' = node_of p ∧ sp_status p' = sp_status p ∧
    (put w (Name (sp_meta o)) p' w' ∨
     deleting (sp_meta p) = true ∧ Finalizers (sp_meta o) = [] ∧
     w' = set_sps w (delete (Name (sp_meta o)) (sps w)) (used w)).
Definition same_location (q q' : Pool) : Prop :=
  ps_Node (p_spec q') = ps_Node (p_spec q) ∧ ps_VG (p_spec q') = ps_VG (p_spec q).
Definition pool_create (w : world) (o : Pool) (w' : world) : Prop :=
  ∃ q, pools w !! Name (p_meta o) = None ∧ same_location o q ∧
    w' = set_pools w (<[Name (p_meta o) := q]> (pools w)).
(** A Pool is changed in place (a deletion timestamp, a status) or removed. *)
Definition pool_moves (w : world) (nm : string) (w' : world) : Prop :=
  w' = set_pools w (delete nm (pools w)) ∨
  ∃ q q', pools w !! nm = Some q ∧ same_location q q' ∧ w' = set_pools w (<[nm := q']> (pools w)).

(** What a read that sees the stored object may answer. *)
Definition reads {T} (stored : option T) (r : error + T) : Prop :=
  match r with
  | inr x => stored = Some x
  | inl e => IsNotFound (Some e) = true → stored = None
  end.

(** What the clients' caches answer a read, given what is stored.  Both
    processes read through an informer cache, which may be behind: the
    protocol is sound as long as it is not ([current]).  A cache that answers
    NotFound for a Pool the operator has just created lets the operator clear
    a deletion too early ([lagging_cache_clears]). *)
Context (cache : ∀ T, option T → error + T → Prop).
Definition current : Prop := ∀ T stored r, cache T stored r → reads stored r.

(** One operation: its answer and its effect.  Writes of these kinds that
    neither program issues are left open. *)
Definition api (w : world) {X} (o : op X) : X → world → Prop :=
  match o in op X return X → world → Prop with
  | Get k key =>
      match k return error + obj k → world → Prop with
      | KStoragePool => λ r w', cache _ (sps w !! nn_Name key) r ∧ w' = w
      | KPool => λ r w', cache _ (pools w !! nn_Name key) r ∧ w' = w
      | _ => λ _ w', w' = w
      end
  | StatusUpdate k x =>
      match k return obj k → option error → world → Prop with
      | KStoragePool => λ x r w',
          status_write w x w' ∨ w' = w ∧
            (r = None → ∃ p, sps w !! Name (sp_meta x) = Some p ∧ unmoved x p ∧ sp_status x = sp_status p)
      | _ => λ _ _ _, True
      end x
  | Update k x =>
      match k return obj k → error + obj k → world → Prop with
      | KStoragePool => λ x r w',
          match r with
          | inr p' => meta_write w x p' w'
          | inl _ => w' = w ∨ ∃ p', meta_write w x p' w'
          end
      | _ => λ _ _ _, True
      end x
  | Create k x =>
      match k return obj k → error + obj k → world → Prop with
      | KPool => λ x r w',
          pool_create w x w' ∨ w' = w ∧ ∃ e, r = inl e
      | _ => λ _ _ _, True
      end x
  | Delete k x =>
      match k return obj k → option error → world → Prop with
      | KPool => λ x r w', pool_moves w (Name (p_meta x)) w' ∨ w' = w
      | _ => λ _ _ _, True
      end x
  | PatchObj _ _ _ => λ _ _, True
  | _ => λ _ w', w' = w
  end.

(** The auxiliary variable follows the agent's read. *)
Definition mark (n nm : string) (w : world) {X} (o : op X) : X → world :=
  match o in op X return X → world with
  | Get k _ =>
      match k return error + obj k → world with
      | KStoragePool => λ r,
          match r with
          | inr p => if bool_decide (node_of p = n) && deleting (sp_meta p) && cond_true p ConditionDeregistered
                     then set_clearing w ({[(n, nm)]} ∪ clearing w) else w
          | inl _ => w
          end
      | _ => λ _, w
      end
  | _ => λ _, w
  end.

(** ** The system *)
Record sys := {
  wld : world;
  ops : gmap string (io reconcile);
  agents : gmap (string * string) (io reconcile);
}.

(** The user and r-drbd. *)
Inductive environment (w : world) : world → Prop :=
  | user_creates nm p w' : sps w !! nm = None → Name (sp_meta p) = nm →
      (∀ t, cond_true p t = false) → put w nm p w' → environment w w'
  | user_changes nm p p' w' : sps w !! nm = Some p → Name (sp_meta p') = nm →
      node_of p' = node_of p → sp_status p' = sp_status p →
      (deleting (sp_meta p) = true → deleting (sp_meta p') = true) →
      put w nm p' w' → environment w w'
  | user_removes nm : environment w (set_sps w (delete nm (sps w)) (used w))
  | rdrbd_moves nm w' : pool_moves w nm w' → environment w w'
  | foreign_pool nm q : pools w !! nm = None → (∀ x, ps_VG (p_spec q) ≠ vg_name x) →
      environment w (set_pools w (<[nm := q]> (pools w))).

Inductive step (s : sys) : sys → Prop :=
  | op_starts nm recorder : ops s !! nm = None →
      step s {| wld := wld s; agents := agents s;
                ops := <[nm := StoragePool_Reconcile recorder (NN "" nm)]> (ops s) |}
  | op_steps nm X (o : op X) k x w' : ops s !! nm = Some (Op o k) → api (wld s) o x w' →
      step s {| wld := w'; agents := agents s; ops := <[nm := k x]> (ops s) |}
  | op_ends nm : step s {| wld := wld s; agents := agents s; ops := delete nm (ops s) |}
  | agent_starts n nm smart : agents s !! (n, nm) = None →
      step s {| wld := set_clearing (wld s) (clearing (wld s) ∖ {[(n, nm)]}); ops := ops s;
                agents := <[(n, nm) := PoolAgent_Reconcile n smart (NN "" nm)]> (agents s) |}
  | agent_steps n nm X (o : op X) k x w' : agents s !! (n, nm) = Some (Op o k) → api (wld s) o x w' →
      step s {| wld := mark n nm w' o x; ops := ops s; agents := <[(n, nm) := k x]> (agents s) |}
  | agent_ends n nm :
      step s {| wld := set_clearing (wld s) (clearing (wld s) ∖ {[(n, nm)]}); ops := ops s;
                agents := delete (n, nm) (agents s) |}
  | env_moves w' : environment (wld s) w' →
      step s {| wld := w'; ops := ops s; agents := agents s |}.

(** An empty cluster. *)
Definition empty_world : world := {| sps := ∅; pools := ∅; used := {[""]}; clearing := ∅ |}.
Definition start : sys := {| wld := empty_world; ops := ∅; agents := ∅ |}.
Inductive reached : sys → Prop :=
  | reached_start : reached start
  | reached_step s s' : reached s → step s s' → reached s'.

(** ** The invariant of the stored objects *)
Definition dereg (p : StoragePool) : bool := cond_true p ConditionDeregistered.
Definition host_up (p : StoragePool) : bool := cond_true p ConditionHostReady.

(** Some r-drbd Pool is registered for the VG of [nm] on node [n]. *)
Definition registered (w : world) (n nm : string) : Prop :=
  ∃ x q, pools w !! x = Some q ∧ ps_Node (p_spec q) = n ∧ ps_VG (p_spec q) = vg_name nm.

Record good (w : world) : Prop := {
  good_empty : "" ∈ used w;
  good_name nm p : sps w !! nm = Some p → Name (sp_meta p) = nm ∧ rv p ∈ used w ∧ rv p ≠ "";
  good_pool x q nm : pools w !! x = Some q → ps_VG (p_spec q) = vg_name nm → x = nm;
  good_dereg nm p : sps w !! nm = Some p → dereg p = true →
    deleting (sp_meta p) = true ∧ ¬ registered w (node_of p) nm;
  good_clear n nm : (n, nm) ∈ clearing w → ¬ registered w n nm ∧
    ∀ p, sps w !! nm = Some p → node_of p = n → dereg p = true ∨ host_up p = false;
}.

(** What everyone but the operator's worker of [nm] may do to it. *)
Record op_rely (nm : string) (w w' : world) : Prop := {
  or_used : used w ⊆ used w';
  or_sp p' : sps w' !! nm = Some p' → sps w !! nm = Some p' ∨
    rv p' ∉ used w ∧ (dereg p' = true → ∃ p, sps w !! nm = Some p ∧ dereg p = true);
  or_clear n : (n, nm) ∈ clearing w' → (n, nm) ∈ clearing w ∨
    ∃ p, sps w !! nm = Some p ∧ dereg p = true;
  or_pool n : registered w' n nm → registered w n nm;
}.
(** What everyone but the agent of node [n] may do to its pass for [nm]. *)
Record agent_rely (n nm : string) (w w' : world) : Prop := {
  ar_used : used w ⊆ used w';
  ar_sp p' : sps w' !! nm = Some p' → sps w !! nm = Some p' ∨ rv p' ∉ used w;
  ar_clear : (n, nm) ∈ clearing w' ↔ (n, nm) ∈ clearing w;
}.

Lemma op_rely_refl nm w : op_rely nm w w.
Proof. constructor; auto. Qed.
Lemma agent_rely_refl n nm w : agent_rely n nm w w.
Proof. constructor; auto. Qed.

(** The promises of the three kinds of party. *)
Definition op_guar (nm : string) (w w' : world) : Prop :=
  good w' ∧ (∀ m, m ≠ nm → op_rely m w w') ∧ (∀ n m, agent_rely n m w w').
Definition agent_guar (n nm : string) (w w' : world) : Prop :=
  good w' ∧ (∀ m, op_rely m w w') ∧ (∀ n' m, (n', m) ≠ (n, nm) → agent_rely n' m w w').
Definition env_guar (w w' : world) : Prop :=
  good w' ∧ (∀ m, op_rely m w w') ∧ (∀ n m, agent_rely n m w w').
Lemma op_guar_refl nm w : good w → op_guar nm w w.
Proof. intros. split_and!; eauto using op_rely_refl, agent_rely_refl. Qed.
Lemma agent_guar_refl n nm w : good w → agent_guar n nm w w.
Proof. intros. split_and!; eauto using op_rely_refl, agent_rely_refl. Qed.
Lemma env_op_guar nm w w' : env_guar w w' → op_guar nm w w'.
Proof. intros (? & ? & ?). split_and!; auto. Qed.
Lemma env_agent_guar n nm w w' : env_guar w w' → agent_guar n nm w w'.
Proof. intros (? & ? & ?). split_and!; auto. Qed.

(** ** The moves and what they keep *)

(** A new version of a stored StoragePool keeps the invariant when a new
    clearance comes with a deletion and no registered Pool, and a pass that
    is clearing the host is not told that the host is ready. *)
Definition lawful_put (w : world) (nm : string) (p p' : StoragePool) : Prop :=
  Name (sp_meta p') = nm ∧ node_of p' = node_of p ∧
  (dereg p' = true → deleting (sp_meta p') = true ∧ ¬ registered w (node_of p) nm) ∧
  ((node_of p, nm) ∈ clearing w → dereg p' = true ∨ host_up p' = false).

Lemma registered_sps w m u n nm : registered (set_sps w m u) n nm ↔ registered w n nm.
Proof. done. Qed.
Lemma lookup_put w nm p' w' m q : put w nm p' w' → sps w' !! m = Some q →
  m = nm ∧ q = p' ∨ m ≠ nm ∧ sps w !! m = Some q.
Proof.
  intros [_ ->] Hq. cbn in Hq. destruct (decide (m = nm)) as [->|].
  - rewrite lookup_insert_eq in Hq. simplify_eq. auto.
  - rewrite lookup_insert_ne in Hq by done. auto.
Qed.
Lemma put_good w nm p p' w' :
  good w → sps w !! nm = Some p → lawful_put w nm p p' → put w nm p' w' → good w'.
Proof.
  intros [He Hn Hp Hd Hc] Hw (Hnm & Hnode & Hde & Hcl) Hput.
  pose proof (λ m q, lookup_put w nm p' w' m q Hput) as Hl. destruct Hput as [Hf ->].
  constructor; cbn [used pools clearing set_sps].
  - set_solver.
  - intros m q [[-> ->]|[? Hq]]%Hl.
    + split_and!; [done|set_solver|]. intros E. rewrite E in Hf. done.
    + destruct (Hn m q Hq) as (? & ? & ?). split_and!; [done| |done]. by apply elem_of_union_r.
  - done.
  - intros m q [[-> ->]|[? Hq]]%Hl; rewrite registered_sps; [rewrite Hnode; auto|eauto].
  - intros n m Hin. destruct (Hc n m Hin) as [Hr Hs]. rewrite registered_sps. split; [done|].
    intros q [[-> ->]|[? Hq]]%Hl Hqn; [|eauto]. apply Hcl. rewrite <- Hnode, Hqn. done.
Qed.
Lemma put_used w nm p' w' : put w nm p' w' → used w ⊆ used w'.
Proof. intros [_ ->]. cbn. set_solver. Qed.
Lemma put_agent_rely n m w nm p' w' : put w nm p' w' → agent_rely n m w w'.
Proof.
  intros Hput. constructor; [by eapply put_used| |by destruct Hput as [_ ->]].
  intros q [[-> ->]|[? Hq]]%(lookup_put _ _ _ _ _ _ Hput); [right|by left]. apply Hput.
Qed.
Lemma put_op_rely m w nm p' w' : put w nm p' w' →
  (m = nm → dereg p' = true → ∃ p, sps w !! m = Some p ∧ dereg p = true) → op_rely m w w'.
Proof.
  intros Hput Hd. constructor.
  - by eapply put_used.
  - intros q [[-> ->]|[? Hq]]%(lookup_put _ _ _ _ _ _ Hput); [right|by left]. split; [apply Hput|auto].
  - destruct Hput as [_ ->]. auto.
  - by destruct Hput as [_ ->].
Qed.
(** The operator's own version of [nm]. *)
Lemma put_op_guar w nm p p' w' :
  good w → sps w !! nm = Some p → lawful_put w nm p p' → put w nm p' w' → op_guar nm w w'.
Proof.
  intros. split_and!; eauto using put_good, put_agent_rely.
  intros m Hm. eapply put_op_rely; [done|]. intros ->. done.
Qed.
(** Any other party's version: it grants no clearance. *)
Lemma put_env_guar w nm p p' w' :
  good w → sps w !! nm = Some p → lawful_put w nm p p' → (dereg p' = true → dereg p = true) →
  put w nm p' w' → env_guar w w'.
Proof.
  intros ? ? ? Hd ?. split_and!; eauto using put_good, put_agent_rely.
  intros m. eapply put_op_rely; [done|]. intros -> Hp. eauto.
Qed.

(** An object that goes away breaks nothing. *)
Lemma remove_env_guar w nm : good w → env_guar w (set_sps w (delete nm (sps w)) (used w)).
Proof.
  intros [He Hn Hp Hd Hc].
  assert (∀ m q, delete nm (sps w) !! m = Some q → sps w !! m = Some q) as Hl.
  { intros m q Hq. by apply lookup_delete_Some in Hq as [_ Hq]. }
  split_and!.
  - constructor; cbn [used pools clearing sps set_sps]; [done|eauto|done|eauto|].
    intros n m Hin. destruct (Hc n m Hin). split; eauto.
  - intros m. constructor; cbn; eauto.
  - intros n m. constructor; cbn; eauto.
Qed.

(** Pools that only move or vanish, and foreign ones, register nothing. *)
Lemma pools_env_guar w ps : good w →
  (∀ x q nm, ps !! x = Some q → ps_VG (p_spec q) = vg_name nm →
     ∃ q0, pools w !! x = Some q0 ∧ same_location q0 q) →
  env_guar w (set_pools w ps).
Proof.
  intros [He Hn Hp Hd Hc] Hps.
  assert (∀ n nm, registered (set_pools w ps) n nm → registered w n nm) as Hr.
  { intros n nm (x & q & Hq & Hqn & Hqv). destruct (Hps x q nm Hq Hqv) as (q0 & ? & [E1 E2]).
    exists x, q0. split; [done|]. by rewrite <- E1, <- E2. }
  split_and!.
  - constructor; cbn [used pools clearing sps set_pools]; [done|done| | |].
    + intros x q nm Hq Hv. destruct (Hps x q nm Hq Hv) as (q0 & Hq0 & [_ E2]). apply (Hp x q0); [done|congruence].
    + intros nm p Hsp Hde. destruct (Hd nm p Hsp Hde). eauto.
    + intros n nm Hin. destruct (Hc n nm Hin). eauto.
  - intros m. constructor; cbn; eauto.
  - intros n m. constructor; cbn; eauto.
Qed.
Lemma moves_env_guar w nm w' : good w → pool_moves w nm w' → env_guar w w'.
Proof.
  intros Hg [->|(q & q' & Hq & Hl & ->)]; apply pools_env_guar; try done; intros x y m Hy Hv.
  - apply lookup_delete_Some in Hy as [_ Hy]. by exists y.
  - apply lookup_insert_Some in Hy as [[<- <-]|[_ Hy]]; [by exists q|by exists y].
Qed.
Lemma foreign_env_guar w nm q : good w → (∀ x, ps_VG (p_spec q) ≠ vg_name x) →
  env_guar w (set_pools w (<[nm := q]> (pools w))).
Proof.
  intros Hg Hf. apply pools_env_guar; [done|]. intros x y m Hy Hv.
  apply lookup_insert_Some in Hy as [[<- <-]|[_ Hy]]; [by destruct (Hf m)|by exists y].
Qed.

(** The operator registers a Pool for [nm]: nobody may be clearing its host,
    and the clearance must not have been given. *)
Lemma create_op_guar w nm n q : good w →
  ps_Node (p_spec q) = n → ps_VG (p_spec q) = vg_name nm → pools w !! nm = None →
  (n, nm) ∉ clearing w → (∀ p, sps w !! nm = Some p → dereg p = false) →
  op_guar nm w (set_pools w (<[nm := q]> (pools w))).
Proof.
  intros [He Hn Hp Hd Hc] Hqn Hqv Hnone Hcl Hde.
  assert (∀ n' m, registered (set_pools w (<[nm := q]> (pools w))) n' m →
    registered w n' m ∨ n' = n ∧ m = nm) as Hr.
  { intros n' m (x & y & Hy & Hyn & Hyv). cbn in Hy.
    apply lookup_insert_Some in Hy as [[<- <-]|[_ Hy]]; [right|left; by exists x, y].
    split; [congruence|]. rewrite Hqv in Hyv. unfold vg_name in Hyv. by simplify_eq. }
  split_and!.
  - constructor; cbn [used pools clearing sps set_pools]; [done|done| | |].
    + intros x y m Hy Hv. apply lookup_insert_Some in Hy as [[<- <-]|[_ Hy]]; [|eauto].
      rewrite Hqv in Hv. unfold vg_name in Hv. by simplify_eq.
    + intros m p Hsp Hpd. destruct (Hd m p Hsp Hpd) as [? Hno]. split; [done|].
      intros [?|[_ ->]]%Hr; [done|]. rewrite (Hde p Hsp) in Hpd. done.
    + intros n' m Hin. destruct (Hc n' m Hin) as [Hno ?]. split; [|done].
      intros [?|[-> ->]]%Hr; done.
  - intros m Hm. constructor; cbn; auto. intros n' [?|[_ ?]]%Hr; done.
  - intros n' m. constructor; cbn; auto.
Qed.

(** ** Programs against an interfering world

    [safe p Φ Q]: run from any good world satisfying [Φ], each operation of
    [p] is [allowed], its effect keeps the promise [G], and afterwards some
    assertion the others cannot break holds from which the rest is safe; a
    result comes with an assertion satisfying [Q]. *)
Section Party.
Context (R G : world → world → Prop) (allowed : ∀ X, op X → world → Prop).
Context (act : ∀ X, world → op X → X → world → Prop).

Definition stable (Φ : world → Prop) : Prop := ∀ w w', good w → Φ w → R w w' → Φ w'.

Fixpoint safe {A} (p : io A) (Φ : world → Prop) (Q : A → (world → Prop) → Prop) : Prop :=
  match p with
  | Ret a => Q a Φ
  | Op o k => ∀ w, good w → Φ w → allowed _ o w ∧
      ∀ x w', act _ w o x w' → G w w' ∧ ∃ Φ', stable Φ' ∧ Φ' w' ∧ safe (k x) Φ' Q
  end.
Abbreviation secure p Φ := (safe p Φ (λ _ _, True)).

(** A pass in flight. *)
Definition running {A} (p : io A) (w : world) : Prop := ∃ Φ, stable Φ ∧ Φ w ∧ secure p Φ.

Lemma running_rely {A} (p : io A) w w' : good w → running p w → R w w' → running p w'.
Proof. intros Hg (Φ & Hs & HΦ & Hp) HR. exists Φ. eauto. Qed.
Lemma running_step {A X} (o : op X) (k : X → io A) w x w' :
  good w → running (Op o k) w → act _ w o x w' → G w w' ∧ running (k x) w'.
Proof. intros Hg (Φ & Hs & HΦ & Hp) Ha. by apply (Hp w Hg HΦ). Qed.
Lemma running_allowed {A X} (o : op X) (k : X → io A) w :
  good w → running (Op o k) w → allowed _ o w.
Proof. intros Hg (Φ & Hs & HΦ & Hp). by apply (Hp w Hg HΦ). Qed.

Lemma safe_bind {A B} (p : io A) (f : A → io B) Φ Q :
  safe p Φ (λ a Ψ, safe (f a) Ψ Q) → safe (bind p f) Φ Q.
Proof.
  revert Φ. induction p as [a|X o k IH]; cbn; intros Φ Hp; [done|]. intros w Hg HΦ.
  destruct (Hp w Hg HΦ) as [Ha Hx]. split; [done|]. intros x w' Hw.
  destruct (Hx x w' Hw) as (HG & Φ' & ? & ? & ?). split; [done|]. exists Φ'. auto.
Qed.
Lemma safe_mono {A} (p : io A) Φ Q Q' :
  stable Φ → safe p Φ Q → (∀ a Ψ, stable Ψ → Q a Ψ → Q' a Ψ) → safe p Φ Q'.
Proof.
  intros HΦ Hp HQ. revert Φ HΦ Hp. induction p as [a|X o k IH]; cbn; [eauto|]. intros Φ _ Hp w Hg Hw.
  destruct (Hp w Hg Hw) as [Ha Hx]. split; [done|]. intros x w' Hw'.
  destruct (Hx x w' Hw') as (HG & Φ' & Hs & ? & ?). split; [done|]. exists Φ'. eauto.
Qed.
Lemma secure_weaken {A} (p : io A) (Φ Ψ : world → Prop) :
  (∀ w, Ψ w → Φ w) → secure p Φ → secure p Ψ.
Proof. intros Hi Hp. destruct p; [done|]. intros w Hg HΨ. auto. Qed.

Context (G_refl : ∀ w, good w → G w w).
(** Operations that leave the world alone keep the assertion. *)
Lemma safe_still {A X} (o : op X) (k : X → io A) Φ Q :
  stable Φ → (∀ w, Φ w → allowed _ o w) → (∀ w x w', act _ w o x w' → w' = w) →
  (∀ x, safe (k x) Φ Q) → safe (Op o k) Φ Q.
Proof using G_refl.
  intros Hs Ha Hw Hk w Hg HΦ. split; [auto|]. intros x w' ->%Hw. split; [auto|]. eauto.
Qed.
Lemma safe_issues {A} (p : io A) Φ :
  stable Φ → issues (λ X o, (∀ w, Φ w → allowed X o w) ∧ ∀ w x w', act X w o x w' → w' = w) p →
  safe p Φ (λ _ Ψ, Ψ = Φ).
Proof using G_refl.
  intros Hs Hp. induction p as [a|X o k IH]; cbn; [auto|]. destruct Hp as [[Ha Hw] Hk].
  apply (safe_still o k); auto.
Qed.
(** The last write of a pass. *)
Lemma secure_last {A X} (o : op X) (k : X → io A) Φ :
  (∀ w, good w → Φ w → allowed _ o w) →
  (∀ w x w', good w → Φ w → act _ w o x w' → G w w') →
  (∀ x, ∃ a, k x = Ret a) → secure (Op o k) Φ.
Proof.
  intros Ha HG Hk w Hg HΦ. split; [auto|]. intros x w' Hx. split; [eauto|].
  exists (λ _, True). split_and!; [by intros ?|done|]. by destruct (Hk x) as [a ->].
Qed.
End Party.

(** The object [p] as a client holds it: if its version is still the stored
    one, then so is the object. *)
Definition held (nm : string) (p : StoragePool) (w : world) : Prop :=
  Name (sp_meta p) = nm ∧ rv p ∈ used w ∧ rv p ≠ "" ∧ ∀ q, sps w !! nm = Some q → rv q = rv p → q = p.
Lemma held_read w nm p : good w → sps w !! nm = Some p → held nm p w.
Proof.
  intros Hg Hp. destruct (good_name w Hg nm p Hp) as (? & ? & ?). split_and!; [done..|]. naive_solver.
Qed.
Lemma held_next nm p w w' : used w ⊆ used w' →
  (∀ q, sps w' !! nm = Some q → sps w !! nm = Some q ∨ rv q ∉ used w) → held nm p w → held nm p w'.
Proof.
  intros Hu Hq (? & Hin & ? & Hs). split_and!; [done|set_solver|done|].
  intros q [Hw|Hf]%Hq Heq; [auto|]. by rewrite Heq in Hf.
Qed.
Lemma held_op nm p : stable (op_rely nm) (held nm p).
Proof.
  intros w w' _ Hh [Hu Hs _ _]. eapply held_next; [done| |done].
  intros q [?|[? _]]%Hs; auto.
Qed.
Lemma held_agent n nm p : stable (agent_rely n nm) (held nm p).
Proof. intros w w' _ Hh [Hu Hs _]. by eapply held_next. Qed.
(** A write from [p] that the server accepts finds [p] itself. *)
Lemma held_unmoved nm p o q w : held nm p w → rv o = rv p → sps w !! nm = Some q → unmoved o q → q = p.
Proof. intros (? & ? & ? & Hs) Hrv Hq [E|E]; [congruence|]. apply Hs; congruence. Qed.

Lemma stable_and R (Φ Ψ : world → Prop) : stable R Φ → stable R Ψ → stable R (λ w, Φ w ∧ Ψ w).
Proof. intros HΦ HΨ w w' Hg [? ?] HR. eauto. Qed.

(** A status write that changes the conditions lawfully. *)
Lemma status_write_inv nm p o w w' :
  held nm p w → sp_meta o = sp_meta p → status_write w o w' →
  ∃ p', sps w !! nm = Some p ∧ put w nm p' w' ∧ Name (sp_meta p') = nm ∧
    deleting (sp_meta p') = deleting (sp_meta p) ∧ sp_spec p' = sp_spec p ∧ sp_status p' = sp_status o.
Proof.
  intros Hh Hm (q & p' & Hq & Hun & Hn & Hd & Hs & Hst & Hput).
  destruct (id Hh) as (Hnm & _). rewrite Hm, Hnm in *.
  assert (q = p) as -> by (eapply held_unmoved; [done| |done|done]; unfold rv; by rewrite Hm).
  exists p'. split_and!; try done; [congruence|]. unfold deleting. by rewrite Hd.
Qed.
Lemma conds_of_status p p' t : sp_status p' = sp_status p → cond_true p' t = cond_true p t.
Proof. unfold cond_true, sp_conds. by intros ->. Qed.

(** ** The operator's worker *)
Abbreviation op_safe nm := (safe (op_rely nm) (op_guar nm) (λ _ _ _, True) (λ X w, @api w X)).
Abbreviation op_secure nm p Φ := (op_safe nm p Φ (λ _ _, True)).

Lemma op_status nm p o {A} (k : option error → io A) Φ :
  (∀ w, Φ w → held nm p w) → sp_meta o = sp_meta p →
  (∀ w, good w → Φ w → sps w !! nm = Some p →
     (dereg o = true → deleting (sp_meta p) = true ∧ ¬ registered w (node_of p) nm) ∧
     ((node_of p, nm) ∈ clearing w → dereg o = true ∨ host_up o = false)) →
  (∀ x, ∃ a, k x = Ret a) → op_secure nm (Op (StatusUpdate KStoragePool o) k) Φ.
Proof.
  intros Hh Hm Hl Hk. apply secure_last; [done| |done].
  intros w x w' Hg HΦ [Hs|[-> _]]; [|by apply op_guar_refl].
  destruct (status_write_inv nm p o w w' (Hh w HΦ) Hm Hs) as (p' & Hp & Hput & Hn & Hd & Hsp & Hst).
  destruct (Hl w Hg HΦ Hp) as [L1 L2]. eapply put_op_guar; [done|done| |done].
  assert (dereg p' = dereg o ∧ host_up p' = host_up o) as [E1 E2] by (split; by apply conds_of_status).
  unfold lawful_put, node_of. rewrite E1, E2, Hd, Hsp. split_and!; auto.
Qed.

(** A write of finalizers keeps everything the protocol looks at. *)
Lemma meta_write_guar nm p o p' w w' :
  good w → held nm p w → meta_write w o p' w' → rv o = rv p → Name (sp_meta o) = Name (sp_meta p) →
  op_guar nm w w' ∧ (deleting (sp_meta p) = false → sps w' !! nm = Some p' ∧ deleting (sp_meta p') = false).
Proof.
  intros Hg Hh (q & Hq & Hun & Hn & Hd & Hnode & Hst & Hw) Hrv Hnm.
  destruct (id Hh) as (Hpn & _). rewrite Hnm, Hpn in *.
  assert (q = p) as -> by (by eapply held_unmoved).
  assert (deleting (sp_meta p') = deleting (sp_meta p)) as Hdd by (unfold deleting; by rewrite Hd).
  destruct Hw as [Hput|(Hdel & _ & ->)].
  - split; [|intros; split; [|congruence]; destruct Hput as [_ ->]; cbn; apply lookup_insert_eq].
    eapply put_op_guar; [done|done| |done]. unfold lawful_put.
    assert (dereg p' = dereg p ∧ host_up p' = host_up p) as [-> ->] by (split; by apply conds_of_status).
    rewrite Hdd. split_and!; [congruence|done| |].
    + intros Hde. by apply (good_dereg w Hg).
    + intros Hin. by apply (proj2 (good_clear w Hg _ _ Hin)).
  - split; [|congruence]. apply env_op_guar. by apply remove_env_guar.
Qed.

Lemma unregistered_absent w n nm : good w → pools w !! nm = None → ¬ registered w n nm.
Proof. intros Hg Hn (x & q & Hq & _ & Hv). rewrite (good_pool w Hg x q nm Hq Hv) in Hq. congruence. Qed.
Lemma unregistered_foreign w p q nm : good w → Name (sp_meta p) = nm → pools w !! nm = Some q → ¬ owns p q →
  ¬ registered w (node_of p) nm.
Proof.
  intros Hg Hp Hq Ho (x & q' & Hq' & Hn & Hv).
  rewrite (good_pool w Hg x q' nm Hq' Hv) in Hq'. simplify_eq. apply Ho. split; done.
Qed.
Lemma registered_owned w p q nm : Name (sp_meta p) = nm → pools w !! nm = Some q → owns p q →
  registered w (node_of p) nm.
Proof. intros <- Hq [Hn Hv]. exists (Name (sp_meta p)), q. done. Qed.

(** The worker holds [p] and knows that nothing is registered for it. *)
Definition freed nm p w : Prop := held nm p w ∧ ¬ registered w (node_of p) nm.
Lemma freed_stable nm p : stable (op_rely nm) (freed nm p).
Proof.
  apply stable_and; [apply held_op|]. intros w w' _ Hr HR Hn. apply Hr. by apply (or_pool _ _ _ HR).
Qed.
(** The worker holds a [p] that, if it carried a clearance, is outdated. *)
Definition outdated nm p w : Prop := held nm p w ∧ (dereg p = true → sps w !! nm ≠ Some p).
Lemma outdated_stable nm p : stable (op_rely nm) (outdated nm p).
Proof.
  intros w w' Hg [Hh Ho] HR. split; [by eapply held_op|]. intros Hd Hp.
  destruct (or_sp _ _ _ HR p Hp) as [?|[Hf _]]; [by apply Ho|]. destruct Hh as (_ & ? & _). done.
Qed.

Ltac rets := intros; repeat case_match; eauto.

(** From here on, under a current cache. *)
Context (Hcur : current).
#[local] Set Default Proof Using "All".
(** What a current cache answers. *)
Definition seen (w : world) (k : kind) (name : string) : error + obj k → Prop :=
  match k return error + obj k → Prop with
  | KStoragePool => reads (sps w !! name)
  | KPool => reads (pools w !! name)
  | _ => λ _, True
  end.
Lemma api_get w k key x w' : api w (Get k key) x w' → seen w k (nn_Name key) x ∧ w' = w.
Proof. destruct k; cbn; try (intros ->; done). all: intros [Hc ->]; split; [by apply Hcur|done]. Qed.

(** A read by the operator: the world is unchanged. *)
Lemma op_get nm {A} k key (f : error + obj k → io A) Φ Q :
  (∀ w x, good w → Φ w → seen w k (nn_Name key) x → ∃ Φ', stable (op_rely nm) Φ' ∧ Φ' w ∧ op_safe nm (f x) Φ' Q) →
  op_safe nm (Op (Get k key) f) Φ Q.
Proof.
  intros Hf w Hg HΦ. split; [done|]. intros x w' [Hx ->]%api_get.
  split; [by apply op_guar_refl|eauto].
Qed.

(** What [DeletePool]'s answer means in the shared world. *)
Lemma safe_DeletePool nm p : Name (sp_meta p) = nm →
  op_safe nm (DeletePool p) (held nm p) (λ '(gone, msg, err) Φ, err = None →
    ∀ w, Φ w → if gone then freed nm p w else outdated nm p w).
Proof.
  intros Hn. unfold DeletePool, call. cbn [bind]. apply (op_get nm KPool). cbn. rewrite Hn.
  intros w [e|q] Hg Hh Hr.
  - destruct (IsNotFound (Some e)) eqn:Ee; [|by exists (held nm p); split_and!; [apply held_op|done|cbn]].
    exists (freed nm p). split_and!; [apply freed_stable| |by intros _ ?]. split; [done|].
    apply unregistered_absent; [done|]. by apply Hr.
  - destruct (negb _ || negb _) eqn:Eo.
    { exists (freed nm p). split_and!; [apply freed_stable| |by intros _ ?].
      split; [done|]. eapply unregistered_foreign; [done..|by apply not_owns_test]. }
    apply owns_test in Eo. exists (outdated nm p). split_and!; [apply outdated_stable| |].
    { split; [done|]. intros Hde Hp. destruct (good_dereg w Hg nm p Hp Hde) as [_ Hno].
      apply Hno. by eapply registered_owned. }
    apply safe_bind. destruct (negb (deleting (p_meta q))); cbn; [|by repeat case_match; intros ? ?].
    intros w1 Hg1 Ho. split; [done|]. intros derr w2 Hw2.
    assert (op_guar nm w1 w2 ∧ outdated nm p w2) as [? ?].
    { destruct Hw2 as [Hm| ->]; [|by split; [apply op_guar_refl|]].
      apply moves_env_guar in Hm; [|done]. split; [by apply env_op_guar|].
      eapply outdated_stable; [exact Hg1|done|apply Hm]. }
    split; [done|]. exists (outdated nm p). split_and!; [apply outdated_stable|done|].
    by repeat case_match; intros ? ?.
Qed.

Lemma safe_wait nm p Φ : stable (op_rely nm) Φ →
  op_safe nm (nodeGoneOrUnready (sp_Node (sp_spec p))) Φ (λ _ Ψ, Ψ = Φ).
Proof.
  intros Hs. unfold nodeGoneOrUnready. cbn [bind call]. apply (op_get nm KNode). intros w x Hg Hw _.
  exists Φ. split_and!; [done|done|]. by repeat case_match.
Qed.

Lemma safe_reconcileDeleting nm p : Name (sp_meta p) = nm → deleting (sp_meta p) = true →
  op_secure nm (reconcileDeleting p) (held nm p).
Proof.
  intros Hn Hd. unfold reconcileDeleting. case_match; [done|].
  apply safe_bind. eapply safe_mono; [apply held_op|by apply safe_DeletePool|].
  intros [[[] msg] [err|]] Φ Hs HΦ; try done; specialize (HΦ eq_refl); cbn [negb].
  - destruct (cond_true p ConditionDeregistered) eqn:Ed; cbn [negb].
    + apply safe_bind. eapply safe_mono; [exact Hs| |].
      { instantiate (1 := λ _ Ψ, Ψ = Φ). destruct (negb (cond_true p ConditionTornDown)); [by apply safe_wait|done]. }
      intros [?|[]] Ψ _ ->; [done| |done]. cbn [bind call]. apply secure_last; [done| |rets].
      intros w x w' Hg Hf Hx. apply HΦ in Hf as [Hh _].
      assert (w' = w ∨ ∃ p', meta_write w (sp_set_meta p (RemoveFinalizer (sp_meta p) poolFinalizer)) p' w') as [->|[p' Hm]]
        by (destruct x; eauto); [by apply op_guar_refl|].
      eapply (meta_write_guar nm p _ _ _ _ Hg Hh Hm); unfold rv; cbn; by rewrite remove_fin.
    + apply (op_status nm p); [by intros w []%HΦ|done| |rets].
      intros w Hg [Hh Ho]%HΦ Hp. unfold dereg, host_up.
      rewrite cond_true_set_eq, bool_decide_eq_true_2 by done. auto.
  - apply (op_status nm p); [by intros w []%HΦ|done| |rets].
    intros w Hg [Hh Ho]%HΦ Hp. unfold dereg, host_up.
    rewrite cond_true_set_eq, bool_decide_eq_false_2, cond_true_set_ne by done. split; [done|].
    intros Hin. right. destruct (good_clear w Hg _ _ Hin) as [_ Hc].
    destruct (Hc p Hp eq_refl) as [Hde|?]; [|done]. by destruct (Ho Hde).
Qed.

(** The worker of a live pool: while the host it read ready is ready, nobody
    is clearing it and no clearance is given. *)
Definition hot nm p w : Prop := held nm p w ∧ (host_up p = true →
  (node_of p, nm) ∉ clearing w ∧ ∀ q, sps w !! nm = Some q → dereg q = false).
Lemma hot_stable nm p : stable (op_rely nm) (hot nm p).
Proof.
  apply stable_and; [apply held_op|]. intros w w' _ Hh [_ Hs Hc _] Hup. destruct (Hh Hup) as [Hn Hd].
  split.
  - intros [?|(q & Hq & Hde)]%Hc; [done|]. rewrite (Hd q Hq) in Hde. done.
  - intros q Hq. destruct (dereg q) eqn:E; [|done]. destruct (Hs q Hq) as [Hw|[_ Hw]].
    + rewrite (Hd q Hw) in E. done.
    + destruct (Hw E) as (q0 & Hq0 & Hde). rewrite (Hd q0 Hq0) in Hde. done.
Qed.
Lemma live_not_dereg w nm p : good w → sps w !! nm = Some p → deleting (sp_meta p) = false → dereg p = false.
Proof.
  intros Hg Hp Hd. destruct (dereg p) eqn:E; [|done]. destruct (good_dereg w Hg nm p Hp E). congruence.
Qed.
Lemma hot_read w nm p : good w → sps w !! nm = Some p → deleting (sp_meta p) = false → hot nm p w.
Proof.
  intros Hg Hp Hd. pose proof (live_not_dereg w nm p Hg Hp Hd) as E. split; [by apply held_read|].
  intros Hup. split; [|naive_solver]. intros Hin.
  destruct (proj2 (good_clear w Hg _ _ Hin) p Hp eq_refl); congruence.
Qed.

(** Registration creates the Pool only in a hot world. *)
Lemma safe_EnsurePool nm p : Name (sp_meta p) = nm → host_up p = true →
  op_safe nm (EnsurePool p) (hot nm p) (λ _ Φ, Φ = hot nm p).
Proof.
  intros Hn Hup. unfold EnsurePool, call. cbn [bind]. apply (op_get nm KPool). cbn. rewrite Hn.
  intros w x Hg Hh _. exists (hot nm p). split_and!; [apply hot_stable|done|].
  destruct x as [e|q]; [|by repeat case_match].
  destruct (IsNotFound (Some e)); [|done].
  intros w1 Hg1 Hh1. split; [done|]. intros r w2 Hw2. destruct (proj2 Hh1 Hup) as [Hc Hd].
  assert (op_guar nm w1 w2 ∧ hot nm p w2) as [HG Hh2].
  { destruct Hw2 as [(q & Hq & [Eq Ev] & ->)|[-> _]]; [|by split; [apply op_guar_refl|]].
    cbn in Hq, Eq, Ev |- *. split; [|done].
    apply (create_op_guar w1 nm (node_of p)); try done. rewrite Ev. unfold VGName. by rewrite Hn. }
  split; [done|]. exists (hot nm p). split_and!; [apply hot_stable|done|]. by repeat case_match.
Qed.

Definition same_protocol (p p' : StoragePool) : Prop :=
  sp_meta p' = sp_meta p ∧ dereg p' = dereg p ∧ host_up p' = host_up p.
Lemma same_protocol_set p p' t st re ms :
  t ≠ ConditionDeregistered → t ≠ ConditionHostReady →
  same_protocol p p' → same_protocol p (set_cond p' t st re ms).
Proof. intros ? ? (? & ? & ?). unfold same_protocol, dereg, host_up. by rewrite !cond_true_set_ne. Qed.

Lemma safe_registration nm p : Name (sp_meta p) = nm →
  op_safe nm (registration p) (hot nm p) (λ '(p', _, _) Φ, same_protocol p p' ∧ Φ = hot nm p).
Proof.
  intros Hn. unfold registration.
  assert (∀ st re ms, same_protocol p (set_cond p ConditionRegistered st re ms)) as Hs.
  { intros. by apply same_protocol_set. }
  case_match; [done|]. case_match; [by split|]. case_match; [by split|]. bools.
  apply safe_bind. eapply safe_mono; [apply hot_stable|by apply safe_EnsurePool|].
  intros [[[] ?] [?|]] Φ _ ->; by split.
Qed.

Lemma safe_reconcileStatus nm recorder p : Name (sp_meta p) = nm → dereg p = false →
  op_secure nm (reconcileStatus recorder p) (hot nm p).
Proof.
  intros Hn Hde. unfold reconcileStatus. apply safe_bind. eapply safe_mono; [apply hot_stable| |].
  { apply safe_issues; [apply op_guar_refl|apply hot_stable|]. unfold warn. by case_match. }
  intros [] Φ _ ->. apply safe_bind. eapply safe_mono; [apply hot_stable|by apply safe_registration|].
  intros [[p' [[st re] ms]] be] Φ _ [(Hm & Hd & Hu) ->]. cbn [bind call].
  apply (op_status nm p); [by intros w []|done| |rets].
  intros w Hg [Hh Hc] Hp. destruct (same_protocol_set p p' ConditionAvailable st re ms) as (_ & -> & ->); try done.
  rewrite Hde. split; [done|]. intros Hin. right. destruct (host_up p); [|done]. by destruct (Hc eq_refl).
Qed.

Lemma safe_reconcileLive nm recorder p : Name (sp_meta p) = nm → deleting (sp_meta p) = false → dereg p = false →
  op_secure nm (reconcileLive recorder p) (hot nm p).
Proof.
  intros Hn Hd Hde. unfold reconcileLive. rewrite add_fin.
  destruct (ContainsFinalizer (sp_meta p) poolFinalizer); [by apply safe_reconcileStatus|].
  cbn [bind call]. intros w Hg [Hh _]. split; [done|]. intros [e|p1] w' Hx.
  - split; [|exists (λ _, True); split_and!; [by intros ?|done|done]].
    destruct Hx as [->|[p' Hm]]; [by apply op_guar_refl|]. exact (proj1 (meta_write_guar nm p _ p' w w' Hg Hh Hm eq_refl eq_refl)).
  - destruct (meta_write_guar nm p _ p1 w w' Hg Hh Hx eq_refl eq_refl) as [HG Hst].
    destruct (Hst Hd) as [Hp1 Hd1]. split; [done|]. destruct HG as [Hg' _].
    exists (hot nm p1). split_and!; [apply hot_stable|by apply hot_read|].
    apply safe_reconcileStatus; [by eapply good_name|by eapply live_not_dereg].
Qed.

Lemma running_op nm recorder w :
  running (op_rely nm) (op_guar nm) (λ _ _ _, True) (λ X w, @api w X) (StoragePool_Reconcile recorder (NN "" nm)) w.
Proof.
  exists (λ _, True). split_and!; [by intros ?|done|]. unfold StoragePool_Reconcile. cbn [bind call].
  apply (op_get nm KStoragePool). intros w1 [e|p] Hg _ Hr; [by exists (λ _, True)|]. cbn in Hr.
  destruct (good_name w1 Hg nm p Hr) as [Hn _]. destruct (deleting (sp_meta p)) eqn:Hd.
  - exists (held nm p). split_and!; [apply held_op|by apply held_read|by apply safe_reconcileDeleting].
  - exists (hot nm p). split_and!; [apply hot_stable|by apply hot_read|].
    apply safe_reconcileLive; [done..|by eapply live_not_dereg].
Qed.

(** ** The agent's pass *)
Definition agent_allowed (n nm : string) (X : Type) (o : op X) (w : world) : Prop :=
  match o with
  | Run c args | RunInput _ c args => wiping c args = true → (n, nm) ∈ clearing w
  | _ => True
  end.
Definition agent_act (n nm : string) (X : Type) (w : world) (o : op X) (x : X) (w' : world) : Prop :=
  ∃ w0, api w o x w0 ∧ w' = mark n nm w0 o x.
Abbreviation agent_safe n nm := (safe (agent_rely n nm) (agent_guar n nm) (agent_allowed n nm) (agent_act n nm)).
Abbreviation agent_secure n nm p Φ := (agent_safe n nm p Φ (λ _ _, True)).

(** Commands that destroy nothing, and any commands. *)
Definition mild (X : Type) (o : op X) : Prop :=
  match o with Run c args | RunInput _ c args => wiping c args = false | _ => False end.
Definition command (X : Type) (o : op X) : Prop :=
  match o with Run _ _ | RunInput _ _ _ => True | _ => False end.
Lemma live_issues p : issues mild (Agent_EnsurePool p).
Proof.
  apply (wp_issues mild some_answer). eapply wp_mono; [apply wp_Agent_EnsurePool|].
  intros tr r L. rewrite Forall_forall. intros e He. destruct (lawful_in _ _ _ L He) as (t1 & t2 & _ & Hm).
  destruct (may_live_cmd _ _ _ Hm) as (c & args & Hc). pose proof (live_not_wiping _ _ _ _ _ Hm Hc).
  destruct e as [X o x]. destruct o; cbn in *; by simplify_eq.
Qed.
Lemma teardown_issues p : issues command (TeardownPool p).
Proof.
  apply (wp_issues command some_answer). eapply wp_mono; [apply wp_TeardownPool|].
  intros tr r [L _]. rewrite Forall_forall. intros e He. destruct (lawful_in _ _ _ L He) as (t1 & t2 & _ & Hm).
  destruct (may_wipe_cmd _ _ _ Hm) as (c & args & Hc).
  destruct e as [X o x]. by destruct o.
Qed.
Lemma issues_mono {A} (P P' : ∀ X, op X → Prop) (p : io A) :
  (∀ X o, P X o → P' X o) → issues P p → issues P' p.
Proof. intros Hi. induction p as [a|X o k IH]; cbn; [done|]. intros [? ?]. split; auto. Qed.
Lemma command_still n nm X (o : op X) w x w' : command X o → agent_act n nm X w o x w' → w' = w.
Proof. intros Hc (w0 & Ha & ->). by destruct o. Qed.

Lemma agent_status n nm p o {A} (k : option error → io A) Φ :
  (∀ w, Φ w → held nm p w) → sp_meta o = sp_meta p → (dereg o = true → dereg p = true) →
  (∀ w, good w → Φ w → sps w !! nm = Some p → (node_of p, nm) ∈ clearing w → dereg o = true ∨ host_up o = false) →
  (∀ x, ∃ a, k x = Ret a) → agent_secure n nm (Op (StatusUpdate KStoragePool o) k) Φ.
Proof.
  intros Hh Hm Hd Hl Hk. apply secure_last; [done| |done].
  intros w x w' Hg HΦ (w0 & [Hs|[-> _]] & ->); cbn; [|by apply agent_guar_refl].
  destruct (status_write_inv nm p o w w0 (Hh w HΦ) Hm Hs) as (p' & Hp & Hput & Hn & Hdel & Hsp & Hst).
  assert (dereg p' = dereg o ∧ host_up p' = host_up o) as [E1 E2] by (split; by apply conds_of_status).
  apply env_agent_guar. eapply put_env_guar; [done|done| |by rewrite E1|done].
  unfold lawful_put, node_of. rewrite E1, E2, Hdel, Hsp. split_and!; [done|done| |eauto].
  intros Hde. apply (good_dereg w Hg); auto.
Qed.

Definition wipes n nm p w : Prop := held nm p w ∧ (n, nm) ∈ clearing w.
Definition spares n nm p w : Prop := held nm p w ∧ (n, nm) ∉ clearing w.
Lemma wipes_stable n nm p : stable (agent_rely n nm) (wipes n nm p).
Proof. apply stable_and; [apply held_agent|]. intros w w' _ Hc HR. by apply (ar_clear _ _ _ _ HR). Qed.
Lemma spares_stable n nm p : stable (agent_rely n nm) (spares n nm p).
Proof. apply stable_and; [apply held_agent|]. intros w w' _ Hc HR. by rewrite (ar_clear _ _ _ _ HR). Qed.

Lemma safe_agent_deleting n nm p : Name (sp_meta p) = nm →
  (cond_true p ConditionDeregistered = true → agent_secure n nm (agent_deleting p) (wipes n nm p)) ∧
  (cond_true p ConditionDeregistered = false → agent_secure n nm (agent_deleting p) (spares n nm p)).
Proof.
  intros Hn. unfold agent_deleting, cond_true.
  destruct (IsStatusConditionTrue (sp_conds p) ConditionTornDown); [done|].
  destruct (IsStatusConditionTrue (sp_conds p) ConditionDeregistered) eqn:E; cbn [negb]; [|done].
  split; [|done]. intros _. apply safe_bind. eapply safe_mono; [apply wipes_stable| |].
  { apply safe_issues; [apply agent_guar_refl|apply wipes_stable|].
    eapply issues_mono; [|apply teardown_issues]. intros X o Ho. split; [|intros; by eapply command_still].
    intros w [_ Hc]. destruct o; cbn in *; auto. }
  intros [err|] Φ _ ->; [done|]. cbn [bind call].
  assert (dereg (sp_set_conds p (SetStatusCondition (sp_conds p) (torn_down_cond p))) = true) as Hd.
  { unfold dereg, cond_true, sp_conds. cbn. by rewrite (is_true_set_ne _ (torn_down_cond p)). }
  apply (agent_status n nm p); [by intros w []|done|done| |rets]. auto.
Qed.

Lemma safe_agent_live n nm smart p : Name (sp_meta p) = nm → node_of p = n → dereg p = false →
  agent_secure n nm (agent_live smart p) (spares n nm p).
Proof.
  intros Hn Hnode Hde. unfold agent_live. apply safe_bind. eapply safe_mono; [apply spares_stable| |].
  { apply safe_issues; [apply agent_guar_refl|apply spares_stable|].
    eapply issues_mono; [|apply live_issues]. intros X o Ho. split; [|intros w x w'; apply command_still; by destruct o].
    intros w _. destruct o; cbn in *; done || (intros; congruence). }
  intros [rep err] Φ _ ->. cbn [bind call].
  apply (agent_status n nm p); [by intros w []|done| | |rets].
  - unfold dereg, cond_true, pass_pool, sp_conds. cbn. by rewrite (is_true_set_ne _ (host_ready p err)).
  - intros w Hg [_ Hc] Hp Hin. rewrite Hnode in Hin. done.
Qed.

(** The agent's read of a clearance. *)
Lemma clear_agent_guar w n nm p : good w → sps w !! nm = Some p → node_of p = n → dereg p = true →
  agent_guar n nm w (set_clearing w ({[(n, nm)]} ∪ clearing w)).
Proof.
  intros Hg Hp Hnode Hd. destruct (good_dereg w Hg nm p Hp Hd) as [_ Hno]. split_and!.
  - destruct Hg as [He Hn Hpo Hde Hc]. constructor; cbn [used pools clearing sps set_clearing]; [done..|].
    intros n' m [[= -> ->]%elem_of_singleton|Hin]%elem_of_union; [|by apply Hc].
    split; [by rewrite <- Hnode|]. naive_solver.
  - intros m. constructor; cbn; auto. intros n' [[= -> ->]%elem_of_singleton|Hin]%elem_of_union; eauto.
  - intros n' m Hne. constructor; cbn; auto. rewrite elem_of_union, elem_of_singleton. naive_solver.
Qed.
(** A pass begins or ends. *)
Lemma unclear_agent_guar w n nm : good w → agent_guar n nm w (set_clearing w (clearing w ∖ {[(n, nm)]})).
Proof.
  intros Hg. split_and!.
  - destruct Hg as [He Hn Hpo Hde Hc]. constructor; cbn [used pools clearing sps set_clearing]; [done..|].
    intros n' m [Hin _]%elem_of_difference. by apply Hc.
  - intros m. constructor; cbn; auto. intros n' [Hin _]%elem_of_difference. auto.
  - intros n' m Hne. constructor; cbn; auto. rewrite elem_of_difference, elem_of_singleton. naive_solver.
Qed.

Abbreviation op_running nm := (running (op_rely nm) (op_guar nm) (λ _ _ _, True) (λ X w, @api w X)).
Abbreviation agent_running n nm := (running (agent_rely n nm) (agent_guar n nm) (agent_allowed n nm) (agent_act n nm)).

Lemma running_agent n nm smart w : (n, nm) ∉ clearing w →
  agent_running n nm (PoolAgent_Reconcile n smart (NN "" nm)) w.
Proof.
  intros Hw. exists (λ w, (n, nm) ∉ clearing w). split_and!; [|done|].
  { intros w1 w2 _ Hc HR. by rewrite (ar_clear _ _ _ _ HR). }
  unfold PoolAgent_Reconcile. cbn [bind call]. intros w1 Hg Hc. split; [done|].
  intros [e|p] w2 (w0 & [Hr ->] & ->); cbn [mark].
  { split; [by apply agent_guar_refl|]. by exists (λ _, True). }
  apply Hcur in Hr. cbn in Hr. destruct (good_name w1 Hg nm p Hr) as [Hn _]. pose proof (held_read w1 nm p Hg Hr) as Hh.
  destruct (safe_agent_deleting n nm p Hn) as [Swipe Sspare]. fold (node_of p).
  case_bool_decide as Hnode; cbn [andb].
  2:{ split; [by apply agent_guar_refl|]. exists (λ _, True). split_and!; [by intros ?|done|].
      by rewrite bool_decide_eq_true_2. }
  rewrite bool_decide_eq_false_2 by auto. destruct (deleting (sp_meta p)) eqn:Hd; cbn [andb].
  - destruct (cond_true p ConditionDeregistered) eqn:Ed.
    + split; [by eapply clear_agent_guar|]. exists (wipes n nm p). split_and!; [apply wipes_stable| |auto].
      split; [done|]. cbn. set_solver.
    + split; [by apply agent_guar_refl|]. exists (spares n nm p). split_and!; [apply spares_stable|done|auto].
  - split; [by apply agent_guar_refl|]. exists (spares n nm p). split_and!; [apply spares_stable|done|].
    apply safe_agent_live; [done..|by eapply live_not_dereg].
Qed.

(** ** The system *)
Record sys_ok (s : sys) : Prop := {
  ok_world : good (wld s);
  ok_ops nm p : ops s !! nm = Some p → op_running nm p (wld s);
  ok_agents n nm p : agents s !! (n, nm) = Some p → agent_running n nm p (wld s);
}.

Lemma env_keeps w w' : good w → environment w w' → env_guar w w'.
Proof.
  intros Hg [nm p w1 Hnone Hn Hf Hput|nm p p' w1 Hp Hn Hnode Hst Hd Hput|nm|nm w1 Hm|nm q Hnone Hf].
  - assert (dereg p = false ∧ host_up p = false) as [E1 E2] by (split; apply Hf).
    split_and!; [|intros m; eapply put_op_rely; [done|congruence]|intros; by eapply put_agent_rely].
    pose proof (λ m q, lookup_put w nm p w1 m q Hput) as Hl. destruct Hput as [Hfr ->].
    destruct Hg as [He Hna Hpo Hde Hc]. constructor; cbn [used pools clearing set_sps].
    + set_solver.
    + intros m q [[-> ->]|[? Hq]]%Hl.
      * split_and!; [done|set_solver|]. intros E. by rewrite E in Hfr.
      * destruct (Hna m q Hq) as (? & ? & ?). split_and!; [done| |done]. by apply elem_of_union_r.
    + done.
    + intros m q [[-> ->]|[? Hq]]%Hl; [congruence|eauto].
    + intros n m Hin. destruct (Hc n m Hin) as [? Hs]. split; [done|].
      intros q [[-> ->]|[? Hq]]%Hl; [auto|eauto].
  - assert (dereg p' = dereg p ∧ host_up p' = host_up p) as [E1 E2] by (split; by apply conds_of_status).
    eapply put_env_guar; [done|done| |by rewrite E1|done]. unfold lawful_put. rewrite E1, E2.
    split_and!; [done|done| |].
    + intros Hde. destruct (good_dereg w Hg nm p Hp Hde). auto.
    + intros Hin. by apply (proj2 (good_clear w Hg _ _ Hin)).
  - by apply remove_env_guar.
  - by eapply moves_env_guar.
  - by apply foreign_env_guar.
Qed.

(** One party moved: the passes of the others still run. *)
Lemma op_moved s nm w' p' : sys_ok s → op_guar nm (wld s) w' → op_running nm p' w' →
  sys_ok {| wld := w'; agents := agents s; ops := <[nm := p']> (ops s) |}.
Proof.
  intros Hs (Hg & HO & HA) Hp. constructor; cbn; [done| |].
  - intros m p [[<- <-]|[Hne Hm]]%lookup_insert_Some; [done|].
    eapply running_rely; [apply Hs|by apply Hs|by apply HO].
  - intros n m p Hm. eapply running_rely; [apply Hs|by apply Hs|apply HA].
Qed.
Lemma agent_moved s n nm w' (a' : option (io reconcile)) : sys_ok s → agent_guar n nm (wld s) w' →
  (∀ p', a' = Some p' → agent_running n nm p' w') →
  sys_ok {| wld := w'; ops := ops s; agents := partial_alter (λ _, a') (n, nm) (agents s) |}.
Proof.
  intros Hs (Hg & HO & HA) Hp. constructor; cbn; [done| |].
  - intros m p Hm. eapply running_rely; [apply Hs|by apply Hs|apply HO].
  - intros n' m p Hm. destruct (decide ((n', m) = (n, nm))) as [[= -> ->]|Hne].
    + rewrite lookup_partial_alter_eq in Hm. auto.
    + rewrite lookup_partial_alter_ne in Hm by done. eapply running_rely; [apply Hs|by apply Hs|by apply HA].
Qed.

Lemma step_keeps s s' : sys_ok s → step s s' → sys_ok s'.
Proof.
  intros Hs [nm rec Hn|nm X o k x w' Ho Ha|nm|n nm smart Hn|n nm X o k x w' Ho Ha|n nm|w' He].
  - apply op_moved; [done|apply op_guar_refl, Hs|apply running_op].
  - destruct (running_step _ _ _ _ o k (wld s) x w' (ok_world s Hs) (ok_ops s Hs nm _ Ho) Ha). by apply op_moved.
  - destruct Hs as [Hg Hop Hag]. constructor; cbn; [done| |done]. intros m p [_ Hm]%lookup_delete_Some. auto.
  - apply (agent_moved s n nm _ (Some _)); [done|apply unclear_agent_guar, Hs|].
    intros p' [= <-]. apply running_agent. cbn. set_solver.
  - destruct (running_step _ _ _ _ o k (wld s) x (mark n nm w' o x) (ok_world s Hs) (ok_agents s Hs n nm _ Ho)) as [? ?].
    { by exists w'. }
    apply (agent_moved s n nm _ (Some _)); [done|done|]. by intros p' [= <-].
  - apply (agent_moved s n nm _ None); [done|apply unclear_agent_guar, Hs|done].
  - pose proof (env_keeps _ _ (ok_world s Hs) He) as (Hg & HO & HA). destruct Hs as [Hg0 Hop Hag].
    constructor; cbn; [done| |]; intros; (eapply (running_rely _ _ _ _ _ (wld s)); [done| |]; eauto).
Qed.
Lemma reached_ok s : reached s → sys_ok s.
Proof.
  induction 1 as [|s s' _ IH Hst]; [|by eapply step_keeps].
  constructor; cbn; [|intros; simplify_map_eq..].
  constructor; cbn; [set_solver|intros; simplify_map_eq..|set_solver].
Qed.
End Handshake.

(** C1: Under reads that are not behind, the wipe never meets a registered
    Pool.  Assume that the clients' caches answer every Get with the object
    stored at that moment (hypothesis [current]; a lagging cache is outside this
    theorem, and [lagging_cache_clears] shows that it breaks the conclusion).
    Then in any interleaving, from an empty cluster, of the operator's workers,
    the pool agents of all nodes (crashes and restarts at any operation
    included), the user creating, editing and removing StoragePools at will, and
    r-drbd: whenever an agent is about to run a command that destroys data in a
    pass for a StoragePool, no r-drbd Pool anywhere in the cluster is registered
    for that pool's VG on that node. *)
Theorem wipe_meets_no_registered_pool `{K8sMeta} `{HostParse} `{MapRange} cache s n nm c args k :
  current cache → reached cache s → agents s !! (n, nm) = Some (Op (Run c args) k) → wiping c args = true →
  ∀ x q, pools (wld s) !! x = Some q → ps_Node (p_spec q) = n → ps_VG (p_spec q) ≠ vg_name nm.
Proof.
  intros Hc Hr Ha Hw x q Hq Hn Hv. apply (reached_ok _ Hc) in Hr as [Hg _ Hag].
  pose proof (running_allowed _ _ _ _ _ _ _ Hg (Hag n nm _ Ha) Hw) as Hin.
  destruct (good_clear _ Hg _ _ Hin) as [Hno _]. apply Hno. by exists x, q.
Qed.

(** ** A deletion, from the empty cluster to the wipe *)
Module HandshakeDemo.
#[local] Existing Instance RefMeta.meta.
#[local] Existing Instance demo_parse.
#[local] Existing Instance map_range.

Definition version (r : string) (del : option Z) (cs : list Condition) : StoragePool :=
  let p := demo_pool [poolFinalizer] del cs in
  sp_set_meta p {| Name := "tank"; Namespace := ""; Generation := 1; ResourceVersion := r;
                   DeletionTimestamp := del; Finalizers := [poolFinalizer]; Annotations := ∅; Labels := ∅ |}.
Definition created : StoragePool := version "1" None [].
Definition deleted : StoragePool := version "2" (Some 1%Z) [].
Definition granted : StoragePool :=
  version "3" (Some 1%Z) (sp_conds (set_cond deleted ConditionDeregistered ConditionTrue ReasonReady "")).

Definition stored (p : StoragePool) (u : gset string) (w : world) : world :=
  set_sps w (<["tank" := p]> (sps w)) ({[rv p]} ∪ u).
Definition w1 : world := stored created (used empty_world) empty_world.
Definition w2 : world := stored deleted (used w1) w1.
Definition w3 : world := stored granted (used w2) w2.

(** A cache that is never behind. *)
Definition fresh : ∀ T, option T → error + T → Prop := @reads.
Definition absent : error := Err "not found" KNotFound.
Abbreviation deregister := (reconcileDeleting deleted).
Definition wiping_now : sys :=
  {| wld := set_clearing w3 ({[("n1", "tank")]} ∪ clearing w3 ∖ {[("n1", "tank")]}); ops := ∅;
     agents := <[("n1", "tank") := agent_deleting granted]>
                 (<[("n1", "tank") := PoolAgent_Reconcile "n1" None (NN "" "tank")]> ∅) |}.

Lemma fresh_versions : rv created ∉ used empty_world ∧ rv deleted ∉ used w1 ∧ rv granted ∉ used w2.
Proof. split_and!; apply (bool_decide_unpack _); vm_compute; exact I. Qed.

Lemma reached_granted : reached fresh {| wld := w3; ops := ∅; agents := ∅ |}.
Proof.
  destruct fresh_versions as (F1 & F2 & F3).
  assert (reached fresh {| wld := w2; ops := ∅; agents := ∅ |}) as Hr.
  { eapply reached_step; [eapply reached_step; [apply reached_start|]|].
    - apply env_moves, (user_creates _ "tank" created w1); try done.
    - apply env_moves, (user_changes _ "tank" created deleted w2); try done. }
  eapply reached_step in Hr; [|apply (op_starts fresh _ "tank" false); apply lookup_empty].
  eapply reached_step in Hr; [|eapply (op_steps fresh _ "tank" _ _ _ (inr deleted) w2); [apply lookup_insert_eq|by split]].
  cbn [ops wld agents] in Hr.
  eapply reached_step in Hr; [|eapply (op_steps fresh _ "tank" _ _ _ (inl absent) w2); [apply lookup_insert_eq|by split]].
  eapply reached_step in Hr; [|eapply (op_steps fresh _ "tank" _ _ _ None w3); [apply lookup_insert_eq|]].
  - eapply reached_step in Hr; [|apply (op_ends fresh _ "tank")]. cbn [ops wld agents] in Hr.
    by rewrite !delete_insert_eq, delete_empty in Hr.
  - left. exists deleted, granted. split_and!; try done. by right.
Qed.
Lemma reached_wiping : reached fresh wiping_now.
Proof.
  pose proof reached_granted as Hr.
  eapply reached_step in Hr; [|apply (agent_starts fresh _ "n1" "tank" None); apply lookup_empty].
  eapply reached_step in Hr; [|eapply (agent_steps fresh _ "n1" "tank" _ _ _ (inr granted) _); [apply lookup_insert_eq|by split]].
  exact Hr.
Qed.

(** The assumption is needed.  A StoragePool under deletion whose Pool is
    registered, and a cache that has not seen that Pool yet: the operator takes
    NotFound for released, clears the deletion, and the agent is about to
    destroy the VG of a registered Pool. *)
Definition lagging : ∀ T, option T → error + T → Prop := λ T stored r, reads stored r ∨ r = inl absent.
Definition with_pool (w : world) : world := set_pools w {["tank" := demo_rpool]}.
Lemma lagging_cache_clears : ∃ s k,
  rtc (step lagging) {| wld := with_pool w2; ops := ∅; agents := ∅ |} s ∧
  agents s !! ("n1", "tank") = Some (Op (Run "vgremove" ["-ff"; "-y"; "stornas-tank"]) k) ∧
  registered (wld s) "n1" "tank".
Proof.
  destruct fresh_versions as (F1 & F2 & F3). eexists _, _. split.
  - eapply rtc_l; [apply (op_starts _ _ "tank" false); apply lookup_empty|]. cbn [ops wld agents].
    eapply rtc_l; [eapply (op_steps _ _ "tank" _ _ _ (inr deleted)); [apply lookup_insert_eq|by split; [left|]]|]. cbn [ops wld agents].
    eapply rtc_l; [eapply (op_steps _ _ "tank" _ _ _ (inl absent)); [apply lookup_insert_eq|by split; [right|]]|].
    eapply rtc_l; [eapply (op_steps _ _ "tank" _ _ _ None (with_pool w3)); [apply lookup_insert_eq|]|].
    { left. exists deleted, granted. split_and!; try done. by right. }
    eapply rtc_l; [apply (agent_starts _ _ "n1" "tank" None); apply lookup_empty|].
    eapply rtc_l; [eapply (agent_steps _ _ "n1" "tank" _ _ _ (inr granted)); [apply lookup_insert_eq|by split; [left|]]|].
    apply rtc_refl.
  - split; [apply lookup_insert_eq|]. exists "tank", demo_rpool. by split_and!.
Qed.
End HandshakeDemo.

Lemma wipe_meets_no_registered_pool_witness :
  (∃ k, agents HandshakeDemo.wiping_now !! ("n1", "tank") = Some (Op (Run "vgremove" ["-ff"; "-y"; "stornas-tank"]) k)) ∧
  ∀ x q, pools (wld HandshakeDemo.wiping_now) !! x = Some q → ps_Node (p_spec q) = "n1" →
    ps_VG (p_spec q) ≠ vg_name "tank".
Proof.
  split; [eexists; apply lookup_insert_eq|].
  eapply (@wipe_meets_no_registered_pool RefMeta.meta demo_parse map_range HandshakeDemo.fresh HandshakeDemo.wiping_now "n1" "tank"
    "vgremove" ["-ff"; "-y"; "stornas-tank"]).
  - intros T stored r Hr. exact Hr.
  - exact HandshakeDemo.reached_wiping.
  - apply lookup_insert_eq.
  - reflexivity.
Defined.
