(* ===== verification/Lio.v ===== *)
(** * internal/agent/lio.go: the host's iSCSI target through targetcli

    One definition per method of [LIOManager].  [Root] is the manager's
    path prefix.  Paths are clean and object names are DNS labels, so
    [filepath.Join] is concatenation.  The JSON of [ip -j] is decoded by the
    class [IpParse]: every statement holds for every decoder. *)

From S2P Require Import Prelude GoStrings Prog ApiTypes Effects Lvm.

(** [json.Unmarshal] of [ip -j addr] to the [ifname]s and of [ip -j route] to
    the [dev]s. *)
Class IpParse := {
  json_ifnames : string → error + list string;
  json_routes : string → error + list string;
}.

Definition vipRecordDir : string := "/var/lib/stornas/vips".
Record ChapCred := { cc_User : string; cc_Password : string }.

Definition backstore_prefix (target : string) : string := "stornas-" +:+ target +:+ "-lun".
Definition backstore (target : string) (lunID : Z) : string := backstore_prefix target +:+ Itoa lunID.
Definition iqnFor (name : string) : string := IQNPrefix +:+ name.

Definition targetcli (args : list string) : io (string * option error) := call (Run "targetcli" args).

(** The replies [ensure] tolerates: the object is already there. *)
Definition already_there (e : error) (out : string) : bool :=
  let msg := emsg e +:+ out in negb (Contains msg "not exist") && Contains msg "exists".
Definition ensure (args : list string) : io (option error) :=
  let! r := targetcli args in
  match r.2 with
  | None => Ret None
  | Some e => Ret (if already_there e r.1 then None else Some e)
  end.
(** [remove] only logs. *)
Definition remove (args : list string) : io unit := let! _ := targetcli args in Ret tt.

Definition acls_path (iqn : string) : string := "/iscsi/" +:+ iqn +:+ "/tpg1/acls".
Definition luns_path (iqn : string) : string := "/iscsi/" +:+ iqn +:+ "/tpg1/luns".
Definition tpg_path (iqn : string) : string := "/iscsi/" +:+ iqn +:+ "/tpg1".

(** [strings.ReplaceAll]. *)
Fixpoint replace_from (old new : string) (skip : nat) (s : string) : string :=
  match s with
  | "" => ""
  | String c s' =>
      match skip with
      | S k => replace_from old new k s'
      | O => if HasPrefix s old then new +:+ replace_from old new (String.length old - 1) s'
             else String c (replace_from old new 0 s')
      end
  end.
Fixpoint interleave (new s : string) : string :=
  match s with "" => new | String c s' => new +:+ String c (interleave new s') end.
Definition ReplaceAll (s old new : string) : string :=
  if bool_decide (old = "") then interleave new s else replace_from old new 0 s.
Example replace_ex : ReplaceAll "x pw pwpw" "pw" "<r>" = "x <r> <r><r>".
Proof. reflexivity. Qed.

(** ** The ACL listing: [No such] means the entry is gone already. *)
Definition absent_reply (e : error) (out : string) : bool := Contains (emsg e +:+ out) "No such".
Definition prune_acl (acls : string) (granted : gset string) (f : string) : io (option error) :=
  if negb (HasPrefix f "iqn.") || bget granted f then Ret None
  else
    let! r := targetcli [acls; "delete"; f] in
    match r.2 with
    | Some e => Ret (if absent_reply e r.1 then None else Some e)
    | None => Ret None
    end.
Definition pruneACLs (t : Target) (granted : gset string) : io (option error) :=
  let acls := acls_path (t_IQN t) in
  let! r := targetcli ["ls"; acls; "1"] in
  match r.2 with
  | Some e => Ret (Some e)
  | None => for_err (Fields r.1) (prune_acl acls granted)
  end.

(** ** parseLUNLine, pruneLUNs *)
Definition parse_lun_field (acc : string * string) (f : string) : string * string :=
  let '(lun, bs) := acc in
  let lun' := if bool_decide (lun = "") && negb (bool_decide (f = "luns")) && HasPrefix f "lun" then f else lun in
  let bs' := match Index f "block/" with Some i => TrimPrefix (sdrop i f) "block/" | None => bs end in
  (lun', bs').
Definition parseLUNLine (line : string) : string * string := foldl parse_lun_field ("", "") (Fields line).
Example parse_lun_ex :
  parseLUNLine "o- lun0 ... [block/stornas-db-lun0 (/dev/drbd1000)]" = ("lun0", "stornas-db-lun0").
Proof. reflexivity. Qed.

Definition wanted_luns (t : Target) : gset string :=
  list_to_set (map (λ l, backstore (Name (t_meta t)) (ls_ID l)) (t_StatusLUNs t)).
Definition prune_lun (t : Target) (line : string) : io unit :=
  let '(lun, bs) := parseLUNLine line in
  if bool_decide (lun = "") || negb (HasPrefix bs (backstore_prefix (Name (t_meta t)))) || bget (wanted_luns t) bs
  then Ret tt
  else remove [luns_path (t_IQN t); "delete"; lun] ;;; remove ["/backstores/block"; "delete"; bs].
Definition pruneLUNs (t : Target) : io unit :=
  let! r := targetcli ["ls"; luns_path (t_IQN t); "1"] in
  match r.2 with
  | Some _ => Ret tt
  | None => for_each (SplitLines r.1) (prune_lun t)
  end.

Section LIO.
Context `{IpParse} (Root : string).

(** ** The VIP and its record *)
Definition vip_addr (vip : string) : string := (Cut vip slash).1.1.
Definition vipRecord (name : string) : string := Root +:+ vipRecordDir +:+ "/" +:+ name.

Definition vipHolders (vip : string) : io (list string) :=
  let! r := call (Run "ip" ["-j"; "addr"; "show"; "to"; vip_addr vip]) in
  match r.2 with
  | Some _ => Ret []
  | None => match json_ifnames r.1 with inl _ => Ret [] | inr devs => Ret devs end
  end.

Definition dropVIP (vip : string) : io unit :=
  let! devs := vipHolders vip in
  for_each devs (λ dev, let! _ := call (Run "ip" ["addr"; "del"; vip; "dev"; dev]) in Ret tt).

Definition releaseVIP (name : string) : io unit :=
  let rec := vipRecord name in
  let! b := call (FRead rec) in
  match b with
  | inl _ => Ret tt
  | inr b => dropVIP (TrimSpace b) ;;; let! _ := call (FRemove rec) in Ret tt
  end.

Definition ensureVIP (name vip : string) : io (option error) :=
  let! r := call (Run "ip" ["-j"; "route"; "show"; "default"]) in
  match r.2 with
  | Some e => Ret (Some e)
  | None =>
      match json_routes r.1 with
      | inr (dev :: _) =>
          let! holders := vipHolders vip in
          let! m := call (FMkdirAll (Root +:+ vipRecordDir)) in
          (match m with
           | Some _ => Ret tt
           | None => let! _ := call (FWrite (vipRecord name) vip) in Ret tt
           end) ;;;
          let! a := call (Run "ip" ["addr"; "replace"; vip; "dev"; dev]) in
          match a.2 with
          | Some e => Ret (Some e)
          | None =>
              if bool_decide (holders = [])
              then let! _ := call (Run "arping" ["-U"; "-c"; "2"; "-I"; dev; vip_addr vip]) in Ret None
              else Ret None
          end
      | _ => Ret (Some (errorf ("no default route to place VIP " +:+ vip +:+ " on")))
      end
  end.

(** ** EnsureTarget *)
Definition ensure_lun (t : Target) (lun : LUNStatus) : io (option error) :=
  let bs := backstore (Name (t_meta t)) (ls_ID lun) in
  ensure ["/backstores/block"; "create"; "name=" +:+ bs; "dev=" +:+ ls_Device lun] ;!;
  ensure [luns_path (t_IQN t); "create"; "/backstores/block/" +:+ bs].

(** The loop over the initiators: whether CHAP is wanted, and who was
    granted an ACL. *)
Record acl_state := { as_auth : bool; as_granted : gset string }.
Definition names_chap (ini : Initiator) : bool := negb (bool_decide (ini_ChapSecretRef ini = "")).
Definition set_auth (iqn ini : string) (cred : ChapCred) : io (option error) :=
  let! r := targetcli [acls_path iqn +:+ "/" +:+ ini; "set"; "auth";
                       "userid=" +:+ cc_User cred; "password=" +:+ cc_Password cred] in
  match r.2 with
  | None => Ret None
  | Some e => Ret (Some (errorf (ReplaceAll (emsg e) (cc_Password cred) "<redacted>")))
  end.
Definition ensure_acl (t : Target) (chap : gmap string ChapCred) (st : acl_state) (ini : Initiator)
    : io (acl_state + error) :=
  let auth := as_auth st || names_chap ini in
  let cred := chap !! ini_IQN ini in
  if names_chap ini && bool_decide (cred = None)
  then Ret (inl {| as_auth := auth; as_granted := as_granted st |})
  else
    let! e := ensure [acls_path (t_IQN t); "create"; ini_IQN ini] in
    match e with
    | Some err => Ret (inr err)
    | None =>
        let st' := {| as_auth := auth; as_granted := {[ini_IQN ini]} ∪ as_granted st |} in
        match cred with
        | None => Ret (inl st')
        | Some c =>
            let! e' := set_auth (t_IQN t) (ini_IQN ini) c in
            match e' with Some err => Ret (inr err) | None => Ret (inl st') end
        end
    end.
Definition auth_args (iqn : string) (auth : bool) : list string :=
  [tpg_path iqn; "set"; "attribute"; "authentication=" +:+ (if auth then "1" else "0"); "generate_node_acls=0"].

Definition EnsureTarget (t : Target) (chap : gmap string ChapCred) : io (option error) :=
  let iqn := t_IQN t in
  ensure ["/iscsi"; "create"; iqn] ;!;
  for_err (t_StatusLUNs t) (ensure_lun t) ;!;
  let! r := for_state (t_Initiators t) {| as_auth := false; as_granted := ∅ |} (ensure_acl t chap) in
  match r with
  | inr e => Ret (Some e)
  | inl st =>
      run_err "targetcli" (auth_args iqn (as_auth st)) ;!;
      pruneACLs t (as_granted st) ;!;
      pruneLUNs t ;;;
      (if bool_decide (t_VIP t = "") then Ret None else ensureVIP (Name (t_meta t)) (t_VIP t)) ;!;
      run_err "targetcli" ["saveconfig"]
  end.

(** ** RemoveTarget, TeardownTarget *)
Definition remove_backstore (name f : string) : io unit :=
  if HasPrefix f (backstore_prefix name) then remove ["/backstores/block"; "delete"; f] else Ret tt.
Definition RemoveTarget (name : string) : io unit :=
  remove ["/iscsi"; "delete"; iqnFor name] ;;;
  let! r := targetcli ["ls"; "/backstores/block"; "1"] in
  (match r.2 with
   | None => for_each (Fields r.1) (remove_backstore name)
   | Some _ => Ret tt
   end) ;;;
  let! _ := targetcli ["saveconfig"] in
  releaseVIP name.

Definition TeardownTarget (name vip : string) : io unit :=
  let! r := targetcli ["ls"; "/iscsi/" +:+ iqnFor name; "1"] in
  (match r.2 with None => RemoveTarget name | Some _ => Ret tt end) ;;;
  (if bool_decide (vip = "") then Ret tt else dropVIP vip) ;;;
  releaseVIP name.
End LIO.

(** ** What converging a target may do, and what a converged target means *)
Definition may_login (inis : list Initiator) (chap : gmap string ChapCred) (x : string) : Prop :=
  ∃ ini, ini ∈ inis ∧ ini_IQN ini = x ∧ (names_chap ini = false ∨ is_Some (chap !! x)).

(** Every command [EnsureTarget] runs is one of these. *)
Inductive target_cmd (t : Target) (chap : gmap string ChapCred) : string → list string → Prop :=
  | tc_iscsi : target_cmd t chap "targetcli" ["/iscsi"; "create"; t_IQN t]
  | tc_backstore l : l ∈ t_StatusLUNs t → target_cmd t chap "targetcli"
      ["/backstores/block"; "create"; "name=" +:+ backstore (Name (t_meta t)) (ls_ID l); "dev=" +:+ ls_Device l]
  | tc_lun l : l ∈ t_StatusLUNs t → target_cmd t chap "targetcli"
      [luns_path (t_IQN t); "create"; "/backstores/block/" +:+ backstore (Name (t_meta t)) (ls_ID l)]
  | tc_acl x : may_login (t_Initiators t) chap x →
      target_cmd t chap "targetcli" [acls_path (t_IQN t); "create"; x]
  | tc_auth x c : may_login (t_Initiators t) chap x → chap !! x = Some c → target_cmd t chap "targetcli"
      [acls_path (t_IQN t) +:+ "/" +:+ x; "set"; "auth"; "userid=" +:+ cc_User c; "password=" +:+ cc_Password c]
  | tc_attr : target_cmd t chap "targetcli" (auth_args (t_IQN t) (existsb names_chap (t_Initiators t)))
  | tc_ls p : p ∈ [acls_path (t_IQN t); luns_path (t_IQN t)] → target_cmd t chap "targetcli" ["ls"; p; "1"]
  | tc_revoke x : HasPrefix x "iqn." = true → ¬ may_login (t_Initiators t) chap x →
      target_cmd t chap "targetcli" [acls_path (t_IQN t); "delete"; x]
  | tc_unlun l : target_cmd t chap "targetcli" [luns_path (t_IQN t); "delete"; l]
  | tc_unback b : HasPrefix b (backstore_prefix (Name (t_meta t))) = true → b ∉ wanted_luns t →
      target_cmd t chap "targetcli" ["/backstores/block"; "delete"; b]
  | tc_save : target_cmd t chap "targetcli" ["saveconfig"]
  | tc_route : t_VIP t ≠ "" → target_cmd t chap "ip" ["-j"; "route"; "show"; "default"]
  | tc_addr : t_VIP t ≠ "" → target_cmd t chap "ip" ["-j"; "addr"; "show"; "to"; vip_addr (t_VIP t)]
  | tc_vip dev : t_VIP t ≠ "" → target_cmd t chap "ip" ["addr"; "replace"; t_VIP t; "dev"; dev]
  | tc_garp dev : t_VIP t ≠ "" →
      target_cmd t chap "arping" ["-U"; "-c"; "2"; "-I"; dev; vip_addr (t_VIP t)].

(** A create that succeeded or found the object there; a delete that
    succeeded or found it gone. *)
Definition made (args : list string) (tr : trace op) : Prop :=
  seen "targetcli" args (λ out err, match err with None => True | Some e => already_there e out = true end) tr.
Definition unmade (args : list string) (tr : trace op) : Prop :=
  seen "targetcli" args (λ out err, match err with None => True | Some e => absent_reply e out = true end) tr.

(** A LUN's backstore exists and is exported. *)
Definition lun_made (t : Target) (l : LUNStatus) (tr : trace op) : Prop :=
  made ["/backstores/block"; "create"; "name=" +:+ backstore (Name (t_meta t)) (ls_ID l); "dev=" +:+ ls_Device l] tr ∧
  made [luns_path (t_IQN t); "create"; "/backstores/block/" +:+ backstore (Name (t_meta t)) (ls_ID l)] tr.

Record target_converged (t : Target) (chap : gmap string ChapCred) (tr : trace op) : Prop := {
  tv_luns : ∀ l, l ∈ t_StatusLUNs t → lun_made t l tr;
  tv_acls : ∀ x, may_login (t_Initiators t) chap x → made [acls_path (t_IQN t); "create"; x] tr;
  tv_creds : ∀ x c, may_login (t_Initiators t) chap x → chap !! x = Some c → did "targetcli"
    [acls_path (t_IQN t) +:+ "/" +:+ x; "set"; "auth"; "userid=" +:+ cc_User c; "password=" +:+ cc_Password c] tr;
  tv_attr : did "targetcli" (auth_args (t_IQN t) (existsb names_chap (t_Initiators t))) tr;
  tv_revoked : seen "targetcli" ["ls"; acls_path (t_IQN t); "1"] (λ out err, err = None ∧
    ∀ x, x ∈ Fields out → HasPrefix x "iqn." = true → ¬ may_login (t_Initiators t) chap x →
      unmade [acls_path (t_IQN t); "delete"; x] tr) tr;
  tv_vip : t_VIP t ≠ "" → ∃ dev, did "ip" ["addr"; "replace"; t_VIP t; "dev"; dev] tr;
  tv_saved : did "targetcli" ["saveconfig"] tr;
}.

Section EnsureProofs.
Context `{IpParse} (Root : string) (t : Target) (chap : gmap string ChapCred).

Definition tcmds (tr : trace op) : Prop :=
  ∀ e n a, e ∈ tr → cmd_of e = Some (n, a) → target_cmd t chap n a.
Lemma tcmds_nil : tcmds [].
Proof. intros e n a []%elem_of_nil. Qed.
Lemma tcmds_app t1 t2 : tcmds t1 → tcmds t2 → tcmds (t1 ++ t2).
Proof. intros ?? e n a [?|?]%elem_of_app; eauto. Qed.
Lemma tcmds_one e : (∀ n a, cmd_of e = Some (n, a) → target_cmd t chap n a) → tcmds [e].
Proof. intros He x n a ->%list_elem_of_singleton. auto. Qed.
Lemma tcmds_run n a r : target_cmd t chap n a → tcmds [Ev (Run n a) r].
Proof. intros. apply tcmds_one. intros ?? [= <- <-]. done. Qed.

Lemma made_app_l args t1 t2 : made args t1 → made args (t1 ++ t2).
Proof. apply seen_app_l. Qed.
Lemma made_app_r args t1 t2 : made args t2 → made args (t1 ++ t2).
Proof. apply seen_app_r. Qed.

Lemma wp_ensure args :
  target_cmd t chap "targetcli" args →
  wp (ensure args) (λ tr r, tcmds tr ∧ (r = None → made args tr)).
Proof.
  intros Hc. unfold ensure, targetcli. cbn. intros [out [e|]]; cbn; (split; [by apply tcmds_run|]).
  - destruct (already_there e out) eqn:E; [intros _|done]. eapply seen_here; [done|]. done.
  - intros _. by eapply seen_here.
Qed.

Lemma wp_ensure_lun l :
  l ∈ t_StatusLUNs t →
  wp (ensure_lun t l) (λ tr r, tcmds tr ∧ (r = None → lun_made t l tr)).
Proof.
  intros Hl. apply wp_seq_err. eapply wp_mono; [by apply wp_ensure, tc_backstore|].
  intros t1 [e|] [H1 D1]; [done|]. eapply wp_mono; [by apply wp_ensure, tc_lun|].
  intros t2 r [H2 D2]. split; [by apply tcmds_app|]. intros ->.
  split; [apply made_app_l|apply made_app_r]; auto.
Qed.

(** The loop over the initiators. *)
Record acl_inv (done : list Initiator) (st : acl_state) (tr : trace op) : Prop := {
  ai_cmds : tcmds tr;
  ai_auth : as_auth st = existsb names_chap done;
  ai_granted : ∀ x, x ∈ as_granted st ↔ may_login done chap x;
  ai_made : ∀ x, x ∈ as_granted st → made [acls_path (t_IQN t); "create"; x] tr;
  ai_creds : ∀ x c, x ∈ as_granted st → chap !! x = Some c → did "targetcli"
    [acls_path (t_IQN t) +:+ "/" +:+ x; "set"; "auth"; "userid=" +:+ cc_User c; "password=" +:+ cc_Password c] tr;
}.

Lemma may_login_snoc done ini x :
  may_login (done ++ [ini]) chap x ↔
  may_login done chap x ∨ (ini_IQN ini = x ∧ (names_chap ini = false ∨ is_Some (chap !! x))).
Proof.
  unfold may_login. split.
  - intros (i & [Hi|Hi]%elem_of_app & ? & ?); [left; eauto|].
    apply list_elem_of_singleton in Hi as ->. auto.
  - intros [(i & ? & ? & ?)|[? ?]]; [exists i|exists ini]; rewrite elem_of_app; auto.
    split; [right; by apply list_elem_of_singleton|auto].
Qed.
Lemma existsb_snoc {A} (f : A → bool) l x : existsb f (l ++ [x]) = existsb f l || f x.
Proof. by rewrite existsb_app; cbn; rewrite orb_false_r. Qed.

Lemma acl_inv_skip done st tr ini :
  acl_inv done st tr → names_chap ini = true → chap !! ini_IQN ini = None →
  acl_inv (done ++ [ini]) {| as_auth := as_auth st || names_chap ini; as_granted := as_granted st |} (tr ++ []).
Proof.
  intros [H1 H2 H3 H4 H5] Hn Hc. rewrite app_nil_r. split; cbn; [done| |..|done|done].
  - by rewrite existsb_snoc, H2.
  - intros x. rewrite may_login_snoc, H3, Hn. split; [tauto|].
    intros [?|(<- & [?|Hs])]; [done|done|]. rewrite Hc in Hs. by destruct Hs.
Qed.

Lemma acl_inv_grant done st tr ini t1 t2 :
  acl_inv done st tr → (names_chap ini = false ∨ is_Some (chap !! ini_IQN ini)) →
  tcmds t1 → tcmds t2 → made [acls_path (t_IQN t); "create"; ini_IQN ini] t1 →
  (∀ c, chap !! ini_IQN ini = Some c → did "targetcli"
    [acls_path (t_IQN t) +:+ "/" +:+ ini_IQN ini; "set"; "auth"; "userid=" +:+ cc_User c;
     "password=" +:+ cc_Password c] t2) →
  acl_inv (done ++ [ini]) {| as_auth := as_auth st || names_chap ini; as_granted := {[ini_IQN ini]} ∪ as_granted st |}
    (tr ++ t1 ++ t2).
Proof.
  intros [H1 H2 H3 H4 H5] Hm C1 C2 Hmade Hdid. split; cbn.
  - repeat apply tcmds_app; auto.
  - by rewrite existsb_snoc, H2.
  - intros x. rewrite may_login_snoc, elem_of_union, elem_of_singleton, H3.
    split; [intros [->|?]|intros [?|[<- _]]]; auto.
  - intros x [->%elem_of_singleton|?]%elem_of_union; [apply made_app_r, made_app_l; done|].
    apply made_app_l; auto.
  - intros x c [->%elem_of_singleton|?]%elem_of_union Hx; [apply did_app_r, did_app_r; auto|].
    apply did_app_l; auto.
Qed.

Lemma wp_ensure_acl done st tr ini :
  ini ∈ t_Initiators t → acl_inv done st tr →
  wp (ensure_acl t chap st ini) (λ t' r, match r with
    | inl st' => acl_inv (done ++ [ini]) st' (tr ++ t')
    | inr _ => tcmds (tr ++ t')
    end).
Proof.
  intros Hin Hi. unfold ensure_acl.
  destruct (names_chap ini && bool_decide (chap !! ini_IQN ini = None)) eqn:E.
  { bools. by apply acl_inv_skip. }
  assert (names_chap ini = false ∨ is_Some (chap !! ini_IQN ini)) as Hm.
  { apply andb_false_iff in E as [?|E]; [by left|right]. bools. by apply not_eq_None_Some. }
  assert (may_login (t_Initiators t) chap (ini_IQN ini)) as Hl by (by exists ini).
  apply wp_bind_2. eapply wp_mono; [by apply wp_ensure, tc_acl|].
  intros t1 [e|] [C1 M1]; cbn [wp].
  { rewrite app_nil_r. apply tcmds_app; [apply Hi|done]. }
  destruct (chap !! ini_IQN ini) as [c|] eqn:Hc; cbn [wp bind set_auth targetcli call].
  - intros [out [e|]]; cbn [wp bind snd].
    + apply tcmds_app; [apply Hi|]. apply tcmds_app; [done|]. by apply tcmds_run, tc_auth.
    + apply acl_inv_grant; [done|by rewrite Hc|done|by apply tcmds_run, tc_auth|auto|].
      intros c' Hc'. rewrite Hc in Hc'. injection Hc' as <-. by eapply did_here.
  - apply acl_inv_grant; [done|by rewrite Hc|done|apply tcmds_nil|auto|]. intros c' Hc'. congruence.
Qed.

Lemma wp_ensure_acls :
  wp (for_state (t_Initiators t) {| as_auth := false; as_granted := ∅ |} (ensure_acl t chap))
    (λ tr r, match r with inl st => acl_inv (t_Initiators t) st tr | inr _ => tcmds tr end).
Proof.
  apply (wp_for_state_inv acl_inv (λ tr _, tcmds tr) _ _ [] _ []).
  - split; cbn; [apply tcmds_nil|done| |set_solver|set_solver].
    intros x. split; [set_solver|]. intros (? & []%elem_of_nil & _).
  - intros. by apply wp_ensure_acl.
Qed.
(** Revocation: every listed initiator outside the grant was deleted, or an
    error is returned. *)
Lemma wp_pruneACLs granted :
  (∀ x, x ∈ granted ↔ may_login (t_Initiators t) chap x) →
  wp (pruneACLs t granted) (λ tr r, tcmds tr ∧ (r = None →
    seen "targetcli" ["ls"; acls_path (t_IQN t); "1"] (λ out err, err = None ∧
      ∀ x, x ∈ Fields out → HasPrefix x "iqn." = true → ¬ may_login (t_Initiators t) chap x →
        unmade [acls_path (t_IQN t); "delete"; x] tr) tr)).
Proof.
  intros Hg. unfold pruneACLs, targetcli. cbn [bind call wp]. intros [out [e|]]; cbn [snd fst wp].
  { split; [|done]. apply tcmds_run, tc_ls. set_solver. }
  eapply wp_mono; [apply (for_err_phase
    (λ _ e, ∀ n a, cmd_of e = Some (n, a) → target_cmd t chap n a)
    (λ x tr, HasPrefix x "iqn." = true → ¬ may_login (t_Initiators t) chap x →
      unmade [acls_path (t_IQN t); "delete"; x] tr))|].
  - intros x _. unfold prune_acl.
    destruct (negb (HasPrefix x "iqn.") || bget granted x) eqn:E; cbn [wp].
    { split; [intros e []%elem_of_nil|]. intros _ Hp Hn. bool_cases; [congruence|].
      unfold bget in E. bools. by destruct Hn; apply Hg. }
    apply orb_false_iff in E as [Hp%negb_false_iff Hb]. unfold bget in Hb. bools. rewrite Hg in Hb.
    intros [out' [e|]]; cbn [bind wp snd fst];
      (split; [intros e' ->%list_elem_of_singleton ?? [= <- <-]; by apply tc_revoke|]).
    + destruct (absent_reply e out') eqn:Ea; [|done]. intros _ _ _. by eapply seen_here.
    + intros _ _ _. by eapply seen_here.
  - intros x t1 t2 [HD|HD] ??; [apply seen_app_l|apply seen_app_r]; by apply HD.
  - intros tr r [HC HD]. split.
    + apply (tcmds_app [_]); [apply tcmds_run, tc_ls; set_solver|]. intros e n a He. destruct (HC e He) as (? & _ & Hx). apply Hx.
    + intros Hr. eapply seen_here; [done|]. split; [done|]. intros x Hx Hp Hn.
      apply seen_there. by apply HD.
Qed.

Lemma wp_pruneLUNs : wp (pruneLUNs t) (λ tr _, tcmds tr).
Proof.
  unfold pruneLUNs, targetcli. cbn [bind call wp]. intros [out [e|]]; cbn [snd fst wp].
  { apply tcmds_run, tc_ls. set_solver. }
  eapply wp_mono; [apply (wp_for_each tcmds); [apply tcmds_nil|apply tcmds_app|]|].
  - intros line _. unfold prune_lun. destruct (parseLUNLine line) as [lun bs].
    destruct (_ || _) eqn:E; [apply tcmds_nil|]. unfold bget in E. bools.
    unfold remove, targetcli. cbn. intros ? ?. apply (tcmds_app [_] [_]); apply tcmds_run; [apply tc_unlun|].
    by apply tc_unback.
  - intros tr ? Hc. apply (tcmds_app [_]); [|done]. apply tcmds_run, tc_ls. set_solver.
Qed.

Lemma wp_ensureVIP :
  t_VIP t ≠ "" →
  wp (ensureVIP Root (Name (t_meta t)) (t_VIP t)) (λ tr r, tcmds tr ∧
    (r = None → ∃ dev, did "ip" ["addr"; "replace"; t_VIP t; "dev"; dev] tr)).
Proof.
  intros Hv. unfold ensureVIP, vipHolders. repeat (wp_step || intros ?); cbn [wp bind call]; outs;
    (split; [intros ? ? ? He Hc; split_in; ev_simpl; eauto using target_cmd|]); try done;
    intros _; eexists; eauto 10 with evidence.
Qed.

Lemma wp_EnsureTarget :
  wp (EnsureTarget Root t chap) (λ tr r, tcmds tr ∧ (r = None → target_converged t chap tr)).
Proof.
  unfold EnsureTarget. apply wp_seq_err. eapply wp_mono; [apply wp_ensure, tc_iscsi|].
  intros t1 [e|] [C1 _]; [done|]. apply wp_seq_err.
  eapply wp_mono; [apply (for_err_phase (λ _ e, ∀ n a, cmd_of e = Some (n, a) → target_cmd t chap n a)
    (lun_made t))|].
  { intros l Hl. eapply wp_mono; [by apply wp_ensure_lun|]. intros tr r [Hc Hd]. split; [|exact Hd].
    intros e He n a. by apply Hc. }
  { intros l ta tb [[? ?]|[? ?]]; split; ((by apply made_app_l) || (by apply made_app_r)). }
  intros t2 r2 [C2' D2]. assert (tcmds t2) as C2 by (intros e n a He; destruct (C2' e He) as (? & _ & Hx); apply Hx).
  destruct r2 as [e|]; [split; [by apply tcmds_app|done]|]. specialize (D2 eq_refl).
  apply wp_bind_2. eapply wp_mono; [apply wp_ensure_acls|].
  intros t3 [st|e] H3; [|cbn; rewrite app_nil_r; split; [repeat apply tcmds_app; done|done]].
  destruct H3 as [C3 Ha Hg Hm Hcr]. apply wp_seq_err. unfold run_err. cbn [wp bind call]. rewrite Ha.
  intros [out4 [e|]]; cbn [snd fst].
  { split; [|done]. repeat apply tcmds_app; try done. apply tcmds_run, tc_attr. }
  apply wp_seq_err. eapply wp_mono; [by apply wp_pruneACLs|]. intros t5 r5 [C5 D5].
  assert (tcmds [Ev (Run "targetcli" (auth_args (t_IQN t) (existsb names_chap (t_Initiators t)))) (out4, @None error)]) as C4
    by apply tcmds_run, tc_attr.
  destruct r5 as [e|]; [split; [repeat apply tcmds_app; done|done]|]. specialize (D5 eq_refl).
  apply wp_bind_2. eapply wp_mono; [apply wp_pruneLUNs|]. intros t6 ? C6. apply wp_seq_err.
  eapply wp_mono with (Q := λ tr r, tcmds tr ∧ (r = None → t_VIP t ≠ "" →
    ∃ dev, did "ip" ["addr"; "replace"; t_VIP t; "dev"; dev] tr)).
  { case_bool_decide; [by split; [apply tcmds_nil|]|].
    eapply wp_mono; [by apply wp_ensureVIP|]. naive_solver. }
  intros t7 [e|] [C7 D7]; [split; [repeat apply tcmds_app; done|done]|]. specialize (D7 eq_refl).
  cbn [wp bind call]. intros [out8 e8]. cbn [wp bind snd].
  split; [repeat apply tcmds_app; try done; apply tcmds_run, tc_save|]. intros ->. split.
  - intros l Hl. destruct (D2 l Hl). split; by apply made_app_r, made_app_l.
  - intros x Hx%Hg. apply made_app_r, made_app_r, made_app_l. auto.
  - intros x c Hx%Hg Hc. apply did_app_r, did_app_r, did_app_l. auto.
  - apply did_app_r, did_app_r, did_app_r, did_app_l. by eapply did_here.
  - destruct D5 as (ev & out & err & Hin & Hev & He & Hr). exists ev, out, err.
    split_and!; [rewrite !elem_of_app; tauto|done|done|]. intros x Hx Hp Hn.
    do 4 apply seen_app_r. apply seen_app_l. by apply Hr.
  - intros Hv. destruct (D7 Hv) as [dev Hd]. exists dev. do 6 apply did_app_r. by apply did_app_l.
  - do 7 apply did_app_r. by eapply did_here.
Qed.
End EnsureProofs.

(** ** Teardown

    The teardown is best effort: it never looks at the outcome of the commands
    it runs, and takes a failed probe for an absent object.  The evidence below
    says what was probed and which commands were run in answer, and nothing of
    their success. *)
Definition ran (n : string) (a : list string) (tr : trace op) : Prop := seen n a (λ _ _, True) tr.
Definition ev_fread (e : event op) : option (string * (error + string)) :=
  match e with
  | Ev o x => match o in op X return X → _ with FRead p => λ r, Some (p, r) | _ => λ _, None end x
  end.

(** The holders of the address were asked for, and its removal was run on every
    interface a readable answer reports. *)
Definition vip_dropped `{IpParse} (vip : string) (tr : trace op) : Prop :=
  seen "ip" ["-j"; "addr"; "show"; "to"; vip_addr vip] (λ out err, err = None →
    ∀ devs dev, json_ifnames out = inr devs → dev ∈ devs → ran "ip" ["addr"; "del"; vip; "dev"; dev] tr) tr.

(** The record was read; a record that could be read had its address dropped
    and its file unlinked. *)
Definition vip_released `{IpParse} (Root name : string) (tr : trace op) : Prop :=
  ∃ e r, e ∈ tr ∧ ev_fread e = Some (vipRecord Root name, r) ∧
    match r with
    | inl _ => True
    | inr b => vip_dropped (TrimSpace b) tr ∧ ∃ w, (Ev (FRemove (vipRecord Root name)) w : event op) ∈ tr
    end.

(** What [RemoveTarget] runs on the export: the target is deleted, and every
    block backstore of its prefix that a readable listing shows. *)
Record export_removal (name : string) (tr : trace op) : Prop := {
  er_target : ran "targetcli" ["/iscsi"; "delete"; iqnFor name] tr;
  er_stores : seen "targetcli" ["ls"; "/backstores/block"; "1"] (λ out err, err = None →
    ∀ f, f ∈ Fields out → HasPrefix f (backstore_prefix name) = true →
      ran "targetcli" ["/backstores/block"; "delete"; f] tr) tr;
  er_saved : ran "targetcli" ["saveconfig"] tr;
}.

(** The teardown was attempted: the export's removal was run when the probe
    found it, and so was the release of the address of the spec and of the
    recorded one. *)
Record teardown_run `{IpParse} (Root name vip : string) (tr : trace op) : Prop := {
  tt_export : seen "targetcli" ["ls"; "/iscsi/" +:+ iqnFor name; "1"] (λ _ err, err = None →
    export_removal name tr) tr;
  tt_vip : vip ≠ "" → vip_dropped vip tr;
  tt_record : vip_released Root name tr;
}.

Lemma wp_true {A} (p : io A) : wp p (λ _ _, True).
Proof. by apply runs_wp. Qed.

Section TeardownProofs.
Context `{IpParse} (Root : string).

Lemma seen_impl n a (P Q : string → option error → Prop) tr :
  seen n a P tr → (∀ out err, P out err → Q out err) → seen n a Q tr.
Proof. intros (e & out & err & ? & ? & ?) HPQ. exists e, out, err. auto. Qed.
Lemma ran_sub n a t1 t2 : t1 ⊆ t2 → ran n a t1 → ran n a t2.
Proof. apply seen_sub. Qed.

Lemma vip_dropped_sub vip t1 t2 : t1 ⊆ t2 → vip_dropped vip t1 → vip_dropped vip t2.
Proof.
  intros Hs Hd. eapply seen_sub; [exact Hs|]. eapply seen_impl; [exact Hd|].
  intros out err HP ? devs dev ??. eapply ran_sub; eauto.
Qed.
Lemma vip_released_sub name t1 t2 : t1 ⊆ t2 → vip_released Root name t1 → vip_released Root name t2.
Proof.
  intros Hs (e & r & He & Hr & Hd). exists e, r. split_and!; [auto|done|].
  destruct r; [done|]. destruct Hd as [? [w ?]]. split; [by eapply vip_dropped_sub|eauto].
Qed.
Lemma export_removal_sub name t1 t2 : t1 ⊆ t2 → export_removal name t1 → export_removal name t2.
Proof.
  intros Hs [Ht Hb Hv]. split; [by eapply ran_sub| |by eapply ran_sub].
  eapply seen_sub; [exact Hs|]. eapply seen_impl; [exact Hb|]. intros out err HP ? f ??. eapply ran_sub; eauto.
Qed.

Lemma wp_for_each_ran {A} (l : list A) (n : string) (args : A → list string) :
  wp (for_each l (λ x, let! _ := call (Run n (args x)) in Ret tt))
    (λ tr _, ∀ x, x ∈ l → ran n (args x) tr).
Proof.
  induction l as [|x l IH]; cbn; [by intros x ?%elem_of_nil|]. intros r.
  eapply wp_mono; [exact IH|]. intros tr ? Htr y [->|Hy]%elem_of_cons.
  - destruct r. by eapply seen_here.
  - by apply seen_there, Htr.
Qed.

Lemma wp_dropVIP vip : wp (dropVIP vip) (λ tr _, vip_dropped vip tr).
Proof.
  unfold dropVIP, vipHolders. cbn [bind call wp]. intros [out [e|]]; cbn [bind wp fst snd].
  { by eapply seen_here. }
  destruct (json_ifnames out) as [e|devs] eqn:E; cbn [bind wp].
  { eapply seen_here; [done|]. cbn. intros. congruence. }
  eapply wp_mono; [apply wp_for_each_ran|]. intros tr ? Htr. eapply seen_here; [done|].
  intros _ devs' dev E' Hd. assert (devs' = devs) as -> by congruence. apply seen_there. by apply Htr.
Qed.

Lemma wp_releaseVIP name : wp (releaseVIP Root name) (λ tr _, vip_released Root name tr).
Proof.
  unfold releaseVIP. cbn [bind call wp]. intros [e|b]; cbn [bind wp].
  { eexists _, _. split_and!; [left|done|done]. }
  apply wp_bind_2. eapply wp_mono; [apply wp_dropVIP|]. intros tr ? Hd. cbn. intros x.
  eexists _, _. split_and!; [left|done|].
  split; [eapply vip_dropped_sub; [|exact Hd]; set_solver|exists x; set_solver].
Qed.

Lemma wp_remove_backstores name fs :
  wp (for_each fs (remove_backstore name)) (λ tr _, ∀ f, f ∈ fs → HasPrefix f (backstore_prefix name) = true →
    ran "targetcli" ["/backstores/block"; "delete"; f] tr).
Proof.
  induction fs as [|f fs IH]; cbn; [by intros f ?%elem_of_nil|]. apply wp_bind_2. unfold remove_backstore at 1.
  destruct (HasPrefix f _) eqn:E; cbn [wp bind call remove targetcli]; [intros r|];
    (eapply wp_mono; [exact IH|]); intros tr ? Htr g [->|Hg]%elem_of_cons Hp; try congruence.
  - destruct r. by eapply seen_here.
  - apply seen_there. by apply Htr.
  - by apply Htr.
Qed.

Lemma wp_RemoveTarget name : wp (RemoveTarget Root name) (λ tr _, export_removal name tr).
Proof.
  unfold RemoveTarget, remove, targetcli. cbn [bind call wp]. intros [o1 e1] [o2 e2].
  apply wp_bind_2. eapply wp_mono with (Q := λ tr _, e2 = None → ∀ f, f ∈ Fields o2 →
    HasPrefix f (backstore_prefix name) = true → ran "targetcli" ["/backstores/block"; "delete"; f] tr).
  { destruct e2; cbn [wp snd fst]; [by intros [=]|]. eapply wp_mono; [apply wp_remove_backstores|]. auto. }
  intros tr ? Hb. cbn [bind call wp]. intros [o3 e3].
  eapply wp_mono; [apply wp_true|].
  intros ta ? _. split; [by eapply seen_here| |do 2 apply seen_there; apply seen_app_r; by eapply seen_here].
  apply seen_there. eapply seen_here; [done|]. intros -> f Hf Hp. do 2 apply seen_there. apply seen_app_l. by apply Hb.
Qed.

Lemma wp_TeardownTarget name vip : wp (TeardownTarget Root name vip) (λ tr _, teardown_run Root name vip tr).
Proof.
  unfold TeardownTarget, targetcli. cbn [bind call wp]. intros [out e].
  apply wp_bind_2. eapply wp_mono with (Q := λ tr _, e = None → export_removal name tr).
  { destruct e; cbn [wp snd]; [by intros [=]|]. eapply wp_mono; [apply wp_RemoveTarget|]. auto. }
  intros t1 ? H1. apply wp_bind_2. eapply wp_mono with (Q := λ tr _, vip ≠ "" → vip_dropped vip tr).
  { case_bool_decide; [by intros ?|]. eapply wp_mono; [apply wp_dropVIP|]. auto. }
  intros t2 ? H2. eapply wp_mono; [apply wp_releaseVIP|]. intros t3 ? H3. split.
  - eapply seen_here; [done|]. intros ->. eapply export_removal_sub; [|by apply H1]. set_solver.
  - intros Hv. eapply vip_dropped_sub; [|by apply H2]. set_solver.
  - eapply vip_released_sub; [|exact H3]. set_solver.
Qed.
End TeardownProofs.

(** ** A name that ends like a backstore

    [RemoveTarget] finds a target's backstores by the prefix
    [stornas-<name>-lun]; the backstores of a target named [a-lun1] carry the
    prefix of target [a] as well. *)
Lemma remove_target_foreign_backstore `{IpParse} Root a b tr r out :
  HasPrefix b (a +:+ "-lun") = true →
  runs (RemoveTarget Root a) tr r →
  seen "targetcli" ["ls"; "/backstores/block"; "1"]
    (λ o e, e = None ∧ o = out ∧ backstore b 0 ∈ Fields out) (drop 1 (take 2 tr)) →
  ran "targetcli" ["/backstores/block"; "delete"; backstore b 0] tr.
Proof.
  intros (s & ->)%HasPrefix_spec Hr.
  assert (HasPrefix (backstore ((a +:+ "-lun") +:+ s) 0) (backstore_prefix a) = true) as Hp.
  { unfold backstore, backstore_prefix. apply HasPrefix_spec. eexists. by rewrite !sapp_assoc. }
  revert tr r Hr Hp. generalize (backstore ((a +:+ "-lun") +:+ s) 0) as bs. intros bs tr r Hr Hp.
  eapply (wp_runs _ (λ tr _, seen "targetcli" ["ls"; "/backstores/block"; "1"]
      (λ o e, e = None ∧ o = out ∧ bs ∈ Fields out) (drop 1 (take 2 tr)) →
    ran "targetcli" ["/backstores/block"; "delete"; bs] tr) tr r); [|exact Hr]. clear tr r Hr.
  unfold RemoveTarget, remove, targetcli. cbn [bind call wp]. intros [o1 e1] [o2 e2].
  apply wp_bind_2. eapply wp_mono with (Q := λ tr _, e2 = None → bs ∈ Fields o2 →
    ran "targetcli" ["/backstores/block"; "delete"; bs] tr).
  { destruct e2; cbn [wp snd fst]; [by intros [=]|]. induction (Fields o2) as [|f l IH]; cbn; [by intros _ ?%elem_of_nil|].
    apply wp_bind_2. eapply wp_mono with (Q := λ tr _, f = bs → ran "targetcli" ["/backstores/block"; "delete"; bs] tr).
    { unfold remove_backstore. destruct (HasPrefix f _) eqn:E; [|cbn; congruence].
      cbn. intros [] ->. by eapply seen_here. }
    intros ta ? Ha. eapply wp_mono; [exact IH|]. intros tb ? Hb He [->|Hin]%elem_of_cons.
    - apply seen_app_l. by (apply Ha || apply Hb).
    - apply seen_app_r. by (apply Ha || apply Hb). }
  intros t1 ? H1. eapply wp_mono; [apply wp_true|].
  intros t2 ? _ (e & o & er & He & Hev & -> & -> & Hin). cbn in He. rewrite take_0 in He. split_in. cbn in Hev. simplify_eq.
  do 2 apply seen_there. apply seen_app_l. by apply H1.
Qed.

(** ** The manager never touches the API *)
Section HostOnly.
Context `{IpParse} (Root : string).
Lemma EnsureTarget_host t chap : issues host_op (EnsureTarget Root t chap).
Proof.
  unfold EnsureTarget, ensure_lun, ensure_acl, set_auth, pruneACLs, prune_acl, pruneLUNs, prune_lun, ensureVIP,
    vipHolders, run_err, ensure, remove, targetcli. issues_go.
Qed.
Lemma TeardownTarget_host name vip : issues host_op (TeardownTarget Root name vip).
Proof.
  unfold TeardownTarget, RemoveTarget, remove_backstore, releaseVIP, dropVIP, vipHolders, remove, targetcli. issues_go.
Qed.
Lemma RemoveTarget_host name : issues host_op (RemoveTarget Root name).
Proof.
  unfold RemoveTarget, remove_backstore, releaseVIP, dropVIP, vipHolders, remove, targetcli. issues_go.
Qed.
End HostOnly.
