(* ===== verification/TargetAgent.v ===== *)
(** * internal/agent/target_reconciler.go: the node's half of a Target

    Exports the targets placed on this node and tears them down when the
    placement moves away.  The in-memory map [applied] is the reconciler's
    state: every pass takes it and returns it. *)

From S2P Require Import Prelude GoStrings Prog ApiTypes Effects Demo Lvm Lio Nodes.

Abbreviation applied_map := (gmap NamespacedName string).

(** The key of a pass: the generation, the LUN devices, the Secret versions. *)
Definition lun_segment (l : LUNStatus) : string := Itoa (ls_ID l) +:+ ":" +:+ ls_Device l.
Definition secret_segment (ref version : string) : string := ref +:+ ":" +:+ version.
Definition key_add (key seg : string) : string := key +:+ "|" +:+ seg.
Definition placement_key (t : Target) : string :=
  foldl (λ k l, key_add k (lun_segment l)) ("g" +:+ Itoa (Generation (t_meta t))) (t_StatusLUNs t).

Record resolve_state := { rs_key : string; rs_chap : gmap string ChapCred }.
Definition resolve_chap (ns : string) (st : resolve_state) (ini : Initiator) : io (resolve_state + error) :=
  let ref := ini_ChapSecretRef ini in
  if bool_decide (ref = "") then Ret (inl st)
  else
    let! g := call (Get KSecret (NN ns ref)) in
    match g with
    | inl e =>
        if negb (IsNotFound (Some e)) then Ret (inr e)
        else Ret (inl {| rs_key := key_add (rs_key st) (secret_segment ref "absent"); rs_chap := rs_chap st |})
    | inr secret =>
        let key := key_add (rs_key st) (secret_segment ref (ResourceVersion (sec_meta secret))) in
        let '(user, password, ok) := ChapCredentials (sec_Data secret) in
        Ret (inl {| rs_key := key;
                    rs_chap := if ok then <[ini_IQN ini := {| cc_User := user; cc_Password := password |}]> (rs_chap st)
                               else rs_chap st |})
    end.

Definition t_set_state (t : Target) (cs : list Condition) (state : string) : Target :=
  {| t_meta := t_meta t; t_VIP := t_VIP t; t_LUNs := t_LUNs t; t_Initiators := t_Initiators t;
     t_Conditions := cs; t_IQN := t_IQN t; t_ActiveNode := t_ActiveNode t;
     t_StatusLUNs := t_StatusLUNs t; t_ChapSecretVersions := t_ChapSecretVersions t;
     t_Sessions := t_Sessions t; t_State := state |}.

Section TargetAgent.
Context `{K8sMeta} `{IpParse} (NodeName Root : string).

(** The status a convergence reports. *)
Definition host_cond (gen : Z) (ensureErr : option error) : Condition :=
  match ensureErr with
  | None => {| c_Type := ConditionHostReady; c_Status := ConditionTrue; c_Reason := ReasonReady;
               c_Message := ""; c_ObservedGeneration := gen |}
  | Some e => {| c_Type := ConditionHostReady; c_Status := ConditionFalse; c_Reason := ReasonHostError;
                 c_Message := emsg e; c_ObservedGeneration := gen |}
  end.
Definition export_state (ensureErr : option error) : string :=
  match ensureErr with None => "Exported" | Some _ => "Failed" end.
Definition target_reported (t : Target) (ensureErr : option error) : Target :=
  t_set_state t (SetStatusCondition (t_Conditions t) (host_cond (Generation (t_meta t)) ensureErr))
    (export_state ensureErr).

Definition target_deleting (applied : applied_map) (req : NamespacedName) (t : Target)
    : io (reconcile * applied_map) :=
  let applied := delete req applied in
  TeardownTarget Root (Name (t_meta t)) (t_VIP t) ;;;
  if bool_decide (t_ActiveNode t = NodeName) && negb (bool_decide (t_State t = "Removed"))
  then
    let! e := call (StatusUpdate KTarget (t_set_state t (t_Conditions t) "Removed")) in
    Ret (done_err (IgnoreNotFound e), applied)
  else Ret (done_ok, applied).

Definition target_converge (applied : applied_map) (req : NamespacedName) (t : Target)
    : io (reconcile * applied_map) :=
  let! r := for_state (t_Initiators t) {| rs_key := placement_key t; rs_chap := ∅ |}
              (resolve_chap (Namespace (t_meta t))) in
  match r with
  | inr e => Ret (done_err (Some e), applied)
  | inl st =>
      if bool_decide (default "" (applied !! req) = rs_key st) then Ret (done_ok, applied)
      else
        let! ensureErr := EnsureTarget Root t (rs_chap st) in
        let! e := call (StatusUpdate KTarget (target_reported t ensureErr)) in
        match e with
        | Some _ => Ret (done_err (IgnoreNotFound e), applied)
        | None =>
            match ensureErr with
            | Some _ => Ret (done_err ensureErr, applied)
            | None => Ret (done_ok, <[req := rs_key st]> applied)
            end
        end
  end.

Definition TargetAgent_Reconcile (applied : applied_map) (req : NamespacedName) : io (reconcile * applied_map) :=
  let! g := call (Get KTarget req) in
  match g with
  | inl e =>
      if IsNotFound (Some e)
      then RemoveTarget Root (nn_Name req) ;;; Ret (done_ok, delete req applied)
      else Ret (done_err (Some e), applied)
  | inr t =>
      if deleting (t_meta t) then target_deleting applied req t
      else if negb (bool_decide (t_ActiveNode t = NodeName))
      then TeardownTarget Root (Name (t_meta t)) (t_VIP t) ;;; Ret (done_ok, delete req applied)
      else if bool_decide (t_StatusLUNs t = []) then Ret (done_ok, applied)
      else target_converge applied req t
  end.
End TargetAgent.

(** ** What the pass knows about CHAP *)

(** Every credential used is in a Secret the pass read, named by an initiator
    of the spec with that IQN. *)
Definition chap_sound (t : Target) (chap : gmap string ChapCred) (tr : trace op) : Prop :=
  ∀ x c, chap !! x = Some c → ∃ ini secret, ini ∈ t_Initiators t ∧ ini_IQN ini = x ∧ names_chap ini = true ∧
    saw KSecret (NN (Namespace (t_meta t)) (ini_ChapSecretRef ini)) (inr secret) tr ∧
    ChapCredentials (sec_Data secret) = (cc_User c, cc_Password c, true).

(** A CHAP initiator without a credential: its Secret was read and is absent
    or holds no usable pair. *)
Definition chap_complete (t : Target) (chap : gmap string ChapCred) (tr : trace op) : Prop :=
  ∀ ini, ini ∈ t_Initiators t → names_chap ini = true → chap !! ini_IQN ini = None →
    ∃ r, saw KSecret (NN (Namespace (t_meta t)) (ini_ChapSecretRef ini)) r tr ∧
      match r with inl e => ekind e = KNotFound | inr secret => (ChapCredentials (sec_Data secret)).2 = false end.

(** The Secret versions that entered the key: one per CHAP initiator. *)
Definition version_of (r : error + Secret) : string :=
  match r with inl _ => "absent" | inr s => ResourceVersion (sec_meta s) end.
Definition target_key (t : Target) (versions : list string) : string :=
  foldl key_add (placement_key t)
    (zip_with (λ ini v, secret_segment (ini_ChapSecretRef ini) v) (filter (λ i, names_chap i = true) (t_Initiators t)) versions).

Section ResolveProofs.
Context (t : Target).

Definition segments (inis : list Initiator) (versions : list string) : list string :=
  zip_with (λ ini v, secret_segment (ini_ChapSecretRef ini) v) (filter (λ i, names_chap i = true) inis) versions.
Definition versions_read (inis : list Initiator) (versions : list string) (tr : trace op) : Prop :=
  Forall2 (λ ini v, ∃ r, saw KSecret (NN (Namespace (t_meta t)) (ini_ChapSecretRef ini)) r tr ∧ v = version_of r)
    (filter (λ i, names_chap i = true) inis) versions.

Definition quiet (tr : trace op) : Prop := Forall reads_only tr.
Record resolve_inv (done : list Initiator) (st : resolve_state) (tr : trace op) : Prop := {
  ri_reads : Forall reads_only tr;
  ri_sound : ∀ x c, rs_chap st !! x = Some c → ∃ ini secret, ini ∈ done ∧ ini_IQN ini = x ∧ names_chap ini = true ∧
    saw KSecret (NN (Namespace (t_meta t)) (ini_ChapSecretRef ini)) (inr secret) tr ∧
    ChapCredentials (sec_Data secret) = (cc_User c, cc_Password c, true);
  ri_complete : ∀ ini, ini ∈ done → names_chap ini = true → rs_chap st !! ini_IQN ini = None →
    ∃ r, saw KSecret (NN (Namespace (t_meta t)) (ini_ChapSecretRef ini)) r tr ∧
      match r with inl e => ekind e = KNotFound | inr secret => (ChapCredentials (sec_Data secret)).2 = false end;
  ri_key : ∃ vs, versions_read done vs tr ∧ rs_key st = foldl key_add (placement_key t) (segments done vs);
}.

Lemma versions_read_app done vs t1 t2 : versions_read done vs t1 → versions_read done vs (t1 ++ t2).
Proof.
  intros Hv. eapply Forall2_impl; [exact Hv|]. intros ini v (r & ? & ?). exists r. eauto with evidence.
Qed.
Lemma versions_read_snoc done vs tr ini r t' :
  versions_read done vs tr → names_chap ini = true →
  saw KSecret (NN (Namespace (t_meta t)) (ini_ChapSecretRef ini)) r t' →
  versions_read (done ++ [ini]) (vs ++ [version_of r]) (tr ++ t').
Proof.
  intros Hv Hn Hs. unfold versions_read. rewrite filter_app. cbn. rewrite decide_True by done.
  apply Forall2_app; [by apply versions_read_app|]. constructor; [|constructor]. exists r. eauto with evidence.
Qed.
Lemma segments_snoc done vs tr ini v :
  versions_read done vs tr → names_chap ini = true →
  segments (done ++ [ini]) (vs ++ [v]) = segments done vs ++ [secret_segment (ini_ChapSecretRef ini) v].
Proof.
  intros Hv%Forall2_length Hn. unfold segments. rewrite filter_app. cbn. rewrite decide_True by done.
  by rewrite zip_with_app.
Qed.

(** One Secret read: what the loop learns from the answer. *)
Lemma resolve_inv_read done st tr ini r key chap t' :
  resolve_inv done st tr → names_chap ini = true → Forall reads_only t' →
  saw KSecret (NN (Namespace (t_meta t)) (ini_ChapSecretRef ini)) r t' →
  key = key_add (rs_key st) (secret_segment (ini_ChapSecretRef ini) (version_of r)) →
  match r with
  | inl e => ekind e = KNotFound ∧ chap = rs_chap st
  | inr s => if (ChapCredentials (sec_Data s)).2
             then chap = <[ini_IQN ini := {| cc_User := (ChapCredentials (sec_Data s)).1.1;
                                            cc_Password := (ChapCredentials (sec_Data s)).1.2 |}]> (rs_chap st)
             else chap = rs_chap st
  end →
  resolve_inv (done ++ [ini]) {| rs_key := key; rs_chap := chap |} (tr ++ t').
Proof.
  intros [Hr Hs Hc (vs & Hv & Hk)] Hn Hq Hsaw -> Hchap. split; cbn.
  - by apply Forall_app.
  - intros x c Hx. assert (rs_chap st !! x = Some c ∨ ∃ s, r = inr s ∧ x = ini_IQN ini ∧
      ChapCredentials (sec_Data s) = (cc_User c, cc_Password c, true)) as [Hold|(s & -> & -> & Hs')].
    { destruct r as [e|s]; [destruct Hchap as [_ ->]; auto|].
      destruct (ChapCredentials (sec_Data s)) as [[u pw] []] eqn:E; cbn in Hchap; subst chap; [|auto].
      apply lookup_insert_Some in Hx as [[<- <-]|[_ Hx]]; [right|auto]. eauto. }
    + destruct (Hs x c Hold) as (i & s & Hi & ? & ? & ? & ?). exists i, s.
      rewrite elem_of_app. split_and!; eauto with evidence.
    + exists ini, s. rewrite elem_of_app, list_elem_of_singleton. split_and!; eauto with evidence.
  - intros i Hi Hni Hnone. assert (rs_chap st !! ini_IQN i = None) as Hold.
    { destruct r as [e|s]; [by destruct Hchap as [_ ->]|].
      destruct (ChapCredentials (sec_Data s)).2; subst chap; [|done].
      by apply lookup_insert_None in Hnone as [? _]. }
    apply elem_of_app in Hi as [Hi|Hi%list_elem_of_singleton].
    { destruct (Hc i Hi Hni Hold) as (r' & ? & ?). exists r'. eauto with evidence. }
    subst i. exists r. split; [eauto with evidence|]. destruct r as [e|s]; [by destruct Hchap|].
    destruct (ChapCredentials (sec_Data s)).2 eqn:E; [|exact E]. subst chap. by rewrite lookup_insert_eq in Hnone.
  - exists (vs ++ [version_of r]). split; [by apply versions_read_snoc|].
    rewrite (segments_snoc _ _ _ _ _ Hv Hn), foldl_app. cbn. by rewrite Hk.
Qed.

Lemma wp_resolve_chap done st tr ini :
  resolve_inv done st tr →
  wp (resolve_chap (Namespace (t_meta t)) st ini) (λ t' r, match r with
    | inl st' => resolve_inv (done ++ [ini]) st' (tr ++ t')
    | inr _ => Forall reads_only (tr ++ t')
    end).
Proof.
  intros Hi. unfold resolve_chap. case_bool_decide as Href; cbn [wp].
  { assert (names_chap ini = false) as Hn by (unfold names_chap; by rewrite bool_decide_eq_true_2).
    destruct Hi as [Hr Hs Hc (vs & Hv & Hk)]. rewrite app_nil_r. split; [done|..].
    - intros x c Hx. destruct (Hs x c Hx) as (i & s & ? & ?). exists i, s. rewrite elem_of_app. auto.
    - intros i [?| ->%list_elem_of_singleton]%elem_of_app ??; [eauto|congruence].
    - exists vs. unfold versions_read, segments. rewrite filter_app. cbn.
      rewrite decide_False by congruence. by rewrite app_nil_r. }
  assert (names_chap ini = true) as Hn by (unfold names_chap; by rewrite bool_decide_eq_false_2).
  cbn [bind call wp]. intros [e|s]; cbn [wp].
  - destruct (IsNotFound (Some e)) eqn:E; cbn.
    + eapply resolve_inv_read; eauto with evidence; [by repeat constructor|by split; [apply bool_decide_eq_true_1 in E|]].
    + apply Forall_app. split; [apply Hi|by repeat constructor].
  - destruct (ChapCredentials (sec_Data s)) as [[u pw] ok] eqn:E; cbn.
    apply (resolve_inv_read _ st _ _ (inr s) _ _ _ Hi Hn); [by repeat constructor|eauto with evidence|done|].
    rewrite E. by destruct ok.
Qed.

Lemma wp_resolve :
  wp (for_state (t_Initiators t) {| rs_key := placement_key t; rs_chap := ∅ |} (resolve_chap (Namespace (t_meta t))))
    (λ tr r, match r with inl st => resolve_inv (t_Initiators t) st tr | inr _ => Forall reads_only tr end).
Proof.
  apply (wp_for_state_inv resolve_inv (λ tr _, Forall reads_only tr) _ _ [] _ []).
  - split; cbn; [done|set_solver|set_solver|]. exists []. split; [constructor|done].
  - intros. by apply wp_resolve_chap.
Qed.
End ResolveProofs.

(** ** One pass, branch by branch *)
Section PassProofs.
Context `{K8sMeta} `{IpParse} (NodeName Root : string).

(** A convergence: the Secrets are read, the host converged, the outcome
    reported; the key is remembered only when both succeeded. *)
Record target_walk (applied applied' : applied_map) (req : NamespacedName) (t : Target)
    (reads host : trace op) (ensureErr written : option error) (st : resolve_state) (res : reconcile) : Prop := {
  tw_resolved : resolve_inv t (t_Initiators t) st reads;
  tw_miss : default "" (applied !! req) ≠ rs_key st;
  tw_cmds : tcmds t (rs_chap st) host;
  tw_host : host_only host;
  tw_done : ensureErr = None → target_converged t (rs_chap st) host;
  tw_applied : applied' = match ensureErr, written with
                          | None, None => <[req := rs_key st]> applied
                          | _, _ => applied
                          end;
  tw_result : written = None → res.2 = ensureErr;
}.

Definition target_agent_pass (applied : applied_map) (req : NamespacedName) (t : Target) (tr : trace op)
    (res : reconcile) (applied' : applied_map) : Prop :=
  if deleting (t_meta t)
  then applied' = delete req applied ∧ ∃ t1 t2, tr = t1 ++ t2 ∧ host_only t1 ∧
    teardown_run Root (Name (t_meta t)) (t_VIP t) t1 ∧
    (t2 = [] ∨ t_ActiveNode t = NodeName ∧
      ∃ w, t2 = [Ev (StatusUpdate KTarget (t_set_state t (t_Conditions t) "Removed")) w])
  else if bool_decide (t_ActiveNode t = NodeName)
  then (applied' = applied ∧ Forall reads_only tr ∧ (res.2 = None → t_StatusLUNs t = [] ∨
         ∃ vs, versions_read t (t_Initiators t) vs tr ∧ applied !! req = Some (target_key t vs))) ∨
       ∃ reads host ensureErr written st,
         tr = reads ++ host ++ [Ev (StatusUpdate KTarget (target_reported t ensureErr)) written] ∧
         target_walk applied applied' req t reads host ensureErr written st res
  else applied' = delete req applied ∧ host_only tr ∧ teardown_run Root (Name (t_meta t)) (t_VIP t) tr.

Lemma foldl_key_head {A} (f : A → string) l c s :
  ∃ s', foldl (λ k x, key_add k (f x)) (String c s) l = String c s'.
Proof.
  revert s. induction l as [|x l IH]; intros s; cbn; [eauto|]. unfold key_add at 2. rewrite sapp_cons. apply IH.
Qed.
Lemma target_key_nonempty t vs : target_key t vs ≠ "".
Proof.
  unfold target_key, placement_key. rewrite sapp_cons.
  edestruct (foldl_key_head lun_segment) as [s E]. erewrite E.
  edestruct (foldl_key_head (A := string) (λ x, x)) as [s' E']. cbn in E'. by erewrite E'.
Qed.

Lemma wp_target_teardown t :
  wp (TeardownTarget Root (Name (t_meta t)) (t_VIP t)) (λ tr _,
    teardown_run Root (Name (t_meta t)) (t_VIP t) tr ∧ host_only tr).
Proof. apply wp_and; [apply wp_TeardownTarget|apply issues_wp, TeardownTarget_host]. Qed.

Lemma wp_target_deleting applied req t :
  deleting (t_meta t) = true →
  wp (target_deleting NodeName Root applied req t) (λ tr r, target_agent_pass applied req t tr r.1 r.2).
Proof.
  intros Hd. unfold target_deleting, target_agent_pass. rewrite Hd.
  apply wp_bind_2. eapply wp_mono; [apply wp_target_teardown|]. intros t1 ? [Ht Hh].
  destruct (bool_decide _ && _) eqn:E; cbn [wp bind call].
  - intros w. cbn. split; [done|]. eexists t1, _. split_and!; [done..|]. right.
    bools. eauto.
  - cbn. split; [done|]. exists t1, []. rewrite app_nil_r. auto.
Qed.

Lemma wp_target_converge applied req t :
  deleting (t_meta t) = false → t_ActiveNode t = NodeName →
  wp (target_converge Root applied req t) (λ tr r, target_agent_pass applied req t tr r.1 r.2).
Proof.
  intros Hd Ha. unfold target_converge, target_agent_pass. rewrite Hd, (bool_decide_eq_true_2 _ Ha).
  apply wp_bind_2. eapply wp_mono; [apply wp_resolve|]. intros reads [st|e] Hr; cbn [wp].
  2: { left. rewrite app_nil_r. done. }
  case_bool_decide as Hk; cbn [wp].
  { left. rewrite app_nil_r. split_and!; [done|apply Hr|]. intros _. right.
    destruct Hr as [_ _ _ (vs & Hv & Hkey)]. exists vs. split; [done|].
    fold (target_key t vs) in Hkey. rewrite Hkey in Hk.
    destruct (applied !! req) eqn:E; cbn in Hk; [by subst|]. by destruct (target_key_nonempty t vs). }
  apply wp_bind_2. eapply wp_mono; [apply wp_and; [apply (wp_EnsureTarget Root t (rs_chap st))|apply issues_wp, EnsureTarget_host]|].
  intros host ensureErr [[Hc Hdone] Hh]. cbn [bind call wp]. intros written.
  destruct written as [w|]; [|destruct ensureErr]; cbn [wp bind fst snd]; right;
    eexists reads, host, _, _, st; (split; [reflexivity|]); split; done || by destruct ensureErr.
Qed.

Lemma wp_TargetAgent_Reconcile applied req :
  wp (TargetAgent_Reconcile NodeName Root applied req) (λ tr r, ∃ g tr', tr = Ev (Get KTarget req) g :: tr' ∧
    match g with
    | inl e => host_only tr' ∧ r.2 = if IsNotFound (Some e) then delete req applied else applied
    | inr t => target_agent_pass applied req t tr' r.1 r.2
    end).
Proof.
  unfold TargetAgent_Reconcile. cbn [wp bind call]. intros g.
  eapply wp_mono with (Q := λ tr' r, match g with
    | inl e => host_only tr' ∧ r.2 = if IsNotFound (Some e) then delete req applied else applied
    | inr t => target_agent_pass applied req t tr' r.1 r.2
    end); [|eauto].
  destruct g as [e|t].
  - destruct (IsNotFound (Some e)); [|done]. apply wp_bind_2.
    eapply wp_mono; [apply issues_wp, RemoveTarget_host|]. intros t1 ? Hh. cbn. by rewrite app_nil_r.
  - destruct (deleting (t_meta t)) eqn:Hd; [by apply wp_target_deleting|].
    case_bool_decide as Ha; cbn [negb].
    + case_bool_decide as Hl; [|by apply wp_target_converge].
      cbn. unfold target_agent_pass. rewrite Hd, (bool_decide_eq_true_2 _ Ha). left. auto.
    + apply wp_bind_2. eapply wp_mono; [apply wp_target_teardown|]. intros t1 ? [Ht Hh]. cbn.
      rewrite app_nil_r. unfold target_agent_pass. rewrite Hd, (bool_decide_eq_false_2 _ Ha). auto.
Qed.
End PassProofs.

(** ** The key loses nothing *)
Lemma Split_nonnil s c : Split s c ≠ [].
Proof. induction s as [|d s IH]; cbn; [done|]. destruct (ch_eqb d c); [done|]. by destruct (Split s c). Qed.

Lemma Split_clean s c : has_char c s = false → Split s c = [s].
Proof.
  induction s as [|d s IH]; cbn; [done|]. intros [Hd Hs]%orb_false_iff.
  replace (ch_eqb d c) with false; [by rewrite IH|]. symmetry. apply not_true_iff_false.
  intros ->%ch_eqb_eq. by rewrite ch_eqb_refl in Hd.
Qed.

Lemma Split_app_sep a b c : Split (a +:+ String c b) c = Split a c ++ Split b c.
Proof.
  induction a as [|d a IH]; rewrite ?sapp_cons, ?sapp_nil_l; cbn; [by rewrite ch_eqb_refl|].
  destruct (ch_eqb d c); [by rewrite IH|]. rewrite IH.
  destruct (Split a c) eqn:E; [by destruct (Split_nonnil a c)|done].
Qed.

Lemma Split_key segs k :
  Forall (λ s, has_char bar s = false) segs → Split (foldl key_add k segs) bar = Split k bar ++ segs.
Proof.
  revert k. induction segs as [|s segs IH]; intros k Hs; cbn; [by rewrite app_nil_r|].
  inversion_clear Hs as [|?? Hs1 Hs2]. rewrite IH by done. unfold key_add.
  rewrite sapp_cons, sapp_nil_l. fold bar. rewrite (Split_app_sep k s bar), (Split_clean s bar Hs1).
  by rewrite <- app_assoc.
Qed.


Lemma pretty_go_char c x s :
  (∀ d, c ≠ pretty_N_char d) → has_char c s = false → has_char c (pretty_N_go x s) = false.
Proof.
  intros Hc. revert s. induction (N.lt_wf_0 x) as [x _ IH]; intros s Hs.
  destruct (decide (0 < x)%N) as [Hx|Hx].
  - rewrite pretty_N_go_step by done. apply IH; [by apply N.div_lt|]. cbn. rewrite Hs, orb_false_r.
    apply not_true_iff_false. intros ?%ch_eqb_eq. by eapply Hc.
  - assert (x = 0%N) as -> by lia. by rewrite pretty_N_go_0.
Qed.
Lemma Itoa_clean z : has_char bar (Itoa z) = false ∧ has_char colon (Itoa z) = false.
Proof.
  assert (∀ c (n : N), (∀ d, c ≠ pretty_N_char d) → has_char c (pretty n) = false) as HN.
  { intros c n Hc. unfold pretty, pretty_N. case_decide.
    - cbn. rewrite orb_false_r. apply not_true_iff_false. intros ?%ch_eqb_eq. by apply (Hc 0%N).
    - by apply pretty_go_char. }
  assert (∀ d, bar ≠ pretty_N_char d ∧ colon ≠ pretty_N_char d) as Hd.
  { intros d. unfold pretty_N_char. by repeat case_match. }
  destruct z as [|p|p]; [done| |].
  - change (Itoa (Z.pos p)) with (pretty (N.pos p)). split; apply HN; apply Hd.
  - change (Itoa (Z.neg p)) with ("-" +:+ pretty (N.pos p)). rewrite !has_char_app, !HN by apply Hd. done.
Qed.

(** Device paths, Secret names and resource versions hold no [|]. *)
Record key_clean (t : Target) (versions : list string) : Prop := {
  kc_devices : Forall (λ l, has_char bar (ls_Device l) = false) (t_StatusLUNs t);
  kc_refs : Forall (λ i, has_char bar (ini_ChapSecretRef i) = false) (t_Initiators t);
  kc_versions : Forall (λ v, has_char bar v = false) versions;
  kc_length : length versions = length (filter (λ i, names_chap i = true) (t_Initiators t));
}.

Lemma target_key_foldl t vs :
  target_key t vs = foldl key_add ("g" +:+ Itoa (Generation (t_meta t)))
    (map lun_segment (t_StatusLUNs t) ++ segments (t_Initiators t) vs).
Proof.
  rewrite foldl_app. unfold target_key, placement_key. f_equal.
  generalize ("g" +:+ Itoa (Generation (t_meta t))). induction (t_StatusLUNs t); cbn; auto.
Qed.

Lemma Split_target_key t vs :
  key_clean t vs → Split (target_key t vs) bar =
    ("g" +:+ Itoa (Generation (t_meta t))) :: map lun_segment (t_StatusLUNs t) ++ segments (t_Initiators t) vs.
Proof.
  intros [Hd Hr Hv Hl]. rewrite target_key_foldl, Split_key.
  - rewrite Split_clean; [done|]. rewrite has_char_app. by rewrite (proj1 (Itoa_clean _)).
  - apply Forall_app. split.
    + rewrite Forall_map. eapply Forall_impl; [exact Hd|]. intros l Hl'. cbn. unfold lun_segment.
      by rewrite !has_char_app, Hl', (proj1 (Itoa_clean _)).
    + unfold segments. clear Hl Hd. assert (Forall (λ i, has_char bar (ini_ChapSecretRef i) = false)
        (filter (λ i, names_chap i = true) (t_Initiators t))) as Hf.
      { rewrite Forall_forall in *. intros i [_ ?]%list_elem_of_filter. auto. }
      revert vs Hv. induction Hf as [|i l Hi _ IH]; intros vs Hv; cbn; [constructor|].
      destruct Hv as [|v vs Hv Hvs]; [constructor|]. constructor; [|auto].
      unfold secret_segment. by rewrite !has_char_app, Hi, Hv.
Qed.

Lemma lun_segment_inj : Inj (=) (=) lun_segment.
Proof.
  intros [i d] [i' d']. unfold lun_segment. cbn. intros [Hi ->]%(cut_unique colon); [|apply Itoa_clean..].
  by rewrite (inj pretty i i' Hi).
Qed.

Lemma segments_inj inis vs1 vs2 :
  length vs1 = length (filter (λ i, names_chap i = true) inis) → length vs2 = length vs1 →
  segments inis vs1 = segments inis vs2 → vs1 = vs2.
Proof.
  unfold segments. generalize (filter (λ i, names_chap i = true) inis). intros l. revert vs1 vs2.
  induction l as [|i l IH]; intros [|v1 vs1] [|v2 vs2]; cbn; try done.
  intros ?? [= Hs ?]. apply (inj (String.append _)), (inj (String.append _)) in Hs. f_equal; [done|]. apply IH; lia || done.
Qed.

(** The agent's skip is exact.  Two passes over the same spec with the
    same key had the same generation, the same LUN devices and the same CHAP
    Secret versions: a pass that is skipped because its key is remembered has
    nothing to converge that the remembered pass did not. *)
Theorem target_key_exact t1 t2 vs1 vs2 :
  t_Initiators t1 = t_Initiators t2 → key_clean t1 vs1 → key_clean t2 vs2 →
  target_key t1 vs1 = target_key t2 vs2 →
  Generation (t_meta t1) = Generation (t_meta t2) ∧ t_StatusLUNs t1 = t_StatusLUNs t2 ∧ vs1 = vs2.
Proof.
  intros Hi H1 H2 Heq. assert (length vs2 = length vs1) as Hl.
  { by rewrite (kc_length _ _ H1), (kc_length _ _ H2), Hi. }
  apply (f_equal (λ s, Split s bar)) in Heq. rewrite !Split_target_key in Heq by done.
  injection Heq as Hg Hs. apply app_inj_2 in Hs as [Hluns Hsegs].
  - split_and!; [by apply (inj pretty)|by apply (list_fmap_eq_inj lun_segment lun_segment_inj)|].
    rewrite Hi in Hsegs. apply (segments_inj (t_Initiators t2)); [|done|done].
    rewrite <- Hl. apply (kc_length _ _ H2).
  - unfold segments. rewrite !length_zip_with, Hi, Hl. done.
Qed.

(** ** The pass as a whole *)
Lemma target_converged_sub t chap t1 t2 : t1 ⊆ t2 → target_converged t chap t1 → target_converged t chap t2.
Proof.
  intros Hs [Hl Ha Hc Hat Hr Hv Hsv].
  assert (∀ n a, did n a t1 → did n a t2) as Hdid by (intros n a (e & o & ? & ?); exists e, o; auto).
  split; [|intros; eapply seen_sub; [done|]; by apply Ha|eauto|eauto| |intros Hn; destruct (Hv Hn); eauto|eauto].
  - intros l Hin. destruct (Hl l Hin). split; by eapply seen_sub.
  - eapply seen_sub; [done|]. eapply seen_impl; [exact Hr|]. intros out err [? HP]. split; [done|].
    intros x ???. eapply seen_sub; [done|]. by apply HP.
Qed.
Lemma teardown_run_sub `{IpParse} Root name vip t1 t2 :
  t1 ⊆ t2 → teardown_run Root name vip t1 → teardown_run Root name vip t2.
Proof.
  intros Hs [He Hv Hr]. split; [|intros; eapply vip_dropped_sub; eauto|by eapply vip_released_sub].
  eapply seen_sub; [done|]. eapply seen_impl; [exact He|]. intros out err HP Herr.
  eapply export_removal_sub; eauto.
Qed.
Lemma chap_sound_app t chap t1 t2 : chap_sound t chap t1 → chap_sound t chap (t1 ++ t2).
Proof.
  intros Hs x c Hx. destruct (Hs x c Hx) as (i & s & ? & ? & ? & ? & ?). exists i, s. eauto 10 with evidence.
Qed.
Lemma chap_complete_app t chap t1 t2 : chap_complete t chap t1 → chap_complete t chap (t1 ++ t2).
Proof. intros Hc i Hi Hn Hx. destruct (Hc i Hi Hn Hx) as (r & ? & ?). exists r. eauto with evidence. Qed.
Lemma reads_no_cmd tr e : Forall reads_only tr → e ∈ tr → cmd_of e = None ∧ ∀ k, ev_status k e = None.
Proof. rewrite Forall_forall. intros Hr He. specialize (Hr e He). by destruct e as [? []]. Qed.

(** What a status written by the agent rests on. *)
Definition target_verdict `{K8sMeta} `{IpParse} (NodeName Root : string) (t p : Target) (tr : trace op) : Prop :=
  t_meta p = t_meta t ∧ t_ActiveNode t = NodeName ∧ t_ActiveNode p = NodeName ∧ t_StatusLUNs p = t_StatusLUNs t ∧
  if deleting (t_meta t)
  then t_State p = "Removed" ∧ teardown_run Root (Name (t_meta t)) (t_VIP t) tr
  else ∃ chap, chap_sound t chap tr ∧ chap_complete t chap tr ∧
    if IsStatusConditionTrue (t_Conditions p) ConditionHostReady
    then t_State p = "Exported" ∧ target_converged t chap tr
    else t_State p = "Failed".

Section TargetTheorems.
Context `{K8sMeta} `{IpParse} (NodeName Root : string).

Lemma host_true_reported t err :
  IsStatusConditionTrue (t_Conditions (target_reported t err)) ConditionHostReady =
  match err with None => true | Some _ => false end.
Proof.
  cbn. pose proof (is_true_set_eq (t_Conditions t) (host_cond (Generation (t_meta t)) err)) as Hx.
  destruct err; exact Hx.
Qed.

Lemma target_pass_status applied req t tr res applied' e p :
  target_agent_pass NodeName Root applied req t tr res applied' → e ∈ tr → ev_status KTarget e = Some p →
  ∃ tr1, tr = tr1 ++ [e] ∧ target_verdict NodeName Root t p tr1.
Proof.
  unfold target_agent_pass, target_verdict. intros Hp He Hev. destruct (deleting (t_meta t)).
  - destruct Hp as (_ & t1 & t2 & -> & Hh & Ht & Ht2). exists t1. apply elem_of_app in He as [He|He].
    { by destruct (host_no_status _ _ _ _ Hh He Hev). }
    destruct Ht2 as [->|(Ha & w & ->)]; [by apply elem_of_nil in He|].
    apply list_elem_of_singleton in He as ->. ev_simpl.
  - case_bool_decide as Ha.
    2: { destruct Hp as (_ & Hh & _). by destruct (host_no_status _ _ _ _ Hh He Hev). }
    destruct Hp as [(_ & Hr & _)|(reads & host & err & w & st & -> & [Hres _ _ Hh Hd _])].
    { destruct (reads_no_cmd _ _ Hr He) as [_ Hn]. by rewrite Hn in Hev. }
    exists (reads ++ host). rewrite !elem_of_app, list_elem_of_singleton in He. destruct He as [He|[He| ->]].
    + destruct (reads_no_cmd _ _ (ri_reads _ _ _ _ Hres) He) as [_ Hn]. by rewrite Hn in Hev.
    + by destruct (host_no_status _ _ _ _ Hh He Hev).
    + cbn in Hev. rewrite as_kind_refl in Hev. injection Hev as <-.
      rewrite <- app_assoc. split; [done|]. split_and!; [done..|]. exists (rs_chap st).
      split_and!; [exact (chap_sound_app _ _ _ _ (ri_sound _ _ _ _ Hres))|exact (chap_complete_app _ _ _ _ (ri_complete _ _ _ _ Hres))|]. rewrite host_true_reported.
      destruct err; [done|]. split; [done|]. eapply target_converged_sub; [|by apply Hd]. set_solver.
Qed.

Lemma target_pass_cmds applied req t tr res applied' :
  target_agent_pass NodeName Root applied req t tr res applied' → deleting (t_meta t) = false → t_ActiveNode t = NodeName →
  ∃ chap, chap_sound t chap tr ∧ tcmds t chap tr.
Proof.
  unfold target_agent_pass. intros Hp Hd Ha. rewrite Hd, (bool_decide_eq_true_2 _ Ha) in Hp.
  destruct Hp as [(_ & Hr & _)|(reads & host & err & w & st & -> & [Hres _ Hc Hh _ _])].
  - exists ∅. split; [intros x c; by rewrite lookup_empty|]. intros e n a He Hcmd.
    destruct (reads_no_cmd _ _ Hr He). congruence.
  - exists (rs_chap st). split; [exact (chap_sound_app _ _ _ _ (ri_sound _ _ _ _ Hres))|]. repeat apply tcmds_app; [|done|].
    + intros e n a He Hcmd. destruct (reads_no_cmd _ _ (ri_reads _ _ _ _ Hres) He). congruence.
    + by apply tcmds_one.
Qed.
End TargetTheorems.


(** C29: What stands behind the agent's word on a target.  A status is the last
    thing a pass does, on the node that serves the target.  HostReady with state
    [Exported] is written only after every LUN, ACL and credential was converged
    and every ACL of a readable listing without a right to log in was deleted,
    by commands that succeeded or whose error says that the object exists
    already (of a create) or is gone (of a delete); anything less is reported [Failed].  [Removed] is written only
    after the teardown was attempted: the export was probed and, where the probe
    found it, its deletion, that of every backstore listed under its prefix and
    the saving of the configuration were run; the holders of the VIP of the spec
    and of a recorded VIP were looked up and the address deleted from each one
    reported, and a record that was read unlinked.  The code ignores the outcome
    of all of these and takes a failed probe, listing or read for absence, so
    [Removed] does not say that they succeeded. *)
Theorem target_agent_status_sound `{K8sMeta} `{IpParse} NodeName Root applied req tr r e p :
  runs (TargetAgent_Reconcile NodeName Root applied req) tr r → e ∈ tr → ev_status KTarget e = Some p →
  ∃ t tr1, tr = Ev (Get KTarget req) (inr t) :: tr1 ++ [e] ∧ target_verdict NodeName Root t p tr1.
Proof.
  intros Hr He Hev.
  destruct (wp_runs _ _ _ _ (wp_TargetAgent_Reconcile NodeName Root applied req) Hr) as (g & tr' & -> & Hp).
  apply elem_of_cons in He as [->|He]; [done|]. destruct g as [err|t].
  - by destruct (host_no_status _ _ _ _ (proj1 Hp) He Hev).
  - destruct (target_pass_status _ _ _ _ _ _ _ _ _ _ Hp He Hev) as (tr1 & -> & Hv). eauto.
Qed.

(** What the agent remembers.  A pass touches only its own target's entry.
    The entry is new only when the whole convergence at that key succeeded and
    its status was written, and is gone as soon as this node no longer serves
    the target; a pass that reports success without writing a status over a
    target it serves found its key remembered. *)
Theorem target_cache_sound `{K8sMeta} `{IpParse} NodeName Root applied req t tr res applied' :
  runs (TargetAgent_Reconcile NodeName Root applied req) (Ev (Get KTarget req) (inr t) :: tr) (res, applied') →
  (∀ nn, nn ≠ req → applied' !! nn = applied !! nn) ∧
  if deleting (t_meta t) || negb (bool_decide (t_ActiveNode t = NodeName)) then applied' !! req = None
  else
    (applied' !! req ≠ applied !! req → ∃ vs chap, applied' !! req = Some (target_key t vs) ∧
      versions_read t (t_Initiators t) vs tr ∧ chap_sound t chap tr ∧ target_converged t chap tr) ∧
    (res.2 = None → t_StatusLUNs t ≠ [] → (∀ e p, e ∈ tr → ev_status KTarget e ≠ Some p) →
      ∃ vs, versions_read t (t_Initiators t) vs tr ∧ applied !! req = Some (target_key t vs)).
Proof.
  intros Hr. destruct (wp_runs _ _ _ _ (wp_TargetAgent_Reconcile NodeName Root applied req) Hr) as (g & tr' & Heq & Hp).
  apply get_head_inj in Heq as [<- <-]. cbn in Hp. unfold target_agent_pass in Hp. destruct (deleting (t_meta t)).
  { destruct Hp as (-> & _). split; [intros; by rewrite lookup_delete_ne|]. apply lookup_delete_eq. }
  case_bool_decide; cbn [orb negb].
  2: { destruct Hp as (-> & _). split; [intros; by rewrite lookup_delete_ne|]. apply lookup_delete_eq. }
  destruct Hp as [(-> & Hq & Hs)|(reads & host & err & w & st & -> & [Hres Hm Hc Hh Hd Hap _])].
  { split; [done|]. split; [done|]. intros Hok Hl _. destruct (Hs Hok); [done|eauto]. }
  split; [destruct err, w; subst applied'; intros; rewrite ?lookup_insert_ne by done; done|]. split.
  - intros Hne. assert (err = None ∧ applied' !! req = Some (rs_key st)) as [-> Hk].
    { destruct err, w; subst applied'; try done. by rewrite lookup_insert_eq. }
    destruct (ri_key _ _ _ _ Hres) as (vs & Hv & Hkey). exists vs, (rs_chap st). split_and!.
    + by rewrite Hk, Hkey.
    + by apply versions_read_app.
    + exact (chap_sound_app _ _ _ _ (ri_sound _ _ _ _ Hres)).
    + eapply target_converged_sub; [|by apply Hd]. set_solver.
  - intros _ _ Hno. edestruct Hno; [do 2 (apply elem_of_app; right); by apply list_elem_of_singleton|].
    exact (as_kind_refl KTarget _).
Qed.

(** ** A failed walk leaves the old key in place

    When a convergence fails, the entry of the last success stays: should the
    input return to it (status.luns is not covered by the generation), the next
    pass is skipped although the failed walk changed the host. *)
Lemma failed_walk_keeps_key `{K8sMeta} `{IpParse} Root applied req t tr res applied' k err :
  runs (target_converge Root applied req t) tr (res, applied') →
  applied !! req = Some k → res.2 = Some err → applied' !! req = Some k.
Proof.
  intros Hr Hk Herr. revert Hk Herr.
  change applied' with ((res, applied').2) at 1. change res with ((res, applied').1) at 1.
  eapply (wp_runs _ (λ _ r, applied !! req = Some k → r.1.2 = Some err → r.2 !! req = Some k)); [|exact Hr].
  unfold target_converge. apply wp_bind_2. eapply wp_mono; [apply wp_true|]. intros ? [st|e] _; [|by intros ??].
  case_bool_decide; [by intros ??|]. apply wp_bind_2. eapply wp_mono; [apply wp_true|]. intros ? ensureErr _.
  cbn. intros [w|]; [by intros ??|]. by destruct ensureErr; intros ??.
Qed.

(** ** Witnesses *)
Section Witness.
#[local] Existing Instance RefMeta.meta.
#[local] Instance demo_ip : IpParse :=
  {| json_ifnames _ := inr ["eth0"]; json_routes _ := inr ["eth0"] |}.

Definition demo_target_here (del : option Z) (luns : list LUNStatus) : Target :=
  {| t_meta := demo_meta "db" [] del; t_VIP := "10.0.0.9/24"; t_LUNs := [{| lun_ID := 0; lun_ClaimName := "db" |}];
     t_Initiators := [{| ini_IQN := "iqn.a"; ini_ChapSecretRef := "s" |}]; t_Conditions := [];
     t_IQN := "iqn.2026-08.io.stornas:db"; t_ActiveNode := "n1"; t_StatusLUNs := luns;
     t_ChapSecretVersions := []; t_Sessions := 0; t_State := "" |}.
Definition demo_lun : LUNStatus := {| ls_ID := 0; ls_Device := "/dev/drbd1000" |}.
Definition demo_chap_secret : Secret :=
  {| sec_meta := demo_meta "s" [] None; sec_Data := {["username" := "u"; "password" := "p"]} |}.
Definition demo_target_host (t : Target) : env op unit :=
  demo_env (λ n a, if bool_decide (a = ["ls"; "/iscsi/iqn.2026-08.io.stornas:db/tpg1/acls"; "1"])
                   then ("o- iqn.old [x]", None) else ("", None))
    (λ k _, match k return error + obj k with
            | KTarget => inr t
            | KSecret => inr demo_chap_secret
            | _ => inl (Err "not found" KNotFound)
            end) list_none.
Definition demo_target_run (t : Target) : (reconcile * applied_map) * trace op * unit :=
  run (demo_target_host t) (TargetAgent_Reconcile "n1" "" ∅ (NN "" "db")) tt.


Lemma target_agent_status_sound_witness :
  ∃ t tr1, (demo_target_run (demo_target_here (Some 1%Z) [])).1.2 =
      Ev (Get KTarget (NN "" "db")) (inr t) :: tr1 ++
        [Ev (StatusUpdate KTarget (t_set_state (demo_target_here (Some 1%Z) []) [] "Removed")) None] ∧
    target_verdict "n1" "" t (t_set_state (demo_target_here (Some 1%Z) []) [] "Removed") tr1.
Proof.
  apply (target_agent_status_sound "n1" "" ∅ (NN "" "db") _ _ _ _
    (run_runs (demo_target_host (demo_target_here (Some 1%Z) [])) (TargetAgent_Reconcile "n1" "" ∅ (NN "" "db")) tt)).
  - apply list_elem_of_In. vm_compute. tauto.
  - exact (as_kind_refl KTarget _).
Defined.

(** The best effort of the teardown, in a run: the probe finds the export, every
    other command fails, and the pass still ends with [Removed]. *)
Definition demo_stuck_host : env op unit :=
  demo_env (λ n a, if bool_decide (a = ["ls"; "/iscsi/iqn.2026-08.io.stornas:db"; "1"]) then ("", None)
                   else ("", Some (errorf "boom")))
    (λ k _, match k return error + obj k with
            | KTarget => inr (demo_target_here (Some 1%Z) [])
            | _ => inl (Err "not found" KNotFound)
            end) list_none.
Definition demo_stuck_run : (reconcile * applied_map) * trace op * unit :=
  run demo_stuck_host (TargetAgent_Reconcile "n1" "" ∅ (NN "" "db")) tt.
Example removed_though_delete_failed :
  seen "targetcli" ["ls"; "/iscsi/" +:+ iqnFor "db"; "1"] (λ _ err, err = None) demo_stuck_run.1.2 ∧
  seen "targetcli" ["/iscsi"; "delete"; iqnFor "db"] (λ _ err, err ≠ None) demo_stuck_run.1.2 ∧
  (Ev (StatusUpdate KTarget (t_set_state (demo_target_here (Some 1%Z) []) [] "Removed")) None : event op) ∈ demo_stuck_run.1.2 ∧
  demo_stuck_run.1.1.1.2 = None.
Proof.
  split_and!; [..|vm_compute; reflexivity].
  - eexists _, _, _. split_and!; [apply list_elem_of_In; vm_compute; right; left; reflexivity|reflexivity|done].
  - eexists _, _, _. split_and!; [apply list_elem_of_In; vm_compute; do 2 right; left; reflexivity|reflexivity|done].
  - apply list_elem_of_In. vm_compute. tauto.
Qed.

Lemma target_key_exact_witness :
  Generation (t_meta (demo_target_here None [demo_lun])) = 1%Z ∧ [demo_lun] = [demo_lun] ∧ ["1"] = ["1"].
Proof.
  apply (target_key_exact (demo_target_here None [demo_lun]) (demo_target_here None [demo_lun]) ["1"] ["1"]);
    [reflexivity|split; by repeat constructor..|reflexivity].
Defined.

Lemma target_cache_sound_witness :
  (∀ nn, nn ≠ NN "" "db" → (demo_target_run (demo_target_here None [demo_lun])).1.1.2 !! nn = (∅ : applied_map) !! nn) ∧
  (demo_target_run (demo_target_here None [demo_lun])).1.1.2 !! NN "" "db" = Some "g1|0:/dev/drbd1000|s:1" ∧
  ∃ vs chap, (demo_target_run (demo_target_here None [demo_lun])).1.1.2 !! NN "" "db" =
      Some (target_key (demo_target_here None [demo_lun]) vs) ∧
    target_converged (demo_target_here None [demo_lun]) chap (tail (demo_target_run (demo_target_here None [demo_lun])).1.2).
Proof.
  destruct (target_cache_sound "n1" "" ∅ (NN "" "db") (demo_target_here None [demo_lun])
    (tail (demo_target_run (demo_target_here None [demo_lun])).1.2)
    (demo_target_run (demo_target_here None [demo_lun])).1.1.1
    (demo_target_run (demo_target_here None [demo_lun])).1.1.2) as [Hother [Hnew _]].
  - exact (run_runs (demo_target_host (demo_target_here None [demo_lun])) (TargetAgent_Reconcile "n1" "" ∅ (NN "" "db")) tt).
  - split; [exact Hother|]. assert ((demo_target_run (demo_target_here None [demo_lun])).1.1.2 !! NN "" "db" =
      Some "g1|0:/dev/drbd1000|s:1") as Hk by (vm_compute; reflexivity).
    split; [exact Hk|]. destruct Hnew as (vs & chap & ? & _ & _ & ?); [by rewrite Hk, lookup_empty|eauto].
Defined.
End Witness.
