(* ===== verification/UserAgent.v ===== *)
(** * internal/agent/user_reconciler.go: SMB users on the node

    The reconciler and, from share.go, the passdb operations it calls.  The
    JSON of [smbstatus] is decoded by the class [SmbParse] to its sessions,
    each a user name and the pid of its smbd, in the order the map iteration
    yields them; the pids are then sorted. *)

From S2P Require Import Prelude GoStrings Prog ApiTypes Effects Demo Nodes Lvm Lio.

Class SmbParse := { json_sessions : string → error + list (string * string) }.

(** [seen] and the append of [smbSessionPIDs]. *)
Fixpoint session_pids (user : string) (seen : gset string) (ss : list (string * string)) : list string :=
  match ss with
  | [] => []
  | (name, pid) :: ss' =>
      if negb (bool_decide (name = user)) || bget seen pid then session_pids user seen ss'
      else pid :: session_pids user ({[pid]} ∪ seen) ss'
  end.

Section SmbUsers.
Context `{SmbParse} `{SliceSort}.

Definition smbSessionPIDs (user : string) : io (error + list string) :=
  let! r := call (Run "smbstatus" ["--processes"; "--user"; user; "--json"]) in
  match r.2 with
  | Some e => Ret (inl e)
  | None =>
      match json_sessions r.1 with
      | inl e => Ret (inl (wrapf "smbstatus: " e))
      | inr ss => Ret (inr (sort_slice str_ltb (session_pids user ∅ ss)))
      end
  end.

Definition shutdown_pid (failed : bool) (pid : string) : io (bool + unit) :=
  let! r := call (Run "smbcontrol" [pid; "shutdown"]) in
  Ret (inl (match r.2 with Some _ => true | None => failed end)).

Definition endSMBSessions (user : string) : io (option error) :=
  let! p := smbSessionPIDs user in
  match p with
  | inl e => Ret (Some e)
  | inr pids =>
      let! f := for_state pids false shutdown_pid in
      match f with
      | inl false => Ret None
      | _ =>
          let! l := smbSessionPIDs user in
          match l with
          | inl e => Ret (Some e)
          | inr [] => Ret None
          | inr served => Ret (Some (errorf ("smb sessions of " +:+ user +:+ " still served by smbd " +:+ Join served " ")))
          end
      end
  end.

Definition RemoveSMBUser (user : string) : io (option error) :=
  let! r := call (Run "smbpasswd" ["-x"; user]) in
  match r.2 with
  | Some e => if Contains (emsg e +:+ r.1) "find" then endSMBSessions user else Ret (Some e)
  | None => endSMBSessions user
  end.

Definition EnsureSMBUser (user password : string) : io (option error) :=
  let! r := call (Run "id" ["-u"; user]) in
  (match r.2 with
   | Some _ => run_err "useradd" ["--no-create-home"; "--shell"; "/sbin/nologin"; user]
   | None => Ret None
   end) ;!;
  let! s := call (RunInput (password +:+ nl +:+ password +:+ nl) "smbpasswd" ["-s"; "-a"; user]) in
  Ret s.2.

Definition revoked : string := "revoked".

(** The key and password a pass wants the passdb to hold. *)
Definition wanted_login (user : LocalUser) : io (error + (string * string)) :=
  if negb (lu_SMB user) then Ret (inr (revoked, ""))
  else
    let! s := call (Get KSecret (NN (Namespace (lu_meta user)) (lu_PasswordSecretRef user))) in
    match s with
    | inl e => if IsNotFound (Some e) then Ret (inr (revoked, "")) else Ret (inl e)
    | inr secret =>
        let '(pw, ok) := LocalUserPassword (sec_Data secret) in
        Ret (inr (if ok then (ResourceVersion (sec_meta secret), pw) else (revoked, "")))
    end.

Definition UserAgent_Reconcile (applied : gmap string string) (req : NamespacedName)
    : io (reconcile * gmap string string) :=
  let! g := call (Get KLocalUser req) in
  match g with
  | inl e =>
      if IsNotFound (Some e)
      then let! r := RemoveSMBUser (nn_Name req) in Ret (done_err r, delete (nn_Name req) applied)
      else Ret (done_err (Some e), applied)
  | inr user =>
      let name := Name (lu_meta user) in
      let! w := wanted_login user in
      match w with
      | inl e => Ret (done_err (Some e), applied)
      | inr (key, password) =>
          if bool_decide (mget applied name = key) then Ret (done_ok, applied)
          else
            let! err := (if bool_decide (key = revoked) then RemoveSMBUser name else EnsureSMBUser name password) in
            match err with
            | Some _ => Ret (done_err err, applied)
            | None => Ret (done_ok, <[name := key]> applied)
            end
      end
  end.
End SmbUsers.

(** ** Revocation on the host *)
Definition ev_input (e : event op) : option (string * string * list string) :=
  match e with
  | Ev o _ => match o with RunInput stdin n a => Some (stdin, n, a) | _ => None end
  end.
Definition session_cmd (user : string) : list string := ["--processes"; "--user"; user; "--json"].

(** Every listed session of the user was shut down, or a listing shows none. *)
Definition sessions_ended `{SmbParse} (user : string) (tr : trace op) : Prop :=
  seen "smbstatus" (session_cmd user) (λ out err, err = None ∧ ∃ ss, json_sessions out = inr ss ∧
    ((∀ pid, (user, pid) ∈ ss → did "smbcontrol" [pid; "shutdown"] tr) ∨ ∀ pid, (user, pid) ∉ ss)) tr.

(** The passdb entry is gone and so are the sessions it opened. *)
Definition smb_revoked `{SmbParse} (user : string) (tr : trace op) : Prop :=
  seen "smbpasswd" ["-x"; user] (λ out err,
    match err with None => True | Some e => Contains (emsg e +:+ out) "find" = true end) tr ∧
  sessions_ended user tr.

(** The user of this name may not log in: the object is gone, SMB is off, or
    its Secret is absent or without a password. *)
Definition login_denied (user : LocalUser) (tr : trace op) : Prop :=
  lu_SMB user = false ∨ ∃ r, saw KSecret (NN (Namespace (lu_meta user)) (lu_PasswordSecretRef user)) r tr ∧
    match r with inl e => ekind e = KNotFound | inr s => (LocalUserPassword (sec_Data s)).2 = false end.

(** A password written is the one of the Secret the user names. *)
Definition login_allowed (user : LocalUser) (key password : string) (tr : trace op) : Prop :=
  lu_SMB user = true ∧ ∃ s, saw KSecret (NN (Namespace (lu_meta user)) (lu_PasswordSecretRef user)) (inr s) tr ∧
    LocalUserPassword (sec_Data s) = (password, true) ∧ key = ResourceVersion (sec_meta s).

Section SmbProofs.
Context `{SmbParse} `{SliceSort}.

Lemma session_pids_in user S ss pid :
  (user, pid) ∈ ss → pid ∈ S ∨ pid ∈ session_pids user S ss.
Proof.
  revert S. induction ss as [|[n q] ss IH]; intros S; [by intros ?%elem_of_nil|]. cbn.
  intros [[= <- <-]|Hin]%elem_of_cons.
  - rewrite bool_decide_eq_true_2 by done. cbn. unfold bget. case_bool_decide; [auto|right; left].
  - destruct (negb _ || _) eqn:E; [auto|]. destruct (IH ({[q]} ∪ S) Hin) as [[?%elem_of_singleton|?]%elem_of_union|?];
      [subst; right; left|auto|right; by right].
Qed.

Definition sessions_listed (user : string) (pids : list string) (tr : trace op) : Prop :=
  seen "smbstatus" (session_cmd user) (λ out err, err = None ∧
    ∃ ss, json_sessions out = inr ss ∧ ∀ pid, (user, pid) ∈ ss → pid ∈ pids) tr.
Definition inputs_none (tr : trace op) : Prop := ∀ e, e ∈ tr → ev_input e = None.

Lemma wp_smbSessionPIDs user :
  wp (smbSessionPIDs user) (λ tr r, ∀ pids, r = inr pids → sessions_listed user pids tr).
Proof.
  unfold smbSessionPIDs. wp_go; intros pids [=]; subst. outs. eapply seen_here; [done|]. split; [done|].
  eexists. split; [done|]. intros pid [Hn|Hp]%(session_pids_in user ∅); [set_solver|].
  by rewrite sort_slice_perm.
Qed.

Lemma wp_shutdown_pids pids failed :
  wp (for_state pids failed shutdown_pid) (λ tr r, ∃ b, r = inl b ∧
    (b = false → failed = false ∧ ∀ pid, pid ∈ pids → did "smbcontrol" [pid; "shutdown"] tr)).
Proof.
  revert failed. induction pids as [|p pids IH]; intros failed; cbn.
  { exists failed. split; [done|]. intros ->. split; [done|]. by intros ? ?%elem_of_nil. }
  intros [out err]. cbn. eapply wp_mono; [apply IH|]. intros tr r (b & -> & Hb). exists b. split; [done|].
  intros Hbf. destruct (Hb Hbf) as [Hf Hd]. destruct err; [done|]. cbn in Hf. split; [done|].
  intros pid [->|Hp]%elem_of_cons; [by eapply did_here|]. apply did_there. auto.
Qed.

Lemma sessions_ended_sub user t1 t2 : t1 ⊆ t2 → sessions_ended user t1 → sessions_ended user t2.
Proof.
  intros Hs He. eapply seen_sub; [done|]. eapply seen_impl; [exact He|].
  intros out err (? & ss & ? & [Hd|?]); (split; [done|]); exists ss; (split; [done|]); [left|by right].
  intros pid Hp. destruct (Hd pid Hp) as (e & o & ? & ?). exists e, o. auto.
Qed.
Lemma listed_ended user pids t1 t2 :
  sessions_listed user pids t1 → (∀ pid, pid ∈ pids → did "smbcontrol" [pid; "shutdown"] t2) →
  sessions_ended user (t1 ++ t2).
Proof.
  intros Hl Hd. apply seen_app_l. eapply seen_impl; [exact Hl|]. intros out err (? & ss & ? & Hp).
  split; [done|]. exists ss. split; [done|]. left. intros pid Hin. apply did_app_r. auto.
Qed.
Lemma listed_none_ended user tr : sessions_listed user [] tr → sessions_ended user tr.
Proof.
  intros Hl. eapply seen_impl; [exact Hl|]. intros out err (? & ss & ? & Hp).
  split; [done|]. exists ss. split; [done|]. right. intros pid Hin%Hp. by apply elem_of_nil in Hin.
Qed.

Lemma wp_endSMBSessions user : wp (endSMBSessions user) (λ tr r, r = None → sessions_ended user tr).
Proof.
  unfold endSMBSessions. apply wp_bind_2. eapply wp_mono; [apply wp_smbSessionPIDs|].
  intros t1 [e|pids] Hl; [done|]. specialize (Hl pids eq_refl).
  apply wp_bind_2. eapply wp_mono; [apply wp_shutdown_pids|]. intros t2 r (b & -> & Hb).
  destruct b; cbn [wp].
  - apply wp_bind_2. eapply wp_mono; [apply wp_smbSessionPIDs|]. intros t3 [e|[|p l]] Hl'; [done| |done].
    cbn. intros _. apply (sessions_ended_sub _ t3); [set_solver|]. apply listed_none_ended. auto.
  - intros _. rewrite app_nil_r. eapply listed_ended; [exact Hl|]. by apply Hb.
Qed.

Lemma wp_RemoveSMBUser user : wp (RemoveSMBUser user) (λ tr r, r = None → smb_revoked user tr).
Proof.
  unfold RemoveSMBUser. cbn [bind call wp]. intros [out err]. cbn [snd fst].
  assert (match err with None => True | Some e => Contains (emsg e +:+ out) "find" = true end →
    wp (endSMBSessions user) (λ tr r, r = None → smb_revoked user (Ev (Run "smbpasswd" ["-x"; user]) (out, err) :: tr))) as Hw.
  { intros He. eapply wp_mono; [apply wp_endSMBSessions|]. intros tr r Hr Hn. split.
    - by eapply seen_here.
    - eapply sessions_ended_sub; [|by apply Hr]. set_solver. }
  destruct err as [e|]; [|by apply Hw]. destruct (Contains _ "find") eqn:E; [by apply Hw|done].
Qed.
Lemma RemoveSMBUser_inputs user : wp (RemoveSMBUser user) (λ tr _, inputs_none tr).
Proof.
  assert (issues (λ X o, match o with RunInput _ _ _ => False | _ => True end) (RemoveSMBUser user)) as Hi.
  { unfold RemoveSMBUser, endSMBSessions, smbSessionPIDs, shutdown_pid. issues_go. }
  eapply wp_mono; [by apply issues_wp|]. intros tr ? Htr e He. rewrite Forall_forall in Htr.
  specialize (Htr e He). by destruct e as [? []].
Qed.
End SmbProofs.

(** ** One pass *)
Definition password_input (user : LocalUser) (password : string) (e : event op) : Prop :=
  ∀ stdin n a, ev_input e = Some (stdin, n, a) →
    stdin = password +:+ nl +:+ password +:+ nl ∧ n = "smbpasswd" ∧ a = ["-s"; "-a"; Name (lu_meta user)].

Record user_pass `{SmbParse} (applied applied' : gmap string string) (user : LocalUser) (res : option error)
    (tr : trace op) : Prop := {
  up_inputs : ∀ e x, e ∈ tr → ev_input e = Some x →
    ∃ key pw, login_allowed user key pw tr ∧ password_input user pw e;
  up_denied : res = None → login_denied user tr →
    mget applied (Name (lu_meta user)) = revoked ∨ smb_revoked (Name (lu_meta user)) tr;
  up_applied : applied' = applied ∨ ∃ k, applied' = <[Name (lu_meta user) := k]> applied ∧
    (k = revoked ∧ smb_revoked (Name (lu_meta user)) tr ∨
     ∃ pw, login_allowed user k pw tr ∧ did "smbpasswd" ["-s"; "-a"; Name (lu_meta user)] tr);
}.

Section UserProofs.
Context `{SmbParse} `{SliceSort}.

(** The Secret's answer decides between the two. *)
Lemma wp_wanted_login user :
  wp (wanted_login user) (λ tr r, inputs_none tr ∧ match r with
    | inl _ => True
    | inr (key, pw) => (key = revoked ∧ ¬ (∃ k p, login_allowed user k p tr)) ∨
                       (login_allowed user key pw tr ∧ ¬ login_denied user tr)
    end).
Proof.
  unfold wanted_login. destruct (lu_SMB user) eqn:Hs; cbn [negb].
  - cbn [bind call wp]. intros [e|s].
    + destruct (IsNotFound (Some e)); cbn; (split; [by intros ? ->%list_elem_of_singleton|]); [|done].
      left. split; [done|]. intros (k & p & _ & s & (ev & ->%list_elem_of_singleton & Hev) & _). ev_simpl.
    + destruct (LocalUserPassword (sec_Data s)) as [pw []] eqn:E; cbn;
        (split; [by intros ? ->%list_elem_of_singleton|]); [right|left].
      * split; [split; [done|]; exists s; split_and!; [eauto with evidence|done|done]|].
        intros [?|(r & (ev & ->%list_elem_of_singleton & Hev) & Hd)]; [congruence|].
        cbn in Hev. rewrite as_kind_refl in Hev. injection Hev as <-.
        change ((LocalUserPassword (sec_Data s)).2 = false) in Hd. by rewrite E in Hd.
      * split; [done|]. intros (k & p & _ & s' & (ev & ->%list_elem_of_singleton & Hev) & Hp & _).
        cbn in Hev. rewrite as_kind_refl in Hev. injection Hev as <-. congruence.
  - cbn. split; [by intros ? ?%elem_of_nil|]. left. split; [done|]. intros (k & p & ? & _). congruence.
Qed.

Lemma wp_EnsureSMBUser user pw :
  wp (EnsureSMBUser (Name (lu_meta user)) pw) (λ tr r, (∀ e, e ∈ tr → password_input user pw e) ∧
    (r = None → did "smbpasswd" ["-s"; "-a"; Name (lu_meta user)] tr)).
Proof.
  unfold EnsureSMBUser, run_err. cbn [wp bind call seq_err]. intros [? [?|]]; cbn [wp bind call snd];
    [intros [? [?|]]; cbn [wp bind call snd]; [|intros [??]]|intros [??]]; cbn [wp bind call snd];
    (split; [intros ? He ??? Hev; split_in; ev_simpl|]); intros; simplify_eq; eauto with evidence.
Qed.

Lemma login_allowed_app user k pw t1 t2 : login_allowed user k pw t1 → login_allowed user k pw (t1 ++ t2).
Proof. intros (? & s & ? & ? & ?). split; [done|]. exists s. eauto with evidence. Qed.
Lemma smb_revoked_sub user t1 t2 : t1 ⊆ t2 → smb_revoked user t1 → smb_revoked user t2.
Proof. intros Hs [? ?]. split; [by eapply seen_sub|by eapply sessions_ended_sub]. Qed.
Lemma saw_host k key r t1 t2 : host_only t2 → saw k key r (t1 ++ t2) → saw k key r t1.
Proof.
  intros Hh (e & [He|He]%elem_of_app & Hev); [by exists e|]. destruct (host_no_saw t2 k key r Hh). by exists e.
Qed.
Lemma login_denied_host user t1 t2 : host_only t2 → login_denied user (t1 ++ t2) → login_denied user t1.
Proof. intros Hh [?|(r & Hs & ?)]; [by left|right]. exists r. split; [by eapply saw_host|done]. Qed.
Lemma RemoveSMBUser_host user : issues host_op (RemoveSMBUser user).
Proof. unfold RemoveSMBUser, endSMBSessions, smbSessionPIDs, shutdown_pid. issues_go. Qed.
Lemma EnsureSMBUser_host user pw : issues host_op (EnsureSMBUser user pw).
Proof. unfold EnsureSMBUser, run_err. issues_go. Qed.

Lemma inputs_none_app t1 t2 : inputs_none t1 → inputs_none t2 → inputs_none (t1 ++ t2).
Proof. intros ?? e [?|?]%elem_of_app; auto. Qed.

(** The decision carried out. *)
Lemma wp_user_apply applied user key pw t1 :
  inputs_none t1 →
  (key = revoked ∧ ¬ (∃ k p, login_allowed user k p t1)) ∨ (login_allowed user key pw t1 ∧ ¬ login_denied user t1) →
  wp (let! err := (if bool_decide (key = revoked) then RemoveSMBUser (Name (lu_meta user))
                   else EnsureSMBUser (Name (lu_meta user)) pw) in
      match err with
      | Some _ => Ret (done_err err, applied)
      | None => Ret (done_ok, <[Name (lu_meta user) := key]> applied)
      end) (λ t2 r, user_pass applied r.2 user r.1.2 (t1 ++ t2)).
Proof.
  intros Hin Hw. apply wp_bind_2. case_bool_decide as Hk.
  - eapply wp_mono; [apply wp_and; [apply wp_RemoveSMBUser|apply RemoveSMBUser_inputs]|].
    intros t2 err [Hr Hi]. assert (inputs_none (t1 ++ t2)) as Hno by (by apply inputs_none_app).
    destruct err as [e|]; cbn; rewrite app_nil_r; split; cbn; try done;
      try (intros e' x He Hx; by rewrite (Hno e' He) in Hx).
    + by left.
    + intros _ _. right. eapply smb_revoked_sub; [|by apply Hr]. set_solver.
    + right. exists key. split; [done|]. left. split; [done|]. eapply smb_revoked_sub; [|by apply Hr]. set_solver.
  - destruct Hw as [[? _]|[Ha Hnd]]; [done|].
    eapply wp_mono; [apply wp_and; [apply wp_EnsureSMBUser|apply issues_wp, EnsureSMBUser_host]|].
    intros t2 err [[Hi Hd] Hh].
    assert (∀ e x, e ∈ t1 ++ t2 → ev_input e = Some x →
      ∃ key pw, login_allowed user key pw (t1 ++ t2) ∧ password_input user pw e) as Hinp.
    { intros e x [He|He]%elem_of_app Hx; [by rewrite (Hin e He) in Hx|].
      exists key, pw. split; [by apply login_allowed_app|auto]. }
    assert (¬ login_denied user (t1 ++ t2)) as Hnd' by (by intros ?%login_denied_host).
    destruct err as [e|]; cbn; rewrite app_nil_r; split; try done; [by left|].
    right. exists key. split; [done|]. right. exists pw. split; [by apply login_allowed_app|].
    apply did_app_r. auto.
Qed.

Lemma wp_UserAgent_Reconcile applied req :
  wp (UserAgent_Reconcile applied req) (λ tr r, ∃ g tr', tr = Ev (Get KLocalUser req) g :: tr' ∧
    match g with
    | inl e => inputs_none tr' ∧
        if IsNotFound (Some e) then r.2 = delete (nn_Name req) applied ∧ (r.1.2 = None → smb_revoked (nn_Name req) tr')
        else r.2 = applied ∧ r.1.2 = Some e
    | inr user => user_pass applied r.2 user r.1.2 tr'
    end).
Proof.
  unfold UserAgent_Reconcile. cbn [wp bind call]. intros g.
  eapply wp_mono with (Q := λ tr' r, match g with
    | inl e => inputs_none tr' ∧
        if IsNotFound (Some e) then r.2 = delete (nn_Name req) applied ∧ (r.1.2 = None → smb_revoked (nn_Name req) tr')
        else r.2 = applied ∧ r.1.2 = Some e
    | inr user => user_pass applied r.2 user r.1.2 tr'
    end); [|eauto].
  destruct g as [e|user].
  - destruct (IsNotFound (Some e)); [|cbn; split; [by intros ? ?%elem_of_nil|done]].
    apply wp_bind_2. eapply wp_mono; [apply wp_and; [apply wp_RemoveSMBUser|apply RemoveSMBUser_inputs]|].
    intros t1 err [Hr Hi]. cbn. by rewrite app_nil_r.
  - apply wp_bind_2. eapply wp_mono; [apply wp_wanted_login|]. intros t1 [e|[key pw]] [Hin Hw].
    + cbn. rewrite app_nil_r. split; cbn; [|done|by left]. intros e' x He Hx. by rewrite (Hin e' He) in Hx.
    + case_bool_decide as Hk; [|by apply wp_user_apply]. cbn. rewrite app_nil_r. split; cbn; [| |by left].
      * intros e' x He Hx. by rewrite (Hin e' He) in Hx.
      * intros _ Hd. left. destruct Hw as [[-> _]|[_ ?]]; [done|tauto].
Qed.
End UserProofs.

(** C30: Revoked SMB access is really gone.  A password reaches the passdb only
    from the Secret that an SMB user names, read in the same pass; when the user
    is deleted, has SMB off, or its Secret is missing or empty, a pass that ends
    well has removed the passdb entry and seen every session of that user ended,
    or an earlier pass is remembered to have done so; and what is remembered was
    done. *)
Theorem smb_access_sound `{SmbParse} `{SliceSort} applied req tr res applied' :
  runs (UserAgent_Reconcile applied req) tr (res, applied') →
  ∃ g tr', tr = Ev (Get KLocalUser req) g :: tr' ∧
    match g with
    | inl e => inputs_none tr' ∧ (ekind e = KNotFound → applied' = delete (nn_Name req) applied ∧
        (res.2 = None → smb_revoked (nn_Name req) tr'))
    | inr user => user_pass applied applied' user res.2 tr'
    end.
Proof.
  intros Hr. destruct (wp_runs _ _ _ _ (wp_UserAgent_Reconcile applied req) Hr) as (g & tr' & -> & Hp).
  exists g, tr'. split; [done|]. destruct g as [e|user]; [|exact Hp]. destruct Hp as [Hi Hp]. split; [done|].
  intros Hk. replace (IsNotFound (Some e)) with true in Hp; [done|]. symmetry. by apply bool_decide_eq_true_2.
Qed.

(** A user whose Secret was emptied, with a session still open. *)
Section Witness.
#[local] Existing Instance insertion_slice_sort.
#[local] Instance demo_smb : SmbParse := {| json_sessions _ := inr [("u", "41"); ("v", "42")] |}.
Definition demo_smb_user : LocalUser :=
  {| lu_meta := demo_meta "u" [] None; lu_Role := "user"; lu_SMB := false; lu_PasswordSecretRef := "pw";
     lu_Conditions := []; lu_PasswordSecretVersion := "" |}.
Definition demo_smb_env : env op unit :=
  demo_env cmd_ok (λ k _, match k return error + obj k with
                          | KLocalUser => inr demo_smb_user
                          | _ => inl (Err "not found" KNotFound)
                          end) list_none.
Lemma smb_access_sound_witness :
  (run demo_smb_env (UserAgent_Reconcile {["u" := "7"]} (NN "" "u")) tt).1.1.2 !! "u" = Some revoked ∧
  ∃ g tr', (run demo_smb_env (UserAgent_Reconcile {["u" := "7"]} (NN "" "u")) tt).1.2 =
      Ev (Get KLocalUser (NN "" "u")) g :: tr' ∧
    match g with
    | inl e => inputs_none tr' ∧ (ekind e = KNotFound →
        (run demo_smb_env (UserAgent_Reconcile {["u" := "7"]} (NN "" "u")) tt).1.1.2 = delete "u" {["u" := "7"]} ∧
        ((run demo_smb_env (UserAgent_Reconcile {["u" := "7"]} (NN "" "u")) tt).1.1.1.2 = None → smb_revoked "u" tr'))
    | inr user => user_pass {["u" := "7"]} (run demo_smb_env (UserAgent_Reconcile {["u" := "7"]} (NN "" "u")) tt).1.1.2
        user (run demo_smb_env (UserAgent_Reconcile {["u" := "7"]} (NN "" "u")) tt).1.1.1.2 tr'
    end.
Proof.
  split; [vm_compute; reflexivity|].
  apply (smb_access_sound {["u" := "7"]} (NN "" "u")).
  exact (run_runs demo_smb_env (UserAgent_Reconcile {["u" := "7"]} (NN "" "u")) tt).
Defined.
End Witness.
