(* ===== verification/ShareAgent.v ===== *)
(** * internal/agent/share.go, share_reconciler.go: shares on the node

    Mounts the placed device, exports it over NFS and SMB, and undoes both
    when the placement moves away.  [Root] is the manager's path prefix; paths
    are clean and object names are DNS labels, so [filepath.Join] is
    concatenation. *)

From S2P Require Import Prelude GoStrings Prog ApiTypes Effects Demo Nodes Lvm Lio TargetAgent.

Definition shareRoot : string := "/var/lib/stornas/shares".
Definition exportsDir : string := "/etc/exports.d".
Definition sambaShares : string := "/etc/samba/stornas-shares.conf".
Definition tab : string := String (Ascii.ascii_of_nat 9) "".

Definition mountPoint (ns name : string) : string := shareRoot +:+ "/" +:+ ns +:+ "-" +:+ name.
Definition exportsFile (ns name : string) : string := exportsDir +:+ "/stornas-" +:+ ns +:+ "-" +:+ name +:+ ".exports".
Definition IsNotExist (e : option error) : bool := has_kind KNotExist e.

Definition share_mnt (s : Share) : string := mountPoint (Namespace (sh_meta s)) (Name (sh_meta s)).

Definition reexport : io (option error) :=
  run_err "exportfs" ["-ra"] ;!; run_err "exportfs" ["-f"].

(** The switch on the device's file system type. *)
Definition prepare_fs (dev : string) : io (option error) :=
  let! b := call (Run "blkid" ["-o"; "value"; "-s"; "TYPE"; dev]) in
  let fstype := TrimSpace b.1 in
  if bool_decide (fstype = "") then run_err "mkfs.xfs" [dev]
  else if bool_decide (fstype = "xfs") then Ret None
  else Ret (Some (errorf ("device " +:+ dev +:+ " carries " +:+ fstype +:+ ", refusing to mount as xfs"))).

Section Shares.
Context `{SliceSort} (NodeName Root : string).

Definition mount_fresh (dev mnt : string) : io (option error) :=
  prepare_fs dev ;!;
  call (FMkdirAll (Root +:+ mnt)) ;!;
  run_err "mount" ["-t"; "xfs"; dev; mnt] ;!;
  (let! _ := call (Run "restorecon" ["-RF"; mnt]) in Ret None).

Definition export_line (mnt : string) (clients : list string) : string := mnt +:+ " " +:+ Join clients " " +:+ nl.
Definition write_export (s : Share) : io (option error) :=
  let path := Root +:+ exportsFile (Namespace (sh_meta s)) (Name (sh_meta s)) in
  match sh_NFS s with
  | Some nfs => call (FWrite path (export_line (share_mnt s) (nfs_Clients nfs)))
  | None => let! e := call (FRemove path) in Ret (if IsNotExist e then None else e)
  end.

Definition EnsureShare (s : Share) : io (option error) :=
  let mnt := share_mnt s in
  let! r := call (Run "findmnt" ["-n"; "-o"; "SOURCE"; mnt]) in
  let found := match r.2 with None => true | Some _ => false end in
  let right_dev := bool_decide (TrimSpace r.1 = sh_Device s) in
  (if found && negb right_dev then run_err "umount" [mnt] else Ret None) ;!;
  (if found && right_dev then Ret None else mount_fresh (sh_Device s) mnt) ;!;
  write_export s ;!;
  reexport.

Definition Present (ns name : string) : io bool :=
  let! e := call (FStat (Root +:+ mountPoint ns name)) in
  match e with
  | None => Ret true
  | Some _ => let! e' := call (FStat (Root +:+ exportsFile ns name)) in
              Ret (match e' with None => true | Some _ => false end)
  end.

(** Best effort: the outcomes are only logged. *)
Definition RemoveShare (ns name : string) : io unit :=
  let! _ := call (FRemove (Root +:+ exportsFile ns name)) in
  let! _ := reexport in
  let! _ := call (Run "umount" [mountPoint ns name]) in
  let! _ := call (FRemove (Root +:+ mountPoint ns name)) in
  Ret tt.

(** One section of the include, and the include. *)
Definition smb_served (s : Share) : bool :=
  match sh_SMB s with
  | None => false
  | Some _ => bool_decide (sh_Node s = NodeName) && negb (deleting (sh_meta s))
  end.
Definition smb_section (s : Share) : string :=
  match sh_SMB s with
  | None => ""
  | Some smb =>
      let name := if bool_decide (smb_Name smb = "") then Name (sh_meta s) else smb_Name smb in
      "[" +:+ name +:+ "]" +:+ nl +:+ tab +:+ "path = " +:+ share_mnt s +:+ nl +:+
      tab +:+ "read only = no" +:+ nl +:+ tab +:+ "force user = root" +:+ nl +:+
      (if bool_decide (smb_ValidUsers smb = []) then ""
       else tab +:+ "valid users = " +:+ Join (smb_ValidUsers smb) " " +:+ nl) +:+ nl
  end.
Definition share_key (s : Share) : string := Namespace (sh_meta s) +:+ "/" +:+ Name (sh_meta s).
Definition samba_conf (shares : list Share) : string :=
  foldl (λ b s, if smb_served s then b +:+ smb_section s else b) ""
    (sort_slice (λ a b, str_ltb (share_key a) (share_key b)) shares).

Definition ApplySamba (shares : list Share) : io (option error) :=
  call (FWrite (Root +:+ sambaShares) (samba_conf shares)) ;!;
  run_err "smbcontrol" ["all"; "reload-config"].
Definition applySamba : io (option error) :=
  let! l := call (List KShare None) in
  match l with
  | inl e => Ret (Some e)
  | inr shares => ApplySamba shares
  end.

Definition sh_set_state (s : Share) (cs : list Condition) (state : string) : Share :=
  {| sh_meta := sh_meta s; sh_ClaimName := sh_ClaimName s; sh_NFS := sh_NFS s; sh_SMB := sh_SMB s;
     sh_Conditions := cs; sh_Node := sh_Node s; sh_Device := sh_Device s; sh_State := state |}.
Definition drop_share (ns name : string) : io unit :=
  RemoveShare ns name ;;; let! _ := applySamba in Ret tt.
Definition drop_if_present (ns name : string) : io unit :=
  let! p := Present ns name in if p then drop_share ns name else Ret tt.

Context `{K8sMeta}.
Definition share_reported (s : Share) (ensureErr : option error) : Share :=
  sh_set_state s (SetStatusCondition (sh_Conditions s) (host_cond (Generation (sh_meta s)) ensureErr))
    (export_state ensureErr).

Definition share_deleting (s : Share) : io reconcile :=
  drop_if_present (Namespace (sh_meta s)) (Name (sh_meta s)) ;;;
  if negb (bool_decide (sh_Node s = NodeName)) || bool_decide (sh_State s = "Removed") then Ret done_ok
  else
    let! e := call (StatusUpdate KShare (sh_set_state s (sh_Conditions s) "Removed")) in
    Ret (done_err (IgnoreNotFound e)).

Definition share_converge (s : Share) : io reconcile :=
  let! ensureErr := (EnsureShare s ;!; applySamba) in
  let! e := call (StatusUpdate KShare (share_reported s ensureErr)) in
  match e with
  | Some _ => Ret (done_err (IgnoreNotFound e))
  | None => Ret (done_err ensureErr)
  end.

Definition ShareAgent_Reconcile (req : NamespacedName) : io reconcile :=
  let! g := call (Get KShare req) in
  match g with
  | inl e =>
      if IsNotFound (Some e)
      then drop_share (nn_Namespace req) (nn_Name req) ;;; Ret done_ok
      else Ret (done_err (Some e))
  | inr s =>
      if deleting (sh_meta s) then share_deleting s
      else if negb (bool_decide (sh_Node s = NodeName)) || bool_decide (sh_Device s = "")
      then drop_if_present (Namespace (sh_meta s)) (Name (sh_meta s)) ;;; Ret done_ok
      else share_converge s
  end.
End Shares.

(** ** What the commands rest on *)

(** The last probe of the device found it blank / found xfs on it. *)
Definition fs_probed (dev : string) (P : string → Prop) (tr : trace op) : Prop :=
  seen "blkid" ["-o"; "value"; "-s"; "TYPE"; dev] (λ out _, P (TrimSpace out)) tr.
Definition ready_fs (dev : string) (tr : trace op) : Prop :=
  fs_probed dev (λ fs, fs = "xfs") tr ∨ (fs_probed dev (λ fs, fs = "") tr ∧ did "mkfs.xfs" [dev] tr).

(** Formatting needs a blank probe of the placed device before it; mounting a
    prepared file system; unmounting, this share's mount point. *)
Definition share_allowed (s : Share) (tr : trace op) (e : event op) : Prop :=
  ∀ n a, cmd_of e = Some (n, a) →
    (n = "mkfs.xfs" → a = [sh_Device s] ∧ fs_probed (sh_Device s) (λ fs, fs = "") tr) ∧
    (n = "mount" → a = ["-t"; "xfs"; sh_Device s; share_mnt s] ∧ ready_fs (sh_Device s) tr) ∧
    (n = "umount" → a = [share_mnt s]).

(** The share is served: its device is mounted at its place, the NFS export
    holds exactly the clients of the spec, and both kernel tables were flushed. *)
Definition ev_fwrite (e : event op) : option (string * string * option error) :=
  match e with
  | Ev o x => match o in op X return X → _ with FWrite p d => λ r, Some (p, d, r) | _ => λ _, None end x
  end.
Definition ev_fremove (e : event op) : option (string * option error) :=
  match e with
  | Ev o x => match o in op X return X → _ with FRemove p => λ r, Some (p, r) | _ => λ _, None end x
  end.
Definition wrote (p d : string) (tr : trace op) : Prop := ∃ e, e ∈ tr ∧ ev_fwrite e = Some (p, d, None).
Definition unlinked (p : string) (tr : trace op) : Prop :=
  ∃ e r, e ∈ tr ∧ ev_fremove e = Some (p, r) ∧ (r = None ∨ IsNotExist r = true).

Record share_served `{SliceSort} (NodeName Root : string) (s : Share) (tr : trace op) : Prop := {
  ss_mounted : seen "findmnt" ["-n"; "-o"; "SOURCE"; share_mnt s] (λ out err, err = None ∧ TrimSpace out = sh_Device s) tr ∨
    did "mount" ["-t"; "xfs"; sh_Device s; share_mnt s] tr;
  ss_nfs : match sh_NFS s with
           | Some nfs => wrote (Root +:+ exportsFile (Namespace (sh_meta s)) (Name (sh_meta s)))
                           (export_line (share_mnt s) (nfs_Clients nfs)) tr
           | None => unlinked (Root +:+ exportsFile (Namespace (sh_meta s)) (Name (sh_meta s))) tr
           end;
  ss_flushed : did "exportfs" ["-ra"] tr ∧ did "exportfs" ["-f"] tr;
  ss_smb : ∃ shares, (Ev (List KShare None) (inr shares) : event op) ∈ tr ∧
    wrote (Root +:+ sambaShares) (samba_conf NodeName shares) tr ∧ did "smbcontrol" ["all"; "reload-config"] tr;
}.

(** The drop was attempted: neither the mount point nor the exports file could
    be stat'ed, or the unlink of the exports file, the reload of the export table
    and the unmount were run.  [RemoveShare] only logs the failure of any of
    these, and [Present] takes every error of stat for absence. *)
Definition drop_run (Root : string) (s : Share) (tr : trace op) : Prop :=
  (∃ e1 e2, (Ev (FStat (Root +:+ share_mnt s)) (Some e1) : event op) ∈ tr ∧
    (Ev (FStat (Root +:+ exportsFile (Namespace (sh_meta s)) (Name (sh_meta s)))) (Some e2) : event op) ∈ tr) ∨
  (∃ w, (Ev (FRemove (Root +:+ exportsFile (Namespace (sh_meta s)) (Name (sh_meta s)))) w : event op) ∈ tr) ∧
  ran "exportfs" ["-ra"] tr ∧ ran "umount" [share_mnt s] tr.

Lemma probed_sub dev P t1 t2 : t1 ⊆ t2 → fs_probed dev P t1 → fs_probed dev P t2.
Proof. apply seen_sub. Qed.
Lemma did_sub n a t1 t2 : t1 ⊆ t2 → did n a t1 → did n a t2.
Proof. intros Hs (e & o & ? & ?). exists e, o. auto. Qed.
Lemma ready_fs_sub dev t1 t2 : t1 ⊆ t2 → ready_fs dev t1 → ready_fs dev t2.
Proof.
  intros Hs [?|[? ?]]; [left; by eapply probed_sub|right]. split; [by eapply probed_sub|by eapply did_sub].
Qed.
Lemma share_allowed_sub s t1 t2 e : t1 ⊆ t2 → share_allowed s t1 e → share_allowed s t2 e.
Proof.
  intros Hs Ha n a Hc. destruct (Ha n a Hc) as (Hk & Hm & Hu). split_and!; [intros ->|intros ->|done].
  - destruct Hk; [done|]. split; [done|]. by eapply probed_sub.
  - destruct Hm; [done|]. split; [done|]. by eapply ready_fs_sub.
Qed.
Lemma share_allowed_mono s t1 t2 e : share_allowed s t2 e → share_allowed s (t1 ++ t2) e.
Proof. apply share_allowed_sub. set_solver. Qed.

(** Events that none of the three rules is about. *)
Definition harmless (e : event op) : Prop :=
  ∀ n a, cmd_of e = Some (n, a) → n ≠ "mkfs.xfs" ∧ n ≠ "mount" ∧ n ≠ "umount".
Lemma harmless_allowed s t e : harmless e → share_allowed s t e.
Proof. intros Hh n a Hc. destruct (Hh n a Hc) as (? & ? & ?). split_and!; by intros ->. Qed.
Lemma harmless_lawful s tr : Forall harmless tr → lawful (share_allowed s) tr.
Proof.
  intros Hh tr1 e tr2 ->. apply harmless_allowed. apply Forall_app in Hh as [_ Hh]. by inversion Hh.
Qed.
Definition harmless_op (X : Type) (o : op X) : Prop :=
  match o with Run n _ | RunInput _ n _ => n ≠ "mkfs.xfs" ∧ n ≠ "mount" ∧ n ≠ "umount" | _ => True end.
Lemma wp_harmless {A} (p : io A) : issues harmless_op p → wp p (λ tr _, Forall harmless tr).
Proof.
  intros Hi. eapply wp_mono; [by apply issues_wp|]. intros tr ? Ht. eapply Forall_impl; [exact Ht|].
  intros e He n args Hc. destruct e as [? []]; cbn in *; by simplify_eq.
Qed.
Lemma harmless_run n a r : n ≠ "mkfs.xfs" → n ≠ "mount" → n ≠ "umount" → harmless (Ev (Run n a) r).
Proof. intros ??? n' a' [= <- <-]. done. Qed.

Section ShareProofs.
Context `{SliceSort} (NodeName Root : string) (s : Share).

Lemma lawful_share_app t1 t2 :
  lawful (share_allowed s) t1 → lawful (share_allowed s) t2 → lawful (share_allowed s) (t1 ++ t2).
Proof. apply lawful_app, share_allowed_mono. Qed.

Lemma wp_prepare_fs :
  wp (prepare_fs (sh_Device s)) (λ tr r, lawful (share_allowed s) tr ∧ (r = None → ready_fs (sh_Device s) tr)).
Proof.
  unfold prepare_fs, run_err. cbn [bind call wp]. intros [out err]. cbn [fst snd].
  assert (lawful (share_allowed s) [Ev (Run "blkid" ["-o"; "value"; "-s"; "TYPE"; sh_Device s]) (out, err)]) as Hb.
  { apply harmless_lawful. constructor; [by apply harmless_run|constructor]. }
  case_bool_decide as Hblank; [|case_bool_decide as Hx]; cbn [bind call wp].
  - intros [o2 e2]. cbn. assert (fs_probed (sh_Device s) (λ fs, fs = "")
      [Ev (Run "blkid" ["-o"; "value"; "-s"; "TYPE"; sh_Device s]) (out, err)]) as Hp by (by eapply seen_here).
    split.
    + apply (lawful_app_dep _ [_] [_] Hb). apply lawful_cons; [|apply lawful_nil].
      intros n a [= <- <-]. split_and!; [|done|done]. intros _. by split.
    + intros ->. right. split; [|by apply did_there; eapply did_here].
      eapply probed_sub; [|exact Hp]. set_solver.
  - split; [done|]. intros _. left. by eapply seen_here.
  - by split.
Qed.

Lemma wp_mount_fresh :
  wp (mount_fresh Root (sh_Device s) (share_mnt s)) (λ tr r, lawful (share_allowed s) tr ∧
    (r = None → did "mount" ["-t"; "xfs"; sh_Device s; share_mnt s] tr)).
Proof.
  unfold mount_fresh. apply wp_seq_err. eapply wp_mono; [apply wp_prepare_fs|].
  intros t1 [e|] [L1 R1]; [by split|]. specialize (R1 eq_refl).
  unfold run_err. cbn [wp bind call seq_err]. intros [e|]; cbn [wp bind call].
  { split; [|done]. apply lawful_share_app; [done|]. apply harmless_lawful. by repeat constructor. }
  assert (∀ w x, share_allowed s (t1 ++ [x]) (Ev (Run "mount" ["-t"; "xfs"; sh_Device s; share_mnt s]) w)) as Hm.
  { intros w x n a [= <- <-]. split_and!; [done| |done]. intros _. split; [done|].
    eapply ready_fs_sub; [|exact R1]. set_solver. }
  intros [o2 [e2|]]; cbn [wp bind call snd].
  - split; [|done]. apply lawful_app_dep; [done|]. lawful_go.
    + apply harmless_allowed. by intros n a [=].
    + apply Hm.
  - intros w. split.
    + apply lawful_app_dep; [done|]. lawful_go.
      * apply harmless_allowed. by intros n a [=].
      * apply Hm.
      * apply harmless_allowed. by intros n a [= <- <-].
    + intros _. apply did_app_r, did_there. by eapply did_here.
Qed.

Lemma reexport_harmless : issues harmless_op reexport.
Proof. unfold reexport, run_err. issues_go; done. Qed.
Lemma applySamba_harmless : issues harmless_op (applySamba NodeName Root).
Proof. unfold applySamba, ApplySamba, run_err. issues_go; done. Qed.
Lemma write_export_harmless : issues harmless_op (write_export Root s).
Proof. unfold write_export. issues_go; done. Qed.
Lemma wp_harmless_lawful {A} (p : io A) : issues harmless_op p → wp p (λ tr _, lawful (share_allowed s) tr).
Proof. intros Hi. eapply wp_mono; [by apply wp_harmless|]. intros tr ? ?. by apply harmless_lawful. Qed.

Lemma umount_lawful w : lawful (share_allowed s) [Ev (Run "umount" [share_mnt s]) w].
Proof. apply lawful_cons; [|apply lawful_nil]. intros n a [= <- <-]. by split_and!. Qed.

(** ** Serving and dropping *)
Definition nfs_done (tr : trace op) : Prop :=
  match sh_NFS s with
  | Some nfs => wrote (Root +:+ exportsFile (Namespace (sh_meta s)) (Name (sh_meta s)))
                  (export_line (share_mnt s) (nfs_Clients nfs)) tr
  | None => unlinked (Root +:+ exportsFile (Namespace (sh_meta s)) (Name (sh_meta s))) tr
  end.
Definition smb_done (tr : trace op) : Prop :=
  ∃ shares, (Ev (List KShare None) (inr shares) : event op) ∈ tr ∧
    wrote (Root +:+ sambaShares) (samba_conf NodeName shares) tr ∧ did "smbcontrol" ["all"; "reload-config"] tr.
Definition mount_done (tr : trace op) : Prop :=
  seen "findmnt" ["-n"; "-o"; "SOURCE"; share_mnt s] (λ out err, err = None ∧ TrimSpace out = sh_Device s) tr ∨
  did "mount" ["-t"; "xfs"; sh_Device s; share_mnt s] tr.

Lemma nfs_done_sub t1 t2 : t1 ⊆ t2 → nfs_done t1 → nfs_done t2.
Proof.
  intros Hs. unfold nfs_done. destruct (sh_NFS s).
  - intros (e & ? & ?). exists e. auto.
  - intros (e & r & ? & ?). exists e, r. auto.
Qed.
Lemma smb_done_sub t1 t2 : t1 ⊆ t2 → smb_done t1 → smb_done t2.
Proof.
  intros Hs (l & ? & (e & ? & ?) & Hd). exists l. split_and!; [auto|exists e; auto|by eapply did_sub].
Qed.
Lemma mount_done_sub t1 t2 : t1 ⊆ t2 → mount_done t1 → mount_done t2.
Proof. intros Hs [?|?]; [left; by eapply seen_sub|right; by eapply did_sub]. Qed.

Lemma wp_write_export : wp (write_export Root s) (λ tr r, r = None → nfs_done tr).
Proof.
  unfold write_export, nfs_done. destruct (sh_NFS s); cbn.
  - intros r ->. eexists. split; [left|done].
  - intros r Hr. eexists _, r. split_and!; [left|done|]. destruct (IsNotExist r); [by right|by left].
Qed.
Lemma wp_reexport : wp reexport (λ tr r, r = None → did "exportfs" ["-ra"] tr ∧ did "exportfs" ["-f"] tr).
Proof.
  unfold reexport, run_err. cbn. intros [o1 [e1|]]; cbn; [done|]. intros [o2 e2] He. cbn in He. subst.
  split; eauto with evidence.
Qed.
Lemma wp_applySamba : wp (applySamba NodeName Root) (λ tr r, r = None → smb_done tr).
Proof.
  unfold applySamba, ApplySamba, run_err. cbn. intros [e|shares]; cbn; [done|]. intros [e|]; cbn; [done|].
  intros [o2 e2] He. cbn in He. subst. exists shares. split_and!; [left| |eauto with evidence].
  eexists. split; [right; left|done].
Qed.

Lemma wp_EnsureShare :
  wp (EnsureShare Root s) (λ tr r, lawful (share_allowed s) tr ∧
    (r = None → mount_done tr ∧ nfs_done tr ∧ did "exportfs" ["-ra"] tr ∧ did "exportfs" ["-f"] tr)).
Proof.
  unfold EnsureShare. cbn [bind call wp]. intros [out err]. cbn [fst snd].
  set (found := match err with None => true | Some _ => false end).
  set (e0 := Ev (Run "findmnt" ["-n"; "-o"; "SOURCE"; share_mnt s]) (out, err)).
  assert (lawful (share_allowed s) [e0]) as L0.
  { apply harmless_lawful. constructor; [by apply harmless_run|constructor]. }
  apply wp_seq_err. eapply wp_mono with (Q := λ tr _, lawful (share_allowed s) tr).
  { destruct (found && _); cbn; [intros w; apply umount_lawful|apply lawful_nil]. }
  intros t1 [e|] L1; [split; [by apply (lawful_share_app [e0])|done]|]. apply wp_seq_err.
  eapply wp_mono with (Q := λ tr r, lawful (share_allowed s) tr ∧ (r = None → mount_done (e0 :: t1 ++ tr))).
  { destruct (found && bool_decide _) eqn:E.
    - cbn. split; [apply lawful_nil|]. intros _. left. bools. eapply seen_here; [done|]. by destruct err.
    - eapply wp_mono; [apply wp_mount_fresh|]. intros t2 r [L2 D2]. split; [done|]. intros Hr. right.
      apply did_there, did_app_r. auto. }
  intros t2 [e|] [L2 M2]; [split; [apply (lawful_share_app [e0]); [done|]; by apply lawful_share_app|done]|].
  apply wp_seq_err. eapply wp_mono; [apply wp_and; [apply wp_write_export|apply wp_harmless_lawful, write_export_harmless]|].
  intros t3 [e|] [N3 L3].
  { split; [|done]. apply (lawful_share_app [e0]); [done|]. do 2 (apply lawful_share_app; [done|]). done. }
  eapply wp_mono; [apply wp_and; [apply wp_reexport|apply wp_harmless_lawful, reexport_harmless]|].
  intros t4 r [F4 L4]. split.
  { apply (lawful_share_app [e0]); [done|]. do 3 (apply lawful_share_app; [done|]). done. }
  intros Hr. split_and!.
  - eapply mount_done_sub; [|by apply M2]. set_solver.
  - eapply nfs_done_sub; [|by apply N3]. set_solver.
  - apply did_there, did_app_r, did_app_r, did_app_r. by apply F4.
  - apply did_there, did_app_r, did_app_r, did_app_r. by apply F4.
Qed.

Lemma wp_RemoveShare :
  wp (RemoveShare Root (Namespace (sh_meta s)) (Name (sh_meta s))) (λ tr _,
    lawful (share_allowed s) tr ∧
    (∃ w, (Ev (FRemove (Root +:+ exportsFile (Namespace (sh_meta s)) (Name (sh_meta s)))) w : event op) ∈ tr) ∧
    ran "exportfs" ["-ra"] tr ∧ ran "umount" [share_mnt s] tr).
Proof.
  unfold RemoveShare. cbn [bind call wp]. intros w. apply wp_bind_2.
  eapply wp_mono with (Q := λ tr _, Forall harmless tr ∧ ran "exportfs" ["-ra"] tr).
  { apply wp_and; [apply wp_harmless, reexport_harmless|]. unfold reexport, run_err. cbn.
    intros [o1 [e1|]]; cbn; [by eapply seen_here|]. intros ?. by eapply seen_here. }
  intros t1 ? [H1 R1]. cbn [bind call wp]. intros u v. split_and!.
  - apply (lawful_share_app [_]); [apply harmless_lawful; constructor; [by intros ?? [=]|constructor]|].
    apply lawful_share_app; [by apply harmless_lawful|]. apply (lawful_share_app [_] [_]); [apply umount_lawful|].
    apply harmless_lawful; constructor; [by intros ?? [=]|constructor].
  - exists w. left.
  - apply seen_there, seen_app_l. done.
  - apply seen_there, seen_app_r. destruct u. by eapply seen_here.
Qed.

Lemma wp_drop_share :
  wp (drop_share NodeName Root (Namespace (sh_meta s)) (Name (sh_meta s))) (λ tr _,
    lawful (share_allowed s) tr ∧
    (∃ w, (Ev (FRemove (Root +:+ exportsFile (Namespace (sh_meta s)) (Name (sh_meta s)))) w : event op) ∈ tr) ∧
    ran "exportfs" ["-ra"] tr ∧ ran "umount" [share_mnt s] tr).
Proof.
  unfold drop_share. apply wp_bind_2. eapply wp_mono; [apply wp_RemoveShare|]. intros t1 ? (L1 & (w & Hw) & R1 & U1).
  apply wp_bind_2. eapply wp_mono; [apply wp_harmless_lawful, applySamba_harmless|]. intros t2 ? L2. cbn.
  rewrite app_nil_r. split_and!; [by apply lawful_share_app|exists w; set_solver|by apply seen_app_l..].
Qed.

Lemma wp_drop_if_present :
  wp (drop_if_present NodeName Root (Namespace (sh_meta s)) (Name (sh_meta s))) (λ tr _,
    lawful (share_allowed s) tr ∧ drop_run Root s tr).
Proof.
  unfold drop_if_present, Present. cbn [bind call wp]. intros x.
  assert (∀ pre, Forall harmless pre → wp (drop_share NodeName Root (Namespace (sh_meta s)) (Name (sh_meta s)))
    (λ tr _, lawful (share_allowed s) (pre ++ tr) ∧ drop_run Root s (pre ++ tr))) as Hd.
  { intros pre Hpre. eapply wp_mono; [apply wp_drop_share|]. intros tr ? (L & (w & Hw) & R & U).
    split; [apply lawful_share_app; [by apply harmless_lawful|done]|]. right.
    split_and!; [exists w; set_solver|by apply seen_app_r..]. }
  assert (∀ p r, harmless (Ev (FStat p) r)) as Hh by (by intros ?? ?? [=]).
  destruct x as [e1|]; cbn [bind call wp].
  - intros [e2|]; cbn [bind wp].
    + split; [apply harmless_lawful; do 2 (constructor; [apply Hh|]); constructor|]. left. exists e1, e2. set_solver.
    + apply (Hd [_; _]). do 2 (constructor; [apply Hh|]). constructor.
  - apply (Hd [_]). constructor; [apply Hh|constructor].
Qed.
End ShareProofs.

(** ** One pass over a share *)
Definition silent_op (X : Type) (o : op X) : Prop :=
  match o with StatusUpdate _ _ => False | _ => True end.
Definition dropping_op (X : Type) (o : op X) : Prop :=
  match o with StatusUpdate _ _ => False | Run n _ | RunInput _ n _ => n ≠ "mkfs.xfs" ∧ n ≠ "mount" | _ => True end.
Definition silent (tr : trace op) : Prop := ∀ k e, e ∈ tr → ev_status k e = None.
Definition no_mount (tr : trace op) : Prop :=
  ∀ e n a, e ∈ tr → cmd_of e = Some (n, a) → n ≠ "mkfs.xfs" ∧ n ≠ "mount".

Lemma wp_silent {A} (p : io A) : issues silent_op p → wp p (λ tr _, silent tr).
Proof.
  intros Hi. eapply wp_mono; [by apply issues_wp|]. intros tr ? Ht k e He. rewrite Forall_forall in Ht.
  specialize (Ht e He). by destruct e as [? []].
Qed.
Lemma wp_dropping {A} (p : io A) : issues dropping_op p → wp p (λ tr _, silent tr ∧ no_mount tr).
Proof.
  intros Hi. eapply wp_mono; [by apply issues_wp|]. intros tr ? Ht. rewrite Forall_forall in Ht. split.
  - intros k e He. specialize (Ht e He). by destruct e as [? []].
  - intros e n args He Hc. specialize (Ht e He). destruct e as [? []]; cbn in *; by simplify_eq.
Qed.

Section SharePass.
Context `{SliceSort} `{K8sMeta} (NodeName Root : string).

Definition share_here (s : Share) : bool :=
  negb (deleting (sh_meta s)) && bool_decide (sh_Node s = NodeName) && negb (bool_decide (sh_Device s = "")).

Definition share_agent_pass (s : Share) (tr : trace op) : Prop :=
  ∃ t1 t2, tr = t1 ++ t2 ∧ silent t1 ∧ lawful (share_allowed s) t1 ∧
  if share_here s
  then ∃ err w, t2 = [Ev (StatusUpdate KShare (share_reported s err)) w] ∧
    (err = None → share_served NodeName Root s t1)
  else drop_run Root s t1 ∧ no_mount t1 ∧
    (t2 = [] ∨ deleting (sh_meta s) = true ∧ sh_Node s = NodeName ∧
      ∃ w, t2 = [Ev (StatusUpdate KShare (sh_set_state s (sh_Conditions s) "Removed")) w]).

Lemma drop_dropping ns name : issues dropping_op (drop_if_present NodeName Root ns name).
Proof.
  unfold drop_if_present, Present, drop_share, RemoveShare, applySamba, ApplySamba, reexport, run_err.
  issues_go; done.
Qed.
Lemma EnsureShare_silent s : issues silent_op (EnsureShare Root s ;!; applySamba NodeName Root).
Proof.
  unfold EnsureShare, mount_fresh, prepare_fs, write_export, applySamba, ApplySamba, reexport, run_err.
  issues_go; done.
Qed.

Lemma wp_drop s :
  wp (drop_if_present NodeName Root (Namespace (sh_meta s)) (Name (sh_meta s))) (λ tr _,
    (lawful (share_allowed s) tr ∧ drop_run Root s tr) ∧ silent tr ∧ no_mount tr).
Proof. apply wp_and; [apply wp_drop_if_present|apply wp_dropping, drop_dropping]. Qed.

Lemma wp_serve s :
  wp (EnsureShare Root s ;!; applySamba NodeName Root) (λ tr r,
    lawful (share_allowed s) tr ∧ (r = None → share_served NodeName Root s tr)).
Proof.
  apply wp_seq_err. eapply wp_mono; [apply wp_EnsureShare|]. intros t1 [e|] [L1 D1]; [by split|].
  destruct (D1 eq_refl) as (Hm & Hn & Hra & Hf).
  eapply wp_mono; [apply wp_and; [apply wp_applySamba|apply wp_harmless_lawful, applySamba_harmless]|].
  intros t2 r [D2 L2]. split; [by apply lawful_share_app|]. intros Hr. split.
  - eapply mount_done_sub; [|exact Hm]. set_solver.
  - eapply nfs_done_sub; [|exact Hn]. set_solver.
  - split; by apply did_app_l.
  - eapply smb_done_sub; [|by apply D2]. set_solver.
Qed.

Lemma wp_share_agent_pass s :
  wp (if deleting (sh_meta s) then share_deleting NodeName Root s
      else if negb (bool_decide (sh_Node s = NodeName)) || bool_decide (sh_Device s = "")
      then drop_if_present NodeName Root (Namespace (sh_meta s)) (Name (sh_meta s)) ;;; Ret done_ok
      else share_converge NodeName Root s) (λ tr _, share_agent_pass s tr).
Proof.
  unfold share_agent_pass, share_here. destruct (deleting (sh_meta s)) eqn:Hd; cbn [negb andb].
  - unfold share_deleting. apply wp_bind_2. eapply wp_mono; [apply wp_drop|]. intros t1 ? [[L D] [Hs Hn]].
    destruct (_ || _) eqn:E; cbn [wp bind call].
    + exists t1, []. rewrite app_nil_r. split_and!; auto.
    + bools. intros w. eexists t1, _. split_and!; [done..|]. right. eauto.
  - destruct (_ || _) eqn:E; cbn [wp bind call].
    + replace (bool_decide _ && negb _) with false.
      2: { destruct (bool_decide (sh_Node s = NodeName)); cbn in *; by rewrite ?E. }
      apply wp_bind_2. eapply wp_mono; [apply wp_drop|]. intros t1 ? [[L D] [Hs Hn]]. cbn.
      exists t1, []. rewrite !app_nil_r. split_and!; auto.
    + apply orb_false_iff in E as [->%negb_false_iff ->]. cbn [negb andb]. unfold share_converge.
      apply wp_bind_2. eapply wp_mono; [apply wp_and; [apply wp_serve|apply wp_silent, EnsureShare_silent]|].
      intros t1 err [[L D] Hs]. cbn [wp bind call]. intros w. destruct w; cbn [wp]; eexists t1, _; split_and!; eauto.
Qed.

Lemma drop_share_silent ns name : issues silent_op (drop_share NodeName Root ns name).
Proof. unfold drop_share, RemoveShare, applySamba, ApplySamba, reexport, run_err. issues_go; done. Qed.

Lemma wp_ShareAgent_Reconcile req :
  wp (ShareAgent_Reconcile NodeName Root req) (λ tr _, ∃ g tr', tr = Ev (Get KShare req) g :: tr' ∧
    match g with inl _ => silent tr' | inr s => share_agent_pass s tr' end).
Proof.
  unfold ShareAgent_Reconcile. cbn [wp bind call]. intros g.
  eapply wp_mono with (Q := λ tr' _, match g with inl _ => silent tr' | inr s => share_agent_pass s tr' end); [|eauto].
  destruct g as [e|s]; [|apply wp_share_agent_pass].
  destruct (IsNotFound _); [|cbn; by intros ?? ?%elem_of_nil].
  apply wp_bind_2. eapply wp_mono; [apply wp_silent, drop_share_silent|]. intros t1 ? Hs. cbn. by rewrite app_nil_r.
Qed.

(** What a status written by the agent rests on. *)
Definition share_verdict (s p : Share) (tr : trace op) : Prop :=
  sh_meta p = sh_meta s ∧ sh_Device p = sh_Device s ∧ sh_Node s = NodeName ∧ sh_Node p = NodeName ∧
  if deleting (sh_meta s) then sh_State p = "Removed" ∧ drop_run Root s tr
  else if IsStatusConditionTrue (sh_Conditions p) ConditionHostReady
  then sh_State p = "Exported" ∧ share_served NodeName Root s tr
  else sh_State p = "Failed".

Lemma share_reported_true s err :
  IsStatusConditionTrue (sh_Conditions (share_reported s err)) ConditionHostReady =
  match err with None => true | Some _ => false end.
Proof.
  cbn. pose proof (is_true_set_eq (sh_Conditions s) (host_cond (Generation (sh_meta s)) err)) as Hx.
  destruct err; exact Hx.
Qed.

Lemma share_pass_status s tr e p :
  share_agent_pass s tr → e ∈ tr → ev_status KShare e = Some p →
  ∃ t1, tr = t1 ++ [e] ∧ share_verdict s p t1.
Proof.
  intros (t1 & t2 & -> & Hs & _ & Hp) He Hev. exists t1.
  apply elem_of_app in He as [He|He]; [by rewrite (Hs KShare e He) in Hev|].
  unfold share_verdict, share_here in *. destruct (_ && _ && _) eqn:E.
  - destruct Hp as (err & w & -> & Hd). apply list_elem_of_singleton in He as ->. split; [done|]. bools.
    cbn in Hev. rewrite as_kind_refl in Hev. injection Hev as <-. rewrite share_reported_true.
    split_and!; [done..|]. replace (deleting (sh_meta s)) with false. destruct err; [done|]. auto.
  - destruct Hp as (Hd & _ & [->|(Hdel & Hn & w & ->)]); [by apply elem_of_nil in He|].
    apply list_elem_of_singleton in He as ->. split; [done|]. ev_simpl. by rewrite Hdel.
Qed.
End SharePass.

(** C9: The agent formats only a blank device.  In a pass over a share, mkfs
    runs only on the device the operator placed there, after a probe of that
    device in the same pass printed no file system; a mount is of that device,
    at this share's mount point, and only with xfs found or just made; an
    unmount is of this share's mount point.  A share that is being deleted,
    placed elsewhere or without a device is neither formatted nor mounted. *)
Theorem share_mkfs_safe `{SliceSort} `{K8sMeta} NodeName Root req s tr r :
  runs (ShareAgent_Reconcile NodeName Root req) (Ev (Get KShare req) (inr s) :: tr) r →
  lawful (share_allowed s) tr ∧
  ∀ e n a, e ∈ tr → cmd_of e = Some (n, a) → n = "mkfs.xfs" ∨ n = "mount" → share_here NodeName s = true.
Proof.
  intros Hr. destruct (wp_runs _ _ _ _ (wp_ShareAgent_Reconcile NodeName Root req) Hr) as (g & tr' & Heq & Hp).
  apply get_head_inj in Heq as [<- <-]. destruct Hp as (t1 & t2 & -> & Hs & L & Hp).
  assert (∀ e, e ∈ t2 → cmd_of e = None) as Hquiet.
  { intros e He. destruct (share_here NodeName s); [destruct Hp as (? & ? & -> & _)|
      destruct Hp as (_ & _ & [->|(_ & _ & ? & ->)])]; split_in; done. }
  split.
  - apply lawful_app; [apply share_allowed_mono|done|]. apply harmless_lawful. rewrite Forall_forall.
    intros e He n a Hc. by rewrite (Hquiet e He) in Hc.
  - intros e n a [He|He]%elem_of_app Hc Hn; [|by rewrite (Hquiet e He) in Hc].
    destruct (share_here NodeName s); [done|]. destruct Hp as (_ & Hm & _).
    destruct (Hm e n a He Hc). by destruct Hn.
Qed.

(** C31: What stands behind the agent's word on a share.  A status is the last
    thing a pass does, on the node the share is placed on.  HostReady with state
    [Exported] is written only after the placed device is mounted at the share's
    mount point, the NFS export file holds exactly the clients of the spec (or
    is gone), the kernel's export tables were reloaded and flushed and the samba
    include was rewritten from a listing of all shares, by steps that succeeded
    (a mount that findmnt already showed and an exports file already missing
    count); anything less is reported [Failed].  [Removed] is written only after the
    drop was attempted: stat failed on both the mount point and the exports file
    (the code takes any error for absence), or the unlink of the exports file,
    the reload of the export table and the unmount were run.  The code only logs
    their failure, so [Removed] does not say that they succeeded. *)
Theorem share_agent_status_sound `{SliceSort} `{K8sMeta} NodeName Root req tr r e p :
  runs (ShareAgent_Reconcile NodeName Root req) tr r → e ∈ tr → ev_status KShare e = Some p →
  ∃ s t1, tr = Ev (Get KShare req) (inr s) :: t1 ++ [e] ∧ share_verdict NodeName Root s p t1.
Proof.
  intros Hr He Hev.
  destruct (wp_runs _ _ _ _ (wp_ShareAgent_Reconcile NodeName Root req) Hr) as (g & tr' & -> & Hp).
  apply elem_of_cons in He as [->|He]; [done|]. destruct g as [err|s].
  - by rewrite (Hp KShare e He) in Hev.
  - destruct (share_pass_status _ _ _ _ _ _ Hp He Hev) as (t1 & -> & Hv). eauto.
Qed.

(** Two shares of different namespaces can have one mount point, so tearing
    one down unmounts the other. *)
Lemma mount_point_collision : mountPoint "a-b" "c" = mountPoint "a" "b-c".
Proof. reflexivity. Qed.

(** ** Witnesses *)
Section Witness.
#[local] Existing Instance RefMeta.meta.
#[local] Existing Instance insertion_slice_sort.
Definition demo_share_here : Share :=
  {| sh_meta := demo_meta "docs" [] None; sh_ClaimName := "docs"; sh_NFS := Some {| nfs_Clients := ["10.0.0.0/8(rw)"] |};
     sh_SMB := Some {| smb_Name := ""; smb_ValidUsers := ["u"] |}; sh_Conditions := []; sh_Node := "n1";
     sh_Device := "/dev/drbd1"; sh_State := "" |}.
(** A fresh device: findmnt finds nothing, blkid prints nothing. *)
Definition demo_share_env : env op unit :=
  demo_env (λ n a, if bool_decide (n = "findmnt") then ("", Some (errorf "exit 1")) else ("", None))
    (λ k _, match k return error + obj k with
            | KShare => inr demo_share_here
            | _ => inl (Err "not found" KNotFound)
            end)
    (λ k, match k return list (obj k) with KShare => [demo_share_here] | _ => [] end).
Definition demo_share_run : reconcile * trace op * unit :=
  run demo_share_env (ShareAgent_Reconcile "n1" "" (NN "" "docs")) tt.

Example demo_share_formats : runs_cmd (λ n _, bool_decide (n = "mkfs.xfs")) <$> demo_share_run.1.2 !! 3%nat = Some true.
Proof. vm_compute. reflexivity. Qed.

(** The best effort of the drop, in a run: the share is found, every command
    fails, and the pass still ends with [Removed]. *)
Definition demo_share_gone : Share :=
  {| sh_meta := demo_meta "docs" [] (Some 1%Z); sh_ClaimName := "docs"; sh_NFS := None; sh_SMB := None;
     sh_Conditions := []; sh_Node := "n1"; sh_Device := "/dev/drbd1"; sh_State := "Exported" |}.
Definition demo_share_stuck : env op unit :=
  demo_env (λ _ _, ("", Some (errorf "boom")))
    (λ k _, match k return error + obj k with
            | KShare => inr demo_share_gone
            | _ => inl (Err "not found" KNotFound)
            end) list_none.
Definition demo_share_stuck_run : reconcile * trace op * unit :=
  run demo_share_stuck (ShareAgent_Reconcile "n1" "" (NN "" "docs")) tt.
Example removed_though_umount_failed :
  seen "umount" [share_mnt demo_share_gone] (λ _ err, err ≠ None) demo_share_stuck_run.1.2 ∧
  (Ev (StatusUpdate KShare (sh_set_state demo_share_gone [] "Removed")) None : event op) ∈ demo_share_stuck_run.1.2 ∧
  demo_share_stuck_run.1.1.2 = None.
Proof.
  split_and!; [| |vm_compute; reflexivity].
  - eexists _, _, _. split_and!; [apply list_elem_of_In; vm_compute; do 4 right; left; reflexivity|reflexivity|done].
  - apply list_elem_of_In. vm_compute. tauto.
Qed.

Lemma share_mkfs_safe_witness :
  lawful (share_allowed demo_share_here) (tail demo_share_run.1.2) ∧
  ∀ e n a, e ∈ tail demo_share_run.1.2 → cmd_of e = Some (n, a) → n = "mkfs.xfs" ∨ n = "mount" →
    share_here "n1" demo_share_here = true.
Proof.
  apply (share_mkfs_safe "n1" "" (NN "" "docs") demo_share_here _ demo_share_run.1.1).
  exact (run_runs demo_share_env (ShareAgent_Reconcile "n1" "" (NN "" "docs")) tt).
Defined.

Lemma share_agent_status_sound_witness :
  ∃ s t1, demo_share_run.1.2 = Ev (Get KShare (NN "" "docs")) (inr s) :: t1 ++
      [Ev (StatusUpdate KShare (share_reported demo_share_here None)) None] ∧
    share_verdict "n1" "" s (share_reported demo_share_here None) t1.
Proof.
  apply (share_agent_status_sound "n1" "" (NN "" "docs") _ _ _ _
    (run_runs demo_share_env (ShareAgent_Reconcile "n1" "" (NN "" "docs")) tt)).
  - apply list_elem_of_In. vm_compute. tauto.
  - exact (as_kind_refl KShare _).
Defined.
End Witness.
