(* ===== verification/Inventory.v ===== *)
(** * internal/agent/inventory.go: the disks a node offers

    The publisher's fields are threaded through its methods; the SMART store
    it shares with the pool reconciler is one of them, as it is the store's
    only writer.  A [time.Time] that may be zero is an option. *)

From Stdlib Require Import Ascii.
From S2P Require Import Prelude GoStrings Prog ApiTypes Effects Demo Mdraid Smart.
Open Scope Z_scope.

Record BlockDevice := {
  bd_Path : string; bd_Model : string; bd_Serial : string; bd_Size : Z; bd_Rota : bool; bd_Type : string;
}.
Class LsblkParse := { json_lsblk : string → error + list BlockDevice }.

Record InventoryPublisher := {
  ip_Node : string;
  ip_MD : bool;
  ip_Smart : option SmartStore;
  ip_lastSweep : option Z;
  ip_lastDisks : list Disk;
  ip_lastWrite : option Z;
}.
Definition minute : Z := 60 * second.
Definition inventoryInterval : Z := minute.
Definition inventoryHeartbeat : Z := 5 * minute.
Definition smartInterval : Z := 5 * minute.
(** [time.Since]: of the zero time it is the largest duration. *)
Definition maxDuration : Z := 2 ^ 63 - 1.
Definition Since (now : Z) (t : option Z) : Z := match t with Some t => now - t | None => maxDuration end.

Definition splitLines (s : string) : list string := filter (λ t, t ≠ "") (TrimSpace <$> SplitLines s).

(** ** byIDAliases *)
Definition better (name cur : string) : bool :=
  if bool_decide (cur = "") then true
  else let nw := HasPrefix name "wwn-" in
       let cw := HasPrefix cur "wwn-" in
       if bool_decide (nw ≠ cw) then nw else str_ltb name cur.
(** The kernel path and the alias a line of [find] names. *)
Definition alias_line (line : string) : option (string * string) :=
  let '(name, target, ok) := Cut line " "%char in
  if negb ok || HasPrefix name "lvm-pv-uuid-" then None
  else Some ("/dev/" +:+ sdrop (match LastIndexByte target slash with Some i => S i | None => 0%nat end) target, name).
Definition note_alias (best : gmap string string) (line : string) : gmap string string :=
  match alias_line line with
  | None => best
  | Some (kernel, name) => if better name (mget best kernel) then <[kernel := name]> best else best
  end.
Definition by_id : string := "/dev/disk/by-id/".
Definition aliases_of (out : string) : gmap string string :=
  (λ name, by_id +:+ name) <$> foldl note_alias ∅ (splitLines out).
Definition find_args : list string := ["/dev/disk/by-id"; "-maxdepth"; "1"; "-type"; "l"; "-printf"; "%f %l" +:+ nl].
Definition byIDAliases : io (gmap string string) :=
  let! r := call (Run "find" find_args) in
  Ret (match r.2 with Some _ => ∅ | None => aliases_of r.1 end).

(** ** Collect *)
Definition disk_path (aliases : gmap string string) (d : BlockDevice) : string :=
  let a := mget aliases (bd_Path d) in if bool_decide (a = "") then bd_Path d else a.
(** The swept verdict of one disk: an Unknown one only fills a gap. *)
Definition note_smart (store : SmartStore) (info : SmartInfo) (kernel path : string) : SmartStore :=
  if bool_decide (si_Verdict info ≠ "Unknown") then Smart_Put store info [kernel; path]
  else match Smart_Get store kernel with
       | Some _ => store
       | None => Smart_Put store info [kernel; path]
       end.
Definition disk_of (claimed : gset string) (path : string) (info : option SmartInfo) (d : BlockDevice) : Disk :=
  {| dk_Path := path; dk_Model := bd_Model d; dk_Serial := bd_Serial d; dk_Size := Some (bd_Size d);
     dk_Rotational := bd_Rota d; dk_Claimed := bget claimed (bd_Path d);
     dk_Smart := match info with Some i => si_Verdict i | None => "" end;
     dk_TempCelsius := i ← info; si_TempCelsius i; dk_PowerOnHours := i ← info; si_PowerOnHours i |}.

Section Publisher.
Context `{SmartParse} `{LsblkParse}.

(** One whole disk. *)
Definition collect_disk (sweep : bool) (claimed : gset string) (aliases : gmap string string)
    (store : option SmartStore) (d : BlockDevice) : io (option SmartStore * Disk) :=
  let path := disk_path aliases d in
  match store with
  | None => Ret (None, disk_of claimed path None d)
  | Some st =>
      let! st' := (if sweep then
                     let! info := CheckSmart (bd_Path d) in
                     Ret (note_smart st info (bd_Path d) path)
                   else Ret st) in
      Ret (Some st', disk_of claimed path (Smart_Get st' (bd_Path d)) d)
  end.
Fixpoint collect_disks (sweep : bool) (claimed : gset string) (aliases : gmap string string)
    (store : option SmartStore) (ds : list BlockDevice) : io (option SmartStore * list Disk) :=
  match ds with
  | [] => Ret (store, [])
  | d :: ds' =>
      if bool_decide (bd_Type d ≠ "disk") then collect_disks sweep claimed aliases store ds'
      else
        let! (store', disk) := collect_disk sweep claimed aliases store d in
        let! (store'', disks) := collect_disks sweep claimed aliases store' ds' in
        Ret (store'', disk :: disks)
  end.

Definition lsblk_args : list string := ["--json"; "-b"; "-d"; "-o"; "PATH,MODEL,SERIAL,SIZE,ROTA,TYPE"].
Definition inventory_pvs_args : list string := ["--noheadings"; "-o"; "pv_name"].

Definition ip_swept (p : InventoryPublisher) (last : option Z) (store : option SmartStore) : InventoryPublisher :=
  {| ip_Node := ip_Node p; ip_MD := ip_MD p; ip_Smart := store; ip_lastSweep := last;
     ip_lastDisks := ip_lastDisks p; ip_lastWrite := ip_lastWrite p |}.

Definition Collect (p : InventoryPublisher) : io (InventoryPublisher * (error + list Disk)) :=
  let! lsblk := call (Run "lsblk" lsblk_args) in
  match lsblk.2 with
  | Some e => Ret (p, inl e)
  | None =>
  match json_lsblk lsblk.1 with
  | inl e => Ret (p, inl (wrapf "parse lsblk: " e))
  | inr rep =>
  let! pvs := call (Run "pvs" inventory_pvs_args) in
  match pvs.2 with
  | Some e => Ret (p, inl e)
  | None =>
      let! members := (if ip_MD p then MD_Members else Ret ∅) in
      let claimed : gset string := list_to_set (splitLines pvs.1) ∪ members in
      let! sweep := (match ip_Smart p with
                     | None => Ret false
                     | Some _ => let! now := call Now in Ret (smartInterval <=? Since now (ip_lastSweep p))
                     end) in
      let! last := (if sweep then let! now := call Now in Ret (Some now) else Ret (ip_lastSweep p)) in
      let! aliases := byIDAliases in
      let! (store, disks) := collect_disks sweep claimed aliases (ip_Smart p) rep in
      Ret (ip_swept p last store, inr disks)
  end end end.

(** ** publish and Start *)
Definition inv_named (node : string) : NodeInventory :=
  {| inv_meta := {| Name := node; Namespace := ""; Generation := 0; ResourceVersion := ""; DeletionTimestamp := None;
                    Finalizers := []; Annotations := ∅; Labels := ∅ |};
     inv_Disks := []; inv_ObservedAt := None |}.
Definition ip_written (p : InventoryPublisher) (disks : list Disk) (now : Z) : InventoryPublisher :=
  {| ip_Node := ip_Node p; ip_MD := ip_MD p; ip_Smart := ip_Smart p; ip_lastSweep := ip_lastSweep p;
     ip_lastDisks := disks; ip_lastWrite := Some now |}.
(** Get, or Create when the object is missing. *)
Definition ensure_inventory (node : string) : io (error + NodeInventory) :=
  let! g := call (Get KNodeInventory (NN "" node)) in
  match g with
  | inr inv => Ret (inr inv)
  | inl e => if IsNotFound (Some e) then call (Create KNodeInventory (inv_named node)) else Ret (inl e)
  end.
Definition inventory_write (p : InventoryPublisher) (disks : list Disk) : io (InventoryPublisher * option error) :=
  let! g := ensure_inventory (ip_Node p) in
  match g with
  | inl e => Ret (p, Some e)
  | inr inv =>
      let! now := call Now in
      let! u := call (StatusUpdate KNodeInventory {| inv_meta := inv_meta inv; inv_Disks := disks; inv_ObservedAt := Some now |}) in
      match u with
      | Some e => Ret (p, Some e)
      | None => let! now' := call Now in Ret (ip_written p disks now', None)
      end
  end.
Definition inventory_publish (p : InventoryPublisher) : io (InventoryPublisher * option error) :=
  let! (p', c) := Collect p in
  match c with
  | inl e => Ret (p', Some e)
  | inr disks =>
      if bool_decide (disks = ip_lastDisks p') then
        let! now := call Now in
        if Since now (ip_lastWrite p') <? inventoryHeartbeat then Ret (p', None) else inventory_write p' disks
      else inventory_write p' disks
  end.
(** The first [n] ticks of [Start]. *)
Fixpoint inventory_rounds (n : nat) (p : InventoryPublisher) : io InventoryPublisher :=
  match n with
  | O => Ret p
  | S n' => let! (p', _) := inventory_publish p in inventory_rounds n' p'
  end.
End Publisher.

(** ** Aliases *)
Lemma better_irrefl n : n ≠ "" → better n n = false.
Proof.
  intros Hn. unfold better. rewrite !bool_decide_eq_false_2 by naive_solver. apply str_ltb_irrefl.
Qed.
Lemma better_ne n c : c ≠ "" → better n c =
  (HasPrefix n "wwn-" && negb (HasPrefix c "wwn-")) || (eqb (HasPrefix n "wwn-") (HasPrefix c "wwn-") && str_ltb n c).
Proof.
  intros Hc. unfold better. rewrite (bool_decide_eq_false_2 (c = "")) by done.
  destruct (HasPrefix n "wwn-"), (HasPrefix c "wwn-"); by rewrite ?orb_false_r.
Qed.
Lemma better_trans a b c : b ≠ "" → c ≠ "" → better a b = true → better b c = true → better a c = true.
Proof.
  intros Hb Hc. rewrite !better_ne by done.
  destruct (HasPrefix a "wwn-"), (HasPrefix b "wwn-"), (HasPrefix c "wwn-"); cbn; try done. apply str_ltb_trans.
  apply str_ltb_trans.
Qed.
Lemma better_total a b : a ≠ "" → b ≠ "" → a = b ∨ better a b = true ∨ better b a = true.
Proof.
  intros Ha Hb. rewrite !better_ne by done.
  destruct (HasPrefix a "wwn-"), (HasPrefix b "wwn-"); cbn; auto;
    (destruct (str_ltb a b) eqn:E, (str_ltb b a) eqn:E'; auto; left; by apply str_ltb_total).
Qed.

(** A trimmed line does not start with a space. *)
Lemma TrimLeft_head s c r : TrimLeftSpace s = String c r → is_space c = false.
Proof. induction s as [|d s IH]; cbn; [done|]. destruct (is_space d) eqn:E; [done|]. by intros [= <- _]. Qed.
Lemma TrimRight_head f s c r : TrimRightFunc f s = String c r → ∃ r', s = String c r'.
Proof. destruct s as [|d s]; cbn; [done|]. repeat case_match; intros [=]; subst; eauto. Qed.
Lemma TrimSpace_head s c r : TrimSpace s = String c r → is_space c = false.
Proof. intros (r' & E)%TrimRight_head. by apply TrimLeft_head in E. Qed.
Lemma splitLines_head out line : line ∈ splitLines out → ∃ c r, line = String c r ∧ is_space c = false.
Proof.
  intros [Hne (s & -> & _)%list_elem_of_fmap]%list_elem_of_filter.
  destruct (TrimSpace s) as [|c r] eqn:E; [done|]. exists c, r. split; [done|]. by eapply TrimSpace_head.
Qed.
Lemma alias_line_named out line k n : line ∈ splitLines out → alias_line line = Some (k, n) → n ≠ "".
Proof.
  intros (c & r & -> & Hc)%splitLines_head. unfold alias_line.
  destruct (Cut (String c r) " "%char) as [[name target] ok] eqn:E. destruct (_ || _) eqn:Hok; [done|].
  intros [= _ <-] ->. cbn in E. destruct (ch_eqb c " "%char) eqn:Hsp.
  - apply ch_eqb_eq in Hsp as ->. done.
  - destruct (Cut r " "%char) as [[]]. congruence.
Qed.

(** The names [find] lists for a kernel path. *)
Definition alias_names (lines : list string) (k : string) : list string :=
  omap (λ line, match alias_line line with Some (k', n) => if bool_decide (k' = k) then Some n else None | None => None end) lines.
Definition best_of (ns : list string) (o : option string) : Prop :=
  match o with
  | None => ns = []
  | Some n => n ∈ ns ∧ ∀ m, m ∈ ns → m ≠ n → better n m = true
  end.
Lemma best_of_unique ns n n' : (∀ m, m ∈ ns → m ≠ "") → best_of ns (Some n) → best_of ns (Some n') → n = n'.
Proof.
  intros Hne [Hn Hb] [Hn' Hb']. destruct (decide (n = n')) as [|Hd]; [done|].
  pose proof (better_trans n n' n (Hne _ Hn') (Hne _ Hn) (Hb n' Hn' (not_eq_sym Hd)) (Hb' n Hn Hd)) as Hbad.
  by rewrite better_irrefl in Hbad by auto.
Qed.

Lemma alias_names_snoc lines line k :
  alias_names (lines ++ [line]) k = alias_names lines k ++
    match alias_line line with Some (k', n) => if bool_decide (k' = k) then [n] else [] | None => [] end.
Proof.
  unfold alias_names. rewrite omap_app. f_equal. cbn. destruct (alias_line line) as [[k' n]|]; [|done]. by case_bool_decide.
Qed.
Lemma best_of_snoc ns o n :
  n ≠ "" → (∀ m, m ∈ ns → m ≠ "") → best_of ns o →
  best_of (ns ++ [n]) (if better n (default "" o) then Some n else o).
Proof.
  intros Hn Hne. destruct o as [c|]; cbn; [|intros ->; split; set_solver].
  intros [Hc Hb]. destruct (better n c) eqn:E.
  - split; [set_solver|]. intros m [Hm|Hm%list_elem_of_singleton]%elem_of_app Hd; [|done].
    destruct (decide (m = c)) as [->|Hmc]; [done|]. apply (better_trans n c m); auto.
  - split; [set_solver|]. intros m [Hm| ->%list_elem_of_singleton]%elem_of_app Hd; [auto|].
    destruct (better_total n c) as [|[|]]; auto; congruence.
Qed.
Lemma alias_names_named lines k m :
  (∀ line k n, line ∈ lines → alias_line line = Some (k, n) → n ≠ "") → m ∈ alias_names lines k → m ≠ "".
Proof.
  intros Hne (l & Hl & E)%list_elem_of_omap. destruct (alias_line l) as [[k' n]|] eqn:El; [|done].
  case_bool_decide; simplify_eq. by eapply Hne.
Qed.
Lemma note_alias_best lines k :
  (∀ line k n, line ∈ lines → alias_line line = Some (k, n) → n ≠ "") →
  best_of (alias_names lines k) (foldl note_alias ∅ lines !! k).
Proof.
  induction lines as [|line lines IH] using rev_ind; intros Hne; [done|].
  assert (∀ l k n, l ∈ lines → alias_line l = Some (k, n) → n ≠ "") as Hne' by (intros ????; eapply Hne; set_solver).
  specialize (IH Hne').
  rewrite alias_names_snoc, foldl_app. cbn [foldl]. unfold note_alias at 1.
  destruct (alias_line line) as [[k' n]|] eqn:El; [|by rewrite app_nil_r].
  case_bool_decide as Hk; [subst k'|].
  - assert (n ≠ "") as Hn by (eapply Hne; [|done]; set_solver).
    pose proof (best_of_snoc _ _ n Hn (λ m, alias_names_named lines k m Hne') IH) as Hb. unfold mget.
    destruct (better n _); [by rewrite lookup_insert_eq|done].
  - rewrite app_nil_r. destruct (better n _); [by rewrite lookup_insert_ne|done].
Qed.

(** [byIDAliases] picks, for each kernel path, the one best name [find]
    listed for it: a wwn- name if there is one, then the alphabetically first,
    never an lvm-pv-uuid- one; the order of the lines does not matter. *)
Theorem aliases_best out k a :
  aliases_of out !! k = Some a ↔ ∃ n, a = by_id +:+ n ∧ best_of (alias_names (splitLines out) k) (Some n).
Proof.
  unfold aliases_of. rewrite lookup_fmap.
  pose proof (note_alias_best (splitLines out) k ltac:(eauto using alias_line_named)) as Hb.
  split.
  - destruct (_ !! k) as [n|]; [|done]. intros [= <-]. eauto.
  - intros (n & -> & Hn). destruct (_ !! k) as [n'|].
    + cbn. do 2 f_equal. eapply best_of_unique; [|done..].
      intros m. apply alias_names_named. eauto using alias_line_named.
    + cbn in Hb. rewrite Hb in Hn. destruct Hn as [Hn%elem_of_nil _]. done.
Qed.

(** ** Passes *)
(** The row of [lsblk] a published disk shows. *)
Record reports (claimed : gset string) (aliases : gmap string string) (d : BlockDevice) (disk : Disk) : Prop := {
  rp_path : dk_Path disk = disk_path aliases d;
  rp_claimed : dk_Claimed disk = bool_decide (bd_Path d ∈ claimed);
  rp_model : dk_Model disk = bd_Model d;
  rp_serial : dk_Serial disk = bd_Serial d;
  rp_size : dk_Size disk = Some (bd_Size d);
  rp_rota : dk_Rotational disk = bd_Rota d;
}.
Lemma disk_of_reports claimed aliases info d : reports claimed aliases d (disk_of claimed (disk_path aliases d) info d).
Proof. by split. Qed.

(** A verdict other than Unknown under a kernel path stays one. *)
Definition known_verdict (s : SmartStore) (q : string) : Prop := ∃ i, s !! q = Some i ∧ si_Verdict i ≠ "Unknown".
Definition keeps (s s' : SmartStore) : Prop := ∀ q, HasPrefix q by_id = false → known_verdict s q → known_verdict s' q.
Definition keeps_opt (s s' : option SmartStore) : Prop :=
  match s, s' with Some a, Some b => keeps a b | None, None => True | _, _ => False end.
Definition stable (aliases : gmap string string) : Prop := ∀ k a, aliases !! k = Some a → HasPrefix a by_id = true.

Lemma aliases_of_stable out : stable (aliases_of out).
Proof. intros k a. unfold aliases_of. rewrite lookup_fmap. destruct (_ !! k); intros [= <-]. apply HasPrefix_app. Qed.
Lemma keeps_opt_refl s : keeps_opt s s.
Proof. destruct s; [by intros ??|done]. Qed.
Lemma keeps_opt_trans a b c : keeps_opt a b → keeps_opt b c → keeps_opt a c.
Proof. destruct a, b, c; cbn; try done. unfold keeps. eauto. Qed.
Lemma note_smart_keeps aliases st info d :
  stable aliases → keeps st (note_smart st info (bd_Path d) (disk_path aliases d)).
Proof.
  intros Hst q Hq (i & Hi & Hv).
  assert (q ∈ [bd_Path d; disk_path aliases d] → q = bd_Path d) as Hpath.
  { intros [|[->|[]%elem_of_nil]%elem_of_cons]%elem_of_cons; [done|]. unfold disk_path in *. case_bool_decide as E; [done|].
    unfold mget in *. destruct (aliases !! _) as [a|] eqn:Ea; [|done]. cbn in Hq. by rewrite (Hst _ _ Ea) in Hq. }
  unfold note_smart, known_verdict. case_bool_decide as Hu.
  - fold (Smart_Get (Smart_Put st info [bd_Path d; disk_path aliases d]) q). rewrite Smart_Get_Put. case_bool_decide; eauto.
  - destruct (Smart_Get st (bd_Path d)) as [j|] eqn:Ej; [eauto|].
    fold (Smart_Get (Smart_Put st info [bd_Path d; disk_path aliases d]) q). rewrite Smart_Get_Put.
    case_bool_decide as Hin; [|eauto]. destruct Hin as [->%Hpath _]. unfold Smart_Get in Ej. congruence.
Qed.

Definition is_smartctl (e : event op) : Prop := match cmd_of e with Some (n, _) => n = "smartctl" | None => False end.
(** The clock was read at [now]. *)
Definition clock (now : Z) (tr : trace op) : Prop := Ev Now now ∈ tr.

Section Passes.
Context `{SmartParse} `{LsblkParse}.

Lemma wp_CheckSmart dev : wp (CheckSmart dev) (λ tr _, Forall is_smartctl tr).
Proof. unfold CheckSmart. wp_go; repeat constructor; done. Qed.

Lemma wp_collect_disks sweep claimed aliases store ds :
  stable aliases →
  wp (collect_disks sweep claimed aliases store ds) (λ tr r,
    Forall2 (reports claimed aliases) (filter (λ d, bd_Type d = "disk") ds) r.2 ∧ keeps_opt store r.1 ∧
    Forall is_smartctl tr ∧ (sweep = false → tr = [])).
Proof.
  intros Hst. revert store. induction ds as [|d ds IH]; intros store; cbn [collect_disks].
  { cbn. auto using keeps_opt_refl. }
  case_bool_decide as Ht; [rewrite filter_cons_False by done; apply IH|].
  rewrite filter_cons_True by done. apply wp_bind_2.
  assert (wp (collect_disk sweep claimed aliases store d) (λ tr r,
    reports claimed aliases d r.2 ∧ keeps_opt store r.1 ∧ Forall is_smartctl tr ∧ (sweep = false → tr = []))) as Hd.
  { unfold collect_disk. destruct store as [st|]; [|cbn; split_and!; [apply disk_of_reports|done..]].
    destruct sweep; [|cbn; split_and!; [apply disk_of_reports|by intros ??|done..]].
    apply wp_bind_2, wp_bind_2. eapply wp_mono; [apply wp_CheckSmart|]. intros tr info Htr. cbn. rewrite !app_nil_r.
    split_and!; [apply disk_of_reports|by apply note_smart_keeps|done..]. }
  eapply wp_mono; [exact Hd|]. intros t1 [st1 disk] (Hr & Hk & Hs & Hn). cbn.
  apply wp_bind_2. eapply wp_mono; [apply IH|]. intros t2 [st2 disks] (Hr' & Hk' & Hs' & Hn'). cbn.
  rewrite app_nil_r. split_and!; [by constructor|by eapply keeps_opt_trans|by apply Forall_app|].
  intros E. by rewrite Hn, Hn'.
Qed.

(** The device set of a sweep: what [pvs] and /proc/mdstat named. *)
Definition ran (name : string) (args : list string) (out : string) : trace op → Prop := seen name args (λ o e, o = out ∧ e = None).
Definition members_read (p : InventoryPublisher) (members : gset string) (tr : trace op) : Prop :=
  if ip_MD p then seen "cat" ["/proc/mdstat"] (λ o e, members = match e with Some _ => ∅ | None => mdstat_members o end) tr
  else members = ∅.
(** [disks] are the whole disks [lsblk] listed in [tr], claimed exactly when
    this pass's [pvs] or mdstat named them. *)
Definition collected (p : InventoryPublisher) (tr : trace op) (disks : list Disk) : Prop :=
  ∃ out rep pvout members aliases,
    ran "lsblk" lsblk_args out tr ∧ json_lsblk out = inr rep ∧
    ran "pvs" inventory_pvs_args pvout tr ∧ members_read p members tr ∧
    seen "find" find_args (λ o e, aliases = match e with Some _ => ∅ | None => aliases_of o end) tr ∧
    Forall2 (reports (list_to_set (splitLines pvout) ∪ members) aliases) (filter (λ d, bd_Type d = "disk") rep) disks.
(** Fields a sweep leaves alone. *)
Definition same_writes (p p' : InventoryPublisher) : Prop :=
  ip_Node p' = ip_Node p ∧ ip_MD p' = ip_MD p ∧ ip_lastDisks p' = ip_lastDisks p ∧ ip_lastWrite p' = ip_lastWrite p.
Definition swept_when_due (p : InventoryPublisher) (tr : trace op) : Prop :=
  ∀ e, e ∈ tr → is_smartctl e → ∃ now, clock now tr ∧ smartInterval ≤ Since now (ip_lastSweep p).

Lemma collected_app p tr tr' disks : collected p tr disks → collected p (tr ++ tr') disks.
Proof.
  intros (out & rep & pvout & members & aliases & H1 & H2 & H3 & H4 & H5 & H6).
  exists out, rep, pvout, members, aliases. unfold ran, members_read in *.
  split_and!; try done; [by apply seen_app_l..| |by apply seen_app_l].
  destruct (ip_MD p); [by apply seen_app_l|done].
Qed.

(** Commands other than [smartctl], and clock readings. *)
Definition aside (e : event op) : Prop :=
  match e with Ev o _ => match o with Run n _ => n ≠ "smartctl" | Now => True | _ => False end end.
Lemma aside_not_smart e : aside e → ¬ is_smartctl e.
Proof. destruct e as [X [] x]; cbn; tauto. Qed.
Lemma aside_quiet e : aside e → ev_status KNodeInventory e = None.
Proof. by destruct e as [X [] x]. Qed.
Lemma smartctl_quiet e : is_smartctl e → ev_status KNodeInventory e = None.
Proof. by destruct e as [X [] x]. Qed.

Record sweep_ok (p : InventoryPublisher) (tr : trace op) (p' : InventoryPublisher) : Prop := {
  sw_same : same_writes p p';
  sw_kept : keeps_opt (ip_Smart p) (ip_Smart p');
  sw_due : swept_when_due p tr;
  sw_quiet : ∀ e, e ∈ tr → ev_status KNodeInventory e = None;
}.
(** A trace of a pass: steps aside, then the sweep if it is due. *)
Lemma sweep_ok_intro p p' t1 t2 :
  same_writes p p' → keeps_opt (ip_Smart p) (ip_Smart p') → Forall aside t1 → Forall is_smartctl t2 →
  (t2 ≠ [] → ∃ now, clock now t1 ∧ smartInterval ≤ Since now (ip_lastSweep p)) → sweep_ok p (t1 ++ t2) p'.
Proof.
  intros Hs Hk H1 H2 Hdue. rewrite Forall_forall in H1, H2. split; try done.
  - intros e [He|He]%elem_of_app Hc; [by destruct (aside_not_smart e (H1 e He))|].
    destruct Hdue as (now & ? & ?); [by intros ->; apply elem_of_nil in He|]. exists now. split; [|done]. unfold clock in *. set_solver.
  - intros e [He|He]%elem_of_app; [by apply aside_quiet, H1|by apply smartctl_quiet, H2].
Qed.
Lemma sweep_ok_aside p t : Forall aside t → sweep_ok p t p.
Proof.
  intros Ht. rewrite <- (app_nil_r t). by apply sweep_ok_intro; auto using keeps_opt_refl.
Qed.

Lemma wp_members p :
  wp (if ip_MD p then MD_Members else Ret ∅) (λ t m, members_read p m t ∧ Forall aside t).
Proof.
  unfold members_read, MD_Members. destruct (ip_MD p); [|done]. wp_go; outs; (split; [|by repeat constructor]).
  all: eapply seen_here; [done|done].
Qed.
Lemma wp_due p :
  wp (match ip_Smart p with
      | None => Ret false
      | Some _ => let! now := call Now in Ret (smartInterval <=? Since now (ip_lastSweep p))
      end) (λ t b, Forall aside t ∧ (b = true → ∃ now, clock now t ∧ smartInterval ≤ Since now (ip_lastSweep p))).
Proof.
  destruct (ip_Smart p); [|done]. cbn. intros now. split; [by repeat constructor|].
  intros ?%Z.leb_le. exists now. split; [left|done].
Qed.
Lemma wp_aliases :
  wp byIDAliases (λ t a, stable a ∧ Forall aside t ∧
    seen "find" find_args (λ o e, a = match e with Some _ => ∅ | None => aliases_of o end) t).
Proof.
  unfold byIDAliases. cbn. intros [o [e|]]; (split_and!; [|by repeat constructor|by eapply seen_here]); cbn.
  - by intros k a.
  - apply aliases_of_stable.
Qed.

Lemma wp_Collect p : wp (Collect p) (λ tr r,
  sweep_ok p tr r.1 ∧ match r.2 with inl _ => True | inr disks => collected p tr disks end).
Proof.
  unfold Collect. cbn [bind call wp]. intros [out [e|]]; cbn [snd fst].
  { split; [|done]. apply sweep_ok_aside. by repeat constructor. }
  destruct (json_lsblk out) as [e|rep] eqn:Hrep.
  { split; [|done]. apply sweep_ok_aside. by repeat constructor. }
  cbn [bind call wp]. intros [pvout [e|]]; cbn [snd fst].
  { split; [|done]. apply sweep_ok_aside. by repeat constructor. }
  apply wp_bind_2. eapply wp_mono; [apply wp_members|]. intros t1 members [Hm A1].
  apply wp_bind_2. eapply wp_mono; [apply wp_due|]. intros t2 sweep [A2 Hdue].
  apply wp_bind_2. apply (wp_mono _ (λ t _, Forall aside t)).
  { destruct sweep; cbn; by repeat constructor. }
  intros t3 last A3.
  apply wp_bind_2. eapply wp_mono; [apply wp_aliases|]. intros t4 aliases (Hst & A4 & Hf).
  apply wp_bind_2. eapply wp_mono; [by apply wp_collect_disks|]. intros t5 [store disks] (Hr & Hk & A5 & Hn). cbn.
  rewrite app_nil_r.
  set (t0 := [Ev (Run "lsblk" lsblk_args) (out, None); Ev (Run "pvs" inventory_pvs_args) (pvout, None)]).
  match goal with |- context [?a :: ?b :: ?t] => change (a :: b :: t) with (t0 ++ t) end.
  rewrite !(app_assoc _ _ t5). split.
  - rewrite app_assoc. apply sweep_ok_intro; [done|done| |done|].
    + rewrite !Forall_app. split_and!; [by repeat constructor|done..].
    + intros Ht5. destruct sweep; [|by destruct Ht5; apply Hn]. destruct (Hdue eq_refl) as (now & Hnow & Hs).
      exists now. split; [|done]. unfold clock in *. set_solver.
  - exists out, rep, pvout, members, aliases. unfold ran, members_read in *. split_and!; try done.
    + by eapply seen_here.
    + by eapply seen_there, seen_here.
    + destruct (ip_MD p); [|done]. by eauto 10 using seen_app_l, seen_app_r.
    + by eauto 10 using seen_app_l, seen_app_r.
Qed.

(** ** publish *)
Definition stale (p : InventoryPublisher) (disks : list Disk) (tr : trace op) : Prop :=
  disks ≠ ip_lastDisks p ∨ ∃ now, clock now tr ∧ inventoryHeartbeat ≤ Since now (ip_lastWrite p).
(** The status update [disks] were written with was accepted. *)
Definition accepted (disks : list Disk) (tr : trace op) : Prop :=
  ∃ inv, inv_Disks inv = disks ∧ Ev (StatusUpdate KNodeInventory inv) None ∈ tr.
(** How a pass ends. *)
Definition pass_end (p : InventoryPublisher) (disks : list Disk) (tr : trace op) (p' : InventoryPublisher) (r : option error) : Prop :=
  match r with
  | Some _ => ip_lastDisks p' = ip_lastDisks p ∧ ip_lastWrite p' = ip_lastWrite p
  | None => accepted disks tr ∧ ip_lastDisks p' = disks ∧ ∃ now, clock now tr ∧ ip_lastWrite p' = Some now
  end.

(** What the API server last accepted. *)
Definition ev_accepted (e : event op) : option (list Disk) :=
  match e with
  | Ev o x =>
      match o in op X return X → _ with
      | StatusUpdate _ inv => λ r, match r with None => inv_Disks <$> as_kind KNodeInventory inv | Some _ => None end
      | _ => λ _, None
      end x
  end.
Definition published (d : list Disk) (tr : trace op) : list Disk := foldl (λ d e, default d (ev_accepted e)) d tr.
Lemma published_app d t1 t2 : published d (t1 ++ t2) = published (published d t1) t2.
Proof. apply foldl_app. Qed.
Lemma published_quiet d tr : (∀ e, e ∈ tr → ev_status KNodeInventory e = None) → published d tr = d.
Proof.
  unfold published. induction tr as [|e tr IH]; intros Hq; cbn; [done|].
  assert (ev_accepted e = None) as ->.
  { assert (ev_status KNodeInventory e = None) as He by (apply Hq; left). destruct e as [X [] x]; try done. cbn in *.
    destruct x; [done|]. by rewrite He. }
  apply IH. intros. apply Hq. by right.
Qed.

Lemma wp_inventory_write p disks : wp (inventory_write p disks) (λ tr r,
  pass_end p disks tr r.1 r.2 ∧ ip_Smart r.1 = ip_Smart p ∧ ip_lastDisks r.1 = published (ip_lastDisks p) tr ∧
  ∀ e, e ∈ tr → ¬ is_smartctl e ∧ ∀ inv, ev_status KNodeInventory e = Some inv → inv_Disks inv = disks).
Proof.
  assert (wp (ensure_inventory (ip_Node p)) (λ tr _, ∀ e, e ∈ tr → ¬ is_smartctl e ∧ ev_status KNodeInventory e = None)) as He.
  { unfold ensure_inventory. wp_go; intros ev Hev; split_in; (split; [by intros []|done]). }
  unfold inventory_write. apply wp_bind_2. eapply wp_mono; [exact He|]. clear He. intros t1 [e|inv] H1.
  { cbn. rewrite app_nil_r. split_and!; [done..| |].
    - rewrite published_quiet; [done|]. intros ??. by apply H1.
    - intros x Hx. destruct (H1 x Hx) as [? ->]. done. }
  assert (∀ t, published (ip_lastDisks p) (t1 ++ t) = published (ip_lastDisks p) t) as Hp.
  { intros t. rewrite published_app, (published_quiet _ t1); [done|]. intros ??. by apply H1. }
  cbn. intros now [e|]; cbn.
  - split_and!; [done..|by rewrite Hp|]. intros x Hx. split_in; [destruct (H1 x Hx) as [? ->]; done|split; [by intros []|done]|split; [by intros []|]].
    intros inv'. cbn. kind_simpl. by intros [= <-].
  - intros now'. split; [|split; [done|split]].
    + split; [|split; [done|exists now'; split; [unfold clock; set_solver|done]]].
      eexists. split; [|apply elem_of_app; right; right; left]. done.
    + rewrite Hp. cbn. by kind_simpl.
    + intros x Hx. split_in; [destruct (H1 x Hx) as [? ->]; done|split; [by intros []|done]|split; [by intros []|]|split; [by intros []|done]].
      intros inv'. cbn. kind_simpl. by intros [= <-].
Qed.

Lemma swept_app p t1 t2 : swept_when_due p t1 → (∀ e, e ∈ t2 → ¬ is_smartctl e) → swept_when_due p (t1 ++ t2).
Proof.
  intros H1 H2 e [He|He]%elem_of_app Hs; [|by destruct (H2 e He)].
  destruct (H1 e He Hs) as (now & ? & ?). exists now. split; [unfold clock in *; set_solver|done].
Qed.
(** What a pass does to the object and to the publisher. *)
Record pass_ok (p : InventoryPublisher) (tr : trace op) (p' : InventoryPublisher) (r : option error) : Prop := {
  pk_kept : keeps_opt (ip_Smart p) (ip_Smart p');
  pk_due : swept_when_due p tr;
  pk_track : ip_lastDisks p' = published (ip_lastDisks p) tr;
  pk_written : ∀ e inv, e ∈ tr → ev_status KNodeInventory e = Some inv →
    collected p tr (inv_Disks inv) ∧ stale p (inv_Disks inv) tr;
  pk_end : match r with
           | Some _ => ip_lastDisks p' = ip_lastDisks p ∧ ip_lastWrite p' = ip_lastWrite p
           | None => collected p tr (ip_lastDisks p') ∧
               (accepted (ip_lastDisks p') tr ∨
                ip_lastDisks p' = ip_lastDisks p ∧ ip_lastWrite p' = ip_lastWrite p ∧
                ∃ now, clock now tr ∧ Since now (ip_lastWrite p) < inventoryHeartbeat)
           end;
}.

(** A pass that reaches the write. *)
Lemma wp_pass_write p p1 t1 disks :
  sweep_ok p t1 p1 → collected p t1 disks → stale p disks t1 →
  wp (inventory_write p1 disks) (λ t r, pass_ok p (t1 ++ t) r.1 r.2).
Proof.
  intros [(_ & _ & Hd & Hw) Hk Hdue Hq] Hc Hs. eapply wp_mono; [apply wp_inventory_write|].
  intros t [p' r] (Hend & Hsm & Htr & Hev). cbn in *. split.
  - by rewrite Hsm.
  - apply swept_app; [done|]. intros e He. by apply Hev.
  - by rewrite published_app, (published_quiet _ t1), Htr, Hd by done.
  - intros e inv [He|He]%elem_of_app Hst; [by rewrite Hq in Hst|]. destruct (Hev e He) as [_ ->%(λ h, h inv Hst)].
    split; [by apply collected_app|]. destruct Hs as [?|(now & ? & ?)]; [by left|right]. exists now. unfold clock in *. set_solver.
  - destruct r as [e|]; cbn in *; [destruct Hend; split; congruence|].
    destruct Hend as ((inv & Hi & Hin) & -> & _). split; [by apply collected_app|]. left. exists inv. set_solver.
Qed.
Lemma wp_inventory_publish p : wp (inventory_publish p) (λ tr r, pass_ok p tr r.1 r.2).
Proof.
  unfold inventory_publish. apply wp_bind_2. eapply wp_mono; [apply wp_Collect|]. intros t1 [p1 [e|disks]] [Hsw Hc]; cbn [fst snd] in *.
  { cbn. rewrite app_nil_r. destruct Hsw as [(_ & _ & Hd & Hw) Hk Hdue Hq]. split; try done.
    - by rewrite published_quiet.
    - intros e' inv He' Hst. by rewrite Hq in Hst. }
  pose proof (sw_same _ _ _ Hsw) as (_ & _ & Hd & Hw).
  case_bool_decide as Heq; [|apply wp_pass_write; [done..|left; congruence]].
  cbn [wp bind call]. intros now.
  assert (sweep_ok p (t1 ++ [Ev Now now]) p1) as Hsw'.
  { destruct Hsw as [Hsame Hk Hdue Hq]. split; try done.
    - apply swept_app; [done|]. intros e He. split_in. by intros [].
    - intros e [He|He]%elem_of_app; [by apply Hq|]. by split_in. }
  destruct (_ <? _) eqn:Hlt.
  - apply Z.ltb_lt in Hlt. cbn. destruct Hsw' as [_ Hk Hdue Hq]. split; try done.
    + by rewrite published_quiet.
    + intros e inv He Hst. by rewrite Hq in Hst.
    + rewrite <- Heq. split; [by apply collected_app|]. right. rewrite <- Hw. split_and!; [congruence|done|].
      exists now. unfold clock. split; [set_solver|done].
  - apply Z.ltb_ge in Hlt. eapply wp_mono; [apply (wp_pass_write p p1 (t1 ++ [Ev Now now]) disks)|].
    + done.
    + by apply collected_app.
    + right. exists now. rewrite <- Hw. unfold clock. split; [set_solver|done].
    + intros t r. cbv beta. by rewrite <- app_assoc.
Qed.

(** C34: the disks a pass writes to the node's inventory are the whole disks
    this pass's lsblk listed, under their best stable name, and one is offered
    as unclaimed only when this pass's pvs succeeded and did not list it (nor
    did the mdstat it read); and the write is due: the disks changed since the
    last accepted write, or that write is at least five minutes old. *)
Theorem inventory_truthful p tr p' r e inv :
  runs (inventory_publish p) tr (p', r) → e ∈ tr → ev_status KNodeInventory e = Some inv →
  collected p tr (inv_Disks inv) ∧ stale p (inv_Disks inv) tr.
Proof.
  intros Hr. pose proof (wp_runs _ _ _ _ (wp_inventory_publish p) Hr) as Hok. exact (pk_written _ _ _ _ Hok e inv).
Qed.

(** a pass that ends without error leaves the inventory showing the disks
    it collected: the write was accepted, or the same disks were written less
    than five minutes before; a failed pass leaves the publisher's record of
    the last write as it was. *)
Theorem inventory_fresh p tr p' r :
  runs (inventory_publish p) tr (p', r) →
  match r with
  | Some _ => ip_lastDisks p' = ip_lastDisks p ∧ ip_lastWrite p' = ip_lastWrite p
  | None => collected p tr (ip_lastDisks p') ∧
      (accepted (ip_lastDisks p') tr ∨
       ip_lastDisks p' = ip_lastDisks p ∧ ip_lastWrite p' = ip_lastWrite p ∧
       ∃ now, clock now tr ∧ Since now (ip_lastWrite p) < inventoryHeartbeat)
  end.
Proof.
  intros Hr. pose proof (wp_runs _ _ _ _ (wp_inventory_publish p) Hr) as Hok. exact (pk_end _ _ _ _ Hok).
Qed.

Lemma wp_inventory_rounds n p : wp (inventory_rounds n p) (λ tr p',
  ip_lastDisks p' = published (ip_lastDisks p) tr ∧ keeps_opt (ip_Smart p) (ip_Smart p')).
Proof.
  revert p. induction n as [|n IH]; intros p; cbn [inventory_rounds].
  { cbn. auto using keeps_opt_refl. }
  apply wp_bind_2. eapply wp_mono; [apply wp_inventory_publish|]. intros t1 [p1 r] [Hk _ Ht _ _]. cbn [fst snd] in *.
  eapply wp_mono; [apply IH|]. intros t2 p2 [Ht' Hk']. split; [|by eapply keeps_opt_trans].
  by rewrite published_app, <- Ht.
Qed.

(** over any number of ticks the disk list the publisher compares against
    is the one the API server last accepted from it, and a SMART verdict other
    than Unknown held for a kernel path is never replaced by Unknown. *)
Theorem inventory_rounds_track n p tr p' :
  runs (inventory_rounds n p) tr p' →
  ip_lastDisks p' = published (ip_lastDisks p) tr ∧ keeps_opt (ip_Smart p) (ip_Smart p').
Proof. exact (wp_runs _ _ _ _ (wp_inventory_rounds n p)). Qed.
End Passes.

(** ** A node with three disks *)
Module InventoryDemo.
Definition row (path type : string) : BlockDevice :=
  {| bd_Path := path; bd_Model := "m"; bd_Serial := "s"; bd_Size := 10; bd_Rota := false; bd_Type := type |}.
#[global] Instance lsblk : LsblkParse :=
  {| json_lsblk _ := inr [row "/dev/sda" "disk"; row "/dev/sdb" "disk"; row "/dev/sdc" "disk"; row "/dev/md0" "raid1"] |}.
#[global] Instance smart : SmartParse :=
  {| json_smartctl _ := inr {| SmartStatus_Passed := Some true; Temperature_Current := Some 30; PowerOnTime_Hours := None |} |}.
(** [sda] carries a PV, [sdb] is a raid member, [sdc] is free. *)
Definition commands (mdstat : option error) (n : string) (a : list string) : string * option error :=
  if bool_decide (n = "pvs") then ("  /dev/sda  ", None)
  else if bool_decide (n = "cat") then ("md0 : active raid1 sdb[0]", mdstat)
  else if bool_decide (n = "find") then
    ("ata-x ../../sda" +:+ nl +:+ "wwn-1 ../../sda" +:+ nl +:+ "lvm-pv-uuid-z ../../sdc", None)
  else ("", None).
Definition host (mdstat : option error) : env op unit := demo_env (commands mdstat) get_none list_none.
Definition fresh : InventoryPublisher :=
  {| ip_Node := "n1"; ip_MD := true; ip_Smart := Some NewSmartStore; ip_lastSweep := None; ip_lastDisks := []; ip_lastWrite := None |}.
Definition pass (mdstat : option error) := run (host mdstat) (inventory_publish fresh) tt.
Definition shown (mdstat : option error) : list (string * bool) :=
  (λ d, (dk_Path d, dk_Claimed d)) <$> ip_lastDisks (pass mdstat).1.1.1.
End InventoryDemo.

Example inventory_shown :
  InventoryDemo.shown None = [("/dev/disk/by-id/wwn-1", true); ("/dev/sdb", true); ("/dev/sdc", false)].
Proof. by vm_compute. Qed.
(** When /proc/mdstat cannot be read the pass still publishes, and a raid
    member is offered as unclaimed. *)
Example inventory_mdstat_unread :
  InventoryDemo.shown (Some (errorf "exit status 1")) = [("/dev/disk/by-id/wwn-1", true); ("/dev/sdb", false); ("/dev/sdc", false)].
Proof. by vm_compute. Qed.

Definition demo_written : NodeInventory :=
  {| inv_meta := inv_meta (inv_named "n1"); inv_Disks := ip_lastDisks (InventoryDemo.pass None).1.1.1; inv_ObservedAt := Some 0 |}.
Lemma inventory_truthful_witness :
  collected InventoryDemo.fresh (InventoryDemo.pass None).1.2 (inv_Disks demo_written) ∧
  stale InventoryDemo.fresh (inv_Disks demo_written) (InventoryDemo.pass None).1.2.
Proof.
  apply (inventory_truthful InventoryDemo.fresh _ (InventoryDemo.pass None).1.1.1 (InventoryDemo.pass None).1.1.2
    (Ev (StatusUpdate KNodeInventory demo_written) None)).
  - rewrite <- surjective_pairing. apply run_runs.
  - vm_compute. repeat first [by left|right].
  - exact (as_kind_refl KNodeInventory _).
Defined.
Lemma inventory_fresh_witness :
  collected InventoryDemo.fresh (InventoryDemo.pass None).1.2 (ip_lastDisks (InventoryDemo.pass None).1.1.1).
Proof.
  refine (proj1 (inventory_fresh InventoryDemo.fresh (InventoryDemo.pass None).1.2 (InventoryDemo.pass None).1.1.1 None _)).
  assert ((InventoryDemo.pass None).1.1 = ((InventoryDemo.pass None).1.1.1, None)) as E by by vm_compute.
  rewrite <- E. apply run_runs.
Defined.
Definition demo_rounds := run (InventoryDemo.host None) (inventory_rounds 2 InventoryDemo.fresh) tt.
Lemma inventory_rounds_track_witness :
  length (ip_lastDisks demo_rounds.1.1) = 3%nat ∧ ip_lastDisks demo_rounds.1.1 = published [] demo_rounds.1.2.
Proof.
  split; [by vm_compute|]. apply (inventory_rounds_track 2 InventoryDemo.fresh). apply run_runs.
Defined.
