(* ===== verification/EventBus.v ===== *)
(** * internal/eventbus/bus.go: versions and wakes

    A [Bus] is its per-kind counters and its subscriptions; a 1-buffered wake
    channel is the flag [s_pending].  [Publish] is the version bump followed
    by the wake loop: the two are separate steps, because the bump is a
    lock-free atomic and other goroutines may run in between. *)

From S2P Require Import Prelude.
Open Scope Z_scope.

Inductive Kind :=
  | PoolChanged | NodeChanged | VolumeChanged | TargetChanged
  | ShareChanged | SnapshotChanged | AlertChanged | TaskChanged.
#[global] Instance Kind_eq_dec : EqDecision Kind.
Proof. solve_decision. Defined.

Record subscription := { s_kinds : list Kind; s_pending : bool }.
Record Bus := {
  versions : Kind → Z;
  subs : gmap nat subscription;
}.
Definition NewBus : Bus := {| versions := λ _, 0; subs := ∅ |}.

(** [b.versions[k].Add(1)] on a uint64. *)
Definition bump (b : Bus) (k : Kind) : Bus :=
  {| versions := λ k', if decide (k' = k) then u64 (versions b k + 1) else versions b k'; subs := subs b |}.
(** The loop under the read lock. *)
Definition wake_sub (k : Kind) (s : subscription) : subscription :=
  if bool_decide (k ∈ s_kinds s) then {| s_kinds := s_kinds s; s_pending := true |} else s.
Definition wake_subs (b : Bus) (k : Kind) : Bus :=
  {| versions := versions b; subs := wake_sub k <$> subs b |}.
Definition Publish (b : Bus) (k : Kind) : Bus := wake_subs (bump b k) k.

Definition Version (b : Bus) (kinds : list Kind) : Z :=
  foldl (λ v k, u64 (v + versions b k)) 0 kinds.

(** [Subscribe]: a fresh subscription; its id stands for the pointer. *)
Definition Subscribe (b : Bus) (kinds : list Kind) : Bus * nat :=
  let id := fresh (dom (subs b)) in
  ({| versions := versions b; subs := <[id := {| s_kinds := kinds; s_pending := false |}]> (subs b) |}, id).
Definition Unsubscribe (b : Bus) (id : nat) : Bus :=
  {| versions := versions b; subs := delete id (subs b) |}.

Definition pending (b : Bus) (id : nat) : bool :=
  match subs b !! id with Some s => s_pending s | None => false end.
(** [<-s.ch] *)
Definition consume (b : Bus) (id : nat) : Bus :=
  {| versions := versions b;
     subs := alter (λ s, {| s_kinds := s_kinds s; s_pending := false |}) id (subs b) |}.

(** ** Versions *)

Definition Zsum {A} (f : A → Z) (l : list A) : Z := foldr (λ a s, f a + s) 0 l.

Lemma Version_acc b kinds v0 :
  u64 (foldl (λ v k, u64 (v + versions b k)) v0 kinds) = u64 (v0 + Zsum (versions b) kinds).
Proof.
  revert v0. induction kinds as [|k kinds IH]; intros v0; cbn [foldl Zsum foldr].
  { by rewrite Z.add_0_r. }
  rewrite IH. unfold u64, wrap, Zsum. rewrite Zplus_mod_idemp_l. f_equal. lia.
Qed.
Lemma u64_u64 x : u64 (u64 x) = u64 x.
Proof. apply Zmod_mod. Qed.
Lemma Version_sum b kinds : Version b kinds = u64 (Zsum (versions b) kinds).
Proof.
  rewrite <- (Z.add_0_l (Zsum _ _)), <- Version_acc. unfold Version.
  destruct kinds as [|k kinds _] using rev_ind; [done|]. by rewrite foldl_app; cbn; rewrite u64_u64.
Qed.

(** A bump of [k] adds, modulo 2^64, the number of times [k] is listed. *)
Definition listed (k : Kind) (kinds : list Kind) : nat := length (filter (λ k', k' = k) kinds).
Lemma Zsum_bump b k kinds :
  u64 (Zsum (versions (bump b k)) kinds) = u64 (Zsum (versions b) kinds + Z.of_nat (listed k kinds)).
Proof.
  unfold listed. induction kinds as [|k' kinds IH]; [done|]. cbn [Zsum foldr]. rewrite filter_cons.
  fold (Zsum (versions (bump b k)) kinds). fold (Zsum (versions b) kinds).
  unfold u64, wrap in *. rewrite Zplus_mod, IH, <- Zplus_mod. cbn [bump versions].
  destruct (decide (k' = k)) as [->|]; [|f_equal; lia].
  unfold u64, wrap. rewrite Zplus_mod_idemp_l. cbn [length]. f_equal. lia.
Qed.
Lemma Version_bump b k kinds :
  Version (bump b k) kinds = u64 (Version b kinds + Z.of_nat (listed k kinds)).
Proof.
  rewrite !Version_sum, Zsum_bump. unfold u64, wrap. by rewrite Zplus_mod_idemp_l.
Qed.
Lemma listed_nodup k kinds : NoDup kinds → k ∈ kinds → listed k kinds = 1%nat.
Proof.
  unfold listed. induction kinds as [|k' kinds IH]; [by intros _ ?%elem_of_nil|].
  intros [Hk Hn]%NoDup_cons. rewrite filter_cons. destruct (decide (k' = k)) as [->|Hne].
  - intros _. cbn. assert (filter (λ k', k' = k) kinds = []) as ->; [|done].
    apply elem_of_nil_inv. intros x [-> ?]%list_elem_of_filter. done.
  - intros [->|?]%elem_of_cons; [done|]. auto.
Qed.
Lemma Version_wake b k kinds : Version (wake_subs b k) kinds = Version b kinds.
Proof. done. Qed.
Lemma Version_range b kinds : 0 ≤ Version b kinds < 2 ^ 64.
Proof. rewrite Version_sum. apply Z.mod_pos_bound. lia. Qed.

Lemma u64_shift v n : 0 ≤ v < 2 ^ 64 → 0 ≤ n < 2 ^ 64 → u64 (v + n) = v → n = 0.
Proof.
  unfold u64, wrap. intros Hv Hn He.
  pose proof (Z.div_mod (v + n) (2 ^ 64) ltac:(lia)) as Hd. rewrite He in Hd.
  assert (n = 2 ^ 64 * ((v + n) / 2 ^ 64)) as Hq by lia.
  destruct (Z.eq_dec ((v + n) / 2 ^ 64) 0) as [E|E]; [lia|].
  assert ((v + n) / 2 ^ 64 ≤ -1 ∨ 1 ≤ (v + n) / 2 ^ 64) as [?|?] by lia; nia.
Qed.

(** A publish is never invisible.  Publishing a kind a consumer depends on
    changes the version it reads, wrap-around included; the version of kinds it
    does not list is unchanged; every subscriber of the kind has a wake pending
    afterwards and no wake of another subscriber is lost or invented. *)
Theorem publish_visible b k kinds :
  (k ∈ kinds → Z.of_nat (length kinds) < 2 ^ 64 → Version (Publish b k) kinds ≠ Version b kinds) ∧
  (k ∉ kinds → Version (Publish b k) kinds = Version b kinds) ∧
  (∀ id s, subs b !! id = Some s →
     pending (Publish b k) id = (if bool_decide (k ∈ s_kinds s) then true else s_pending s)).
Proof.
  unfold Publish. rewrite Version_wake, Version_bump. split_and!.
  - intros Hk Hlen Heq.
    assert (1 ≤ listed k kinds ≤ length kinds)%nat as Hl.
    { unfold listed. split; [|apply length_filter].
      apply list_elem_of_split in Hk as (l1 & l2 & ->). rewrite filter_app, filter_cons_True by done.
      rewrite length_app. cbn. lia. }
    apply u64_shift in Heq; [lia|apply Version_range|lia].
  - intros Hk. assert (listed k kinds = 0%nat) as ->.
    { unfold listed. assert (filter (λ k', k' = k) kinds = []) as ->; [|done].
      apply elem_of_nil_inv. by intros x [-> ?]%list_elem_of_filter. }
    rewrite Z.add_0_r. rewrite Version_sum. apply u64_u64.
  - intros id s Hs. unfold pending, wake_subs, bump. cbn. rewrite lookup_fmap, Hs. cbn.
    unfold wake_sub. by destruct (bool_decide _).
Qed.
