(* ===== verification/Hub.v ===== *)
(** * internal/stream/hub.go: the snapshot hub

    One goroutine ([Hub.Run]) rebuilds the shared frame when the bus wakes it
    or a connection attaches; publishers, attaching and leaving connections
    and the write pumps run concurrently.  The model is a step relation whose
    steps are the atomic actions of the code: a store mutation, the version
    bump and the wake of [Publish] (three steps of one publisher), the insert
    and the kick of [add], a delete, a write-pump drain, and each step of
    [Run], which reads the per-kind stores one at a time while building.

    [encode] stands for [json.Marshal] of the frame built from the stores of
    the snapshot kinds. *)

From S2P Require Import Prelude EventBus.

(** A connection: the 1-slot mailbox, the last frame queued, and (for the
    statements) the last frame written to the socket. *)
Record conn := { c_out : option string; c_last : string; c_client : option string }.
Definition new_conn : conn := {| c_out := None; c_last := ""; c_client := None |}.

(** One iteration of [deliver]: skip an unchanged frame; otherwise drop a stale
    one and queue the new one, which cannot block as the slot is empty. *)
Definition deliver_one (js : string) (c : conn) : conn :=
  if bool_decide (c_last c = js) then c
  else {| c_out := Some js; c_last := js; c_client := c_client c |}.
Definition deliver (js : string) (conns : gmap nat conn) : gmap nat conn := deliver_one js <$> conns.

(** [case js := <-c.out] of the write pump. *)
Definition write_one (c : conn) : conn :=
  match c_out c with
  | Some js => {| c_out := None; c_last := c_last c; c_client := Some js |}
  | None => c
  end.

Section Hub.
#[local] Set Default Proof Using "All".
Context {D : Type} (kinds : list Kind) (sub : nat) (encode : list D → option string).

(** Where [Run] is.  [since] counts the bumps since [v] was read; no code
    depends on it. *)
Inductive phase :=
  | Wait
  | CheckIdle
  | ReadVersion
  | Building (v : Z) (seen : list D) (rest : list Kind) (since : nat)
  | Delivering (v : Z) (seen : list D) (js : string) (since : nat)
  | Recheck (v : Z) (seen : list D) (js : string) (since : nat).

(** A publisher in flight: its store is mutated; then its version is bumped. *)
Inductive stage := Mutated | Bumped.

Record hub := {
  h_bus : Bus;
  h_data : Kind → D;
  h_flight : list (Kind * stage);
  h_kick : bool;
  h_attaching : nat;
  h_conns : gmap nat conn;
  h_pc : phase;
}.

Definition with_pc (h : hub) (pc : phase) : hub :=
  {| h_bus := h_bus h; h_data := h_data h; h_flight := h_flight h; h_kick := h_kick h;
     h_attaching := h_attaching h; h_conns := h_conns h; h_pc := pc |}.
Definition with_conns (h : hub) (cs : gmap nat conn) : hub :=
  {| h_bus := h_bus h; h_data := h_data h; h_flight := h_flight h; h_kick := h_kick h;
     h_attaching := h_attaching h; h_conns := cs; h_pc := h_pc h |}.
Definition count_bump (pc : phase) : phase :=
  match pc with
  | Building v s r n => Building v s r (S n)
  | Delivering v s j n => Delivering v s j (S n)
  | Recheck v s j n => Recheck v s j (S n)
  | pc => pc
  end.
Definition bumps (pc : phase) : nat :=
  match pc with
  | Building _ _ _ n | Delivering _ _ _ n | Recheck _ _ _ n => n
  | _ => 0
  end.

(** What comes from outside: a reflector applies a change (and will publish
    it), a connection attaches (and will kick), a connection leaves. *)
Inductive outside (h : hub) : hub → Prop :=
  | step_mutate k d : k ∈ kinds →
      outside h {| h_bus := h_bus h; h_data := λ k', if decide (k' = k) then d else h_data h k';
                h_flight := (k, Mutated) :: h_flight h; h_kick := h_kick h;
                h_attaching := h_attaching h; h_conns := h_conns h; h_pc := h_pc h |}
  | step_add id : h_conns h !! id = None →
      outside h {| h_bus := h_bus h; h_data := h_data h; h_flight := h_flight h; h_kick := h_kick h;
                h_attaching := S (h_attaching h); h_conns := <[id := new_conn]> (h_conns h); h_pc := h_pc h |}
  | step_remove id : outside h (with_conns h (delete id (h_conns h))).

(** The rest of a publish and of an attach, the write pumps, and [Run]. *)
Inductive inside (h : hub) : hub → Prop :=
  | step_bump k l1 l2 : h_flight h = l1 ++ (k, Mutated) :: l2 →
      (* fewer than 2^64 publishes land within one build *)
      (Z.of_nat (S (bumps (h_pc h))) < 2 ^ 64)%Z →
      inside h {| h_bus := bump (h_bus h) k; h_data := h_data h;
                h_flight := l1 ++ (k, Bumped) :: l2; h_kick := h_kick h;
                h_attaching := h_attaching h; h_conns := h_conns h; h_pc := count_bump (h_pc h) |}
  | step_wake k l1 l2 : h_flight h = l1 ++ (k, Bumped) :: l2 →
      inside h {| h_bus := wake_subs (h_bus h) k; h_data := h_data h;
                h_flight := l1 ++ l2; h_kick := h_kick h;
                h_attaching := h_attaching h; h_conns := h_conns h; h_pc := h_pc h |}
  | step_kick n : h_attaching h = S n →
      inside h {| h_bus := h_bus h; h_data := h_data h; h_flight := h_flight h; h_kick := true;
                h_attaching := n; h_conns := h_conns h; h_pc := h_pc h |}
  | step_write id c js : h_conns h !! id = Some c → c_out c = Some js →
      inside h (with_conns h (alter write_one id (h_conns h)))
  | step_woken : h_pc h = Wait → pending (h_bus h) sub = true →
      inside h {| h_bus := consume (h_bus h) sub; h_data := h_data h; h_flight := h_flight h; h_kick := h_kick h;
                h_attaching := h_attaching h; h_conns := h_conns h; h_pc := CheckIdle |}
  | step_kicked : h_pc h = Wait → h_kick h = true →
      inside h {| h_bus := h_bus h; h_data := h_data h; h_flight := h_flight h; h_kick := false;
                h_attaching := h_attaching h; h_conns := h_conns h; h_pc := CheckIdle |}
  | step_idle : h_pc h = CheckIdle → h_conns h = ∅ → inside h (with_pc h Wait)
  | step_busy : h_pc h = CheckIdle → h_conns h ≠ ∅ → inside h (with_pc h ReadVersion)
  | step_version : h_pc h = ReadVersion →
      inside h (with_pc h (Building (Version (h_bus h) kinds) [] kinds 0))
  | step_read v seen k rest n : h_pc h = Building v seen (k :: rest) n →
      inside h (with_pc h (Building v (seen ++ [h_data h k]) rest n))
  | step_encoded v seen n js : h_pc h = Building v seen [] n → encode seen = Some js →
      inside h (with_pc h (Delivering v seen js n))
  | step_failed v seen n : h_pc h = Building v seen [] n → encode seen = None → inside h (with_pc h Wait)
  | step_deliver v seen js n : h_pc h = Delivering v seen js n →
      inside h (with_pc (with_conns h (deliver js (h_conns h))) (Recheck v seen js n))
  | step_done v seen js n : h_pc h = Recheck v seen js n → Version (h_bus h) kinds = v →
      inside h (with_pc h Wait)
  | step_again v seen js n : h_pc h = Recheck v seen js n → Version (h_bus h) kinds ≠ v →
      inside h (with_pc h CheckIdle).
Definition step (h h' : hub) : Prop := outside h h' ∨ inside h h'.

(** The hub as [NewHub] leaves it, over a bus with its subscription. *)
Definition initial (h : hub) : Prop :=
  (∃ s, subs (h_bus h) !! sub = Some s ∧ s_kinds s = kinds) ∧
  h_flight h = [] ∧ h_kick h = false ∧ h_attaching h = 0%nat ∧ h_conns h = ∅ ∧ h_pc h = Wait.
Inductive reachable : hub → Prop :=
  | reach_init h : initial h → reachable h
  | reach_step h h' : reachable h → step h h' → reachable h'.

(** ** Invariant *)

(** Something will still wake [Run]. *)
Definition stirring (h : hub) : Prop :=
  pending (h_bus h) sub = true ∨ h_kick h = true ∨ h_flight h ≠ [] ∨ h_attaching h ≠ 0%nat.
(** Every connection has been handed the frame of the current data. *)
Definition synced (h : hub) : Prop :=
  ∀ js, encode (h_data h <$> kinds) = Some js → ∀ id c, h_conns h !! id = Some c → c_last c = js.

(** What a build in progress has read is current, as long as no bump landed. *)
Definition build_ok (h : hub) (v : Z) (seen : list D) (done : list Kind) (n : nat) : Prop :=
  (0 ≤ v < 2 ^ 64)%Z ∧ (Z.of_nat n < 2 ^ 64)%Z ∧ Version (h_bus h) kinds = u64 (v + Z.of_nat n) ∧
  (n ≠ 0%nat → stirring h) ∧ length seen = length done ∧
  (n = 0%nat → Forall2 (λ k d, d = h_data h k ∨ (k, Mutated) ∈ h_flight h) done seen).
Definition phase_ok (h : hub) : Prop :=
  match h_pc h with
  | Wait => stirring h ∨ synced h
  | CheckIdle | ReadVersion => True
  | Building v seen rest n => ∃ done, kinds = done ++ rest ∧ build_ok h v seen done n
  | Delivering v seen js n => encode seen = Some js ∧ build_ok h v seen kinds n
  | Recheck v seen js n =>
      encode seen = Some js ∧ build_ok h v seen kinds n ∧
      (h_kick h = true ∨ h_attaching h ≠ 0%nat ∨ ∀ id c, h_conns h !! id = Some c → c_last c = js)
  end.
(** The last frame queued is in the mailbox or on the socket. *)
Definition conn_ok (c : conn) : Prop :=
  c_last c ≠ "" → c_out c = Some (c_last c) ∨ c_out c = None ∧ c_client c = Some (c_last c).
Record hub_ok (h : hub) : Prop := {
  ho_sub : ∃ s, subs (h_bus h) !! sub = Some s ∧ s_kinds s = kinds;
  ho_flight : ∀ k st, (k, st) ∈ h_flight h → k ∈ kinds;
  ho_conns : ∀ id c, h_conns h !! id = Some c → conn_ok c;
  ho_phase : phase_ok h;
}.

Lemma deliver_one_ok js c : conn_ok c → conn_ok (deliver_one js c).
Proof. unfold deliver_one, conn_ok. case_bool_decide; [done|]. cbn. auto. Qed.
Lemma deliver_one_last js c : c_last (deliver_one js c) = js.
Proof. unfold deliver_one. by case_bool_decide. Qed.
Lemma write_one_ok c : conn_ok c → conn_ok (write_one c).
Proof. unfold write_one, conn_ok. destruct (c_out c) eqn:E; cbn; [|by rewrite E]. intros Hc Hl. naive_solver. Qed.

(** A finished build without a bump in between is of the current data. *)
Lemma build_current h v seen n : build_ok h v seen kinds n → n = 0%nat →
  stirring h ∨ seen = h_data h <$> kinds.
Proof.
  intros (_ & _ & _ & _ & _ & Hall) Hn. specialize (Hall Hn).
  destruct (h_flight h) as [|x l] eqn:E; [|left; unfold stirring; rewrite E; auto].
  right. clear Hn. revert seen Hall. induction kinds as [|k ks IH]; intros seen Hall; inversion Hall; subst; [done|].
  rewrite fmap_cons. f_equal; [|by apply IH]. destruct H1 as [?|Hin%elem_of_nil]; done.
Qed.
Lemma build_same_version h v seen n : build_ok h v seen kinds n → Version (h_bus h) kinds = v → n = 0%nat.
Proof.
  intros (Hv & Hn & Hver & _) Heq. rewrite Hver in Heq. apply u64_shift in Heq; [lia|done|lia].
Qed.

(** Steps of the others keep a build in progress. *)
Lemma build_mutate h h' v seen done n k d :
  h_bus h' = h_bus h → h_flight h' = (k, Mutated) :: h_flight h →
  h_data h' = (λ k', if decide (k' = k) then d else h_data h k') →
  build_ok h v seen done n → build_ok h' v seen done n.
Proof.
  intros Hb Hf Hd (? & ? & Hver & ? & ? & Hall). unfold build_ok. rewrite Hb, Hf, Hd. split_and!; try done; try lia.
  - intros _. unfold stirring. rewrite Hf. auto.
  - intros Hn. eapply Forall2_impl; [by apply Hall|]. cbn. intros k' d' [->|Hin]; [|right; set_solver].
    destruct (decide (k' = k)) as [->|]; [right; set_solver|auto].
Qed.
Lemma build_bump h h' v seen done n k l1 l2 :
  NoDup kinds → k ∈ kinds → (Z.of_nat (S n) < 2 ^ 64)%Z →
  h_bus h' = bump (h_bus h) k → h_flight h' = l1 ++ (k, Bumped) :: l2 →
  build_ok h v seen done n → build_ok h' v seen done (S n).
Proof.
  intros Hnd Hk Hlt Hb Hf (Hv & ? & Hver & ? & ? & _). unfold build_ok. rewrite Hb. split_and!; try done; try lia.
  - rewrite Version_bump, Hver, listed_nodup by done. unfold u64, wrap. rewrite Zplus_mod_idemp_l. f_equal. lia.
  - intros _. unfold stirring. rewrite Hf. right; right; left. by destruct l1.
Qed.
Lemma build_frame h h' v seen done n :
  Version (h_bus h') kinds = Version (h_bus h) kinds → h_data h' = h_data h →
  (∀ k, (k, Mutated) ∈ h_flight h → (k, Mutated) ∈ h_flight h') → (stirring h → stirring h') →
  build_ok h v seen done n → build_ok h' v seen done n.
Proof.
  intros Hb Hd Hf Hs (? & ? & Hver & ? & ? & Hall). unfold build_ok. rewrite Hb, Hd. split_and!; try done; try lia; [auto|].
  intros Hn. eapply Forall2_impl; [by apply Hall|]. cbn. naive_solver.
Qed.

Lemma pending_wake b k s : subs b !! sub = Some s → k ∈ s_kinds s → pending (wake_subs b k) sub = true.
Proof.
  intros Hs Hk. unfold pending, wake_subs. cbn. rewrite lookup_fmap, Hs. cbn.
  unfold wake_sub. by rewrite bool_decide_eq_true_2.
Qed.

(** Steps that leave bus, data, flight and kick alone only matter to the
    connections. *)
Lemma phase_conns h cs :
  (∀ id c, cs !! id = Some c → ∃ c', h_conns h !! id = Some c' ∧ c_last c = c_last c') →
  phase_ok h → phase_ok (with_conns h cs).
Proof.
  intros Hcs. assert (∀ js, (∀ id c, h_conns h !! id = Some c → c_last c = js) →
    ∀ id c, cs !! id = Some c → c_last c = js) as Hl.
  { intros js Hall id c Hc. destruct (Hcs id c Hc) as (c' & Hc' & ->). eauto. }
  unfold phase_ok. cbn. destruct (h_pc h) as [| | |v seen rest n|v seen js n|v seen js n]; try done.
  - intros [?|Hs]; [left; done|right]. intros js Hjs. by apply Hl, Hs.
  - intros (? & ? & [?|[?|?]]); split_and!; eauto.
Qed.

(** Waking or attaching only adds reasons to run again. *)
Lemma phase_stir h h' :
  h_bus h' = h_bus h → h_data h' = h_data h → h_flight h' = h_flight h → h_pc h' = h_pc h →
  stirring h' → h_kick h' = true ∨ h_attaching h' ≠ 0%nat → phase_ok h → phase_ok h'.
Proof.
  intros Hb Hd Hf Hpc Hs Hk. unfold phase_ok. rewrite Hpc.
  assert (∀ v seen done n, build_ok h v seen done n → build_ok h' v seen done n) as Hbuild.
  { intros. eapply build_frame; [by rewrite Hb|done|by rewrite Hf|done|done]. }
  destruct (h_pc h) as [| | |v seen rest n|v seen js n|v seen js n]; try done; [auto|..].
  - intros (dn & ? & ?). eauto.
  - intros (? & ?). eauto.
  - intros (? & ? & _). split_and!; [done|eauto|tauto].
Qed.

Lemma hub_ok_mutate h k d : k ∈ kinds → hub_ok h →
  hub_ok {| h_bus := h_bus h; h_data := λ k', if decide (k' = k) then d else h_data h k';
            h_flight := (k, Mutated) :: h_flight h; h_kick := h_kick h;
            h_attaching := h_attaching h; h_conns := h_conns h; h_pc := h_pc h |}.
Proof.
  intros Hk [? Hf ? Hp]. split; [done| |done|]; cbn.
  - intros k' st [[= -> ->]|?]%elem_of_cons; [done|eauto].
  - unfold phase_ok in *. cbn in *.
    assert (∀ v seen dn n, build_ok h v seen dn n → build_ok _ v seen dn n) as Hbuild
      by (intros *; by apply (build_mutate h {| h_bus := h_bus h; h_data := λ k', if decide (k' = k) then d else h_data h k';
            h_flight := (k, Mutated) :: h_flight h; h_kick := h_kick h;
            h_attaching := h_attaching h; h_conns := h_conns h; h_pc := h_pc h |} v seen dn n k d)).
    destruct (h_pc h) as [| | |v seen rest n|v seen js n|v seen js n]; try done.
    + left. unfold stirring. cbn. auto.
    + destruct Hp as (dn & ? & ?). eauto.
    + destruct Hp as (? & ?). eauto.
    + destruct Hp as (? & ? & ?). eauto.
Qed.
Lemma hub_ok_bump h k l1 l2 : NoDup kinds → h_flight h = l1 ++ (k, Mutated) :: l2 →
  (Z.of_nat (S (bumps (h_pc h))) < 2 ^ 64)%Z → hub_ok h →
  hub_ok {| h_bus := bump (h_bus h) k; h_data := h_data h;
            h_flight := l1 ++ (k, Bumped) :: l2; h_kick := h_kick h;
            h_attaching := h_attaching h; h_conns := h_conns h; h_pc := count_bump (h_pc h) |}.
Proof.
  intros Hnd Hfl Hlt [? Hf ? Hp]. assert (k ∈ kinds) as Hk by (apply (Hf k Mutated); rewrite Hfl; set_solver).
  split; [done| |done|]; cbn.
  - intros k' st Hin. rewrite Hfl in Hf. apply elem_of_app in Hin as [?|[[= -> ->]|?]%elem_of_cons]; [apply (Hf k' st); set_solver|done|].
    eapply (Hf k' st). set_solver.
  - unfold phase_ok in *. cbn in *.
    assert (∀ v seen dn n, (Z.of_nat (S n) < 2 ^ 64)%Z → build_ok h v seen dn n → build_ok _ v seen dn (S n)) as Hbuild
      by (intros v seen dn n ?; by apply (build_bump h {| h_bus := bump (h_bus h) k; h_data := h_data h;
            h_flight := l1 ++ (k, Bumped) :: l2; h_kick := h_kick h;
            h_attaching := h_attaching h; h_conns := h_conns h; h_pc := count_bump (h_pc h) |} v seen dn n k l1 l2)).
    destruct (h_pc h) as [| | |v seen rest n|v seen js n|v seen js n]; cbn in *; try done.
    + left. unfold stirring. cbn. right; right; left. by destruct l1.
    + destruct Hp as (dn & ? & ?). eauto.
    + destruct Hp as (? & ?). eauto.
    + destruct Hp as (? & ? & ?). eauto.
Qed.
Lemma hub_ok_wake h k l1 l2 : h_flight h = l1 ++ (k, Bumped) :: l2 → hub_ok h →
  hub_ok {| h_bus := wake_subs (h_bus h) k; h_data := h_data h;
            h_flight := l1 ++ l2; h_kick := h_kick h;
            h_attaching := h_attaching h; h_conns := h_conns h; h_pc := h_pc h |}.
Proof.
  intros Hfl [(s & Hs & Hks) Hf ? Hp]. set (h' := Build_hub _ _ _ _ _ _ _).
  assert (k ∈ kinds) as Hk by (apply (Hf k Bumped); rewrite Hfl; set_solver).
  assert (stirring h') as Hst. { left. apply (pending_wake _ _ s); [done|by rewrite Hks]. }
  assert (∀ v seen dn n, build_ok h v seen dn n → build_ok h' v seen dn n) as Hbuild.
  { intros v seen dn n Hb. apply (build_frame h); [done|done| |by intros _|exact Hb].
    intros k'. rewrite Hfl. cbn. set_solver. }
  split; [|intros k' st Hin; apply (Hf k' st); rewrite Hfl; set_solver|done|].
  - cbn. rewrite lookup_fmap, Hs. eexists. split; [done|]. unfold wake_sub. by destruct (bool_decide _).
  - unfold phase_ok in *. change (h_pc h') with (h_pc h).
    destruct (h_pc h) as [| | |v seen rest n|v seen js n|v seen js n]; try done; [auto|..].
    + destruct Hp as (dn & ? & ?). eauto.
    + destruct Hp as (? & ?). eauto.
    + destruct Hp as (? & ? & ?). eauto.
Qed.

Lemma hub_ok_pc h pc : hub_ok h → phase_ok (with_pc h pc) → hub_ok (with_pc h pc).
Proof. intros [? ? ? _] Hp. by split. Qed.
Lemma hub_ok_conns h cs :
  (∀ id c, cs !! id = Some c → conn_ok c ∧ ∃ c', h_conns h !! id = Some c' ∧ c_last c = c_last c') →
  hub_ok h → hub_ok (with_conns h cs).
Proof.
  intros Hcs [? ? ? Hp]. split; [done|done|intros id c Hc; by destruct (Hcs id c Hc)|].
  apply phase_conns; [|done]. intros id c Hc. by destruct (Hcs id c Hc).
Qed.

Lemma hub_ok_deliver h v seen js n : h_pc h = Delivering v seen js n → hub_ok h →
  hub_ok (with_pc (with_conns h (deliver js (h_conns h))) (Recheck v seen js n)).
Proof.
  intros Hpc [? ? Hc Hp]. unfold phase_ok in Hp. rewrite Hpc in Hp. destruct Hp as [He Hb].
  assert (∀ id c, deliver js (h_conns h) !! id = Some c → conn_ok c ∧ c_last c = js) as Hd.
  { unfold deliver. intros id c. rewrite lookup_fmap, fmap_Some. intros (c' & Hc' & ->).
    split; [by eapply deliver_one_ok, Hc|apply deliver_one_last]. }
  split; [done|done|intros id c Hi; by apply Hd in Hi as [? _]|].
  split_and!; [done|exact Hb|]. right; right. intros id c Hi. by apply Hd in Hi as [_ ?].
Qed.
Lemma hub_ok_wait h v seen js n : h_pc h = Recheck v seen js n → Version (h_bus h) kinds = v → hub_ok h →
  hub_ok (with_pc h Wait).
Proof.
  intros Hpc Hv Hok. apply hub_ok_pc; [done|]. pose proof (ho_phase _ Hok) as Hp. unfold phase_ok in Hp |- *.
  rewrite Hpc in Hp. destruct Hp as (He & Hb & Hl). cbn.
  destruct (build_current _ _ _ _ Hb) as [?|Hseen]; [by eapply build_same_version|auto|].
  destruct Hl as [?|[?|Hl]]; [left; unfold stirring; auto..|]. right. intros js' Hjs'.
  cbn in Hjs'. rewrite <- Hseen, He in Hjs'. simplify_eq. done.
Qed.
Lemma hub_ok_failed h v seen n : h_pc h = Building v seen [] n → encode seen = None → hub_ok h →
  hub_ok (with_pc h Wait).
Proof.
  intros Hpc He Hok. apply hub_ok_pc; [done|]. pose proof (ho_phase _ Hok) as Hp. unfold phase_ok in Hp |- *.
  rewrite Hpc in Hp. destruct Hp as (dn & Hk & Hb). rewrite app_nil_r in Hk. subst dn. cbn.
  destruct n as [|n].
  - destruct (build_current _ _ _ _ Hb eq_refl) as [?|Hseen]; [auto|]. right. intros js Hjs. cbn in Hjs. congruence.
  - left. destruct Hb as (_ & _ & _ & Hs & _). by apply Hs.
Qed.
Lemma hub_ok_read h v seen k rest n : h_pc h = Building v seen (k :: rest) n → hub_ok h →
  hub_ok (with_pc h (Building v (seen ++ [h_data h k]) rest n)).
Proof.
  intros Hpc Hok. apply hub_ok_pc; [done|]. pose proof (ho_phase _ Hok) as Hp. unfold phase_ok in Hp |- *.
  rewrite Hpc in Hp. destruct Hp as (dn & Hk & ? & ? & ? & ? & Hlen & Hall). cbn.
  exists (dn ++ [k]). rewrite <- app_assoc. split; [done|]. split_and!; try done; try lia.
  - rewrite !length_app, Hlen. done.
  - intros Hn. apply Forall2_app; [by apply Hall|]. by repeat constructor.
Qed.

Lemma step_ok h h' : NoDup kinds → hub_ok h → step h h' → hub_ok h'.
Proof.
  intros Hnd Hok Hstep. destruct Hstep as [[k d Hk|id Hid|id]|[k l1 l2 Hf Hlt|k l1 l2 Hf|n Hn|id c0 js Hid Hout|Hpc Hpend|Hpc Hkick
    |Hpc He|Hpc He|Hpc|v seen k rest n Hpc|v seen n js Hpc He|v seen n Hpc He|v seen js n Hpc|v seen js n Hpc Hv|v seen js n Hpc Hv]].
  - by apply hub_ok_mutate.
  - destruct Hok as [? ? Hc Hp]. split; [exact ho_sub0|exact ho_flight0| |].
    + cbn. intros id' c. rewrite lookup_insert_Some. intros [[_ <-]|[_ ?]]; [by intros Hl; destruct Hl|eauto].
    + eapply phase_stir; [..|exact Hp]; try done; [|right; cbn; lia]. right; right; right. cbn. lia.
  - apply hub_ok_conns; [|done]. intros id' c [_ Hc]%lookup_delete_Some. split; [by eapply ho_conns|eauto].
  - by apply hub_ok_bump.
  - by apply hub_ok_wake.
  - destruct Hok as [? ? ? Hp]. split; [done..|].
    eapply phase_stir; [..|exact Hp]; try done; [|by left]. right; left. done.
  - apply hub_ok_conns; [|done]. intros id' c Hc. apply lookup_alter_Some in Hc as [(-> & c' & Hc' & ->)|[_ Hc]].
    + split; [by eapply write_one_ok, ho_conns|]. exists c'. split; [done|]. unfold write_one. by destruct (c_out c').
    + split; [by eapply ho_conns|eauto].
  - destruct Hok as [(s & Hs & ?) ? ? _]. split; [|done..]. cbn. exists {| s_kinds := s_kinds s; s_pending := false |}.
    by rewrite lookup_alter_eq, Hs.
  - destruct Hok as [? ? ? _]. by split.
  - apply hub_ok_pc; [done|]. right. intros js _ id c. cbn. rewrite He, lookup_empty. done.
  - by apply hub_ok_pc.
  - apply hub_ok_pc; [done|]. exists []. split; [done|]. cbn.
    pose proof (Version_range (h_bus h) kinds). split_and!; try done; try lia.
    rewrite Z.add_0_r. symmetry. apply Z.mod_small. done.
  - by eapply hub_ok_read.
  - apply hub_ok_pc; [done|]. pose proof (ho_phase _ Hok) as Hp. unfold phase_ok in *. rewrite Hpc in Hp. cbn.
    destruct Hp as (dn & Hk & Hb). rewrite app_nil_r in Hk. subst dn. auto.
  - by eapply hub_ok_failed.
  - by eapply hub_ok_deliver.
  - by eapply hub_ok_wait.
  - by apply hub_ok_pc.
Qed.

Lemma initial_ok h : initial h → hub_ok h.
Proof.
  intros (? & Hf & ? & ? & Hc & Hpc). split; [done|rewrite Hf; by intros ?? ?%elem_of_nil| |].
  - intros id c. by rewrite Hc, lookup_empty.
  - unfold phase_ok. rewrite Hpc. right. intros js _ id c. by rewrite Hc, lookup_empty.
Qed.
Lemma reachable_ok h : NoDup kinds → reachable h → hub_ok h.
Proof. intros Hnd. induction 1; [by apply initial_ok|by eapply step_ok]. Qed.

(** Nothing is left to do. *)
Definition quiescent (h : hub) : Prop :=
  h_pc h = Wait ∧ pending (h_bus h) sub = false ∧ h_kick h = false ∧ h_flight h = [] ∧ h_attaching h = 0%nat ∧
  ∀ id c, h_conns h !! id = Some c → c_out c = None.


(** ** Progress and termination *)

Definition mailboxes (cs : gmap nat conn) : nat := size (filter (λ x : nat * conn, is_Some (c_out x.2)) cs).
Definition round (h : hub) : nat := length kinds + size (h_conns h) + 8.
Definition again (h : hub) (n : nat) : nat := match n with O => 0 | S _ => round h end.
Definition phase_weight (h : hub) : nat :=
  match h_pc h with
  | Wait => 0
  | CheckIdle => round h
  | ReadVersion => round h - 1
  | Building _ _ rest n => length rest + size (h_conns h) + 5 + again h n
  | Delivering _ _ _ n => size (h_conns h) + 4 + again h n
  | Recheck _ _ _ n => 2 + again h n
  end.
Definition stage_weight (h : hub) (x : Kind * stage) : nat :=
  match x.2 with Mutated => 2 * round h + 4 | Bumped => round h + 2 end.
Definition measure (h : hub) : nat :=
  phase_weight h + mailboxes (h_conns h) + sum_list_with (stage_weight h) (h_flight h) +
  (if pending (h_bus h) sub then round h + 1 else 0) + (if h_kick h then round h + 1 else 0) +
  h_attaching h * (round h + 2).

Lemma mailboxes_size cs : (mailboxes cs ≤ size cs)%nat.
Proof. apply map_subseteq_size, map_filter_subseteq. Qed.
Lemma mailboxes_write cs id c js : cs !! id = Some c → c_out c = Some js →
  (mailboxes (alter write_one id cs) < mailboxes cs)%nat ∧ size (alter write_one id cs) = size cs.
Proof.
  intros Hc Ho. split.
  - unfold mailboxes. assert (filter (λ x : nat * conn, is_Some (c_out x.2)) (alter write_one id cs)
      = delete id (filter (λ x : nat * conn, is_Some (c_out x.2)) cs)) as ->.
    { apply map_eq. intros i. apply option_eq. intros x.
      rewrite map_lookup_filter_Some, lookup_delete_Some, map_lookup_filter_Some, lookup_alter_Some. cbn. split.
      - intros [[(-> & c' & Hc' & ->)|[? ?]] Hs]; [|naive_solver].
        simplify_eq. unfold write_one in Hs. rewrite Ho in Hs. by destruct Hs.
      - intros (? & ? & ?). naive_solver. }
    rewrite map_size_delete_Some; [|by exists c; apply map_lookup_filter_Some; cbn; rewrite Ho; eauto].
    assert (size (filter (λ x : nat * conn, is_Some (c_out x.2)) cs) ≠ 0%nat); [|lia].
    apply map_size_ne_0_lookup_2 with id. exists c. apply map_lookup_filter_Some. cbn. rewrite Ho. eauto.
  - by rewrite <- (size_dom (alter write_one id cs)), dom_alter, size_dom.
Qed.

Lemma again_bound h n : (again h n ≤ round h)%nat.
Proof. destruct n; cbn; lia. Qed.
Lemma stages_app h l1 l2 :
  sum_list_with (stage_weight h) (l1 ++ l2) =
  (sum_list_with (stage_weight h) l1 + sum_list_with (stage_weight h) l2)%nat.
Proof. apply sum_list_with_app. Qed.
Lemma stages_same h h' l : round h' = round h →
  sum_list_with (stage_weight h') l = sum_list_with (stage_weight h) l.
Proof.
  intros Hr. induction l as [|x l IH]; [done|]. cbn. rewrite IH. f_equal. unfold stage_weight. by rewrite Hr.
Qed.
Lemma weight_count h h' : round h' = round h → size (h_conns h') = size (h_conns h) →
  h_pc h' = count_bump (h_pc h) → (phase_weight h' ≤ phase_weight h + round h)%nat.
Proof.
  intros Hr Hs Hpc. unfold phase_weight. rewrite Hpc. destruct (h_pc h); cbn [count_bump again]; rewrite ?Hr, ?Hs; lia.
Qed.
Lemma same_version h v seen dn : build_ok h v seen dn 0 → Version (h_bus h) kinds = v.
Proof. intros (Hv & _ & -> & _). rewrite Z.add_0_r. by apply Z.mod_small. Qed.

Lemma inside_decreases h h' : hub_ok h → inside h h' → (measure h' < measure h)%nat.
Proof.
  intros Hok Hstep. pose proof (ho_phase _ Hok) as Hp. unfold phase_ok in Hp.
  pose proof (mailboxes_size (h_conns h)) as Hmb.
  destruct Hstep as [k l1 l2 Hf Hlt|k l1 l2 Hf|n Hn|id c js Hid Hout|Hpc Hpend|Hpc Hkick
    |Hpc He|Hpc He|Hpc|v seen k rest n Hpc|v seen n js Hpc He|v seen n Hpc He|v seen js n Hpc|v seen js n Hpc Hv|v seen js n Hpc Hv];
    try rewrite Hpc in Hp.
  - match goal with |- (measure ?h1 < _)%nat => pose proof (weight_count h h1 eq_refl eq_refl eq_refl) as Hw end.
    unfold measure. rewrite (stages_same h) by done. cbn [h_conns h_flight h_bus h_kick h_attaching].
    rewrite Hf, !stages_app. cbn [sum_list_with stage_weight snd].
    change (pending (bump (h_bus h) k) sub) with (pending (h_bus h) sub).
    unfold round in *. cbn [h_conns] in *. lia.
  - unfold measure. rewrite (stages_same h) by done. unfold phase_weight, again, round.
    cbn [h_conns h_flight h_bus h_kick h_attaching h_pc].
    rewrite Hf, !stages_app. cbn [sum_list_with stage_weight snd]. unfold round.
    destruct (pending (wake_subs (h_bus h) k) sub); lia.
  - unfold measure. rewrite (stages_same h) by done. unfold phase_weight, again, round.
    cbn [h_conns h_flight h_bus h_kick h_attaching h_pc]. rewrite Hn. destruct (h_kick h); lia.
  - destruct (mailboxes_write _ _ _ _ Hid Hout) as [Hlt Hs].
    unfold measure. rewrite (stages_same h) by (unfold round; cbn; by rewrite Hs).
    unfold phase_weight, again, round. cbn [with_conns h_conns h_flight h_bus h_kick h_attaching h_pc]. rewrite Hs. lia.
  - unfold measure. rewrite (stages_same h) by done. unfold phase_weight. rewrite Hpc, Hpend. unfold again, round.
    cbn [h_conns h_flight h_bus h_kick h_attaching h_pc].
    assert (pending (consume (h_bus h) sub) sub = false) as ->.
    { unfold pending, consume. cbn. rewrite lookup_alter_eq. by destruct (subs (h_bus h) !! sub). }
    lia.
  - unfold measure. rewrite (stages_same h) by done. unfold phase_weight. rewrite Hpc, Hkick. unfold again, round.
    cbn [h_conns h_flight h_bus h_kick h_attaching h_pc]. lia.
  - unfold measure, phase_weight. rewrite (stages_same h), Hpc by done. unfold again, round. cbn. lia.
  - unfold measure, phase_weight. rewrite (stages_same h), Hpc by done. unfold again, round. cbn. lia.
  - unfold measure, phase_weight. rewrite (stages_same h), Hpc by done. unfold again, round. cbn. lia.
  - unfold measure, phase_weight. rewrite (stages_same h), Hpc by done. unfold again, round. cbn. lia.
  - unfold measure, phase_weight. rewrite (stages_same h), Hpc by done. unfold again, round. cbn. lia.
  - unfold measure, phase_weight. rewrite (stages_same h), Hpc by done. unfold again, round. cbn. lia.
  - assert (size (deliver js (h_conns h)) = size (h_conns h)) as Hs by (unfold deliver; by rewrite map_size_fmap).
    pose proof (mailboxes_size (deliver js (h_conns h))) as Hd.
    unfold measure, phase_weight. rewrite (stages_same h), Hpc by (unfold round; cbn; by rewrite Hs).
    unfold again, round. cbn [with_pc with_conns h_conns h_flight h_bus h_kick h_attaching h_pc]. rewrite Hs in *. lia.
  - unfold measure, phase_weight. rewrite (stages_same h), Hpc by done. unfold again, round. cbn. lia.
  - destruct n as [|n]; [by destruct Hv; eapply same_version, Hp|].
    unfold measure, phase_weight. rewrite (stages_same h), Hpc by done. unfold again, round. cbn. lia.
Qed.

Lemma hub_progress h : hub_ok h → quiescent h ∨ ∃ h', inside h h'.
Proof.
  intros Hok. destruct (h_pc h) as [| | |v seen rest n|v seen js n|v seen js n] eqn:Hpc.
  - destruct (pending (h_bus h) sub) eqn:Hpend; [right; eexists; by apply step_woken|].
    destruct (h_kick h) eqn:Hk; [right; eexists; by apply step_kicked|].
    destruct (h_flight h) as [|[k []] l] eqn:Hf.
    2:{ right. eexists. apply (step_bump h k [] l); [done|]. rewrite Hpc. done. }
    2:{ right. eexists. by apply (step_wake h k [] l). }
    destruct (h_attaching h) as [|n] eqn:Ha; [|right; eexists; by eapply step_kick].
    destruct (decide (filter (λ x : nat * conn, is_Some (c_out x.2)) (h_conns h) = ∅)) as [He|He].
    + left. split_and!; try done. intros id c Hc. destruct (c_out c) eqn:Ho; [|done].
      assert (filter (λ x : nat * conn, is_Some (c_out x.2)) (h_conns h) !! id = Some c) as Hx
        by (apply map_lookup_filter_Some; cbn; rewrite Ho; eauto).
      by rewrite He, lookup_empty in Hx.
    + right. apply map_choose in He as (id & c & [Hc [js Ho]]%map_lookup_filter_Some).
      eexists. by eapply step_write.
  - right. destruct (decide (h_conns h = ∅)); eexists; [by apply step_idle|by apply step_busy].
  - right. eexists. by apply step_version.
  - right. destruct rest as [|k rest]; [|eexists; by eapply step_read].
    destruct (encode seen) eqn:He; eexists; [by eapply step_encoded|by eapply step_failed].
  - right. eexists. by eapply step_deliver.
  - right. destruct (decide (Version (h_bus h) kinds = v)); eexists; [by eapply step_done|by eapply step_again].
Qed.

Lemma hub_settles_ok h : NoDup kinds → hub_ok h → ∃ h', rtc inside h h' ∧ quiescent h'.
Proof.
  intros Hnd. induction (Nat.lt_wf_0_projected measure h) as [h _ IH]. intros Hok.
  destruct (hub_progress h Hok) as [?|[h1 Hs]]; [exists h; split; [constructor|done]|].
  destruct (IH h1) as (h' & ? & ?); [by apply inside_decreases|by eapply step_ok; [..|right]|].
  exists h'. split; [by econstructor|done].
Qed.
Lemma inside_bounded h h' n : NoDup kinds → hub_ok h → nsteps inside n h h' → (n + measure h' ≤ measure h)%nat.
Proof.
  intros Hnd Hok Hs. revert Hok. induction Hs as [h|n h h1 h2 H1 _ IH]; intros Hok; [lia|].
  pose proof (inside_decreases _ _ Hok H1). assert (hub_ok h1) as Hok1 by (eapply step_ok; [done..|by right]).
  specialize (IH Hok1). lia.
Qed.
End Hub.

(** C7: No update is lost.  In every reachable state of the hub where nothing
    is left to do (the loop waits with no wake or kick pending, no publisher or
    attaching connection is in flight, every mailbox is drained), every client
    holds the frame of the current data, however mutations, publishes,
    attaches and the stepwise build interleaved. *)
Theorem hub_no_lost_update {D} kinds sub (encode : list D → option string) h js id c :
  NoDup kinds → reachable kinds sub encode h → quiescent sub h →
  encode (h_data h <$> kinds) = Some js → js ≠ "" → h_conns h !! id = Some c →
  c_client c = Some js.
Proof.
  intros Hnd Hr (Hpc & Hpend & Hk & Hf & Ha & Hout) He Hne Hc.
  destruct (reachable_ok _ _ _ _ Hnd Hr) as [_ _ Hcs Hp]. unfold phase_ok in Hp. rewrite Hpc in Hp.
  destruct Hp as [[?|[?|[?|?]]]|Hs]; [congruence..|]. pose proof (Hs js He id c Hc) as Hl.
  destruct (Hcs id c Hc) as [Ho|[_ Ho]]; rewrite Hl in *; [done|rewrite (Hout id c Hc) in Ho; done|done].
Qed.

(** C25: The hub settles.  From every reachable state, once outside events stop,
    the hub, the publishers in flight and the write pumps reach a state where
    nothing is left to do, and they cannot run for more than [measure] steps:
    no deadlock, no blocked delivery, no endless rebuilding. *)
Theorem hub_settles {D} kinds sub (encode : list D → option string) h :
  NoDup kinds → reachable kinds sub encode h →
  (∃ h', rtc (inside kinds sub encode) h h' ∧ quiescent sub h') ∧
  (∀ n h', nsteps (inside kinds sub encode) n h h' → (n ≤ measure kinds sub h)%nat).
Proof.
  intros Hnd Hr. pose proof (reachable_ok _ _ _ _ Hnd Hr) as Hok. split.
  - by apply hub_settles_ok.
  - intros n h' Hn. pose proof (inside_bounded _ _ _ _ _ _ Hnd Hok Hn). lia.
Qed.

(** ** Witnesses: one client attaches to a hub over one kind *)
Module HubDemo.
Definition kinds : list Kind := [PoolChanged].
Definition encode (l : list nat) : option string := match l with [7%nat] => Some "seven" | _ => Some "other" end.
Definition bus : Bus := (Subscribe NewBus kinds).1.
Definition start : hub := {| h_bus := bus; h_data := λ _, 7%nat; h_flight := []; h_kick := false;
  h_attaching := 0; h_conns := ∅; h_pc := Wait |}.

Lemma start_reachable : reachable kinds 0 encode start.
Proof. apply reach_init. split_and!; try done. eexists. split; reflexivity. Qed.

(** Extend a run by one inside step of the state it is in. *)
Ltac ins H lem :=
  lazymatch type of H with
  | reachable _ _ _ ?h =>
      let X := fresh in
      eassert (inside kinds 0 encode h _) as X by (eapply lem; reflexivity || apply insert_non_empty);
      apply (λ s, reach_step _ _ _ _ _ H (or_intror s)) in X; clear H; rename X into H
  end.

(** The whole session: attach, kick, one build, one delivery, one write. *)
Lemma session : ∃ h, reachable kinds 0 encode h ∧ quiescent 0 h ∧ h_data h = (λ _, 7%nat) ∧
  ∃ c, h_conns h !! 3%nat = Some c ∧ c_client c = Some "seven".
Proof.
  pose proof (reach_step _ _ _ _ _ start_reachable (or_introl (step_add _ start 3%nat eq_refl))) as H1.
  ins H1 (@step_kick nat). ins H1 (@step_kicked nat). ins H1 (@step_busy nat). ins H1 (@step_version nat). ins H1 (@step_read nat).
  ins H1 (@step_encoded nat). ins H1 (@step_deliver nat). ins H1 (@step_done nat).
  ins H1 (λ k s e h c js, @step_write nat k s e h 3%nat c js).
  eexists. split; [exact H1|]. unfold quiescent. split_and!; try reflexivity; [|eexists; split; reflexivity].
  intros id c Hc.
  match type of Hc with
  | ?m !! _ = _ =>
      assert (m = {[3%nat := {| c_out := None; c_last := "seven"; c_client := Some "seven" |}]}) as Hm
        by (vm_compute; reflexivity);
      rewrite Hm in Hc; apply lookup_singleton_Some in Hc as [_ <-]; reflexivity
  end.
Qed.
End HubDemo.

Lemma hub_no_lost_update_witness :
  ∃ h c, reachable HubDemo.kinds 0 HubDemo.encode h ∧ h_conns h !! 3%nat = Some c ∧ c_client c = Some "seven".
Proof.
  destruct HubDemo.session as (h & Hr & Hq & Hd & c & Hc & _). exists h, c. split; [exact Hr|]. split; [exact Hc|].
  apply (hub_no_lost_update HubDemo.kinds 0 HubDemo.encode h "seven" 3%nat c (NoDup_singleton _) Hr Hq);
    [rewrite Hd; reflexivity|discriminate|exact Hc].
Defined.

Lemma hub_settles_witness :
  ∃ h', rtc (inside HubDemo.kinds 0 HubDemo.encode) HubDemo.start h' ∧ quiescent 0 h'.
Proof. exact (proj1 (hub_settles HubDemo.kinds 0 HubDemo.encode HubDemo.start (NoDup_singleton _) HubDemo.start_reachable)). Defined.
