(* ===== verification/HubServe.v ===== *)
(** * internal/stream/hub.go, ServeHTTP: one connection in time

    The read loop, the write pump with its ticker, and the socket of one
    WebSocket connection, as a step relation over a clock in nanoseconds.  The
    client and the network decide when a write ends, when a pong or a close
    arrives and when frames are delivered; what a goroutine can do at once it
    does before time passes (a ready [select] case is taken, a read returns at
    its deadline or on a closed socket, a write returns by its deadline, the
    ticker fires on time).  [Hub.v] has the same connection's mailbox and the
    hub's side of it. *)

From S2P Require Import Prelude Effects.
Open Scope Z_scope.

Definition pongWait : Z := 60 * second.
Definition pingPeriod : Z := 50 * second.
Definition writeWait : Z := 10 * second.

(** ** The upgrade *)
(** The host of [url.Parse]. *)
Class UrlParse := { parse_host : string → error + string }.
Definition checkOrigin `{UrlParse} (origin host : string) : bool :=
  if bool_decide (origin = "") then true
  else match parse_host origin with
       | inl _ => false
       | inr h => bool_decide (h = host)
       end.

(** ** One connection *)

(** The pump: at its [select], in a write that ends by [until], or returned
    (which closed the socket). *)
Inductive pump := Select | Writing (until : Z) | Gone.

Record ws_conn := {
  s_now : Z;
  s_deadline : Z;            (** the read deadline *)
  s_reading : bool;          (** ServeHTTP is in its read loop: the hub holds the connection *)
  s_quits : nat;             (** how often [c.quit] was closed *)
  s_open : bool;             (** the socket *)
  s_pump : pump;
  s_mail : bool;             (** [c.out] holds a frame *)
  s_tick : bool;             (** [ping.C] holds a tick *)
  s_next : Z;                (** when the ticker fires next *)
  s_heard : Z;               (** when the deadline was last set *)
  s_asked : option Z;        (** the first tick since then *)
  s_removed : Z;             (** when the read loop ended *)
}.

(** After [add], with both goroutines started. *)
Definition attach (now : Z) : ws_conn :=
  {| s_now := now; s_deadline := now + pongWait; s_reading := true; s_quits := 0; s_open := true; s_pump := Select;
     s_mail := false; s_tick := false; s_next := now + pingPeriod; s_heard := now; s_asked := None; s_removed := now |}.
Definition ServeHTTP `{UrlParse} (upgraded : bool) (origin host : string) (now : Z) : option ws_conn :=
  if checkOrigin origin host && upgraded then Some (attach now) else None.

Definition with_pump (s : ws_conn) (p : pump) (open mail tick : bool) : ws_conn :=
  {| s_now := s_now s; s_deadline := s_deadline s; s_reading := s_reading s; s_quits := s_quits s; s_open := open;
     s_pump := p; s_mail := mail; s_tick := tick; s_next := s_next s; s_heard := s_heard s; s_asked := s_asked s;
     s_removed := s_removed s |}.
(** The read loop ends: [h.remove(c)]. *)
Definition removed (s : ws_conn) : ws_conn :=
  {| s_now := s_now s; s_deadline := s_deadline s; s_reading := false; s_quits := S (s_quits s); s_open := s_open s;
     s_pump := s_pump s; s_mail := s_mail s; s_tick := s_tick s; s_next := s_next s; s_heard := s_heard s;
     s_asked := s_asked s; s_removed := s_now s |}.
Definition at_time (s : ws_conn) (now : Z) : ws_conn :=
  {| s_now := now; s_deadline := s_deadline s; s_reading := s_reading s; s_quits := s_quits s; s_open := s_open s;
     s_pump := s_pump s; s_mail := s_mail s; s_tick := s_tick s; s_next := s_next s; s_heard := s_heard s;
     s_asked := s_asked s; s_removed := s_removed s |}.

(** Nothing is due before [t]. *)
Record may_wait (s : ws_conn) (t : Z) : Prop := {
  mw_read : s_reading s = true → s_open s = true ∧ t ≤ s_deadline s;
  mw_pump : match s_pump s with
            | Select => s_mail s = false ∧ s_tick s = false ∧ s_quits s = 0%nat
            | Writing u => t ≤ u
            | Gone => True
            end;
  mw_ticker : s_pump s ≠ Gone → t ≤ s_next s;
}.

Inductive action := Pass | Frame | Ticker | TakeFrame | TakePing | TakeQuit | Written | WriteFails | Pong | Expire | Hangup.
Inductive serve_step (s : ws_conn) : action → ws_conn → Prop :=
  | ss_pass t : s_now s < t → may_wait s t → serve_step s Pass (at_time s t)
  (* [deliver] reaches connections of the hub only *)
  | ss_frame : s_reading s = true → serve_step s Frame (with_pump s (s_pump s) (s_open s) true (s_tick s))
  | ss_ticker : s_pump s ≠ Gone → s_now s = s_next s →
      serve_step s Ticker
        {| s_now := s_now s; s_deadline := s_deadline s; s_reading := s_reading s; s_quits := s_quits s; s_open := s_open s;
           s_pump := s_pump s; s_mail := s_mail s; s_tick := true; s_next := s_next s + pingPeriod; s_heard := s_heard s;
           s_asked := match s_asked s with None => Some (s_now s) | a => a end; s_removed := s_removed s |}
  | ss_take_frame : s_pump s = Select → s_mail s = true →
      serve_step s TakeFrame (with_pump s (Writing (s_now s + writeWait)) (s_open s) false (s_tick s))
  | ss_take_ping : s_pump s = Select → s_tick s = true →
      serve_step s TakePing (with_pump s (Writing (s_now s + writeWait)) (s_open s) (s_mail s) false)
  | ss_take_quit : s_pump s = Select → s_quits s ≠ 0%nat →
      serve_step s TakeQuit (with_pump s Gone false (s_mail s) (s_tick s))
  | ss_written u : s_pump s = Writing u → serve_step s Written (with_pump s Select (s_open s) (s_mail s) (s_tick s))
  | ss_write_fails u : s_pump s = Writing u → serve_step s WriteFails (with_pump s Gone false (s_mail s) (s_tick s))
  (* the pong handler, called by ReadMessage *)
  | ss_pong : s_reading s = true → s_open s = true →
      serve_step s Pong
        {| s_now := s_now s; s_deadline := s_now s + pongWait; s_reading := true; s_quits := s_quits s; s_open := true;
           s_pump := s_pump s; s_mail := s_mail s; s_tick := s_tick s; s_next := s_next s; s_heard := s_now s;
           s_asked := None; s_removed := s_removed s |}
  | ss_expire : s_reading s = true → s_deadline s ≤ s_now s → serve_step s Expire (removed s)
  (* ReadMessage fails for any other reason, a socket closed by the pump included *)
  | ss_hangup : s_reading s = true → serve_step s Hangup (removed s).

Inductive connected (now : Z) : ws_conn → Prop :=
  | serving_start : connected now (attach now)
  | serving_step s a s' : connected now s → serve_step s a s' → connected now s'.

(** ** Invariant *)

(** Work the pump may still find once the connection is removed: the write it
    is in, a frame, a tick, and one tick to come. *)
Definition due (s : ws_conn) : Z :=
  (if s_mail s then writeWait else 0) + (if s_tick s then writeWait else 0) +
  (if bool_decide (s_next s ≤ s_removed s + 4 * writeWait) then writeWait else 0) +
  match s_pump s with Writing u => u - s_now s | _ => 0 end.

Record serve_inv (s : ws_conn) : Prop := {
  si_deadline : s_deadline s = s_heard s + pongWait;
  si_now : s_reading s = true → s_now s ≤ s_deadline s;
  si_heard : s_heard s ≤ s_now s;
  si_quit : s_quits s = if s_reading s then 0%nat else 1%nat;
  si_next : s_pump s ≠ Gone → s_now s ≤ s_next s ≤ s_now s + pingPeriod;
  si_write : ∀ u, s_pump s = Writing u → s_now s ≤ u ≤ s_now s + writeWait;
  si_gone : s_pump s = Gone → s_open s = false;
  si_removed : s_reading s = false → s_removed s ≤ s_deadline s;
  si_linger : s_reading s = false → s_pump s ≠ Gone →
    s_removed s ≤ s_now s ∧ s_now s + due s ≤ s_removed s + 4 * writeWait;
}.

Ltac times := unfold due, pongWait, pingPeriod, writeWait, second in *.
Lemma attach_inv now : serve_inv (attach now).
Proof. split; cbn; times; try done; lia. Qed.

(** Splits a state into its discrete part and leaves linear arithmetic. *)
Ltac serve_lia :=
  intros; subst; times; cbn in *;
  repeat match goal with
  | H : ?x = ?x → _ |- _ => specialize (H eq_refl)
  | H : ?p ≠ Gone → _ |- _ => specialize (H ltac:(done))
  | H : ∀ u, Writing ?v = Writing u → _ |- _ => specialize (H v eq_refl)
  | H : _ ∧ _ |- _ => destruct H
  | H : Writing _ = Writing _ |- _ => injection H as <-
  | H : context [bool_decide ?P] |- _ => destruct (bool_decide_reflect P)
  | |- context [bool_decide ?P] => destruct (bool_decide_reflect P)
  end; try done; lia.

Lemma step_inv s a s' : serve_inv s → serve_step s a s' → serve_inv s'.
Proof.
  intros [Hdl Hnow Hh Hq Hn Hw Hgo Hrm Hl] Hst. destruct s as [now dl rd q op pm ml tk nx hd ak rm]. cbn in *.
  destruct Hst as [t Ht [Hr' Hp' Ht']|Hr|Hp He|Hp Hm|Hp Hm|Hp Hq'|u Hp|u Hp|Hr Ho|Hr Hd|Hr]; cbn in *; split; cbn;
    try done; destruct rd, pm, ml, tk; try done; serve_lia.
Qed.

Lemma serving_inv now s : connected now s → serve_inv s.
Proof. induction 1; [apply attach_inv|]. by eapply step_inv. Qed.

(** The model never blocks: what is due can be done, and otherwise time
    passes. *)
Lemma serve_progress s : serve_inv s → ∃ a s', serve_step s a s'.
Proof.
  intros [Hdl Hnow Hh Hq Hn Hw Hgo Hrm Hl]. destruct (s_reading s) eqn:Hr; [eexists _, _; by apply ss_hangup|].
  destruct (s_pump s) as [|u|] eqn:Hp.
  - eexists _, _. apply ss_take_quit; [done|]. by rewrite Hq.
  - eexists _, _. by eapply ss_written.
  - exists Pass, (at_time s (s_now s + 1)). apply ss_pass; [lia|]. split; [by rewrite Hr|by rewrite Hp|by rewrite Hp].
Qed.

(** ** A client that answers *)

(** Runs of the connection in which the client neither hangs up nor breaks a
    write, and answers within [slack] of every tick. *)
Inductive answering (slack now : Z) : ws_conn → Prop :=
  | answering_start : answering slack now (attach now)
  | answering_step s a s' : answering slack now s → serve_step s a s' → a ≠ Hangup → a ≠ WriteFails →
      (∀ t, s_asked s' = Some t → s_now s' ≤ t + slack) → answering slack now s'.
Record answer_inv (slack : Z) (s : ws_conn) : Prop := {
  ai_inv : serve_inv s;
  ai_up : s_reading s = true ∧ s_open s = true ∧ s_pump s ≠ Gone;
  ai_tick : match s_asked s with
            | None => s_next s ≤ s_heard s + pingPeriod
            | Some t => t ≤ s_heard s + pingPeriod ∧ s_now s ≤ t + slack
            end;
}.
Lemma answer_early slack s : slack < pongWait - pingPeriod → answer_inv slack s → s_now s < s_deadline s.
Proof.
  intros Hs [[Hdl _ _ _ Hn _ _ _ _] (_ & _ & Hp) Ht]. specialize (Hn Hp). rewrite Hdl. times.
  destruct (s_asked s); lia.
Qed.
Lemma answer_step slack s a s' : slack < pongWait - pingPeriod → answer_inv slack s → serve_step s a s' →
  a ≠ Hangup → a ≠ WriteFails → (∀ t, s_asked s' = Some t → s_now s' ≤ t + slack) → answer_inv slack s'.
Proof.
  intros Hs Ha Hst Hh Hw Hprompt. pose proof (answer_early slack s Hs Ha) as He. destruct Ha as [Hi (Hr & Ho & Hp) Ht].
  pose proof (step_inv _ _ _ Hi Hst) as Hi'. split; [done|..]; destruct Hi as [_ _ _ Hq Hn _ _ _ _]; rewrite Hr in Hq;
    destruct Hst; cbn in *; try done; try lia; try (by split_and!);
    specialize (Hn Hp); destruct (s_asked s); cbn in *; times; try (by eauto); lia || (split; [lia|eauto]).
Qed.

(** C28: The keepalive bounds a dead connection and spares a live one.  In
    every run of a connection from its attach: while the hub holds it, no more
    than pongWait has passed since the client was last heard; once the read
    loop has ended the pump is gone within four write deadlines, so a client
    that falls silent pins the hub entry for at most 60 seconds and any
    goroutine or the socket for at most 100; [c.quit] is closed once, when the
    hub drops the connection; when the pump has failed no time passes before
    the hub drops it; and the model always has a next step.  A client that
    answers every ping within less than 10 seconds of its tick, and whose
    writes succeed, is never dropped. *)
Theorem keepalive_sound now :
  (∀ s, connected now s →
     (s_reading s = true → s_now s ≤ s_heard s + pongWait) ∧
     (s_reading s = true ∨ s_pump s ≠ Gone → s_now s ≤ s_heard s + pongWait + 4 * writeWait) ∧
     (s_pump s = Gone → s_open s = false) ∧
     s_quits s = (if s_reading s then 0%nat else 1%nat) ∧
     (s_reading s = true → s_pump s = Gone → ∀ s', ¬ serve_step s Pass s') ∧
     ∃ a s', serve_step s a s') ∧
  (∀ slack s, slack < pongWait - pingPeriod → answering slack now s →
     s_reading s = true ∧ s_now s < s_deadline s ∧ ∀ s', ¬ serve_step s Expire s').
Proof.
  split.
  - intros s Hi%serving_inv. pose proof (serve_progress s Hi) as Hprog.
    destruct Hi as [Hdl Hnow Hh Hq Hn Hw Hgo Hrm Hl]. rewrite Hdl in *. split_and!; try done.
    + intros Hup. destruct (s_reading s); [specialize (Hnow eq_refl); times; lia|].
      destruct Hup as [?|Hp]; [done|]. specialize (Hrm eq_refl). specialize (Hl eq_refl Hp).
      assert (0 ≤ due s).
      { unfold due. destruct (s_pump s) as [|u|]; [..|done]; [|specialize (Hw u eq_refl)];
          destruct (s_mail s), (s_tick s), (bool_decide _); times; lia. }
      lia.
    + intros Hr Hp s' Hst. inversion Hst as [t Ht [Hmr _ _]| | | | | | | | | |]; subst.
      destruct (Hmr Hr) as [Ho _]. rewrite (Hgo Hp) in Ho. done.
  - intros slack s Hslack Ha.
    assert (answer_inv slack s) as Hi.
    { induction Ha as [|s a s' Ha IH Hst Hh Hw Hp]; [|by eapply answer_step].
      split; [apply attach_inv|done|cbn; times; lia]. }
    pose proof (answer_early slack s Hslack Hi) as He. split_and!; [apply Hi|done|].
    intros s' Hst. inversion Hst; subst. lia.
Qed.

(** The upgrade is refused for a page of another host. *)
Lemma cross_origin_refused `{UrlParse} upgraded origin host now h :
  origin ≠ "" → parse_host origin = inr h → h ≠ host → ServeHTTP upgraded origin host now = None.
Proof.
  intros Ho Hp Hh. unfold ServeHTTP, checkOrigin. rewrite bool_decide_eq_false_2 by done. rewrite Hp.
  by rewrite bool_decide_eq_false_2.
Qed.

(** A client that answers, over two periods of the ticker. *)
Ltac prompt := intros t Ht; cbn in *; simplify_eq; times; lia.
Ltac wait_until t H :=
  eapply answering_step with (a := Pass) in H;
    [|apply (ss_pass _ t); [cbn; times; lia|split; cbn; times; intros; repeat split; lia]|done|done|prompt].
Ltac serve_do act r H := eapply answering_step with (a := act) in H; [|r; done|done|done|prompt].
Example answering_two_periods : ∃ s, answering (5 * second) 0 s ∧ s_now s = 2 * pingPeriod.
Proof.
  pose proof (answering_start (5 * second) 0) as H.
  wait_until pingPeriod H. serve_do Ticker ltac:(apply ss_ticker) H. serve_do TakePing ltac:(apply ss_take_ping) H.
  serve_do Written ltac:(eapply ss_written) H. serve_do Pong ltac:(apply ss_pong) H.
  wait_until (2 * pingPeriod) H. by eexists.
Qed.
Lemma keepalive_sound_witness : ∃ s, answering (5 * second) 0 s ∧ s_now s = 2 * pingPeriod ∧
  s_reading s = true ∧ s_now s < s_deadline s.
Proof.
  destruct answering_two_periods as (s & Ha & Hn). exists s. split; [exact Ha|]. split; [exact Hn|].
  destruct (proj2 (keepalive_sound 0) (5 * second) s ltac:(times; lia) Ha) as (Hr & Hd & _). by split.
Defined.
