(* ===== verification/TtlCache.v ===== *)
(** * internal/ttlcache/ttlcache.go

    The cache is its map; both methods hold the lock for their whole body, so
    an execution is a sequence of calls with the clock readings they took
    ([time.Now] is monotonic).  The specification is the log of the puts: a
    read answers the last put of its key if it is younger than the TTL.  The
    refinement theorem says eviction on write is invisible. *)

From S2P Require Import Prelude.
Open Scope Z_scope.

Section TtlCache.
Context {V : Type} (ttl : Z).

Abbreviation cache := (gmap string (V * Z)).
Definition cache_new : cache := ∅.
Definition cache_Get (c : cache) (now : Z) (key : string) : option V :=
  match c !! key with
  | Some (val, at_) => if now - at_ <? ttl then Some val else None
  | None => None
  end.
Definition cache_Put (c : cache) (now : Z) (key : string) (val : V) : cache :=
  <[key := (val, now)]> (filter (λ x : string * (V * Z), ¬ (ttl ≤ now - x.2.2)) c).

(** ** The specification *)
Abbreviation log := (list (Z * string * V)).
Definition replay (l : log) : cache := foldl (λ c '(now, k, v), cache_Put c now k v) cache_new l.
Fixpoint last_put (l : log) (key : string) : option (V * Z) :=
  match l with
  | [] => None
  | (t, k, v) :: l' =>
      match last_put l' key with
      | Some x => Some x
      | None => if bool_decide (k = key) then Some (v, t) else None
      end
  end.
Definition spec_Get (l : log) (now : Z) (key : string) : option V :=
  match last_put l key with
  | Some (v, t) => if now - t <? ttl then Some v else None
  | None => None
  end.
(** The clock never runs backwards. *)
Definition clocked (l : log) (now : Z) : Prop := StronglySorted Z.le ((λ x, x.1.1) <$> l) ∧ Forall (λ x, x.1.1 ≤ now) l.

Lemma last_put_snoc l t k v key :
  last_put (l ++ [(t, k, v)]) key = if bool_decide (k = key) then Some (v, t) else last_put l key.
Proof.
  induction l as [|[[t' k'] v'] l IH]; cbn; [done|]. rewrite IH.
  repeat case_bool_decide; try done; by destruct (last_put l key).
Qed.
Lemma clocked_snoc l t k v now : clocked (l ++ [(t, k, v)]) now → clocked l t ∧ t ≤ now.
Proof.
  intros [Hs Hn]. apply Forall_app in Hn as [Hn [Ht _]%Forall_cons]. split; [|done].
  rewrite fmap_app in Hs. cbn in Hs. split.
  - clear Hn. induction l as [|x l IH]; cbn in *; [constructor|].
    apply StronglySorted_inv in Hs as [Hs Hx]. constructor; [by apply IH|].
    by apply Forall_app in Hx as [? _].
  - clear Hn. induction l as [|x l IH]; cbn in *; [constructor|].
    apply StronglySorted_inv in Hs as [Hs Hx]. constructor; [|by apply IH].
    apply Forall_app in Hx as [_ [? _]%Forall_cons]. done.
Qed.

Lemma replay_snoc l t k v : replay (l ++ [(t, k, v)]) = cache_Put (replay l) t k v.
Proof. unfold replay. by rewrite foldl_app. Qed.

(** An entry the cache lost had expired. *)
Record cache_ok (l : log) (now : Z) : Prop := {
  co_sound : ∀ k x, replay l !! k = Some x → last_put l k = Some x;
  co_live : ∀ k v t, last_put l k = Some (v, t) → replay l !! k = Some (v, t) ∨ ttl ≤ now - t;
}.
Lemma replay_ok l now : clocked l now → cache_ok l now.
Proof.
  revert now. induction l as [|[[t k] v] l IH] using rev_ind; intros now Hc.
  { split; [intros k x; cbn; unfold cache_new; by rewrite lookup_empty|done]. }
  apply clocked_snoc in Hc as [Hc Ht]. destruct (IH t Hc) as [Hs Hl].
  split; intros key; rewrite replay_snoc, last_put_snoc; unfold cache_Put.
  - intros x. rewrite lookup_insert_Some. intros [[<- <-]|[Hne [Hx _]%map_lookup_filter_Some]].
    + by rewrite bool_decide_eq_true_2.
    + rewrite bool_decide_eq_false_2 by done. auto.
  - intros v' t'. case_bool_decide as Hk; [intros [= <- <-]; subst; left; by rewrite lookup_insert_eq|].
    intros Hp. destruct (Hl key v' t' Hp) as [Hx|?]; [|right; lia].
    destruct (decide (ttl ≤ t - t')); [right; lia|left].
    rewrite lookup_insert_ne by done. by apply map_lookup_filter_Some.
Qed.

Lemma replay_bounded l t k v key x :
  replay (l ++ [(t, k, v)]) !! key = Some x → key = k ∨ t - x.2 < ttl.
Proof.
  rewrite replay_snoc. unfold cache_Put. rewrite lookup_insert_Some.
  intros [[<- _]|[_ [_ Hx]%map_lookup_filter_Some]]; [auto|]. cbn in Hx. right. lia.
Qed.
End TtlCache.

(** The TTL cache refines its log.  After any sequence of puts under a
    clock that does not run backwards, a read answers exactly the last put of
    its key, if that is younger than the TTL, and nothing otherwise; and after
    a write every other entry is younger than the TTL, so the map never
    outgrows the keys of one window. *)
Theorem ttl_cache_refines {V} ttl (l : list (Z * string * V)) now :
  clocked l now →
  (∀ key, cache_Get ttl (replay ttl l) now key = spec_Get ttl l now key) ∧
  (∀ l' t k v, l = l' ++ [(t, k, v)] → ∀ key x, replay ttl l !! key = Some x → key = k ∨ t - x.2 < ttl).
Proof.
  intros Hc. destruct (replay_ok ttl l now Hc) as [Hs Hl]. split.
  - intros key. unfold cache_Get, spec_Get. destruct (replay ttl l !! key) as [[v t]|] eqn:E.
    + by rewrite (Hs _ _ E).
    + destruct (last_put l key) as [[v t]|] eqn:Ep; [|done].
      destruct (Hl _ _ _ Ep) as [?|?]; [congruence|]. by rewrite (proj2 (Z.ltb_ge _ _)).
  - intros l' t k v -> key x. apply replay_bounded.
Qed.

(** ** Witness: the second put evicts the first, and the read agrees *)
Definition demo_log : list (Z * string * nat) := [(0, "a", 1%nat); (10, "b", 2%nat)].
Lemma ttl_cache_refines_witness :
  cache_Get 5 (replay 5 demo_log) 12 "b" = Some 2%nat ∧ cache_Get 5 (replay 5 demo_log) 12 "a" = None ∧
  spec_Get 5 demo_log 12 "a" = None.
Proof.
  assert (clocked demo_log 12) as Hc by (split; repeat constructor; cbn; lia).
  pose proof (ttl_cache_refines 5 demo_log 12 Hc) as [H _]. rewrite !H.
  split; [|split]; vm_compute; reflexivity.
Defined.
