(* ===== verification/Tasks.v ===== *)
(** * internal/tasks/tasks.go: the recent-activity feed

    The feed is its two lanes; every method holds the lock for its body, so an
    execution is a sequence of calls.  A method that publishes returns the
    kinds it publishes after unlocking.  The specification of the feed is the
    log of the calls. *)

From S2P Require Import Prelude GoStrings EventBus.
Open Scope Z_scope.

Definition opsCap : nat := 100.
(** One hour, in nanoseconds. *)
Definition MergeRetention : Z := 3600 * 1000000000.

Record Op_t := {
  op_Verb : string; op_Namespace : string; op_Name : string; op_By : string; op_OK : bool; op_At : Z;
}.
#[global] Instance Op_t_eq_dec : EqDecision Op_t.
Proof. solve_decision. Defined.
Record Merge := {
  mg_RepoURL : string; mg_Number : Z; mg_URL : string; mg_Title : string; mg_By : string; mg_At : Z;
}.
#[global] Instance Merge_eq_dec : EqDecision Merge.
Proof. solve_decision. Defined.

Record Feed := {
  f_ops : list Op_t;
  f_merges : gmap string (gmap Z Merge);
}.
Definition NewFeed : Feed := {| f_ops := []; f_merges := ∅ |}.

(** [f.ops[:opsCap]] only when the ring is over its cap. *)
Definition RecordOp (f : Feed) (o : Op_t) : Feed * list Kind :=
  let ops := o :: f_ops f in
  ({| f_ops := if (opsCap <? length ops)%nat then take opsCap ops else ops; f_merges := f_merges f |},
   [TaskChanged]).

Definition pruneLocked (merges : gmap string (gmap Z Merge)) (cutoff : Z) : gmap string (gmap Z Merge) :=
  filter (λ x : string * gmap Z Merge, x.2 ≠ ∅)
    ((λ byNum, filter (λ x : Z * Merge, ¬ (mg_At x.2 < cutoff)) byNum) <$> merges).

Definition RecordMerge (f : Feed) (now : Z) (m : Merge) : Feed * list Kind :=
  let byNum := default ∅ (f_merges f !! mg_RepoURL m) in
  let changed := match byNum !! mg_Number m with Some prev => bool_decide (prev ≠ m) | None => true end in
  let merges := <[mg_RepoURL m := <[mg_Number m := m]> byNum]> (f_merges f) in
  ({| f_ops := f_ops f; f_merges := pruneLocked merges (now - MergeRetention) |},
   if changed then [TaskChanged] else []).

(** The ring is copied out. *)
Definition Ops (f : Feed) : list Op_t := f_ops f.

(** The row of one merged PR. *)
Definition row (f : Feed) (repo : string) (n : Z) : option Merge := f_merges f !! repo ≫= (.!! n).

Section Merges.
Context `{MapRange} `{SliceSort} (range_int : gmap Z Merge → list (Z * Merge)).
Definition newer (a b : Merge) : bool := mg_At b <? mg_At a.
Definition Merges (f : Feed) : list Merge :=
  sort_slice newer (concat ((λ x, (range_int x.2).*2) <$> range (f_merges f))).
End Merges.

Definition MergeAuthor (headRef proposedPrefix poster : string) : string :=
  if bool_decide (proposedPrefix ≠ "") then
    let '(rest, ok) := CutPrefix headRef (proposedPrefix +:+ "/") in
    if ok then
      let '(user, _, found) := Cut rest slash in
      if found && bool_decide (user ≠ "") then user else poster
    else poster
  else poster.

(** ** The log *)
Inductive task_call := COp (o : Op_t) | CMerge (now : Z) (m : Merge).
Definition apply_call (f : Feed) (c : task_call) : Feed :=
  match c with COp o => (RecordOp f o).1 | CMerge now m => (RecordMerge f now m).1 end.
Definition play_calls (l : list task_call) : Feed := foldl apply_call NewFeed l.

Definition log_ops (l : list task_call) : list Op_t := omap (λ c, match c with COp o => Some o | _ => None end) l.
Definition log_merges (l : list task_call) : list (Z * Merge) :=
  omap (λ c, match c with CMerge t m => Some (t, m) | _ => None end) l.

(** The last record of a PR, and the retention of the last write. *)
Definition same_pr (repo : string) (n : Z) (x : Z * Merge) : bool :=
  bool_decide (mg_RepoURL x.2 = repo) && bool_decide (mg_Number x.2 = n).
Definition spec_row (l : list (Z * Merge)) (repo : string) (n : Z) : option Merge :=
  t ← last l; x ← last (filter (λ x, same_pr repo n x = true) l);
  if (mg_At x.2 <? t.1 - MergeRetention) then None else Some x.2.
(** The clock never runs backwards. *)
Definition ticking (l : list (Z * Merge)) : Prop := StronglySorted Z.le l.*1.

Lemma RecordOp_ring f o : f_ops (RecordOp f o).1 = take opsCap (o :: f_ops f).
Proof.
  cbn [RecordOp fst f_ops]. destruct (opsCap <? length (o :: f_ops f))%nat eqn:E; [done|].
  rewrite take_ge; [done|]. by apply Nat.ltb_ge.
Qed.
Lemma play_snoc l c : play_calls (l ++ [c]) = apply_call (play_calls l) c.
Proof. unfold play_calls. by rewrite foldl_app. Qed.
Lemma ring_log l : f_ops (play_calls l) = take opsCap (reverse (log_ops l)).
Proof.
  induction l as [|c l IH] using rev_ind; [done|]. unfold log_ops in *. rewrite play_snoc, omap_app.
  destruct c as [o|t m]; cbn [apply_call omap list_omap].
  - rewrite RecordOp_ring, IH, reverse_snoc. cbn [take]. unfold opsCap. cbn [take]. f_equal.
    rewrite take_take. f_equal.
  - by rewrite app_nil_r.
Qed.

Lemma row_prune merges cutoff repo n :
  (pruneLocked merges cutoff !! repo ≫= (.!! n)) =
  (m ← merges !! repo ≫= (.!! n); if mg_At m <? cutoff then None else Some m).
Proof.
  unfold pruneLocked. apply option_eq. intros m. rewrite !bind_Some. split.
  - intros (byNum & Hb & Hm). apply map_lookup_filter_Some in Hb as [Hb _].
    rewrite lookup_fmap in Hb. apply fmap_Some in Hb as (by0 & Hb & ->).
    apply map_lookup_filter_Some in Hm as [Hm Hc]. exists m. rewrite Hb. cbn in *. split; [done|].
    by rewrite (proj2 (Z.ltb_ge _ _)) by lia.
  - intros (x & Hx & Hm). apply bind_Some in Hx as (by0 & Hb & Hx).
    destruct (Z.ltb_spec (mg_At x) cutoff); simplify_eq.
    exists (filter (λ x : Z * Merge, ¬ (mg_At x.2 < cutoff)) by0).
    assert (filter (λ x : Z * Merge, ¬ (mg_At x.2 < cutoff)) by0 !! n = Some m) as Hf.
    { apply map_lookup_filter_Some. cbn. split; [done|lia]. }
    split; [|done]. apply map_lookup_filter_Some. rewrite lookup_fmap, Hb. split; [done|].
    cbn. intros He. by rewrite He, lookup_empty in Hf.
Qed.
Lemma row_RecordMerge f now m repo n :
  row (RecordMerge f now m).1 repo n =
  (x ← (if same_pr repo n (now, m) then Some m else row f repo n);
   if mg_At x <? now - MergeRetention then None else Some x).
Proof.
  unfold row, RecordMerge. cbn [fst f_merges]. rewrite row_prune. f_equal.
  unfold same_pr. cbn [snd]. repeat case_bool_decide; subst; cbn [andb].
  - by rewrite lookup_insert_eq; cbn; rewrite lookup_insert_eq.
  - rewrite lookup_insert_eq; cbn. rewrite lookup_insert_ne by done. by destruct (f_merges f !! _).
  - by rewrite lookup_insert_ne.
  - by rewrite lookup_insert_ne.
Qed.

Lemma ticking_snoc l t m : ticking (l ++ [(t, m)]) → ticking l ∧ (∀ x, last l = Some x → x.1 ≤ t).
Proof.
  unfold ticking. rewrite fmap_app. cbn. intros Hs. split.
  - by apply StronglySorted_app_1_l in Hs.
  - intros x Hx. apply last_Some_elem_of in Hx. apply StronglySorted_app in Hs as (Hs & _ & _).
    apply (Hs x.1 t); [by apply list_elem_of_fmap_2|by left].
Qed.
Lemma spec_row_snoc l t m repo n : ticking (l ++ [(t, m)]) →
  spec_row (l ++ [(t, m)]) repo n =
  (x ← (if same_pr repo n (t, m) then Some m else spec_row l repo n);
   if mg_At x <? t - MergeRetention then None else Some x).
Proof.
  intros [_ Ht]%ticking_snoc. unfold spec_row. rewrite last_snoc, filter_app. cbn [mbind option_bind fst filter list_filter].
  destruct (same_pr repo n (t, m)) eqn:E.
  - rewrite decide_True by done. by rewrite last_snoc.
  - rewrite decide_False, app_nil_r by done. destruct (last l) as [[t0 m0]|] eqn:El.
    + specialize (Ht _ eq_refl). cbn [mbind option_bind fst] in *.
      destruct (last (filter _ l)) as [[t1 m1]|]; cbn; [|done].
      destruct (Z.ltb_spec (mg_At m1) (t0 - MergeRetention)); cbn; [|done].
      by rewrite (proj2 (Z.ltb_lt _ _)) by lia.
    + apply last_None in El as ->. done.
Qed.
Lemma rows_log l repo n : ticking (log_merges l) → row (play_calls l) repo n = spec_row (log_merges l) repo n.
Proof.
  induction l as [|c l IH] using rev_ind; [done|]. unfold log_merges in *. rewrite play_snoc, omap_app.
  destruct c as [o|t m]; cbn [apply_call omap list_omap].
  - rewrite app_nil_r. exact IH.
  - intros Hs. rewrite row_RecordMerge, spec_row_snoc by done. rewrite IH; [done|].
    by apply ticking_snoc in Hs as [? _].
Qed.

Lemma RecordMerge_quiet f now m : (RecordMerge f now m).2 = [] ↔ row f (mg_RepoURL m) (mg_Number m) = Some m.
Proof.
  unfold row, RecordMerge. cbn [snd]. destruct (f_merges f !! mg_RepoURL m) as [byNum|]; cbn; [|done].
  destruct (byNum !! mg_Number m) as [prev|]; [|done].
  destruct (bool_decide_reflect (prev ≠ m)) as [Hp|Hp]; split; try congruence.
  apply dec_stable in Hp. congruence.
Qed.
Lemma spec_row_key l repo n m : spec_row l repo n = Some m → mg_RepoURL m = repo ∧ mg_Number m = n.
Proof.
  unfold spec_row. intros (t & _ & (x & Hx & Hm)%bind_Some)%bind_Some.
  apply last_Some_elem_of, list_elem_of_filter in Hx as [Hx _]. unfold same_pr in Hx.
  apply andb_true_iff in Hx as [?%bool_decide_eq_true ?%bool_decide_eq_true].
  destruct (mg_At x.2 <? _); simplify_eq. auto.
Qed.

Lemma newer_swo : strict_weak_order newer.
Proof. unfold newer. split; intros; rewrite ?Z.ltb_lt, ?Z.ltb_ge in *; lia. Qed.

Section MergesFacts.
Context `{MapRange} `{SliceSort} (range_int : gmap Z Merge → list (Z * Merge)).
Context (range_int_perm : ∀ m, range_int m ≡ₚ map_to_list m).
Lemma elem_Merges f m : m ∈ Merges range_int f ↔ ∃ repo n, row f repo n = Some m.
Proof using range_int_perm.
  unfold Merges. rewrite sort_slice_perm, list_elem_of_In, in_concat. setoid_rewrite <- list_elem_of_In. split.
  - intros (l & ([repo byNum] & -> & Hr)%list_elem_of_fmap & Hm). cbn in Hm.
    rewrite range_perm, elem_of_map_to_list in Hr. apply list_elem_of_fmap in Hm as ([n x] & -> & Hm).
    rewrite range_int_perm, elem_of_map_to_list in Hm. exists repo, n. unfold row. by rewrite Hr.
  - intros (repo & n & (byNum & Hb & Hm)%bind_Some). eexists. split.
    + apply list_elem_of_fmap. exists (repo, byNum). split; [done|]. by rewrite range_perm, elem_of_map_to_list.
    + apply list_elem_of_fmap. exists (n, m). split; [done|]. cbn. by rewrite range_int_perm, elem_of_map_to_list.
Qed.
End MergesFacts.

(** C35: The activity feed refines its log.  After any sequence of calls under
    a clock that does not run backwards, [Ops] is the last hundred recorded
    operations, newest first; a merged PR has the row last recorded for it
    unless that is older than the retention at the last write; [Merges] lists
    exactly those rows, newest first; and recording a merge stays silent
    exactly when the row is already there. *)
Theorem feed_refines_log `{MapRange} `{SliceSort} range_int (l : list task_call) :
  (∀ m, range_int m ≡ₚ map_to_list m) → ticking (log_merges l) →
  Ops (play_calls l) = take opsCap (reverse (log_ops l)) ∧
  (∀ m, m ∈ Merges range_int (play_calls l) ↔ spec_row (log_merges l) (mg_RepoURL m) (mg_Number m) = Some m) ∧
  StronglySorted (λ a b, mg_At b ≤ mg_At a) (Merges range_int (play_calls l)) ∧
  (∀ now m, (RecordMerge (play_calls l) now m).2 = [] ↔
     spec_row (log_merges l) (mg_RepoURL m) (mg_Number m) = Some m).
Proof.
  intros Hi Ht. split_and!.
  - apply ring_log.
  - intros m. rewrite elem_Merges by done. split.
    + intros (repo & n & Hr). rewrite rows_log in Hr by done.
      by destruct (spec_row_key _ _ _ _ Hr) as [-> ->].
    + intros Hr. rewrite <- rows_log in Hr by done. eauto.
  - pose proof (sort_slice_sorted newer (concat ((λ x, (range_int x.2).*2) <$> range (f_merges (play_calls l)))) newer_swo) as Hs.
    unfold Merges. induction Hs as [|a r _ IH Hall]; constructor; [done|].
    eapply Forall_impl; [exact Hall|]. intros b. unfold newer. by rewrite Z.ltb_ge.
  - intros now m. by rewrite RecordMerge_quiet, rows_log.
Qed.

Definition demo_op (v : string) : Op_t :=
  {| op_Verb := v; op_Namespace := ""; op_Name := "tank"; op_By := "admin"; op_OK := true; op_At := 5 |}.
Definition demo_merge (at_ : Z) : Merge :=
  {| mg_RepoURL := "r"; mg_Number := 1; mg_URL := "u"; mg_Title := "t"; mg_By := "b"; mg_At := at_ |}.
Lemma feed_refines_log_witness :
  let l := [COp (demo_op "create pool"); CMerge 10 (demo_merge 9); COp (demo_op "delete pool")] in
  Ops (play_calls l) = [demo_op "delete pool"; demo_op "create pool"] ∧
  (RecordMerge (play_calls l) 20 (demo_merge 9)).2 = [] ∧ (RecordMerge (play_calls l) 20 (demo_merge 8)).2 = [TaskChanged].
Proof.
  intros l.
  destruct (@feed_refines_log map_range insertion_slice_sort map_to_list l (λ m, reflexivity _)) as (HO & _ & _ & HQ).
  { repeat constructor. }
  rewrite HO. split; [reflexivity|]. split; [|vm_compute; reflexivity].
  apply HQ. vm_compute. reflexivity.
Defined.

Example MergeAuthor_ex :
  MergeAuthor "dotvirt/alice/fix" "dotvirt" "bot" = "alice" ∧ MergeAuthor "main" "dotvirt" "bob" = "bob" ∧
  MergeAuthor "dotvirt//x" "dotvirt" "bot" = "bot".
Proof. done. Qed.
