(* ===== verification/ReflectStore.v ===== *)
(** * internal/reflect/store.go and the wiring of internal/clusterstate

    A reflector applies what it lists and watches to a store.  [countingStore]
    wraps client-go's indexer and calls back after each mutation it applied;
    [signalStore] keeps nothing and only calls back; [TrackHealth] turns the
    outcomes of lists and watches into a flag.  [clusterstate.New] gives every
    reflector a store that publishes its kind, and one flag for all of them. *)

From S2P Require Import Prelude GoStrings EventBus.
Open Scope Z_scope.

Inductive callback := OnChange | OnSynced.
#[global] Instance callback_eq_dec : EqDecision callback.
Proof. solve_decision. Defined.

(** What a reflector does to its store. *)
Inductive mutation (O : Type) :=
  | MAdd (o : O) | MUpdate (o : O) | MDelete (o : O) | MReplace (l : list O) (rv : string).
Arguments MAdd {O} o. Arguments MUpdate {O} o. Arguments MDelete {O} o. Arguments MReplace {O} l rv.
Definition is_replace {O} (m : mutation O) : bool := match m with MReplace _ _ => true | _ => false end.

(** client-go's [cache.Indexer]: a mutation fails or gives the next contents. *)
Class Indexer (I O : Type) := {
  idx_Add : I → O → error + I;
  idx_Update : I → O → error + I;
  idx_Delete : I → O → error + I;
  idx_Replace : I → list O → string → error + I;
}.
Definition idx_apply {I O : Type} {HI : Indexer I O} (i : I) (m : mutation O) : error + I :=
  match m with
  | MAdd o => idx_Add i o | MUpdate o => idx_Update i o | MDelete o => idx_Delete i o
  | MReplace l rv => idx_Replace i l rv
  end.

(** [onSynced] may be nil. *)
Record countingStore (I : Type) := { cs_Indexer : I; cs_onSynced : bool; cs_didSync : bool }.
Arguments cs_Indexer {I} c. Arguments cs_onSynced {I} c. Arguments cs_didSync {I} c.
Record signalStore := { ss_onSynced : bool; ss_didSync : bool }.

Section Store.
Context {I O : Type} {HI : Indexer I O}.

Definition NewStore (idx : I) (onSynced : bool) : countingStore I :=
  {| cs_Indexer := idx; cs_onSynced := onSynced; cs_didSync := false |}.

(** The error returned, the store afterwards, the callbacks in order. *)
Definition cs_Add (c : countingStore I) (o : O) : option error * countingStore I * list callback :=
  match idx_Add (cs_Indexer c) o with
  | inl e => (Some e, c, [])
  | inr i => (None, {| cs_Indexer := i; cs_onSynced := cs_onSynced c; cs_didSync := cs_didSync c |}, [OnChange])
  end.
Definition cs_Update (c : countingStore I) (o : O) : option error * countingStore I * list callback :=
  match idx_Update (cs_Indexer c) o with
  | inl e => (Some e, c, [])
  | inr i => (None, {| cs_Indexer := i; cs_onSynced := cs_onSynced c; cs_didSync := cs_didSync c |}, [OnChange])
  end.
Definition cs_Delete (c : countingStore I) (o : O) : option error * countingStore I * list callback :=
  match idx_Delete (cs_Indexer c) o with
  | inl e => (Some e, c, [])
  | inr i => (None, {| cs_Indexer := i; cs_onSynced := cs_onSynced c; cs_didSync := cs_didSync c |}, [OnChange])
  end.
Definition cs_Replace (c : countingStore I) (l : list O) (rv : string) : option error * countingStore I * list callback :=
  match idx_Replace (cs_Indexer c) l rv with
  | inl e => (Some e, c, [])
  | inr i =>
      (None, {| cs_Indexer := i; cs_onSynced := cs_onSynced c; cs_didSync := true |},
       (if negb (cs_didSync c) && cs_onSynced c then [OnSynced] else []) ++ [OnChange])
  end.
Definition cs_apply (c : countingStore I) (m : mutation O) : option error * countingStore I * list callback :=
  match m with
  | MAdd o => cs_Add c o | MUpdate o => cs_Update c o | MDelete o => cs_Delete c o
  | MReplace l rv => cs_Replace c l rv
  end.

(** [signalStore] ignores what it is given. *)
Definition NewSignalStore (onSynced : bool) : signalStore := {| ss_onSynced := onSynced; ss_didSync := false |}.
Definition ss_apply (s : signalStore) (m : mutation O) : option error * signalStore * list callback :=
  match m with
  | MAdd _ | MUpdate _ | MDelete _ => (None, s, [OnChange])
  | MReplace _ _ =>
      (None, {| ss_onSynced := ss_onSynced s; ss_didSync := true |},
       (if negb (ss_didSync s) && ss_onSynced s then [OnSynced] else []) ++ [OnChange])
  end.

(** A reflector's life: the answers and callbacks of a sequence of mutations. *)
Fixpoint cs_run (c : countingStore I) (ms : list (mutation O)) : list (option error * list callback) * countingStore I :=
  match ms with
  | [] => ([], c)
  | m :: ms' =>
      let '(e, c', cb) := cs_apply c m in
      let '(out, c'') := cs_run c' ms' in ((e, cb) :: out, c'')
  end.
Fixpoint ss_run (s : signalStore) (ms : list (mutation O)) : list (option error * list callback) * signalStore :=
  match ms with
  | [] => ([], s)
  | m :: ms' =>
      let '(e, s', cb) := ss_apply s m in
      let '(out, s'') := ss_run s' ms' in ((e, cb) :: out, s'')
  end.

(** The specification: the indexer alone, and when the first relist landed. *)
Fixpoint idx_run (i : I) (ms : list (mutation O)) : list (option error) * I :=
  match ms with
  | [] => ([], i)
  | m :: ms' =>
      match idx_apply i m with
      | inl e => let '(out, i') := idx_run i ms' in (Some e :: out, i')
      | inr i1 => let '(out, i') := idx_run i1 ms' in (None :: out, i')
      end
  end.
Fixpoint signals (fire : bool) (ms : list (mutation O)) (errs : list (option error)) : list (list callback) :=
  match ms, errs with
  | m :: ms', None :: errs' =>
      ((if fire && is_replace m then [OnSynced] else []) ++ [OnChange]) :: signals (fire && negb (is_replace m)) ms' errs'
  | _ :: ms', Some _ :: errs' => [] :: signals fire ms' errs'
  | _, _ => []
  end.

Lemma cs_apply_spec c m :
  cs_apply c m = match idx_apply (cs_Indexer c) m with
    | inl e => (Some e, c, [])
    | inr i => (None, {| cs_Indexer := i; cs_onSynced := cs_onSynced c;
                         cs_didSync := if is_replace m then true else cs_didSync c |},
                (if negb (cs_didSync c) && cs_onSynced c && is_replace m then [OnSynced] else []) ++ [OnChange])
    end.
Proof.
  destruct m; cbn; unfold cs_Add, cs_Update, cs_Delete, cs_Replace; rewrite ?andb_false_r, ?andb_true_r; done.
Qed.
Lemma cs_run_spec c ms :
  let '(errs, i) := idx_run (cs_Indexer c) ms in
  (cs_run c ms).1.*1 = errs ∧ (cs_run c ms).1.*2 = signals (negb (cs_didSync c) && cs_onSynced c) ms errs ∧
  cs_Indexer (cs_run c ms).2 = i.
Proof.
  revert c. induction ms as [|m ms IH]; intros c; cbn [cs_run idx_run]; [done|].
  rewrite cs_apply_spec. destruct (idx_apply (cs_Indexer c) m) as [e|i].
  - specialize (IH c). destruct (idx_run (cs_Indexer c) ms) as [errs i'], (cs_run c ms) as [out c']. cbn in *.
    destruct IH as (-> & -> & ->). done.
  - specialize (IH {| cs_Indexer := i; cs_onSynced := cs_onSynced c; cs_didSync := if is_replace m then true else cs_didSync c |}).
    cbn [cs_Indexer cs_onSynced cs_didSync] in IH. destruct (idx_run i ms) as [errs i'], (cs_run _ ms) as [out c']. cbn in *.
    destruct IH as (-> & -> & ->). split_and!; [done| |done]. f_equal. f_equal.
    destruct (is_replace m), (cs_didSync c), (cs_onSynced c); done.
Qed.
End Store.

(** An indexer that keeps nothing and never fails. *)
#[global] Instance unit_indexer O : Indexer unit O :=
  {| idx_Add _ _ := inr tt; idx_Update _ _ := inr tt; idx_Delete _ _ := inr tt; idx_Replace _ _ _ := inr tt |}.

Lemma ss_run_cs {O} (c : countingStore unit) (s : signalStore) (ms : list (mutation O)) :
  ss_onSynced s = cs_onSynced c → ss_didSync s = cs_didSync c → (ss_run s ms).1 = (cs_run c ms).1.
Proof.
  revert c s. induction ms as [|m ms IH]; intros c s E1 E2; cbn [ss_run cs_run]; [done|].
  assert (∃ e s' c' cb, ss_apply s m = (e, s', cb) ∧ cs_apply c m = (e, c', cb) ∧
    ss_onSynced s' = cs_onSynced c' ∧ ss_didSync s' = cs_didSync c') as (e & s' & c' & cb & -> & -> & E1' & E2').
  { destruct m; cbn; rewrite ?E1, ?E2; eauto 10. }
  specialize (IH c' s' E1' E2'). destruct (ss_run s' ms), (cs_run c' ms). cbn in *. by subst.
Qed.

(** ** TrackHealth *)
Inductive outcome := ListOutcome (err : option error) | WatchOutcome (err : option error).
#[global] Instance outcome_eq_dec : EqDecision outcome.
Proof. solve_decision. Defined.
Definition TrackHealth (healthy : bool) (o : outcome) : bool :=
  match o with
  | ListOutcome (Some _) => false
  | ListOutcome None => healthy
  | WatchOutcome e => bool_decide (e = None)
  end.

(** ** clusterstate.New and the hub's subscription (cmd/stornas/main.go) *)
Inductive reflector :=
  | RPools | RShares | RInventories | RTargets | RSnapshots | RBacking | RNodes | RPVCs | REvents.
#[global] Instance reflector_eq_dec : EqDecision reflector.
Proof. solve_decision. Defined.
Definition kind_of (r : reflector) : Kind :=
  match r with
  | RPools => PoolChanged | RShares => ShareChanged | RInventories => NodeChanged | RTargets => TargetChanged
  | RSnapshots => SnapshotChanged | RBacking => VolumeChanged | RNodes => NodeChanged | RPVCs => VolumeChanged
  | REvents => AlertChanged
  end.
(** What each reflector lists and watches, over all namespaces; the event
    reflector selects warnings. *)
Record GroupVersionResource := { gvr_Group : string; gvr_Version : string; gvr_Resource : string }.
Definition poolGVR := {| gvr_Group := "storage.stornas.io"; gvr_Version := "v1alpha1"; gvr_Resource := "storagepools" |}.
Definition shareGVR := {| gvr_Group := "storage.stornas.io"; gvr_Version := "v1alpha1"; gvr_Resource := "shares" |}.
Definition inventoryGVR :=
  {| gvr_Group := "storage.stornas.io"; gvr_Version := "v1alpha1"; gvr_Resource := "nodeinventories" |}.
Definition targetGVR := {| gvr_Group := "storage.stornas.io"; gvr_Version := "v1alpha1"; gvr_Resource := "targets" |}.
Definition rdrbdVolumeGVR := {| gvr_Group := "r-drbd.io"; gvr_Version := "v1alpha1"; gvr_Resource := "volumes" |}.
Definition snapshotGVR :=
  {| gvr_Group := "snapshot.storage.k8s.io"; gvr_Version := "v1"; gvr_Resource := "volumesnapshots" |}.
Definition core (resource : string) : GroupVersionResource :=
  {| gvr_Group := ""; gvr_Version := "v1"; gvr_Resource := resource |}.
Record reflectorSpec := {
  rs_store : reflector; rs_signal : Kind; rs_resource : GroupVersionResource; rs_selector : string;
}.
Definition specs : list reflectorSpec :=
  [ {| rs_store := RPools; rs_signal := PoolChanged; rs_resource := poolGVR; rs_selector := "" |};
    {| rs_store := RShares; rs_signal := ShareChanged; rs_resource := shareGVR; rs_selector := "" |};
    {| rs_store := RInventories; rs_signal := NodeChanged; rs_resource := inventoryGVR; rs_selector := "" |};
    {| rs_store := RTargets; rs_signal := TargetChanged; rs_resource := targetGVR; rs_selector := "" |};
    {| rs_store := RSnapshots; rs_signal := SnapshotChanged; rs_resource := snapshotGVR; rs_selector := "" |};
    {| rs_store := RBacking; rs_signal := VolumeChanged; rs_resource := rdrbdVolumeGVR; rs_selector := "" |};
    {| rs_store := RNodes; rs_signal := NodeChanged; rs_resource := core "nodes"; rs_selector := "" |};
    {| rs_store := RPVCs; rs_signal := VolumeChanged; rs_resource := core "persistentvolumeclaims"; rs_selector := "" |};
    {| rs_store := REvents; rs_signal := AlertChanged; rs_resource := core "events"; rs_selector := "type=Warning" |} ].
(** Every store has one reflector, of its own resource, and signals its kind. *)
Lemma specs_cover r : ∃ s, filter (λ s, rs_store s = r) specs = [s] ∧ rs_signal s = kind_of r.
Proof. destruct r; eexists; (split; [vm_compute; reflexivity|reflexivity]). Qed.
Definition hub_kinds : list Kind :=
  [PoolChanged; NodeChanged; VolumeChanged; ShareChanged; TargetChanged; SnapshotChanged; AlertChanged; TaskChanged].
(** The callbacks of a store, on the bus: no store passes an [onSynced]. *)
Definition publish_callbacks (r : reflector) (b : Bus) (cbs : list callback) : Bus :=
  foldl (λ b cb, match cb with OnChange => Publish b (kind_of r) | OnSynced => b end) b cbs.
(** All nine reflectors share the flag of [State]. *)
Definition run_health (healthy : bool) (l : list (reflector * outcome)) : bool :=
  foldl (λ h x, TrackHealth h x.2) healthy l.
Definition Healthy (l : list (reflector * outcome)) : bool := run_health true l.
(** A reflector whose last list or watch failed. *)
Definition failing (r : reflector) (l : list (reflector * outcome)) : bool :=
  match last (filter (λ x, x.1 = r) l) with
  | Some (_, ListOutcome (Some _)) | Some (_, WatchOutcome (Some _)) => true
  | _ => false
  end.

Lemma run_health_app h l1 l2 : run_health h (l1 ++ l2) = run_health (run_health h l1) l2.
Proof. unfold run_health. apply foldl_app. Qed.

(** A store signals every mutation it applied and nothing else.  Wrapping
    an indexer changes neither its answers nor its contents; a mutation that
    failed calls nothing back; one that succeeded calls [onChange] exactly
    once, after it was applied, and the first successful relist, and only
    that one, first calls [onSynced].  The store that keeps nothing sends the
    same signals as a wrapped indexer that never fails. *)
Theorem store_signals_mutations {I O : Type} {HI : Indexer I O} (idx : I) onSynced (ms : list (mutation O)) :
  let '(errs, i) := idx_run idx ms in
  let '(out, c) := cs_run (NewStore idx onSynced) ms in
  out.*1 = errs ∧ cs_Indexer c = i ∧ out.*2 = signals onSynced ms errs ∧
  (ss_run (NewSignalStore onSynced) ms).1.*2 = signals onSynced ms (replicate (length ms) None).
Proof.
  pose proof (cs_run_spec (NewStore idx onSynced) ms) as Hs. cbn in Hs.
  destruct (idx_run idx ms) as [errs i], (cs_run _ ms) as [out c]. cbn in Hs. destruct Hs as (? & ? & ?).
  split_and!; [done..|].
  pose proof (cs_run_spec (NewStore tt onSynced) ms) as Hu. cbn in Hu.
  rewrite (ss_run_cs (NewStore tt onSynced)) by done.
  assert ((idx_run tt ms).1 = replicate (length ms) None) as Hr.
  { clear. induction ms as [|m ms IH]; [done|]. cbn. destruct m; cbn; destruct (idx_run tt ms); cbn in *; by rewrite IH. }
  destruct (idx_run tt ms) as [errs' []]. cbn in Hr. destruct Hu as (_ & -> & _). by rewrite Hr.
Qed.

Definition demo_idx : Indexer (list string) string := {|
  idx_Add i o := if bool_decide (o = "") then inl (errorf "no key") else inr (o :: i);
  idx_Update i o := inr i; idx_Delete i o := inr (filter (λ x, x ≠ o) i); idx_Replace _ l _ := inr l |}.
Example store_signals_ex :
  let '(out, c) := cs_run (HI := demo_idx) (NewStore [] true) [MAdd ""; MReplace ["a"] "1"; MReplace ["b"] "2"; MAdd "c"] in
  out.*2 = [[]; [OnSynced; OnChange]; [OnChange]; [OnChange]] ∧ cs_Indexer c = ["c"; "b"].
Proof. done. Qed.

(** Publishing a kind of the hub's subscription moves the version it reads. *)
Lemma publish_moves b k kinds : NoDup kinds → k ∈ kinds → Version (Publish b k) kinds ≠ Version b kinds.
Proof.
  intros Hn Hk. unfold Publish. rewrite Version_wake, Version_bump, listed_nodup by done. intros He.
  apply u64_shift in He; [done|apply Version_range|lia].
Qed.
Lemma hub_kinds_nodup : NoDup hub_kinds.
Proof. apply (bool_decide_unpack _). vm_compute. exact Logic.I. Qed.
Lemma kind_of_hub r : kind_of r ∈ hub_kinds.
Proof. destruct r; apply (bool_decide_unpack _); vm_compute; exact Logic.I. Qed.
Lemma publish_pending b k id s : subs b !! id = Some s → k ∈ s_kinds s → pending (Publish b k) id = true.
Proof.
  intros Hs Hk. unfold pending, Publish, wake_subs, bump. cbn. rewrite lookup_fmap, Hs. cbn.
  unfold wake_sub. by rewrite bool_decide_eq_true_2.
Qed.

(** No mutation of the snapshot's stores is silent.  Whatever a reflector
    of [clusterstate] does to its store, a mutation that was applied leaves the
    hub's subscription woken and its version changed, and one that failed
    leaves the bus as it was. *)
Theorem mutation_wakes_hub {I O : Type} {HI : Indexer I O} r (c : countingStore I) (m : mutation O) b id :
  cs_onSynced c = false →
  subs b !! id = Some {| s_kinds := hub_kinds; s_pending := pending b id |} →
  let '(e, _, cbs) := cs_apply c m in
  let b' := publish_callbacks r b cbs in
  match e with
  | None => pending b' id = true ∧ Version b' hub_kinds ≠ Version b hub_kinds
  | Some _ => b' = b
  end.
Proof.
  intros Hs Hid. rewrite cs_apply_spec, Hs, andb_false_r. cbn [andb].
  destruct (idx_apply (cs_Indexer c) m); [done|]. unfold publish_callbacks. cbn [app foldl]. split.
  - eapply publish_pending; [exact Hid|apply kind_of_hub].
  - apply publish_moves; [apply hub_kinds_nodup|apply kind_of_hub].
Qed.
Lemma mutation_wakes_hub_witness :
  let b := (Subscribe NewBus hub_kinds).1 in
  pending (publish_callbacks RPools b [OnChange]) 0%nat = true ∧
  Version (publish_callbacks RPools b [OnChange]) hub_kinds ≠ Version b hub_kinds.
Proof.
  intros b.
  apply (mutation_wakes_hub (HI := demo_idx) RPools (NewStore [] false) (MAdd "a") b 0%nat); [reflexivity|].
  vm_compute. reflexivity.
Defined.

(** The health flag after any outcomes.  It is true exactly when the last
    outcome that was not a successful list is a successful watch, of any
    reflector, or there was none; so a single reflector that keeps failing is
    hidden by the next successful watch of another. *)
Theorem health_flag_exact (l : list (reflector * outcome)) :
  Healthy l = (match last (filter (λ x, x.2 ≠ ListOutcome None) l) with
               | Some (_, WatchOutcome None) | None => true
               | _ => false
               end) ∧
  (∀ r r', Healthy (l ++ [(r, ListOutcome (Some (errorf "down"))); (r', WatchOutcome None)]) = true) ∧
  (∀ r r', r ≠ r' → failing r (l ++ [(r, ListOutcome (Some (errorf "down"))); (r', WatchOutcome None)]) = true).
Proof.
  split_and!.
  - unfold Healthy. induction l as [|[r o] l IH] using rev_ind; [done|].
    rewrite run_health_app, filter_app, filter_cons. cbn [run_health foldl snd].
    destruct o as [[e|]|[e|]]; [rewrite decide_True by done|rewrite decide_False by (intros ?; done)|rewrite decide_True by done..].
    1,3,4: by rewrite filter_nil, last_snoc.
    rewrite filter_nil, app_nil_r. exact IH.
  - intros r r'. unfold Healthy. by rewrite run_health_app.
  - intros r r' Hne. unfold failing. rewrite filter_app, !filter_cons. cbn [fst].
    rewrite decide_True, decide_False, filter_nil, last_snoc by done. done.
Qed.
