(* ===== verification/Ui.v ===== *)
(** * The UI server's operations

    internal/auth and internal/api talk to the API server through the dynamic
    and typed clients, to the clock, the random source and the activity feed.
    A handler is a program over these operations that ends in the response it
    writes.  A request's decoded body, path values and cookie are arguments;
    an unstructured object is the record of its kind (a nested field that is
    absent reads as the empty value, as [unstructured.NestedString] does). *)

From Stdlib Require Import Ascii.
From S2P Require Import Prelude GoStrings Prog ApiTypes Tasks.

(** A CSI VolumeSnapshot: the four fields the code reads. *)
Record VolumeSnapshot := {
  vs_meta : ObjectMeta;
  vs_ClassName : string;
  vs_Source : string;
  vs_ReadyToUse : option bool;
  vs_RestoreSize : option string;
  vs_CreationTime : option string;
}.
(** A PVC with what a create sets and the UI shows; quantities as strings. *)
Record DataSource := { src_APIGroup : string; src_Kind : string; src_Name : string }.
Record Claim := {
  cl_meta : ObjectMeta;
  cl_AccessModes : list string;
  cl_VolumeMode : option string;
  cl_StorageClassName : option string;
  cl_Request : option string;
  cl_DataSource : option DataSource;
  cl_VolumeName : string;
  cl_Phase : string;
  cl_Capacity : option string;
}.
Definition ReadWriteOnce : string := "ReadWriteOnce".
Definition PersistentVolumeBlock : string := "Block".
Definition PersistentVolumeFilesystem : string := "Filesystem".

Inductive res :=
  | UPool | UShare | UTarget | UUser | USnap | UBacking | UVolume | UClaim | UNode | USecret.
#[global] Instance res_eq_dec : EqDecision res.
Proof. solve_decision. Defined.
Definition robj (k : res) : Type :=
  match k with
  | UPool => StoragePool | UShare => Share | UTarget => Target | UUser => LocalUser
  | USnap => VolumeSnapshot | UBacking => Pool | UVolume => Volume | UClaim => Claim
  | UNode => Node | USecret => Secret
  end.

(** A JSON merge patch: a literal document, or one string at a path. *)
Definition quoted (s : string) : string := String "034"%char (s +:+ String "034"%char "").
Inductive merge_patch := RawPatch (json : string) | FieldPatch (path : list string) (value : string).

Inductive uop : Type → Type :=
  | UGet (k : res) (ns name : string) : uop (error + robj k)
  | UList (k : res) (ns : string) : uop (error + list (robj k))
  | UCreate (k : res) (o : robj k) : uop (option error)
  | UUpdate (k : res) (o : robj k) : uop (option error)
  | UDelete (k : res) (ns name : string) : uop (option error)
  | UPatch (k : res) (ns name : string) (p : merge_patch) : uop (option error)
  | UNow : uop Z
  | URandText : uop string
  | USleep (d : Z) : uop unit
  | URecord (o : Op_t) : uop unit.

Abbreviation uio := (prog uop).

(** ** Identities and responses *)
Record User := { u_Name : string; u_Role : string }.
Definition no_user : User := {| u_Name := ""; u_Role := "" |}.

Inductive payload :=
  | PCreated | POk | PUser (u : User) | PSession (u : User) (mustChange : bool)
  | PUsers (l : list (string * string * bool)).
Inductive Response :=
  | HttpError (code : Z) (msg : string)
  | Reply (code : Z) (body : payload)
  | NoBody (code : Z).
Definition StatusOK : Z := 200.
Definition StatusCreated : Z := 201.
Definition StatusNoContent : Z := 204.
Definition StatusBadRequest : Z := 400.
Definition StatusUnauthorized : Z := 401.
Definition StatusForbidden : Z := 403.
Definition StatusNotFound : Z := 404.
Definition StatusConflict : Z := 409.
Definition StatusInternalServerError : Z := 500.
Definition StatusNotImplemented : Z := 501.
Definition StatusBadGateway : Z := 502.

Definition IsInvalid (e : option error) : bool := has_kind KInvalid e.
Definition IsBadRequest (e : option error) : bool := has_kind KBadRequest e.
Definition IsForbidden (e : option error) : bool := has_kind KForbidden e.

(** ** Observers *)
(** A write of the API server's state: its kind and the object it names. *)
Inductive write :=
  | WCreate (k : res) (o : robj k) | WUpdate (k : res) (o : robj k)
  | WDelete (k : res) (ns name : string) | WPatch (k : res) (ns name : string) (p : merge_patch).
Definition ev_write (e : event uop) : option (write * option error) :=
  match e with
  | Ev o x =>
      match o in uop X return X → _ with
      | UCreate k v => λ r, Some (WCreate k v, r)
      | UUpdate k v => λ r, Some (WUpdate k v, r)
      | UDelete k ns n => λ r, Some (WDelete k ns n, r)
      | UPatch k ns n p => λ r, Some (WPatch k ns n p, r)
      | _ => λ _, None
      end x
  end.
Definition ev_record (e : event uop) : option Op_t :=
  match e with Ev o _ => match o with URecord r => Some r | _ => None end end.

Abbreviation no_writes := (Forall (λ e, ev_write e = None)).

(** [tr] read the object, or listed the kind, with that answer. *)
Definition got (k : res) (ns name : string) (r : error + robj k) (tr : trace uop) : Prop :=
  Ev (UGet k ns name) r ∈ tr.
Definition listed_as (k : res) (ns : string) (l : list (robj k)) (tr : trace uop) : Prop :=
  Ev (UList k ns) (inr l) ∈ tr.

(** A concrete server for the witnesses. *)
Definition uenv (get : ∀ k, string → string → error + robj k) (lst : ∀ k, string → error + list (robj k))
    (wr : option error) : env uop unit := λ X o s,
  match o in uop X return X * unit with
  | UGet k ns n => (get k ns n, s)
  | UList k ns => (lst k ns, s)
  | UCreate _ _ | UUpdate _ _ | UDelete _ _ _ | UPatch _ _ _ _ => (wr, s)
  | UNow => (0%Z, s)
  | URandText => ("t", s)
  | USleep _ | URecord _ => (tt, s)
  end.
