(* ===== verification/Auth.v ===== *)
(** * internal/auth: sessions and logins

    auth.go is the session layer over a [Source] of users; kube.go is the
    source the server uses, LocalUsers with their password Secrets.  Every
    handler enters the lock once, so the sessions are passed as they are when
    it does. *)

From S2P Require Import Prelude GoStrings Prog ApiTypes Tasks Ui.
Open Scope Z_scope.

Definition cookieName : string := "stornas_session".
(** Twelve hours and 400 ms, in nanoseconds. *)
Definition session_ttl : Z := 12 * 3600 * 1000000000.
Definition failDelay : Z := 400 * 1000000.

Record Cookie := {
  ck_Name : string; ck_Value : string; ck_Path : string; ck_MaxAge : Z;
  ck_HttpOnly : bool; ck_SameSiteLax : bool; ck_Secure : bool;
}.
Record session := { s_user : User; s_expires : Z }.
Abbreviation Manager := (gmap string session).

(** The interfaces of auth.go: every source looks users up; some also store
    passwords. *)
Record PasswordStore := {
  MustChange : string → uio bool;
  UpdatePassword : string → string → uio (option error);
}.
Class Source := {
  Lookup : string → uio (error + (User * string));
  passwords : option PasswordStore;
}.

Definition cookie (tls : bool) (value : string) (maxAge : Z) : Cookie :=
  {| ck_Name := cookieName; ck_Value := value; ck_Path := "/"; ck_MaxAge := maxAge;
     ck_HttpOnly := true; ck_SameSiteLax := true; ck_Secure := tls |}.

(** [now.After(s.expires)] *)
Definition expired (now : Z) (s : session) : bool := s_expires s <? now.
Definition gcLocked (m : Manager) (now : Z) : Manager :=
  filter (λ x : string * session, expired now x.2 = false) m.

(** The section under the lock in [Login]: a clock reading for the collection
    and one for the new session. *)
Definition open_session (m : Manager) (tok : string) (user : User) (t1 t2 : Z) : Manager :=
  <[tok := {| s_user := user; s_expires := t2 + session_ttl |}]> (gcLocked m t1).

(** [userFor]: the clock is read once to check and once to renew. *)
Definition userFor (m : Manager) (ck : option string) : uio (Manager * option User) :=
  match ck with
  | None => Ret (m, None)
  | Some v =>
      match m !! v with
      | None => Ret (delete v m, None)
      | Some s =>
          let! t1 := call UNow in
          if expired t1 s then Ret (delete v m, None)
          else
            let! t2 := call UNow in
            Ret (<[v := {| s_user := s_user s; s_expires := t2 + session_ttl |}]> m, Some (s_user s))
      end
  end.

Section Manager.
Context `{Source}.

Definition Login (m : Manager) (tls : bool) (body : error + (string * string))
    : uio (Manager * Response * option Cookie) :=
  match body with
  | inl _ => Ret (m, HttpError StatusBadRequest "bad request", None)
  | inr (username, password) =>
      if bool_decide (username = "") then Ret (m, HttpError StatusBadRequest "bad request", None)
      else
        let! l := Lookup username in
        match (match l with
               | inr (user, pw) => if negb (bool_decide (pw = "")) && bool_decide (pw = password) then Some user else None
               | inl _ => None
               end) with
        | None =>
            call (USleep failDelay) ;;;
            Ret (m, HttpError StatusUnauthorized "invalid credentials", None)
        | Some user =>
            let! a := call URandText in
            let! b := call URandText in
            let tok := a +:+ b in
            let! t1 := call UNow in
            let! t2 := call UNow in
            Ret (open_session m tok user t1 t2, Reply StatusOK (PUser user),
                 Some (cookie tls tok (session_ttl / 1000000000)))
        end
  end.

Definition Logout (m : Manager) (tls : bool) (ck : option string) : uio (Manager * Response * option Cookie) :=
  Ret (match ck with Some v => delete v m | None => m end, NoBody StatusNoContent, Some (cookie tls "" (-1))).

Definition unauthenticated : Response := HttpError StatusUnauthorized "unauthenticated".

Definition Session (m : Manager) (ck : option string) : uio (Manager * Response) :=
  let! u := userFor m ck in
  let '(m', found) := u in
  match found with
  | None => Ret (m', unauthenticated)
  | Some user =>
      let! must := match passwords with Some ps => MustChange ps (u_Name user) | None => Ret false end in
      Ret (m', Reply StatusOK (PSession user must))
  end.

Definition ChangePassword (m : Manager) (ck : option string) (body : error + (string * string))
    : uio (Manager * Response) :=
  let! u := userFor m ck in
  let '(m', found) := u in
  match found with
  | None => Ret (m', unauthenticated)
  | Some user =>
      match passwords with
      | None => Ret (m', HttpError StatusNotImplemented "password change not supported")
      | Some ps =>
          match body with
          | inl _ => Ret (m', HttpError StatusBadRequest "bad request")
          | inr (current, new) =>
              if (String.length new <? 8)%nat
              then Ret (m', HttpError StatusBadRequest "new password needs at least 8 characters")
              else
                let! l := Lookup (u_Name user) in
                let wrong := match l with
                             | inl _ => true
                             | inr (_, pw) => bool_decide (pw = "") || negb (bool_decide (pw = current))
                             end in
                if wrong then
                  call (USleep failDelay) ;;;
                  Ret (m', HttpError StatusForbidden "current password is wrong")
                else
                  let! e := UpdatePassword ps (u_Name user) new in
                  match e with
                  | Some err => Ret (m', HttpError StatusInternalServerError (emsg err))
                  | None => Ret (m', NoBody StatusNoContent)
                  end
          end
      end
  end.
End Manager.

(** The gates: [next] runs with the session's identity. *)
Definition Require_ (m : Manager) (ck : option string) (next : User → uio Response) : uio (Manager * Response) :=
  let! u := userFor m ck in
  let '(m', found) := u in
  match found with
  | None => Ret (m', unauthenticated)
  | Some user => let! r := next user in Ret (m', r)
  end.
Definition RequireAdmin (m : Manager) (ck : option string) (next : User → uio Response) : uio (Manager * Response) :=
  let! u := userFor m ck in
  let '(m', found) := u in
  match found with
  | None => Ret (m', unauthenticated)
  | Some user =>
      if bool_decide (u_Role user ≠ "admin") then Ret (m', HttpError StatusForbidden "forbidden")
      else let! r := next user in Ret (m', r)
  end.

(** ** kube.go *)
Definition annotGenerated : string := "stornas.io/generated-password".

Definition Kube_Lookup (ns username : string) : uio (error + (User * string)) :=
  let! g := call (UGet UUser ns username) in
  match g with
  | inl e => Ret (inl e)
  | inr u =>
      let role := lu_Role u in
      let ref := lu_PasswordSecretRef u in
      if bool_decide (role = "") || bool_decide (ref = "")
      then Ret (inl (errorf ("localuser " +:+ username +:+ " has no role or secret ref")))
      else
        let! s := call (UGet USecret ns ref) in
        match s with
        | inl e => Ret (inl e)
        | inr secret => Ret (inr ({| u_Name := username; u_Role := role |}, mget (sec_Data secret) "password"))
        end
  end.

Definition bootstrap_secret (ns password : string) : Secret :=
  {| sec_meta := named ns "admin-password"; sec_Data := {["password" := password]} |}.
Definition bootstrap_admin (ns : string) : LocalUser :=
  {| lu_meta := {| Name := "admin"; Namespace := ns; Generation := 0; ResourceVersion := "";
                   DeletionTimestamp := None; Finalizers := []; Annotations := {[annotGenerated := "true"]};
                   Labels := ∅ |};
     lu_Role := "admin"; lu_SMB := false; lu_PasswordSecretRef := "admin-password";
     lu_Conditions := []; lu_PasswordSecretVersion := "" |}.
Definition tolerated (e : option error) : bool :=
  match e with None => true | Some _ => IsAlreadyExists e end.
Definition Bootstrap (ns : string) : uio (error + string) :=
  let! l := call (UList UUser ns) in
  match l with
  | inl e => Ret (inl e)
  | inr (_ :: _) => Ret (inr "")
  | inr [] =>
      let! password := call URandText in
      let! e := call (UCreate USecret (bootstrap_secret ns password)) in
      if negb (tolerated e) then Ret (inl (default (errorf "") e))
      else
        let! e := call (UCreate UUser (bootstrap_admin ns)) in
        if negb (tolerated e) then Ret (inl (default (errorf "") e))
        else Ret (inr password)
  end.

Definition Kube_MustChange (ns username : string) : uio bool :=
  let! g := call (UGet UUser ns username) in
  match g with
  | inl _ => Ret false
  | inr u => Ret (bool_decide (mget (Annotations (lu_meta u)) annotGenerated = "true"))
  end.

Definition clear_mark : merge_patch :=
  RawPatch ("{" +:+ quoted "metadata" +:+ ":{" +:+ quoted "annotations" +:+ ":{" +:+ quoted annotGenerated +:+ ":null}}}").
Definition Kube_UpdatePassword (ns username password : string) : uio (option error) :=
  let! g := call (UGet UUser ns username) in
  match g with
  | inl e => Ret (Some e)
  | inr u =>
      let ref := lu_PasswordSecretRef u in
      if bool_decide (ref = "") then Ret (Some (errorf ("localuser " +:+ username +:+ " has no secret ref")))
      else
        let! s := call (UGet USecret ns ref) in
        match s with
        | inl e => Ret (Some e)
        | inr secret =>
            let secret' := {| sec_meta := sec_meta secret; sec_Data := <["password" := password]> (sec_Data secret) |} in
            let! e := call (UUpdate USecret secret') in
            match e with
            | Some err => Ret (Some err)
            | None =>
                if bool_decide (mget (Annotations (lu_meta u)) annotGenerated ≠ "")
                then call (UPatch UUser ns username clear_mark)
                else Ret None
            end
        end
  end.

#[global] Instance KubeSource (ns : string) : Source := {|
  Lookup := Kube_Lookup ns;
  passwords := Some {| MustChange := Kube_MustChange ns; UpdatePassword := Kube_UpdatePassword ns |};
|}.

(** ** Sessions against their log

    The locked sections in order, each with the clock readings it took. *)
Inductive auth_call :=
  | ALogin (tok : string) (user : User) (t1 t2 : Z)
  | ALogout (tok : string)
  | AUse (tok : string) (t1 t2 : Z).

(** [userFor]'s section with the readings as arguments. *)
Definition touch (m : Manager) (tok : string) (t1 t2 : Z) : Manager * option User :=
  match m !! tok with
  | None => (delete tok m, None)
  | Some s =>
      if expired t1 s then (delete tok m, None)
      else (<[tok := {| s_user := s_user s; s_expires := t2 + session_ttl |}]> m, Some (s_user s))
  end.
Lemma wp_userFor m tok :
  wp (userFor m (Some tok)) (λ tr r, ∃ t1 t2, r = touch m tok t1 t2 ∧
    tr = match m !! tok with
         | None => []
         | Some s => if expired t1 s then [Ev UNow t1] else [Ev UNow t1; Ev UNow t2]
         end).
Proof.
  unfold userFor, touch. destruct (m !! tok) as [s|]; cbn; [|by exists 0, 0].
  intros t1. destruct (expired t1 s) eqn:E; cbn.
  - exists t1, 0. by rewrite E.
  - intros t2. exists t1, t2. by rewrite E.
Qed.

Definition auth_apply (m : Manager) (c : auth_call) : Manager :=
  match c with
  | ALogin tok u t1 t2 => open_session m tok u t1 t2
  | ALogout tok => delete tok m
  | AUse tok t1 t2 => (touch m tok t1 t2).1
  end.
Definition auth_play (l : list auth_call) : Manager := foldl auth_apply ∅ l.

(** The specification: newest call first, nothing is ever collected.  A token
    stands for the user of its login until it is logged out or left unused for
    longer than the TTL. *)
Fixpoint spec_session (l : list auth_call) (tok : string) : option session :=
  match l with
  | [] => None
  | ALogin tok' u _ t2 :: l' =>
      if bool_decide (tok' = tok) then Some {| s_user := u; s_expires := t2 + session_ttl |} else spec_session l' tok
  | ALogout tok' :: l' => if bool_decide (tok' = tok) then None else spec_session l' tok
  | AUse tok' t1 t2 :: l' =>
      if bool_decide (tok' = tok) then
        s ← spec_session l' tok;
        if expired t1 s then None else Some {| s_user := s_user s; s_expires := t2 + session_ttl |}
      else spec_session l' tok
  end.
Definition spec_user (l : list auth_call) (tok : string) (now : Z) : option User :=
  s ← spec_session (reverse l) tok; if expired now s then None else Some (s_user s).

(** The readings never run backwards. *)
Definition readings (c : auth_call) : list Z :=
  match c with ALogin _ _ t1 t2 | AUse _ t1 t2 => [t1; t2] | ALogout _ => [] end.
Definition on_time (l : list auth_call) (now : Z) : Prop :=
  StronglySorted Z.le (concat (readings <$> l) ++ [now]).

Lemma on_time_snoc l c now : on_time (l ++ [c]) now →
  on_time l (match readings c with t1 :: _ => t1 | [] => now end) ∧
  Forall (λ t, t ≤ now) (readings c) ∧ StronglySorted Z.le (readings c).
Proof.
  unfold on_time. rewrite fmap_app, concat_app. cbn. rewrite app_nil_r, <- app_assoc. intros Hs.
  apply StronglySorted_app in Hs as (Hx & Hl & Hr). split_and!.
  - apply StronglySorted_app. split_and!; [|done|repeat constructor].
    intros x y Hin [->|[]%elem_of_nil]%elem_of_cons. apply Hx; [done|].
    destruct (readings c); cbn; [by left|by left].
  - apply StronglySorted_app in Hr as (Hr & _ & _). rewrite Forall_forall. intros t Ht. apply Hr; [done|by left].
  - by apply StronglySorted_app in Hr as (_ & Hr & _).
Qed.

(** What the collected map lost had expired. *)
Record table_ok (l : list auth_call) (now : Z) : Prop := {
  to_sound : ∀ tok s, auth_play l !! tok = Some s → spec_session (reverse l) tok = Some s;
  to_live : ∀ tok s, spec_session (reverse l) tok = Some s → auth_play l !! tok = Some s ∨ s_expires s < now;
}.
Lemma table_later l t now : t ≤ now → table_ok l t → table_ok l now.
Proof. intros ? [Hs Hl]. split; [done|]. intros tok s Hs'. destruct (Hl tok s Hs'); [auto|right; lia]. Qed.
Lemma gc_lookup m t tok s : gcLocked m t !! tok = Some s ↔ m !! tok = Some s ∧ t ≤ s_expires s.
Proof. unfold gcLocked. rewrite map_lookup_filter_Some. unfold expired. cbn. by rewrite Z.ltb_ge. Qed.

Lemma table_touch l t1 t2 now tok : table_ok l t1 → t1 ≤ now → table_ok (l ++ [AUse tok t1 t2]) now.
Proof.
  intros Hok Hn. unfold auth_play. split; intros tk s; unfold auth_play; rewrite foldl_app, reverse_snoc; cbn;
    fold (auth_play l); unfold touch; destruct (table_later l t1 now Hn Hok) as [Hs Hl]; destruct Hok as [_ Hl1].
  - destruct (auth_play l !! tok) as [s0|] eqn:E; [destruct (expired t1 s0) eqn:Ee|]; cbn;
      rewrite ?lookup_delete_Some, ?lookup_insert_Some.
    + intros [Hne Ht]. rewrite bool_decide_eq_false_2 by done. auto.
    + intros [[<- <-]|[Hne Ht]].
      * rewrite bool_decide_eq_true_2 by done. rewrite (Hs _ _ E). cbn. by rewrite Ee.
      * rewrite bool_decide_eq_false_2 by done. auto.
    + intros [Hne Ht]. rewrite bool_decide_eq_false_2 by done. auto.
  - case_bool_decide as Ht; [subst tk|].
    + intros (s0 & H0 & Hx)%bind_Some. destruct (expired t1 s0) eqn:Ee; simplify_eq.
      destruct (Hl1 _ _ H0) as [E|E].
      * rewrite E, Ee. cbn. rewrite lookup_insert_eq. auto.
      * unfold expired in Ee. apply Z.ltb_ge in Ee. lia.
    + intros H0. destruct (Hl _ _ H0) as [E|E]; [left|auto].
      destruct (auth_play l !! tok) as [s0|]; [destruct (expired t1 s0)|]; cbn;
        by rewrite ?lookup_delete_ne, ?lookup_insert_ne.
Qed.
Lemma table_login l t1 t2 now tok u : table_ok l t1 → t1 ≤ t2 → t2 ≤ now → table_ok (l ++ [ALogin tok u t1 t2]) now.
Proof.
  intros Hok H1 H2. destruct Hok as [Hs Hl]. split; intros tk s; unfold auth_play; rewrite foldl_app, reverse_snoc; cbn;
    fold (auth_play l); unfold open_session.
  - rewrite lookup_insert_Some, gc_lookup. intros [[<- <-]|[Hne [Ht _]]].
    + by rewrite bool_decide_eq_true_2.
    + rewrite bool_decide_eq_false_2 by done. auto.
  - case_bool_decide as Ht; [intros [= <-]; subst tk; left; apply lookup_insert_eq|].
    intros H0. destruct (decide (t1 ≤ s_expires s)) as [Hle|Hgt]; [|right; lia].
    left. rewrite lookup_insert_ne by done. apply gc_lookup. split; [|done].
    destruct (Hl _ _ H0); [done|lia].
Qed.
Lemma table_logout l now tok : table_ok l now → table_ok (l ++ [ALogout tok]) now.
Proof.
  intros [Hs Hl]. split; intros tk s; unfold auth_play; rewrite foldl_app, reverse_snoc; cbn; fold (auth_play l).
  - rewrite lookup_delete_Some. intros [Hne Ht]. rewrite bool_decide_eq_false_2 by done. auto.
  - case_bool_decide as Ht; [done|]. intros H0. rewrite lookup_delete_ne by done. auto.
Qed.
Lemma table_play l now : on_time l now → table_ok l now.
Proof.
  revert now. induction l as [|c l IH] using rev_ind; intros now Ht.
  { split; intros tok s; [unfold auth_play; cbn; by rewrite lookup_empty|done]. }
  apply on_time_snoc in Ht as (Ht & Hn & Hs). destruct c as [tok u t1 t2|tok|tok t1 t2]; cbn in *.
  - apply Forall_cons in Hn as [? [? _]%Forall_cons]. apply StronglySorted_inv in Hs as [_ [? _]%Forall_cons].
    apply table_login; auto.
  - apply table_logout; auto.
  - apply Forall_cons in Hn as [? _]. apply table_touch; auto.
Qed.

(** The call a live token comes from. *)
Lemma spec_session_login l tok s : spec_session l tok = Some s →
  ∃ l1 t1 t2 l2, l = l2 ++ ALogin tok (s_user s) t1 t2 :: l1 ∧ ALogout tok ∉ l2.
Proof.
  revert s. induction l as [|c l IH]; intros s; cbn; [done|].
  assert (∀ s0, spec_session l tok = Some s0 → c ≠ ALogout tok →
    ∃ l1 t1 t2 l2, c :: l = l2 ++ ALogin tok (s_user s0) t1 t2 :: l1 ∧ ALogout tok ∉ l2) as Hc.
  { intros s0 (l1 & t1 & t2 & l2 & -> & Hn)%IH Hne. exists l1, t1, t2, (c :: l2). split; [done|].
    rewrite not_elem_of_cons. auto. }
  destruct c as [tok' u t1 t2|tok'|tok' t1 t2]; case_bool_decide; subst; try done.
  - intros [= <-]. exists l, t1, t2, []. split; [done|apply not_elem_of_nil].
  - intros Hs. by apply Hc.
  - intros Hs. apply Hc; [done|congruence].
  - intros (s0 & H0 & Hx)%bind_Some. destruct (expired t1 s0); simplify_eq. by apply (Hc s0).
  - intros Hs. by apply Hc.
Qed.

(** C16: The session table refines its log.  After any sequence of logins,
    logouts and uses under a clock that does not run backwards, a cookie is
    accepted exactly when its token was opened, not logged out, and never left
    unused longer than the TTL: collecting expired sessions is invisible.  The
    identity is that of the login that issued the token.  And a login leaves
    only sessions that had not expired, so the table never holds more than the
    sessions alive at the last login and those opened since. *)
Theorem auth_sessions_refine (l : list auth_call) now :
  on_time l now →
  (∀ tok t2, (touch (auth_play l) tok now t2).2 = spec_user l tok now) ∧
  (∀ tok u, spec_user l tok now = Some u →
     ∃ l1 t1 t2 l2, l = l1 ++ ALogin tok u t1 t2 :: l2 ∧ ALogout tok ∉ l2) ∧
  (∀ l' tok u t1 t2 k s, l = l' ++ [ALogin tok u t1 t2] → auth_play l !! k = Some s → k = tok ∨ t1 ≤ s_expires s).
Proof.
  intros Ht. destruct (table_play l now Ht) as [Hs Hl]. split_and!.
  - intros tok t2. unfold touch, spec_user. destruct (auth_play l !! tok) as [s|] eqn:E.
    + rewrite (Hs _ _ E). cbn. by destruct (expired now s).
    + destruct (spec_session (reverse l) tok) as [s|] eqn:E'; [|done]. cbn.
      destruct (Hl _ _ E') as [?|Hx]; [congruence|]. unfold expired. by rewrite (proj2 (Z.ltb_lt _ _)).
  - unfold spec_user. intros tok u (s & Hss & Hu)%bind_Some. destruct (expired now s); simplify_eq.
    destruct (spec_session_login _ _ _ Hss) as (l1 & t1 & t2 & l2 & Heq & Hn).
    exists (reverse l1), t1, t2, (reverse l2). split; [|by rewrite elem_of_reverse].
    rewrite <- (reverse_involutive l), Heq, reverse_app, reverse_cons. by rewrite <- app_assoc.
  - intros l' tok u t1 t2 k s ->. unfold auth_play. rewrite foldl_app. cbn. unfold open_session.
    rewrite lookup_insert_Some, gc_lookup. intros [[? _]|[_ [_ ?]]]; auto.
Qed.
Lemma auth_sessions_refine_witness :
  let u := {| u_Name := "alice"; u_Role := "admin" |} in
  let l := [ALogin "x" u 0 0; AUse "x" 5 5; ALogin "y" u 6 6; ALogout "y"] in
  (touch (auth_play l) "x" 10 10).2 = Some u ∧ (touch (auth_play l) "y" 10 10).2 = None.
Proof.
  intros u l. destruct (auth_sessions_refine l 10) as [Hr _].
  { unfold on_time. cbn. repeat (constructor; [|repeat constructor; lia]). constructor. }
  split; rewrite Hr; vm_compute; reflexivity.
Defined.

(** The evidence a login leaves: the user and the Secret it was checked
    against. *)
Definition credential (ns username password : string) (user : User) (tr : trace uop) : Prop :=
  ∃ lu sec, got UUser ns username (inr lu) tr ∧ got USecret ns (lu_PasswordSecretRef lu) (inr sec) tr ∧
    mget (sec_Data sec) "password" = password ∧ user = {| u_Name := username; u_Role := lu_Role lu |} ∧
    u_Role user ≠ "".

Lemma wp_Kube_Lookup ns username :
  wp (Kube_Lookup ns username) (λ tr r, no_writes tr ∧
    ∀ user pw, r = inr (user, pw) → credential ns username pw user tr).
Proof.
  unfold Kube_Lookup. cbn. intros [e|lu]; cbn; [split; [by repeat constructor|done]|].
  destruct (bool_decide (lu_Role lu = "")) eqn:Er; cbn; [split; [by repeat constructor|done]|].
  destruct (bool_decide (lu_PasswordSecretRef lu = "")); cbn; [split; [by repeat constructor|done]|].
  intros [e|sec]; cbn; (split; [by repeat constructor|]); [done|].
  intros user pw [= <- <-]. exists lu, sec. apply bool_decide_eq_false in Er.
  split_and!; try done; unfold got; set_solver.
Qed.
Lemma credential_app ns username pw user t1 t2 :
  credential ns username pw user t1 → credential ns username pw user (t1 ++ t2).
Proof.
  intros (lu & sec & Hl & Hs & Hrest). exists lu, sec.
  split; [by apply elem_of_app; left|]. split; [by apply elem_of_app; left|done].
Qed.

(** The two outcomes of a login. *)
Definition login_ok (ns : string) (m : Manager) (tls : bool) (body : error + (string * string)) (tr : trace uop)
    (m' : Manager) (r : Response) (ck : option Cookie) : Prop :=
  m' = m ∧ ck = None ∧ (∃ code msg, r = HttpError code msg) ∨
  ∃ username password user a b t1 t2,
    body = inr (username, password) ∧ password ≠ "" ∧ credential ns username password user tr ∧
    (Ev URandText a : event uop) ∈ tr ∧ (Ev URandText b : event uop) ∈ tr ∧
    m' = open_session m (a +:+ b) user t1 t2 ∧ r = Reply StatusOK (PUser user) ∧
    ck = Some (cookie tls (a +:+ b) 43200).
Lemma wp_Login ns m tls body :
  wp (@Login (KubeSource ns) m tls body) (λ tr '(m', r, ck), no_writes tr ∧ login_ok ns m tls body tr m' r ck).
Proof.
  unfold Login. destruct body as [e|[username password]]; [cbn; split; [constructor|left; eauto]|].
  destruct (bool_decide (username = "")); [cbn; split; [constructor|left; eauto]|].
  apply wp_bind_2. eapply wp_mono; [apply wp_Kube_Lookup|]. intros t1 [e|[user pw]] [Hw Hc].
  { cbn. intros []. split; [|left; eauto]. apply Forall_app. by repeat constructor. }
  destruct (negb (bool_decide (pw = "")) && bool_decide (pw = password)) eqn:E.
  - apply andb_true_iff in E as [E1%negb_true_iff%bool_decide_eq_false <-%bool_decide_eq_true].
    cbn. intros a b x y. split; [apply Forall_app; by repeat constructor|].
    right. exists username, pw, user, a, b, x, y. split_and!; try done.
    + by apply credential_app, Hc.
    + apply elem_of_app. right. left.
    + apply elem_of_app. right. right. left.
  - cbn. intros []. split; [|left; eauto]. apply Forall_app. by repeat constructor.
Qed.


(** A login needs the password.  A login answers an error, opens no
    session and sets no cookie, or it read the LocalUser of that name and the
    Secret it references, whose password is not empty and equals the one sent;
    then it opens exactly one session, under the fresh token of the cookie,
    for that name and the role the LocalUser had.  It writes nothing to the
    API server either way. *)
Theorem login_needs_password ns m tls body tr m' r ck :
  runs (@Login (KubeSource ns) m tls body) tr (m', r, ck) → no_writes tr ∧ login_ok ns m tls body tr m' r ck.
Proof. intros Hr. exact (wp_runs _ _ _ _ (wp_Login ns m tls body) Hr). Qed.

Definition demo_login_user : LocalUser :=
  {| lu_meta := named "stornas" "alice"; lu_Role := "admin"; lu_SMB := false; lu_PasswordSecretRef := "alice-password";
     lu_Conditions := []; lu_PasswordSecretVersion := "" |}.
Definition demo_login_env : env uop unit :=
  uenv (λ k ns n, match k return error + robj k with
                  | UUser => inr demo_login_user
                  | USecret => inr {| sec_meta := named "stornas" "alice-password"; sec_Data := {["password" := "opensesame"]} |}
                  | _ => inl (errorf "no") end)
       (λ k ns, inl (errorf "no")) None.
Abbreviation demo_login p := (@Login (KubeSource "stornas") ∅ true (inr ("alice", p))).
Lemma login_needs_password_witness :
  no_writes (run demo_login_env (demo_login "opensesame") tt).1.2 ∧
  (run demo_login_env (demo_login "guess") tt).1.1 = (∅, HttpError StatusUnauthorized "invalid credentials", None).
Proof.
  split; [|reflexivity].
  exact (proj1 (login_needs_password "stornas" ∅ true (inr ("alice", "opensesame")) _ _ _ _
    (run_runs demo_login_env (demo_login "opensesame") tt))).
Defined.

(** What a password change may write: the Secret of the session's user with
    only the password replaced, then the mark of a generated password. *)
Definition password_write (ns : string) (user : User) (new : string) (tr : trace uop) (w : write) : Prop :=
  (∃ lu sec, got UUser ns (u_Name user) (inr lu) tr ∧ got USecret ns (lu_PasswordSecretRef lu) (inr sec) tr ∧
     w = WUpdate USecret {| sec_meta := sec_meta sec; sec_Data := <["password" := new]> (sec_Data sec) |}) ∨
  w = WPatch UUser ns (u_Name user) clear_mark.

Lemma wp_UpdatePassword ns user new :
  wp (Kube_UpdatePassword ns (u_Name user) new) (λ tr r, ∀ e w x, e ∈ tr → ev_write e = Some (w, x) →
    password_write ns user new tr w).
Proof.
  unfold Kube_UpdatePassword. cbn. intros [e|lu]; cbn; [intros; split_in; done|].
  case_match; cbn; [intros; split_in; done|].
  intros [e|sec]; cbn; [intros; split_in; done|].
  assert (∀ tr, password_write ns user new
    (Ev (UGet UUser ns (u_Name user)) (inr lu) :: Ev (UGet USecret ns (lu_PasswordSecretRef lu)) (inr sec) :: tr)
    (WUpdate USecret {| sec_meta := sec_meta sec; sec_Data := <["password" := new]> (sec_Data sec) |})) as Hw.
  { intros tr. left. exists lu, sec. split_and!; [left|right; left|done]. }
  intros [e|]; cbn; [|case_match; cbn; [intros x|]]; intros e' w y He Hev; split_in; cbn in Hev; simplify_eq; auto.
  by right.
Qed.

(** The identity a cookie stands for. *)
Definition signed_in (m : Manager) (ck : option string) (user : User) (tr : trace uop) : Prop :=
  ∃ tok s t, ck = Some tok ∧ m !! tok = Some s ∧ (Ev UNow t : event uop) ∈ tr ∧ expired t s = false ∧ user = s_user s.
Lemma signed_in_app m ck user t1 t2 : signed_in m ck user t1 → signed_in m ck user (t1 ++ t2).
Proof.
  intros (tok & s & t & ? & ? & Ht & ?). exists tok, s, t. split_and!; try done; [|naive_solver..].
  apply elem_of_app. by left.
Qed.
Lemma wp_userFor_signed m ck :
  wp (userFor m ck) (λ tr '(_, found), no_writes tr ∧ ∀ user, found = Some user → signed_in m ck user tr).
Proof.
  unfold userFor. destruct ck as [tok|]; [|cbn; split; [constructor|done]].
  destruct (m !! tok) as [s|] eqn:E; [|cbn; split; [constructor|done]].
  cbn. intros t1. destruct (expired t1 s) eqn:Ee; cbn; [split; [by repeat constructor|done]|].
  intros t2. split; [by repeat constructor|]. intros user [= <-]. exists tok, s, t1. split_and!; try done. left.
Qed.

(** The evidence behind a write of a password change. *)
Definition change_ok (ns : string) (m : Manager) (ck : option string) (body : error + (string * string))
    (tr : trace uop) (w : write) : Prop :=
  ∃ user u current new, signed_in m ck user tr ∧ body = inr (current, new) ∧ (8 ≤ String.length new)%nat ∧
    current ≠ "" ∧ credential ns (u_Name user) current u tr ∧ password_write ns user new tr w.
Lemma wp_ChangePassword ns m ck body :
  wp (@ChangePassword (KubeSource ns) m ck body) (λ tr _, ∀ e w x, e ∈ tr → ev_write e = Some (w, x) →
    change_ok ns m ck body tr w).
Proof.
  unfold ChangePassword. apply wp_bind_2. eapply wp_mono; [apply wp_userFor_signed|].
  intros t1 [m1 [user|]] [Hw Hu]; cbn [passwords KubeSource].
  2:{ cbn. rewrite app_nil_r. intros e w x He Hev. rewrite Forall_forall in Hw. by rewrite (Hw e He) in Hev. }
  assert (∀ tr, no_writes tr → ∀ e w x, e ∈ t1 ++ tr → ev_write e = Some (w, x) → False) as Hno.
  { intros t Ht e w x He Hev. assert (no_writes (t1 ++ t)) as Hall by (by apply Forall_app).
    rewrite Forall_forall in Hall. by rewrite (Hall e He) in Hev. }
  destruct body as [err|[current new]]; [cbn; intros e w x He Hev; by destruct (Hno [] (Forall_nil_2 _) e w x)|].
  destruct (String.length new <? 8)%nat eqn:El; [cbn; intros e w x He Hev; by destruct (Hno [] (Forall_nil_2 _) e w x)|].
  apply Nat.ltb_ge in El. apply wp_bind_2. eapply wp_mono; [apply wp_Kube_Lookup|]. intros t2 l [Hw2 Hc].
  assert (∀ t e w x, t = t2 ++ [Ev (USleep failDelay) tt] → e ∈ t1 ++ t → ev_write e = Some (w, x) → False) as Hsleep.
  { intros t e w x -> He Hev. eapply (Hno _ _ e w x He Hev). Unshelve. apply Forall_app. by repeat constructor. }
  destruct l as [err|[u pw]]; [cbn; intros [] e w x He Hev; by destruct (Hsleep _ e w x eq_refl He Hev)|].
  destruct (bool_decide (pw = "") || negb (bool_decide (pw = current))) eqn:Ep.
  { cbn. intros [] e w x He Hev. by destruct (Hsleep _ e w x eq_refl He Hev). }
  apply orb_false_iff in Ep as [Ep1%bool_decide_eq_false Ep2%negb_false_iff%bool_decide_eq_true]. subst pw.
  apply wp_bind_2. eapply wp_mono; [apply wp_UpdatePassword|]. intros t3 er Hp.
  assert (∀ e w x, e ∈ t1 ++ t2 ++ t3 ++ [] → ev_write e = Some (w, x) → ∃ user0 u0 current0 new0,
    signed_in m ck user0 (t1 ++ t2 ++ t3 ++ []) ∧ inr (current, new) = inr (A := error) (current0, new0) ∧
    (8 ≤ String.length new0)%nat ∧ current0 ≠ "" ∧ credential ns (u_Name user0) current0 u0 (t1 ++ t2 ++ t3 ++ []) ∧
    password_write ns user0 new0 (t1 ++ t2 ++ t3 ++ []) w) as Hdone.
  { intros e w x He Hev. rewrite app_nil_r in *. exists user, u, current, new. split_and!; try done.
    - by apply signed_in_app, Hu.
    - destruct (Hc u current eq_refl) as (lu & sec & H1 & H2 & H3). exists lu, sec.
      split; [|split; [|done]]; apply elem_of_app; right; by apply elem_of_app; left.
    - rewrite !elem_of_app in He. rewrite Forall_forall in Hw, Hw2.
      destruct He as [He|[He|He]]; [by rewrite (Hw e He) in Hev|by rewrite (Hw2 e He) in Hev|].
      destruct (Hp e w x He Hev) as [(lu & sec & H1 & H2 & H3)|H3]; [left|by right].
      exists lu, sec. split; [|split; [|done]]; apply elem_of_app; right; by apply elem_of_app; right. }
  destruct er; cbn; exact Hdone.
Qed.


(** C33: A password change is the user's own.  A request to change a password
    writes only if its cookie stands for a live session, the new password has
    at least eight characters, and the current one was sent and equals the
    non-empty one in the Secret of the session's user; and all it writes is
    that user's Secret, with only the password replaced, and the removal of
    the user's generated-password mark. *)
Theorem password_change_sound ns m ck body tr m' r :
  runs (@ChangePassword (KubeSource ns) m ck body) tr (m', r) →
  ∀ e w x, e ∈ tr → ev_write e = Some (w, x) → change_ok ns m ck body tr w.
Proof. intros Hr. exact (wp_runs _ _ _ _ (wp_ChangePassword ns m ck body) Hr). Qed.

Definition demo_manager : Manager :=
  {["tok" := {| s_user := {| u_Name := "alice"; u_Role := "admin" |}; s_expires := 10 |}]}.
Abbreviation demo_change := (@ChangePassword (KubeSource "stornas") demo_manager (Some "tok") (inr ("opensesame", "correct horse"))).
Lemma password_change_sound_witness :
  change_ok "stornas" demo_manager (Some "tok") (inr ("opensesame", "correct horse"))
    (run demo_login_env demo_change tt).1.2
    (WUpdate USecret {| sec_meta := named "stornas" "alice-password";
                        sec_Data := <["password" := "correct horse"]> {["password" := "opensesame"]} |}).
Proof.
  eapply (password_change_sound "stornas" demo_manager (Some "tok") (inr ("opensesame", "correct horse")) _ _ _
    (run_runs demo_login_env demo_change tt)) with (x := None).
  - cbn. do 6 right. left.
  - reflexivity.
Defined.
