(* ===== verification/Api.v ===== *)
(** * internal/api/api.go: the mutation endpoints

    Each handler is a program over the clients; the decoded body, the path
    values and the identity the gate put on the context are its arguments.
    [resource.ParseQuantity] is a parameter. *)

From Stdlib Require Import Ascii.
From S2P Require Import Prelude GoStrings Prog ApiTypes Tasks Ui.

Class Quantity := {
  quantity : Type;
  ParseQuantity : string → error + quantity;
  Quantity_String : quantity → string;
  Quantity_Value : quantity → Z;
}.

Record API := { a_Namespace : string; a_Tasks : bool }.

Definition errInUse : error := errorf "in use".
Definition errNeedsNodes : error := errorf "replication needs three nodes".
Definition ReplicationMinNodes : nat := 3.

(** [replicated] *)
Definition replicated (class : string) : bool :=
  bool_decide (class = ReplicatedClass) || HasPrefix class (ReplicatedClass +:+ "-").
Definition orDefault (s def : string) : string := if bool_decide (s = "") then def else s.

(** ** Responses *)
Definition respond (err : option error) : Response :=
  match err with
  | None => Reply StatusCreated PCreated
  | Some e =>
      if IsInvalid err || IsBadRequest err then HttpError StatusBadRequest (emsg e)
      else if IsAlreadyExists err then HttpError StatusConflict (emsg e)
      else HttpError StatusInternalServerError (emsg e)
  end.
Definition respondDelete (err : option error) : Response :=
  match err with
  | None => Reply StatusOK POk
  | Some e =>
      if IsNotFound err then HttpError StatusNotFound (emsg e)
      else if IsInvalid err || IsBadRequest err || IsForbidden err then HttpError StatusBadRequest (emsg e)
      else HttpError StatusInternalServerError (emsg e)
  end.

(** ** Requests *)
Record poolRequest := { pr_Name : string; pr_Node : string; pr_Devices : list string; pr_Raid : string; pr_Tier : string }.
Record replaceRequest := { rr_Old : string; rr_New : string }.
Record volumeRequest := {
  vr_Name : string; vr_Size : string; vr_StorageClass : string; vr_Block : bool; vr_FromSnapshot : string; vr_Pool : string;
}.
Record targetRequest := { tr_Name : string; tr_VIP : string; tr_LUNs : list (Z * string); tr_Initiators : list string }.
Record snapshotRequest := { sr_Name : string; sr_Volume : string }.
Record shareRequest := {
  shr_Name : string; shr_Claim : string; shr_NFSClients : list string; shr_SMB : bool; shr_ValidUsers : list string;
}.
Record userRequest := { ur_Name : string; ur_Password : string; ur_Role : string; ur_SMB : bool }.

(** ** Objects the handlers create *)
Definition no_pool_status : StoragePoolStatus :=
  {| sp_Conditions := []; sp_VG := ""; sp_Capacity := None; sp_Free := None; sp_Health := "";
     sp_StatusDevices := []; sp_RebuildPercent := None |}.
Definition new_pool (req : poolRequest) : StoragePool :=
  {| sp_meta := named "" (pr_Name req);
     sp_spec := {| sp_Node := pr_Node req; sp_Devices := pr_Devices req; sp_Tier := orDefault (pr_Tier req) DefaultTier;
                   sp_Raid := orDefault (pr_Raid req) "none"; sp_Thin := None |};
     sp_status := no_pool_status |}.
Definition with_devices (p : StoragePool) (ds : list string) : StoragePool :=
  {| sp_meta := sp_meta p;
     sp_spec := {| sp_Node := sp_Node (sp_spec p); sp_Devices := ds; sp_Tier := sp_Tier (sp_spec p);
                   sp_Raid := sp_Raid (sp_spec p); sp_Thin := sp_Thin (sp_spec p) |};
     sp_status := sp_status p |}.
Definition new_target (ns : string) (req : targetRequest) : Target :=
  {| t_meta := named ns (tr_Name req); t_VIP := tr_VIP req;
     t_LUNs := (λ l, {| lun_ID := l.1; lun_ClaimName := l.2 |}) <$> tr_LUNs req;
     t_Initiators := (λ iqn, {| ini_IQN := iqn; ini_ChapSecretRef := "" |}) <$> tr_Initiators req;
     t_Conditions := []; t_IQN := ""; t_ActiveNode := ""; t_StatusLUNs := []; t_ChapSecretVersions := [];
     t_Sessions := 0; t_State := "" |}.
Definition new_snapshot (ns : string) (req : snapshotRequest) : VolumeSnapshot :=
  {| vs_meta := named ns (sr_Name req); vs_ClassName := "stornas"; vs_Source := sr_Volume req;
     vs_ReadyToUse := None; vs_RestoreSize := None; vs_CreationTime := None |}.
Definition new_share (ns : string) (req : shareRequest) : Share :=
  {| sh_meta := named ns (shr_Name req); sh_ClaimName := shr_Claim req;
     sh_NFS := match shr_NFSClients req with [] => None | cs => Some {| nfs_Clients := cs |} end;
     sh_SMB := if shr_SMB req then Some {| smb_Name := ""; smb_ValidUsers := shr_ValidUsers req |} else None;
     sh_Conditions := []; sh_Node := ""; sh_Device := ""; sh_State := "" |}.
Definition user_secret (ns : string) (req : userRequest) : Secret :=
  {| sec_meta := named ns (ur_Name req +:+ "-password"); sec_Data := {["password" := ur_Password req]} |}.
Definition new_user (ns : string) (req : userRequest) : LocalUser :=
  {| lu_meta := named ns (ur_Name req); lu_Role := orDefault (ur_Role req) "viewer"; lu_SMB := ur_SMB req;
     lu_PasswordSecretRef := ur_Name req +:+ "-password"; lu_Conditions := []; lu_PasswordSecretVersion := "" |}.

Section Handlers.
Context `{K8sMeta} `{Quantity} (a : API) (by_ : User).

(** [recordIn] and [record]. *)
Definition recordIn (ns verb name : string) (err : option error) : uio unit :=
  if negb (a_Tasks a) then Ret tt
  else
    let! now := call UNow in
    call (URecord {| op_Verb := verb; op_Namespace := ns; op_Name := name; op_By := u_Name by_;
                     op_OK := bool_decide (err = None); op_At := now |}).
Definition record (verb name : string) (err : option error) : uio unit := recordIn (a_Namespace a) verb name err.

(** [decode]: a body that does not parse is refused. *)
Definition decode {T} (body : error + T) (k : T → uio Response) : uio Response :=
  match body with
  | inl e => Ret (HttpError StatusBadRequest ("bad request: " +:+ emsg e))
  | inr req => k req
  end.

(** The device another pool of the node already claims. *)
Fixpoint device_taken (devices : list string) (requested : list string) : option string :=
  match requested with
  | [] => None
  | d :: ds => if bool_decide (d ∈ devices) then Some d else device_taken devices ds
  end.
Fixpoint claimed_by (req : poolRequest) (pools : list StoragePool) : option (string * string) :=
  match pools with
  | [] => None
  | p :: ps =>
      if bool_decide (sp_Node (sp_spec p) ≠ pr_Node req) then claimed_by req ps
      else match device_taken (sp_Devices (sp_spec p)) (pr_Devices req) with
           | Some d => Some (d, Name (sp_meta p))
           | None => claimed_by req ps
           end
  end.
Definition CreatePool (body : error + poolRequest) : uio Response :=
  decode body (λ req,
    let! l := call (UList UPool "") in
    match l with
    | inl e => Ret (HttpError StatusInternalServerError ("pools: " +:+ emsg e))
    | inr pools =>
        match claimed_by req pools with
        | Some (d, owner) =>
            record "create pool" (pr_Name req) (Some errInUse) ;;;
            Ret (HttpError StatusConflict (d +:+ " belongs to pool " +:+ owner))
        | None =>
            let! e := call (UCreate UPool (new_pool req)) in
            record "create pool" (pr_Name req) e ;;;
            Ret (respond e)
        end
    end).

Definition DeletePool_http (name : string) : uio Response :=
  let! g := call (UGet UPool "" name) in
  match g with
  | inl e => Ret (respondDelete (Some e))
  | inr _ =>
      let! b := call (UGet UBacking "" name) in
      let! refusal :=
        match b with
        | inl e =>
            if IsNotFound (Some e) then Ret None
            else Ret (Some (HttpError StatusBadGateway ("cannot verify the pool is unused: " +:+ emsg e)))
        | inr backing =>
            match ps_Volumes (p_status backing) with
            | [] => Ret None
            | vols =>
                record "delete pool" name (Some errInUse) ;;;
                Ret (Some (HttpError StatusConflict
                  ("pool still backs volumes (" +:+ Join vols ", " +:+ "); delete them first")))
            end
        end in
      match refusal with
      | Some r => Ret r
      | None =>
          let! derr := call (UDelete UPool "" name) in
          record "delete pool" name derr ;;;
          Ret (respondDelete derr)
      end
  end.

Definition ReplacePoolDevice (name : string) (body : error + replaceRequest) : uio Response :=
  decode body (λ req,
    if bool_decide (rr_Old req = "") || bool_decide (rr_New req = "")
    then Ret (HttpError StatusBadRequest "old and new device paths required")
    else
      let! g := call (UGet UPool "" name) in
      match g with
      | inl e => record "replace disk" name (Some e) ;;; Ret (respondDelete (Some e))
      | inr pool =>
          let devices := sp_Devices (sp_spec pool) in
          if negb (bool_decide (rr_Old req ∈ devices))
          then Ret (HttpError StatusConflict (rr_Old req +:+ " is not a member of pool " +:+ name))
          else
            let devices' := (λ d, if bool_decide (d = rr_Old req) then rr_New req else d) <$> devices in
            let! uerr := call (UUpdate UPool (with_devices pool devices')) in
            record "replace disk" name uerr ;;;
            Ret (respondDelete uerr)
      end).

(** ** Volumes *)
Definition set_size (r : volumeRequest) (s : string) : volumeRequest :=
  {| vr_Name := vr_Name r; vr_Size := s; vr_StorageClass := vr_StorageClass r; vr_Block := vr_Block r;
     vr_FromSnapshot := vr_FromSnapshot r; vr_Pool := vr_Pool r |}.
Definition set_class (r : volumeRequest) (c : string) : volumeRequest :=
  {| vr_Name := vr_Name r; vr_Size := vr_Size r; vr_StorageClass := c; vr_Block := vr_Block r;
     vr_FromSnapshot := vr_FromSnapshot r; vr_Pool := vr_Pool r |}.
Definition set_block (r : volumeRequest) : volumeRequest :=
  {| vr_Name := vr_Name r; vr_Size := vr_Size r; vr_StorageClass := vr_StorageClass r; vr_Block := true;
     vr_FromSnapshot := vr_FromSnapshot r; vr_Pool := vr_Pool r |}.

(** What a restore inherits from the readable source PVC. *)
Definition inherit_claim (req : volumeRequest) (pvc : Claim) : volumeRequest :=
  let req1 := match cl_StorageClassName pvc with
              | Some c => if bool_decide (vr_StorageClass req = "") then set_class req c else req
              | None => req
              end in
  if bool_decide (cl_VolumeMode pvc = Some PersistentVolumeBlock) then set_block req1 else req1.
Definition restore_defaults (ns : string) (req : volumeRequest) : uio (Response + volumeRequest) :=
  if bool_decide (vr_FromSnapshot req = "") then Ret (inr req)
  else
    let! g := call (UGet USnap ns (vr_FromSnapshot req)) in
    match g with
    | inl e => Ret (inl (HttpError StatusBadRequest ("snapshot: " +:+ emsg e)))
    | inr snap =>
        match (if bool_decide (vr_Size req = "") then set_size req <$> vs_RestoreSize snap else Some req) with
        | None => Ret (inl (HttpError StatusBadRequest "snapshot has no restoreSize yet; pass an explicit size"))
        | Some req1 =>
            let src := vs_Source snap in
            if bool_decide (src = "") then Ret (inr req1)
            else
              let! p := call (UGet UClaim ns src) in
              match p with
              | inr pvc => Ret (inr (inherit_claim req1 pvc))
              | inl e =>
                  if bool_decide (vr_StorageClass req1 = "")
                  then Ret (inl (HttpError StatusConflict ("snapshot source PVC " +:+ src +:+ " is not readable (" +:+ emsg e +:+
                         "); pass storageClass (and block) explicitly")))
                  else Ret (inr req1)
              end
        end
    end.

Definition pin_pool (req : volumeRequest) : uio (Response + volumeRequest) :=
  if bool_decide (vr_Pool req = "") then Ret (inr req)
  else
    let! g := call (UGet UPool "" (vr_Pool req)) in
    match g with
    | inl e => Ret (inl (HttpError StatusBadRequest ("pool: " +:+ emsg e)))
    | inr pool =>
        let local := (TierClasses (sp_Tier (sp_spec pool))).1 in
        if negb (bool_decide (vr_StorageClass req = "")) && negb (bool_decide (vr_StorageClass req = local))
        then Ret (inl (HttpError StatusBadRequest
               ("pool " +:+ vr_Pool req +:+ " serves class " +:+ local +:+ ", not " +:+ vr_StorageClass req)))
        else Ret (inr (set_class req local))
    end.

Definition enough_nodes (ns : string) (req : volumeRequest) : uio (option Response) :=
  if negb (replicated (vr_StorageClass req)) then Ret None
  else
    let! l := call (UList UNode "") in
    match l with
    | inl e => Ret (Some (HttpError StatusInternalServerError ("nodes: " +:+ emsg e)))
    | inr nodes =>
        if (length nodes <? ReplicationMinNodes)%nat then
          recordIn ns "create volume" (vr_Name req) (Some errNeedsNodes) ;;;
          Ret (Some (HttpError StatusConflict (emsg errNeedsNodes)))
        else Ret None
    end.

Definition new_claim (ns : string) (req : volumeRequest) (size : quantity) : Claim :=
  {| cl_meta := {| Name := vr_Name req; Namespace := ns; Generation := 0; ResourceVersion := "";
                   DeletionTimestamp := None; Finalizers := [];
                   Annotations := (if bool_decide (vr_Pool req = "") then id else <[PoolAnnotation := vr_Pool req]>)
                                    {[ConsumerAnnotation := ConsumerHost]};
                   Labels := ∅ |};
     cl_AccessModes := [ReadWriteOnce];
     cl_VolumeMode := Some (if vr_Block req then PersistentVolumeBlock else PersistentVolumeFilesystem);
     cl_StorageClassName := if bool_decide (vr_StorageClass req = "") then None else Some (vr_StorageClass req);
     cl_Request := Some (Quantity_String size);
     cl_DataSource := if bool_decide (vr_FromSnapshot req = "") then None
                      else Some {| src_APIGroup := "snapshot.storage.k8s.io"; src_Kind := "VolumeSnapshot";
                                   src_Name := vr_FromSnapshot req |};
     cl_VolumeName := ""; cl_Phase := ""; cl_Capacity := None |}.

Definition CreateVolume (ns : string) (body : error + volumeRequest) : uio Response :=
  decode body (λ req0,
    let! r1 := restore_defaults ns req0 in
    match r1 with
    | inl r => Ret r
    | inr req1 =>
        let! r2 := pin_pool req1 in
        match r2 with
        | inl r => Ret r
        | inr req =>
            let! r3 := enough_nodes ns req in
            match r3 with
            | Some r => Ret r
            | None =>
                match ParseQuantity (vr_Size req) with
                | inl e => Ret (HttpError StatusBadRequest ("invalid size: " +:+ emsg e))
                | inr size =>
                    let! cerr := call (UCreate UClaim (new_claim ns req size)) in
                    recordIn ns (if bool_decide (vr_FromSnapshot req = "") then "create volume" else "restore volume")
                      (vr_Name req) cerr ;;;
                    Ret (respond cerr)
                end
            end
        end
    end).

(** [claimReferenced]: the first share, then the first target. *)
Definition share_using (claim : string) (shares : list Share) : option string :=
  (λ s, "share " +:+ Name (sh_meta s)) <$> head (filter (λ s, sh_ClaimName s = claim) shares).
Definition target_using (claim : string) (targets : list Target) : option string :=
  (λ t, "target " +:+ Name (t_meta t)) <$> head (filter (λ t, claim ∈ (lun_ClaimName <$> t_LUNs t)) targets).
Definition claimReferenced (claim : string) : uio (error + string) :=
  let! s := call (UList UShare (a_Namespace a)) in
  match s with
  | inl e => Ret (inl e)
  | inr shares =>
      match share_using claim shares with
      | Some ref => Ret (inr ref)
      | None =>
          let! t := call (UList UTarget (a_Namespace a)) in
          match t with
          | inl e => Ret (inl e)
          | inr targets => Ret (inr (default "" (target_using claim targets)))
          end
      end
  end.
Definition DeleteVolume (ns name : string) : uio Response :=
  let! refusal :=
    (if bool_decide (ns = a_Namespace a) then
       let! c := claimReferenced name in
       match c with
       | inl e => Ret (Some (HttpError StatusInternalServerError (emsg e)))
       | inr ref =>
           if bool_decide (ref = "") then Ret None
           else
             recordIn ns "delete volume" name (Some errInUse) ;;;
             Ret (Some (HttpError StatusConflict ("volume is in use by " +:+ ref)))
       end
     else Ret None) in
  match refusal with
  | Some r => Ret r
  | None =>
      let! e := call (UDelete UClaim ns name) in
      recordIn ns "delete volume" name e ;;;
      Ret (respondDelete e)
  end.

Definition survivor_patch (survivor : string) : merge_patch := FieldPatch ["spec"; "resolve"; "survivor"] survivor.
Definition ResolveSplitBrain (ns name : string) (body : error + string) : uio Response :=
  decode body (λ survivor,
    if bool_decide (survivor = "") then Ret (HttpError StatusBadRequest "survivor node required")
    else
      let! p := call (UGet UClaim ns name) in
      match p with
      | inl e => Ret (respondDelete (Some e))
      | inr pvc =>
          let res := cl_VolumeName pvc in
          if bool_decide (res = "") then Ret (HttpError StatusConflict "volume has no bound PV yet")
          else
            let! g := call (UGet UVolume "" res) in
            match g with
            | inl e => Ret (HttpError StatusBadGateway ("r-drbd volume " +:+ res +:+ ": " +:+ emsg e))
            | inr vol =>
                if negb (IsStatusConditionTrue (v_Conditions vol) ConditionSplitBrain)
                then Ret (HttpError StatusConflict
                       (name +:+ " is not in split brain (r-drbd reports no SplitBrain condition)"))
                else if negb (Diskful vol survivor)
                then Ret (HttpError StatusConflict (survivor +:+ " holds no replica of " +:+ name))
                else
                  let! perr := call (UPatch UVolume "" res (survivor_patch survivor)) in
                  recordIn ns "resolve split-brain" name perr ;;;
                  match perr with
                  | Some e => Ret (HttpError StatusBadGateway ("r-drbd volume " +:+ res +:+ ": " +:+ emsg e))
                  | None => Ret (respondDelete None)
                  end
            end
      end).

Definition resize_patch (size : quantity) : merge_patch :=
  RawPatch ("{" +:+ quoted "spec" +:+ ":{" +:+ quoted "resources" +:+ ":{" +:+ quoted "requests" +:+ ":{" +:+
            quoted "storage" +:+ ":" +:+ quoted (Quantity_String size) +:+ "}}}}").
Definition ResizeVolume (ns name : string) (body : error + string) : uio Response :=
  decode body (λ size,
    match ParseQuantity size with
    | inl e => Ret (HttpError StatusBadRequest ("invalid size: " +:+ emsg e))
    | inr q =>
        let! perr := call (UPatch UClaim ns name (resize_patch q)) in
        recordIn ns "resize volume" name perr ;;;
        Ret (respondDelete perr)
    end).

(** ** Shares, targets, snapshots *)
Definition DeleteShare (name : string) : uio Response :=
  let! e := call (UDelete UShare (a_Namespace a) name) in
  record "delete share" name e ;;;
  Ret (respondDelete e).
Definition CreateTarget (body : error + targetRequest) : uio Response :=
  decode body (λ req,
    let! e := call (UCreate UTarget (new_target (a_Namespace a) req)) in
    record "create target" (tr_Name req) e ;;;
    Ret (respond e)).
Definition DeleteTarget (name : string) : uio Response :=
  let! e := call (UDelete UTarget (a_Namespace a) name) in
  record "delete target" name e ;;;
  Ret (respondDelete e).
Definition CreateSnapshot (ns : string) (body : error + snapshotRequest) : uio Response :=
  decode body (λ req,
    let! e := call (UCreate USnap (new_snapshot ns req)) in
    recordIn ns "create snapshot" (sr_Name req) e ;;;
    Ret (respond e)).
Definition DeleteSnapshot (ns name : string) : uio Response :=
  let! e := call (UDelete USnap ns name) in
  recordIn ns "delete snapshot" name e ;;;
  Ret (respondDelete e).

(** [nfsClientRE]: ^[^\s()]+(\([^\s()]*\))?$ *)
Definition re_space (c : ascii) : bool :=
  (* \t \n \f \r and the blank *)
  existsb (ch_eqb c) ["009"%char; "010"%char; "012"%char; "013"%char; " "%char].
Definition re_plain (c : ascii) : bool :=
  negb (re_space c) && negb (ch_eqb c "("%char) && negb (ch_eqb c ")"%char).
Fixpoint plain_prefix (s : string) : string * string :=
  match s with
  | EmptyString => ("", "")
  | String c s' => if re_plain c then let '(p, r) := plain_prefix s' in (String c p, r) else ("", s)
  end.
Definition nfsClientRE (s : string) : bool :=
  let '(host, rest) := plain_prefix s in
  negb (bool_decide (host = "")) &&
  match rest with
  | EmptyString => true
  | String c opts =>
      ch_eqb c "("%char && bool_decide ((plain_prefix opts).2 = ")")
  end.
Definition CreateShare (body : error + shareRequest) : uio Response :=
  decode body (λ req,
    match head (filter (λ c, nfsClientRE c = false) (shr_NFSClients req)) with
    | Some c => Ret (HttpError StatusBadRequest ("invalid NFS client entry: " +:+ c))
    | None =>
        let! e := call (UCreate UShare (new_share (a_Namespace a) req)) in
        record "create share" (shr_Name req) e ;;;
        Ret (respond e)
    end).

(** ** Users *)
Definition CreateUser (body : error + userRequest) : uio Response :=
  decode body (λ req,
    if (String.length (ur_Password req) <? 8)%nat
    then Ret (HttpError StatusBadRequest "password needs at least 8 characters")
    else
      let! serr := call (UCreate USecret (user_secret (a_Namespace a) req)) in
      match serr with
      | Some _ => Ret (respond serr)
      | None =>
          let! err := call (UCreate UUser (new_user (a_Namespace a) req)) in
          (match err with
           | Some _ => call (UDelete USecret (a_Namespace a) (ur_Name req +:+ "-password")) ;;; Ret tt
           | None => Ret tt
           end) ;;;
          record "create user" (ur_Name req) err ;;;
          Ret (respond err)
      end).

Definition DeleteUser (name : string) : uio Response :=
  if bool_decide (name = "admin") then Ret (HttpError StatusConflict "the admin user cannot be deleted")
  else
    let! g := call (UGet UUser (a_Namespace a) name) in
    match g with
    | inl e => Ret (respondDelete (Some e))
    | inr u =>
        (if bool_decide (lu_PasswordSecretRef u = "") then Ret tt
         else call (UDelete USecret (a_Namespace a) (lu_PasswordSecretRef u)) ;;; Ret tt) ;;;
        let! derr := call (UDelete UUser (a_Namespace a) name) in
        record "delete user" name derr ;;;
        Ret (respondDelete derr)
    end.

Definition ListUsers : uio Response :=
  let! l := call (UList UUser (a_Namespace a)) in
  match l with
  | inl e => Ret (HttpError StatusInternalServerError (emsg e))
  | inr us => Ret (Reply StatusOK (PUsers ((λ u, (Name (lu_meta u), lu_Role u, lu_SMB u)) <$> (us : list LocalUser))))
  end.

(** ** The endpoints *)
Inductive endpoint :=
  | ECreatePool (body : error + poolRequest)
  | EDeletePool (name : string)
  | EReplacePoolDevice (name : string) (body : error + replaceRequest)
  | ECreateVolume (ns : string) (body : error + volumeRequest)
  | EDeleteVolume (ns name : string)
  | EResizeVolume (ns name : string) (body : error + string)
  | EResolveSplitBrain (ns name : string) (body : error + string)
  | ECreateShare (body : error + shareRequest)
  | EDeleteShare (name : string)
  | ECreateTarget (body : error + targetRequest)
  | EDeleteTarget (name : string)
  | ECreateSnapshot (ns : string) (body : error + snapshotRequest)
  | EDeleteSnapshot (ns name : string)
  | EListUsers
  | ECreateUser (body : error + userRequest)
  | EDeleteUser (name : string).
Definition handle (e : endpoint) : uio Response :=
  match e with
  | ECreatePool b => CreatePool b
  | EDeletePool n => DeletePool_http n
  | EReplacePoolDevice n b => ReplacePoolDevice n b
  | ECreateVolume ns b => CreateVolume ns b
  | EDeleteVolume ns n => DeleteVolume ns n
  | EResizeVolume ns n b => ResizeVolume ns n b
  | EResolveSplitBrain ns n b => ResolveSplitBrain ns n b
  | ECreateShare b => CreateShare b
  | EDeleteShare n => DeleteShare n
  | ECreateTarget b => CreateTarget b
  | EDeleteTarget n => DeleteTarget n
  | ECreateSnapshot ns b => CreateSnapshot ns b
  | EDeleteSnapshot ns n => DeleteSnapshot ns n
  | EListUsers => ListUsers
  | ECreateUser b => CreateUser b
  | EDeleteUser n => DeleteUser n
  end.
End Handlers.
