(* ===== verification/ApiSafety.v ===== *)
(** * What the endpoints may write

    Every write of every endpoint is covered by what the same request read
    before it, and every write of an appliance object is in the activity feed. *)

From Stdlib Require Import Ascii.
From S2P Require Import Prelude GoStrings Prog ApiTypes Tasks Ui Api.

Section Guards.
Context `{K8sMeta} `{Quantity} (a : API).

(** No listed pool of the node has any of the devices. *)
Definition unclaimed (p : StoragePool) (pools : list StoragePool) : Prop :=
  ∀ q, q ∈ pools → sp_Node (sp_spec q) = sp_Node (sp_spec p) →
  ∀ d, d ∈ sp_Devices (sp_spec p) → d ∉ sp_Devices (sp_spec q).
(** The r-drbd Pool was seen absent or without volumes. *)
Definition idle (name : string) (tr : trace uop) : Prop :=
  ∃ r, got UBacking "" name r tr ∧
    match r with inl e => IsNotFound (Some e) = true | inr b => ps_Volumes (p_status b) = [] end.
Definition unreferenced (name : string) (tr : trace uop) : Prop :=
  (∃ shares, listed_as UShare (a_Namespace a) shares tr ∧ ∀ s, s ∈ shares → sh_ClaimName s ≠ name) ∧
  (∃ targets, listed_as UTarget (a_Namespace a) targets tr ∧
     ∀ t l, t ∈ targets → l ∈ t_LUNs t → lun_ClaimName l ≠ name).

(** A new claim: its class is served by enough nodes, follows the pool it is
    pinned to, and a restore is never placed on the default class, nor made a
    filesystem, unless its readable source was. *)
Definition claim_ok (ns : string) (c : Claim) (tr : trace uop) : Prop :=
  Namespace (cl_meta c) = ns ∧
  (∀ class, cl_StorageClassName c = Some class → replicated class = true →
     ∃ nodes, listed_as UNode "" nodes tr ∧ (ReplicationMinNodes ≤ length nodes)%nat) ∧
  (∀ pool, Annotations (cl_meta c) !! PoolAnnotation = Some pool →
     ∃ p, got UPool "" pool (inr p) tr ∧ cl_StorageClassName c = Some (TierClasses (sp_Tier (sp_spec p))).1) ∧
  (∀ src, cl_DataSource c = Some src → src_Kind src = "VolumeSnapshot" ∧
     ∃ snap, got USnap ns (src_Name src) (inr snap) tr ∧ (vs_Source snap ≠ "" →
       ∃ r, got UClaim ns (vs_Source snap) r tr ∧
         (cl_StorageClassName c = None → ∃ pvc, r = inr pvc ∧ default "" (cl_StorageClassName pvc) = "") ∧
         (∀ pvc, r = inr pvc → cl_VolumeMode pvc = Some PersistentVolumeBlock →
            cl_VolumeMode c = Some PersistentVolumeBlock))).

Inductive write_ok (req : endpoint) (tr : trace uop) : write → Prop :=
  | ok_create_pool body p pools : req = ECreatePool (inr body) → p = new_pool body →
      listed_as UPool "" pools tr → unclaimed p pools → write_ok req tr (WCreate UPool p)
  | ok_delete_pool name p : req = EDeletePool name → got UPool "" name (inr p) tr → idle name tr →
      write_ok req tr (WDelete UPool "" name)
  | ok_replace name old new p : req = EReplacePoolDevice name (inr {| rr_Old := old; rr_New := new |}) →
      got UPool "" name (inr p) tr → old ∈ sp_Devices (sp_spec p) →
      write_ok req tr (WUpdate UPool (with_devices p
        ((λ d, if bool_decide (d = old) then new else d) <$> sp_Devices (sp_spec p))))
  | ok_create_claim ns body c : req = ECreateVolume ns body → claim_ok ns c tr → write_ok req tr (WCreate UClaim c)
  | ok_delete_claim ns name : req = EDeleteVolume ns name → (ns = a_Namespace a → unreferenced name tr) →
      write_ok req tr (WDelete UClaim ns name)
  | ok_resize ns name size q : req = EResizeVolume ns name (inr size) → ParseQuantity size = inr q →
      write_ok req tr (WPatch UClaim ns name (resize_patch q))
  | ok_resolve ns name survivor pvc v : req = EResolveSplitBrain ns name (inr survivor) →
      got UClaim ns name (inr pvc) tr → cl_VolumeName pvc ≠ "" → got UVolume "" (cl_VolumeName pvc) (inr v) tr →
      IsStatusConditionTrue (v_Conditions v) ConditionSplitBrain = true → Diskful v survivor = true →
      write_ok req tr (WPatch UVolume "" (cl_VolumeName pvc) (survivor_patch survivor))
  | ok_create_share body : req = ECreateShare (inr body) → Forall (λ c, nfsClientRE c = true) (shr_NFSClients body) →
      write_ok req tr (WCreate UShare (new_share (a_Namespace a) body))
  | ok_delete_share name : req = EDeleteShare name → write_ok req tr (WDelete UShare (a_Namespace a) name)
  | ok_create_target body : req = ECreateTarget (inr body) → write_ok req tr (WCreate UTarget (new_target (a_Namespace a) body))
  | ok_delete_target name : req = EDeleteTarget name → write_ok req tr (WDelete UTarget (a_Namespace a) name)
  | ok_create_snap ns body : req = ECreateSnapshot ns (inr body) → write_ok req tr (WCreate USnap (new_snapshot ns body))
  | ok_delete_snap ns name : req = EDeleteSnapshot ns name → write_ok req tr (WDelete USnap ns name)
  | ok_create_secret body : req = ECreateUser (inr body) → (8 ≤ String.length (ur_Password body))%nat →
      write_ok req tr (WCreate USecret (user_secret (a_Namespace a) body))
  | ok_create_user body : req = ECreateUser (inr body) →
      (Ev (UCreate USecret (user_secret (a_Namespace a) body)) None : event uop) ∈ tr →
      write_ok req tr (WCreate UUser (new_user (a_Namespace a) body))
  | ok_rollback body e : req = ECreateUser (inr body) →
      (Ev (UCreate UUser (new_user (a_Namespace a) body)) (Some e) : event uop) ∈ tr →
      write_ok req tr (WDelete USecret (a_Namespace a) (ur_Name body +:+ "-password"))
  | ok_drop_secret name u : req = EDeleteUser name → name ≠ "admin" → got UUser (a_Namespace a) name (inr u) tr →
      write_ok req tr (WDelete USecret (a_Namespace a) (lu_PasswordSecretRef u))
  | ok_delete_user name u : req = EDeleteUser name → name ≠ "admin" → got UUser (a_Namespace a) name (inr u) tr →
      write_ok req tr (WDelete UUser (a_Namespace a) name).

Definition guarded_write (req : endpoint) (tr : trace uop) (e : event uop) : Prop :=
  ∀ w x, ev_write e = Some (w, x) → write_ok req tr w.

(** ** The pure searches *)
Lemma device_taken_None ds requested : device_taken ds requested = None → ∀ d, d ∈ requested → d ∉ ds.
Proof.
  induction requested as [|d requested IH]; cbn; [by intros _ d []%elem_of_nil|].
  case_bool_decide; [done|]. intros Hn x [->|Hx]%elem_of_cons; auto.
Qed.
Lemma claimed_by_None req pools : claimed_by req pools = None → unclaimed (new_pool req) pools.
Proof.
  induction pools as [|p pools IH]; cbn; [by intros _ q []%elem_of_nil|].
  case_bool_decide as Hn.
  - intros Hc q [->|Hq]%elem_of_cons Heq; [done|]. by apply IH.
  - destruct (device_taken _ _) eqn:E; [done|]. intros Hc q [->|Hq]%elem_of_cons Heq; [|by apply IH].
    by apply device_taken_None.
Qed.
Lemma share_using_None claim shares : share_using claim shares = None → ∀ s, s ∈ shares → sh_ClaimName s ≠ claim.
Proof.
  unfold share_using. intros Hn s Hs Heq. assert (s ∈ filter (λ s, sh_ClaimName s = claim) shares) as Hin.
  { by apply list_elem_of_filter. }
  destruct (filter _ shares); [by apply elem_of_nil in Hin|done].
Qed.
Lemma target_using_None claim targets : target_using claim targets = None →
  ∀ t l, t ∈ targets → l ∈ t_LUNs t → lun_ClaimName l ≠ claim.
Proof.
  unfold target_using. intros Hn t l Ht Hl Heq.
  assert (t ∈ filter (λ t, claim ∈ (lun_ClaimName <$> t_LUNs t)) targets) as Hin.
  { apply list_elem_of_filter. split; [|done]. apply list_elem_of_fmap. eauto. }
  destruct (filter _ targets); [by apply elem_of_nil in Hin|done].
Qed.
Lemma share_using_Some claim shares r : share_using claim shares = Some r → r ≠ "".
Proof. unfold share_using. destruct (head _); cbn; by intros [= <-]. Qed.
Lemma target_using_Some claim targets r : target_using claim targets = Some r → r ≠ "".
Proof. unfold target_using. destruct (head _); cbn; by intros [= <-]. Qed.

(** ** Each endpoint *)
Context (by_ : User).
Abbreviation wp_guarded req p := (wp p (λ tr _, lawful (guarded_write req) tr)).

(** Runs a handler to its traces and keeps the writes. *)
Ltac writes :=
  repeat (wp_go; intros); lawful_go;
  (let w := fresh "w" in let x := fresh "x" in let Hw := fresh "Hw" in
   intros w x Hw; cbn in Hw; first [discriminate Hw | injection Hw as <- <-]).

Lemma guarded_CreatePool body : wp_guarded (ECreatePool body) (CreatePool a by_ body).
Proof.
  unfold CreatePool, decode, record, recordIn. writes.
  all: eapply ok_create_pool; [done|done|left|by apply claimed_by_None].
Qed.

Lemma guarded_DeletePool name : wp_guarded (EDeletePool name) (DeletePool_http a by_ name).
Proof.
  unfold DeletePool_http, record, recordIn. writes.
  all: eapply ok_delete_pool; [done|left|]; (eexists; split; [right; left|done]).
Qed.
Lemma guarded_Replace name body : wp_guarded (EReplacePoolDevice name body) (ReplacePoolDevice a by_ name body).
Proof.
  unfold ReplacePoolDevice, decode, record, recordIn. writes.
  all: match goal with r : replaceRequest |- _ => destruct r end; eapply ok_replace; [done|left|];
    match goal with E : negb _ = false |- _ => by apply negb_false_iff, bool_decide_eq_true in E end.
Qed.
Lemma guarded_Resolve ns name body : wp_guarded (EResolveSplitBrain ns name body) (ResolveSplitBrain a by_ ns name body).
Proof.
  unfold ResolveSplitBrain, decode, recordIn. writes.
  all: repeat match goal with E : negb _ = false |- _ => apply negb_false_iff in E end.
  all: eapply ok_resolve; [done|left| |right; left|done|done];
    match goal with E : bool_decide (cl_VolumeName _ = "") = false |- _ => by apply bool_decide_eq_false in E end.
Qed.
Lemma guarded_Resize ns name body : wp_guarded (EResizeVolume ns name body) (ResizeVolume a by_ ns name body).
Proof. unfold ResizeVolume, decode, recordIn. writes. all: by eapply ok_resize. Qed.
Lemma head_filter_none {A} (P : A → bool) l : head (filter (λ c, P c = false) l) = None → Forall (λ c, P c = true) l.
Proof.
  intros Hh. rewrite Forall_forall. intros x Hx. destruct (P x) eqn:E; [done|].
  assert (x ∈ filter (λ c, P c = false) l) as Hin by (by apply list_elem_of_filter).
  destruct (filter _ l); [by apply elem_of_nil in Hin|done].
Qed.
Lemma guarded_CreateShare body : wp_guarded (ECreateShare body) (CreateShare a by_ body).
Proof.
  unfold CreateShare, decode, record, recordIn. writes.
  all: eapply ok_create_share; [done|by apply head_filter_none].
Qed.
Lemma guarded_simple :
  (∀ name, wp_guarded (EDeleteShare name) (DeleteShare a by_ name)) ∧
  (∀ body, wp_guarded (ECreateTarget body) (CreateTarget a by_ body)) ∧
  (∀ name, wp_guarded (EDeleteTarget name) (DeleteTarget a by_ name)) ∧
  (∀ ns body, wp_guarded (ECreateSnapshot ns body) (CreateSnapshot a by_ ns body)) ∧
  (∀ ns name, wp_guarded (EDeleteSnapshot ns name) (DeleteSnapshot a by_ ns name)) ∧
  wp_guarded EListUsers (ListUsers a).
Proof.
  split_and!; intros; unfold DeleteShare, CreateTarget, DeleteTarget, CreateSnapshot, DeleteSnapshot, ListUsers,
    decode, record, recordIn; writes; by constructor || by econstructor.
Qed.
Lemma guarded_CreateUser body : wp_guarded (ECreateUser body) (CreateUser a by_ body).
Proof.
  unfold CreateUser, decode, record, recordIn. writes.
  all: try (eapply ok_create_secret; [done|by apply Nat.ltb_ge]).
  all: try (eapply ok_create_user; [done|left]).
  all: eapply ok_rollback; [done|right; left].
Qed.
Lemma guarded_DeleteUser name : wp_guarded (EDeleteUser name) (DeleteUser a by_ name).
Proof.
  unfold DeleteUser, record, recordIn. writes.
  all: match goal with E : bool_decide (_ = "admin") = false |- _ => apply bool_decide_eq_false in E end.
  all: first [eapply ok_drop_secret; [done|done|left] | eapply ok_delete_user; [done|done|left]].
Qed.
Lemma guarded_DeleteVolume ns name : wp_guarded (EDeleteVolume ns name) (DeleteVolume a by_ ns name).
Proof.
  unfold DeleteVolume, claimReferenced, recordIn. writes.
  all: eapply ok_delete_claim; [done|]; intros Hns; bools; try done.
  all: try match goal with E : share_using _ _ = Some _ |- _ => apply share_using_Some in E; done end.
  all: match goal with E : default "" (target_using ?n ?l) = "" |- _ =>
         destruct (target_using n l) eqn:Ht; [by apply target_using_Some in Ht|] end.
  all: split; eexists; (split; [|by apply share_using_None || by apply target_using_None]); [left|right; left].
Qed.

(** What the three stages of [CreateVolume] leave behind. *)
Definition restored_ok (ns : string) (req : volumeRequest) (tr : trace uop) : Prop :=
  vr_FromSnapshot req ≠ "" → ∃ snap, got USnap ns (vr_FromSnapshot req) (inr snap) tr ∧ (vs_Source snap ≠ "" →
    ∃ r, got UClaim ns (vs_Source snap) r tr ∧
      (vr_StorageClass req = "" → ∃ pvc, r = inr pvc ∧ default "" (cl_StorageClassName pvc) = "") ∧
      (∀ pvc, r = inr pvc → cl_VolumeMode pvc = Some PersistentVolumeBlock → vr_Block req = true)).
Lemma inherit_claim_spec req pvc :
  vr_FromSnapshot (inherit_claim req pvc) = vr_FromSnapshot req ∧
  (vr_StorageClass (inherit_claim req pvc) = "" → default "" (cl_StorageClassName pvc) = "") ∧
  (cl_VolumeMode pvc = Some PersistentVolumeBlock → vr_Block (inherit_claim req pvc) = true).
Proof.
  unfold inherit_claim. destruct (cl_StorageClassName pvc) as [c|]; repeat case_bool_decide; cbn; naive_solver.
Qed.
Lemma wp_restore ns req :
  wp (restore_defaults ns req) (λ tr r, no_writes tr ∧ ∀ req', r = inr req' → restored_ok ns req' tr).
Proof.
  unfold restore_defaults. wp_go; bools; (split; [by repeat constructor|]); intros req' [= <-]; intros Hs; try done.
  all: match goal with E : (if _ then _ else _) = Some ?r |- _ =>
         assert (vr_FromSnapshot r = vr_FromSnapshot req ∧ vr_StorageClass r = vr_StorageClass req) as [E1 E2]
           by (revert E; case_bool_decide; [destruct (vs_RestoreSize _)|]; cbn; by intros [= <-]) end.
  - rewrite E1 in *. eexists. split; [left|done].
  - rewrite E1 in *. eexists. split; [left|]. intros _. eexists. split; [right; left|]. done.
  - destruct (inherit_claim_spec v0 c) as (F1 & F2 & F3). rewrite F1, E1 in *.
    eexists. split; [left|]. intros _. eexists. split; [right; left|]. split; [eauto|]. intros pvc [= <-]. auto.
Qed.
Lemma restored_app ns req t1 t2 : restored_ok ns req t1 → restored_ok ns req (t1 ++ t2).
Proof.
  intros Hr Hs. destruct (Hr Hs) as (snap & Hg & Hx). exists snap. split; [by apply elem_of_app; left|].
  intros Hsrc. destruct (Hx Hsrc) as (r & Hc & ?). exists r. split; [by apply elem_of_app; left|done].
Qed.
Definition pinned_ok (req : volumeRequest) (tr : trace uop) : Prop :=
  vr_Pool req ≠ "" → ∃ p, got UPool "" (vr_Pool req) (inr p) tr ∧ vr_StorageClass req = (TierClasses (sp_Tier (sp_spec p))).1.
Lemma local_class_nonempty tier : (TierClasses tier).1 ≠ "".
Proof. unfold TierClasses. by case_match. Qed.
Lemma wp_pin_pool ns req t1 : restored_ok ns req t1 →
  wp (pin_pool req) (λ tr r, no_writes tr ∧ ∀ req', r = inr req' → restored_ok ns req' (t1 ++ tr) ∧ pinned_ok req' (t1 ++ tr)).
Proof.
  intros Hr. unfold pin_pool. wp_go; (split; [by repeat constructor|]); intros req' [= <-].
  - bools. split; [by apply restored_app|by intros Hpool].
  - split.
    + apply restored_app. intros Hs. destruct (Hr Hs) as (snap & Hg & Hx). exists snap. split; [done|].
      intros Hsrc. destruct (Hx Hsrc) as (r & Hc & _ & Hb). exists r. split; [done|]. split; [|exact Hb].
      cbn. by intros ?%local_class_nonempty.
    + intros _. eexists. split; [apply elem_of_app; right; left|done].
Qed.
Definition nodes_ok (req : volumeRequest) (tr : trace uop) : Prop :=
  replicated (vr_StorageClass req) = true →
  ∃ nodes, listed_as UNode "" nodes tr ∧ (ReplicationMinNodes ≤ length nodes)%nat.
Lemma wp_enough_nodes ns req :
  wp (enough_nodes a by_ ns req) (λ tr r, no_writes tr ∧ (r = None → nodes_ok req tr)).
Proof.
  unfold enough_nodes, recordIn. repeat (wp_go; intros); (split; [by repeat constructor|]); intros; try done; intros Hrep; bools.
  - congruence.
  - eexists. split; [left|]. by apply Nat.ltb_ge.
Qed.

Lemma new_claim_ok ns req q t1 t2 :
  restored_ok ns req t1 → pinned_ok req t1 → nodes_ok req t2 → claim_ok ns (new_claim ns req q) (t1 ++ t2).
Proof.
  intros Hr Hp Hn. split_and!; cbn.
  - done.
  - intros class Hc Hrep. case_bool_decide; [done|]. injection Hc as <-.
    destruct (Hn Hrep) as (nodes & Hl & ?). exists nodes. split; [by apply elem_of_app; right|done].
  - intros pool. case_bool_decide as Hpool; cbn.
    + rewrite lookup_insert_ne by done. by rewrite lookup_empty.
    + rewrite lookup_insert_eq. intros [= <-]. destruct (Hp Hpool) as (p & Hg & Hc). exists p.
      split; [by apply elem_of_app; left|]. rewrite Hc, bool_decide_eq_false_2; [done|apply local_class_nonempty].
  - intros src. case_bool_decide as Hs; [done|]. intros [= <-]. split; [done|].
    destruct (restored_app ns req t1 t2 Hr Hs) as (snap & Hg & Hx). exists snap. split; [done|].
    intros Hsrc. destruct (Hx Hsrc) as (r & Hc & Hcl & Hb). exists r. split; [done|]. split.
    + case_bool_decide; [|done]. auto.
    + intros pvc E Em. by rewrite (Hb pvc E Em).
Qed.
Lemma no_writes_lawful req t : no_writes t → lawful (guarded_write req) t.
Proof. intros Ht t1 e t2 -> w x Hw. apply Forall_app in Ht as [_ [He _]%Forall_cons]. congruence. Qed.
(** A silent stage before the rest. *)
Lemma wp_stage {A B} req (p : uio A) (f : A → uio B) Q t0 :
  wp p (λ tr r, no_writes tr ∧ Q tr r) →
  (∀ t r, no_writes t → Q t r → wp (f r) (λ tr _, lawful (λ t', guarded_write req ((t0 ++ t) ++ t')) tr)) →
  wp (bind p f) (λ tr _, lawful (λ t', guarded_write req (t0 ++ t')) tr).
Proof.
  intros Hp Hf. apply wp_bind_2. eapply wp_mono; [exact Hp|]. intros t r [Hw HQ].
  eapply wp_mono; [by apply Hf|]. intros t' b L.
  apply lawful_app_dep; [|eapply lawful_mono; [exact L|]; intros t'' e; by rewrite app_assoc].
  intros t1 e t2 -> w x Hev. apply Forall_app in Hw as [_ [He _]%Forall_cons]. congruence.
Qed.
Lemma guarded_CreateVolume ns body : wp_guarded (ECreateVolume ns body) (CreateVolume a by_ ns body).
Proof.
  unfold CreateVolume, decode. destruct body as [e|req0]; [apply lawful_nil|].
  apply (wp_stage _ _ _ _ [] (wp_restore ns req0)). intros t1 [r|req1] W1 H1; [apply lawful_nil|].
  apply (wp_stage _ _ _ _ ([] ++ t1) (wp_pin_pool ns req1 t1 (H1 _ eq_refl))). intros t2 [r|req] W2 H2; [apply lawful_nil|].
  destruct (H2 _ eq_refl) as [Hr Hp].
  apply (wp_stage _ _ _ _ (([] ++ t1) ++ t2) (wp_enough_nodes ns req)). intros t3 [r|] W3 H3; [apply lawful_nil|].
  destruct (ParseQuantity (vr_Size req)) as [e|q]; [apply lawful_nil|].
  unfold recordIn. writes. all: rewrite ?app_nil_r.
  all: eapply ok_create_claim; [done|]; apply new_claim_ok; auto.
Qed.

Lemma guarded_handle req : wp_guarded req (handle a by_ req).
Proof.
  pose proof guarded_simple as (S1 & S2 & S3 & S4 & S5 & S6). destruct req; cbn [handle].
  - apply guarded_CreatePool.
  - apply guarded_DeletePool.
  - apply guarded_Replace.
  - apply guarded_CreateVolume.
  - apply guarded_DeleteVolume.
  - apply guarded_Resize.
  - apply guarded_Resolve.
  - apply guarded_CreateShare.
  - apply S1.
  - apply S2.
  - apply S3.
  - apply S4.
  - apply S5.
  - apply S6.
  - apply guarded_CreateUser.
  - apply guarded_DeleteUser.
Qed.

(** ** The activity feed *)
Definition write_kind (w : write) : res :=
  match w with WCreate k _ | WUpdate k _ | WDelete k _ _ | WPatch k _ _ _ => k end.
(** A record by the caller with that verdict. *)
Definition recorded (ok : bool) (tr : trace uop) : Prop :=
  ∃ e o, e ∈ tr ∧ ev_record e = Some o ∧ op_OK o = ok ∧ op_By o = u_Name by_.
(** Every write of an appliance object is recorded after it with its verdict,
    and a recorded success is a write that succeeded. *)
Fixpoint audited (done_ok : Prop) (tr : trace uop) : Prop :=
  match tr with
  | [] => True
  | e :: tr' =>
      (∀ w x, ev_write e = Some (w, x) → write_kind w ≠ USecret → recorded (bool_decide (x = None)) tr') ∧
      (∀ o, ev_record e = Some o → op_By o = u_Name by_ ∧ (op_OK o = true → done_ok)) ∧
      audited (done_ok ∨ ∃ w, ev_write e = Some (w, None)) tr'
  end.
Definition quiet (e : event uop) : Prop :=
  ev_write e = None ∧ ∀ o, ev_record e = Some o → op_OK o = false ∧ op_By o = u_Name by_.
Lemma audited_mono (P P' : Prop) tr : (P → P') → audited P tr → audited P' tr.
Proof.
  revert P P'. induction tr as [|e tr IH]; intros P P' Hi; cbn; [done|]. intros (Hw & Hr & Ha).
  split_and!; [done| |].
  - intros o Ho. destruct (Hr o Ho). auto.
  - eapply IH; [|exact Ha]. intros [?|?]; auto.
Qed.
Lemma audited_quiet P t t' : Forall quiet t → audited P t' → audited P (t ++ t').
Proof.
  intros Ht Ha. revert P Ha. induction Ht as [|e t [Hw Hr] Ht IH]; intros P Ha; cbn; [done|]. split_and!.
  - intros w x Hev. congruence.
  - intros o Ho. destruct (Hr o Ho). split; [done|congruence].
  - apply IH. eapply audited_mono; [|exact Ha]. auto.
Qed.

Lemma recorded_here o u tr : op_By o = u_Name by_ → recorded (op_OK o) (Ev (URecord o) u :: tr).
Proof. intros. exists (Ev (URecord o) u), o. split_and!; [left|done..]. Qed.
Lemma recorded_skip ok e tr : recorded ok tr → recorded ok (e :: tr).
Proof. intros (e' & o & ? & ?). exists e', o. split; [by right|done]. Qed.

Ltac audit_go :=
  repeat (wp_go; intros);
  repeat match goal with |- audited _ (_ :: _) => cbn [audited]; split_and! | |- audited _ [] => exact Logic.I end;
  try (intros; cbn in *; by simplify_eq);
  try (intros ? ? [= <- <-] _; repeat first [by refine (recorded_here _ _ _ _)|apply recorded_skip]);
  try (intros ? [= <-]; cbn; split; [done|]; rewrite ?bool_decide_eq_true; try done; intros ?; simplify_eq; naive_solver).

Context (Ha : a_Tasks a = true).
Tactic Notation "audit_handler" reference(h) := unfold h, decode, record, recordIn; rewrite ?Ha; cbn [negb]; audit_go.
Abbreviation wp_audited p := (wp p (λ tr _, audited False tr)).
Lemma audit_pools :
  (∀ body, wp_audited (CreatePool a by_ body)) ∧ (∀ name, wp_audited (DeletePool_http a by_ name)) ∧
  (∀ name body, wp_audited (ReplacePoolDevice a by_ name body)).
Proof using Ha.
  split_and!; intros; [audit_handler CreatePool|audit_handler DeletePool_http|audit_handler ReplacePoolDevice].
Qed.
Lemma audit_volumes :
  (∀ ns name, wp_audited (DeleteVolume a by_ ns name)) ∧ (∀ ns name body, wp_audited (ResizeVolume a by_ ns name body)) ∧
  (∀ ns name body, wp_audited (ResolveSplitBrain a by_ ns name body)).
Proof using Ha.
  split_and!; intros; [unfold DeleteVolume, claimReferenced, recordIn; rewrite ?Ha; cbn [negb]; audit_go|audit_handler ResizeVolume|audit_handler ResolveSplitBrain].
Qed.
Lemma audit_exports :
  (∀ body, wp_audited (CreateShare a by_ body)) ∧ (∀ name, wp_audited (DeleteShare a by_ name)) ∧
  (∀ body, wp_audited (CreateTarget a by_ body)) ∧ (∀ name, wp_audited (DeleteTarget a by_ name)) ∧
  (∀ ns body, wp_audited (CreateSnapshot a by_ ns body)) ∧ (∀ ns name, wp_audited (DeleteSnapshot a by_ ns name)).
Proof using Ha.
  split_and!; intros; [audit_handler CreateShare|audit_handler DeleteShare|audit_handler CreateTarget
    |audit_handler DeleteTarget|audit_handler CreateSnapshot|audit_handler DeleteSnapshot].
Qed.
Lemma audit_users :
  wp_audited (ListUsers a) ∧ (∀ body, wp_audited (CreateUser a by_ body)) ∧ (∀ name, wp_audited (DeleteUser a by_ name)).
Proof using Ha.
  split_and!; intros; [audit_handler ListUsers|audit_handler CreateUser|audit_handler DeleteUser].
Qed.
Lemma quiet_stages ns req :
  wp (restore_defaults ns req) (λ tr _, Forall quiet tr) ∧ wp (pin_pool req) (λ tr _, Forall quiet tr) ∧
  wp (enough_nodes a by_ ns req) (λ tr _, Forall quiet tr).
Proof using Ha.
  split_and!; [unfold restore_defaults|unfold pin_pool|unfold enough_nodes, recordIn; rewrite Ha; cbn [negb]];
    repeat (wp_go; intros); repeat constructor; cbn in *; by simplify_eq.
Qed.
Lemma audited_stage {A B} (p : uio A) (f : A → uio B) :
  wp p (λ tr _, Forall quiet tr) → (∀ x, wp_audited (f x)) → wp_audited (bind p f).
Proof.
  intros Hp Hf. apply wp_bind_2. eapply wp_mono; [exact Hp|]. intros t x Hq.
  eapply wp_mono; [apply Hf|]. intros t' y. by apply audited_quiet.
Qed.
Lemma audit_CreateVolume ns body : wp_audited (CreateVolume a by_ ns body).
Proof using Ha.
  unfold CreateVolume, decode. destruct body as [e|req0]; [done|].
  apply audited_stage; [apply quiet_stages|]. intros [r|req1]; [done|].
  apply audited_stage; [apply (quiet_stages ns)|]. intros [r|req]; [done|].
  apply audited_stage; [apply quiet_stages|]. intros [r|]; [done|].
  destruct (ParseQuantity (vr_Size req)) as [e|q]; [done|].
  unfold recordIn. rewrite Ha. cbn [negb]. audit_go.
Qed.
Lemma audit_handle req : wp_audited (handle a by_ req).
Proof using Ha.
  pose proof audit_pools as (P1 & P2 & P3). pose proof audit_volumes as (V1 & V2 & V3).
  pose proof audit_exports as (E1 & E2 & E3 & E4 & E5 & E6). pose proof audit_users as (U1 & U2 & U3).
  destruct req; cbn [handle]; auto using audit_CreateVolume.
Qed.
End Guards.

Lemma audited_split by_ P tr1 e tr2 : audited by_ P (tr1 ++ e :: tr2) →
  (∀ w x, ev_write e = Some (w, x) → write_kind w ≠ USecret → recorded by_ (bool_decide (x = None)) tr2) ∧
  (∀ o, ev_record e = Some o → op_By o = u_Name by_ ∧
     (op_OK o = true → P ∨ ∃ e' w, e' ∈ tr1 ∧ ev_write e' = Some (w, None))).
Proof.
  revert P. induction tr1 as [|e1 tr1 IH]; intros P; cbn.
  - intros (Hw & Hr & _). split; [done|]. intros o Ho. destruct (Hr o Ho). auto.
  - intros (_ & _ & Ha). destruct (IH _ Ha) as [Hw Hr]. split; [done|]. intros o Ho.
    destruct (Hr o Ho) as [Hb Hk]. split; [done|]. intros Hok.
    destruct (Hk Hok) as [[HP|(w & Hw')]|(e' & w & Hin & Hev)]; [by left| |].
    + right. exists e1, w. split; [left|done].
    + right. exists e', w. split; [by right|done].
Qed.

(** A user whose creation failed leaves no Secret behind: its deletion follows. *)
Definition created_user (w : write) : option LocalUser :=
  match w with
  | WCreate k o => match k return robj k → option LocalUser with UUser => λ u, Some u | _ => λ _, None end o
  | _ => None
  end.
Definition dropped (ns : string) (u : LocalUser) (tr : trace uop) : Prop :=
  ∃ r, (Ev (UDelete USecret ns (Name (lu_meta u) +:+ "-password")) r : event uop) ∈ tr.
Fixpoint rolled_back (ns : string) (tr : trace uop) : Prop :=
  match tr with
  | [] => True
  | e :: tr' => (∀ w err u, ev_write e = Some (w, Some err) → created_user w = Some u → dropped ns u tr') ∧ rolled_back ns tr'
  end.
Lemma rolled_split ns tr1 e tr2 : rolled_back ns (tr1 ++ e :: tr2) →
  ∀ w err u, ev_write e = Some (w, Some err) → created_user w = Some u → dropped ns u tr2.
Proof. induction tr1 as [|e1 tr1 IH]; cbn; [by intros [He _]|]. intros [_ Ht]. exact (IH Ht). Qed.
Lemma user_create_req `{K8sMeta} `{Quantity} a req tr w u : write_ok a req tr w → created_user w = Some u →
  ∃ body, req = ECreateUser body.
Proof. intros Hw. destruct Hw; cbn; intros [=]; eauto. Qed.
Lemma rolled_CreateUser `{K8sMeta} a by_ body : wp (CreateUser a by_ body) (λ tr _, rolled_back (a_Namespace a) tr).
Proof.
  unfold CreateUser, decode, record, recordIn. destruct body as [e|req]; [done|].
  repeat (wp_go; intros); cbn; repeat match goal with |- _ ∧ _ => split end; try exact I; intros w err u Hw Hu;
    first [discriminate Hw | injection Hw; intros; subst w; first [discriminate Hu | injection Hu as <-; eexists; left]].
Qed.

(** C4: Every write of an endpoint is covered by its own reads.  A pool is
    created only from devices no listed pool of the node claims, deleted only
    when its r-drbd Pool was seen absent or without volumes, and changed only
    by swapping a member.  A claim of the system namespace is deleted only when
    no share or target listed there refers to it; claims of other namespaces
    are deleted unchecked.  A claim is created with a class enough nodes serve
    and the class of the pool it is pinned to; one restored from a snapshot that
    names its source claim is left to the default class only if that claim was
    read without a class, and is a block volume whenever that claim was read as
    one (nothing is claimed of a snapshot that names no source).  A split brain is resolved only when r-drbd
    reports one and the survivor holds a copy.  A user is created only after
    its Secret; when that fails the same request goes on to delete the Secret;
    the admin is never deleted; nothing else is written. *)
Theorem api_writes_guarded `{K8sMeta} `{Quantity} a by_ req tr r :
  runs (handle a by_ req) tr r →
  ∀ tr1 e tr2 w x, tr = tr1 ++ e :: tr2 → ev_write e = Some (w, x) →
  write_ok a req tr1 w ∧
  (∀ u, created_user w = Some u → is_Some x → dropped (a_Namespace a) u tr2).
Proof.
  intros Hr tr1 e tr2 w x Htr Hw.
  pose proof (wp_runs _ _ _ _ (guarded_handle a by_ req) Hr tr1 e tr2 Htr w x Hw) as Hok. split; [done|].
  intros u Hu [err ->]. destruct (user_create_req _ _ _ _ _ Hok Hu) as [body ->]. subst tr.
  exact (rolled_split _ _ _ _ (wp_runs _ _ _ _ (rolled_CreateUser a by_ body) Hr) w err u Hw Hu).
Qed.

(** C32: The activity feed is complete and truthful.  Whenever an endpoint
    writes an appliance object (anything but a password Secret), the same
    request then records an entry in the caller's name whose verdict is that
    of the write; every entry is in the caller's name, and an entry that
    reports success follows a write of the request that succeeded. *)
Theorem api_writes_recorded `{K8sMeta} `{Quantity} a by_ req tr r :
  a_Tasks a = true → runs (handle a by_ req) tr r →
  ∀ tr1 e tr2, tr = tr1 ++ e :: tr2 →
  (∀ w x, ev_write e = Some (w, x) → write_kind w ≠ USecret → recorded by_ (bool_decide (x = None)) tr2) ∧
  (∀ o, ev_record e = Some o → op_By o = u_Name by_ ∧
     (op_OK o = true → ∃ e' w, e' ∈ tr1 ∧ ev_write e' = Some (w, None))).
Proof.
  intros Ha Hr tr1 e tr2 ->.
  destruct (audited_split _ _ _ _ _ (wp_runs _ _ _ _ (audit_handle a by_ Ha req) Hr)) as [Hw Ho].
  split; [done|]. intros o Hev. destruct (Ho o Hev) as [Hb Hk]. split; [done|].
  intros Hok. by destruct (Hk Hok) as [[]|?].
Qed.

(** ** Witnesses *)
Definition demo_api_server : API := {| a_Namespace := "stornas"; a_Tasks := true |}.
Definition demo_quantity : Quantity := {| quantity := string; ParseQuantity := inr; Quantity_String := id; Quantity_Value _ := 0%Z |}.
Definition demo_admin : User := {| u_Name := "admin"; u_Role := "admin" |}.
Definition demo_delete_env : env uop unit :=
  uenv (λ k ns n, match k return error + robj k with
                  | UPool => inr (with_devices (new_pool {| pr_Name := "tank"; pr_Node := "n1"; pr_Devices := []; pr_Raid := ""; pr_Tier := "" |}) [])
                  | _ => inl (Err "not found" KNotFound) end)
       (λ k ns, inr []) None.
Abbreviation demo_delete := (@handle RefMeta.meta demo_quantity demo_api_server demo_admin (EDeletePool "tank")).
Lemma api_writes_guarded_witness :
  @write_ok RefMeta.meta demo_quantity demo_api_server (EDeletePool "tank")
    (take 2 (run demo_delete_env demo_delete tt).1.2) (WDelete UPool "" "tank").
Proof.
  eapply (@api_writes_guarded RefMeta.meta demo_quantity demo_api_server demo_admin (EDeletePool "tank") _ _
    (run_runs demo_delete_env demo_delete tt) _ (Ev (UDelete UPool "" "tank") None) _ _ None);
    vm_compute; reflexivity.
Defined.
Lemma api_writes_recorded_witness :
  recorded demo_admin true (drop 3 (run demo_delete_env demo_delete tt).1.2).
Proof.
  eapply (proj1 (@api_writes_recorded RefMeta.meta demo_quantity demo_api_server demo_admin (EDeletePool "tank") _ _
    eq_refl (run_runs demo_delete_env demo_delete tt) (take 2 (run demo_delete_env demo_delete tt).1.2)
    (Ev (UDelete UPool "" "tank") None) _ ltac:(vm_compute; reflexivity)) (WDelete UPool "" "tank") None);
    [reflexivity|done].
Defined.
