(* ===== verification/ShareConfig.v ===== *)
(** * What the share files say

    The clients, section names and users of a Share land verbatim in the
    node's exports file and samba include (internal/agent/share.go); the
    patterns of operator/api/v1alpha1/share_types.go are, in its words, a
    security boundary.  This file states those patterns, a reader for each of
    the two formats, and that a reader gets back exactly what the spec says:
    no entry opens a line, a field or a section of its own.  The length limits
    of the schema are not needed.  Comments, quotes and escapes of exports(5)
    are not part of the reader: they can only shorten an entry. *)

From Stdlib Require Import Ascii.
From S2P Require Import Prelude GoStrings Prog ApiTypes Effects Demo Nodes Lvm Lio TargetAgent ShareAgent Api.

(** ** The patterns *)
Fixpoint sforall (f : ascii → bool) (s : string) : bool :=
  match s with EmptyString => true | String c s' => f c && sforall f s' end.
Definition in_range (lo hi c : ascii) : bool :=
  (nat_of_ascii lo <=? nat_of_ascii c)%nat && (nat_of_ascii c <=? nat_of_ascii hi)%nat.
Definition re_lower (c : ascii) : bool := in_range "a" "z" c || in_range "0" "9" c.
Definition re_word (c : ascii) : bool := re_lower c || in_range "A" "Z" c.
Fixpoint slast (s : string) : option ascii :=
  match s with EmptyString => None | String c EmptyString => Some c | String _ s' => slast s' end.
Definition shead (s : string) : option ascii := match s with EmptyString => None | String c _ => Some c end.
Definition opt_test (f : ascii → bool) (o : option ascii) : bool := match o with Some c => f c | None => false end.

(** ^[A-Za-z0-9._-]+$ *)
Definition smb_char (c : ascii) : bool := re_word c || ch_eqb c "."%char || ch_eqb c "_"%char || ch_eqb c "-"%char.
Definition smbNameRE (s : string) : bool := negb (bool_decide (s = "")) && sforall smb_char s.
(** ^[a-z0-9]([a-z0-9.-]*[a-z0-9])?$, which is also the shape of an object's name. *)
Definition object_char (c : ascii) : bool := re_lower c || ch_eqb c "."%char || ch_eqb c "-"%char.
Definition validUserRE (s : string) : bool :=
  sforall object_char s && opt_test re_lower (shead s) && opt_test re_lower (slast s).

(** What the API server admits as a Share: the patterns of the spec, and
    object names for its own name and namespace. *)
Record share_admitted (s : Share) : Prop := {
  sa_name : validUserRE (Name (sh_meta s)) = true;
  sa_namespace : validUserRE (Namespace (sh_meta s)) = true;
  sa_clients : ∀ nfs, sh_NFS s = Some nfs → nfs_Clients nfs ≠ [] ∧ Forall (λ c, nfsClientRE c = true) (nfs_Clients nfs);
  sa_smb : ∀ smb, sh_SMB s = Some smb → (smb_Name smb = "" ∨ smbNameRE (smb_Name smb) = true) ∧
    Forall (λ u, validUserRE u = true) (smb_ValidUsers smb);
}.

(** ** The readers *)

(** A samba file: sections in order, each with its parameters. *)
Definition header_of (line : string) : option string :=
  match line with
  | String "["%char r => let '(n, rest, found) := Cut r "]"%char in
                         if found && bool_decide (rest = "") then Some n else None
  | _ => None
  end.
Definition param_of (line : string) : string * string :=
  let '(k, v, _) := Cut line "="%char in (TrimSpace k, TrimSpace v).
Fixpoint read_sections (lines : list string) : list (string * string) * list (string * list (string * string)) :=
  match lines with
  | [] => ([], [])
  | l :: ls =>
      let '(pre, secs) := read_sections ls in
      if bool_decide (TrimSpace l = "") then (pre, secs)
      else match header_of l with
           | Some n => ([], (n, pre) :: secs)
           | None => (param_of l :: pre, secs)
           end
  end.
Definition read_samba (text : string) := read_sections (SplitLines text).

(** An exports file: one entry per line, the mount point and its clients. *)
Definition read_exports (text : string) : list (list string) :=
  filter (λ fs, fs ≠ []) (Fields <$> SplitLines text).

(** What the spec says of one share. *)
Definition smb_name (s : Share) (smb : SMBExport) : string :=
  if bool_decide (smb_Name smb = "") then Name (sh_meta s) else smb_Name smb.
Definition smb_params (s : Share) (smb : SMBExport) : list (string * string) :=
  [("path", share_mnt s); ("read only", "no"); ("force user", "root")] ++
  (if bool_decide (smb_ValidUsers smb = []) then [] else [("valid users", Join (smb_ValidUsers smb) " ")]).
Definition smb_wanted (s : Share) : list (string * list (string * string)) :=
  match sh_SMB s with None => [] | Some smb => [(smb_name s smb, smb_params s smb)] end.

(** ** Text *)
Lemma sforall_app f a b : sforall f (a +:+ b) = sforall f a && sforall f b.
Proof. induction a as [|c a IH]; [done|]. rewrite sapp_cons. cbn. by rewrite IH, andb_assoc. Qed.
Lemma sforall_impl (f g : ascii → bool) s : (∀ c, f c = true → g c = true) → sforall f s = true → sforall g s = true.
Proof. intros Hi. induction s as [|c s IH]; cbn; [done|]. rewrite !andb_true_iff. naive_solver. Qed.
Lemma sforall_not_char c f s : f c = false → sforall f s = true → has_char c s = false.
Proof.
  intros Hc. induction s as [|d s IH]; cbn; [done|]. rewrite andb_true_iff. intros [Hd Hs].
  apply orb_false_iff. split; [|auto]. apply not_true_is_false. rewrite ch_eqb_eq. congruence.
Qed.
Lemma Split_cons sep a b : has_char sep a = false → Split (a +:+ String sep b) sep = a :: Split b sep.
Proof.
  induction a as [|c a IH]; rewrite ?sapp_nil_l, ?sapp_cons; cbn; [by rewrite ch_eqb_refl|].
  intros [Hc Ha]%orb_false_iff.
  assert (ch_eqb c sep = false) as ->.
  { apply not_true_is_false. rewrite ch_eqb_eq. intros ->. by rewrite ch_eqb_refl in Hc. }
  by rewrite IH.
Qed.
Lemma Split_none sep a : has_char sep a = false → Split a sep = [a].
Proof.
  induction a as [|c a IH]; cbn; [done|]. intros [Hc Ha]%orb_false_iff.
  assert (ch_eqb c sep = false) as ->.
  { apply not_true_is_false. rewrite ch_eqb_eq. intros ->. by rewrite ch_eqb_refl in Hc. }
  by rewrite IH.
Qed.
Lemma Cut_found sep a b : has_char sep a = false → Cut (a +:+ String sep b) sep = (a, b, true).
Proof.
  induction a as [|c a IH]; rewrite ?sapp_nil_l, ?sapp_cons; cbn; [by rewrite ch_eqb_refl|].
  intros [Hc Ha]%orb_false_iff.
  assert (ch_eqb c sep = false) as ->.
  { apply not_true_is_false. rewrite ch_eqb_eq. intros ->. by rewrite ch_eqb_refl in Hc. }
  by rewrite IH.
Qed.

(** A word: not empty, no white space. *)
Definition solid (c : ascii) : bool := negb (is_space c).
Definition word (s : string) : Prop := s ≠ "" ∧ sforall solid s = true.
Lemma Fields_aux_word cur w r : sforall solid w = true → Fields_aux cur (w +:+ r) = Fields_aux (cur +:+ w) r.
Proof.
  revert cur. induction w as [|c w IH]; intros cur; rewrite ?sapp_nil_l, ?sapp_nil_r, ?sapp_cons; [done|].
  cbn. intros [Hc Hw]%andb_true_iff. unfold solid in Hc. bools. rewrite Hc, IH by done. by rewrite sapp_assoc.
Qed.
Lemma Fields_Join ws : Forall word ws → Fields (Join ws " ") = ws.
Proof.
  unfold Fields. induction 1 as [|w ws [Hne Hw] Hws IH]; [done|]. destruct ws as [|w' ws]; cbn [Join].
  - rewrite <- (sapp_nil_r w) at 1. rewrite Fields_aux_word, sapp_nil_l by done. cbn [Fields_aux]. by rewrite bool_decide_eq_false_2.
  - rewrite Fields_aux_word by done. rewrite sapp_nil_l. change (" " +:+ ?r) with (String " "%char r).
    cbn [Fields_aux]. change (is_space " "%char) with true. cbn iota. rewrite bool_decide_eq_false_2 by done. f_equal. exact IH.
Qed.
Lemma Join_sforall f ws : f " "%char = true → Forall (λ w, sforall f w = true) ws → sforall f (Join ws " ") = true.
Proof.
  intros Hsp. induction 1 as [|w ws Hw Hws IH]; [done|]. destruct ws as [|w' ws]; [done|]. cbn [Join].
  rewrite !sforall_app, Hw. cbn in *. by rewrite Hsp.
Qed.

Lemma TrimRight_id s : opt_test solid (slast s) = true → TrimRightFunc is_space s = s.
Proof.
  induction s as [|c s IH]; [done|]. destruct s as [|d s].
  - cbn. unfold solid. by destruct (is_space c).
  - intros Hl. change (slast (String c (String d s))) with (slast (String d s)) in Hl.
    cbn [TrimRightFunc]. cbn [TrimRightFunc] in IH. by rewrite IH.
Qed.
Lemma TrimSpace_id s : opt_test solid (shead s) = true → opt_test solid (slast s) = true → TrimSpace s = s.
Proof.
  intros Hh Hl. unfold TrimSpace. destruct s as [|c s]; [done|]. cbn in Hh. unfold solid in Hh.
  cbn [TrimLeftSpace]. destruct (is_space c); [done|]. by apply TrimRight_id.
Qed.
Lemma shead_app a b : a ≠ "" → shead (a +:+ b) = shead a.
Proof. by destruct a. Qed.
Lemma slast_app a b : b ≠ "" → slast (a +:+ b) = slast b.
Proof.
  intros Hb. induction a as [|c a IH]; [done|]. rewrite sapp_cons. rewrite <- IH. cbn.
  destruct a as [|d a]; [by destruct b|done].
Qed.
Lemma word_ends s : word s → opt_test solid (shead s) = true ∧ opt_test solid (slast s) = true.
Proof.
  intros [Hne Hs]. split; [destruct s; [done|]; by apply andb_true_iff in Hs as [? _]|].
  induction s as [|c s IH]; [done|]. apply andb_true_iff in Hs as [Hc Hs]. destruct s as [|d s]; [done|].
  by apply IH.
Qed.
Lemma Join_ends ws : ws ≠ [] → Forall word ws →
  opt_test solid (shead (Join ws " ")) = true ∧ opt_test solid (slast (Join ws " ")) = true.
Proof.
  intros Hne. induction 1 as [|w ws Hw Hws IH]; [done|]. destruct ws as [|w' ws]; [by apply word_ends|].
  specialize (IH ltac:(done)). cbn [Join] in *. destruct (word_ends w Hw) as [Hh Hl]. destruct Hw as [Hw _].
  split; [by rewrite shead_app|]. rewrite slast_app by done. rewrite slast_app; [by apply IH|].
  intros E. rewrite E in IH. by destruct IH.
Qed.

(** Characters, by computation over all of them. *)
Ltac chars := intros [[] [] [] [] [] [] [] []]; (done || (vm_compute; intuition congruence)).
Lemma re_lower_object c : re_lower c = true → object_char c = true.
Proof. unfold object_char. by intros ->. Qed.
Lemma object_solid c : object_char c = true → solid c = true.
Proof. revert c. chars. Qed.
Lemma smb_not c : smb_char c = true → ch_eqb c "]"%char = false ∧ ch_eqb c newline = false.
Proof. revert c. chars. Qed.
Lemma object_smb c : object_char c = true → smb_char c = true.
Proof. revert c. chars. Qed.
Lemma plain_solid c : re_plain c = true → c ≠ "011"%char → solid c = true.
Proof. revert c. chars. Qed.

Lemma user_word u : validUserRE u = true → word u.
Proof.
  unfold validUserRE. rewrite !andb_true_iff. intros [[Ho Hh] _]. split; [by destruct u|].
  eapply sforall_impl; [|done]. apply object_solid.
Qed.
Lemma user_object u : validUserRE u = true → sforall object_char u = true.
Proof. unfold validUserRE. rewrite !andb_true_iff. tauto. Qed.

(** A client entry has no white space but, possibly, a vertical tab: the
    pattern's [\s] does not contain it. *)
Definition vtab : ascii := "011"%char.
Lemma plain_prefix_spec s p r : plain_prefix s = (p, r) → s = p +:+ r ∧ sforall re_plain p = true.
Proof.
  revert p r. induction s as [|c s IH]; intros p r; cbn; [by intros [= <- <-]|].
  destruct (re_plain c) eqn:Hc; [|by intros [= <- <-]].
  destruct (plain_prefix s) as [p' r'] eqn:E. intros [= <- <-]. destruct (IH _ _ eq_refl) as [-> Hp].
  rewrite sapp_cons. split; [done|]. cbn. by rewrite Hc.
Qed.
Lemma plain_word s : sforall re_plain s = true → has_char vtab s = false → sforall solid s = true.
Proof.
  induction s as [|c s IH]; cbn; [done|]. intros [Hc Hs]%andb_true_iff [Hv Hr]%orb_false_iff.
  rewrite IH by done. rewrite plain_solid; [done..|]. intros ->. by rewrite ch_eqb_refl in Hv.
Qed.
Lemma client_word c : nfsClientRE c = true → has_char vtab c = false → word c.
Proof.
  unfold nfsClientRE. destruct (plain_prefix c) as [host rest] eqn:E. apply plain_prefix_spec in E as [-> Hp].
  intros Hc Hv. apply andb_true_iff in Hc as [Hne Hr]. bools. rewrite has_char_app in Hv. apply orb_false_iff in Hv as [Hv Hv'].
  split; [by destruct host|]. rewrite sforall_app, (plain_word host) by done. destruct rest as [|d opts]; [done|].
  bools. apply ch_eqb_eq in H as ->. destruct (plain_prefix opts) as [o r] eqn:E. cbn in Hr. subst r.
  apply plain_prefix_spec in E as [-> Ho]. cbn in Hv'. apply orb_false_iff in Hv' as [_ Hv'].
  rewrite has_char_app in Hv'. apply orb_false_iff in Hv' as [Hv' _].
  cbn [sforall andb]. by rewrite sforall_app, (plain_word o).
Qed.

(** The mount point is one word, on one line. *)
Lemma solid_no_newline s : sforall solid s = true → has_char newline s = false.
Proof. by apply sforall_not_char. Qed.
Lemma mnt_word s : share_admitted s → word (share_mnt s).
Proof.
  intros [Hn Hns _ _]. apply user_word in Hn as [_ Hn], Hns as [_ Hns].
  split; [done|]. unfold share_mnt, mountPoint. by rewrite !sforall_app, Hn, Hns.
Qed.

(** ** The exports file *)
Lemma exports_read s clients : share_admitted s → clients ≠ [] → Forall word clients →
  read_exports (export_line (share_mnt s) clients) = [share_mnt s :: clients].
Proof.
  intros Hs Hne Hc. assert (Forall word (share_mnt s :: clients)) as Hws by (constructor; [by apply mnt_word|done]).
  assert (export_line (share_mnt s) clients = Join (share_mnt s :: clients) " " +:+ String newline "") as ->.
  { unfold export_line. destruct clients as [|c cs]; [done|]. cbn [Join]. by rewrite !sapp_assoc. }
  unfold read_exports, SplitLines. rewrite Split_cons.
  - cbn [Split fmap list_fmap]. by rewrite Fields_Join.
  - apply (sforall_not_char _ (λ c, negb (ch_eqb c newline))); [done|]. apply Join_sforall; [done|].
    eapply Forall_impl; [exact Hws|]. intros w [_ Hw]. eapply sforall_impl; [|exact Hw]. chars.
Qed.

(** ** The samba include *)
Lemma param_read key v : has_char "="%char key = false → TrimSpace (tab +:+ key +:+ " ") = key →
  opt_test solid (shead v) = true → opt_test solid (slast v) = true →
  param_of (tab +:+ key +:+ " = " +:+ v) = (key, v).
Proof.
  intros Hk Htr Hh Hl. unfold param_of.
  assert (tab +:+ key +:+ " = " +:+ v = (tab +:+ key +:+ " ") +:+ String "="%char (String " "%char v)) as ->
    by (by rewrite !sapp_assoc).
  rewrite Cut_found by (by rewrite !has_char_app, Hk). rewrite Htr. f_equal.
  change (TrimSpace (String " "%char v)) with (TrimSpace v). by apply TrimSpace_id.
Qed.

(** The lines of one section, before the blank one. *)
Definition smb_lines (s : Share) (smb : SMBExport) : list string :=
  ["[" +:+ smb_name s smb +:+ "]"; tab +:+ "path" +:+ " = " +:+ share_mnt s; tab +:+ "read only" +:+ " = " +:+ "no";
   tab +:+ "force user" +:+ " = " +:+ "root"] ++
  (if bool_decide (smb_ValidUsers smb = []) then [] else [tab +:+ "valid users" +:+ " = " +:+ Join (smb_ValidUsers smb) " "]).
Lemma section_lines s smb rest : sh_SMB s = Some smb →
  smb_section s +:+ rest = foldr (λ l t, l +:+ String newline t) rest (smb_lines s smb ++ [""]).
Proof.
  intros E. unfold smb_section, smb_lines, smb_name. rewrite E.
  destruct (bool_decide (smb_ValidUsers smb = [])); cbn [app foldr]; unfold nl; by rewrite !sapp_assoc.
Qed.
Lemma Split_lines ls rest : Forall (λ l, has_char newline l = false) ls →
  SplitLines (foldr (λ l t, l +:+ String newline t) rest ls) = ls ++ SplitLines rest.
Proof. unfold SplitLines. induction 1 as [|l ls Hl Hls IH]; [done|]. cbn. by rewrite Split_cons, IH. Qed.

Section OneSection.
Context (s : Share) (smb : SMBExport) (Hs : share_admitted s) (Hsmb : sh_SMB s = Some smb).

Lemma smb_name_char : sforall smb_char (smb_name s smb) = true.
Proof using Hs Hsmb.
  unfold smb_name. destruct (sa_smb s Hs smb Hsmb) as [[->|Hn] _].
  - rewrite bool_decide_eq_true_2 by done. eapply sforall_impl; [apply object_smb|]. by apply user_object, sa_name.
  - unfold smbNameRE in Hn. apply andb_true_iff in Hn as [Hne Hn]. bools. by rewrite bool_decide_eq_false_2.
Qed.
Lemma users_words : Forall word (smb_ValidUsers smb).
Proof using Hs Hsmb.
  destruct (sa_smb s Hs smb Hsmb) as [_ Hu]. eapply Forall_impl; [exact Hu|]. apply user_word.
Qed.
Lemma users_line : has_char newline (Join (smb_ValidUsers smb) " ") = false.
Proof using Hs Hsmb.
  apply (sforall_not_char _ (λ c, negb (ch_eqb c newline))); [done|]. apply Join_sforall; [done|].
  eapply Forall_impl; [exact users_words|]. intros w [_ Hw]. eapply sforall_impl; [|exact Hw]. chars.
Qed.
Lemma lines_plain : Forall (λ l, has_char newline l = false) (smb_lines s smb ++ [""]).
Proof using Hs Hsmb.
  pose proof (solid_no_newline _ (proj2 (mnt_word s Hs))) as Hm.
  assert (has_char newline (smb_name s smb) = false) as Hn by (eapply sforall_not_char; [|exact smb_name_char]; done).
  unfold smb_lines. repeat apply Forall_app_2; repeat constructor; rewrite ?has_char_app, ?Hm, ?Hn; try done.
  destruct (bool_decide _); repeat constructor. by rewrite !has_char_app, users_line.
Qed.
Lemma header_read : header_of ("[" +:+ smb_name s smb +:+ "]") = Some (smb_name s smb).
Proof using Hs Hsmb.
  change ("[" +:+ smb_name s smb +:+ "]") with (String "["%char (smb_name s smb +:+ String "]"%char "")). cbn.
  rewrite Cut_found by (eapply sforall_not_char; [|exact smb_name_char]; done). done.
Qed.
End OneSection.

Lemma TrimRight_blank f s : TrimRightFunc f s = "" → sforall f s = true.
Proof.
  induction s as [|c s IH]; [done|]. cbn. destruct (TrimRightFunc f s) eqn:E; [|done].
  destruct (f c); [|done]. by rewrite IH.
Qed.
Lemma TrimSpace_blank s : TrimSpace s = "" → sforall is_space s = true.
Proof.
  unfold TrimSpace. intros Hb%TrimRight_blank. induction s as [|c s IH]; [done|]. cbn in *.
  destruct (is_space c) eqn:E; [auto|]. cbn in Hb. by rewrite E in Hb.
Qed.
Lemma line_not_blank l : sforall is_space l = false → bool_decide (TrimSpace l = "") = false.
Proof. intros Hl. apply bool_decide_eq_false_2. intros Hb%TrimSpace_blank. congruence. Qed.
Lemma read_blank ls : read_sections ("" :: ls) = read_sections ls.
Proof. cbn. by destruct (read_sections ls). Qed.
Lemma read_param key v ls :
  has_char "="%char key = false → TrimSpace (tab +:+ key +:+ " ") = key → sforall is_space key = false →
  opt_test solid (shead v) = true → opt_test solid (slast v) = true →
  read_sections ((tab +:+ key +:+ " = " +:+ v) :: ls) = ((key, v) :: (read_sections ls).1, (read_sections ls).2).
Proof.
  intros Hk Htr Hb Hh Hl. cbn [read_sections]. destruct (read_sections ls) as [pre secs]. rewrite param_read by done.
  rewrite line_not_blank; [done|]. by rewrite !sforall_app, Hb, andb_false_r.
Qed.

Lemma read_header s smb ls : share_admitted s → sh_SMB s = Some smb →
  read_sections (("[" +:+ smb_name s smb +:+ "]") :: ls) = ([], (smb_name s smb, (read_sections ls).1) :: (read_sections ls).2).
Proof.
  intros Hs Hsmb. cbn [read_sections]. destruct (read_sections ls) as [pre secs].
  by rewrite header_read, line_not_blank.
Qed.

(** The optional users line, then the blank one. *)
Lemma users_read s smb ls : share_admitted s → sh_SMB s = Some smb → (read_sections ls).1 = [] →
  read_sections ((if bool_decide (smb_ValidUsers smb = []) then []
      else [tab +:+ "valid users" +:+ " = " +:+ Join (smb_ValidUsers smb) " "]) ++ "" :: ls) =
    ((if bool_decide (smb_ValidUsers smb = []) then [] else [("valid users", Join (smb_ValidUsers smb) " ")]),
     (read_sections ls).2).
Proof.
  intros Hs Hsmb Hrest. case_bool_decide as Hnil; cbn [app].
  - rewrite read_blank. destruct (read_sections ls). cbn in *. by subst.
  - destruct (Join_ends (smb_ValidUsers smb)) as [Hj Hj']; [done|by eapply users_words|].
    rewrite read_param, read_blank by done. by rewrite Hrest.
Qed.

(** One section at the head of a text whose rest starts with a section. *)
Lemma section_read s smb rest : share_admitted s → sh_SMB s = Some smb → (read_samba rest).1 = [] →
  read_samba (smb_section s +:+ rest) = ([], (smb_name s smb, smb_params s smb) :: (read_samba rest).2).
Proof.
  intros Hs Hsmb Hrest. unfold read_samba in *.
  rewrite (section_lines s smb), Split_lines by (done || by apply lines_plain).
  rewrite <- app_assoc. unfold smb_lines. cbn [app]. destruct (word_ends _ (mnt_word s Hs)) as [Hm Hm'].
  rewrite read_header by done. rewrite !read_param by done.
  by rewrite (users_read s) by done.
Qed.

Definition sconcat (l : list string) : string := foldr String.append "" l.
Lemma conf_concat node b l :
  foldl (λ b s, if smb_served node s then b +:+ smb_section s else b) b l =
  b +:+ sconcat (smb_section <$> filter (λ s, smb_served node s = true) l).
Proof.
  revert b. induction l as [|s l IH]; intros b; cbn [foldl]; [by rewrite sapp_nil_r|]. rewrite IH, filter_cons.
  destruct (smb_served node s); [rewrite decide_True by done; by rewrite sapp_assoc|by rewrite decide_False].
Qed.

(** The whole include. *)
Lemma samba_read `{SliceSort} node shares : Forall share_admitted shares →
  read_samba (samba_conf node shares) =
  ([], filter (λ s, smb_served node s = true)
         (sort_slice (λ a b, str_ltb (share_key a) (share_key b)) shares) ≫= smb_wanted).
Proof.
  intros Hall. unfold samba_conf. rewrite conf_concat, sapp_nil_l.
  rewrite <- (sort_slice_perm (λ a b, str_ltb (share_key a) (share_key b)) shares) in Hall.
  revert Hall. generalize (sort_slice (λ a b, str_ltb (share_key a) (share_key b)) shares). intros l.
  induction 1 as [|s l Hs Hl IH]; [done|]. rewrite filter_cons. destruct (smb_served node s) eqn:E.
  - rewrite !decide_True by done. unfold smb_served in E. destruct (sh_SMB s) as [smb|] eqn:Esmb; [|done].
    change (sconcat (smb_section <$> s :: ?x)) with (smb_section s +:+ sconcat (smb_section <$> x)).
    rewrite (section_read s smb); [|done..|by rewrite IH]. rewrite IH, bind_cons. unfold smb_wanted at 2. by rewrite Esmb.
  - by rewrite !decide_False by done.
Qed.

(** ** Every file a pass writes *)
Section Writes.
Context `{SliceSort} `{K8sMeta} (NodeName Root : string).

(** The file [p] with content [d] is the share's own exports file with its
    own clients, or the samba include made of a listing of this pass. *)
Definition file_of (s : option Share) (p d : string) (tr : trace op) : Prop :=
  (∃ sh nfs, s = Some sh ∧ sh_NFS sh = Some nfs ∧
     p = Root +:+ exportsFile (Namespace (sh_meta sh)) (Name (sh_meta sh)) ∧
     d = export_line (share_mnt sh) (nfs_Clients nfs)) ∨
  (p = Root +:+ sambaShares ∧ ∃ shares, (Ev (List KShare None) (inr shares) : event op) ∈ tr ∧ d = samba_conf NodeName shares).
Definition files_of (s : option Share) (tr : trace op) : Prop :=
  ∀ e p d r, e ∈ tr → ev_fwrite e = Some (p, d, r) → file_of s p d tr.

Lemma file_of_sub s p d t1 t2 : t1 ⊆ t2 → file_of s p d t1 → file_of s p d t2.
Proof. intros Hs [?|(? & l & ? & ?)]; [by left|right]. split; [done|]. exists l. split; [by apply Hs|done]. Qed.
Lemma files_of_app s t1 t2 : files_of s t1 → files_of s t2 → files_of s (t1 ++ t2).
Proof.
  intros H1 H2 e p d r [He|He]%elem_of_app Hev; [eapply file_of_sub; [|by eapply H1]|eapply file_of_sub; [|by eapply H2]];
    set_solver.
Qed.
Lemma files_bind {A B} s (p : io A) (f : A → io B) :
  wp p (λ tr _, files_of s tr) → (∀ a, wp (f a) (λ tr _, files_of s tr)) → wp (bind p f) (λ tr _, files_of s tr).
Proof.
  intros Hp Hf. apply wp_bind_2. eapply wp_mono; [exact Hp|]. intros t1 a H1. eapply wp_mono; [apply Hf|].
  intros t2 b H2. by apply files_of_app.
Qed.
Definition no_fwrite (X : Type) (o : op X) : Prop := match o with FWrite _ _ => False | _ => True end.
Lemma files_none {A} s (p : io A) : issues no_fwrite p → wp p (λ tr _, files_of s tr).
Proof.
  intros Hi. eapply wp_mono; [by apply issues_wp|]. intros tr ? Ht e q d r He Hev. rewrite Forall_forall in Ht.
  specialize (Ht e He). by destruct e as [? []].
Qed.

Lemma files_applySamba s : wp (applySamba NodeName Root) (λ tr _, files_of s tr).
Proof.
  unfold applySamba, ApplySamba, run_err. cbn [wp bind call]. intros [e|shares]; cbn [wp].
  { intros e' p d r He Hev. by split_in. }
  assert (∀ t, file_of s (Root +:+ sambaShares) (samba_conf NodeName shares) (Ev (List KShare None) (inr shares) :: t)) as Hf.
  { intros t. right. split; [done|]. exists shares. split; [by left|done]. }
  cbn [wp bind call seq_err]. intros [e|]; cbn [wp bind call]; [|intros x]; intros e' p d r He Hev; split_in; cbn in Hev;
    simplify_eq; apply Hf.
Qed.
Lemma files_write_export s : wp (write_export Root s) (λ tr _, files_of (Some s) tr).
Proof.
  unfold write_export. destruct (sh_NFS s) as [nfs|] eqn:E; cbn [wp bind call]; intros x e p d r He Hev; split_in;
    cbn in Hev; simplify_eq. left. exists s, nfs. done.
Qed.
Lemma files_serve s : wp (EnsureShare Root s ;!; applySamba NodeName Root) (λ tr _, files_of (Some s) tr).
Proof.
  unfold EnsureShare, mount_fresh, prepare_fs, reexport, run_err, seq_err.
  repeat first
    [ apply files_applySamba | apply files_write_export
    | match goal with |- wp (match ?x with _ => _ end) _ => destruct x end
    | apply files_none; issues_go; done
    | apply files_bind; [|intros ?] ].
Qed.
Lemma files_drop ns name s : wp (drop_share NodeName Root ns name) (λ tr _, files_of s tr).
Proof.
  unfold drop_share, RemoveShare, reexport, run_err.
  apply files_bind; [apply files_none; issues_go; done|intros _]. apply files_bind; [apply files_applySamba|].
  intros ?. apply files_none. issues_go.
Qed.
Lemma files_drop_if ns name s : wp (drop_if_present NodeName Root ns name) (λ tr _, files_of s tr).
Proof.
  unfold drop_if_present, Present. apply files_bind; [apply files_none; issues_go; done|].
  intros []; [apply files_drop|]. apply files_none. issues_go.
Qed.

Lemma files_Reconcile req :
  wp (ShareAgent_Reconcile NodeName Root req) (λ tr _, ∃ g tr', tr = Ev (Get KShare req) g :: tr' ∧
    files_of (match g with inr s => Some s | inl _ => None end) tr').
Proof.
  unfold ShareAgent_Reconcile. cbn [wp bind call]. intros g.
  eapply wp_mono with (Q := λ tr' _, files_of (match g with inr s => Some s | inl _ => None end) tr'); [|eauto].
  unfold share_deleting, share_converge.
  destruct g as [e|s];
  repeat first
    [ match goal with |- wp (match ?x with _ => _ end) _ => destruct x end
    | apply files_serve | apply files_drop | apply files_drop_if
    | apply files_none; issues_go; done
    | apply files_bind; [|intros ?] ].
Qed.
End Writes.

(** C10: The share files say what the specs say and nothing else.  In a pass
    of the share agent over admitted shares, every file written is either the
    exports file of the share read, in which a reader of white-space separated
    fields finds one entry, this share's mount point with exactly its clients
    in order (if no client holds a vertical tab), or the samba include, in
    which a reader of sections finds exactly one section per share that a
    listing of this pass places on this node over SMB and not in deletion, in
    the order of the sort, named and filled as that share's spec says, and
    nothing before the first section. *)
Theorem share_files_exact `{SliceSort} `{K8sMeta} NodeName Root req tr r :
  runs (ShareAgent_Reconcile NodeName Root req) tr r →
  (∀ s, saw KShare req (inr s) tr → share_admitted s) →
  (∀ shares, (Ev (List KShare None) (inr shares) : event op) ∈ tr → Forall share_admitted shares) →
  ∀ e p d w, e ∈ tr → ev_fwrite e = Some (p, d, w) →
    (∃ s nfs, saw KShare req (inr s) tr ∧ sh_NFS s = Some nfs ∧
       p = Root +:+ exportsFile (Namespace (sh_meta s)) (Name (sh_meta s)) ∧
       (Forall (λ c, has_char vtab c = false) (nfs_Clients nfs) →
        read_exports d = [share_mnt s :: nfs_Clients nfs])) ∨
    (p = Root +:+ sambaShares ∧ ∃ shares, (Ev (List KShare None) (inr shares) : event op) ∈ tr ∧
       read_samba d = ([], filter (λ s, smb_served NodeName s = true)
         (sort_slice (λ a b, str_ltb (share_key a) (share_key b)) shares) ≫= smb_wanted)).
Proof.
  intros Hr Hget Hlist e p d w He Hev.
  destruct (wp_runs _ _ _ _ (files_Reconcile NodeName Root req) Hr) as (g & tr' & -> & Hf).
  apply elem_of_cons in He as [->|He]; [done|].
  destruct (Hf e p d w He Hev) as [(s & nfs & Hs & Hn & -> & ->)|(-> & shares & Hin & ->)].
  - left. destruct g as [|s']; [done|]. injection Hs as ->. exists s, nfs.
    assert (saw KShare req (inr s) (Ev (Get KShare req) (inr s) :: tr')) as Hsaw by eauto with evidence.
    split_and!; [done..|]. intros Hv. pose proof (Hget s Hsaw) as Ha. destruct (sa_clients s Ha nfs Hn) as [Hne Hc].
    apply exports_read; [done..|]. rewrite Forall_forall in *. intros c Hcl. apply client_word; auto.
  - right. split; [done|]. exists shares. split; [by right|]. apply samba_read, Hlist. by right.
Qed.

(** A user list of the include reads back as its users. *)
Lemma users_fields s smb : share_admitted s → sh_SMB s = Some smb →
  Fields (Join (smb_ValidUsers smb) " ") = smb_ValidUsers smb.
Proof. intros. apply Fields_Join. by eapply users_words. Qed.

(** The two gaps of the patterns.  A vertical tab passes the client pattern
    and is white space to a reader of fields; and [global], samba's section of
    defaults for every share, is an admitted section name. *)
Definition tab_client : string := "10.0.0.1" +:+ String vtab "*(rw)".
Lemma client_vertical_tab : nfsClientRE tab_client = true ∧ Fields tab_client = ["10.0.0.1"; "*(rw)"].
Proof. split; vm_compute; reflexivity. Qed.

(** ** Witness *)
Section Witness.
#[local] Existing Instance RefMeta.meta.
#[local] Existing Instance insertion_slice_sort.
Definition admitted_share (smbname : string) : Share :=
  {| sh_meta := {| Name := "docs"; Namespace := "home"; Generation := 1; ResourceVersion := "1"; DeletionTimestamp := None;
                   Finalizers := []; Annotations := ∅; Labels := ∅ |};
     sh_ClaimName := "docs"; sh_NFS := Some {| nfs_Clients := ["10.0.0.0/8(rw)"; "::1"] |};
     sh_SMB := Some {| smb_Name := smbname; smb_ValidUsers := ["ann"; "bob"] |}; sh_Conditions := []; sh_Node := "n1";
     sh_Device := "/dev/drbd1"; sh_State := "" |}.
Lemma admitted_share_ok n : n = "" ∨ smbNameRE n = true → share_admitted (admitted_share n).
Proof.
  intros Hn. split; [reflexivity..| |].
  - intros nfs [= <-]. split; [done|]. repeat constructor.
  - intros smb [= <-]. split; [done|]. repeat constructor.
Qed.
Lemma global_section_admitted :
  share_admitted (admitted_share "global") ∧
  read_samba (samba_conf "n1" [admitted_share "global"]) =
    ([], [("global", [("path", "/var/lib/stornas/shares/home-docs"); ("read only", "no"); ("force user", "root");
                      ("valid users", "ann bob")])]).
Proof. split; [apply admitted_share_ok; by right|vm_compute; reflexivity]. Qed.

Definition config_env : env op unit :=
  demo_env cmd_ok
    (λ k _, match k return error + obj k with
            | KShare => inr (admitted_share "")
            | _ => inl (Err "not found" KNotFound)
            end)
    (λ k, match k return list (obj k) with KShare => [admitted_share ""] | _ => [] end).
Definition config_trace : trace op := (run config_env (ShareAgent_Reconcile "n1" "" (NN "home" "docs")) tt).1.2.
Definition ev_shares (e : event op) : option (list Share) :=
  match e with
  | Ev o x =>
      match o in op X return X → option (list Share) with
      | List k _ => match k return error + list (obj k) → option (list Share) with
                    | KShare => λ r, match r with inr l => Some l | inl _ => None end
                    | _ => λ _, None
                    end
      | _ => λ _, None
      end x
  end.
Definition samba_write : event op := Ev (FWrite sambaShares (samba_conf "n1" [admitted_share ""])) None.
Lemma share_files_exact_witness :
  (∃ s nfs, saw KShare (NN "home" "docs") (inr s) config_trace ∧ sh_NFS s = Some nfs ∧
     sambaShares = "" +:+ exportsFile (Namespace (sh_meta s)) (Name (sh_meta s)) ∧
     (Forall (λ c, has_char vtab c = false) (nfs_Clients nfs) →
      read_exports (samba_conf "n1" [admitted_share ""]) = [share_mnt s :: nfs_Clients nfs])) ∨
  (sambaShares = "" +:+ sambaShares ∧ ∃ shares, (Ev (List KShare None) (inr shares) : event op) ∈ config_trace ∧
     read_samba (samba_conf "n1" [admitted_share ""]) = ([], filter (λ s, smb_served "n1" s = true)
       (sort_slice (λ a b, str_ltb (share_key a) (share_key b)) shares) ≫= smb_wanted)).
Proof.
  apply (share_files_exact "n1" "" (NN "home" "docs") config_trace _
    (run_runs config_env (ShareAgent_Reconcile "n1" "" (NN "home" "docs")) tt)) with (e := samba_write) (w := None).
  - intros s (e & He & Hev). apply list_elem_of_In in He. vm_compute in He.
    repeat destruct He as [<-|He]; try done; cbn in Hev; kind_simpl; injection Hev as <-; apply admitted_share_ok; auto.
  - intros shares Hin. assert (Some shares ∈ ev_shares <$> config_trace) as Hs.
    { apply list_elem_of_fmap. by exists (Ev (List KShare None) (inr shares)). }
    apply list_elem_of_In in Hs. vm_compute in Hs. repeat destruct Hs as [Hs|Hs]; try done.
    injection Hs as <-. constructor; [|constructor]. apply (admitted_share_ok ""). auto.
  - apply list_elem_of_In. vm_compute. tauto.
  - reflexivity.
Defined.
End Witness.
