(* ===== verification/Schema.v ===== *)
(** * The status schema

    The validation markers of operator/api/v1alpha1 become the schema the API
    server checks every status write against; a write that breaks it is
    refused.  [status_ok] is that schema for each kind (enumerations, the
    condition's status and reason, generations; an optional field may be
    empty), and the theorem that every reconciler's status writes satisfy it.
    Conditions are looked up with [FindStatusCondition], the list-map key of
    the schema.  The limit on the length of a condition's message is not part
    of [cond_schema]: [host_error_breaks_schema] shows that it is not kept. *)

From Stdlib Require Import Ascii.
From S2P Require Import Prelude GoStrings Prog Contract ApiTypes Effects Demo Placement Registrar Nodes StoragePoolController ShareController TargetController LocalUserController Lvm Mdraid Replace Smart PoolAgent Lio TargetAgent ShareAgent Inventory PoolTeardown PoolLive PoolAgentSafety ShareConfig Runner.

(** ** The schema *)
Definition optional_enum (vals : list string) (s : string) : bool :=
  bool_decide (s = "") || existsb (λ v, bool_decide (s = v)) vals.
Definition smart_enum : string → bool := optional_enum ["Passed"; "Failed"; "Unknown"].
Definition device_state_enum : string → bool := optional_enum ["InSync"; "Rebuilding"; "Failed"; "Missing"].
Definition health_enum : string → bool := optional_enum ["Online"; "Degraded"; "Failed"].
Definition export_enum : string → bool := optional_enum ["Pending"; "Exported"; "Failed"; "Removed"].

(** metav1.Condition.  ^[A-Za-z]([A-Za-z0-9_,:]*[A-Za-z0-9_])?$ *)
Definition re_letter (c : ascii) : bool := in_range "a" "z" c || in_range "A" "Z" c.
Definition reason_char (c : ascii) : bool := re_word c || ch_eqb c "_"%char || ch_eqb c ","%char || ch_eqb c ":"%char.
Definition reason_last (c : ascii) : bool := re_word c || ch_eqb c "_"%char.
Definition reasonRE (s : string) : bool :=
  sforall reason_char s && opt_test re_letter (shead s) && opt_test reason_last (slast s) &&
  (String.length s <=? 1024)%nat.
(** A condition's type, at most 316 bytes: an optional DNS subdomain and a
    slash, then a name of letters, digits, dashes, underscores and dots that
    begins and ends with a letter or digit. *)
Definition dns_char (c : ascii) : bool := re_lower c || ch_eqb c "-"%char.
Definition dns_label (s : string) : bool := sforall dns_char s && opt_test re_lower (shead s) && opt_test re_lower (slast s).
Definition type_char (c : ascii) : bool := re_word c || ch_eqb c "-"%char || ch_eqb c "_"%char || ch_eqb c "."%char.
Definition type_name (s : string) : bool := sforall type_char s && opt_test re_word (shead s) && opt_test re_word (slast s).
Definition typeRE (s : string) : bool :=
  match Split s slash with
  | [name] => type_name name
  | [prefix; name] => forallb dns_label (Split prefix "."%char) && type_name name
  | _ => false
  end && (String.length s <=? 316)%nat.
Definition maxMessage : nat := 32768.
Record cond_schema (c : Condition) : Prop := {
  co_type : typeRE (c_Type c) = true;
  co_status : c_Status c ∈ [ConditionTrue; ConditionFalse; ConditionUnknown];
  co_reason : reasonRE (c_Reason c) = true;
  co_generation : 0 ≤ c_ObservedGeneration c;
}.

Section Schema.
Context `{K8sMeta}.
Definition conds_ok (cs : list Condition) : Prop := ∀ t c, FindStatusCondition cs t = Some c → cond_schema c.

Definition device_ok (d : DeviceStatus) : Prop := smart_enum (ds_Smart d) = true ∧ device_state_enum (ds_State d) = true.
Record pool_schema (p : StoragePool) : Prop := {
  po_generation : 0 ≤ Generation (sp_meta p);
  po_conds : conds_ok (sp_conds p);
  po_health : health_enum (sp_Health (sp_status p)) = true;
  po_devices : Forall device_ok (sp_StatusDevices (sp_status p));
}.
Record share_schema (s : Share) : Prop := {
  so_generation : 0 ≤ Generation (sh_meta s);
  so_conds : conds_ok (sh_Conditions s);
  so_state : export_enum (sh_State s) = true;
}.
(** The status lists of a Target are keyed: by LUN id and by Secret name. *)
Record target_schema (t : Target) : Prop := {
  to_generation : 0 ≤ Generation (t_meta t);
  to_spec : NoDup (lun_ID <$> t_LUNs t);
  to_conds : conds_ok (t_Conditions t);
  to_state : export_enum (t_State t) = true;
  to_luns : NoDup (ls_ID <$> t_StatusLUNs t);
  to_versions : NoDup (sv_Name <$> t_ChapSecretVersions t);
}.
Record user_schema (u : LocalUser) : Prop := {
  uo_generation : 0 ≤ Generation (lu_meta u);
  uo_conds : conds_ok (lu_Conditions u);
}.
Definition inventory_schema (i : NodeInventory) : Prop := Forall (λ d, smart_enum (dk_Smart d) = true) (inv_Disks i).

Definition status_ok (k : kind) : obj k → Prop :=
  match k return obj k → Prop with
  | KStoragePool => pool_schema
  | KShare => share_schema
  | KTarget => target_schema
  | KLocalUser => user_schema
  | KNodeInventory => inventory_schema
  | _ => λ _, True
  end.

(** ** The contract: the server's objects satisfy the schema, and so must
    every status sent to it. *)
Definition emits (X : Type) (o : op X) : Prop := match o with StatusUpdate k x => status_ok k x | _ => True end.
Definition answers (X : Type) (o : op X) : X → Prop :=
  match o in op X return X → Prop with
  | Get k _ => λ r, match r with inr x => status_ok k x | inl _ => True end
  | List k _ | ListLabelled k _ => λ r, match r with inr l => Forall (status_ok k) l | inl _ => True end
  | Create k _ | Update k _ => λ r, match r with inr x => status_ok k x | inl _ => True end
  | _ => λ _, True
  end.

Lemma ev_status_emits k e x : ev_issues emits e → ev_status k e = Some x → status_ok k x.
Proof.
  destruct e as [X o r]. destruct o; try done. cbn. intros Ho. destruct (decide (k0 = k)) as [->|Hne].
  - rewrite as_kind_refl. by intros [= <-].
  - by rewrite as_kind_ne.
Qed.

(** ** Conditions *)
Lemma conds_set cs c : conds_ok cs → cond_schema c → conds_ok (SetStatusCondition cs c).
Proof.
  intros Hcs Hc t d. destruct (decide (c_Type c = t)) as [<-|Hne].
  - rewrite find_set_eq. by intros [= <-].
  - rewrite find_set_ne by done. apply Hcs.
Qed.
Lemma cond_mk t st re ms gen : typeRE t = true → st ∈ [ConditionTrue; ConditionFalse; ConditionUnknown] → reasonRE re = true → 0 ≤ gen →
  cond_schema {| c_Type := t; c_Status := st; c_Reason := re; c_Message := ms; c_ObservedGeneration := gen |}.
Proof. by split. Qed.
End Schema.

(** Discharges the fixed fields of a condition. *)
Ltac in_list := repeat first [left; reflexivity | right].
Ltac cond_tac := apply cond_mk; [reflexivity|by in_list|reflexivity|done].

(** Walks a program: operations are discharged against [emits], answers are
    introduced with what [answers] says of them, the code's matches are split. *)
Ltac good_step :=
  cbn [bind call good emits answers status_ok];
  lazymatch goal with
  | |- True => exact I
  | |- _ ∧ (∀ _, _) => split; [try done|intros ? ?]
  | |- good _ _ (Ret _) _ => cbn [good]; try exact I
  | |- good _ _ ?p _ =>
      let h := prog_head p in
      lazymatch h with match ?x with _ => _ end => destruct x eqn:? end
  end.
Ltac good_go := repeat good_step.

(** ** The operator's controllers *)
Section Operator.
Context `{K8sMeta}.
Abbreviation ok := (good emits answers).

(** What every run shows holds of the program: each operation has an answer. *)
Lemma good_trace {A} (p : io A) (Q : A → Prop) :
  wp p (λ tr a, Forall (ev_issues emits) tr ∧ Q a) → ok p Q.
Proof.
  intros Hwp. apply good_wp; [apply (wp_issues _ some_answer)|]; (eapply wp_mono; [exact Hwp|]); naive_solver.
Qed.
Lemma good_reads {A} (p : io A) (Q : A → Prop) :
  wp p (λ tr a, Forall reads_only tr ∧ Q a) → ok p Q.
Proof.
  intros Hwp. apply good_trace. eapply wp_mono; [exact Hwp|]. intros tr a [Hr ?]. split; [|done].
  eapply Forall_impl; [exact Hr|]. intros [X o x]. by destruct o.
Qed.

Lemma pool_set_ok p t st re ms :
  pool_schema p → typeRE t = true → st ∈ [ConditionTrue; ConditionFalse; ConditionUnknown] → reasonRE re = true →
  pool_schema (set_cond p t st re ms).
Proof. intros [] Ht Hst Hre. split; cbn; try done. by apply conds_set, cond_mk. Qed.

Lemma schema_deleting p : pool_schema p → ok (reconcileDeleting p) (λ _, True).
Proof.
  intros Hp. unfold reconcileDeleting, DeletePool, nodeGoneOrUnready.
  good_go; apply pool_set_ok; done || by in_list.
Qed.

Definition avail_ok (r : StoragePool * (string * string * string) * option error) : Prop :=
  let '(p, (st, re, _), _) := r in
  pool_schema p ∧ st ∈ [ConditionTrue; ConditionFalse; ConditionUnknown] ∧ reasonRE re = true.
Lemma schema_registration p : pool_schema p → ok (registration p) avail_ok.
Proof.
  intros Hp. unfold registration, EnsurePool. good_go; (split_and!; [|by in_list|done]);
    try apply pool_set_ok; done || by in_list.
Qed.
Lemma schema_pool req rec : ok (StoragePool_Reconcile rec req) (λ _, True).
Proof.
  unfold StoragePool_Reconcile, reconcileLive, reconcileStatus, warn. cbn [bind call good]. split; [done|].
  intros [e|p] Hp; [done|].
  destruct (deleting _); [by apply schema_deleting|]. destruct (AddFinalizer _ _) as [m added].
  eapply (good_bind _ _ _ _ (λ r, match r with inr q => pool_schema q | inl _ => True end)).
  { destruct added; [|done]. good_go; by destruct x. }
  intros [e|q] Hq; [done|].
  eapply (good_bind _ _ _ _ (λ _, True)); [by good_go|]. intros [] _.
  eapply good_bind; [by apply schema_registration|]. intros [[q' [[st re] ms]] err] (Hq' & Hst & Hre).
  good_go. by apply pool_set_ok.
Qed.

(** A claim that resolves to no volume gives one of two reasons. *)
Lemma claim_reasons ns claim : ok (claimVolume ns claim) (λ r, match r with inl (re, _) => reasonRE re = true | inr _ => True end).
Proof. unfold claimVolume. by good_go. Qed.
Lemma unready_ok : ok unreadyNodes (λ _, True).
Proof. unfold unreadyNodes. by good_go. Qed.

Lemma sh_cond_ok s t st re ms :
  share_schema s → typeRE t = true → st ∈ [ConditionTrue; ConditionFalse; ConditionUnknown] → reasonRE re = true →
  share_schema (sh_cond s t st re ms).
Proof. intros [] Ht Hst Hre. split; cbn; try done. by apply conds_set, cond_mk. Qed.
Lemma share_placed_ok s node device : share_schema s → share_schema (share_placed s node device).
Proof.
  intros Hs. assert (share_schema (sh_set_place s node device)) as Hp by (by destruct Hs).
  unfold share_placed. destruct (_ && _); [|done]. apply sh_cond_ok; done || by in_list.
Qed.
Lemma schema_share_write s st re ms res :
  share_schema s → st ∈ [ConditionTrue; ConditionFalse; ConditionUnknown] → reasonRE re = true →
  ok (share_write s st re ms res) (λ _, True).
Proof. intros. unfold share_write. good_go. by apply sh_cond_ok. Qed.
Lemma schema_share req : ok (Share_Reconcile req) (λ _, True).
Proof.
  unfold Share_Reconcile. cbn [bind call good]. split; [done|]. intros [e|s] Hs; [done|]. destruct (deleting _).
  { unfold Share_reconcileDelete, nodeGoneOrUnready. by good_go. }
  destruct (AddFinalizer _ _) as [m added].
  eapply (good_bind _ _ _ _ (λ r, match r with inr q => share_schema q | inl _ => True end)).
  { destruct added; [|done]. good_go; by destruct x. }
  clear Hs s. intros [e|s] Hs; [by destruct (IsConflict _)|]. unfold share_live.
  eapply good_bind; [apply claim_reasons|]. intros [[re ms]|vol] Hre; [apply schema_share_write; done || by in_list|].
  eapply good_bind; [apply unready_ok|]. intros [e|avoid] _; [done|].
  destruct (ResolvePlacement _ _ _) as [[[node device] n] [e|]]; [apply schema_share_write; done || by in_list|].
  pose proof (share_placed_ok s node device Hs). destruct (sh_true _ _); apply schema_share_write; done || by in_list.
Qed.

Lemma t_cond_ok t ty st re ms :
  target_schema t → typeRE ty = true → st ∈ [ConditionTrue; ConditionFalse; ConditionUnknown] → reasonRE re = true →
  target_schema (t_cond t ty st re ms).
Proof. intros [] Hty Hst Hre. split; cbn; try done. by apply conds_set, cond_mk. Qed.
Lemma schema_target_write t st re ms res :
  target_schema t → st ∈ [ConditionTrue; ConditionFalse; ConditionUnknown] → reasonRE re = true →
  ok (target_write t st re ms res) (λ _, True).
Proof. intros. unfold target_write. good_go. by apply t_cond_ok. Qed.
Lemma target_placed_ok t node luns : target_schema t → NoDup (ls_ID <$> luns) → target_schema (target_placed t node luns).
Proof.
  intros Ht Hl. assert (target_schema (t_set_place t node luns)) as Hp by (by destruct Ht).
  unfold target_placed. destruct (_ && _); [|done]. apply t_cond_ok; done || by in_list.
Qed.
Lemma schema_serve t problem node repl luns : target_schema t → NoDup (ls_ID <$> luns) →
  ok (target_serve t problem node repl luns) (λ _, True).
Proof.
  intros Ht Hl. unfold target_serve. pose proof (target_placed_ok t node luns Ht Hl).
  destruct (_ && _); [apply schema_target_write; done || by in_list|].
  destruct (negb _); [apply schema_target_write; done || by in_list|].
  destruct (t_true _ _); apply schema_target_write; done || by in_list.
Qed.
Lemma schema_volumes ns luns :
  ok (lun_volumes ns luns) (λ r, match r with inl (re, _) => reasonRE re = true | inr _ => True end).
Proof.
  induction luns as [|l luns IH]; [done|]. cbn [lun_volumes]. eapply good_bind; [apply claim_reasons|].
  intros [[re ms]|v] Hre; [done|]. eapply good_bind; [apply IH|]. by intros [[]|].
Qed.

(** Placed LUNs keep the ids of the spec. *)
Lemma place_ids prefer avoid luns (vs : list Volume) node repl placed :
  NoDup (lun_ID <$> luns) → place_luns prefer avoid 0 "" false [] (zip luns vs) = inr (node, repl, placed) →
  NoDup (ls_ID <$> placed).
Proof.
  intros Hnd (rest & -> & Hf & _)%place_luns_spec. cbn.
  assert (ls_ID <$> rest = lun_ID <$> (zip luns vs).*1) as ->.
  { induction Hf as [|x y l k [Hid _] _ IH]; [done|]. cbn. congruence. }
  eapply sublist_NoDup; [exact Hnd|]. apply fmap_sublist.
  clear. revert vs. induction luns as [|l luns IH]; intros [|v vs]; cbn; try apply sublist_nil_l. by constructor.
Qed.

Lemma schema_chap t : ok (chapSecrets t) (λ r, match r with inr (vs, _) => NoDup (sv_Name <$> vs) | inl _ => True end).
Proof.
  apply good_reads. eapply wp_mono; [apply wp_chapSecrets|]. intros tr r [Hr Hv]. split; [done|].
  destruct r as [|[vs pr]]; [done|]. by destruct (Hv vs pr eq_refl) as (_ & ? & _).
Qed.
Lemma schema_target_live t : target_schema t → ok (target_live t) (λ _, True).
Proof.
  intros Ht. unfold target_live. eapply good_bind; [apply schema_chap|]. intros [e|[vs problem]] Hvs; [done|].
  assert (target_schema (t_set_identity t (IQNPrefix +:+ Name (t_meta t)) vs)) as Hid by (by destruct Ht).
  eapply good_bind; [apply schema_volumes|]. intros [[re ms]|vols] Hre; [apply schema_target_write; done || by in_list|].
  eapply good_bind; [apply unready_ok|]. intros [e|avoid] _; [done|].
  destruct (place_luns _ _ _ _ _ _ _) as [e|[[node repl] luns]] eqn:E; [apply schema_target_write; done || by in_list|].
  apply schema_serve; [done|]. eapply place_ids; [|exact E]. apply Ht.
Qed.
Lemma schema_target req : ok (Target_Reconcile req) (λ _, True).
Proof.
  unfold Target_Reconcile. cbn [bind call good]. split; [done|]. intros [e|t] Ht; [done|]. destruct (deleting _).
  { unfold Target_reconcileDelete, nodeGoneOrUnready. by good_go. }
  destruct (AddFinalizer _ _) as [m added].
  eapply (good_bind _ _ _ _ (λ r, match r with inr q => target_schema q | inl _ => True end)).
  { destruct added; [|done]. good_go; by destruct x. }
  intros [e|t'] Ht'; [by destruct (IsConflict _)|]. by apply schema_target_live.
Qed.

Lemma schema_user req : ok (LocalUser_Reconcile req) (λ _, True).
Proof.
  assert (∀ u st re ms v, user_schema u → st ∈ [ConditionTrue; ConditionFalse; ConditionUnknown] →
    reasonRE re = true → user_schema (user_status u st re ms v)) as Hset.
  { intros u st re ms v [] ? ?. split; [done|]. cbn. by apply conds_set, cond_mk. }
  unfold LocalUser_Reconcile, user_write. cbn [bind call good]. split; [done|]. intros [e|u] Hu; [done|].
  good_go; apply Hset; done || by in_list.
Qed.
End Operator.

(** ** The agents *)
Section Agents.
Context `{K8sMeta}.
Abbreviation ok := (good emits answers).

(** Host commands send no status. *)
Lemma host_emits X (o : op X) : host_op X o → emits X o.
Proof. by destruct o. Qed.
Lemma good_host {A} (p : io A) (Q : A → Prop) : issues host_op p → wp p (λ _ a, Q a) → ok p Q.
Proof. intros Hi. apply good_wp. eapply issues_impl; [apply host_emits|done]. Qed.

(** The verdicts of the SMART store. *)
Definition store_ok (st : SmartStore) : Prop := ∀ p i, Smart_Get st p = Some i → smart_enum (si_Verdict i) = true.
Definition opt_store_ok (st : option SmartStore) : Prop := ∀ s, st = Some s → store_ok s.

Lemma with_smart_ok smart d : opt_store_ok smart → device_ok d → device_ok (with_smart smart d).
Proof.
  intros Hs Hd. unfold with_smart. destruct smart as [st|]; [|done]. cbn. destruct (Smart_Get st (ds_Path d)) as [i|] eqn:E; [|done].
  destruct Hd. split; [|done]. cbn. by eapply (Hs st).
Qed.
Definition report_ok (rep : Report) : Prop := health_enum (rep_Health rep) = true ∧ Forall device_ok (rep_Devices rep).
Lemma pass_pool_ok smart p rep err : opt_store_ok smart → pool_schema p → report_ok rep → pool_schema (pass_pool smart p rep err).
Proof.
  intros Hs [] [Hh Hd]. split; try done; cbn.
  - apply conds_set; [done|]. destruct err; cond_tac.
  - assert (Forall device_ok (with_smart smart <$> rep_Devices rep)) as Hw.
    { apply Forall_fmap. eapply Forall_impl; [exact Hd|]. intros d. by apply with_smart_ok. }
    by destruct (with_smart smart <$> rep_Devices rep).
Qed.

(** Every device state of a report is one of the enumeration, whatever the
    host's tools answered. *)
Lemma linear_devices_ok specPath added rebuild orph pvs : Forall device_ok (linear_devices specPath added rebuild orph pvs).
Proof.
  revert orph. induction pvs as [|pv pvs IH]; intros orph; cbn; [constructor|].
  destruct (match specPath !! pv_Name pv with Some sp => _ | None => _ end) as [path orph'].
  constructor; [|apply IH]. split; [done|]. cbn. unfold linear_state. destruct (pv_Missing pv); [done|]. by destruct (_ && _).
Qed.
Lemma raid_devices_ok kts orph ms : Forall device_ok (raid_devices kts orph ms).
Proof.
  revert orph. induction ms as [|m ms IH]; intros orph; cbn; [constructor|].
  destruct (match kts !! m_Path m with Some sp => _ | None => _ end) as [path orph'].
  constructor; [|apply IH]. split; [done|]. cbn. by destruct (m_State m).
Qed.

Context `{HostParse} `{MapRange}.
Definition reported_ok (r : error + Report) : Prop := match r with inr rep => report_ok rep | inl _ => True end.
Lemma linear_report_ok p : wp (linear_pass p) (λ _, reported_ok).
Proof.
  unfold linear_pass. repeat first
    [ apply wp_guard; (eapply wp_mono; [apply wp_true|]); intros ? [] _; [done|]
    | apply wp_ebind; (eapply wp_mono; [apply wp_true|]); intros ? [] _; [done|]
    | apply wp_bind_2; (eapply wp_mono; [apply wp_true|]); intros ? ? _ ].
  split; cbn; [by destruct (existsb _ _)|apply linear_devices_ok].
Qed.
Lemma raid_report_ok p : wp (raid_pass p) (λ _, reported_ok).
Proof.
  unfold raid_pass. repeat first
    [ apply wp_guard; (eapply wp_mono; [apply wp_true|]); intros ? [] _; [done|]
    | apply wp_ebind; (eapply wp_mono; [apply wp_true|]); intros ? [] _; [done|]
    | apply wp_bind_2; (eapply wp_mono; [apply wp_true|]); intros ? ? _ ].
  split; cbn; [by destruct (d_Degraded _)|apply raid_devices_ok].
Qed.
Lemma ensure_report_ok p : wp (Agent_EnsurePool p) (λ _ r, report_ok r.1).
Proof.
  unfold Agent_EnsurePool, ensureLinearPool, ensureRaidPool, reported. destruct (is_raid p);
    apply wp_bind_2; (eapply wp_mono; [apply raid_report_ok || apply linear_report_ok|]);
    intros ? [e|rep] Hr; cbn; done || (split; [done|constructor]).
Qed.
Lemma cmds_emit (allow : trace op → event op → Prop) tr :
  (∀ t e, allow t e → ∃ n args, cmd_of e = Some (n, args)) → lawful allow tr → Forall (ev_issues emits) tr.
Proof.
  intros Ha L. apply Forall_forall. intros e He. apply (lawful_in _ _ e L) in He as (t1 & t2 & _ & Hm).
  destruct (Ha _ _ Hm) as (n & args & Hc). by destruct e as [? []].
Qed.
Lemma schema_ensure p : ok (Agent_EnsurePool p) (λ r, report_ok r.1).
Proof.
  apply good_trace. eapply wp_mono; [apply wp_and; [apply wp_Agent_EnsurePool|apply ensure_report_ok]|].
  intros tr r [L Hr]. split; [|done]. eapply cmds_emit; [apply may_live_cmd|exact L].
Qed.
Lemma schema_teardown p : ok (TeardownPool p) (λ _, True).
Proof.
  apply good_trace. eapply wp_mono; [apply wp_TeardownPool|]. intros tr r [L _]. split; [|done].
  eapply cmds_emit; [apply may_wipe_cmd|exact L].
Qed.
Lemma schema_pool_agent node smart req : opt_store_ok smart → ok (PoolAgent_Reconcile node smart req) (λ _, True).
Proof.
  intros Hs. unfold PoolAgent_Reconcile, agent_deleting, agent_live. cbn [bind call good]. split; [done|].
  intros [e|p] Hp; [done|]. destruct (bool_decide _); [done|]. destruct (deleting _).
  - destruct (IsStatusConditionTrue _ _); [done|]. destruct (negb _); [done|].
    eapply good_bind; [apply schema_teardown|]. intros [e|] _; [done|]. good_go.
    destruct Hp. split; try done. apply conds_set; [done|]. cond_tac.
  - eapply good_bind; [apply schema_ensure|]. intros [rep err] Hr. good_go. by apply pass_pool_ok.
Qed.

Lemma silent_emits X (o : op X) : silent_op X o → emits X o.
Proof. by destruct o. Qed.
Lemma good_silent {A} (p : io A) : issues silent_op p → ok p (λ _, True).
Proof. intros Hi. apply good_issues. eapply issues_impl; [apply silent_emits|done]. Qed.
Lemma host_cond_ok gen err : 0 ≤ gen → cond_schema (host_cond gen err).
Proof. intros. destruct err; cond_tac. Qed.

Context `{SliceSort} `{IpParse}.
Lemma schema_share_agent node root req : ok (ShareAgent_Reconcile node root req) (λ _, True).
Proof.
  unfold ShareAgent_Reconcile, share_deleting, share_converge. cbn [bind call good]. split; [done|].
  assert (∀ ns name, ok (drop_if_present node root ns name) (λ _, True)) as Hd.
  { intros. apply good_silent. eapply issues_impl; [|apply drop_dropping]. intros X o. by destruct o. }
  intros [e|s] Hs.
  { destruct (IsNotFound _); [|done]. eapply good_bind; [apply good_silent, drop_share_silent|done]. }
  destruct (deleting _).
  - eapply good_bind; [apply Hd|]. intros _ _. good_go. by destruct Hs.
  - destruct (_ || _); [by eapply good_bind; [apply Hd|]|].
    eapply good_bind; [apply good_silent, EnsureShare_silent|]. intros err _. good_go.
    destruct Hs. split; try done; cbn; [by apply conds_set, host_cond_ok|by destruct err].
Qed.

Lemma schema_resolve ns inis st : ok (for_state inis st (resolve_chap ns)) (λ _, True).
Proof.
  apply good_silent. apply issues_for_state. intros st' ini. unfold resolve_chap. issues_go; done.
Qed.
Lemma schema_target_agent node root applied req : ok (TargetAgent_Reconcile node root applied req) (λ _, True).
Proof.
  unfold TargetAgent_Reconcile, target_deleting, target_converge. cbn [bind call good]. split; [done|].
  intros [e|t] Ht.
  { destruct (IsNotFound _); [|done]. eapply good_bind; [apply good_host; [apply RemoveTarget_host|apply wp_true]|done]. }
  assert (ok (TeardownTarget root (Name (t_meta t)) (t_VIP t)) (λ _, True)) as Hd
    by (apply good_host; [apply TeardownTarget_host|apply wp_true]).
  destruct (deleting _); [|destruct (negb _); [by eapply good_bind; [exact Hd|]|destruct (bool_decide _); [done|]]].
  - eapply good_bind; [exact Hd|]. intros _ _. good_go. by destruct Ht.
  - eapply good_bind; [apply schema_resolve|]. intros [st|e] _; [|done]. destruct (bool_decide _); [done|].
    eapply good_bind; [apply good_host; [apply EnsureTarget_host|apply wp_true]|]. intros err _. good_go.
    destruct Ht. split; try done; cbn; [by apply conds_set, host_cond_ok|by destruct err].
Qed.
End Agents.

(** ** The inventory *)
Section InventorySchema.
Context `{K8sMeta} `{SmartParse} `{LsblkParse}.
Abbreviation ok := (good emits answers).

Lemma put_ok st i paths : store_ok st → smart_enum (si_Verdict i) = true → store_ok (Smart_Put st i paths).
Proof. intros Hst Hi p j. rewrite Smart_Get_Put. case_bool_decide; [by intros [= <-]|apply Hst]. Qed.
Lemma note_ok st i kernel path : store_ok st → smart_enum (si_Verdict i) = true → store_ok (note_smart st i kernel path).
Proof.
  intros Hst Hi. unfold note_smart. destruct (bool_decide _); [by apply put_ok|].
  destruct (Smart_Get _ _); [done|by apply put_ok].
Qed.
Lemma schema_check dev : ok (CheckSmart dev) (λ i, smart_enum (si_Verdict i) = true).
Proof. unfold CheckSmart. good_go; try done. by destruct b. Qed.

Definition disk_ok (d : Disk) : Prop := smart_enum (dk_Smart d) = true.
Lemma disk_of_ok claimed path info d : (∀ i, info = Some i → smart_enum (si_Verdict i) = true) → disk_ok (disk_of claimed path info d).
Proof. intros Hi. unfold disk_ok. cbn. destruct info; [by apply Hi|done]. Qed.
Lemma schema_disk sweep claimed aliases store d : opt_store_ok store →
  ok (collect_disk sweep claimed aliases store d) (λ '(store', disk), opt_store_ok store' ∧ disk_ok disk).
Proof.
  intros Hst. unfold collect_disk. destruct store as [st|]; [|by split; [|apply disk_of_ok]].
  specialize (Hst st eq_refl). eapply (good_bind _ _ _ _ store_ok).
  - destruct sweep; [|done]. eapply good_bind; [apply schema_check|]. intros i Hi. by apply note_ok.
  - intros st' Hst'. split; [by intros ? [= <-]|]. apply disk_of_ok. apply Hst'.
Qed.
Lemma schema_disks sweep claimed aliases store ds : opt_store_ok store →
  ok (collect_disks sweep claimed aliases store ds) (λ '(store', disks), opt_store_ok store' ∧ Forall disk_ok disks).
Proof.
  revert store. induction ds as [|d ds IH]; intros store Hst; cbn [collect_disks]; [by split; [|constructor]|].
  destruct (bool_decide _); [by apply IH|].
  eapply good_bind; [by apply schema_disk|]. intros [store' disk] [Hst' Hd].
  eapply good_bind; [by apply IH|]. intros [store'' disks] [Hst'' Hds]. by split; [|constructor].
Qed.

Definition publisher_ok (p : InventoryPublisher) : Prop := opt_store_ok (ip_Smart p).
Lemma schema_Collect p : publisher_ok p →
  ok (Collect p) (λ '(p', c), publisher_ok p' ∧ ∀ disks, c = inr disks → Forall disk_ok disks).
Proof.
  intros Hp. unfold Collect. cbn [bind call good]. split; [done|]. intros ls _. destruct (ls.2); [done|].
  destruct (json_lsblk _) as [e|rep]; [done|]. cbn [bind call good]. split; [done|]. intros pvs _.
  destruct (pvs.2); [done|].
  eapply (good_bind _ _ _ _ (λ _, True)); [destruct (ip_MD p); [|done]; apply good_silent; unfold MD_Members; issues_go; done|].
  intros members _. eapply (good_bind _ _ _ _ (λ _, True)); [by good_go|]. intros sweep _.
  eapply (good_bind _ _ _ _ (λ _, True)); [by good_go|]. intros last _.
  eapply (good_bind _ _ _ _ (λ _, True)); [unfold byIDAliases; by good_go|]. intros aliases _.
  eapply good_bind; [by apply schema_disks|]. intros [store disks] [Hst Hd]. split; [done|]. by intros ? [= <-].
Qed.
Lemma schema_write p disks : publisher_ok p → Forall disk_ok disks → ok (inventory_write p disks) (λ r, publisher_ok r.1).
Proof. intros Hp Hd. unfold inventory_write, ensure_inventory. by good_go. Qed.
Lemma schema_inventory p : publisher_ok p → ok (inventory_publish p) (λ r, publisher_ok r.1).
Proof.
  intros Hp. unfold inventory_publish. eapply good_bind; [by apply schema_Collect|]. intros [p' [e|disks]] [Hp' Hd]; [done|].
  specialize (Hd _ eq_refl). destruct (bool_decide _); [|by apply schema_write]. cbn [bind call good]. split; [done|].
  intros now _. destruct (_ <? _); [done|by apply schema_write].
Qed.
Lemma schema_rounds n p : publisher_ok p → ok (inventory_rounds n p) publisher_ok.
Proof.
  revert p. induction n as [|n IH]; intros p Hp; cbn [inventory_rounds]; [done|].
  eapply good_bind; [by apply schema_inventory|]. intros [p' e] Hp'. by apply IH.
Qed.
End InventorySchema.

Section StatusSchema.
Context `{K8sMeta} `{HostParse} `{MapRange} `{SliceSort} `{IpParse} `{SmartParse} `{LsblkParse}.

(** A publisher as cmd/stornas-agent starts it, and the store it shares with
    the pool agent after some rounds. *)
Definition fresh_publisher (p : InventoryPublisher) : Prop := ip_Smart p = None ∨ ip_Smart p = Some NewSmartStore.
Definition swept_store (smart : option SmartStore) : Prop :=
  ∃ n p tr p', fresh_publisher p ∧ runs (inventory_rounds n p) tr p' ∧ Forall (ev_answers answers) tr ∧ smart = ip_Smart p'.

(** The programs that write status. *)
Inductive status_writer : ∀ A, io A → Prop :=
  | sw_pool recorder req : status_writer _ (StoragePool_Reconcile recorder req)
  | sw_share req : status_writer _ (Share_Reconcile req)
  | sw_target req : status_writer _ (Target_Reconcile req)
  | sw_user req : status_writer _ (LocalUser_Reconcile req)
  | sw_pool_agent node smart req : swept_store smart → status_writer _ (PoolAgent_Reconcile node smart req)
  | sw_share_agent node root req : status_writer _ (ShareAgent_Reconcile node root req)
  | sw_target_agent node root applied req : status_writer _ (TargetAgent_Reconcile node root applied req)
  | sw_inventory n p : fresh_publisher p → status_writer _ (inventory_rounds n p).

Lemma fresh_ok p : fresh_publisher p → publisher_ok p.
Proof. intros [E|E] st Hst; rewrite E in Hst; simplify_eq. intros q i. unfold Smart_Get, NewSmartStore. by rewrite lookup_empty. Qed.
Lemma swept_store_ok smart : swept_store smart → opt_store_ok smart.
Proof.
  intros (n & p & tr & p' & Hf & Hr & Ha & ->).
  exact (proj2 (good_sound _ _ _ _ _ _ (schema_rounds n p (fresh_ok p Hf)) Hr Ha)).
Qed.
Lemma writers_good A (p : io A) : status_writer A p → ∃ Q, good emits answers p Q.
Proof.
  destruct 1; eexists.
  - apply schema_pool.
  - apply schema_share.
  - apply schema_target.
  - apply schema_user.
  - by apply schema_pool_agent, swept_store_ok.
  - apply schema_share_agent.
  - apply schema_target_agent.
  - by apply schema_rounds, fresh_ok.
Qed.
End StatusSchema.

(** C22: Every status is well typed, but for the length of its messages.  Each
    status any of the eight reconcilers writes (the four controllers, the three
    agents that report, the inventory sweep) satisfies the schema of its kind
    with one exception, whatever the host's commands answer: condition types,
    statuses, reasons and generations, the enumerations of health, device state,
    SMART verdict and export state, and the unique keys of a Target's LUN and
    Secret lists, as long as the objects read satisfied it.  The exception is
    the limit of 32768 on a condition's message, which is not part of the
    statement and which the code does not keep ([host_error_breaks_schema]).
    The pool agent's SMART store is the one the sweep filled. *)
Theorem status_schema `{K8sMeta} `{HostParse} `{MapRange} `{SliceSort} `{IpParse} `{SmartParse} `{LsblkParse}
    A (p : io A) tr r k e x :
  status_writer A p → runs p tr r → Forall (ev_answers answers) tr →
  e ∈ tr → ev_status k e = Some x → status_ok k x.
Proof.
  intros Hw Hr Ha He Hev. destruct (writers_good A p Hw) as [Q Hg].
  destruct (good_sound _ _ _ _ _ _ Hg Hr Ha) as [Hem _].
  rewrite Forall_forall in Hem. by eapply ev_status_emits; [apply Hem|].
Qed.

(** ** Witness: the agent on a host where every command fails loudly *)
Section Witness.
#[local] Existing Instance RefMeta.meta.
#[local] Existing Instance map_range.
#[local] Existing Instance demo_parse.
#[local] Existing Instance insertion_slice_sort.
Fixpoint noise (n : nat) : string := match n with O => "" | S n => String "x"%char (noise n) end.
Definition failing (text : string) : spawner :=
  λ _ _, {| pr_err := Some (errorf "exit status 5"); pr_stdout := ""; pr_stderr := text |}.
Definition failing_env (text : string) : env op unit :=
  demo_env (HostRunner_Run (failing text)) (demo_get (Some (demo_pool [] None [])) None) list_none.
Definition failing_run (text : string) := run (failing_env text) (PoolAgent_Reconcile "n1" None (NN "" "tank")) tt.
Definition pvcreate_error (text : string) : error :=
  errorf ("pvcreate " +:+ "/dev/sdb" +:+ ": " +:+ "exit status 5" +:+ ": " +:+ TrimSpace text).
Definition failing_status (text : string) : StoragePool :=
  pass_pool None (demo_pool [] None []) (failed_report (demo_pool [] None [])) (Some (pvcreate_error text)).
Lemma failing_trace text : ∃ t1 w, (failing_run text).1.2 = t1 ++ [Ev (StatusUpdate KStoragePool (failing_status text)) w].
Proof. eexists [_; _; _; _], _. reflexivity. Qed.
Lemma noise_length n : String.length (noise n) = n.
Proof. induction n; cbn; congruence. Qed.
Lemma noise_trim n : TrimSpace (noise (S n)) = noise (S n).
Proof.
  destruct (word_ends (noise (S n))) as [? ?]; [|by apply TrimSpace_id]. split; [done|].
  induction n as [|n IH]; [done|exact IH].
Qed.

(** The text of a condition is not bounded: the error of a failed command
    carries all its output, and the schema's limit of 32768 is passed by a
    command that prints more, so the API server refuses the very status that
    reports the failure. *)
Lemma host_error_breaks_schema n :
  ∃ e p c, e ∈ (failing_run (noise (S n))).1.2 ∧ ev_status KStoragePool e = Some p ∧
    FindStatusCondition (sp_conds p) ConditionHostReady = Some c ∧ (n < String.length (c_Message c))%nat.
Proof.
  destruct (failing_trace (noise (S n))) as (t1 & w & ->). eexists _, _, _.
  split; [apply elem_of_app; right; by left|]. split; [exact (as_kind_refl KStoragePool _)|].
  split; [exact (find_set_eq _ (host_ready _ _))|]. unfold host_ready, pvcreate_error. cbn [c_Message emsg].
  rewrite noise_trim. unfold errorf. cbn [emsg]. rewrite !slength_app, noise_length. lia.
Qed.
Lemma over_limit : ∃ e p c, e ∈ (failing_run (noise (S maxMessage))).1.2 ∧ ev_status KStoragePool e = Some p ∧
    FindStatusCondition (sp_conds p) ConditionHostReady = Some c ∧ (maxMessage < String.length (c_Message c))%nat.
Proof. apply host_error_breaks_schema. Qed.

Definition no_smart : SmartParse := {| json_smartctl := λ _, inl (errorf "no json") |}.
Definition no_lsblk : LsblkParse := {| json_lsblk := λ _, inl (errorf "no json") |}.
Definition no_ip : IpParse := {| json_ifnames := λ _, inl (errorf "no json"); json_routes := λ _, inl (errorf "no json") |}.
#[local] Existing Instance no_smart.
#[local] Existing Instance no_lsblk.
#[local] Existing Instance no_ip.
Lemma no_conds_ok : conds_ok [].
Proof. by intros t c. Qed.
Lemma status_schema_witness : status_ok KStoragePool (failing_status "no space").
Proof.
  destruct (failing_trace "no space") as (t1 & w & Htr).
  apply (status_schema _ _ (failing_run "no space").1.2 _ KStoragePool
    (Ev (StatusUpdate KStoragePool (failing_status "no space")) w) _
    (sw_pool_agent "n1" None (NN "" "tank")
       (ex_intro _ 0%nat (ex_intro _ {| ip_Node := "n1"; ip_MD := false; ip_Smart := None; ip_lastSweep := None;
                                  ip_lastDisks := []; ip_lastWrite := None |}
         (ex_intro _ [] (ex_intro _ _ (conj (or_introl eq_refl) (conj (runs_ret _) (conj (List.Forall_nil _) eq_refl))))))))
    (run_runs (failing_env "no space") (PoolAgent_Reconcile "n1" None (NN "" "tank")) tt)).
  - assert (pool_schema (demo_pool [] None [])) as Hp by (split; [done|apply no_conds_ok|done|constructor]).
    vm_compute (failing_run "no space").1.2. constructor; [exact Hp|]. repeat (constructor; [exact I|]). constructor.
  - rewrite Htr. apply elem_of_app. right. by left.
  - exact (as_kind_refl KStoragePool _).
Defined.
End Witness.
