(* ===== verification/Wiring.v ===== *)
(** * Which events wake which reconciler

    The SetupWithManager functions of the operator and the agents, and the
    controllers their main functions start.  A watch is a kind, a predicate
    on its events and a map from the event to the requests it enqueues; a
    change is an object before and after.  Two theorems make waiting sound: a
    pass that ends without error, requeue or failed write has found everything
    it looked for, except in kinds it watches ([quiet_pass_waits_watched]),
    and a change that matters to a request enqueues it
    ([relevant_changes_wake]). *)

From S2P Require Import Prelude GoStrings Prog Contract ApiTypes Effects Demo Placement Registrar Nodes StoragePoolController ShareController VolumeWatch TargetController ClaimBinder TierClassController LocalUserController Lvm Mdraid Replace Smart PoolAgent PoolTeardown PoolLive PoolAgentSafety Lio TargetAgent UserAgent ShareAgent.

(** The reconcilers of operator/cmd/main.go and cmd/stornas-agent/main.go. *)
Inductive controller :=
  | CStoragePool | CTarget | CShare | CLocalUser | CClaimBinder | CTierClasses
  | APool | AShare | AUser | ATarget.
Definition operator_controllers : list controller :=
  [CStoragePool; CTarget; CShare; CLocalUser; CClaimBinder; CTierClasses].
Definition agent_controllers : list controller := [APool; AShare; AUser; ATarget].

(** Each reconciler runs in one kind of process. *)
#[global] Instance controller_eq_dec : EqDecision controller.
Proof. solve_decision. Defined.
Lemma controllers_started c : bool_decide (c ∈ operator_controllers) = negb (bool_decide (c ∈ agent_controllers)).
Proof. destruct c; vm_compute; reflexivity. Qed.

(** The kinds a reconciler is registered for. *)
Definition watched (c : controller) : list kind :=
  match c with
  | CStoragePool => [KStoragePool; KPool]
  | CShare => [KShare; KNode; KVolume]
  | CTarget => [KTarget; KNode; KVolume; KSecret]
  | CLocalUser => [KLocalUser; KSecret]
  | CClaimBinder => [KPVC; KStoragePool; KStorageClass; KNode]
  | CTierClasses => [KStoragePool; KStorageClass]
  | APool => [KStoragePool]
  | AShare => [KShare]
  | ATarget => [KTarget]
  | AUser => [KLocalUser]
  end.
(** Secrets reach these agents as a version in the object's own status: the
    operator watches them, the agent may only get them. *)
Definition relayed (c : controller) : list kind :=
  match c with ATarget | AUser => [KSecret] | _ => [] end.

(** An object before and after: created, updated or deleted. *)
Inductive change := Change (k : kind) (old new : option (obj k)).
Definition node_change (old new : option Node) : option node_event :=
  match old, new with
  | None, Some n => Some (NodeCreate n)
  | Some o, Some n => Some (NodeUpdate o n)
  | Some o, None => Some (NodeDelete o)
  | None, None => None
  end.
Definition node_passes (old new : option Node) : bool :=
  match node_change old new with Some e => nodeReadyChanged e | None => false end.
(** [volumeServingChanged] sets no CreateFunc or DeleteFunc, so both pass. *)
Definition volume_passes (old new : option Volume) : bool :=
  match old, new with Some o, Some n => volumeServingChanged o n | _, _ => true end.
(** The object the event is about.  An update maps both the old and the new
    object; every map function below looks at namespace and name at most,
    which an update keeps. *)
Definition subject {A} (old new : option A) : option A := match new with Some n => Some n | None => old end.
Definition self {A} (key : A → NamespacedName) (old new : option A) : io (list NamespacedName) :=
  Ret (match subject old new with Some x => [key x] | None => [] end).
Definition on {A} (old new : option A) (f : A → io (list NamespacedName)) : io (list NamespacedName) :=
  match subject old new with Some x => f x | None => Ret [] end.

Definition tiers_request : NamespacedName := NN "" "tiers".

(** One definition per SetupWithManager: the requests a change enqueues. *)
Definition StoragePool_Setup (ch : change) : io (list NamespacedName) :=
  match ch with
  | Change k old new =>
      match k return option (obj k) → option (obj k) → io (list NamespacedName) with
      | KStoragePool => λ old new, self (λ x, key_of (sp_meta x)) old new
      | KPool => λ old new, self (λ x, key_of (p_meta x)) old new
      | _ => λ _ _, Ret []
      end old new
  end.
Definition Share_Setup (ch : change) : io (list NamespacedName) :=
  match ch with
  | Change k old new =>
      match k return option (obj k) → option (obj k) → io (list NamespacedName) with
      | KShare => λ old new, self (λ x, key_of (sh_meta x)) old new
      | KNode => λ old new, if node_passes old new then on old new (λ _, allShares) else Ret []
      | KVolume => λ old new, if volume_passes old new then on old new (λ v, volumeShares (Name (v_meta v))) else Ret []
      | _ => λ _ _, Ret []
      end old new
  end.
Definition Target_Setup (ch : change) : io (list NamespacedName) :=
  match ch with
  | Change k old new =>
      match k return option (obj k) → option (obj k) → io (list NamespacedName) with
      | KTarget => λ old new, self (λ x, key_of (t_meta x)) old new
      | KNode => λ old new, if node_passes old new then on old new (λ _, allTargets) else Ret []
      | KVolume => λ old new, if volume_passes old new then on old new (λ v, volumeTargets (Name (v_meta v))) else Ret []
      | KSecret => λ old new, on old new (λ s, secretTargets (sec_meta s))
      | _ => λ _ _, Ret []
      end old new
  end.
Definition LocalUser_Setup (ch : change) : io (list NamespacedName) :=
  match ch with
  | Change k old new =>
      match k return option (obj k) → option (obj k) → io (list NamespacedName) with
      | KLocalUser => λ old new, self (λ x, key_of (lu_meta x)) old new
      | KSecret => λ old new, on old new (λ s, secretUsers (sec_meta s))
      | _ => λ _ _, Ret []
      end old new
  end.
Definition ClaimBinder_Setup (ch : change) : io (list NamespacedName) :=
  match ch with
  | Change k old new =>
      match k return option (obj k) → option (obj k) → io (list NamespacedName) with
      | KPVC => λ old new, self (λ x, key_of (pvc_meta x)) old new
      | KStoragePool => λ old new, on old new (λ _, pendingHostClaims)
      | KStorageClass => λ old new, on old new (λ _, pendingHostClaims)
      | KNode => λ old new, if node_passes old new then on old new (λ _, pendingHostClaims) else Ret []
      | _ => λ _ _, Ret []
      end old new
  end.
Definition TierClasses_Setup (ch : change) : io (list NamespacedName) :=
  match ch with
  | Change k old new =>
      match k return option (obj k) → option (obj k) → io (list NamespacedName) with
      | KStoragePool => λ old new, on old new (λ _, Ret [tiers_request])
      | KStorageClass => λ old new, on old new (λ _, Ret [tiers_request])
      | _ => λ _ _, Ret []
      end old new
  end.
Definition PoolAgent_Setup (ch : change) : io (list NamespacedName) :=
  match ch with
  | Change k old new =>
      match k return option (obj k) → option (obj k) → io (list NamespacedName) with
      | KStoragePool => λ old new, self (λ x, key_of (sp_meta x)) old new
      | _ => λ _ _, Ret []
      end old new
  end.
Definition ShareAgent_Setup (ch : change) : io (list NamespacedName) :=
  match ch with
  | Change k old new =>
      match k return option (obj k) → option (obj k) → io (list NamespacedName) with
      | KShare => λ old new, self (λ x, key_of (sh_meta x)) old new
      | _ => λ _ _, Ret []
      end old new
  end.
Definition TargetAgent_Setup (ch : change) : io (list NamespacedName) :=
  match ch with
  | Change k old new =>
      match k return option (obj k) → option (obj k) → io (list NamespacedName) with
      | KTarget => λ old new, self (λ x, key_of (t_meta x)) old new
      | _ => λ _ _, Ret []
      end old new
  end.
Definition UserAgent_Setup (ch : change) : io (list NamespacedName) :=
  match ch with
  | Change k old new =>
      match k return option (obj k) → option (obj k) → io (list NamespacedName) with
      | KLocalUser => λ old new, self (λ x, key_of (lu_meta x)) old new
      | _ => λ _ _, Ret []
      end old new
  end.
Definition enqueue (c : controller) : change → io (list NamespacedName) :=
  match c with
  | CStoragePool => StoragePool_Setup | CTarget => Target_Setup | CShare => Share_Setup | CLocalUser => LocalUser_Setup
  | CClaimBinder => ClaimBinder_Setup | CTierClasses => TierClasses_Setup
  | APool => PoolAgent_Setup | AShare => ShareAgent_Setup | AUser => UserAgent_Setup | ATarget => TargetAgent_Setup
  end.
(** [watched] lists the kinds these functions name, and no others. *)
Lemma watched_exact c k : k ∉ watched c → ∀ old new, enqueue c (Change k old new) = Ret [].
Proof. destruct c, k; intros Hk old new; (reflexivity || destruct Hk; apply (bool_decide_unpack _); vm_compute; exact I). Qed.

(** ** The informer's view *)
Definition store : Type := ∀ k, gmap NamespacedName (obj k).
Definition in_namespace (ns : option string) (key : NamespacedName) : bool :=
  match ns with None => true | Some n => bool_decide (nn_Namespace key = n) end.
Definition store_list (st : store) (k : kind) (ns : option string) : list (obj k) :=
  (filter (λ kx, in_namespace ns kx.1 = true) (map_to_list (st k))).*2.
Definition store_env (st : store) : env op unit :=
  λ X o s,
  (match o in op X return X with
   | Get k key => match st k !! key with Some x => inr x | None => inl (Err "not found" KNotFound) end
   | List k ns => inr (store_list st k ns)
   | o' => some_answer _ o'
   end, s).
Definition wakes (st : store) (c : controller) (ch : change) : list NamespacedName :=
  (run (store_env st) (enqueue c ch) tt).1.1.

Lemma elem_store_list st k ns x :
  x ∈ store_list st k ns ↔ ∃ key, st k !! key = Some x ∧ in_namespace ns key = true.
Proof.
  unfold store_list. rewrite list_elem_of_fmap. split.
  - intros ([key y] & -> & [? ?%elem_of_map_to_list]%list_elem_of_filter). eauto.
  - intros (key & ? & ?). exists (key, x). split; [done|]. apply list_elem_of_filter. split; [done|].
    by apply elem_of_map_to_list.
Qed.

(** ** A change that matters enqueues the request *)
Section Routing.
Context (st : store).

(** The server files objects under their own namespace and name. *)
Record keyed : Prop := {
  kd_share : ∀ key s, st KShare !! key = Some s → key_of (sh_meta s) = key;
  kd_target : ∀ key t, st KTarget !! key = Some t → key_of (t_meta t) = key;
  kd_user : ∀ key u, st KLocalUser !! key = Some u → key_of (lu_meta u) = key;
  kd_claim : ∀ key c, st KPVC !! key = Some c → key_of (pvc_meta c) = key;
}.

(** A claim bound to an r-drbd volume: the PV carries the Volume's name as
    its own and as its CSI handle, and points back at the claim. *)
Definition bound_claim (ns claim vol : string) : Prop :=
  ∃ pvc pv csi, st KPVC !! NN ns claim = Some pvc ∧ pvc_VolumeName pvc = vol ∧ vol ≠ "" ∧
    st KPV !! NN "" vol = Some pv ∧ pv_CSI pv = Some csi ∧ csi_Driver csi = Driver ∧ csi_VolumeHandle csi = vol ∧
    pv_ClaimRef pv = Some (NN ns claim).

(** The volume came up: it is new, or no replica could serve it for some
    preferred and avoided nodes and one now can. *)
Definition recovers (old : option Volume) (new : Volume) : Prop :=
  match old with
  | None => True
  | Some o => volume_wf o ∧ volume_wf new ∧ ∃ prefer avoid err,
      (ResolvePlacement o prefer avoid).2 = Some err ∧ (ResolvePlacement new prefer avoid).2 = None
  end.

(** The set of nodes to avoid differs before and after. *)
Definition moves_avoid (old : Node) (new : option Node) : Prop :=
  match new with
  | None => True
  | Some n => Name (n_meta n) = Name (n_meta old) ∧ ∃ l1 l2, down_set (l1 ++ old :: l2) ≠ down_set (l1 ++ n :: l2)
  end.

Inductive relevant : controller → NamespacedName → change → Prop :=
  | rel_pool c p old new : c = CStoragePool ∨ c = APool → subject old new = Some p →
      relevant c (key_of (sp_meta p)) (Change KStoragePool old new)
  | rel_rpool (sp : StoragePool) rp old new : subject old new = Some rp → key_of (p_meta rp) = pool_key sp →
      Namespace (sp_meta sp) = "" → relevant CStoragePool (key_of (sp_meta sp)) (Change KPool old new)
  | rel_share c s old new : c = CShare ∨ c = AShare → subject old new = Some s →
      relevant c (key_of (sh_meta s)) (Change KShare old new)
  | rel_target c t old new : c = CTarget ∨ c = ATarget → subject old new = Some t →
      relevant c (key_of (t_meta t)) (Change KTarget old new)
  | rel_user c u old new : c = CLocalUser ∨ c = AUser → subject old new = Some u →
      relevant c (key_of (lu_meta u)) (Change KLocalUser old new)
  | rel_share_volume key s old new : st KShare !! key = Some s →
      bound_claim (Namespace (sh_meta s)) (sh_ClaimName s) (Name (v_meta new)) → recovers old new →
      relevant CShare key (Change KVolume old (Some new))
  | rel_target_volume key t lun old new : st KTarget !! key = Some t → lun ∈ t_LUNs t →
      bound_claim (Namespace (t_meta t)) (lun_ClaimName lun) (Name (v_meta new)) → recovers old new →
      relevant CTarget key (Change KVolume old (Some new))
  | rel_share_node key s old new : st KShare !! key = Some s → moves_avoid old new →
      relevant CShare key (Change KNode (Some old) new)
  | rel_target_node key t old new : st KTarget !! key = Some t → moves_avoid old new →
      relevant CTarget key (Change KNode (Some old) new)
  | rel_target_secret key t ini sec old new : st KTarget !! key = Some t → ini ∈ t_Initiators t →
      subject old new = Some sec → key_of (sec_meta sec) = NN (Namespace (t_meta t)) (ini_ChapSecretRef ini) →
      relevant CTarget key (Change KSecret old new)
  | rel_user_secret key u sec old new : st KLocalUser !! key = Some u → subject old new = Some sec →
      key_of (sec_meta sec) = NN (Namespace (lu_meta u)) (lu_PasswordSecretRef u) →
      relevant CLocalUser key (Change KSecret old new)
  | rel_claim key c old new p : st KPVC !! key = Some c → hostClaimPending c = true → subject old new = Some p →
      relevant CClaimBinder key (Change KStoragePool old new)
  | rel_claim_class key c old new p : st KPVC !! key = Some c → hostClaimPending c = true → subject old new = Some p →
      relevant CClaimBinder key (Change KStorageClass old new)
  | rel_claim_node key c old new : st KPVC !! key = Some c → hostClaimPending c = true → moves_avoid old new →
      relevant CClaimBinder key (Change KNode (Some old) new)
  | rel_tiers old new p : subject old new = Some p → relevant CTierClasses tiers_request (Change KStoragePool old new)
  | rel_tier_class old new p : subject old new = Some p → relevant CTierClasses tiers_request (Change KStorageClass old new).

Lemma node_flip old new : moves_avoid old new → node_passes (Some old) new = true.
Proof.
  destruct new as [n|]; [|done]. intros [Hn (l1 & l2 & Hd)]. unfold node_passes. cbn.
  destruct (Bool.eqb (nodeReady old) (nodeReady n)) eqn:E; [|done]. apply eqb_prop in E. destruct Hd.
  induction l1 as [|m l1 IH]; cbn [app down_set]; [by rewrite E, Hn|]. by rewrite IH.
Qed.
Lemma recovery_passes old new : recovers old new → volume_passes old (Some new) = true.
Proof.
  destruct old as [o|]; [|done]. intros (Ho & Hn & prefer & avoid & err & Hold & Hnew). cbn.
  destruct (ResolvePlacement new prefer avoid) as [[[node device] n] e] eqn:E. cbn in Hnew. subst e.
  by eapply volume_watch_complete.
Qed.

(** What the map functions answer from the informer's view. *)
Abbreviation asks p := (run (store_env st) p tt).1.1.
Lemma asks_allShares : asks allShares = map (λ s, key_of (sh_meta s)) (store_list st KShare None).
Proof. done. Qed.
Lemma asks_allTargets : asks allTargets = map (λ t, key_of (t_meta t)) (store_list st KTarget None).
Proof. done. Qed.
Lemma asks_pending : asks pendingHostClaims =
  map (λ c, key_of (pvc_meta c)) (filter (λ c, hostClaimPending c = true) (store_list st KPVC None : list PersistentVolumeClaim)).
Proof. done. Qed.
Lemma asks_secretTargets m : asks (secretTargets m) = map (λ t, key_of (t_meta t))
  (filter (λ t, Name m ∈ map ini_ChapSecretRef (t_Initiators t)) (store_list st KTarget (Some (Namespace m)) : list Target)).
Proof. done. Qed.
Lemma asks_secretUsers m : asks (secretUsers m) = map (λ u, key_of (lu_meta u))
  (filter (λ u, lu_PasswordSecretRef u = Name m) (store_list st KLocalUser (Some (Namespace m)) : list LocalUser)).
Proof. done. Qed.
Lemma asks_volumeShares vol pv ns claim : st KPV !! NN "" vol = Some pv → pv_ClaimRef pv = Some (NN ns claim) →
  asks (volumeShares vol) = map (λ s, key_of (sh_meta s))
    (filter (λ s, sh_ClaimName s = claim) (store_list st KShare (Some ns) : list Share)).
Proof. intros Hpv Hr. unfold volumeShares, volumeClaim. cbn [run bind call store_env].
  rewrite (Hpv : @lookup _ (obj KPV) (gmap NamespacedName (obj KPV)) _ (NN "" vol) (st KPV) = Some pv). cbn [bind]. by rewrite Hr. Qed.
Lemma asks_volumeTargets vol pv ns claim : st KPV !! NN "" vol = Some pv → pv_ClaimRef pv = Some (NN ns claim) →
  asks (volumeTargets vol) = map (λ t, key_of (t_meta t))
    (filter (λ t, claim ∈ map lun_ClaimName (t_LUNs t)) (store_list st KTarget (Some ns) : list Target)).
Proof. intros Hpv Hr. unfold volumeTargets, volumeClaim. cbn [run bind call store_env].
  rewrite (Hpv : @lookup _ (obj KPV) (gmap NamespacedName (obj KPV)) _ (NN "" vol) (st KPV) = Some pv). cbn [bind]. by rewrite Hr. Qed.

(** A stored object that passes the filter is among the requests. *)
Lemma in_map_store k (f : obj k → NamespacedName) (P : obj k → Prop) `{∀ x, Decision (P x)} ns key x :
  st k !! key = Some x → f x = key → P x → in_namespace ns key = true →
  key ∈ map f (filter P (store_list st k ns)).
Proof.
  intros Hx Hf HP Hns. apply list_elem_of_fmap. exists x. split; [done|]. apply list_elem_of_filter.
  split; [done|]. apply elem_store_list. eauto.
Qed.
Lemma in_all_store k (f : obj k → NamespacedName) key x :
  st k !! key = Some x → f x = key → key ∈ map f (store_list st k None).
Proof. intros Hx Hf. apply list_elem_of_fmap. exists x. split; [done|]. apply elem_store_list. eauto. Qed.
Lemma in_ns_key ns name : in_namespace (Some ns) (NN ns name) = true.
Proof. by apply bool_decide_eq_true_2. Qed.
End Routing.

Lemma change_wakes st c key ch : keyed st → relevant st c key ch → key ∈ wakes st c ch.
Proof.
  intros Hk Hrel. unfold wakes.
  destruct Hrel as [c p old new Hc Hs|sp rp old new Hs Hkey Hns|c s old new Hc Hs|c t old new Hc Hs|c u old new Hc Hs
    |key s old new Hs (pvc & pv & csi & _ & _ & _ & Hpv & _ & _ & _ & Href) Hrec
    |key t lun old new Ht Hl (pvc & pv & csi & _ & _ & _ & Hpv & _ & _ & _ & Href) Hrec
    |key s old new Hs Hm|key t old new Ht Hm|key t ini sec old new Ht Hi Hs Hkey|key u sec old new Hu Hs Hkey
    |key cl old new p Hcl Hp Hs|key cl old new p Hcl Hp Hs|key cl old new Hcl Hp Hm|old new p Hs|old new p Hs];
    try (destruct Hc as [->| ->]); cbn [enqueue StoragePool_Setup Share_Setup Target_Setup LocalUser_Setup ClaimBinder_Setup
      TierClasses_Setup PoolAgent_Setup ShareAgent_Setup TargetAgent_Setup UserAgent_Setup]; unfold self, on.
  - rewrite Hs. by left.
  - rewrite Hs. by left.
  - rewrite Hs. unfold pool_key in Hkey. cbn. rewrite Hkey, <- Hns. by left.
  - rewrite Hs. by left.
  - rewrite Hs. by left.
  - rewrite Hs. by left.
  - rewrite Hs. by left.
  - rewrite Hs. by left.
  - rewrite Hs. by left.
  - rewrite recovery_passes by done. cbn [subject]. rewrite (asks_volumeShares _ _ _ _ _ Hpv Href).
    pose proof (kd_share st Hk _ _ Hs) as <-. apply (in_map_store st KShare) with (x := s); try done. apply in_ns_key.
  - rewrite recovery_passes by done. cbn [subject]. rewrite (asks_volumeTargets _ _ _ _ _ Hpv Href).
    pose proof (kd_target st Hk _ _ Ht) as <-. apply (in_map_store st KTarget) with (x := t); try done; [|apply in_ns_key].
    apply list_elem_of_fmap. eauto.
  - rewrite node_flip by done. unfold subject. destruct new; rewrite asks_allShares;
      (apply (in_all_store st KShare) with (x := s); [done|by apply (kd_share st Hk)]).
  - rewrite node_flip by done. unfold subject. destruct new; rewrite asks_allTargets;
      (apply (in_all_store st KTarget) with (x := t); [done|by apply (kd_target st Hk)]).
  - rewrite (Hs : @subject (obj KSecret) old new = Some sec), asks_secretTargets. injection Hkey as -> Hname. pose proof (kd_target st Hk _ _ Ht) as <-.
    apply (in_map_store st KTarget) with (x := t); try done; [|apply in_ns_key].
    rewrite Hname. apply list_elem_of_fmap. eauto.
  - rewrite (Hs : @subject (obj KSecret) old new = Some sec), asks_secretUsers. injection Hkey as -> Hname. pose proof (kd_user st Hk _ _ Hu) as <-.
    apply (in_map_store st KLocalUser) with (x := u); try done. apply in_ns_key.
  - rewrite Hs, asks_pending. apply (in_map_store st KPVC) with (x := cl); try done. by apply (kd_claim st Hk).
  - rewrite Hs, asks_pending. apply (in_map_store st KPVC) with (x := cl); try done. by apply (kd_claim st Hk).
  - rewrite node_flip by done. unfold subject.
    destruct new; rewrite asks_pending; (apply (in_map_store st KPVC) with (x := cl); try done; by apply (kd_claim st Hk)).
  - rewrite Hs. by left.
  - rewrite Hs. by left.
Qed.
(** The predicate drops the creation of a Node, ready or not. *)
Lemma new_node_wakes_none st c n : wakes st c (Change KNode None (Some n)) = [].
Proof. by destruct c. Qed.


(** ** A quiet pass waits only for what it watches *)
Definition ev_missing (e : event op) : option kind :=
  match e with
  | Ev o x => match o in op X return X → option kind with
              | Get k _ => λ r, match r with inl _ => Some k | inr _ => None end
              | _ => λ _, None
              end x
  end.
Definition ev_refused (e : event op) : bool :=
  match e with
  | Ev o x => match o in op X return X → bool with
              | StatusUpdate _ _ => λ r, match r with Some _ => true | None => false end
              | Update _ _ => λ r, match r with inl _ => true | inr _ => false end
              | _ => λ _, false
              end x
  end.
(** No error, no requeue, no write of its own refused. *)
Definition quiet_pass (tr : trace op) (r : reconcile) : Prop :=
  r.2 = None ∧ RequeueAfter r.1 = 0%Z ∧ Forall (λ e, ev_refused e = false) tr.
Definition waits_watched (c : controller) (tr : trace op) : Prop :=
  ∀ e k, e ∈ tr → ev_missing e = Some k → k ∈ watched c ++ relayed c.
Definition pool_released `{K8sMeta} (tr : trace op) : Prop :=
  ∃ e p, e ∈ tr ∧ ev_update KStoragePool e = Some p ∧ ContainsFinalizer (sp_meta p) poolFinalizer = false.

Section Quiet.
Context (c : controller).

Definition reads_watched (X : Type) (o : op X) : Prop :=
  match o with Get k _ => bool_decide (k ∈ watched c ++ relayed c) = true | _ => True end.
Lemma waits_issues {A} (p : io A) : issues reads_watched p → wp p (λ tr _, waits_watched c tr).
Proof.
  intros Hi. eapply wp_mono; [by apply issues_wp|]. intros tr ? Ht e k He Hev. rewrite Forall_forall in Ht.
  specialize (Ht e He). destruct e as [? []]; try done. cbn in *. destruct x; simplify_eq.
  by apply bool_decide_eq_true_1 in Ht.
Qed.
Lemma waits_app t1 t2 : waits_watched c t1 → waits_watched c t2 → waits_watched c (t1 ++ t2).
Proof. intros H1 H2 e k [He|He]%elem_of_app; eauto. Qed.
Lemma waits_nil : waits_watched c [].
Proof. by intros e k ?%elem_of_nil. Qed.
Lemma waits_cons e tr : ev_missing e = None → waits_watched c tr → waits_watched c (e :: tr).
Proof. intros He Hw e' k [->|He']%elem_of_cons Hev; [congruence|]. by eapply Hw. Qed.
Lemma waits_host tr : host_only tr → waits_watched c tr.
Proof. intros Ht e k He Hev. rewrite Forall_forall in Ht. specialize (Ht e He). by destruct e as [? []]. Qed.
Lemma waits_wp {A} (p : io A) (Q : A → trace op → Prop) :
  issues reads_watched p → wp p (λ tr a, waits_watched c tr ∨ Q a tr).
Proof. intros Hi. eapply wp_mono; [by apply waits_issues|]. auto. Qed.
End Quiet.

Lemma quiet_settle tr e : ¬ quiet_pass tr (requeue volumeSettleInterval, e).
Proof. by intros (_ & ? & _). Qed.
Lemma quiet_err tr e : ¬ quiet_pass tr (NoRequeue, Some e).
Proof. by intros (? & _). Qed.

(** Finds an event in an explicit trace. *)
Ltac find_event := repeat first [left; reflexivity | right].
(** Every failed read of an explicit trace is of a watched kind. *)
Ltac all_watched := intros ? ? ? ?; split_in; ev_simpl; find_event.

Section QuietProofs.
Context `{K8sMeta}.

Lemma released_here p w tr :
  (Ev (Update KStoragePool (sp_set_meta p (RemoveFinalizer (sp_meta p) poolFinalizer))) w : event op) ∈ tr → pool_released tr.
Proof.
  intros Hin. eexists _, _. split; [exact Hin|]. split; [exact (as_kind_refl KStoragePool _)|]. apply remove_fin_not.
Qed.

(** The pool controller reads a Node only to decide a deletion: it requeues,
    fails, or releases the finalizer. *)
Lemma quiet_pool rec req :
  wp (StoragePool_Reconcile rec req) (λ tr r, quiet_pass tr r → waits_watched CStoragePool tr ∨ pool_released tr).
Proof.
  unfold StoragePool_Reconcile. cbn [wp bind call]. intros [e|p]; [|destruct (deleting _) eqn:Hd].
  - cbn. left. all_watched.
  - unfold reconcileDeleting, DeletePool, nodeGoneOrUnready. wp_go; intros Hq; try (by apply quiet_settle in Hq);
      try (by destruct Hq as (? & _)); try (left; all_watched; fail); right; eapply released_here; find_event.
  - eapply wp_mono; [apply (waits_issues CStoragePool)|].
    + unfold reconcileLive, reconcileStatus, warn, registration, EnsurePool. issues_go; done.
    + intros tr r Hw _. left. by apply waits_cons.
Qed.

(** A claim that does not resolve either waits with a requeue or was read in full. *)
Lemma claim_waits c ns claim : KVolume ∈ watched c →
  wp (claimVolume ns claim) (λ tr r, waits_watched c tr ∨ ∃ msg, r = inl (ReasonWaitingForVolume, msg)).
Proof.
  intros Hv. unfold claimVolume. wp_go; eauto; left; intros ? ? ? ?; split_in; ev_simpl.
Qed.
(** The rest of a pass after the events [t0]. *)
Definition quiet_after (c : controller) (t0 : trace op) (p : io reconcile) : Prop :=
  wp p (λ tr r, quiet_pass (t0 ++ tr) r → waits_watched c (t0 ++ tr)).
Lemma quiet_bind {A} c t0 (q : io A) (f : A → io reconcile) (P : trace op → A → Prop) :
  wp q P → (∀ t1 a, P t1 a → quiet_after c (t0 ++ t1) (f a)) → quiet_after c t0 (bind q f).
Proof.
  intros Hq Hf. apply wp_bind_2. eapply wp_mono; [exact Hq|]. intros t1 a HP.
  eapply wp_mono; [by apply Hf|]. intros t2 r. cbn beta. by rewrite app_assoc.
Qed.
Lemma quiet_static c t0 p : waits_watched c t0 → issues (reads_watched c) p → quiet_after c t0 p.
Proof. intros H0 Hp. eapply wp_mono; [by apply waits_issues|]. intros tr r Hw _. by apply waits_app. Qed.

(** The end of a pass: one status write with the given result. *)
Lemma quiet_write c t0 res k (x : obj k) :
  waits_watched c t0 ∨ RequeueAfter res ≠ 0%Z →
  quiet_after c t0 (let! e := call (StatusUpdate k x) in
      match e with Some _ => if IsConflict e then Ret done_ok else Ret (done_err e) | None => Ret (res, None) end).
Proof.
  intros Hw. unfold quiet_after. cbn [wp bind call]. intros [e|]; [destruct (IsConflict _)|]; cbn [wp]; intros (He & Hq & Hf).
  - apply Forall_app in Hf as [_ Hf]. by inversion Hf.
  - done.
  - destruct Hw as [Hw|Hr]; [|done]. apply waits_app; [done|]. apply waits_cons; [done|apply waits_nil].
Qed.

Lemma quiet_share_live s t0 : waits_watched CShare t0 → quiet_after CShare t0 (share_live s).
Proof.
  intros H0. unfold share_live. eapply quiet_bind; [apply (claim_waits CShare); find_event|].
  intros t1 [[reason msg]|vol] Hc.
  - apply quiet_write. destruct Hc as [Hc|[m [= -> ->]]]; [left; by apply waits_app|by right].
  - destruct Hc as [Hc|[m [=]]].
    eapply quiet_bind; [apply (waits_issues CShare); unfold unreadyNodes; issues_go; done|].
    intros t2 r2 H2. assert (waits_watched CShare ((t0 ++ t1) ++ t2)) as H12 by (by repeat apply waits_app).
    destruct r2 as [e|avoid]; [by apply quiet_static|].
    destruct (ResolvePlacement _ _ _) as [[[node device] n] [e|]]; [apply quiet_write; auto|].
    destruct (sh_true _ _); apply quiet_write; auto.
Qed.
Lemma quiet_share req : quiet_after CShare [] (Share_Reconcile req).
Proof.
  unfold Share_Reconcile. eapply (quiet_bind _ _ _ _ (λ tr r, waits_watched CShare tr)).
  { apply waits_issues. issues_go; done. }
  intros t1 [e|s] H1; [by apply quiet_static|]. destruct (deleting (sh_meta s)).
  { apply quiet_static; [done|]. unfold Share_reconcileDelete, nodeGoneOrUnready. issues_go; done. }
  destruct (AddFinalizer _ _) as [m added]. eapply (quiet_bind _ _ _ _ (λ tr r, waits_watched CShare tr)).
  { apply waits_issues. issues_go; done. }
  intros t2 [e|s'] H2; [|apply quiet_share_live; by apply waits_app].
  apply quiet_static; [by apply waits_app|]. issues_go; done.
Qed.

Lemma volumes_wait ns luns :
  wp (lun_volumes ns luns) (λ tr r, waits_watched CTarget tr ∨ ∃ msg, r = inl (ReasonWaitingForVolume, msg)).
Proof.
  induction luns as [|l luns IH]; cbn [lun_volumes]; [left; apply waits_nil|].
  apply wp_bind_2. eapply wp_mono; [apply (claim_waits CTarget); find_event|]. intros t1 [[re msg]|v] Hc; cbn [wp].
  { rewrite app_nil_r. destruct Hc as [?|[m [= -> ->]]]; eauto. }
  destruct Hc as [Hc|[m [=]]]. apply wp_bind_2. eapply wp_mono; [exact IH|]. intros t2 r2 H2.
  destruct H2 as [H2|[m ->]]; [|cbn; eauto]. destruct r2 as [[re msg]|vs]; cbn [wp]; rewrite app_nil_r; left; by apply waits_app.
Qed.
Lemma quiet_target_live t t0 : waits_watched CTarget t0 → quiet_after CTarget t0 (target_live t).
Proof.
  intros H0. unfold target_live. eapply quiet_bind; [apply (waits_issues CTarget); unfold chapSecrets, chap_step|].
  { issues_go; done. }
  intros t1 [e|[vs problem]] H1; [apply quiet_static; [by apply waits_app|done]|].
  assert (waits_watched CTarget (t0 ++ t1)) as H01 by (by apply waits_app).
  eapply quiet_bind; [apply volumes_wait|]. intros t2 [[reason msg]|vols] Hc.
  - apply quiet_write. destruct Hc as [Hc|[m [= -> ->]]]; [left; by apply waits_app|by right].
  - destruct Hc as [Hc|[m [=]]].
    eapply quiet_bind; [apply (waits_issues CTarget); unfold unreadyNodes; issues_go; done|].
    intros t3 r3 H3. assert (waits_watched CTarget (((t0 ++ t1) ++ t2) ++ t3)) as H13 by (by repeat apply waits_app).
    destruct r3 as [e|avoid]; [by apply quiet_static|].
    destruct (place_luns _ _ _ _ _ _ _) as [e|[[node repl] luns]]; [apply quiet_write; auto|]. unfold target_serve.
    destruct (_ && _); [apply quiet_write; auto|]. destruct (negb _); [apply quiet_write; auto|].
    destruct (t_true _ _); apply quiet_write; auto.
Qed.
Lemma quiet_target req : quiet_after CTarget [] (Target_Reconcile req).
Proof.
  unfold Target_Reconcile. eapply (quiet_bind _ _ _ _ (λ tr r, waits_watched CTarget tr)).
  { apply waits_issues. issues_go; done. }
  intros t1 [e|t] H1; [by apply quiet_static|]. destruct (deleting (t_meta t)).
  { apply quiet_static; [done|]. unfold Target_reconcileDelete, nodeGoneOrUnready. issues_go; done. }
  destruct (AddFinalizer _ _) as [m added]. eapply (quiet_bind _ _ _ _ (λ tr r, waits_watched CTarget tr)).
  { apply waits_issues. issues_go; done. }
  intros t2 [e|t'] H2; [|apply quiet_target_live; by apply waits_app].
  apply quiet_static; [by apply waits_app|]. issues_go; done.
Qed.
End QuietProofs.

Section StaticReads.
Context `{K8sMeta} `{HostParse} `{MapRange} `{SliceSort} `{IpParse} `{SmbParse}.

Lemma host_reads c X (o : op X) : host_op X o → reads_watched c X o.
Proof. by destruct o. Qed.
Lemma issues_host c {A} (p : io A) : issues host_op p → issues (reads_watched c) p.
Proof. apply issues_impl, host_reads. Qed.
(** A program that only runs commands, as its traces show. *)
Lemma issues_commands (P : ∀ X, op X → Prop) {A} (p : io A) (allow : trace op → event op → Prop) (Q : trace op → A → Prop) :
  (∀ X o, host_op X o → P X o) →
  (∀ t e, allow t e → ∃ n args, cmd_of e = Some (n, args)) → wp p Q → (∀ tr a, Q tr a → lawful allow tr) → issues P p.
Proof.
  intros HP Ha Hwp HQ. apply (wp_issues _ some_answer). eapply wp_mono; [exact Hwp|]. intros tr a L%HQ.
  apply Forall_forall. intros e He. apply (lawful_in _ _ e L) in He as (t1 & t2 & _ & Hm).
  destruct (Ha _ _ Hm) as (n & args & Hc). destruct e as [? []]; try done; by apply HP.
Qed.
Lemma issues_cmds c {A} (p : io A) (allow : trace op → event op → Prop) (Q : trace op → A → Prop) :
  (∀ t e, allow t e → ∃ n args, cmd_of e = Some (n, args)) → wp p Q → (∀ tr a, Q tr a → lawful allow tr) →
  issues (reads_watched c) p.
Proof. apply issues_commands, host_reads. Qed.

Lemma reads_user req : issues (reads_watched CLocalUser) (LocalUser_Reconcile req).
Proof. unfold LocalUser_Reconcile, user_write. issues_go; done. Qed.
Lemma reads_binder req : issues (reads_watched CClaimBinder) (ClaimBinder_Reconcile req).
Proof.
  unfold ClaimBinder_Reconcile, wffcClass, pickNode, ready_step, nodeGoneOrUnready. issues_go; done.
Qed.
Lemma reads_tiers : issues (reads_watched CTierClasses) TierClasses_Reconcile.
Proof. unfold TierClasses_Reconcile, ensure_tier, ensureClone, prune_class. issues_go; done. Qed.
Lemma reads_pool_agent node smart req : issues (reads_watched APool) (PoolAgent_Reconcile node smart req).
Proof.
  unfold PoolAgent_Reconcile, agent_deleting, agent_live.
  assert (∀ p, issues (reads_watched APool) (Agent_EnsurePool p)) as He.
  { intros p. eapply issues_cmds; [apply may_live_cmd|apply wp_Agent_EnsurePool|intros ? ? L; exact L]. }
  assert (∀ p, issues (reads_watched APool) (TeardownPool p)) as Ht.
  { intros p. eapply issues_cmds; [apply may_wipe_cmd|apply wp_TeardownPool|intros ? ? [L _]; exact L]. }
  repeat (intros; cbn beta iota delta [issues call]; lazymatch goal with
    | |- True => exact I
    | |- _ ∧ _ => split; [done|]
    | |- issues _ (Agent_EnsurePool _) => apply He
    | |- issues _ (TeardownPool _) => apply Ht
    | |- issues _ (bind ?p _) => apply issues_bind
    | |- issues _ (match ?x with _ => _ end) => destruct x
    | |- issues _ (Ret _) => exact I
    end).
Qed.
Lemma reads_share_agent node root req : issues (reads_watched AShare) (ShareAgent_Reconcile node root req).
Proof.
  unfold ShareAgent_Reconcile, share_deleting, share_converge, drop_if_present, Present, drop_share, RemoveShare,
    EnsureShare, mount_fresh, prepare_fs, write_export, applySamba, ApplySamba, reexport, run_err.
  issues_go; done.
Qed.
Lemma reads_target_agent node root applied req : issues (reads_watched ATarget) (TargetAgent_Reconcile node root applied req).
Proof.
  unfold TargetAgent_Reconcile, target_deleting, target_converge, resolve_chap.
  repeat (intros; cbn beta iota delta [issues call]; lazymatch goal with
    | |- True => exact I
    | |- _ ∧ _ => split; [done|]
    | |- issues _ (EnsureTarget _ _ _) => apply issues_host, EnsureTarget_host
    | |- issues _ (TeardownTarget _ _ _) => apply issues_host, TeardownTarget_host
    | |- issues _ (RemoveTarget _ _) => apply issues_host, RemoveTarget_host
    | |- issues _ (bind ?p _) => apply issues_bind
    | |- issues _ (for_state _ _ _) => apply issues_for_state
    | |- issues _ (match ?x with _ => _ end) => destruct x
    | |- issues _ (Ret _) => exact I
    end).
Qed.
Lemma reads_user_agent applied req : issues (reads_watched AUser) (UserAgent_Reconcile applied req).
Proof.
  unfold UserAgent_Reconcile, wanted_login, RemoveSMBUser, EnsureSMBUser, endSMBSessions, smbSessionPIDs, shutdown_pid, run_err.
  issues_go; done.
Qed.

(** A pass of a reconciler over a request. *)
Inductive pass_of : controller → NamespacedName → trace op → reconcile → Prop :=
  | po_pool rec req tr r : runs (StoragePool_Reconcile rec req) tr r → pass_of CStoragePool req tr r
  | po_target req tr r : runs (Target_Reconcile req) tr r → pass_of CTarget req tr r
  | po_share req tr r : runs (Share_Reconcile req) tr r → pass_of CShare req tr r
  | po_user req tr r : runs (LocalUser_Reconcile req) tr r → pass_of CLocalUser req tr r
  | po_binder req tr r : runs (ClaimBinder_Reconcile req) tr r → pass_of CClaimBinder req tr r
  | po_tiers tr r : runs TierClasses_Reconcile tr r → pass_of CTierClasses tiers_request tr r
  | po_pool_agent node smart req tr r : runs (PoolAgent_Reconcile node smart req) tr r → pass_of APool req tr r
  | po_share_agent node root req tr r : runs (ShareAgent_Reconcile node root req) tr r → pass_of AShare req tr r
  | po_target_agent node root a a' req tr r : runs (TargetAgent_Reconcile node root a req) tr (r, a') → pass_of ATarget req tr r
  | po_user_agent a a' req tr r : runs (UserAgent_Reconcile a req) tr (r, a') → pass_of AUser req tr r.

Lemma static_waits {A} c (p : io A) tr r : issues (reads_watched c) p → runs p tr r → waits_watched c tr.
Proof. intros Hi Hr. exact (wp_runs _ _ _ _ (waits_issues c p Hi) Hr). Qed.
End StaticReads.

(** C21: No reconciler waits in silence.  A pass of any of the ten
    reconcilers that ends without error, without a requeue and without a
    refused write of its own has found every object it looked up, except
    objects of the kinds it is registered for, or Secrets where the operator
    relays them; the pool controller may also have found a node gone and
    released its finalizer. *)
Theorem quiet_pass_waits_watched `{K8sMeta} `{HostParse} `{MapRange} `{SliceSort} `{IpParse} `{SmbParse} c req tr r :
  pass_of c req tr r → quiet_pass tr r → waits_watched c tr ∨ c = CStoragePool ∧ pool_released tr.
Proof.
  intros Hp Hq. destruct Hp as [rec req tr r Hr|req tr r Hr|req tr r Hr|req tr r Hr|req tr r Hr|tr r Hr|node smart req tr r Hr
    |node root req tr r Hr|node root a a' req tr r Hr|a a' req tr r Hr].
  - destruct (wp_runs _ _ _ _ (quiet_pool rec req) Hr Hq); auto.
  - left. exact (wp_runs _ _ _ _ (quiet_target req) Hr Hq).
  - left. exact (wp_runs _ _ _ _ (quiet_share req) Hr Hq).
  - left. eapply static_waits; [apply reads_user|done].
  - left. eapply static_waits; [apply reads_binder|done].
  - left. eapply static_waits; [apply reads_tiers|done].
  - left. eapply static_waits; [apply reads_pool_agent|done].
  - left. eapply static_waits; [apply reads_share_agent|done].
  - left. eapply static_waits; [apply reads_target_agent|done].
  - left. eapply static_waits; [apply reads_user_agent|done].
Qed.

(** ** Witnesses *)
Section Witness.
#[local] Existing Instance RefMeta.meta.
#[local] Existing Instance map_range.
#[local] Existing Instance demo_parse.
#[local] Existing Instance insertion_slice_sort.
Definition home_share : Share :=
  {| sh_meta := RefMeta.with_fins (named "home" "docs") [teardownFinalizer]; sh_ClaimName := "docs"; sh_NFS := None; sh_SMB := None;
     sh_Conditions := []; sh_Node := ""; sh_Device := ""; sh_State := "" |}.
Definition home_claim : PersistentVolumeClaim :=
  {| pvc_meta := named "home" "docs"; pvc_VolumeName := "pvc-1"; pvc_StorageClassName := None |}.
Definition home_pv : PersistentVolume :=
  {| pv_meta := named "" "pvc-1"; pv_CSI := Some {| csi_Driver := Driver; csi_VolumeHandle := "pvc-1" |};
     pv_ClaimRef := Some (NN "home" "docs") |}.
Definition home_store : store := λ k,
  match k return gmap NamespacedName (obj k) with
  | KShare => {[NN "home" "docs" := home_share]}
  | KPVC => {[NN "home" "docs" := home_claim]}
  | KPV => {[NN "" "pvc-1" := home_pv]}
  | KVolume => {[NN "" "pvc-1" := demo_volume]}
  | _ => ∅
  end.
Lemma home_keyed : keyed home_store.
Proof.
  split; intros key x Hx; cbn [home_store] in Hx.
  - apply lookup_singleton_Some in Hx as [<- <-]. done.
  - by rewrite lookup_empty in Hx.
  - by rewrite lookup_empty in Hx.
  - apply lookup_singleton_Some in Hx as [<- <-]. done.
Qed.

(** A pass over the same store, its write accepted. *)
Definition quiet_run := run (store_env home_store) (Share_Reconcile (NN "home" "docs")) tt.
#[local] Instance demo_ips : IpParse := {| json_ifnames := λ _, inr []; json_routes := λ _, inr [] |}.
#[local] Instance demo_smbs : SmbParse := {| json_sessions := λ _, inr [] |}.
Lemma quiet_pass_waits_watched_witness :
  quiet_pass quiet_run.1.2 quiet_run.1.1 ∧
  (waits_watched CShare quiet_run.1.2 ∨ CShare = CStoragePool ∧ pool_released quiet_run.1.2).
Proof.
  assert (quiet_pass quiet_run.1.2 quiet_run.1.1) as Hq by (split_and!; [reflexivity..|vm_compute; repeat constructor]).
  split; [exact Hq|]. apply (quiet_pass_waits_watched CShare (NN "home" "docs") _ quiet_run.1.1); [|exact Hq].
  apply po_share. exact (run_runs (store_env home_store) (Share_Reconcile (NN "home" "docs")) tt).
Defined.
End Witness.

(** A node that is gone is not avoided.  Node [a] failed while serving and the
    share moved to [b]; the volume's last report of [a] is still there.  As
    long as the unready Node object exists [b] serves; deleting it passes the
    watch, and the next placement picks [a]. *)
Definition both_in_use : Volume :=
  {| v_meta := named "" "pvc-1"; v_SizeBytes := 1; v_Assignment := v_Assignment demo_volume;
     v_Resolve := None; v_Phase := ""; v_Conditions := []; v_Primary := "b";
     v_Replicas := [demo_replica "a" "/dev/drbd1" "UpToDate" true; demo_replica "b" "/dev/drbd1" "UpToDate" true] |}.
Definition node_of (name ready : string) : Node :=
  {| n_meta := named "" name; n_Conditions := [{| nc_Type := "Ready"; nc_Status := ready |}] |}.
Lemma deleted_node_serves :
  (ResolvePlacement both_in_use "b" (down_set [node_of "a" "Unknown"; node_of "b" "True"])).1.1.1 = "b" ∧
  node_passes (Some (node_of "a" "Unknown")) None = true ∧
  (ResolvePlacement both_in_use "b" (down_set [node_of "b" "True"])).1.1.1 = "a".
Proof. split_and!; vm_compute; reflexivity. Qed.
