(* ===== verification/Rotation.v ===== *)
(** * A rotated Secret reaches the host

    The agents do not watch Secrets.  The operator does: its pass over a
    Target publishes the versions it read in the status, the status change is
    an event for the agent, and the agent's key holds the versions it reads
    itself.  The theorem chains the three: from the operator's pass
    (target_controller.go), through the watch, to the agent's walk
    (target_reconciler.go). *)

From S2P Require Import Prelude GoStrings Prog ApiTypes Effects Demo Nodes TargetController Lvm Lio TargetAgent Wiring.

(** ** The operator publishes every usable Secret it read *)
Definition published (ref : string) (secret : Secret) : SecretVersion :=
  {| sv_Name := ref; sv_ResourceVersion := ResourceVersion (sec_meta secret) |}.
Definition publishes (ns : string) (versions : list SecretVersion) (tr : trace op) : Prop :=
  ∀ ref secret, saw KSecret (NN ns ref) (inr secret) tr → (ChapCredentials (sec_Data secret)).2 = true →
    published ref secret ∈ versions.

Lemma saw_app_inv k key r t1 t2 : saw k key r (t1 ++ t2) → saw k key r t1 ∨ saw k key r t2.
Proof. intros (e & [He|He]%elem_of_app & Hev); [left|right]; by exists e. Qed.
Lemma publishes_one ns vs tr key r : publishes ns vs tr →
  (∀ ref sec, key = NN ns ref → r = inr sec → (ChapCredentials (sec_Data sec)).2 = true → published ref sec ∈ vs) →
  publishes ns vs (tr ++ [Ev (Get KSecret key) r]).
Proof.
  intros H1 Hr ref sec [Hs|(e & He & Hev)]%saw_app_inv Hu; [eauto|]. apply list_elem_of_singleton in He as ->.
  destruct r as [e|s]; ev_simpl. injection Hev as -> ->. by apply Hr.
Qed.
Lemma publishes_mono ns vs vs' tr : publishes ns vs tr → vs ⊆ vs' → publishes ns vs' tr.
Proof. intros Hp Hs ref sec ? ?. apply Hs. eauto. Qed.

(** The rest of the pass reads no Secret and writes no other versions. *)
Definition keeps_versions (ns : string) (vs : list SecretVersion) (X : Type) (o : op X) : Prop :=
  match o with
  | Get k _ => k ≠ KSecret
  | StatusUpdate k x => match k return obj k → Prop with
                        | KTarget => λ t, t_ChapSecretVersions t = vs ∧ Namespace (t_meta t) = ns
                        | _ => λ _, True
                        end x
  | _ => True
  end.
(** A status written in the trace publishes what the trace read. *)
Definition relays (tr : trace op) : Prop :=
  ∀ e p, e ∈ tr → ev_status KTarget e = Some p → publishes (Namespace (t_meta p)) (t_ChapSecretVersions p) tr.

Lemma relays_none tr : Forall (λ e, ev_status KTarget e = None) tr → relays tr.
Proof. rewrite Forall_forall. intros Ht e p He Hev. by rewrite Ht in Hev. Qed.
Lemma relays_app ns vs t0 t1 : Forall (λ e, ev_status KTarget e = None) t0 → publishes ns vs t0 →
  Forall (ev_issues (keeps_versions ns vs)) t1 → relays (t0 ++ t1).
Proof.
  rewrite !Forall_forall. intros H0 Hp Hk e p [He|He]%elem_of_app Hev; [by rewrite H0 in Hev|].
  assert (t_ChapSecretVersions p = vs ∧ Namespace (t_meta p) = ns) as [-> ->].
  { apply Hk in He. destruct e as [? []]; try done. destruct k; by ev_simpl. }
  intros ref sec [Hs|(e' & He' & Hev')]%saw_app_inv Hu; [eauto|].
  apply Hk in He'. destruct e' as [? []]; try done. by destruct x, k; ev_simpl.
Qed.

Section Operator.
Context `{K8sMeta}.

Lemma chap_publishes t : wp (chapSecrets t) (λ tr r,
  match r with inr (vs, _) => publishes (Namespace (t_meta t)) vs tr | inl _ => True end).
Proof.
  unfold chapSecrets. apply wp_bind_2. set (ns := Namespace (t_meta t)).
  eapply wp_mono; [apply (wp_for_state_inv (λ _ st tr, publishes ns (cs_versions st) tr) (λ _ _, True) _ _ [] _ [])|].
  - by intros ref sec (e & ?%elem_of_nil & _).
  - intros done ini st tr _ HI. unfold chap_step. destruct (_ || _); [cbn; by rewrite app_nil_r|].
    cbn [wp bind call]. intros [e|sec]; cbn [wp bind].
    + destruct (IsNotFound _); cbn; [|exact I]. apply publishes_one; [exact HI|]. by intros ? ? _ [=].
    + destruct (ChapCredentials (sec_Data sec)) as [[u pw] usable] eqn:E. destruct usable; cbn.
      * apply publishes_one; [eapply publishes_mono; [exact HI|set_solver]|]. intros ref sec' [= ->] [= ->] _. set_solver.
      * apply publishes_one; [exact HI|]. intros ref sec' _ [= ->] Hu. by rewrite E in Hu.
  - intros tr [st|e] HI; cbn in *; [|done]. by rewrite app_nil_r.
Qed.



Definition no_secret (tr : trace op) : Prop := ∀ key r, ¬ saw KSecret key r tr.
Lemma publishes_prefix ns vs t0 t1 : no_secret t0 → publishes ns vs t1 → publishes ns vs (t0 ++ t1).
Proof. intros H0 Hp ref sec [Hs|Hs]%saw_app_inv Hu; [by destruct (H0 _ _ Hs)|eauto]. Qed.
Lemma reads_no_status tr : Forall reads_only tr → Forall (λ e, ev_status KTarget e = None) tr.
Proof. intros Hr. eapply Forall_impl; [exact Hr|]. by intros [? []]. Qed.

Lemma serve_keeps t ns vs problem node replicated luns : t_ChapSecretVersions t = vs → Namespace (t_meta t) = ns →
  issues (keeps_versions ns vs) (target_serve t problem node replicated luns).
Proof. intros <- <-. unfold target_serve, target_write. unfold target_placed. issues_go; by destruct (_ && _). Qed.
Lemma volumes_keep ns vs ns' luns : issues (keeps_versions ns vs) (lun_volumes ns' luns).
Proof. induction luns as [|lun luns IH]; cbn [lun_volumes]; unfold claimVolume; issues_go; done. Qed.
Lemma live_relays t t0 : Forall (λ e, ev_status KTarget e = None) t0 → no_secret t0 →
  wp (target_live t) (λ tr _, relays (t0 ++ tr)).
Proof.
  intros H0 Hn. unfold target_live. apply wp_bind_2.
  eapply wp_mono; [apply wp_and; [apply chap_publishes|apply wp_chapSecrets]|].
  intros t1 [e|[vs problem]] [Hp [Hr%reads_no_status _]]; cbn [wp].
  { rewrite app_nil_r. apply relays_none. by apply Forall_app. }
  eapply wp_mono; [apply (issues_wp (keeps_versions (Namespace (t_meta t)) vs))|].
  2: { intros t2 ? Hk. rewrite app_assoc. apply (relays_app (Namespace (t_meta t)) vs); [by apply Forall_app| |done].
       by apply publishes_prefix. }
  apply issues_bind; [apply volumes_keep|]. unfold unreadyNodes, target_write. issues_go; try done. by apply serve_keeps.
Qed.

Lemma wp_relays req : wp (Target_Reconcile req) (λ tr _, relays tr).
Proof.
  unfold Target_Reconcile. cbn [wp bind call]. intros [e|t].
  { apply relays_none. by repeat constructor. }
  destruct (deleting (t_meta t)).
  - eapply wp_mono; [apply (issues_wp (λ _ o, match o with StatusUpdate _ _ => False | _ => True end))|].
    + unfold Target_reconcileDelete, nodeGoneOrUnready. issues_go; done.
    + intros tr ? Ht. apply relays_none. constructor; [done|]. eapply Forall_impl; [exact Ht|]. by intros [? []].
  - destruct (AddFinalizer _ _) as [m []]; cbn [wp bind call].
    + intros [e|t']; cbn [wp bind]; [destruct (IsConflict _); apply relays_none; by repeat constructor|].
      apply (live_relays t' [_; _]); [by repeat constructor|]. intros key r (e & He & Hev). split_in; ev_simpl.
    + apply (live_relays t [_]); [by repeat constructor|]. intros key r (e & He & Hev). split_in; ev_simpl.
Qed.
End Operator.

(** ** The agent does not skip a version it has not walked *)
Definition key_versions (t : Target) (vs : list string) : list (string * string) :=
  zip (ini_ChapSecretRef <$> filter (λ i, names_chap i = true) (t_Initiators t)) vs.
(** What the agent remembers of this target is a walk over a spec of its
    generation, without this version of the Secret. *)
Definition remembers_without (applied : applied_map) (req : NamespacedName) (t : Target) (ref version : string) : Prop :=
  ∀ k, applied !! req = Some k → ∃ t0 vs0, k = target_key t0 vs0 ∧ key_clean t0 vs0 ∧
    (Generation (t_meta t0) = Generation (t_meta t) → t_Initiators t0 = t_Initiators t) ∧
    (ref, version) ∉ key_versions t0 vs0.

Lemma read_version t vs tr ref version : versions_read t (t_Initiators t) vs tr → ref ≠ "" →
  ref ∈ map ini_ChapSecretRef (t_Initiators t) →
  (∀ r, saw KSecret (NN (Namespace (t_meta t)) ref) r tr → version_of r = version) →
  (ref, version) ∈ key_versions t vs.
Proof.
  intros Hv Hne (ini & -> & Hini)%list_elem_of_fmap Hcur. unfold key_versions.
  assert (ini ∈ filter (λ i, names_chap i = true) (t_Initiators t)) as Hin.
  { apply list_elem_of_filter. split; [|done]. unfold names_chap. by rewrite bool_decide_eq_false_2. }
  apply list_elem_of_lookup in Hin as [i Hi]. destruct (Forall2_lookup_l _ _ _ i ini Hv Hi) as (v & Hv' & r & Hsaw & ->).
  rewrite (Hcur r Hsaw) in Hv'. apply (list_elem_of_lookup_2 _ i). by rewrite lookup_zip_with, list_lookup_fmap, Hi, Hv'.
Qed.
Lemma same_key t0 vs0 t vs : key_clean t0 vs0 → key_clean t vs → target_key t vs = target_key t0 vs0 →
  (Generation (t_meta t0) = Generation (t_meta t) → t_Initiators t0 = t_Initiators t) →
  key_versions t vs = key_versions t0 vs0.
Proof.
  intros H0 H1 Hk Hgen. assert (t_Initiators t0 = t_Initiators t) as Hi.
  { apply Hgen. apply (f_equal (λ s, Split s bar)) in Hk. rewrite !Split_target_key in Hk by done.
    injection Hk as Hg _. by apply (inj pretty). }
  unfold key_versions. rewrite Hi. by destruct (target_key_exact t t0 vs vs0 (eq_sym Hi) H1 H0 Hk) as (_ & _ & ->).
Qed.

(** The host was given the credential of this Secret for the initiator. *)
Definition auth_set (t : Target) (ini : Initiator) (secret : Secret) (tr : trace op) : Prop :=
  did "targetcli" [acls_path (t_IQN t) +:+ "/" +:+ ini_IQN ini; "set"; "auth";
    "userid=" +:+ (ChapCredentials (sec_Data secret)).1.1; "password=" +:+ (ChapCredentials (sec_Data secret)).1.2] tr.
(** The agent's pass converged at a key that holds the version of this Secret,
    and set its credential for every initiator whose IQN names no other Secret. *)
Definition walked_with `{IpParse} (applied' : applied_map) (req : NamespacedName) (t : Target) (tr : trace op)
    (ref : string) (secret : Secret) : Prop :=
  (∃ vs chap, applied' !! req = Some (target_key t vs) ∧ (ref, ResourceVersion (sec_meta secret)) ∈ key_versions t vs ∧
     chap_sound t chap tr ∧ chap_complete t chap tr ∧ target_converged t chap tr) ∧
  ∀ ini, ini ∈ t_Initiators t → ini_ChapSecretRef ini = ref →
    (∀ i, i ∈ t_Initiators t → ini_IQN i = ini_IQN ini → ini_ChapSecretRef i = ref) → auth_set t ini secret tr.

(** Of what the pass read, only this Secret can have given the credential. *)
Lemma converged_sets_auth t chap tr ref secret : ref ≠ "" → (ChapCredentials (sec_Data secret)).2 = true →
  (∀ r, saw KSecret (NN (Namespace (t_meta t)) ref) r tr → r = inr secret) →
  chap_sound t chap tr → chap_complete t chap tr → target_converged t chap tr →
  ∀ ini, ini ∈ t_Initiators t → ini_ChapSecretRef ini = ref →
    (∀ i, i ∈ t_Initiators t → ini_IQN i = ini_IQN ini → ini_ChapSecretRef i = ref) → auth_set t ini secret tr.
Proof.
  intros Hne Hu Hcur Hs Hc Ht ini Hin Href Honly.
  assert (names_chap ini = true) as Hn by (unfold names_chap; by rewrite Href, bool_decide_eq_false_2).
  destruct (chap !! ini_IQN ini) as [c|] eqn:Ec.
  - pose proof Ec as (i & sec & Hi & Hq & _ & Hsaw & Hcr)%Hs. rewrite (Honly i Hi Hq) in Hsaw.
    apply Hcur in Hsaw as [= ->]. unfold auth_set. rewrite Hcr. cbn.
    apply (tv_creds _ _ _ Ht); [|done]. exists ini. eauto.
  - destruct (Hc ini Hin Hn Ec) as (r & Hsaw & Hr). rewrite Href in Hsaw. apply Hcur in Hsaw as ->. congruence.
Qed.

Lemma quiet_write_accepted k (x : obj k) w reads host res :
  quiet_pass (reads ++ host ++ [Ev (StatusUpdate k x) w]) res → w = None.
Proof.
  intros (_ & _ & Hq). rewrite !Forall_app in Hq. destruct Hq as (_ & _ & Hw). inversion Hw as [|? ? Hr _]; subst.
  cbn in Hr. by destruct w.
Qed.

Lemma agent_walks `{K8sMeta} `{IpParse} NodeName Root applied req t tr res applied' ref secret :
  runs (TargetAgent_Reconcile NodeName Root applied req) (Ev (Get KTarget req) (inr t) :: tr) (res, applied') →
  deleting (t_meta t) = false → t_ActiveNode t = NodeName → t_StatusLUNs t ≠ [] →
  ref ≠ "" → ref ∈ map ini_ChapSecretRef (t_Initiators t) →
  (ChapCredentials (sec_Data secret)).2 = true →
  (∀ r, saw KSecret (NN (Namespace (t_meta t)) ref) r tr → r = inr secret) →
  (∀ vs, versions_read t (t_Initiators t) vs tr → key_clean t vs) →
  remembers_without applied req t ref (ResourceVersion (sec_meta secret)) → quiet_pass tr res →
  walked_with applied' req t tr ref secret.
Proof.
  intros Hr Hd Ha Hl Hne Hin Hu Hsec Hclean Hold Hq.
  assert (∀ r, saw KSecret (NN (Namespace (t_meta t)) ref) r tr → version_of r = ResourceVersion (sec_meta secret)) as Hcur
    by (by intros r ->%Hsec).
  destruct (wp_runs _ _ _ _ (wp_TargetAgent_Reconcile NodeName Root applied req) Hr) as (g & tr' & Heq & Hp).
  apply get_head_inj in Heq as [<- <-]. cbn in Hp. unfold target_agent_pass in Hp.
  rewrite Hd, (bool_decide_eq_true_2 _ Ha) in Hp.
  destruct Hp as [(-> & _ & Hs)|(reads & host & err & w & st & -> & [Hres Hm Hc Hh Hdone Hap Hout])].
  - destruct (Hs (proj1 Hq)) as [?|(vs & Hv & Hk)]; [done|]. destruct (Hold _ Hk) as (t0 & vs0 & Heq & Hc0 & Hgen & []).
    rewrite <- (same_key t0 vs0 t vs) by auto. by eapply read_version.
  - pose proof (quiet_write_accepted _ _ _ _ _ _ Hq) as ->.
    assert (err = None) as -> by (rewrite <- (Hout eq_refl); apply Hq). destruct (ri_key _ _ _ _ Hres) as (vs & Hv & Hkey).
    match type of Hq with quiet_pass (reads ++ ?rest) _ => set (tl := rest) in * end.
    pose proof (chap_sound_app _ _ _ tl (ri_sound _ _ _ _ Hres)) as Hcs.
    pose proof (chap_complete_app _ _ _ tl (ri_complete _ _ _ _ Hres)) as Hcc.
    assert (target_converged t (rs_chap st) (reads ++ tl)) as Hct.
    { eapply target_converged_sub; [|by apply Hdone]. subst tl. set_solver. }
    split; [|by eapply converged_sets_auth].
    exists vs, (rs_chap st). subst applied'. rewrite lookup_insert_eq, Hkey. split_and!; [done| |done|done|done].
    eapply read_version; [|done|done|exact Hcur]. by apply versions_read_app.
Qed.

(** C19: A rotated CHAP Secret reaches the host.  Take a pass of the operator
    that read a usable Secret and wrote the Target's status.  The status
    publishes the version it read; over an object that did not publish it the
    write is a change that wakes the agent; and a pass of the agent on the
    serving node that reads this Secret, and whose memory is of walks without
    its version, does not skip: if it ends quietly, the target was converged,
    the version is in the key it remembers, and the host was told the user and
    password of this Secret for every initiator that names it and whose IQN no
    initiator lists with another Secret. *)
Theorem rotation_reaches_host `{K8sMeta} `{IpParse} st req tr r e p ref secret :
  runs (Target_Reconcile req) tr r → e ∈ tr → ev_status KTarget e = Some p →
  saw KSecret (NN (Namespace (t_meta p)) ref) (inr secret) tr → (ChapCredentials (sec_Data secret)).2 = true →
  published ref secret ∈ t_ChapSecretVersions p ∧
  (∀ old, published ref secret ∉ t_ChapSecretVersions old →
     old ≠ p ∧ key_of (t_meta p) ∈ wakes st ATarget (Change KTarget (Some old) (Some p))) ∧
  (∀ NodeName Root applied t tr' res applied',
     runs (TargetAgent_Reconcile NodeName Root applied req) (Ev (Get KTarget req) (inr t) :: tr') (res, applied') →
     deleting (t_meta t) = false → t_ActiveNode t = NodeName → t_StatusLUNs t ≠ [] →
     ref ≠ "" → ref ∈ map ini_ChapSecretRef (t_Initiators t) →
     (∀ x, saw KSecret (NN (Namespace (t_meta t)) ref) x tr' → x = inr secret) →
     (∀ vs, versions_read t (t_Initiators t) vs tr' → key_clean t vs) →
     remembers_without applied req t ref (ResourceVersion (sec_meta secret)) → quiet_pass tr' res →
     walked_with applied' req t tr' ref secret).
Proof.
  intros Hr He Hev Hsaw Hu. pose proof (wp_runs _ _ _ _ (wp_relays req) Hr e p He Hev ref secret Hsaw Hu) as Hpub.
  split_and!; [done| |].
  - intros old Hold. split; [by intros ->|]. by left.
  - intros. by eapply agent_walks.
Qed.

(** ** Witness: the operator publishes version 1, the agent remembers version 0 *)
Section Witness.
#[local] Existing Instance RefMeta.meta.
#[local] Existing Instance TargetAgent.demo_ip.
Definition rotated_req : NamespacedName := NN "" "t".
Definition operator_run := run (demo_target_api demo_exported) (Target_Reconcile rotated_req) tt.
Definition remembered_key : applied_map := {[rotated_req := target_key demo_target_up ["0"]]}.
Definition agent_run := run (demo_target_api demo_target_up) (TargetAgent_Reconcile "b" "" remembered_key rotated_req) tt.

Lemma agent_read x : saw KSecret (NN "" "chap") x (tail agent_run.1.2) → x = inr demo_secret.
Proof.
  intros (e & He & Hev). revert e He x Hev. refine (proj1 (Forall_forall _ _) _). vm_compute.
  repeat (constructor; [intros x Hx; first [discriminate Hx | injection Hx as <-; reflexivity]|]). constructor.
Qed.
Lemma agent_clean vs : versions_read demo_target_up (t_Initiators demo_target_up) vs (tail agent_run.1.2) →
  key_clean demo_target_up vs.
Proof.
  unfold versions_read. cbn. intros Hv. inversion Hv as [|? v ? ? (x & Hx & ->) Hnil]; subst. inversion Hnil; subst.
  rewrite (agent_read x Hx). split; by repeat constructor.
Qed.
Lemma rotation_reaches_host_witness :
  published "chap" demo_secret ∈ t_ChapSecretVersions demo_target_up ∧
  walked_with agent_run.1.1.2 rotated_req demo_target_up (tail agent_run.1.2) "chap" demo_secret.
Proof.
  destruct (rotation_reaches_host home_store rotated_req operator_run.1.2 operator_run.1.1
    (Ev (StatusUpdate KTarget demo_target_up) None) demo_target_up "chap" demo_secret) as (Hp & _ & Ha).
  - exact (run_runs (demo_target_api demo_exported) (Target_Reconcile rotated_req) tt).
  - apply list_elem_of_In. vm_compute. tauto.
  - exact (as_kind_refl KTarget _).
  - exists (Ev (Get KSecret (NN "" "chap")) (inr demo_secret)). split; [apply list_elem_of_In; vm_compute; tauto|].
    cbn. by rewrite (as_kind_refl KSecret).
  - reflexivity.
  - split; [exact Hp|]. apply (Ha "b" "" remembered_key demo_target_up (tail agent_run.1.2) agent_run.1.1.1 agent_run.1.1.2);
      [exact (run_runs (demo_target_api demo_target_up) (TargetAgent_Reconcile "b" "" remembered_key rotated_req) tt)
      |reflexivity|reflexivity|done|done|by left|exact agent_read|exact agent_clean| |].
    + intros k Hk. unfold remembered_key in Hk. rewrite lookup_singleton_eq in Hk. injection Hk as <-.
      exists demo_target_up, ["0"]. split_and!; [done|split; by repeat constructor|done|].
      refine (bool_decide_eq_true_1 _ _). vm_compute. reflexivity.
    + split_and!; [reflexivity..|]. vm_compute. repeat constructor.
Defined.
End Witness.
