(* ===== verification/Access.v ===== *)
(** * What the processes may do

    The operator's rights are the rbac markers of its controllers, from which
    config/rbac/role.yaml is generated; the agents' and the UI server's are in
    image/manifests/stornas.  The API server refuses a request no rule grants,
    and a client refuses a type its scheme does not know.  [api_use] lists what
    each reconciler does to which kind; the theorem is that this is all its
    passes do, that the process's scheme knows the kinds and that its role
    grants every request behind them, the informers' list and watch included.

    controller-runtime reads through an informer cache: a Get or List of a
    cached kind is a cluster-wide list and watch.  The agents' Secrets reader
    ([mgr.GetAPIReader()]) is not cached: a plain get in the object's
    namespace, which their Role grants in the system namespace only. *)

From S2P Require Import Prelude GoStrings Prog Contract ApiTypes Effects Demo Placement Registrar Nodes StoragePoolController ShareController TargetController ClaimBinder TierClassController LocalUserController Lvm Mdraid Replace Smart PoolAgent PoolTeardown PoolLive PoolAgentSafety Lio TargetAgent UserAgent ShareAgent Inventory Wiring.

(** ** Rules *)
Record rule := { r_groups : list string; r_resources : list string; r_verbs : list string }.
(** Bound for the cluster, or in one namespace. *)
Record grant := { gr_namespace : option string; gr_rules : list rule }.
Record api_request := { q_verb : string; q_group : string; q_resource : string; q_namespace : string }.
Definition has (x : string) (l : list string) : bool := existsb (String.eqb x) l.
Definition rule_allows (q : api_request) (r : rule) : bool :=
  has (q_group q) (r_groups r) && has (q_resource q) (r_resources r) && has (q_verb q) (r_verbs r).
Definition granted (role : list grant) (q : api_request) : bool :=
  existsb (λ g, match gr_namespace g with None => true | Some ns => String.eqb (q_namespace q) ns end &&
                existsb (rule_allows q) (gr_rules g)) role.

Definition stornas : string := "storage.stornas.io".
Definition rules_of (groups resources verbs : list string) : rule :=
  {| r_groups := groups; r_resources := resources; r_verbs := verbs |}.
Definition read_verbs : list string := ["get"; "list"; "watch"].
Definition all_verbs : list string := ["get"; "list"; "watch"; "create"; "update"; "patch"; "delete"].
Definition status_verbs : list string := ["get"; "update"; "patch"].
(** The three markers every reconciler of an own type carries. *)
Definition own_type (resource : string) : list rule :=
  [rules_of [stornas] [resource] all_verbs; rules_of [stornas] [resource +:+ "/status"] status_verbs;
   rules_of [stornas] [resource +:+ "/finalizers"] ["update"]].

Definition pool_markers : list rule :=
  own_type "storagepools" ++
  [rules_of [""] ["events"] ["create"; "patch"]; rules_of ["events.k8s.io"] ["events"] ["create"; "patch"];
   rules_of ["r-drbd.io"] ["pools"] ["get"; "list"; "watch"; "create"; "delete"]].
Definition share_markers : list rule :=
  own_type "shares" ++
  [rules_of [""] ["persistentvolumeclaims"; "persistentvolumes"] read_verbs; rules_of [""] ["nodes"] read_verbs;
   rules_of ["r-drbd.io"] ["volumes"] read_verbs].
Definition target_markers : list rule :=
  own_type "targets" ++
  [rules_of [""] ["nodes"] read_verbs; rules_of [""] ["secrets"] read_verbs; rules_of ["r-drbd.io"] ["volumes"] read_verbs].
Definition user_markers : list rule := own_type "localusers" ++ [rules_of [""] ["secrets"] read_verbs].
Definition binder_markers : list rule :=
  [rules_of [""] ["persistentvolumeclaims"] ["get"; "list"; "watch"; "patch"];
   rules_of ["storage.k8s.io"] ["storageclasses"] read_verbs].
Definition tier_markers : list rule :=
  [rules_of ["storage.k8s.io"] ["storageclasses"] ["get"; "list"; "watch"; "create"; "delete"]].
Definition operator_rules : list rule :=
  pool_markers ++ share_markers ++ target_markers ++ user_markers ++ binder_markers ++ tier_markers.
Definition operator_role : list grant := [{| gr_namespace := None; gr_rules := operator_rules |}].

Definition system_namespace : string := "stornas-system".
(** image/manifests/stornas/agent.yaml *)
Definition agent_role : list grant :=
  [{| gr_namespace := None; gr_rules :=
       [rules_of [stornas] ["storagepools"; "shares"; "targets"; "localusers"] read_verbs;
        rules_of [stornas] ["nodeinventories"] ["get"; "list"; "watch"; "create"];
        rules_of [stornas] ["storagepools/status"; "shares/status"; "targets/status"; "nodeinventories/status"] status_verbs] |};
   {| gr_namespace := Some system_namespace; gr_rules := [rules_of [""] ["secrets"] ["get"]] |}].

(** ** The deployed operator

    The image ships its own copy of the generated role, in
    image/manifests/stornas/operator.yaml, and a Role for leader election. *)
Definition own_types : list string := ["storagepools"; "targets"; "shares"; "localusers"].
Definition manifest_rules : list rule :=
       [rules_of [stornas] own_types all_verbs;
        rules_of [stornas] ((λ r, r +:+ "/status") <$> own_types) status_verbs;
        rules_of [stornas] ((λ r, r +:+ "/finalizers") <$> own_types) ["update"];
        rules_of [""] ["events"] ["create"; "patch"];
        rules_of ["events.k8s.io"] ["events"] ["create"; "patch"];
        rules_of [""] ["persistentvolumes"] read_verbs;
        rules_of [""] ["persistentvolumeclaims"] ["get"; "list"; "watch"; "patch"];
        rules_of ["storage.k8s.io"] ["storageclasses"] ["get"; "list"; "watch"; "create"; "delete"];
        rules_of ["r-drbd.io"] ["pools"] ["get"; "list"; "watch"; "create"; "delete"];
        rules_of ["r-drbd.io"] ["volumes"] read_verbs;
        rules_of [""] ["nodes"] read_verbs;
        rules_of [""] ["secrets"] read_verbs].
Definition operator_manifest : list grant :=
  [{| gr_namespace := None; gr_rules := manifest_rules |};
   {| gr_namespace := Some system_namespace; gr_rules := [rules_of ["coordination.k8s.io"] ["leases"] all_verbs] |}].

Definition triples (r : rule) : list (string * string * string) :=
  g ← r_groups r; n ← r_resources r; v ← r_verbs r; [(g, n, v)].
Lemma has_spec x l : has x l = true ↔ x ∈ l.
Proof.
  unfold has. rewrite existsb_exists. split.
  - intros (y & Hy & ->%String.eqb_eq). by apply list_elem_of_In.
  - intros Hx. exists x. split; [by apply list_elem_of_In|apply String.eqb_refl].
Qed.
Lemma rule_triples q r : rule_allows q r = true ↔ (q_group q, q_resource q, q_verb q) ∈ triples r.
Proof.
  unfold rule_allows, triples. rewrite !andb_true_iff, !has_spec, list_elem_of_bind. split.
  - intros [[Hg Hn] Hv]. exists (q_group q). split; [|done]. apply list_elem_of_bind. exists (q_resource q). split; [|done].
    apply list_elem_of_bind. exists (q_verb q). split; [by left|done].
  - intros (g & (n & (v & [= -> -> ->]%list_elem_of_singleton & ?)%list_elem_of_bind & ?)%list_elem_of_bind & ?). done.
Qed.
Lemma cluster_granted rs l q :
  granted ({| gr_namespace := None; gr_rules := rs |} :: l) q = existsb (rule_allows q) rs || granted l q.
Proof. done. Qed.
(** Every right of the markers is in the manifest. *)
Lemma manifest_grants_markers q : granted operator_role q = true → granted operator_manifest q = true.
Proof.
  unfold operator_role, operator_manifest. rewrite !cluster_granted, orb_false_r, existsb_exists.
  intros (r & Hr%list_elem_of_In & Hq%rule_triples). apply orb_true_iff. left. apply existsb_exists.
  assert (Forall (λ r, Forall (λ t, Exists (λ r', t ∈ triples r') manifest_rules) (triples r)) operator_rules) as Hall.
  { apply (bool_decide_unpack _). vm_compute. exact I. }
  rewrite Forall_forall in Hall. specialize (Hall r Hr). rewrite Forall_forall in Hall.
  destruct (proj1 (Exists_exists _ _) (Hall _ Hq)) as (r' & Hr' & Ht).
  exists r'. split; [by apply list_elem_of_In|]. by apply rule_triples.
Qed.

(** ** Types a client knows *)
Inductive scheme_group := ClientGo | Storage | Rdrbd.
#[global] Instance scheme_group_eq_dec : EqDecision scheme_group.
Proof. solve_decision. Defined.
Definition group_of (k : kind) : scheme_group :=
  match k with
  | KStoragePool | KShare | KTarget | KLocalUser | KNodeInventory => Storage
  | KPool | KVolume => Rdrbd
  | KNode | KSecret | KPVC | KPV | KStorageClass => ClientGo
  end.
Inductive process := Operator | Agent.
Definition scheme (p : process) : list scheme_group :=
  match p with Operator => [ClientGo; Storage; Rdrbd] | Agent => [ClientGo; Storage] end.
Definition role (p : process) : list grant := match p with Operator => operator_role | Agent => agent_role end.
Definition process_of (c : controller) : process := if bool_decide (c ∈ operator_controllers) then Operator else Agent.

(** ** Requests behind an operation *)
Definition resource_of (k : kind) : string * string :=
  match k with
  | KStoragePool => (stornas, "storagepools") | KShare => (stornas, "shares") | KTarget => (stornas, "targets")
  | KLocalUser => (stornas, "localusers") | KNodeInventory => (stornas, "nodeinventories")
  | KPool => ("r-drbd.io", "pools") | KVolume => ("r-drbd.io", "volumes")
  | KNode => ("", "nodes") | KSecret => ("", "secrets") | KPVC => ("", "persistentvolumeclaims") | KPV => ("", "persistentvolumes")
  | KStorageClass => ("storage.k8s.io", "storageclasses")
  end.
Definition meta_of (k : kind) : obj k → ObjectMeta :=
  match k with
  | KStoragePool => sp_meta | KPool => p_meta | KVolume => v_meta | KNode => n_meta | KShare => sh_meta | KTarget => t_meta
  | KLocalUser => lu_meta | KSecret => sec_meta | KPVC => pvc_meta | KPV => pv_meta | KStorageClass => sc_meta
  | KNodeInventory => inv_meta
  end.
Inductive access := AGet | AList | ACreate | AUpdate | AStatus | APatch | ADelete | AEvent.
#[global] Instance access_eq_dec : EqDecision access.
Proof. solve_decision. Defined.
(** The access an operation is, the kind and the namespace; an event is
    recorded for a StoragePool, in the default namespace. *)
Definition op_access {X} (o : op X) : option (access * kind * string) :=
  match o with
  | Get k key => Some (AGet, k, nn_Namespace key)
  | List k ns => Some (AList, k, default "" ns)
  | ListLabelled k _ => Some (AList, k, "")
  | Create k x => Some (ACreate, k, Namespace (meta_of k x))
  | Update k x => Some (AUpdate, k, Namespace (meta_of k x))
  | StatusUpdate k x => Some (AStatus, k, Namespace (meta_of k x))
  | PatchObj k x _ => Some (APatch, k, Namespace (meta_of k x))
  | Delete k x => Some (ADelete, k, Namespace (meta_of k x))
  | Eventf _ _ _ _ => Some (AEvent, KStoragePool, "default")
  | _ => None
  end.
Definition cached (p : process) (k : kind) : bool := match p, k with Agent, KSecret => false | _, _ => true end.
Definition ask (verb : string) (k : kind) (sub ns : string) : api_request :=
  {| q_verb := verb; q_group := (resource_of k).1; q_resource := (resource_of k).2 +:+ sub; q_namespace := ns |}.
Definition informer (k : kind) : list api_request := [ask "list" k "" ""; ask "watch" k "" ""].
Definition requests (p : process) (a : access) (k : kind) (ns : string) : list api_request :=
  match a with
  | AGet => if cached p k then informer k else [ask "get" k "" ns]
  | AList => if cached p k then informer k else [ask "list" k "" ns]
  | ACreate => [ask "create" k "" ns]
  | AUpdate => [ask "update" k "" ns]
  | AStatus => [ask "update" k "/status" ns]
  | APatch => [ask "patch" k "" ns]
  | ADelete => [ask "delete" k "" ns]
  | AEvent => [{| q_verb := "create"; q_group := "events.k8s.io"; q_resource := "events"; q_namespace := ns |};
               {| q_verb := "patch"; q_group := "events.k8s.io"; q_resource := "events"; q_namespace := ns |}]
  end.

(** ** What each reconciler does *)
Definition uses (l : list (access * kind)) (X : Type) (o : op X) : Prop :=
  match op_access o with Some (a, k, _) => bool_decide ((a, k) ∈ l) = true | None => True end.
Definition api_use (c : controller) : list (access * kind) :=
  match c with
  | CStoragePool => [(AGet, KStoragePool); (AUpdate, KStoragePool); (AStatus, KStoragePool); (AGet, KPool); (ACreate, KPool);
                     (ADelete, KPool); (AGet, KNode); (AEvent, KStoragePool)]
  | CShare => [(AGet, KShare); (AUpdate, KShare); (AStatus, KShare); (AGet, KPVC); (AGet, KPV); (AGet, KVolume);
               (AGet, KNode); (AList, KNode)]
  | CTarget => [(AGet, KTarget); (AUpdate, KTarget); (AStatus, KTarget); (AGet, KSecret); (AGet, KPVC); (AGet, KPV);
                (AGet, KVolume); (AGet, KNode); (AList, KNode)]
  | CLocalUser => [(AGet, KLocalUser); (AStatus, KLocalUser); (AGet, KSecret)]
  | CClaimBinder => [(AGet, KPVC); (APatch, KPVC); (AGet, KStorageClass); (AList, KStoragePool); (AGet, KNode)]
  | CTierClasses => [(AList, KStoragePool); (AGet, KStorageClass); (AList, KStorageClass); (ACreate, KStorageClass);
                     (ADelete, KStorageClass)]
  | APool => [(AGet, KStoragePool); (AStatus, KStoragePool)]
  | AShare => [(AGet, KShare); (AList, KShare); (AStatus, KShare)]
  | ATarget => [(AGet, KTarget); (AGet, KSecret); (AStatus, KTarget)]
  | AUser => [(AGet, KLocalUser); (AGet, KSecret)]
  end.
Definition inventory_use : list (access * kind) :=
  [(AGet, KNodeInventory); (ACreate, KNodeInventory); (AStatus, KNodeInventory)].

Section Uses.
Context `{K8sMeta} `{HostParse} `{MapRange} `{SliceSort} `{IpParse} `{SmbParse}.

Lemma host_uses l X (o : op X) : host_op X o → uses l X o.
Proof. by destruct o. Qed.
Lemma issues_uses l {A} (p : io A) : issues host_op p → issues (uses l) p.
Proof. apply issues_impl, host_uses. Qed.
(** [issues_go] that stops at programs known to stay on the host. *)
Create HintDb host.
Ltac uses_go :=
  repeat (intros; cbn beta iota delta [issues call]; lazymatch goal with
    | |- True => exact I
    | |- _ ∧ _ => split; [done|]
    | |- issues _ (Ret _) => exact I
    | |- issues _ (bind ?p _) => apply issues_bind
    | |- issues _ (for_state _ _ _) => apply issues_for_state
    | |- issues _ (match ?x with _ => _ end) => destruct x
    | |- issues _ _ => apply issues_uses; solve [auto with host]
    end).

Lemma use_pool rec req : issues (uses (api_use CStoragePool)) (StoragePool_Reconcile rec req).
Proof.
  unfold StoragePool_Reconcile, reconcileDeleting, reconcileLive, reconcileStatus, warn, registration, nodeGoneOrUnready,
    EnsurePool, DeletePool.
  issues_go; done.
Qed.
Lemma use_share req : issues (uses (api_use CShare)) (Share_Reconcile req).
Proof.
  unfold Share_Reconcile, share_live, share_write, Share_reconcileDelete, nodeGoneOrUnready, unreadyNodes, claimVolume.
  issues_go; done.
Qed.
Lemma use_volumes ns luns : issues (uses (api_use CTarget)) (lun_volumes ns luns).
Proof. induction luns as [|lun luns IH]; cbn [lun_volumes]; unfold claimVolume; issues_go; done. Qed.
Lemma use_target req : issues (uses (api_use CTarget)) (Target_Reconcile req).
Proof.
  unfold Target_Reconcile, target_live, target_serve, target_write, Target_reconcileDelete, nodeGoneOrUnready, unreadyNodes,
    chapSecrets, chap_step.
  issues_go; try done. apply use_volumes.
Qed.
Lemma use_user req : issues (uses (api_use CLocalUser)) (LocalUser_Reconcile req).
Proof. unfold LocalUser_Reconcile, user_write. issues_go; done. Qed.
Lemma use_binder req : issues (uses (api_use CClaimBinder)) (ClaimBinder_Reconcile req).
Proof. unfold ClaimBinder_Reconcile, wffcClass, pickNode, ready_step, nodeGoneOrUnready. issues_go; done. Qed.
Lemma use_tiers : issues (uses (api_use CTierClasses)) TierClasses_Reconcile.
Proof. unfold TierClasses_Reconcile, ensure_tier, ensureClone, prune_class. issues_go; done. Qed.

Lemma host_live p : issues host_op (Agent_EnsurePool p).
Proof. eapply issues_commands; [done|apply may_live_cmd|apply wp_Agent_EnsurePool|intros ? ? L; exact L]. Qed.
Lemma host_teardown p : issues host_op (TeardownPool p).
Proof. eapply issues_commands; [done|apply may_wipe_cmd|apply wp_TeardownPool|intros ? ? [L _]; exact L]. Qed.
#[local] Hint Resolve host_live host_teardown EnsureTarget_host TeardownTarget_host RemoveTarget_host : host.
#[local] Hint Resolve RemoveSMBUser_host EnsureSMBUser_host : host.
Lemma use_pool_agent node smart req : issues (uses (api_use APool)) (PoolAgent_Reconcile node smart req).
Proof. unfold PoolAgent_Reconcile, agent_deleting, agent_live. uses_go. Qed.
Lemma use_share_agent node root req : issues (uses (api_use AShare)) (ShareAgent_Reconcile node root req).
Proof.
  unfold ShareAgent_Reconcile, share_deleting, share_converge, drop_if_present, Present, drop_share, RemoveShare,
    EnsureShare, mount_fresh, prepare_fs, write_export, applySamba, ApplySamba, reexport, run_err.
  issues_go; done.
Qed.
Lemma use_target_agent node root applied req : issues (uses (api_use ATarget)) (TargetAgent_Reconcile node root applied req).
Proof. unfold TargetAgent_Reconcile, target_deleting, target_converge, resolve_chap. uses_go. Qed.
Lemma use_user_agent applied req : issues (uses (api_use AUser)) (UserAgent_Reconcile applied req).
Proof. unfold UserAgent_Reconcile, wanted_login. uses_go. Qed.
End Uses.

Section InventoryUses.
Context `{K8sMeta} `{SmartParse} `{LsblkParse}.
Lemma use_disks sweep claimed aliases ds : ∀ store, issues (uses inventory_use) (collect_disks sweep claimed aliases store ds).
Proof.
  induction ds as [|d ds IH]; intros store; cbn [collect_disks]; [done|]. unfold collect_disk, CheckSmart. issues_go; done.
Qed.
Lemma use_inventory n : ∀ p, issues (uses inventory_use) (inventory_rounds n p).
Proof.
  induction n as [|n IH]; intros p; cbn [inventory_rounds]; [done|].
  unfold inventory_publish, inventory_write, ensure_inventory, Collect, byIDAliases, MD_Members.
  issues_go; try done. apply use_disks.
Qed.
End InventoryUses.

(** ** Secrets the agents read: in the namespace of the object *)
Section SecretReads.
Context `{K8sMeta} `{SliceSort} `{IpParse} `{SmbParse} (ns : string).
Definition secret_in (X : Type) (o : op X) : Prop :=
  match o with Get k key => k = KSecret → nn_Namespace key = ns | _ => True end.
(** The server files an object under its namespace. *)
Definition filed (X : Type) (o : op X) : X → Prop :=
  match o with Get k key => λ r, match r with inr x => Namespace (meta_of k x) = nn_Namespace key | inl _ => True end | _ => λ _, True end.
Abbreviation ok p := (good secret_in filed p (λ _, True)).
Lemma host_secret {A} (p : io A) : issues host_op p → ok p.
Proof. intros Hp. apply good_issues. eapply issues_impl; [|exact Hp]. by intros X []. Qed.
Lemma ok_bind {A B} (p : io A) (f : A → io B) : ok p → (∀ a, ok (f a)) → ok (bind p f).
Proof. intros Hp Hf. eapply good_bind; [exact Hp|]. auto. Qed.

Lemma secret_target node root applied req : nn_Namespace req = ns → ok (TargetAgent_Reconcile node root applied req).
Proof.
  intros Hreq. unfold TargetAgent_Reconcile, target_deleting, target_converge. cbn [bind call good]. split; [done|].
  intros [e|t] Ht; cbn in Ht.
  { destruct (IsNotFound _); [|done]. apply ok_bind; [apply host_secret, RemoveTarget_host|done]. }
  destruct (deleting _); [|destruct (negb _); [|destruct (bool_decide _); [done|]]].
  - apply ok_bind; [apply host_secret, TeardownTarget_host|]. intros _. by destruct (_ && _).
  - apply ok_bind; [apply host_secret, TeardownTarget_host|done].
  - apply ok_bind.
    { apply good_issues, issues_for_state. intros st ini. unfold resolve_chap. rewrite Ht, Hreq. issues_go; done. }
    intros [st|e]; [|done]. destruct (bool_decide _); [done|].
    apply ok_bind; [apply host_secret, EnsureTarget_host|]. intros err. cbn. split; [done|]. by intros [w|] _; [|destruct err].
Qed.
Lemma secret_user applied req : nn_Namespace req = ns → ok (UserAgent_Reconcile applied req).
Proof.
  intros Hreq. unfold UserAgent_Reconcile. cbn [bind call good]. split; [done|]. intros [e|u] Hu; cbn in Hu.
  { destruct (IsNotFound _); [|done]. apply ok_bind; [apply host_secret, RemoveSMBUser_host|done]. }
  apply ok_bind; [apply good_issues; unfold wanted_login; rewrite Hu, Hreq; issues_go; done|].
  intros [e|[key pw]]; [done|]. destruct (bool_decide _); [done|].
  apply ok_bind; [|by intros []]. destruct (bool_decide _); apply host_secret; [apply RemoveSMBUser_host|apply EnsureSMBUser_host].
Qed.
End SecretReads.

(** ** Every request is granted *)
Definition authorized (p : process) (X : Type) (o : op X) : Prop :=
  match op_access o with
  | Some (a, k, ns) => group_of k ∈ scheme p ∧ Forall (λ q, granted (role p) q = true) (requests p a k ns)
  | None => True
  end.
Lemma use_granted c a k ns : (a, k) ∈ api_use c → (cached (process_of c) k = false → ns = system_namespace) →
  group_of k ∈ scheme (process_of c) ∧ Forall (λ q, granted (role (process_of c)) q = true) (requests (process_of c) a k ns).
Proof.
  intros Hin Hns. destruct c; cbn in Hin; repeat (apply elem_of_cons in Hin as [[= -> ->]|Hin]); try by apply elem_of_nil in Hin.
  all: try (rewrite (Hns eq_refl)); clear Hns;
    (split; [refine (bool_decide_eq_true_1 _ _); vm_compute; reflexivity|vm_compute; repeat constructor]).
Qed.
Lemma inventory_granted a k ns : (a, k) ∈ inventory_use →
  group_of k ∈ scheme Agent ∧ Forall (λ q, granted (role Agent) q = true) (requests Agent a k ns).
Proof.
  intros Hin. cbn in Hin. repeat (apply elem_of_cons in Hin as [[= -> ->]|Hin]); try by apply elem_of_nil in Hin.
  all: split; [refine (bool_decide_eq_true_1 _ _); vm_compute; reflexivity|vm_compute; repeat constructor].
Qed.

Section Authorized.
Context `{K8sMeta} `{HostParse} `{MapRange} `{SliceSort} `{IpParse} `{SmbParse} `{SmartParse} `{LsblkParse}.

(** The kinds the maps of a watch list or get. *)
Definition map_use (c : controller) : list (access * kind) :=
  match c with
  | CShare => [(AList, KShare); (AGet, KPV)]
  | CTarget => [(AList, KTarget); (AGet, KPV)]
  | CLocalUser => [(AList, KLocalUser)]
  | CClaimBinder => [(AList, KPVC)]
  | _ => []
  end.
Lemma use_enqueue c ch : issues (uses (map_use c)) (enqueue c ch).
Proof.
  destruct ch as [k old new]. destruct c, k; cbn [enqueue StoragePool_Setup Share_Setup Target_Setup LocalUser_Setup
    ClaimBinder_Setup TierClasses_Setup PoolAgent_Setup ShareAgent_Setup TargetAgent_Setup UserAgent_Setup]; unfold self, on, allShares,
    volumeShares, allTargets, volumeTargets, secretTargets, secretUsers, pendingHostClaims, volumeClaim; issues_go; done.
Qed.

(** What a process does: passes over requests, the maps of its watches, the
    inventory's ticks.  [home] says that a pass which reads Secrets past the
    cache is over an object of the system namespace. *)
Inductive activity : process → Prop → trace op → Prop :=
  | act_pass c req tr r : pass_of c req tr r →
      activity (process_of c) (relayed c ≠ [] → nn_Namespace req = system_namespace) tr
  | act_map c ch tr r : runs (enqueue c ch) tr r → activity (process_of c) True tr
  | act_inventory n p tr p' : runs (inventory_rounds n p) tr p' → activity Agent True tr.
(** The agents' read of a Secret outside the system namespace. *)
Definition foreign_secret (p : process) (e : event op) : Prop :=
  p = Agent ∧ match e with Ev o _ => match o with Get k key => k = KSecret ∧ nn_Namespace key ≠ system_namespace | _ => False end end.

Lemma pass_uses c req tr r : pass_of c req tr r → Forall (ev_issues (uses (api_use c))) tr.
Proof.
  destruct 1; match goal with Hr : runs _ _ _ |- _ => refine (wp_runs _ _ _ _ (issues_wp _ _ _) Hr) end.
  - apply use_pool.
  - apply use_target.
  - apply use_share.
  - apply use_user.
  - apply use_binder.
  - apply use_tiers.
  - apply use_pool_agent.
  - apply use_share_agent.
  - apply use_target_agent.
  - apply use_user_agent.
Qed.
Lemma pass_secrets c req tr r : pass_of c req tr r → (relayed c ≠ [] → nn_Namespace req = system_namespace) →
  Forall (ev_answers filed) tr → process_of c = Agent → Forall (ev_issues (secret_in system_namespace)) tr.
Proof.
  intros Hp Hreq Hans Hag. pose proof (pass_uses _ _ _ _ Hp) as Hu. destruct Hp; try discriminate Hag.
  1,2: eapply Forall_impl; [exact Hu|]; intros [? []]; try done; intros Hx ->; discriminate Hx.
  - match goal with Hr : runs _ _ _ |- _ => apply (good_sound _ _ _ _ _ _ (secret_target _ _ _ _ _ (Hreq ltac:(done))) Hr Hans) end.
  - match goal with Hr : runs _ _ _ |- _ => apply (good_sound _ _ _ _ _ _ (secret_user _ _ _ (Hreq ltac:(done))) Hr Hans) end.
Qed.

Lemma cached_secret c k : cached (process_of c) k = false → process_of c = Agent ∧ k = KSecret.
Proof. destruct (process_of c), k; done. Qed.
Lemma agent_secret_get c a : process_of c = Agent → (a, KSecret) ∈ api_use c → a = AGet.
Proof.
  intros Hc Hin. destruct c; try discriminate Hc; cbn in Hin;
    repeat (apply elem_of_cons in Hin as [[= ->]|Hin]); done || by apply elem_of_nil in Hin.
Qed.
Lemma event_authorized c (e : event op) : ev_issues (uses (api_use c)) e →
  (process_of c = Agent → ev_issues (secret_in system_namespace) e) → ev_issues (authorized (process_of c)) e.
Proof.
  destruct e as [X o x]. cbn. unfold uses, authorized. destruct (op_access o) as [[[a k] ns]|] eqn:E; [|done].
  intros Hin%bool_decide_eq_true_1 Hsec. apply use_granted; [done|]. intros [Hag ->]%cached_secret.
  pose proof (agent_secret_get c a Hag Hin) as ->. specialize (Hsec Hag). destruct o; cbn in E; simplify_eq. by apply Hsec.
Qed.
Lemma event_foreign c (e : event op) : ev_issues (uses (api_use c)) e →
  ev_issues (authorized (process_of c)) e ∨ foreign_secret (process_of c) e.
Proof.
  intros Hu. destruct e as [X o x].
  assert (ev_issues (secret_in system_namespace) (Ev o x) ∨
    match o with Get k key => k = KSecret ∧ nn_Namespace key ≠ system_namespace | _ => False end) as [Hs|Hs].
  { destruct o; try (left; exact I). unfold ev_issues, secret_in.
    destruct (decide (k = KSecret)), (decide (nn_Namespace key = system_namespace)); first [by right | by left]. }
  - left. by apply event_authorized.
  - destruct (process_of c) eqn:Ec; [left|by right]. rewrite <- Ec. apply event_authorized; [done|]. by rewrite Ec.
Qed.
Lemma map_granted c a k ns : (a, k) ∈ map_use c →
  group_of k ∈ scheme (process_of c) ∧ Forall (λ q, granted (role (process_of c)) q = true) (requests (process_of c) a k ns).
Proof.
  intros Hin. destruct c; cbn in Hin; repeat (apply elem_of_cons in Hin as [[= -> ->]|Hin]); try by apply elem_of_nil in Hin.
  all: split; [refine (bool_decide_eq_true_1 _ _); vm_compute; reflexivity|vm_compute; repeat constructor].
Qed.
Lemma static_authorized {A} p l (q : io A) tr r : issues (uses l) q →
  (∀ a k ns, (a, k) ∈ l → group_of k ∈ scheme p ∧ Forall (λ q, granted (role p) q = true) (requests p a k ns)) →
  runs q tr r → Forall (ev_issues (authorized p)) tr.
Proof.
  intros Hi Hl Hr. refine (wp_runs _ _ _ _ (issues_wp _ _ (issues_impl _ _ _ _ Hi)) Hr). intros X o. unfold uses, authorized.
  destruct (op_access o) as [[[a k] ns]|]; [|done]. intros Hin%bool_decide_eq_true_1. by apply Hl.
Qed.
End Authorized.

(** C13: The processes have the rights and the types they use.  Whatever the
    API server answers, every operation of an operator or agent process (a pass
    of any of its reconcilers, the map of a watch event, a tick of the inventory)
    is on a type its scheme registers, and every request behind it (list and
    watch of a cached kind, get of a Secret, create, update, status update,
    patch, delete, the recorder's events) is granted by its role, with one
    exception: an agent's read of a Secret outside the system namespace, which
    its role refuses.  A pass of the agents' Target or LocalUser reconciler over
    an object of the system namespace makes no such read, if the API server
    answers a get with an object of the namespace asked for.  List and watch of
    every kind a process's controllers watch are granted too. *)
Theorem activity_authorized `{K8sMeta} `{HostParse} `{MapRange} `{SliceSort} `{IpParse} `{SmbParse} `{SmartParse} `{LsblkParse} p home tr :
  activity p home tr →
  Forall (λ e, ev_issues (authorized p) e ∨ foreign_secret p e) tr ∧
  (home → Forall (ev_answers filed) tr → Forall (ev_issues (authorized p)) tr) ∧
  ∀ c k, process_of c = p → k ∈ watched c → group_of k ∈ scheme p ∧ Forall (λ q, granted (role p) q = true) (informer k).
Proof.
  intros Hact. split_and!.
  - destruct Hact as [c req tr r Hp|c ch tr r Hr|n p tr p' Hr].
    + eapply Forall_impl; [exact (pass_uses _ _ _ _ Hp)|]. intros e. apply event_foreign.
    + eapply Forall_impl; [eapply static_authorized; [apply use_enqueue|apply map_granted|done]|by left].
    + eapply Forall_impl; [eapply static_authorized; [apply use_inventory|apply inventory_granted|done]|by left].
  - intros Hhome Hans. destruct Hact as [c req tr r Hp|c ch tr r Hr|n p tr p' Hr].
    + pose proof (pass_uses _ _ _ _ Hp) as Hu. pose proof (pass_secrets _ _ _ _ Hp Hhome Hans) as Hs.
      rewrite Forall_forall in Hu |- *. intros e He. apply event_authorized; [by apply Hu|]. intros Hag.
      specialize (Hs Hag). rewrite Forall_forall in Hs. by apply Hs.
    + eapply static_authorized; [apply use_enqueue|apply map_granted|done].
    + eapply static_authorized; [apply use_inventory|apply inventory_granted|done].
  - intros c k <- Hk. destruct c; cbn in Hk; repeat (apply elem_of_cons in Hk as [->|Hk]); try by apply elem_of_nil in Hk.
    all: split; [refine (bool_decide_eq_true_1 _ _); vm_compute; reflexivity|vm_compute; repeat constructor].
Qed.

(** The Role of the agents ends at the system namespace: the Secret of a Target
    elsewhere is not theirs to read. *)
Lemma foreign_secret_refused ns : ns ≠ system_namespace →
  Forall (λ q, granted (role Agent) q = false) (requests Agent AGet KSecret ns).
Proof.
  intros Hns. constructor; [|constructor]. cbn -[String.eqb]. apply String.eqb_neq in Hns. rewrite Hns. vm_compute. reflexivity.
Qed.

(** ** Witness: an agent sets the password of a user *)
Section Witness.
#[local] Existing Instance RefMeta.meta.
#[local] Existing Instance map_range.
#[local] Existing Instance demo_parse.
#[local] Existing Instance insertion_slice_sort.
#[local] Existing Instance TargetAgent.demo_ip.
#[local] Existing Instance Wiring.demo_smbs.
#[local] Existing Instance InventoryDemo.smart.
#[local] Existing Instance InventoryDemo.lsblk.
Definition system_user : LocalUser :=
  {| lu_meta := named system_namespace "ann"; lu_Role := "viewer"; lu_SMB := true; lu_PasswordSecretRef := "ann-password";
     lu_Conditions := []; lu_PasswordSecretVersion := "" |}.
Definition system_env : env op unit :=
  demo_env cmd_ok (λ k _, match k return error + obj k with
                          | KLocalUser => inr system_user
                          | KSecret => inr {| sec_meta := named system_namespace "ann-password"; sec_Data := {["password" := "secret"]} |}
                          | _ => inl (Err "not found" KNotFound)
                          end) list_none.
Definition system_run := run system_env (UserAgent_Reconcile ∅ (NN system_namespace "ann")) tt.
Lemma activity_authorized_witness :
  Forall (ev_issues (authorized Agent)) system_run.1.2 ∧ granted agent_role (ask "get" KSecret "" system_namespace) = true.
Proof.
  split; [|reflexivity].
  refine (proj1 (proj2 (activity_authorized Agent (relayed AUser ≠ [] → system_namespace = system_namespace) system_run.1.2 _)) _ _).
  - apply (act_pass AUser (NN system_namespace "ann") system_run.1.2 system_run.1.1.1).
    apply (po_user_agent ∅ system_run.1.1.2). exact (run_runs system_env (UserAgent_Reconcile ∅ (NN system_namespace "ann")) tt).
  - done.
  - vm_compute. repeat constructor.
Defined.
End Witness.
