(* ===== verification/UiServer.v ===== *)
(** * The UI server's routes (cmd/stornas/main.go)

    The mux gives every route its handler and its gate.  Handlers enter the
    session lock once each, so a server's life is the sequence of its requests
    in the order of those entries; what a handler reads and writes afterwards
    is its trace.  The pages that do not touch the API server (status, state
    frame, stream, files) are parameters. *)

From S2P Require Import Prelude GoStrings Prog ApiTypes Tasks Ui Auth Api ApiSafety.
Open Scope Z_scope.

Inductive route :=
  | Healthz | Status | LoginRoute (body : error + (string * string)) | LogoutRoute | SessionRoute
  | PasswordRoute (body : error + (string * string)) | StateRoute | StreamRoute | Mutate (e : endpoint) | Files.
Record request := { rq_route : route; rq_cookie : option string; rq_tls : bool }.

(** The mux patterns; the gate of each is the wrapper it is registered with. *)
Definition endpoint_pattern (e : endpoint) : string :=
  match e with
  | ECreatePool _ => "POST /api/v1/pools"
  | EDeletePool _ => "DELETE /api/v1/pools/{name}"
  | EReplacePoolDevice _ _ => "POST /api/v1/pools/{name}/replace"
  | ECreateVolume _ _ => "POST /api/v1/namespaces/{namespace}/volumes"
  | EDeleteVolume _ _ => "DELETE /api/v1/namespaces/{namespace}/volumes/{name}"
  | EResizeVolume _ _ _ => "POST /api/v1/namespaces/{namespace}/volumes/{name}/resize"
  | EResolveSplitBrain _ _ _ => "POST /api/v1/namespaces/{namespace}/volumes/{name}/resolve-split"
  | ECreateShare _ => "POST /api/v1/shares"
  | EDeleteShare _ => "DELETE /api/v1/shares/{name}"
  | ECreateTarget _ => "POST /api/v1/targets"
  | EDeleteTarget _ => "DELETE /api/v1/targets/{name}"
  | ECreateSnapshot _ _ => "POST /api/v1/namespaces/{namespace}/snapshots"
  | EDeleteSnapshot _ _ => "DELETE /api/v1/namespaces/{namespace}/snapshots/{name}"
  | EListUsers => "GET /api/v1/users"
  | ECreateUser _ => "POST /api/v1/users"
  | EDeleteUser _ => "DELETE /api/v1/users/{name}"
  end.
Definition pattern (r : route) : string :=
  match r with
  | Healthz => "GET /healthz" | Status => "GET /api/v1/status" | LoginRoute _ => "POST /api/v1/login"
  | LogoutRoute => "POST /api/v1/logout" | SessionRoute => "GET /api/v1/session"
  | PasswordRoute _ => "POST /api/v1/session/password" | StateRoute => "GET /api/v1/state"
  | StreamRoute => "GET /api/v1/stream" | Mutate e => endpoint_pattern e | Files => "GET /"
  end.

Section Server.
Context `{K8sMeta} `{Quantity} (ns : string).
Context (status_page state_frame stream_page file_page : Response).

Definition mutate : API := {| a_Namespace := ns; a_Tasks := true |}.
Definition forget {A} (p : uio (Manager * Response * A)) : uio (Manager * Response) := let! x := p in Ret x.1.

Definition serve (m : Manager) (rq : request) : uio (Manager * Response) :=
  match rq_route rq with
  | Healthz => Ret (m, NoBody StatusOK)
  | Status => Ret (m, status_page)
  | LoginRoute body => forget (@Login (KubeSource ns) m (rq_tls rq) body)
  | LogoutRoute => forget (Logout m (rq_tls rq) (rq_cookie rq))
  | SessionRoute => @Session (KubeSource ns) m (rq_cookie rq)
  | PasswordRoute body => @ChangePassword (KubeSource ns) m (rq_cookie rq) body
  | StateRoute => Require_ m (rq_cookie rq) (λ _, Ret state_frame)
  | StreamRoute => Require_ m (rq_cookie rq) (λ _, Ret stream_page)
  | Mutate e => RequireAdmin m (rq_cookie rq) (λ user, handle mutate user e)
  | Files => Ret (m, file_page)
  end.

(** A server's life: the requests it served, from no sessions. *)
Inductive served : list (request * trace uop) → Manager → Prop :=
  | served_none : served [] ∅
  | served_next h m rq tr m' r : served h m → runs (serve m rq) tr (m', r) → served (h ++ [(rq, tr)]) m'.

(** Some request of [h] was a login with [user]'s password that issued [tok]. *)
Definition logged_in (h : list (request * trace uop)) (tok : string) (user : User) : Prop :=
  ∃ rq tr username password a b, (rq, tr) ∈ h ∧ rq_route rq = LoginRoute (inr (username, password)) ∧
    password ≠ "" ∧ credential ns username password user tr ∧
    (Ev URandText a : event uop) ∈ tr ∧ (Ev URandText b : event uop) ∈ tr ∧ tok = a +:+ b.

(** ** The session table across requests *)
(** [m'] has no session that [m] did not have for the same user. *)
Definition narrows (m m' : Manager) : Prop :=
  ∀ tok s', m' !! tok = Some s' → ∃ s, m !! tok = Some s ∧ s_user s' = s_user s.
Lemma narrows_refl m : narrows m m.
Proof. intros tok s' Hs. eauto. Qed.
Lemma narrows_delete m v : narrows m (delete v m).
Proof. intros tok s' [_ Hs]%lookup_delete_Some. eauto. Qed.
Lemma wp_userFor_narrows m ck : wp (userFor m ck) (λ _ '(m', _), narrows m m').
Proof.
  unfold userFor. destruct ck as [v|]; [|apply narrows_refl].
  destruct (m !! v) as [s|] eqn:E; [|apply narrows_delete]. cbn. intros t1.
  destruct (expired t1 s); [apply narrows_delete|]. cbn. intros t2 tok s'.
  rewrite lookup_insert_Some. intros [[<- <-]|[_ Hs]]; eauto.
Qed.
(** The same for a gate: the handler behind it does not see the table. *)
Lemma wp_after_userFor {B} m ck (f : Manager * option User → uio (Manager * B)) :
  (∀ x, wp (f x) (λ _ '(m', _), m' = x.1)) → wp (bind (userFor m ck) f) (λ _ '(m', _), narrows m m').
Proof.
  intros Hf. apply wp_bind_2. eapply wp_mono; [apply wp_userFor_narrows|]. intros t1 [m1 u] Hn.
  eapply wp_mono; [apply Hf|]. intros t2 [m2 r]. cbn. by intros ->.
Qed.
Lemma wp_keep {A B} (p : uio A) (m : Manager) (g : A → B) :
  wp (bind p (λ r, Ret (m, g r))) (λ _ '(m', _), m' = m).
Proof. induction p as [x|X o k IH]; cbn; [done|]. intros y. apply IH. Qed.
Lemma wp_keep_bind {A B} (p : uio A) (f : A → uio (Manager * B)) (m : Manager) :
  (∀ x, wp (f x) (λ _ '(m', _), m' = m)) → wp (bind p f) (λ _ '(m', _), m' = m).
Proof. intros Hf. induction p as [x|X o k IH]; cbn; auto. Qed.

Lemma wp_serve_table m rq :
  wp (serve m rq) (λ tr '(m', _), narrows m m' ∨
    ∃ username password user a b t1 t2, rq_route rq = LoginRoute (inr (username, password)) ∧ password ≠ "" ∧
      credential ns username password user tr ∧ (Ev URandText a : event uop) ∈ tr ∧ (Ev URandText b : event uop) ∈ tr ∧
      m' = open_session m (a +:+ b) user t1 t2).
Proof.
  assert (∀ p : uio (Manager * Response), wp p (λ _ '(m', _), narrows m m') → wp p (λ tr '(m', _), narrows m m' ∨
    ∃ username password user a b t1 t2, rq_route rq = LoginRoute (inr (username, password)) ∧ password ≠ "" ∧
      credential ns username password user tr ∧ (Ev URandText a : event uop) ∈ tr ∧ (Ev URandText b : event uop) ∈ tr ∧
      m' = open_session m (a +:+ b) user t1 t2)) as Hk.
  { intros p Hp. eapply wp_mono; [exact Hp|]. intros tr [m' r]. auto. }
  unfold serve. destruct (rq_route rq) as [| |body| | |body| | |e|];
    try (apply Hk; apply narrows_refl).
  - unfold forget. apply wp_bind_2. eapply wp_mono; [apply wp_Login|].
    intros tr [[m' r] ck] [_ Ho]. cbn. rewrite app_nil_r.
    destruct Ho as [(-> & _)|(u & p & user & a & b & t1 & t2 & -> & ? & ? & ? & ? & -> & _)].
    + left. apply narrows_refl.
    + right. exists u, p, user, a, b, t1, t2. done.
  - apply Hk. cbn. destruct (rq_cookie rq); [apply narrows_delete|apply narrows_refl].
  - apply Hk, wp_after_userFor. intros [m1 [u|]]; cbn; [|done]. intros. apply (wp_keep (Kube_MustChange ns (u_Name u)) m1).
  - apply Hk, wp_after_userFor. intros [m1 [u|]]; cbn [passwords KubeSource]; [|done].
    destruct body as [?|[cur new]]; [done|]. case_match; [done|].
    apply wp_keep_bind. intros l. case_match; [by apply wp_keep_bind|].
    apply wp_keep_bind. by intros [].
  - apply Hk, wp_after_userFor. by intros [m1 [u|]].
  - apply Hk, wp_after_userFor. by intros [m1 [u|]].
  - apply Hk, wp_after_userFor. intros [m1 [u|]]; [|done]. case_match; [done|]. apply (wp_keep _ m1 id).
Qed.

(** Every session was opened by a login of its user. *)
Lemma served_sessions h m tok s : served h m → m !! tok = Some s → logged_in h tok (s_user s).
Proof.
  intros Hs. revert tok s. induction Hs as [|h m rq tr m' r _ IH Hr]; intros tok s.
  { by rewrite lookup_empty. }
  assert (∀ tk u, logged_in h tk u → logged_in (h ++ [(rq, tr)]) tk u) as Hmono.
  { intros tk u (q & t & un & pw & a & b & Hin & ?). exists q, t, un, pw, a, b. split; [|done].
    apply elem_of_app. by left. }
  pose proof (wp_runs _ _ _ _ (wp_serve_table m rq) Hr) as [Hn|(un & pw & user & a & b & t1 & t2 & Hq & Hp & Hc & Ha & Hb & ->)].
  - intros (s0 & Hs0 & ->)%Hn. by apply Hmono, IH.
  - unfold open_session. rewrite lookup_insert_Some. intros [[<- <-]|[_ [Hm _]%gc_lookup]]; [|by apply Hmono, IH].
    exists rq, tr, un, pw, a, b. split_and!; try done. apply elem_of_app. right. left.
Qed.

(** ** Who writes *)

(** The evidence behind a write of a request. *)
Definition write_by (m : Manager) (rq : request) (tr tr1 : trace uop) (w : write) : Prop :=
  (∃ ep user, rq_route rq = Mutate ep ∧ signed_in m (rq_cookie rq) user tr ∧ u_Role user = "admin" ∧
     ∃ t0 t1, tr1 = t0 ++ t1 ∧ write_ok mutate ep t1 w) ∨
  (∃ body, rq_route rq = PasswordRoute body ∧ change_ok ns m (rq_cookie rq) body tr w).
Abbreviation writes_by m rq p :=
  (wp p (λ tr _, ∀ tr1 e tr2 w x, tr = tr1 ++ e :: tr2 → ev_write e = Some (w, x) → write_by m rq tr tr1 w)).

Lemma no_write_at tr tr1 e tr2 w x : no_writes tr → tr = tr1 ++ e :: tr2 → ev_write e = Some (w, x) → False.
Proof. intros Ht -> Hev. apply Forall_app in Ht as [_ [He _]%Forall_cons]. congruence. Qed.
Lemma silent_writes {A} m rq (p : uio A) : wp p (λ tr _, no_writes tr) → writes_by m rq p.
Proof.
  intros Hp. eapply wp_mono; [exact Hp|]. intros tr r Hw tr1 e tr2 w x Heq Hev. by destruct (no_write_at _ _ _ _ _ _ Hw Heq Hev).
Qed.
Lemma silent_gate {A} m ck (f : Manager * option User → uio A) :
  (∀ x, wp (f x) (λ tr _, no_writes tr)) → wp (bind (userFor m ck) f) (λ tr _, no_writes tr).
Proof.
  intros Hf. apply wp_bind_2. eapply wp_mono; [apply wp_userFor_signed|]. intros t1 [m1 u] [Hw _].
  eapply wp_mono; [apply Hf|]. intros t2 r H2. by apply Forall_app.
Qed.
Lemma admin_writes m rq ep : rq_route rq = Mutate ep →
  writes_by m rq (RequireAdmin m (rq_cookie rq) (λ user, handle mutate user ep)).
Proof.
  intros Er. unfold RequireAdmin. apply wp_bind_2. eapply wp_mono; [apply wp_userFor_signed|]. intros t1 [m1 u] [Hw Hu].
  destruct u as [user|]; [case_bool_decide as Hrole|]; cbn.
  1,3: rewrite app_nil_r; intros tr1 e tr2 w x Heq Hev; by destruct (no_write_at _ _ _ _ _ _ Hw Heq Hev).
  apply wp_bind_2. eapply wp_mono; [apply (guarded_handle mutate user ep)|].
  intros t2 r L. cbn. rewrite app_nil_r. intros tr1 e tr2 w x Heq Hev. left. exists ep, user.
  split_and!; [done|by apply signed_in_app, Hu|done|].
  apply app_eq_inv in Heq as [(k & -> & Heq)|(k & -> & Heq)].
  - destruct k as [|e' k]; cbn in Heq; simplify_eq.
    + exists tr1, []. split; [by rewrite app_nil_r|]. by apply (L [] e tr2 eq_refl w x).
    + apply Forall_app in Hw as [_ [He _]%Forall_cons]. congruence.
  - exists t1, k. split; [done|]. by apply (L k e tr2 Heq w x).
Qed.
Lemma wp_serve_writes m rq : writes_by m rq (serve m rq).
Proof.
  unfold serve. destruct (rq_route rq) as [| |body| | |body| | |ep|] eqn:Er; try (apply silent_writes; constructor).
  - apply silent_writes. unfold forget. apply wp_bind_2. eapply wp_mono; [apply wp_Login|].
    intros tr [[m' r] ck] [Hw _]. cbn. by rewrite app_nil_r.
  - apply silent_writes, silent_gate. intros [m1 [u|]]; cbn; [|constructor]. intros [?|?]; by repeat constructor.
  - eapply wp_mono; [apply wp_ChangePassword|]. intros tr r Hx tr1 e tr2 w x -> Hev. right. exists body.
    split; [done|]. eapply Hx; [|exact Hev]. apply elem_of_app. right. left.
  - apply silent_writes, silent_gate. intros [m1 [u|]]; constructor.
  - apply silent_writes, silent_gate. intros [m1 [u|]]; constructor.
  - by apply admin_writes.
Qed.
End Server.

(** C3: No write without a login.  In any life of the UI server, a request that
    writes to the API server carries a cookie that an earlier login of the same
    life issued after checking the non-empty password in that user's Secret.
    The user then had the role admin and the write is one its endpoint's own
    reads cover, or the request changes that user's own password. *)
Theorem no_write_without_login `{K8sMeta} `{Quantity} ns p1 p2 p3 p4 h m rq tr m' r :
  served ns p1 p2 p3 p4 h m → runs (serve ns p1 p2 p3 p4 m rq) tr (m', r) →
  ∀ tr1 e tr2 w x, tr = tr1 ++ e :: tr2 → ev_write e = Some (w, x) →
  ∃ tok user, rq_cookie rq = Some tok ∧ logged_in ns h tok user ∧
    ((∃ ep t0 t1, rq_route rq = Mutate ep ∧ u_Role user = "admin" ∧ tr1 = t0 ++ t1 ∧
        write_ok (mutate ns) ep t1 w) ∨
     (∃ current new, rq_route rq = PasswordRoute (inr (current, new)) ∧ (8 ≤ String.length new)%nat ∧
        password_write ns user new tr w)).
Proof.
  intros Hs Hr tr1 e tr2 w x Heq Hev.
  destruct (wp_runs _ _ _ _ (wp_serve_writes ns p1 p2 p3 p4 m rq) Hr tr1 e tr2 w x Heq Hev)
    as [(ep & user & Hq & (tok & s & t & Hck & Hm & _ & _ & ->) & Hrole & t0 & t1 & -> & Hok)
       |(body & Hq & user & u & cur & new & (tok & s & t & Hck & Hm & _ & _ & ->) & -> & Hlen & _ & _ & Hw)];
    exists tok, (s_user s); (split; [done|]; split; [by eapply served_sessions|]).
  - left. by exists ep, t0, t1.
  - right. by exists cur, new.
Qed.

(** ** Witness: a login, then a pool created with its cookie *)
Definition demo_ui_env : env uop unit :=
  uenv (λ k ns n, match k return error + robj k with
                  | UUser => inr demo_login_user
                  | USecret => inr {| sec_meta := named "stornas" "alice-password"; sec_Data := {["password" := "opensesame"]} |}
                  | _ => inl (Err "not found" KNotFound) end)
       (λ k ns, inr []) None.
Definition demo_new : poolRequest := {| pr_Name := "tank"; pr_Node := "n1"; pr_Devices := ["/dev/sdb"]; pr_Raid := ""; pr_Tier := "" |}.
Definition login_rq : request := {| rq_route := LoginRoute (inr ("alice", "opensesame")); rq_cookie := None; rq_tls := true |}.
Definition create_rq : request := {| rq_route := Mutate (ECreatePool (inr demo_new)); rq_cookie := Some "tt"; rq_tls := true |}.
Abbreviation demo_serve := (@serve RefMeta.meta demo_quantity "stornas" (NoBody 200) (NoBody 200) (NoBody 200) (NoBody 200)).
Lemma no_write_without_login_witness :
  ∃ tok user, Some "tt" = Some tok ∧ logged_in "stornas" [(login_rq, (run demo_ui_env (demo_serve ∅ login_rq) tt).1.2)] tok user ∧
    u_Role user = "admin".
Proof.
  pose (m := (run demo_ui_env (demo_serve ∅ login_rq) tt).1.1.1).
  assert (@served RefMeta.meta demo_quantity "stornas" (NoBody 200) (NoBody 200) (NoBody 200) (NoBody 200)
    [(login_rq, (run demo_ui_env (demo_serve ∅ login_rq) tt).1.2)] m) as Hs.
  { apply (served_next _ _ _ _ _ [] ∅ login_rq _ m (run demo_ui_env (demo_serve ∅ login_rq) tt).1.1.2); [constructor|].
    unfold m. rewrite <- surjective_pairing. apply run_runs. }
  destruct (@no_write_without_login RefMeta.meta demo_quantity "stornas" (NoBody 200) (NoBody 200) (NoBody 200) (NoBody 200)
    _ m create_rq _ (run demo_ui_env (demo_serve m create_rq) tt).1.1.1 (run demo_ui_env (demo_serve m create_rq) tt).1.1.2 Hs
    ltac:(rewrite <- surjective_pairing; apply run_runs)
    (take 3 (run demo_ui_env (demo_serve m create_rq) tt).1.2)
    (Ev (UCreate UPool (new_pool demo_new)) None) (drop 4 (run demo_ui_env (demo_serve m create_rq) tt).1.2)
    (WCreate UPool (new_pool demo_new)) None) as (tok & user & Hck & Hl & [(ep & t0 & t1 & Hq & Hrole & _)|(c & n & Hq & _)]).
  - vm_compute. reflexivity.
  - reflexivity.
  - exists tok, user. exact (conj Hck (conj Hl Hrole)).
  - discriminate Hq.
Defined.
