(* ===== verification/ServerAccess.v ===== *)
(** * What the UI server may do

    image/manifests/stornas/server.yaml: a ClusterRole for the reflectors and
    the mutations that follow a claim into its namespace, and a Role in the
    system namespace for users, their Secrets, shares and targets.  The
    handlers use the dynamic and the typed client directly, so an operation is
    one request; the reflectors list and watch. *)

From S2P Require Import Prelude GoStrings Prog Contract ApiTypes Tasks Ui Auth Api ApiSafety UiServer EventBus ReflectStore Access.

Definition server_role : list grant :=
  [{| gr_namespace := None; gr_rules :=
       [rules_of [stornas] ["storagepools"; "targets"; "shares"; "nodeinventories"] read_verbs;
        rules_of ["snapshot.storage.k8s.io"] ["volumesnapshots"] read_verbs;
        rules_of [""] ["nodes"; "persistentvolumeclaims"; "events"] read_verbs;
        rules_of ["r-drbd.io"] ["pools"; "volumes"] read_verbs;
        rules_of [stornas] ["storagepools"] ["create"; "get"; "update"; "delete"];
        rules_of ["snapshot.storage.k8s.io"] ["volumesnapshots"] ["create"; "delete"];
        rules_of [""] ["persistentvolumeclaims"] ["create"; "delete"; "patch"];
        rules_of ["r-drbd.io"] ["volumes"] ["patch"]] |};
   {| gr_namespace := Some system_namespace; gr_rules :=
       [rules_of [stornas] ["localusers"] ["get"; "list"; "create"; "delete"; "patch"];
        rules_of [stornas] ["shares"; "targets"] ["create"; "delete"];
        rules_of [""] ["secrets"] ["get"; "create"; "delete"; "update"]] |}].

(** The resources of the two clients, as internal/api and internal/auth name them. *)
Definition userGVR : GroupVersionResource :=
  {| gvr_Group := stornas; gvr_Version := "v1alpha1"; gvr_Resource := "localusers" |}.
Definition rdrbdPoolGVR : GroupVersionResource :=
  {| gvr_Group := "r-drbd.io"; gvr_Version := "v1alpha1"; gvr_Resource := "pools" |}.
Definition gvr_of (k : res) : GroupVersionResource :=
  match k with
  | UPool => poolGVR | UShare => shareGVR | UTarget => targetGVR | UUser => userGVR | USnap => snapshotGVR
  | UBacking => rdrbdPoolGVR | UVolume => rdrbdVolumeGVR
  | UClaim => core "persistentvolumeclaims" | UNode => core "nodes" | USecret => core "secrets"
  end.
Definition rmeta_of (k : res) : robj k → ObjectMeta :=
  match k with
  | UPool => sp_meta | UShare => sh_meta | UTarget => t_meta | UUser => lu_meta | USnap => vs_meta | UBacking => p_meta
  | UVolume => v_meta | UClaim => cl_meta | UNode => n_meta | USecret => sec_meta
  end.
Definition server_ask (verb : string) (g : GroupVersionResource) (ns : string) : api_request :=
  {| q_verb := verb; q_group := gvr_Group g; q_resource := gvr_Resource g; q_namespace := ns |}.
Definition server_request {X} (o : uop X) : option api_request :=
  match o with
  | UGet k ns _ => Some (server_ask "get" (gvr_of k) ns)
  | UList k ns => Some (server_ask "list" (gvr_of k) ns)
  | UCreate k x => Some (server_ask "create" (gvr_of k) (Namespace (rmeta_of k x)))
  | UUpdate k x => Some (server_ask "update" (gvr_of k) (Namespace (rmeta_of k x)))
  | UDelete k ns _ => Some (server_ask "delete" (gvr_of k) ns)
  | UPatch k ns _ _ => Some (server_ask "patch" (gvr_of k) ns)
  | _ => None
  end.
Definition server_authorized (X : Type) (o : uop X) : Prop :=
  match server_request o with Some q => granted server_role q = true | None => True end.

(** The API server files a Secret under the namespace it is read from. *)
Definition ufiled (X : Type) (o : uop X) : X → Prop :=
  match o with
  | UGet k ns _ => λ r, match r with inr x => Namespace (rmeta_of k x) = ns | inl _ => True end
  | _ => λ _, True
  end.

Section Server.
Context `{K8sMeta} `{Quantity} (state_frame stream_page status_page file_page : Response).
Abbreviation authorized_prog := (issues server_authorized).
Let api : API := mutate system_namespace.

Lemma may_userFor m ck : authorized_prog (userFor m ck).
Proof. unfold userFor. issues_go; done. Qed.
Lemma may_handle user e : authorized_prog (handle api user e).
Proof.
  destruct e; cbn [handle]; unfold CreatePool, DeletePool_http, ReplacePoolDevice, CreateVolume, restore_defaults, pin_pool, enough_nodes,
    DeleteVolume, claimReferenced, ResolveSplitBrain, ResizeVolume, CreateShare, DeleteShare, CreateTarget, DeleteTarget,
    CreateSnapshot, DeleteSnapshot, ListUsers, CreateUser, DeleteUser, decode, record, recordIn.
  all: issues_go; try (vm_compute; reflexivity).
Qed.
Abbreviation may p := (good server_authorized ufiled p (λ _, True)).
Lemma may_bind {A B} (p : uio A) (f : A → uio B) : may p → (∀ a, may (f a)) → may (bind p f).
Proof. intros Hp Hf. eapply good_bind; [exact Hp|]. auto. Qed.

(** The sessions' source: the Secret a password is written to is the one read. *)
Lemma may_Lookup u : authorized_prog (Kube_Lookup system_namespace u).
Proof. unfold Kube_Lookup. issues_go; vm_compute; reflexivity. Qed.
Lemma may_MustChange u : authorized_prog (Kube_MustChange system_namespace u).
Proof. unfold Kube_MustChange. issues_go; vm_compute; reflexivity. Qed.
Lemma may_UpdatePassword u pw : may (Kube_UpdatePassword system_namespace u pw).
Proof.
  unfold Kube_UpdatePassword. cbn [bind call good]. split; [vm_compute; reflexivity|]. intros [e|x] _; [done|].
  destruct (bool_decide _); [done|]. cbn [bind call good]. split; [vm_compute; reflexivity|]. intros [e|sec] Hsec; [done|].
  cbn [bind call good]. split.
  - cbn in Hsec |- *. unfold server_authorized. cbn [server_request rmeta_of sec_meta]. rewrite Hsec. vm_compute. reflexivity.
  - intros [e|] _; [done|]. destruct (bool_decide _); cbn; [|done]. split; [vm_compute; reflexivity|done].
Qed.
Lemma may_Bootstrap : authorized_prog (Bootstrap system_namespace).
Proof. unfold Bootstrap. issues_go; vm_compute; reflexivity. Qed.

Lemma may_serve m rq : may (serve system_namespace status_page state_frame stream_page file_page m rq).
Proof.
  unfold serve. destruct (rq_route rq); try exact I.
  - apply good_issues. unfold forget, Login. issues_go; try done. apply may_Lookup.
  - unfold Session. apply may_bind; [apply good_issues, may_userFor|]. intros [m' [u|]]; [|done].
    apply may_bind; [apply good_issues, may_MustChange|done].
  - unfold ChangePassword. apply may_bind; [apply good_issues, may_userFor|]. intros [m' [u|]]; [|done].
    cbn [passwords KubeSource]. destruct body as [e|[current new]]; [done|]. destruct (_ <? _)%nat; [done|].
    apply may_bind; [apply good_issues, may_Lookup|]. intros l. destruct (match l with inl _ => _ | inr _ => _ end); [by cbn|].
    apply may_bind; [apply may_UpdatePassword|]. by intros [e|].
  - apply may_bind; [apply good_issues, may_userFor|]. by intros [m' [u|]].
  - apply may_bind; [apply good_issues, may_userFor|]. by intros [m' [u|]].
  - apply may_bind; [apply good_issues, may_userFor|]. intros [m' [u|]]; [|done]. destruct (bool_decide _); [done|].
    apply may_bind; [apply good_issues, may_handle|done].
Qed.
End Server.

(** C14: The UI server has the rights it uses.  Whatever the API server answers,
    as long as it files a Secret under its own namespace, every request a
    handler issues, in any state of the session table, is granted by the
    server's roles: the users, Secrets, shares and targets of the system
    namespace, claims and snapshots in whatever namespace the caller names.  So
    are the requests of the first start, and list and watch over all namespaces
    of every resource a reflector follows. *)
Theorem server_requests_granted `{K8sMeta} `{Quantity} p1 p2 p3 p4 m rq tr r :
  runs (serve system_namespace p1 p2 p3 p4 m rq) tr r → Forall (ev_answers ufiled) tr →
  Forall (ev_issues server_authorized) tr ∧
  (∀ tr' r', runs (Bootstrap system_namespace) tr' r' → Forall (ev_issues server_authorized) tr') ∧
  Forall (λ s, ∀ verb, verb ∈ ["list"; "watch"] → granted server_role (server_ask verb (rs_resource s) "") = true) specs.
Proof.
  intros Hr Hans. split_and!.
  - exact (proj1 (good_sound _ _ _ _ _ _ (may_serve _ _ _ _ m rq) Hr Hans)).
  - intros tr' r'. exact (wp_runs _ _ _ _ (issues_wp _ _ may_Bootstrap)).
  - repeat constructor; intros verb Hv; repeat (apply elem_of_cons in Hv as [->|Hv]); try (vm_compute; reflexivity);
      by apply elem_of_nil in Hv.
Qed.

(** A share or target outside the system namespace would be refused. *)
Lemma foreign_share_refused ns : ns ≠ system_namespace → granted server_role (server_ask "create" shareGVR ns) = false.
Proof. intros Hns. cbn -[String.eqb]. apply String.eqb_neq in Hns. rewrite Hns. vm_compute. reflexivity. Qed.

(** ** Witness: a user logs in *)
Definition admin_env : env uop unit :=
  uenv (λ k ns n, match k return error + robj k with
                  | UUser => inr (bootstrap_admin ns) | USecret => inr (bootstrap_secret ns "opensesame")
                  | _ => inl (Err "not found" KNotFound) end)
       (λ k ns, inr []) None.
Definition admin_login : request := {| rq_route := LoginRoute (inr ("admin", "opensesame")); rq_cookie := None; rq_tls := true |}.
Definition admin_run :=
  run admin_env (@serve RefMeta.meta demo_quantity system_namespace (NoBody 200) (NoBody 200) (NoBody 200) (NoBody 200) ∅ admin_login) tt.
Lemma server_requests_granted_witness :
  length admin_run.1.2 = 6%nat ∧ Forall (ev_issues server_authorized) admin_run.1.2.
Proof.
  split; [vm_compute; reflexivity|].
  refine (proj1 (@server_requests_granted RefMeta.meta demo_quantity _ _ _ _ ∅ admin_login admin_run.1.2 admin_run.1.1 _ _)).
  - apply run_runs.
  - vm_compute. repeat constructor.
Defined.
