(* ===== verification/Spa.v ===== *)
(** * cmd/stornas/main.go: the file handler of the web interface

    [spaHandler] answers any other GET with a file of the build directory, or
    with index.html so that client-side routes work.  The path is cleaned, then
    checked with [os.Stat], and the file server cleans the request's path on
    its own: the theorem is that both name the same file and that it lies in
    the directory.  [http.ServeFile] and [http.FileServer] are modelled up to
    the choice of what is answered: the refusal of dot-dot elements, the
    redirects, the second look at the tree when the file is opened.  A location
    is without the query, which the redirect carries over; the content, its
    headers and ranges, and the listing of a directory are not modelled.  [dir]
    is a clean path; joining a rooted clean path to it is concatenation, as
    [filepath.Join] documents. *)

From Stdlib Require Import Ascii.
From S2P Require Import Prelude GoStrings.

(** [os.Getenv] with a default. *)
Definition envOr (getenv : string → string) (key def : string) : string :=
  let v := getenv key in if bool_decide (v ≠ "") then v else def.

(** [filepath.Clean] of a rooted path: the segments that remain. *)
Definition clean_step (stack : list string) (seg : string) : list string :=
  if bool_decide (seg = "") || bool_decide (seg = ".") then stack
  else if bool_decide (seg = "..") then removelast stack
  else stack ++ [seg].
Definition clean_segments (path : string) : list string := foldl clean_step [] (Split path slash).
Definition rooted (segs : list string) : string := foldr (λ seg s, "/" +:+ seg +:+ s) "" segs.
Definition Clean (path : string) : string :=
  match clean_segments path with [] => "/" | segs => rooted segs end.
Definition JoinDir (dir path : string) : string := if bool_decide (path = "/") then dir else dir +:+ path.

(** [strings.HasSuffix]. *)
Fixpoint HasSuffix (s suffix : string) : bool :=
  bool_decide (s = suffix) || match s with "" => false | String _ s' => HasSuffix s' suffix end.

(** [path.Base]: the last segment, less trailing slashes. *)
Definition Base (path : string) : string :=
  if bool_decide (path = "") then "."
  else from_option id "/" (last (filter (λ seg, seg ≠ "") (Split path slash))).

(** The check of [http.ServeFile]: elements between slashes or backslashes. *)
Definition backslash : ascii := "\"%char.
Definition containsDotDot (urlpath : string) : bool :=
  existsb (λ seg, existsb (λ ent, bool_decide (ent = "..")) (Split seg backslash)) (Split urlpath slash).

(** What is answered: the content of a file, a directory (its index page or
    its listing), a redirect, the refusal of a dot-dot element, or another
    error. *)
Inductive spa_response :=
  | Content (file : string)
  | Directory (file : string)
  | Redirect (location : string)
  | BadPath
  | ServeError.

(** [os.Stat] and the file server's own open, one after the other, answer the
    entry's [IsDir], or nothing. *)
Definition tree : Type := string → option bool.

(** [serveFile] of net/http, shared by both entry points: [name] is opened
    below [dir]; [redirect] asks for canonical trailing slashes. *)
Definition serveFile (open : tree) (dir name urlpath : string) (redirect : bool) : spa_response :=
  if HasSuffix urlpath "/index.html" then Redirect "./"
  else
    match open (JoinDir dir name) with
    | None => ServeError
    | Some false =>
        if redirect && HasSuffix urlpath "/"
        then let base := Base urlpath in
             if bool_decide (base = "/") || bool_decide (base = ".") then ServeError else Redirect ("../" +:+ base)
        else Content (JoinDir dir name)
    | Some true =>
        if HasSuffix urlpath "/" then Directory (JoinDir dir name) else Redirect (Base urlpath +:+ "/")
    end.

(** [http.FileServer(http.Dir(dir))] roots the request path. *)
Definition rooted_url (urlpath : string) : string := if HasPrefix urlpath "/" then urlpath else "/" +:+ urlpath.
Definition FileServer (open : tree) (dir urlpath : string) : spa_response :=
  serveFile open dir (Clean (rooted_url urlpath)) (rooted_url urlpath) true.
Definition ServeFile (open : tree) (dir name urlpath : string) : spa_response :=
  if containsDotDot urlpath then BadPath else serveFile open dir name urlpath false.

Definition spa_path (dir urlpath : string) : string := JoinDir dir (Clean ("/" +:+ TrimPrefix urlpath "/")).
Definition spaHandler (stat open : tree) (dir urlpath : string) : spa_response :=
  match stat (spa_path dir urlpath) with
  | Some false => FileServer open dir urlpath
  | _ => ServeFile open dir "/index.html" urlpath
  end.

(** A segment that names an entry of the directory it is in. *)
Definition plain_segment (seg : string) : Prop :=
  seg ≠ "" ∧ seg ≠ "." ∧ seg ≠ ".." ∧ has_char slash seg = false.
Definition inside_dir (dir path : string) : Prop :=
  ∃ segs, path = dir +:+ rooted segs ∧ Forall plain_segment segs.

Lemma Split_no_sep s sep : Forall (λ seg, has_char sep seg = false) (Split s sep).
Proof.
  induction s as [|c s IH]; cbn; [by repeat constructor|]. destruct (ch_eqb c sep) eqn:E; [by constructor|].
  destruct (Split s sep) as [|w ws]; [constructor; [|constructor]|inversion IH; subst; constructor; [|done]];
    cbn; (assert (ch_eqb sep c = false) as -> by (apply not_true_is_false; rewrite ch_eqb_eq; intros ->; by rewrite ch_eqb_refl in E));
    done.
Qed.
Lemma removelast_Forall {A} (P : A → Prop) l : Forall P l → Forall P (removelast l).
Proof.
  induction 1 as [|x l Hx Hl IH]; [constructor|]. cbn. destruct l; [constructor|]. by constructor.
Qed.
Lemma clean_step_plain stack seg :
  has_char slash seg = false → Forall plain_segment stack → Forall plain_segment (clean_step stack seg).
Proof.
  intros Hs Hst. unfold clean_step. destruct (_ || _) eqn:E; [done|]. bools.
  case_bool_decide; [by apply removelast_Forall|]. apply Forall_app. split; [done|]. by repeat constructor.
Qed.
Lemma clean_segments_plain path : Forall plain_segment (clean_segments path).
Proof.
  unfold clean_segments. pose proof (Split_no_sep path slash) as Hs. revert Hs. generalize (Split path slash).
  intros segs. assert (Forall plain_segment []) as H0 by constructor. revert H0. generalize (@nil string).
  intros stack Hst Hs. revert stack Hst.
  induction Hs as [|seg segs Hseg _ IH]; intros stack Hst; [done|]. cbn. apply IH. by apply clean_step_plain.
Qed.
Lemma Join_inside dir path : inside_dir dir (JoinDir dir (Clean path)).
Proof.
  exists (clean_segments path). split; [|apply clean_segments_plain]. unfold Clean.
  destruct (clean_segments path) as [|seg segs] eqn:E; [by rewrite sapp_nil_r|].
  unfold JoinDir. rewrite bool_decide_eq_false_2; [done|].
  pose proof (clean_segments_plain path) as Hp. rewrite E in Hp. inversion Hp as [|? ? [Hne _] _]; subst.
  by destruct seg.
Qed.
Lemma spa_path_served dir urlpath : JoinDir dir (Clean (rooted_url urlpath)) = spa_path dir urlpath.
Proof.
  unfold rooted_url, spa_path, TrimPrefix, CutPrefix. destruct (HasPrefix urlpath "/") eqn:E; [|done].
  apply HasPrefix_spec in E as [r ->]. done.
Qed.
Lemma HasSuffix_spec s suffix : HasSuffix s suffix = true ↔ ∃ r, s = r +:+ suffix.
Proof.
  induction s as [|c s IH]; cbn; rewrite orb_true_iff, bool_decide_eq_true.
  - split; [intros [<-|[=]]; by exists ""|]. intros [[] [=]]; auto.
  - rewrite IH. split.
    + intros [->|[r ->]]; [by exists ""|by exists (String c r)].
    + intros [[|c' r] E]; cbn in E; [by left|]. injection E as <- ->. eauto.
Qed.

(** The last segment has no slash, so a location made of it stays relative. *)
Lemma Base_segment path : Base path = "/" ∨ has_char slash (Base path) = false.
Proof.
  unfold Base. case_bool_decide; [by right|]. destruct (last _) as [seg|] eqn:E; [right|by left]. cbn.
  apply last_Some_elem_of, list_elem_of_filter in E as [_ Hin].
  pose proof (Split_no_sep path slash) as Hs. rewrite Forall_forall in Hs. by apply Hs.
Qed.

Section SpaProofs.
Context (stat open : tree) (dir urlpath : string).

(** The entry a request may be answered with: the file stat found at its path,
    or the index page. *)
Definition asked_entry (file : string) : Prop :=
  file = spa_path dir urlpath ∧ stat file = Some false ∨
  file = dir +:+ "/index.html" ∧ stat (spa_path dir urlpath) ≠ Some false ∧ containsDotDot urlpath = false.

(** Where a redirect may point, always relative to the request's path: out of
    an explicit index page, to the file without its trailing slash, or to a
    directory with one, which takes a look at the tree that finds a directory
    where a file was asked for. *)
Definition relative_redirect (location : string) : Prop :=
  location = "./" ∧ HasSuffix (rooted_url urlpath) "/index.html" = true ∨
  location = "../" +:+ Base (rooted_url urlpath) ∧ has_char slash (Base (rooted_url urlpath)) = false ∧
    HasSuffix (rooted_url urlpath) "/" = true ∧ stat (spa_path dir urlpath) = Some false ∨
  ∃ file, asked_entry file ∧ open file = Some true.

Definition spa_lawful (r : spa_response) : Prop :=
  match r with
  | Content file => asked_entry file ∧ open file = Some false
  | Directory file => asked_entry file ∧ open file = Some true
  | Redirect location => relative_redirect location
  | BadPath => containsDotDot urlpath = true ∧ stat (spa_path dir urlpath) ≠ Some false
  | ServeError =>
      (∃ file, asked_entry file ∧ open file = None) ∨
      stat (spa_path dir urlpath) = Some false ∧ HasSuffix (rooted_url urlpath) "/" = true ∧
        (Base (rooted_url urlpath) = "/" ∨ Base (rooted_url urlpath) = ".")
  end.

Lemma FileServer_lawful : stat (spa_path dir urlpath) = Some false → spa_lawful (FileServer open dir urlpath).
Proof.
  intros Hst. assert (asked_entry (spa_path dir urlpath)) as Ha by (left; done).
  unfold FileServer, serveFile. rewrite spa_path_served. destruct (HasSuffix _ "/index.html") eqn:Hi; [by left|].
  destruct (open (spa_path dir urlpath)) as [[]|] eqn:Ho; [| |by left; eauto].
  - destruct (HasSuffix _ "/"); [done|]. right; right. eauto.
  - cbn [andb]. destruct (HasSuffix _ "/") eqn:Hs; [|done]. destruct (_ || _) eqn:Hb; bools.
    + right. split_and!; [done..|]. apply orb_true_iff in Hb as [?%bool_decide_eq_true|?%bool_decide_eq_true]; auto.
    + right; left. destruct (Base_segment (rooted_url urlpath)); done.
Qed.

Lemma HasSuffix_rooted suffix : HasSuffix urlpath suffix = true → HasSuffix (rooted_url urlpath) suffix = true.
Proof.
  rewrite !HasSuffix_spec. intros [r ->]. unfold rooted_url. destruct (HasPrefix _ _); [by exists r|].
  by exists ("/" +:+ r).
Qed.

Lemma ServeFile_lawful :
  stat (spa_path dir urlpath) ≠ Some false → spa_lawful (ServeFile open dir "/index.html" urlpath).
Proof.
  intros Hst. unfold ServeFile. destruct (containsDotDot urlpath) eqn:Hd; [done|].
  assert (asked_entry (JoinDir dir "/index.html")) as Ha by (right; done).
  unfold serveFile. destruct (HasSuffix urlpath "/index.html") eqn:Hi; [left; auto using HasSuffix_rooted|].
  destruct (open _) as [[]|] eqn:Ho; [|done|left; eauto].
  destruct (HasSuffix urlpath "/"); [done|]. right; right. eauto.
Qed.
Lemma spaHandler_lawful : spa_lawful (spaHandler stat open dir urlpath).
Proof.
  unfold spaHandler. destruct (stat (spa_path dir urlpath)) as [[]|] eqn:E;
    [apply ServeFile_lawful|apply FileServer_lawful|apply ServeFile_lawful]; congruence.
Qed.
End SpaProofs.

Example spa_dots : spa_path "web/build" "/a//../../../etc/./passwd" = "web/build/etc/passwd".
Proof. vm_compute. reflexivity. Qed.

(** A build directory with an index page and one asset. *)
Definition demo_tree : tree := λ p,
  if bool_decide (p ∈ ["web"; "web/app"]) then Some true
  else if bool_decide (p ∈ ["web/index.html"; "web/app/main.js"]) then Some false else None.
Example spa_answers :
  spaHandler demo_tree demo_tree "web" <$> ["/app/main.js"; "/"; "/app"; "/shares/docs"; "/index.html"; "/x/index.html";
    "/app/main.js/"; "/app/main.js/./"; "/a/../b"; "/a/../app/main.js"] =
  [Content "web/app/main.js"; Content "web/index.html"; Content "web/index.html"; Content "web/index.html";
   Redirect "./"; Redirect "./"; Redirect "../main.js"; ServeError; BadPath; Content "web/app/main.js"].
Proof. vm_compute. reflexivity. Qed.
