(* ===== verification/Startup.v ===== *)
(** * From the command line to a running process

    The main functions of operator/cmd, cmd/stornas-agent and cmd/stornas as
    programs over what they ask of the environment, of controller-runtime and
    of client-go; the value is the process's exit code.  The options are built
    the way the code builds them; the flags packages register on the command
    line themselves are a parameter ([lib]).  Of a TLS configuration only the
    field the code sets is kept. *)

From S2P Require Import Prelude GoStrings Prog ApiTypes Effects Flags Wiring Access EventBus ReflectStore Tasks Ui Auth Api ApiSafety UiServer Spa.
Open Scope Z_scope.

(** ** The operator's flags *)
Record operator_flags := {
  metricsAddr : string; metricsCertPath : string; metricsCertName : string; metricsCertKey : string;
  webhookCertPath : string; webhookCertName : string; webhookCertKey : string;
  enableLeaderElection : bool; probeAddr : string; secureMetrics : bool; enableHTTP2 : bool;
}.
Definition operator_flag_set : FlagSet :=
  list_to_map [("metrics-bind-address", StringVar); ("health-probe-bind-address", StringVar); ("leader-elect", BoolVar);
    ("metrics-secure", BoolVar); ("webhook-cert-path", StringVar); ("webhook-cert-name", StringVar); ("webhook-cert-key", StringVar);
    ("metrics-cert-path", StringVar); ("metrics-cert-name", StringVar); ("metrics-cert-key", StringVar); ("enable-http2", BoolVar)].
Definition operator_flags_of (set : gmap string string) : operator_flags :=
  {| metricsAddr := string_flag set "metrics-bind-address" "0";
     probeAddr := string_flag set "health-probe-bind-address" ":8081";
     enableLeaderElection := bool_flag set "leader-elect" false;
     secureMetrics := bool_flag set "metrics-secure" true;
     webhookCertPath := string_flag set "webhook-cert-path" "";
     webhookCertName := string_flag set "webhook-cert-name" "tls.crt";
     webhookCertKey := string_flag set "webhook-cert-key" "tls.key";
     metricsCertPath := string_flag set "metrics-cert-path" "";
     metricsCertName := string_flag set "metrics-cert-name" "tls.crt";
     metricsCertKey := string_flag set "metrics-cert-key" "tls.key";
     enableHTTP2 := bool_flag set "enable-http2" false |}.

(** ** Manager options *)
Record TLSConfig := { NextProtos : list string }.
Definition disableHTTP2 (c : TLSConfig) : TLSConfig := {| NextProtos := ["http/1.1"] |}.
Definition tlsOpts (fl : operator_flags) : list (TLSConfig → TLSConfig) := if negb (enableHTTP2 fl) then [disableHTTP2] else [].
(** A server applies its options to the configuration it starts from. *)
Definition configure (opts : list (TLSConfig → TLSConfig)) (c : TLSConfig) : TLSConfig := foldl (λ c f, f c) c opts.

Inductive FilterProvider := WithAuthenticationAndAuthorization.
Record WebhookOptions := {
  wo_TLSOpts : list (TLSConfig → TLSConfig); wo_CertDir : string; wo_CertName : string; wo_KeyName : string;
}.
Record MetricsOptions := {
  mo_BindAddress : string; mo_SecureServing : bool; mo_TLSOpts : list (TLSConfig → TLSConfig);
  mo_FilterProvider : option FilterProvider; mo_CertDir : string; mo_CertName : string; mo_KeyName : string;
}.
Record Options := {
  o_Scheme : list scheme_group; o_Metrics : MetricsOptions; o_WebhookServer : option WebhookOptions;
  o_HealthProbeBindAddress : string; o_LeaderElection : bool; o_LeaderElectionID : string;
}.
Definition webhookServerOptions (fl : operator_flags) : WebhookOptions :=
  let given := bool_decide (webhookCertPath fl ≠ "") in
  {| wo_TLSOpts := tlsOpts fl;
     wo_CertDir := if given then webhookCertPath fl else "";
     wo_CertName := if given then webhookCertName fl else "";
     wo_KeyName := if given then webhookCertKey fl else "" |}.
Definition metricsServerOptions (fl : operator_flags) : MetricsOptions :=
  let given := bool_decide (metricsCertPath fl ≠ "") in
  {| mo_BindAddress := metricsAddr fl; mo_SecureServing := secureMetrics fl; mo_TLSOpts := tlsOpts fl;
     mo_FilterProvider := if secureMetrics fl then Some WithAuthenticationAndAuthorization else None;
     mo_CertDir := if given then metricsCertPath fl else "";
     mo_CertName := if given then metricsCertName fl else "";
     mo_KeyName := if given then metricsCertKey fl else "" |}.
Definition operator_options (fl : operator_flags) : Options :=
  {| o_Scheme := scheme Operator; o_Metrics := metricsServerOptions fl; o_WebhookServer := Some (webhookServerOptions fl);
     o_HealthProbeBindAddress := probeAddr fl; o_LeaderElection := enableLeaderElection fl;
     o_LeaderElectionID := "f733c7a3.stornas.io" |}.
(** The zero value of every option the agent leaves out. *)
Definition agent_options : Options :=
  {| o_Scheme := scheme Agent;
     o_Metrics := {| mo_BindAddress := "0"; mo_SecureServing := false; mo_TLSOpts := []; mo_FilterProvider := None;
                     mo_CertDir := ""; mo_CertName := ""; mo_KeyName := "" |};
     o_WebhookServer := None; o_HealthProbeBindAddress := ""; o_LeaderElection := false; o_LeaderElectionID := "" |}.

(** ** What the main functions do *)
(** A reconciler with the fields main gives it. *)
Inductive reader := GetClient | GetAPIReader.
Record part := { pt_controller : controller; pt_Node : string; pt_Secrets : option reader; pt_Recorder : string }.
Record ui_config := {
  ui_Addr : string; ui_Web : string; ui_Source : string; ui_SystemNamespace : string; ui_mutate : API; ui_wake : list Kind;
}.
Inductive listen_end := ErrServerClosed | ListenError (e : error).
Inductive mop : Type → Type :=
  | MArgs : mop (list string)
  | MGetenv (key : string) : mop string
  | MLog (line : string) : mop unit
  | MAddToScheme (g : scheme_group) : mop (option error)
  | MGetConfig : mop (option error)
  | MNewManager (o : Options) : mop (option error)
  | MSetup (p : part) : mop (option error)
  | MAddInventory (node : string) : mop (option error)
  | MAddCheck (name : string) : mop (option error)
  | MStart : mop (option error)
  | MInClusterConfig : mop (option error)
  | MClientConfig : mop (option error)
  | MNewForConfig (client : string) : mop (option error)
  | MApi {X : Type} (o : uop X) : mop X
  | MReflect (s : reflectorSpec) : mop unit
  | MSubscribe (kinds : list Kind) : mop unit
  | MHubRun : mop unit
  | MListen (c : ui_config) : mop listen_end.
Abbreviation mio := (prog mop).

(** [if err != nil { os.Exit(code) }] *)
Definition or_exit (code : Z) (p : mio (option error)) (q : mio Z) : mio Z :=
  let! e := p in match e with Some _ => Ret code | None => q end.
Notation "p ';@;' q" := (or_exit 1 p q) (at level 199, right associativity) : prog_scope.
(** [utilruntime.Must] panics, which ends the process with code 2. *)
Notation "'must' p 'in' q" := (or_exit 2 p q) (at level 10, p at level 100, q at level 200) : prog_scope.
Fixpoint lift {A} (p : uio A) : mio A :=
  match p with Ret a => Ret a | Op o k => Op (MApi o) (λ x, lift (k x)) end.
Definition getenv_or (key def : string) : mio string := let! v := call (MGetenv key) in Ret (envOr (λ _, v) key def).

Definition operator_part (recorder : string) (c : controller) : part :=
  {| pt_controller := c; pt_Node := ""; pt_Secrets := Some GetClient; pt_Recorder := recorder |}.
Definition agent_part (node : string) (secrets : option reader) (c : controller) : part :=
  {| pt_controller := c; pt_Node := node; pt_Secrets := secrets; pt_Recorder := "" |}.

Section Mains.
Context (lib : FlagSet) (version : string).

Definition operator_start (fl : operator_flags) : mio Z :=
  call MGetConfig ;@;
  call (MNewManager (operator_options fl)) ;@;
  call (MSetup (operator_part "stornas-operator" CStoragePool)) ;@;
  call (MSetup (operator_part "" CTarget)) ;@;
  call (MSetup (operator_part "" CShare)) ;@;
  call (MSetup (operator_part "" CLocalUser)) ;@;
  call (MSetup (operator_part "" CClaimBinder)) ;@;
  call (MSetup (operator_part "" CTierClasses)) ;@;
  call (MAddCheck "healthz") ;@;
  call (MAddCheck "readyz") ;@;
  call (MLog "Starting manager") ;;;
  (call MStart ;@; Ret 0).
Definition operator_main : mio Z :=
  must call (MAddToScheme ClientGo) in
  must call (MAddToScheme Storage) in
  must call (MAddToScheme Rdrbd) in
  let! args := call MArgs in
  match Parse (operator_flag_set ∪ lib) args ∅ with
  | HelpAsked => Ret 0
  | BadArgument _ => Ret 2
  | Parsed set _ => operator_start (operator_flags_of set)
  end.

Definition agent_main : mio Z :=
  let! node := call (MGetenv "NODE_NAME") in
  if bool_decide (node = "") then Ret 1
  else
    call (MAddToScheme ClientGo) ;@;
    call (MAddToScheme Storage) ;@;
    call MGetConfig ;@;
    call (MNewManager agent_options) ;@;
    call (MSetup (agent_part node None APool)) ;@;
    call (MSetup (agent_part node None AShare)) ;@;
    call (MSetup (agent_part "" (Some GetAPIReader) AUser)) ;@;
    call (MAddInventory node) ;@;
    call (MSetup (agent_part node (Some GetAPIReader) ATarget)) ;@;
    call (MLog ("stornas-agent " +:+ version +:+ " on node " +:+ node)) ;;;
    (call MStart ;@; Ret 0).

(** cmd/stornas *)
Definition kubeConfig : mio (option error) :=
  let! e := call MInClusterConfig in
  match e with None => Ret None | Some _ => call MClientConfig end.
Definition ui_flag_set : FlagSet := list_to_map [("addr", StringVar); ("web", StringVar)].
Definition report_bootstrap (b : error + string) : mio unit :=
  match b with
  | inl e => call (MLog ("auth bootstrap: " +:+ emsg e +:+ " (login unavailable until a LocalUser exists)"))
  | inr pw => if bool_decide (pw ≠ "") then call (MLog ("initial admin password: " +:+ pw)) else Ret tt
  end.
Definition ui_serve (addr web ns : string) : mio Z :=
  for_each specs (λ s, call (MReflect s)) ;;;
  call (MSubscribe hub_kinds) ;;;
  call MHubRun ;;;
  call (MLog ("stornas " +:+ version +:+ " listening on " +:+ addr)) ;;;
  (let! r := call (MListen {| ui_Addr := addr; ui_Web := web; ui_Source := ns; ui_SystemNamespace := ns;
                              ui_mutate := mutate ns; ui_wake := hub_kinds |}) in
   match r with ErrServerClosed => Ret 0 | ListenError _ => Ret 1 end).
Definition ui_main : mio Z :=
  let! addr := getenv_or "STORNAS_ADDR" ":8080" in
  let! web := getenv_or "STORNAS_WEB" "web/build" in
  let! args := call MArgs in
  match Parse (ui_flag_set ∪ lib) args ∅ with
  | HelpAsked => Ret 0
  | BadArgument _ => Ret 2
  | Parsed set _ =>
      kubeConfig ;@;
      call (MNewForConfig "kubernetes") ;@;
      call (MNewForConfig "dynamic") ;@;
      let! ns := getenv_or "STORNAS_NAMESPACE" "stornas-system" in
      let! b := lift (Bootstrap ns) in
      report_bootstrap b ;;;
      ui_serve (string_flag set "addr" addr) (string_flag set "web" web) ns
  end.
End Mains.

(** ** Observers *)
Definition ev_failed (e : event mop) : bool :=
  match e with
  | Ev o x =>
      match o in mop X return X → bool with
      | MAddToScheme _ | MGetConfig | MNewManager _ | MSetup _ | MAddInventory _ | MAddCheck _ | MStart
      | MClientConfig | MNewForConfig _ => λ r, match r with Some _ => true | None => false end
      | MListen _ => λ r, match r with ErrServerClosed => false | ListenError _ => true end
      | _ => λ _, false
      end x
  end.
Definition ev_group (e : event mop) : option scheme_group := match e with Ev o _ => match o with MAddToScheme g => Some g | _ => None end end.
Definition ev_options (e : event mop) : option Options := match e with Ev o _ => match o with MNewManager o => Some o | _ => None end end.
Definition ev_part (e : event mop) : option part := match e with Ev o _ => match o with MSetup p => Some p | _ => None end end.
Definition ev_inventory (e : event mop) : option string := match e with Ev o _ => match o with MAddInventory n => Some n | _ => None end end.
Definition ev_start (e : event mop) : bool := match e with Ev o _ => match o with MStart => true | _ => false end end.
Definition starts (tr : trace mop) : bool := existsb ev_start tr.

(** Nothing follows a step that failed, and the exit code tells. *)
Fixpoint fail_stop (tr : trace mop) (code : Z) : Prop :=
  match tr with
  | [] => True
  | e :: tr' => if ev_failed e then tr' = [] ∧ code ≠ 0 else fail_stop tr' code
  end.

(** The network surface a manager opens: metrics only to callers that
    authenticate unless secure serving is switched off, HTTP/2 only on request,
    given certificates only as a directory with both names. *)
Record options_safe (fl : operator_flags) (o : Options) : Prop := {
  os_filter : mo_FilterProvider (o_Metrics o) = None ↔ mo_SecureServing (o_Metrics o) = false;
  os_http2 : enableHTTP2 fl = false → ∀ opts c, opts ∈ mo_TLSOpts (o_Metrics o) :: from_option (λ x, [x]) [] (wo_TLSOpts <$> o_WebhookServer o) →
    NextProtos (configure opts c) = ["http/1.1"];
  os_leader : o_LeaderElection o = enableLeaderElection fl;
}.

(** ** The managers *)
Definition manager_main (lib : FlagSet) (version : string) (p : process) : mio Z :=
  match p with Operator => operator_main lib | Agent => agent_main version end.
Definition controllers_of (p : process) : list controller :=
  match p with Operator => operator_controllers | Agent => agent_controllers end.
Definition reader_of (p : process) : reader := if cached p KSecret then GetClient else GetAPIReader.
(** The lock of leader election is a Lease. *)
Definition lease (verb : string) : api_request :=
  {| q_verb := verb; q_group := "coordination.k8s.io"; q_resource := "leases"; q_namespace := system_namespace |}.
(** What the command line and the environment decide. *)
Definition configured (lib : FlagSet) (p : process) (tr : trace mop) : Prop :=
  match p with
  | Operator => ∃ args set rest, Ev MArgs args ∈ tr ∧ Parse (operator_flag_set ∪ lib) args ∅ = Parsed set rest ∧
      omap ev_options tr = [operator_options (operator_flags_of set)] ∧
      options_safe (operator_flags_of set) (operator_options (operator_flags_of set)) ∧
      Forall (λ verb, granted operator_manifest (lease verb) = true) ["get"; "create"; "update"]
  | Agent => ∃ node, node ≠ "" ∧ Ev (MGetenv "NODE_NAME") node ∈ tr ∧ omap ev_inventory tr = [node] ∧
      Forall (λ x, pt_controller x ≠ AUser → pt_Node x = node) (omap ev_part tr) ∧
      ∃ o, omap ev_options tr = [o] ∧ o_LeaderElection o = false ∧ mo_BindAddress (o_Metrics o) = "0"
  end.
Definition complete (lib : FlagSet) (p : process) (tr : trace mop) : Prop :=
  omap ev_group tr = scheme p ∧ (o_Scheme <$> omap ev_options tr) = [scheme p] ∧
  pt_controller <$> omap ev_part tr = controllers_of p ∧
  Forall (λ x, (AGet, KSecret) ∈ api_use (pt_controller x) → pt_Secrets x = Some (reader_of p)) (omap ev_part tr) ∧
  configured lib p tr.

Lemma operator_options_safe fl : options_safe fl (operator_options fl).
Proof.
  split; cbn; [by destruct (secureMetrics fl)| |done]. unfold tlsOpts. intros -> opts c. cbn.
  intros [->|[->|[]%elem_of_nil]%elem_of_cons]%elem_of_cons; done.
Qed.

Definition startup_ok (lib : FlagSet) (p : process) (tr : trace mop) (code : Z) : Prop :=
  fail_stop tr code ∧ (starts tr = true → complete lib p tr).
(** Each check a main function makes: it failed and this is the end, or the next. *)
Ltac main_go := repeat (intros [?|]; [split; [by repeat split|done]|]; cbn [wp bind call or_exit]).
Lemma wp_operator_start lib fl args set rest :
  Parse (operator_flag_set ∪ lib) args ∅ = Parsed set rest → fl = operator_flags_of set →
  wp (operator_start fl) (λ tr code,
    startup_ok lib Operator (Ev (MAddToScheme ClientGo) None :: Ev (MAddToScheme Storage) None ::
      Ev (MAddToScheme Rdrbd) None :: Ev MArgs args :: tr) code).
Proof.
  intros Hp ->. unfold operator_start. cbn [wp bind call or_exit]. main_go. intros []. cbn [wp bind call or_exit].
  intros r. assert (∀ code, (r = None → code = 0) → (is_Some r → code = 1) → startup_ok lib Operator
    [Ev (MAddToScheme ClientGo) None; Ev (MAddToScheme Storage) None; Ev (MAddToScheme Rdrbd) None; Ev MArgs args;
     Ev MGetConfig None; Ev (MNewManager (operator_options (operator_flags_of set))) None;
     Ev (MSetup (operator_part "stornas-operator" CStoragePool)) None; Ev (MSetup (operator_part "" CTarget)) None;
     Ev (MSetup (operator_part "" CShare)) None; Ev (MSetup (operator_part "" CLocalUser)) None;
     Ev (MSetup (operator_part "" CClaimBinder)) None; Ev (MSetup (operator_part "" CTierClasses)) None;
     Ev (MAddCheck "healthz") None; Ev (MAddCheck "readyz") None; Ev (MLog "Starting manager") (); Ev MStart r] code) as Hgo.
  { intros code H0 H1. split; [|intros _].
    - cbn. destruct r as [e|]; [|done]. split; [done|]. by rewrite (H1 (mk_is_Some _ _ eq_refl)).
    - unfold complete. split_and!; [done..|repeat constructor|].
      exists args, set, rest. split_and!; [set_solver|done|done|apply operator_options_safe|].
      repeat constructor. }
  destruct r as [e|]; apply Hgo; done || by intros [].
Qed.
Lemma wp_operator_main lib : wp (operator_main lib) (startup_ok lib Operator).
Proof.
  unfold operator_main. cbn [wp bind call or_exit]. main_go. intros args.
  destruct (Parse _ args ∅) as [set rest| |arg] eqn:E; [|split; done..]. cbn [wp]. by eapply wp_operator_start.
Qed.
Lemma wp_agent_main lib version : wp (agent_main version) (startup_ok lib Agent).
Proof.
  unfold agent_main. cbn [wp bind call]. intros node. case_bool_decide as Hn; [split; done|].
  cbn [wp bind call or_exit]. main_go. intros []. cbn [wp bind call or_exit]. intros r.
  assert (∀ code, (is_Some r → code = 1) → startup_ok lib Agent
    [Ev (MGetenv "NODE_NAME") node; Ev (MAddToScheme ClientGo) None; Ev (MAddToScheme Storage) None; Ev MGetConfig None;
     Ev (MNewManager agent_options) None; Ev (MSetup (agent_part node None APool)) None;
     Ev (MSetup (agent_part node None AShare)) None; Ev (MSetup (agent_part "" (Some GetAPIReader) AUser)) None;
     Ev (MAddInventory node) None; Ev (MSetup (agent_part node (Some GetAPIReader) ATarget)) None;
     Ev (MLog ("stornas-agent " +:+ version +:+ " on node " +:+ node)) (); Ev MStart r] code) as Hgo.
  { intros code H1. split; [|intros _].
    - cbn. destruct r as [e|]; [|done]. split; [done|]. by rewrite (H1 (mk_is_Some _ _ eq_refl)).
    - unfold complete. split_and!; [done..| |].
      + cbn. repeat constructor; cbn; intros Hin; try done; set_solver.
      + exists node. split_and!; [done|set_solver|done|by repeat constructor|]. by exists agent_options. }
  destruct r as [e|]; apply Hgo; done || by intros [].
Qed.

(** C17: A manager starts whole or not at all.  In any run of the operator's or
    the agent's main function nothing follows a step that failed, and the exit
    code is then not 0.  If the manager is started, every API group of the
    process's scheme was registered and given to it, every reconciler of the
    process was set up, once, in order and without error, with the Secrets
    reader its role allows for.  The operator's options are those of its command
    line: metrics without the authenticating filter only when secure serving is
    switched off, HTTP/2 disabled on every server unless asked for, leader
    election as asked for and its Lease within the deployed role.  An agent has
    a node name, and its reconcilers and its inventory act for that node,
    without leader election and without a metrics endpoint. *)
Theorem manager_starts_whole lib version p tr code :
  runs (manager_main lib version p) tr code →
  fail_stop tr code ∧ (starts tr = true → complete lib p tr).
Proof. destruct p; intros Hr; eapply wp_runs in Hr; [exact Hr|apply wp_operator_main|exact Hr|apply wp_agent_main]. Qed.

(** ** The UI server *)
Definition ev_api (e : event mop) : option (event uop) :=
  match e with Ev o x => match o in mop X return X → _ with MApi o => λ x, Some (Ev o x) | _ => λ _, None end x end.
Definition ev_reflect (e : event mop) : option reflectorSpec := match e with Ev o _ => match o with MReflect s => Some s | _ => None end end.
Definition ev_subscribe (e : event mop) : option (list Kind) := match e with Ev o _ => match o with MSubscribe l => Some l | _ => None end end.
Definition ev_listen (e : event mop) : option ui_config := match e with Ev o _ => match o with MListen c => Some c | _ => None end end.
Definition ev_log (e : event mop) : option string := match e with Ev o _ => match o with MLog s => Some s | _ => None end end.
Definition lift_trace (tr : trace uop) : trace mop := (λ e, match e with Ev o x => Ev (MApi o) x end) <$> tr.

Lemma wp_lift {A} (p : uio A) Q : wp p Q → wp (lift p) (λ tr a, ∃ bt, tr = lift_trace bt ∧ Q bt a).
Proof.
  revert Q. induction p as [a|X o k IH]; cbn; intros Q HQ; [by exists []|]. intros x. eapply wp_mono; [apply IH, HQ|].
  intros tr a (bt & -> & Hb). by exists (Ev o x :: bt).
Qed.
Lemma lift_api bt : omap ev_api (lift_trace bt) = bt.
Proof. induction bt as [|[X o x] bt IH]; [done|]. cbn. by f_equal. Qed.
Lemma lift_silent {B} (f : event mop → option B) bt : (∀ X (o : uop X) x, f (Ev (MApi o) x) = None) → omap f (lift_trace bt) = [].
Proof. intros Hf. induction bt as [|[X o x] bt IH]; [done|]. cbn. by rewrite Hf. Qed.
Lemma lift_fail_stop bt tr code : fail_stop (lift_trace bt ++ tr) code = fail_stop tr code.
Proof. induction bt as [|[X o x] bt IH]; done. Qed.

(** A password is handed out when there was no user; the Secret and the user
    were created, or existed. *)
Definition first_boot (ns pw : string) (bt : trace uop) : Prop :=
  Ev (UList UUser ns) (inr []) ∈ bt ∧ ∃ e1 e2, tolerated e1 = true ∧ tolerated e2 = true ∧
    Ev (UCreate USecret (bootstrap_secret ns pw)) e1 ∈ bt ∧ Ev (UCreate UUser (bootstrap_admin ns)) e2 ∈ bt.
Lemma wp_Bootstrap ns :
  wp (Bootstrap ns) (λ bt r, ∀ pw, r = inr pw → pw ≠ "" → first_boot ns pw bt).
Proof.
  unfold Bootstrap. cbn [wp bind call]. intros [e|[|u l]]; cbn; [done| |by intros pw [= <-]].
  intros pw e1. destruct (tolerated e1) eqn:E1; cbn; [|done]. intros e2. destruct (tolerated e2) eqn:E2; cbn; [|done].
  intros pw' [= <-] _. split; [set_solver|]. exists e1, e2. split_and!; set_solver.
Qed.

Record ui_ready (lib : FlagSet) (tr : trace mop) (cfg : ui_config) : Prop := {
  ur_flags : ∃ args set rest va vw, Ev MArgs args ∈ tr ∧ Parse (ui_flag_set ∪ lib) args ∅ = Parsed set rest ∧
    Ev (MGetenv "STORNAS_ADDR") va ∈ tr ∧ ui_Addr cfg = string_flag set "addr" (envOr (λ _, va) "STORNAS_ADDR" ":8080") ∧
    Ev (MGetenv "STORNAS_WEB") vw ∈ tr ∧ ui_Web cfg = string_flag set "web" (envOr (λ _, vw) "STORNAS_WEB" "web/build");
  ur_namespace : ∃ v, Ev (MGetenv "STORNAS_NAMESPACE") v ∈ tr ∧ ui_Source cfg = envOr (λ _, v) "STORNAS_NAMESPACE" system_namespace;
  ur_one_namespace : ui_SystemNamespace cfg = ui_Source cfg ∧ a_Namespace (ui_mutate cfg) = ui_Source cfg;
  ur_bootstrap : ∃ b, runs (Bootstrap (ui_Source cfg)) (omap ev_api tr) b;
  ur_reflectors : omap ev_reflect tr = specs;
  ur_hub : omap ev_subscribe tr = [ui_wake cfg] ∧ ui_wake cfg = hub_kinds;
}.
Definition password_line (pw : string) : string := "initial admin password: " +:+ pw.
Definition ui_startup (lib : FlagSet) (tr : trace mop) (code : Z) : Prop :=
  fail_stop tr code ∧ Forall (ui_ready lib tr) (omap ev_listen tr) ∧
  (omap ev_api tr ≠ [] → length (omap ev_listen tr) = 1%nat) ∧
  (∀ pw, password_line pw ∈ omap ev_log tr → ∃ ns, first_boot ns pw (omap ev_api tr)).

(** What follows the bootstrap, and a trace around it. *)
Definition serve_trace (version : string) (cfg : ui_config) (r : listen_end) : trace mop :=
  ((λ s, Ev (MReflect s) ()) <$> specs) ++
  [Ev (MSubscribe hub_kinds) (); Ev MHubRun (); Ev (MLog ("stornas " +:+ version +:+ " listening on " +:+ ui_Addr cfg)) (); Ev (MListen cfg) r].
Definition listen_code (r : listen_end) : Z := match r with ErrServerClosed => 0 | ListenError _ => 1 end.
Definition ui_config_of (addr web ns : string) : ui_config :=
  {| ui_Addr := addr; ui_Web := web; ui_Source := ns; ui_SystemNamespace := ns; ui_mutate := mutate ns; ui_wake := hub_kinds |}.
Lemma wp_ui_serve version addr web ns :
  wp (ui_serve version addr web ns) (λ tr code, ∃ r, tr = serve_trace version (ui_config_of addr web ns) r ∧ code = listen_code r).
Proof.
  unfold ui_serve, serve_trace. set (l := specs). assert (∀ P : trace mop → unit → Prop, P ((λ s, Ev (MReflect s) ()) <$> l) () →
    wp (for_each l (λ s, call (MReflect s))) P) as Hl.
  { clear. induction l as [|s l IH]; intros P HP; [done|]. cbn. intros []. by apply IH. }
  apply wp_bind, Hl. clear Hl. cbn [wp bind call]. intros [] [] [] [|e]; [by exists ErrServerClosed|by exists (ListenError e)].
Qed.

(** The steps before the namespace is read: nothing to report in them. *)
Definition quiet_step (e : event mop) : bool :=
  negb (ev_failed e) && bool_decide (ev_api e = None ∧ ev_listen e = None ∧ ev_log e = None ∧ ev_reflect e = None ∧ ev_subscribe e = None).
Lemma quiet_silent pre : Forall (λ e, quiet_step e = true) pre →
  omap ev_api pre = [] ∧ omap ev_listen pre = [] ∧ omap ev_log pre = [] ∧ omap ev_reflect pre = [] ∧ omap ev_subscribe pre = [].
Proof.
  induction 1 as [|e pre He _ (IH1 & IH2 & IH3 & IH4 & IH5)]; [done|]. unfold quiet_step in He.
  apply andb_true_iff in He as [_ (E1 & E2 & E3 & E4 & E5)%bool_decide_eq_true_1]. cbn. by rewrite E1, E2, E3, E4, E5.
Qed.
Lemma quiet_fail_stop pre tr code : Forall (λ e, quiet_step e = true) pre → fail_stop (pre ++ tr) code = fail_stop tr code.
Proof.
  induction 1 as [|e pre He _ IH]; [done|]. unfold quiet_step in He. apply andb_true_iff in He as [He%negb_true_iff _]. cbn. by rewrite He.
Qed.
Definition report_trace (b : error + string) : trace mop :=
  match b with
  | inl e => [Ev (MLog ("auth bootstrap: " +:+ emsg e +:+ " (login unavailable until a LocalUser exists)")) ()]
  | inr pw => if bool_decide (pw ≠ "") then [Ev (MLog (password_line pw)) ()] else []
  end.
Lemma wp_report b : wp (report_bootstrap b) (λ tr _, tr = report_trace b).
Proof. destruct b as [e|pw]; cbn; [by intros []|]. case_bool_decide; cbn; [by intros []|done]. Qed.
Lemma report_silent b : omap ev_api (report_trace b) = [] ∧ omap ev_listen (report_trace b) = [] ∧
  omap ev_reflect (report_trace b) = [] ∧ omap ev_subscribe (report_trace b) = [] ∧ ∀ tr code, fail_stop (report_trace b ++ tr) code = fail_stop tr code.
Proof. destruct b as [e|pw]; cbn; [done|]. by case_bool_decide. Qed.
Lemma password_line_logged b pw : password_line pw ∈ omap ev_log (report_trace b) → b = inr pw ∧ pw ≠ "".
Proof.
  destruct b as [e|pw']; cbn; [|case_bool_decide; cbn].
  - by intros [[=]|[]%elem_of_nil]%elem_of_cons.
  - intros [E|[]%elem_of_nil]%elem_of_cons. unfold password_line in E. by simplify_eq.
  - by intros ?%elem_of_nil.
Qed.
Lemma serve_silent version cfg r :
  omap ev_api (serve_trace version cfg r) = [] ∧ omap ev_listen (serve_trace version cfg r) = [cfg] ∧
  omap ev_reflect (serve_trace version cfg r) = specs ∧ omap ev_subscribe (serve_trace version cfg r) = [hub_kinds] ∧
  omap ev_log (serve_trace version cfg r) = ["stornas " +:+ version +:+ " listening on " +:+ ui_Addr cfg] ∧
  fail_stop (serve_trace version cfg r) (listen_code r).
Proof. split_and!; [done..|]. by destruct r. Qed.
Lemma Bootstrap_asks ns bt b : runs (Bootstrap ns) bt b → bt ≠ [].
Proof. unfold Bootstrap. cbn. inversion 1. done. Qed.

Lemma ui_trace_ok lib version pre ns bt b addr web r :
  Forall (λ e, quiet_step e = true) pre → runs (Bootstrap ns) bt b →
  (∀ tr, (∃ b, runs (Bootstrap ns) (omap ev_api tr) b) → omap ev_reflect tr = specs → omap ev_subscribe tr = [hub_kinds] →
     ui_ready lib (pre ++ tr) (ui_config_of addr web ns)) →
  ui_startup lib (pre ++ lift_trace bt ++ report_trace b ++ serve_trace version (ui_config_of addr web ns) r) (listen_code r).
Proof.
  intros Hpre Hb Hready. destruct (quiet_silent pre Hpre) as (P1 & P2 & P3 & P4 & P5).
  destruct (report_silent b) as (R1 & R2 & R3 & R4 & R5).
  destruct (serve_silent version (ui_config_of addr web ns) r) as (S1 & S2 & S3 & S4 & S5 & S6).
  unfold ui_startup. rewrite (quiet_fail_stop _ _ _ Hpre), lift_fail_stop, R5, !omap_app, P1, P2, P3, R1, R2, S1, S2, S5, lift_api,
    !lift_silent by done. split_and!; [done| |done|].
  - apply Forall_singleton, Hready; rewrite !omap_app, ?R1, ?R3, ?R4, ?S1, ?S3, ?S4, ?lift_api, ?lift_silent, ?app_nil_r by done; [|done..].
    by exists b.
  - cbn [app]. rewrite app_nil_r. intros pw [Hpw|Hpw]%elem_of_app; [|by apply list_elem_of_singleton in Hpw].
    apply password_line_logged in Hpw as [-> Hpw]. exists ns. exact (wp_runs _ _ _ _ (wp_Bootstrap ns) Hb pw eq_refl Hpw).
Qed.
Lemma ui_early lib pre code : omap ev_api pre = [] → omap ev_listen pre = [] → omap ev_log pre = [] → fail_stop pre code →
  ui_startup lib pre code.
Proof. unfold ui_startup. intros -> -> -> Hf. split_and!; [done|constructor|done|]. by intros pw ?%elem_of_nil. Qed.

Lemma wp_boot_serve version pre addr web ns (Q : trace mop → Z → Prop) :
  (∀ bt b r, runs (Bootstrap ns) bt b →
     Q (pre ++ lift_trace bt ++ report_trace b ++ serve_trace version (ui_config_of addr web ns) r) (listen_code r)) →
  wp (let! b := lift (Bootstrap ns) in report_bootstrap b ;;; ui_serve version addr web ns) (λ tr code, Q (pre ++ tr) code).
Proof.
  intros HQ. apply wp_bind. eapply wp_mono; [apply wp_lift, runs_wp; intros bt b Hb; exact Hb|].
  intros tr b (bt & -> & Hb). cbn. apply wp_bind. eapply wp_mono; [apply wp_report|]. intros tr' [] ->. cbn beta.
  eapply wp_mono; [apply wp_ui_serve|]. cbn beta. intros tr'' code (r & -> & ->). by apply HQ.
Qed.
Abbreviation env_addr va := (envOr (λ _, va) "STORNAS_ADDR" ":8080").
Abbreviation env_web vw := (envOr (λ _, vw) "STORNAS_WEB" "web/build").
Abbreviation env_ns vn := (envOr (λ _, vn) "STORNAS_NAMESPACE" "stornas-system").
(** From the clients on, after any way to a configuration. *)
Lemma wp_clients lib version pre va vw args set rest :
  Forall (λ e, quiet_step e = true) pre →
  Ev (MGetenv "STORNAS_ADDR") va ∈ pre → Ev (MGetenv "STORNAS_WEB") vw ∈ pre → Ev MArgs args ∈ pre →
  Parse (ui_flag_set ∪ lib) args ∅ = Parsed set rest →
  wp (call (MNewForConfig "kubernetes") ;@; call (MNewForConfig "dynamic") ;@;
      Op (MGetenv "STORNAS_NAMESPACE") (λ vn, let! b := lift (Bootstrap (env_ns vn)) in report_bootstrap b ;;;
        ui_serve version (string_flag set "addr" (env_addr va)) (string_flag set "web" (env_web vw)) (env_ns vn)))
    (λ tr code, ui_startup lib (pre ++ tr) code).
Proof.
  intros Hpre Ha Hw Hargs Hp. destruct (quiet_silent pre Hpre) as (P1 & P2 & P3 & _ & _).
  assert (∀ l code, omap ev_api l = [] → omap ev_listen l = [] → omap ev_log l = [] → fail_stop l code → ui_startup lib (pre ++ l) code) as He.
  { intros l code E1 E2 E3 E4. apply ui_early; rewrite ?omap_app, ?P1, ?P2, ?P3; [done..|]. by rewrite quiet_fail_stop. }
  cbn [wp bind call or_exit]. intros [e|]; [by apply He|]. cbn [wp bind call or_exit]. intros [e|]; [by apply He|].
  cbn [wp]. intros vn.
  set (l := [Ev (MNewForConfig "kubernetes") None; Ev (MNewForConfig "dynamic") None; Ev (MGetenv "STORNAS_NAMESPACE") vn]).
  eapply wp_mono; [apply (wp_boot_serve version (pre ++ l)); intros bt b r Hb; apply ui_trace_ok; [|exact Hb|]|].
  - apply Forall_app. split; [done|]. repeat constructor.
  - intros tr Hb' Hr Hs. destruct (quiet_silent l ltac:(repeat constructor)) as (L1 & _ & _ & L4 & L5).
    destruct (quiet_silent pre Hpre) as (_ & _ & _ & P4 & P5). split; cbn [ui_Addr ui_Web ui_Source ui_SystemNamespace ui_mutate ui_wake ui_config_of];
      rewrite ?omap_app, ?P1, ?P4, ?P5, ?L1, ?L4, ?L5; try done.
    + exists args, set, rest, va, vw. split_and!; set_solver.
    + exists vn. split; [set_solver|done].
  - intros tr code. cbn beta. by rewrite <- app_assoc.
Qed.
Lemma wp_ui_main lib version : wp (ui_main lib version) (ui_startup lib).
Proof.
  unfold ui_main, getenv_or, kubeConfig. cbn [wp bind call]. intros va vw args.
  destruct (Parse _ args ∅) as [set rest| |arg] eqn:E; [|by apply ui_early..].
  unfold or_exit at 1. cbn [bind wp]. intros [e|]; cbn [bind wp call].
  - intros [e'|]; [by apply ui_early|].
    apply (wp_clients lib version [Ev (MGetenv "STORNAS_ADDR") va; Ev (MGetenv "STORNAS_WEB") vw; Ev MArgs args;
      Ev MInClusterConfig (Some e); Ev MClientConfig None] va vw args set rest); [by repeat constructor|set_solver..|done].
  - apply (wp_clients lib version [Ev (MGetenv "STORNAS_ADDR") va; Ev (MGetenv "STORNAS_WEB") vw; Ev MArgs args;
      Ev MInClusterConfig None] va vw args set rest); [by repeat constructor|set_solver..|done].
Qed.

(** C40: The UI server comes up as one system.  In any run of its main function
    nothing follows a step that failed, and the exit code is then not 0.  When
    it listens, it does so on the address of the flag, else of the environment,
    else :8080; sessions, frames and mutations share one namespace, the system
    namespace unless the environment names another, and the bootstrap ran
    there; all nine reflectors run, and the hub was subscribed before to every
    kind of change.  A bootstrap that ran, whatever its outcome, is followed by
    the listener.  A password is logged only when no user existed, and the
    Secret with it was created then, or one existed already. *)
Theorem ui_comes_up lib version tr code :
  runs (ui_main lib version) tr code →
  fail_stop tr code ∧ Forall (ui_ready lib tr) (omap ev_listen tr) ∧
  (omap ev_api tr ≠ [] → length (omap ev_listen tr) = 1%nat) ∧
  (∀ pw, password_line pw ∈ omap ev_log tr → ∃ ns, first_boot ns pw (omap ev_api tr)).
Proof. exact (wp_runs _ _ _ _ (wp_ui_main lib version)). Qed.

(** ** Witnesses: everything answers without error *)
Definition calm (args : list string) (getenv : string → string) (h : env uop unit) : env mop unit := λ X o s,
  match o in mop X return X * unit with
  | MArgs => (args, s)
  | MGetenv key => (getenv key, s)
  | MApi o => h _ o s
  | MListen _ => (ErrServerClosed, s)
  | MLog _ | MReflect _ | MSubscribe _ | MHubRun => (tt, s)
  | MAddToScheme _ | MGetConfig | MNewManager _ | MSetup _ | MAddInventory _ | MAddCheck _ | MStart
  | MInClusterConfig | MClientConfig | MNewForConfig _ => (None, s)
  end.
(** image/manifests/stornas/operator.yaml starts the operator with this argument. *)
Definition deployed_run := run (calm ["--leader-elect"] (λ _, "") (uenv (λ _ _ _, inl (errorf "")) (λ _ _, inr []) None)) (operator_main ∅) tt.
Lemma manager_starts_whole_witness :
  starts deployed_run.1.2 = true ∧ complete ∅ Operator deployed_run.1.2 ∧
  (o_LeaderElection <$> omap ev_options deployed_run.1.2) = [true].
Proof.
  split; [vm_compute; reflexivity|]. split; [|vm_compute; reflexivity].
  refine (proj2 (manager_starts_whole ∅ "dev" Operator deployed_run.1.2 deployed_run.1.1 _) _); [apply run_runs|vm_compute; reflexivity].
Defined.
Definition first_run := run (calm [] (λ _, "") (uenv (λ _ _ _, inl (errorf "")) (λ _ _, inr []) None)) (ui_main ∅ "dev") tt.
Lemma ui_comes_up_witness :
  Forall (ui_ready ∅ first_run.1.2) (omap ev_listen first_run.1.2) ∧
  (ui_Source <$> omap ev_listen first_run.1.2) = [system_namespace] ∧
  ∃ ns, first_boot ns "t" (omap ev_api first_run.1.2).
Proof.
  pose proof (ui_comes_up ∅ "dev" first_run.1.2 first_run.1.1 (run_runs _ _ _)) as (_ & Hl & _ & Hpw).
  split; [exact Hl|]. split; [vm_compute; reflexivity|]. apply Hpw. apply (bool_decide_unpack _). vm_compute. exact I.
Defined.

(** ** A password that opens nothing

    The Secret exists, the first user does not: a start that created the one
    and failed at the other.  The next start logs a password it did not store. *)
Record store := { st_secret : option Secret; st_user : option LocalUser; st_draws : nat; st_refuse : bool }.
Definition store_env : env uop store := λ X o s,
  match o in uop X return X * store with
  | UGet UUser _ _ => (match st_user s with Some u => inr u | None => inl (Err "not found" KNotFound) end, s)
  | UGet USecret _ _ => (match st_secret s with Some u => inr u | None => inl (Err "not found" KNotFound) end, s)
  | UGet _ _ _ => (inl (Err "not found" KNotFound), s)
  | UList UUser _ => (inr (from_option (λ u, [u]) [] (st_user s)), s)
  | UList _ _ => (inr [], s)
  | UCreate USecret x =>
      match st_secret s with
      | Some _ => (Some (Err "exists" KAlreadyExists), s)
      | None => (None, {| st_secret := Some x; st_user := st_user s; st_draws := st_draws s; st_refuse := st_refuse s |})
      end
  | UCreate UUser x =>
      if st_refuse s then (Some (errorf "unavailable"), {| st_secret := st_secret s; st_user := st_user s; st_draws := st_draws s; st_refuse := false |})
      else (None, {| st_secret := st_secret s; st_user := Some x; st_draws := st_draws s; st_refuse := false |})
  | UCreate _ _ | UUpdate _ _ | UDelete _ _ _ | UPatch _ _ _ _ => (None, s)
  | UNow => (0, s)
  | URandText => ("pw" +:+ pretty (st_draws s), {| st_secret := st_secret s; st_user := st_user s; st_draws := S (st_draws s); st_refuse := st_refuse s |})
  | USleep _ | URecord _ => (tt, s)
  end.
Definition boot (s : store) := run store_env (Bootstrap system_namespace) s.
Definition interrupted : store := (boot {| st_secret := None; st_user := None; st_draws := 0; st_refuse := true |}).2.
Lemma logged_password_refused :
  (boot interrupted).1.1 = inr "pw1" ∧
  (run store_env (@Login (KubeSource system_namespace) ∅ true (inr ("admin", "pw1"))) (boot interrupted).2).1.1.1.2 =
    HttpError StatusUnauthorized "invalid credentials".
Proof. split; vm_compute; reflexivity. Qed.
