(* ===== verification/ClusterState.v ===== *)
(** * internal/clusterstate: the frame the UI shows

    [Snapshot] scans the indexers and builds one frame; model.go has the wire
    types, replication.go the replica view.  An indexer is the list of its
    objects in the order [List] returned them, which changes from call to
    call; an unstructured object carries the outcome of its conversion. *)

From S2P Require Import Prelude GoStrings ApiTypes Effects Demo Ui Api Tasks.
Open Scope Z_scope.

(** [time.Format(time.RFC3339)] on UTC. *)
Class TimeFormat := { RFC3339 : Z → string }.

(** ** What the indexers hold *)
Record ClusterNode := {
  cn_meta : ObjectMeta; cn_KubeletVersion : string; cn_Conditions : list NodeCondition;
  cn_Addresses : list (string * string);
}.
Record PVC := {
  pc_meta : ObjectMeta; pc_Phase : string; pc_VolumeMode : option string; pc_VolumeName : string;
  pc_StorageClassName : option string; pc_Capacity : option Z; pc_Request : option Z;
}.
Record EventSeries := { es_Count : Z; es_LastObservedTime : option Z }.
Record Event := {
  evt_Namespace : string; evt_Kind : string; evt_Name : string; evt_Reason : string; evt_Message : string;
  evt_Count : Z; evt_LastTimestamp : option Z; evt_EventTime : option Z; evt_Series : option EventSeries;
}.

(** ** model.go *)
Record mDevice := { md_Path : string; md_State : string; md_Smart : string }.
Record mPool := {
  mp_Name : string; mp_Node : string; mp_Raid : string; mp_Tier : string; mp_Devices : list mDevice; mp_VG : string;
  mp_CapacityBytes : Z; mp_FreeBytes : Z; mp_Health : string; mp_RebuildPercent : option Z;
  mp_Available : bool; mp_Reason : string;
}.
Record mDisk := {
  mk_Path : string; mk_Model : string; mk_Serial : string; mk_SizeBytes : Z; mk_Rotational : bool; mk_Claimed : bool;
  mk_Smart : string; mk_TempCelsius : option Z; mk_PowerOnHours : option Z;
}.
Record mNode := {
  mn_Name : string; mn_Ready : bool; mn_Roles : list string; mn_Addresses : list string;
  mn_KubeletVersion : string; mn_Disks : list mDisk;
}.
Record mPeer := { me_Node : string; me_Connected : bool; me_Status : string }.
Record mReplica := {
  mr_Node : string; mr_DiskState : string; mr_InUse : bool; mr_SyncPercent : option Z; mr_Peers : list mPeer;
}.
Record mPeerUnreachable := { mu_Reason : string; mu_Message : string }.
Record mReplication := { ml_Replicas : list mReplica; ml_SplitBrain : bool; ml_PeerUnreachable : option mPeerUnreachable }.
Record mVolume := {
  mv_Namespace : string; mv_Name : string; mv_StorageClass : string; mv_Phase : string; mv_CapacityBytes : Z;
  mv_Block : bool; mv_Resource : string; mv_Replication : option mReplication;
}.
Record mShare := {
  ms_Namespace : string; ms_Name : string; ms_Claim : string; ms_NFS : bool; ms_SMB : bool; ms_Node : string;
  ms_State : string; ms_Available : bool; ms_Reason : string;
}.
Record mTargetLUN := { mt_ID : Z; mt_Claim : string; mt_Device : string }.
Record mTarget := {
  mt_Namespace : string; mt_Name : string; mt_IQN : string; mt_VIP : string; mt_ActiveNode : string; mt_Sessions : Z;
  mt_State : string; mt_LUNs : list mTargetLUN; mt_Available : bool; mt_Reason : string;
}.
Record mSnapshot := {
  mz_Namespace : string; mz_Name : string; mz_Source : string; mz_Ready : bool; mz_SizeBytes : Z; mz_CreatedAt : string;
}.
Record mAlert := {
  ma_Namespace : string; ma_Object : string; ma_Reason : string; ma_Message : string; ma_Count : Z; ma_LastSeen : string;
}.
Record mTask := { mo_Verb : string; mo_Object : string; mo_By : string; mo_OK : bool; mo_At : string }.
Record Frame := {
  fr_SystemNamespace : string; fr_Pools : list mPool; fr_Nodes : list mNode; fr_Volumes : list mVolume;
  fr_Shares : list mShare; fr_Targets : list mTarget; fr_Snapshots : list mSnapshot; fr_Alerts : list mAlert;
  fr_Tasks : list mTask;
}.

Record State := {
  st_pools : list (error + StoragePool);
  st_shares : list (error + Share);
  st_inventories : list (error + NodeInventory);
  st_targets : list (error + Target);
  st_snapshots : list VolumeSnapshot;
  st_backing : list (error + Volume);
  st_nodes : list ClusterNode;
  st_pvcs : list PVC;
  st_events : list Event;
  SystemNamespace : string;
}.

(** The objects whose conversion succeeded. *)
Definition converted {A} (l : list (error + A)) : list A := omap (λ r, match r with inr x => Some x | inl _ => None end) l.
Definition orElse (s def : string) : string := if bool_decide (s = "") then def else s.

(** The last Available condition of the list decides. *)
Definition available (cs : list Condition) : bool * string :=
  foldl (λ acc c, if bool_decide (c_Type c = ConditionAvailable)
                  then (bool_decide (c_Status c = ConditionTrue), c_Reason c) else acc) (false, "") cs.

Definition poolModel (p : StoragePool) : mPool :=
  let observed : gmap string DeviceStatus := foldl (λ m d, <[ds_Path d := d]> m) ∅ (sp_StatusDevices (sp_status p)) in
  let av := available (sp_conds p) in
  {| mp_Name := Name (sp_meta p); mp_Node := sp_Node (sp_spec p); mp_Raid := sp_Raid (sp_spec p); mp_Tier := sp_Tier (sp_spec p);
     mp_Devices := (λ path, match observed !! path with
                            | Some d => {| md_Path := path; md_State := ds_State d; md_Smart := ds_Smart d |}
                            | None => {| md_Path := path; md_State := ""; md_Smart := "" |}
                            end) <$> sp_Devices (sp_spec p);
     mp_VG := sp_VG (sp_status p);
     mp_CapacityBytes := default 0 (sp_Capacity (sp_status p)); mp_FreeBytes := default 0 (sp_Free (sp_status p));
     mp_Health := orElse (sp_Health (sp_status p)) "Unknown"; mp_RebuildPercent := sp_RebuildPercent (sp_status p);
     mp_Available := av.1; mp_Reason := av.2 |}.

Definition shareModel (s : Share) : mShare :=
  let av := available (sh_Conditions s) in
  {| ms_Namespace := Namespace (sh_meta s); ms_Name := Name (sh_meta s); ms_Claim := sh_ClaimName s;
     ms_NFS := bool_decide (is_Some (sh_NFS s)); ms_SMB := bool_decide (is_Some (sh_SMB s)); ms_Node := sh_Node s;
     ms_State := orElse (sh_State s) "Pending"; ms_Available := av.1; ms_Reason := av.2 |}.

Definition targetModel (t : Target) : mTarget :=
  let resolved : gmap Z string := foldl (λ m l, <[ls_ID l := ls_Device l]> m) ∅ (t_StatusLUNs t) in
  let av := available (t_Conditions t) in
  {| mt_Namespace := Namespace (t_meta t); mt_Name := Name (t_meta t); mt_IQN := t_IQN t; mt_VIP := t_VIP t;
     mt_ActiveNode := t_ActiveNode t; mt_Sessions := t_Sessions t; mt_State := orElse (t_State t) "Pending";
     mt_LUNs := (λ l, {| mt_ID := lun_ID l; mt_Claim := lun_ClaimName l; mt_Device := default "" (resolved !! lun_ID l) |}) <$> t_LUNs t;
     mt_Available := av.1; mt_Reason := av.2 |}.

Definition diskModel (d : Disk) : mDisk :=
  {| mk_Path := dk_Path d; mk_Model := dk_Model d; mk_Serial := dk_Serial d; mk_SizeBytes := default 0 (dk_Size d);
     mk_Rotational := dk_Rotational d; mk_Claimed := dk_Claimed d; mk_Smart := dk_Smart d;
     mk_TempCelsius := dk_TempCelsius d; mk_PowerOnHours := dk_PowerOnHours d |}.
(** The synthetic alert of a failing disk. *)
Definition smartAlert (node : string) (d : Disk) : mAlert :=
  {| ma_Namespace := ""; ma_Object := "Disk/" +:+ node +:+ ":" +:+ dk_Path d; ma_Reason := "SmartFailed";
     ma_Message := "SMART health check failed on " +:+ node +:+ " (" +:+ dk_Path d +:+ "); replace the disk";
     ma_Count := 1; ma_LastSeen := "" |}.
Definition inventory_alerts (inv : NodeInventory) : list mAlert :=
  smartAlert (Name (inv_meta inv)) <$> filter (λ d, dk_Smart d = "Failed") (inv_Disks inv).
Definition disks_by_node (invs : list NodeInventory) : gmap string (list mDisk) :=
  foldl (λ m inv, match inv_Disks inv with
                  | [] => m
                  | ds => <[Name (inv_meta inv) := default [] (m !! Name (inv_meta inv)) ++ (diskModel <$> ds)]> m
                  end) ∅ invs.

Definition rolePrefix : string := "node-role.kubernetes.io/".
Definition roleFromLabel (label : string) : option string :=
  if (String.length rolePrefix <? String.length label)%nat && HasPrefix label rolePrefix
  then Some (sdrop (String.length rolePrefix) label) else None.

Definition volumeModel (pvc : PVC) : mVolume :=
  {| mv_Namespace := Namespace (pc_meta pvc); mv_Name := Name (pc_meta pvc);
     mv_StorageClass := default "" (pc_StorageClassName pvc); mv_Phase := pc_Phase pvc;
     mv_CapacityBytes := match pc_Capacity pvc with Some q => q | None => default 0 (pc_Request pvc) end;
     mv_Block := bool_decide (pc_VolumeMode pvc = Some PersistentVolumeBlock); mv_Resource := pc_VolumeName pvc;
     mv_Replication := None |}.

(** int32 *)
Definition i32 (x : Z) : Z := (x + 2 ^ 31) `mod` 2 ^ 32 - 2 ^ 31.
Definition alert_key (a : mAlert) : string := ma_Namespace a +:+ "/" +:+ ma_Object a +:+ "/" +:+ ma_Reason a.
(** A repeat of an alert already in the list. *)
Definition absorb (prev a : mAlert) : mAlert :=
  let newer := str_ltb (ma_LastSeen prev) (ma_LastSeen a) in
  {| ma_Namespace := ma_Namespace prev; ma_Object := ma_Object prev; ma_Reason := ma_Reason prev;
     ma_Message := if newer then ma_Message a else ma_Message prev;
     ma_Count := i32 (ma_Count prev + ma_Count a);
     ma_LastSeen := if newer then ma_LastSeen a else ma_LastSeen prev |}.
Fixpoint merge_alert (l : list mAlert) (a : mAlert) : list mAlert :=
  match l with
  | [] => [a]
  | p :: l' => if bool_decide (alert_key p = alert_key a) then absorb p a :: l' else p :: merge_alert l' a
  end.
Definition alert_lt (a b : mAlert) : bool :=
  if bool_decide (ma_LastSeen a ≠ ma_LastSeen b) then str_ltb (ma_LastSeen b) (ma_LastSeen a)
  else str_ltb (ma_Namespace a +:+ ma_Object a +:+ ma_Reason a) (ma_Namespace b +:+ ma_Object b +:+ ma_Reason b).

Section Snapshot.
Context `{K8sMeta} `{Quantity} `{TimeFormat} `{MapRange} `{SliceSort}.

Definition sort_by {A} (key : A → string) (l : list A) : list A := sort_slice (λ a b, str_ltb (key a) (key b)) l.

Definition replicationModel (v : Volume) : mReplication :=
  {| ml_Replicas := sort_by mr_Node ((λ r,
       {| mr_Node := rs_Node r; mr_DiskState := orElse (rs_DiskState r) "Unknown"; mr_InUse := rs_InUse r;
          mr_SyncPercent := rs_SyncPercent r;
          mr_Peers := sort_by me_Node ((λ x, {| me_Node := x.1; me_Connected := bool_decide (x.2 = "Connected"); me_Status := x.2 |})
                        <$> range (rs_Peers r)) |}) <$> v_Replicas v);
     ml_SplitBrain := IsStatusConditionTrue (v_Conditions v) ConditionSplitBrain;
     ml_PeerUnreachable :=
       c ← FindStatusCondition (v_Conditions v) "PeerUnreachable";
       if bool_decide (c_Status c = ConditionTrue) then Some {| mu_Reason := c_Reason c; mu_Message := c_Message c |} else None |}.

Definition snapshotModel (u : VolumeSnapshot) : mSnapshot :=
  {| mz_Namespace := Namespace (vs_meta u); mz_Name := Name (vs_meta u); mz_Source := vs_Source u;
     mz_Ready := default false (vs_ReadyToUse u);
     mz_SizeBytes := match vs_RestoreSize u with
                     | Some s => match ParseQuantity s with inr q => Quantity_Value q | inl _ => 0 end
                     | None => 0
                     end;
     mz_CreatedAt := default "" (vs_CreationTime u) |}.

Definition alertModel (ev : Event) : mAlert :=
  let last := match evt_LastTimestamp ev with Some t => Some t | None => evt_EventTime ev end in
  let '(last', count) := match evt_Series ev with
                         | Some s => (es_LastObservedTime s, es_Count s)
                         | None => (last, evt_Count ev)
                         end in
  {| ma_Namespace := evt_Namespace ev; ma_Object := evt_Kind ev +:+ "/" +:+ evt_Name ev; ma_Reason := evt_Reason ev;
     ma_Message := evt_Message ev; ma_Count := count;
     ma_LastSeen := match last' with Some t => RFC3339 t | None => "" end |}.

Definition nodeModel (n : ClusterNode) (disks : list mDisk) : mNode :=
  {| mn_Name := Name (cn_meta n);
     mn_Ready := foldl (λ r c, if bool_decide (nc_Type c = "Ready") then bool_decide (nc_Status c = ConditionTrue) else r)
                   false (cn_Conditions n);
     mn_Roles := sort_by id (omap (λ x, roleFromLabel x.1) (range (Labels (cn_meta n))));
     mn_Addresses := (λ a, a.2) <$> filter (λ a, a.1 = "InternalIP" ∨ a.1 = "ExternalIP") (cn_Addresses n);
     mn_KubeletVersion := cn_KubeletVersion n; mn_Disks := disks |}.

Definition with_replication (replication : gmap string mReplication) (vm : mVolume) : mVolume :=
  {| mv_Namespace := mv_Namespace vm; mv_Name := mv_Name vm; mv_StorageClass := mv_StorageClass vm;
     mv_Phase := mv_Phase vm; mv_CapacityBytes := mv_CapacityBytes vm; mv_Block := mv_Block vm;
     mv_Resource := mv_Resource vm; mv_Replication := replication !! mv_Resource vm |}.

Definition replication_of (vols : list Volume) : gmap string mReplication :=
  foldl (λ m v, <[Name (v_meta v) := replicationModel v]> m) ∅ vols.
Definition event_alerts (evs : list Event) : list mAlert :=
  take 100 (sort_slice alert_lt (foldl merge_alert [] (alertModel <$> evs))).
Definition smart_alerts (invs : list NodeInventory) : list mAlert :=
  sort_by ma_Object (mjoin (inventory_alerts <$> invs)).

Definition Snapshot (s : State) : Frame :=
  let invs := converted (st_inventories s) in
  let disks := disks_by_node invs in
  let replication := replication_of (converted (st_backing s)) in
  {| fr_SystemNamespace := SystemNamespace s;
     fr_Pools := sort_by mp_Name (poolModel <$> converted (st_pools s));
     fr_Nodes := sort_by mn_Name ((λ n, nodeModel n (default [] (disks !! Name (cn_meta n)))) <$> st_nodes s);
     fr_Volumes := sort_by (λ v, mv_Namespace v +:+ "/" +:+ mv_Name v)
                     ((λ pvc, with_replication replication (volumeModel pvc)) <$> st_pvcs s);
     fr_Shares := sort_by (λ x, ms_Namespace x +:+ "/" +:+ ms_Name x) (shareModel <$> converted (st_shares s));
     fr_Targets := sort_by (λ x, mt_Namespace x +:+ "/" +:+ mt_Name x) (targetModel <$> converted (st_targets s));
     fr_Snapshots := sort_by (λ x, mz_Namespace x +:+ "/" +:+ mz_Name x) (snapshotModel <$> st_snapshots s);
     fr_Alerts := smart_alerts invs ++ event_alerts (st_events s); fr_Tasks := [] |}.

(** main.go: the feed in wire form. *)
Definition taskModels (f : Feed) : list mTask :=
  (λ o, {| mo_Verb := op_Verb o; mo_Object := op_Name o; mo_By := op_By o; mo_OK := op_OK o; mo_At := RFC3339 (op_At o) |}) <$> Ops f.
(** main.go's [snapFn]: the frame the hub and GET /api/v1/state serve. *)
Definition snapFn (s : State) (f : Feed) : Frame :=
  let snap := Snapshot s in
  {| fr_SystemNamespace := fr_SystemNamespace snap; fr_Pools := fr_Pools snap; fr_Nodes := fr_Nodes snap;
     fr_Volumes := fr_Volumes snap; fr_Shares := fr_Shares snap; fr_Targets := fr_Targets snap;
     fr_Snapshots := fr_Snapshots snap; fr_Alerts := fr_Alerts snap; fr_Tasks := taskModels f |}.
End Snapshot.

(** ** Order *)
Lemma foldl_perm {A B} (f : A → B → A) l1 l2 :
  l1 ≡ₚ l2 → (∀ x y a, x ∈ l1 → y ∈ l1 → f (f a x) y = f (f a y) x) →
  ∀ a, foldl f a l1 = foldl f a l2.
Proof.
  induction 1 as [|x l1 l2 ? IH|x y l|l1 l2 l3 H12 IH1 ? IH2]; intros Hf a; cbn; [done|..].
  - apply IH. intros ?????. apply Hf; by right.
  - f_equal. apply Hf; set_solver.
  - rewrite (IH1 Hf). apply IH2. intros ?????. apply Hf; by rewrite H12.
Qed.

(** Elements with distinct keys are determined by them. *)
Lemma NoDup_key_inj {A B} (f : A → B) l x y : NoDup (f <$> l) → x ∈ l → y ∈ l → f x = f y → x = y.
Proof.
  intros Hnd [i Hi]%list_elem_of_lookup_1 [j Hj]%list_elem_of_lookup_1 Hf.
  assert (i = j) as -> by (eapply (NoDup_lookup (f <$> l)); rewrite ?list_lookup_fmap, ?Hi, ?Hj; cbn; by rewrite ?Hf).
  congruence.
Qed.
Lemma foldl_perm_keyed `{EqDecision K} {A B} (key : B → K) (f : A → B → A) l1 l2 :
  l1 ≡ₚ l2 → NoDup (key <$> l1) → (∀ x y a, key x ≠ key y → f (f a x) y = f (f a y) x) →
  ∀ a, foldl f a l1 = foldl f a l2.
Proof.
  intros Hl Hnd Hf. apply foldl_perm; [done|]. intros x y a Hx Hy.
  destruct (decide (key x = key y)) as [E|E]; [|by apply Hf].
  by rewrite (NoDup_key_inj key l1 x y).
Qed.

Section Order.
Context `{SliceSort}.

(** Sorting forgets the order of its input when ties are equal. *)
Lemma sort_slice_unique {A} (lt : A → A → bool) l l' :
  strict_weak_order lt → l ≡ₚ l' →
  (∀ a b, a ∈ l → b ∈ l → lt a b = false → lt b a = false → a = b) →
  sort_slice lt l = sort_slice lt l'.
Proof.
  intros Hlt Hl Htie.
  apply (StronglySorted_unique_strong (λ a b, lt b a = false)); [|by apply sort_slice_sorted..|by rewrite !sort_slice_perm].
  intros a b Ha Hb ??. rewrite sort_slice_perm in Ha, Hb. rewrite <- Hl in Hb. by apply Htie.
Qed.

Lemma sort_by_unique {A} (key : A → string) l l' :
  l ≡ₚ l' → (∀ a b, a ∈ l → b ∈ l → key a = key b → a = b) → sort_by key l = sort_by key l'.
Proof.
  intros Hl Htie. apply sort_slice_unique; [apply str_ltb_swo|done|].
  intros a b Ha Hb ??. apply Htie; [done..|]. by apply str_ltb_total.
Qed.

(** Objects with distinct keys, whose row shows the key. *)
Lemma sort_rows {A B} (row : A → B) (key : B → string) (name : A → string) l l' :
  l ≡ₚ l' → NoDup (name <$> l) → (∀ x, key (row x) = name x) → sort_by key (row <$> l) = sort_by key (row <$> l').
Proof.
  intros Hl Hnd Hrow. apply sort_by_unique; [by rewrite Hl|].
  intros a b [x [-> Hx]]%list_elem_of_fmap [y [-> Hy]]%list_elem_of_fmap E. f_equal.
  apply (NoDup_key_inj name l); [done..|]. by rewrite <- !Hrow.
Qed.
End Order.

Lemma converted_perm {A} (l l' : list (error + A)) : l ≡ₚ l' → converted l ≡ₚ converted l'.
Proof. apply omap_Permutation. Qed.

(** ** The alert feed *)
Definition ident (a : mAlert) : string * string * string := (ma_Namespace a, ma_Object a, ma_Reason a).
(** Alerts that stand for the same trouble agree. *)
Definition agree (a b : mAlert) : Prop :=
  alert_key a = alert_key b → ident a = ident b ∧ (ma_LastSeen a = ma_LastSeen b → ma_Message a = ma_Message b).
Definition int32 (x : Z) : Prop := - 2 ^ 31 ≤ x < 2 ^ 31.

Lemma i32_range x : int32 (i32 x).
Proof. unfold int32, i32. pose proof (Z.mod_pos_bound (x + 2 ^ 31) (2 ^ 32)). lia. Qed.
Lemma i32_id x : int32 x → i32 x = x.
Proof. unfold int32, i32. intros ?. rewrite Z.mod_small; lia. Qed.
Lemma i32_add_l x y : i32 (i32 x + y) = i32 (x + y).
Proof.
  unfold i32.
  replace ((x + 2 ^ 31) `mod` 2 ^ 32 - 2 ^ 31 + y + 2 ^ 31) with ((x + 2 ^ 31) `mod` 2 ^ 32 + y) by lia.
  rewrite Zplus_mod_idemp_l. do 2 f_equal. lia.
Qed.

Lemma alert_key_ident a b : ident a = ident b → alert_key a = alert_key b.
Proof. unfold ident, alert_key. intros [=]. congruence. Qed.
Lemma ident_absorb p a : ident (absorb p a) = ident p.
Proof. done. Qed.
Lemma key_absorb p a : alert_key (absorb p a) = alert_key p.
Proof. done. Qed.

(** The two ways a repeat is absorbed commute. *)
Lemma newer_asym a b : str_ltb a b = true → str_ltb b a = false.
Proof.
  intros Hab. destruct (str_ltb b a) eqn:Hba; [|done].
  pose proof (str_ltb_trans _ _ _ Hab Hba) as Haa. by rewrite str_ltb_irrefl in Haa.
Qed.
(** The later of two observations, or the second on a tie. *)
Lemma later_comm {T} (la lb : string) (x y : T) :
  (la = lb → x = y) → (if str_ltb la lb then y else x) = (if str_ltb lb la then x else y).
Proof.
  intros Hxy. destruct (str_ltb la lb) eqn:Hab.
  - by rewrite (newer_asym _ _ Hab).
  - destruct (str_ltb lb la) eqn:Hba; [done|]. apply Hxy. by apply str_ltb_total.
Qed.
Lemma later_comm3 {T} (lp la lb : string) (x a b : T) :
  (la = lb → a = b) →
  (if str_ltb (if str_ltb lp la then la else lp) lb then b else if str_ltb lp la then a else x) =
  (if str_ltb (if str_ltb lp lb then lb else lp) la then a else if str_ltb lp lb then b else x).
Proof.
  intros Hab. destruct (str_ltb lp la) eqn:Ha, (str_ltb lp lb) eqn:Hb; rewrite ?Ha, ?Hb; [by apply later_comm|..|done].
  - destruct (str_ltb la lb) eqn:E; [|done]. by rewrite (str_ltb_trans _ _ _ Ha E) in Hb.
  - destruct (str_ltb lb la) eqn:E; [|done]. by rewrite (str_ltb_trans _ _ _ Hb E) in Ha.
Qed.

Lemma absorb_absorb p a b : agree a b → alert_key a = alert_key b → absorb (absorb p a) b = absorb (absorb p b) a.
Proof.
  intros Hab Hk. destruct (Hab Hk) as [_ Hm]. unfold absorb; cbn. f_equal.
  - by apply later_comm3.
  - rewrite !i32_add_l. f_equal. lia.
  - by apply later_comm3.
Qed.
Lemma absorb_comm a b : agree a b → alert_key a = alert_key b → absorb a b = absorb b a.
Proof.
  intros Hab Hk. destruct (Hab Hk) as [Hi Hm]. unfold ident in Hi. unfold absorb. f_equal; try congruence.
  - by apply later_comm.
  - f_equal. lia.
  - by apply later_comm.
Qed.

(** The list of alerts as the map the code keeps its positions in. *)
Definition by_key (l : list mAlert) : gmap string mAlert := list_to_map ((λ a, (alert_key a, a)) <$> l).
Definition put_alert (m : gmap string mAlert) (a : mAlert) : gmap string mAlert :=
  <[alert_key a := match m !! alert_key a with Some p => absorb p a | None => a end]> m.

Lemma merge_alert_keys l a : alert_key <$> merge_alert l a = if bool_decide (alert_key a ∈ alert_key <$> l) then alert_key <$> l else (alert_key <$> l) ++ [alert_key a].
Proof.
  induction l as [|p l IH]; [done|]. cbn [merge_alert]. rewrite fmap_cons.
  destruct (bool_decide (alert_key p = alert_key a)) eqn:E; [apply bool_decide_eq_true in E|apply bool_decide_eq_false in E];
    rewrite fmap_cons.
  - rewrite key_absorb, bool_decide_eq_true_2; [done|]. rewrite E. left.
  - rewrite IH. repeat case_bool_decide; set_solver.
Qed.
Lemma merge_alert_nodup l a : NoDup (alert_key <$> l) → NoDup (alert_key <$> merge_alert l a).
Proof.
  intros Hl. rewrite merge_alert_keys. case_bool_decide as E; [done|].
  apply NoDup_app. split_and!; [done| |apply NoDup_singleton]. set_solver.
Qed.
Lemma merge_alert_map l a : by_key (merge_alert l a) = put_alert (by_key l) a.
Proof.
  unfold put_alert, by_key. induction l as [|p l IH]; [done|]. cbn. case_bool_decide as E; cbn.
  - by rewrite key_absorb, E, lookup_insert_eq, insert_insert_eq.
  - rewrite IH, lookup_insert_ne by done. apply insert_insert_ne. done.
Qed.
Lemma merged_nodup l acc : NoDup (alert_key <$> acc) → NoDup (alert_key <$> foldl merge_alert acc l).
Proof. revert acc. induction l as [|a l IH]; intros acc Hacc; [done|]. apply IH, merge_alert_nodup, Hacc. Qed.
Lemma merged_map l acc : by_key (foldl merge_alert acc l) = foldl put_alert (by_key acc) l.
Proof. revert acc. induction l as [|a l IH]; intros acc; [done|]. cbn [foldl]. by rewrite IH, merge_alert_map. Qed.
Lemma by_key_perm l l' :
  NoDup (alert_key <$> l) → NoDup (alert_key <$> l') → by_key l = by_key l' → l ≡ₚ l'.
Proof.
  intros Hl Hl' E. apply (list_to_map_inj (M:=gmap string)) in E; [|by rewrite <- list_fmap_compose..].
  apply (fmap_Permutation snd) in E. by rewrite <- !list_fmap_compose, !list_fmap_id in E.
Qed.

Lemma put_alert_comm a b m : agree a b → agree b a → put_alert (put_alert m a) b = put_alert (put_alert m b) a.
Proof.
  intros Hab Hba. unfold put_alert. destruct (decide (alert_key a = alert_key b)) as [E|E].
  - rewrite E, !lookup_insert_eq, !insert_insert_eq. destruct (m !! alert_key b); f_equal.
    + by apply absorb_absorb.
    + by apply absorb_comm.
  - rewrite !lookup_insert_ne by done. by apply insert_insert_ne.
Qed.

(** The merged feed does not depend on the order of the events. *)
Lemma merged_perm l l' :
  l ≡ₚ l' → (∀ a b, a ∈ l → b ∈ l → agree a b) → foldl merge_alert [] l ≡ₚ foldl merge_alert [] l'.
Proof.
  intros Hl Hag. apply by_key_perm; [by apply merged_nodup, NoDup_nil_2..|].
  rewrite !merged_map. apply foldl_perm; [done|]. intros a b m Ha Hb. apply put_alert_comm; by apply Hag.
Qed.

(** *** Newest first *)
Definition alert_name (a : mAlert) : string := ma_Namespace a +:+ ma_Object a +:+ ma_Reason a.
Lemma alert_lt_unfold a b :
  alert_lt a b = str_ltb (ma_LastSeen b) (ma_LastSeen a)
                 || (bool_decide (ma_LastSeen a = ma_LastSeen b) && str_ltb (alert_name a) (alert_name b)).
Proof.
  unfold alert_lt, alert_name. destruct (decide (ma_LastSeen a = ma_LastSeen b)) as [E|E].
  - rewrite bool_decide_eq_false_2, bool_decide_eq_true_2 by naive_solver. by rewrite E, str_ltb_irrefl.
  - rewrite bool_decide_eq_true_2, bool_decide_eq_false_2 by done. by rewrite andb_false_l, orb_false_r.
Qed.
Lemma alert_lt_false a b :
  alert_lt a b = false ↔ str_ltb (ma_LastSeen b) (ma_LastSeen a) = false
                         ∧ (ma_LastSeen a = ma_LastSeen b → str_ltb (alert_name a) (alert_name b) = false).
Proof. rewrite alert_lt_unfold, orb_false_iff, andb_false_iff, bool_decide_eq_false. destruct (decide (ma_LastSeen a = ma_LastSeen b)); naive_solver. Qed.
Lemma alert_lt_true a b :
  alert_lt a b = true ↔ str_ltb (ma_LastSeen b) (ma_LastSeen a) = true
                        ∨ (ma_LastSeen a = ma_LastSeen b ∧ str_ltb (alert_name a) (alert_name b) = true).
Proof. by rewrite alert_lt_unfold, orb_true_iff, andb_true_iff, bool_decide_eq_true. Qed.

Lemma alert_lt_swo : strict_weak_order alert_lt.
Proof.
  split.
  - intros a. rewrite alert_lt_false, !str_ltb_irrefl. done.
  - intros a b c. rewrite !alert_lt_true. intros [Hab|[Eab Hab]] [Hbc|[Ebc Hbc]].
    + left. by eapply str_ltb_trans.
    + left. by rewrite <- Ebc.
    + left. by rewrite Eab.
    + right. split; [congruence|]. by eapply str_ltb_trans.
  - intros a b c. rewrite !alert_lt_false. intros [Hba Nba] [Hcb Ncb]. split.
    + exact (swo_incomp _ (str_ltb_swo id) _ _ _ Hcb Hba).
    + intros E. assert (ma_LastSeen b = ma_LastSeen a) as Eba.
      { apply str_ltb_total; [|done]. by rewrite <- E. }
      apply (swo_incomp _ (str_ltb_swo alert_name) a b c); [auto|apply Ncb; congruence].
Qed.
Lemma alert_lt_tie a b :
  alert_lt a b = false → alert_lt b a = false → ma_LastSeen a = ma_LastSeen b ∧ alert_name a = alert_name b.
Proof.
  rewrite !alert_lt_false. intros [Hab Nab] [Hba Nba].
  assert (ma_LastSeen a = ma_LastSeen b) as E by by apply str_ltb_total. split; [done|].
  apply str_ltb_total; auto.
Qed.

(** Each alert of the feed carries the identity of an event. *)
Lemma merge_alert_elem l a x : x ∈ merge_alert l a → x ∈ l ∨ x = a ∨ ∃ p, p ∈ l ∧ alert_key p = alert_key a ∧ x = absorb p a.
Proof.
  induction l as [|p l IH]; cbn [merge_alert]; [set_solver|].
  destruct (bool_decide (alert_key p = alert_key a)) eqn:E; [apply bool_decide_eq_true in E|]; set_solver.
Qed.
Lemma merged_ident l acc x :
  x ∈ foldl merge_alert acc l → ∃ e, e ∈ acc ++ l ∧ ident x = ident e.
Proof.
  revert acc. induction l as [|a l IH]; intros acc; cbn [foldl]; [rewrite app_nil_r; eauto|].
  intros (e & He & ->)%IH. rewrite elem_of_app in He. destruct He as [He|He]; [|set_solver].
  apply merge_alert_elem in He as [He|[->|(p & Hp & _ & ->)]]; [set_solver..|]. rewrite ident_absorb. set_solver.
Qed.

(** ** Frames *)
Definition ns_key (m : ObjectMeta) : string := Namespace m +:+ "/" +:+ Name m.
(** The same cluster, listed in another order. *)
Record alike (s s' : State) : Prop := {
  al_pools : st_pools s ≡ₚ st_pools s';
  al_shares : st_shares s ≡ₚ st_shares s';
  al_inventories : st_inventories s ≡ₚ st_inventories s';
  al_targets : st_targets s ≡ₚ st_targets s';
  al_snapshots : st_snapshots s ≡ₚ st_snapshots s';
  al_backing : st_backing s ≡ₚ st_backing s';
  al_nodes : st_nodes s ≡ₚ st_nodes s';
  al_pvcs : st_pvcs s ≡ₚ st_pvcs s';
  al_events : st_events s ≡ₚ st_events s';
  al_namespace : SystemNamespace s = SystemNamespace s';
}.
(** An indexer keeps one object per key; a node name has no colon. *)
Record indexed (s : State) : Prop := {
  ix_pools : NoDup (Name ∘ sp_meta <$> converted (st_pools s));
  ix_shares : NoDup (ns_key ∘ sh_meta <$> converted (st_shares s));
  ix_inventories : NoDup (Name ∘ inv_meta <$> converted (st_inventories s));
  ix_targets : NoDup (ns_key ∘ t_meta <$> converted (st_targets s));
  ix_snapshots : NoDup (ns_key ∘ vs_meta <$> st_snapshots s);
  ix_backing : NoDup (Name ∘ v_meta <$> converted (st_backing s));
  ix_nodes : NoDup (Name ∘ cn_meta <$> st_nodes s);
  ix_pvcs : NoDup (ns_key ∘ pc_meta <$> st_pvcs s);
  ix_colon : ∀ inv, inv ∈ converted (st_inventories s) → has_char colon (Name (inv_meta inv)) = false;
}.

Lemma disks_by_node_perm invs invs' :
  invs ≡ₚ invs' → NoDup (Name ∘ inv_meta <$> invs) → disks_by_node invs = disks_by_node invs'.
Proof.
  intros Hp Hnd. apply (foldl_perm_keyed (Name ∘ inv_meta)); [done..|]. intros x y m Hne. cbn in Hne.
  destruct (inv_Disks x), (inv_Disks y); try done.
  rewrite !lookup_insert_ne by done. by apply insert_insert_ne.
Qed.

Section Frames.
Context `{K8sMeta} `{Quantity} `{TimeFormat} `{SliceSort} (r1 r2 : MapRange).

Lemma smart_alerts_perm invs invs' :
  invs ≡ₚ invs' → (∀ inv, inv ∈ invs → has_char colon (Name (inv_meta inv)) = false) →
  smart_alerts invs = smart_alerts invs'.
Proof.
  intros Hp Hc. apply sort_by_unique.
  { by rewrite Hp. }
  assert (∀ a, a ∈ mjoin (inventory_alerts <$> invs) → ∃ inv d, inv ∈ invs ∧ a = smartAlert (Name (inv_meta inv)) d) as Hin.
  { intros a (l & Ha & (inv & -> & Hinv)%list_elem_of_fmap)%list_elem_of_join. 
    apply list_elem_of_fmap in Ha as (d & -> & _). eauto. }
  intros a b (i & d & Hi & ->)%Hin (j & e & Hj & ->)%Hin. cbn.
  intros E%(inj (String.append _)). apply (cut_unique colon) in E as [Hn Hd]; auto. unfold smartAlert. by rewrite Hn, Hd.
Qed.

Lemma nodeModel_range n ds : @nodeModel r1 _ n ds = @nodeModel r2 _ n ds.
Proof.
  unfold nodeModel. f_equal. apply sort_by_unique; [|done].
  apply omap_Permutation. by rewrite !range_perm.
Qed.
Lemma replicationModel_range v : @replicationModel _ r1 _ v = @replicationModel _ r2 _ v.
Proof.
  unfold replicationModel. do 2 f_equal. apply list_fmap_ext. intros _ r _. f_equal.
  apply (sort_rows _ _ fst); [by rewrite !range_perm| |done].
  rewrite range_perm. apply NoDup_fst_map_to_list.
Qed.
Lemma replication_of_perm vols vols' :
  vols ≡ₚ vols' → NoDup (Name ∘ v_meta <$> vols) → @replication_of _ r1 _ vols = @replication_of _ r2 _ vols'.
Proof.
  intros Hp Hnd. unfold replication_of.
  erewrite (foldl_perm_keyed (Name ∘ v_meta) _ vols vols'); [|done..|].
  - generalize (∅ : gmap string mReplication). clear. induction vols' as [|v l IH]; intros m; [done|]. cbn.
    by rewrite replicationModel_range, IH.
  - intros x y m Hne. by apply insert_insert_ne.
Qed.

Lemma event_alerts_perm evs evs' :
  evs ≡ₚ evs' →
  (∀ e f, e ∈ evs → f ∈ evs → agree (alertModel e) (alertModel f)) →
  (∀ e f, e ∈ evs → f ∈ evs → alert_name (alertModel e) = alert_name (alertModel f) → ident (alertModel e) = ident (alertModel f)) →
  event_alerts evs = event_alerts evs'.
Proof.
  intros Hp Hag Hname. unfold event_alerts. f_equal.
  apply sort_slice_unique; [apply alert_lt_swo| |].
  - apply merged_perm; [by rewrite Hp|]. intros a b (e & -> & He)%list_elem_of_fmap (f & -> & Hf)%list_elem_of_fmap. auto.
  - intros a b Ha Hb Hab Hba. destruct (alert_lt_tie a b Hab Hba) as [_ Hn].
    eapply (NoDup_key_inj alert_key); [apply (merged_nodup (alertModel <$> evs) []), NoDup_nil_2|done..|].
    apply merged_ident in Ha as (a' & (e & -> & He)%list_elem_of_fmap & Ea), Hb as (b' & (f & -> & Hf)%list_elem_of_fmap & Eb).
    apply alert_key_ident. rewrite Ea, Eb. apply Hname; [done..|].
    unfold alert_name, ident in *. congruence.
Qed.

(** Events the feed can tell apart: the texts it joins namespace, object and
    reason into, with slashes to merge and without a separator to sort, determine
    the three; and events of one identity seen last at one time say the same. *)
Record unambiguous (l : list mAlert) : Prop := {
  ua_merge a b : a ∈ l → b ∈ l → alert_key a = alert_key b → ident a = ident b;
  ua_sort a b : a ∈ l → b ∈ l → alert_name a = alert_name b → ident a = ident b;
  ua_message a b : a ∈ l → b ∈ l → ident a = ident b → ma_LastSeen a = ma_LastSeen b → ma_Message a = ma_Message b;
}.

(** C12: The frame does not depend on the order of the listings.  [Snapshot]
    builds the same frame from any listing order of the same objects and for
    any two iteration orders of the Go maps, under these conditions: the objects
    of a kind have distinct keys and no inventory name has a colon, as the API
    server ensures; events whose namespace, object and reason are the same text
    when joined, with slashes as the feed merges them or without a separator as
    it sorts them, have the same namespace, object and reason; and events of one
    such identity last seen at the same time carry the same message.  The last
    two are conditions on the cluster: events that break them are shown in
    listing order ([alert_message_follows_order], [alert_order_follows_listing]). *)
Theorem snapshot_deterministic s s' :
  alike s s' → indexed s → unambiguous (alertModel <$> st_events s) →
  @Snapshot _ _ _ r1 _ s = @Snapshot _ _ _ r2 _ s' ∧ ∀ f, @snapFn _ _ _ r1 _ s f = @snapFn _ _ _ r2 _ s' f.
Proof.
  intros Hal Hix [Hmerge Hsort Hmsg].
  assert (∀ e f, e ∈ st_events s → f ∈ st_events s → agree (alertModel e) (alertModel f)) as Hag.
  { intros e f He Hf Hk. assert (ident (alertModel e) = ident (alertModel f)) as Hi by (apply Hmerge; [by apply list_elem_of_fmap_2..|done]).
    split; [done|]. intros Hl. apply Hmsg; [by apply list_elem_of_fmap_2..|done|done]. }
  assert (∀ e f, e ∈ st_events s → f ∈ st_events s →
    alert_name (alertModel e) = alert_name (alertModel f) → ident (alertModel e) = ident (alertModel f)) as Hname.
  { intros e f He Hf. apply Hsort; by apply list_elem_of_fmap_2. }
  assert (@Snapshot _ _ _ r1 _ s = @Snapshot _ _ _ r2 _ s') as E;
    [|by split; [|intros f; unfold snapFn; rewrite E]].
  destruct Hal, Hix. unfold Snapshot.
  rewrite (disks_by_node_perm (converted (st_inventories s)) (converted (st_inventories s'))) by eauto using converted_perm.
  rewrite (replication_of_perm (converted (st_backing s)) (converted (st_backing s'))) by eauto using converted_perm.
  f_equal; [done|..].
  - by apply (sort_rows _ _ (Name ∘ sp_meta)); [apply converted_perm|..].
  - erewrite list_fmap_ext by (intros; apply nodeModel_range). by apply (sort_rows _ _ (Name ∘ cn_meta)).
  - by apply (sort_rows _ _ (ns_key ∘ pc_meta)).
  - by apply (sort_rows _ _ (ns_key ∘ sh_meta)); [apply converted_perm|..].
  - by apply (sort_rows _ _ (ns_key ∘ t_meta)); [apply converted_perm|..].
  - by apply (sort_rows _ _ (ns_key ∘ vs_meta)).
  - f_equal; [apply smart_alerts_perm; eauto using converted_perm|by apply event_alerts_perm].
Qed.
End Frames.

(** ** The content of the feed *)
Definition same_key (k : string) (l : list mAlert) : list mAlert := filter (λ e, alert_key e = k) l.
(** What a run of repeats amounts to. *)
Definition summary (es : list mAlert) : option mAlert :=
  match es with [] => None | e :: es' => Some (foldl absorb e es') end.
Definition total (es : list mAlert) : Z := foldr (λ e n, ma_Count e + n) 0 es.

Lemma summary_snoc es a :
  summary (es ++ [a]) = Some (match summary es with Some p => absorb p a | None => a end).
Proof. destruct es as [|e es]; [done|]. cbn. by rewrite foldl_app. Qed.
Lemma merged_summary l k : foldl put_alert ∅ l !! k = summary (same_key k l).
Proof.
  induction l as [|a l IH] using rev_ind; [done|]. unfold same_key in *.
  rewrite foldl_app, filter_app. cbn [foldl]. unfold put_alert at 1.
  destruct (decide (alert_key a = k)) as [E|E].
  - rewrite filter_cons_True, filter_nil by done. rewrite summary_snoc, <- IH, <- E. by rewrite lookup_insert_eq.
  - rewrite filter_cons_False, filter_nil by done. by rewrite app_nil_r, lookup_insert_ne by done.
Qed.

(** The summary of alerts of one key. *)
Record summarises (x : mAlert) (es : list mAlert) : Prop := {
  su_from : ∃ e, e ∈ es ∧ ma_LastSeen x = ma_LastSeen e ∧ ma_Message x = ma_Message e;
  su_latest : ∀ e, e ∈ es → str_ltb (ma_LastSeen x) (ma_LastSeen e) = false;
  su_count : ma_Count x = i32 (total es);
}.
Lemma total_app es fs : total (es ++ fs) = total es + total fs.
Proof. unfold total. induction es as [|e es IH]; cbn in *; lia. Qed.
Lemma absorb_summarises p a es : summarises p es → summarises (absorb p a) (es ++ [a]).
Proof.
  intros [(e & He & HL & HM) Hlate Hc]. split; cbn.
  - destruct (str_ltb (ma_LastSeen p) (ma_LastSeen a)); [exists a|exists e]; set_solver.
  - intros f [Hf| ->%list_elem_of_singleton]%elem_of_app; destruct (str_ltb (ma_LastSeen p) (ma_LastSeen a)) eqn:E; auto using str_ltb_irrefl.
    apply (swo_incomp _ (str_ltb_swo id) _ (ma_LastSeen p)); [by apply Hlate|by apply newer_asym].
  - rewrite total_app, Hc, i32_add_l. f_equal. cbn. lia.
Qed.
Lemma summary_spec es x :
  (∀ e, e ∈ es → int32 (ma_Count e)) → summary es = Some x → summarises x es.
Proof.
  revert x. induction es as [|a es IH] using rev_ind; intros x Hc; [done|].
  rewrite summary_snoc. intros [= <-]. destruct (summary es) as [p|] eqn:E.
  - apply absorb_summarises, IH; [|done]. set_solver.
  - destruct es; [|done]. split; cbn.
    + exists a. split; [by left|done].
    + intros e ->%list_elem_of_singleton. apply str_ltb_irrefl.
    + rewrite i32_id; [lia|]. rewrite Z.add_0_r. apply Hc. by left.
Qed.

Lemma by_key_lookup l a : NoDup (alert_key <$> l) → a ∈ l → by_key l !! alert_key a = Some a.
Proof.
  intros Hnd Ha. apply elem_of_list_to_map_1; [by rewrite <- list_fmap_compose|].
  apply list_elem_of_fmap. eauto.
Qed.
Lemma by_key_elem l k a : by_key l !! k = Some a → a ∈ l ∧ alert_key a = k.
Proof. intros (b & [= -> ->] & Hb)%elem_of_list_to_map_2%list_elem_of_fmap. done. Qed.

Lemma StronglySorted_weaken {A} (R R' : A → A → Prop) l :
  (∀ a b, R a b → R' a b) → StronglySorted R l → StronglySorted R' l.
Proof. intros HR. induction 1 as [|a l ? IH Ha]; constructor; [done|]. eapply Forall_impl; eauto. Qed.

Section Feed.
Context `{TimeFormat} `{SliceSort}.

(** the trouble feed of a frame has one alert per identity, newest first
    and at most a hundred of them: an alert carries the message and the time
    of a latest event of its identity and the (int32) sum of their counts, and
    an event is missing only when a hundred alerts at least as recent are
    shown. *)
Theorem alert_feed_sound evs :
  (∀ e, e ∈ evs → int32 (ma_Count (alertModel e))) →
  let L := alertModel <$> evs in
  let A := event_alerts evs in
  NoDup (alert_key <$> A) ∧ (length A ≤ 100)%nat ∧
  StronglySorted (λ a b, str_ltb (ma_LastSeen a) (ma_LastSeen b) = false) A ∧
  (∀ a, a ∈ A → summarises a (same_key (alert_key a) L)) ∧
  (∀ e, e ∈ L → (∃ a, a ∈ A ∧ alert_key a = alert_key e) ∨
                (length A = 100%nat ∧ ∀ a, a ∈ A → str_ltb (ma_LastSeen a) (ma_LastSeen e) = false)).
Proof.
  intros Hc L A.
  set (M := foldl merge_alert [] L). assert (NoDup (alert_key <$> M)) as HM by apply merged_nodup, NoDup_nil_2.
  set (S := sort_slice alert_lt M). assert (S ≡ₚ M) as HS by apply sort_slice_perm.
  pose proof (sort_slice_sorted alert_lt M alert_lt_swo) as Hsort. fold S in Hsort.
  assert (S = A ++ drop 100 S) as HA by (symmetry; apply take_drop).
  assert (∀ k, by_key M !! k = summary (same_key k L)) as Hkey.
  { intros k. unfold M. rewrite merged_map. apply merged_summary. }
  assert (∀ k x, by_key M !! k = Some x → summarises x (same_key k L)) as Hsum.
  { intros k x. rewrite Hkey. apply summary_spec. intros e [_ (ev & -> & Hev)%list_elem_of_fmap]%list_elem_of_filter. auto. }
  assert (∀ a, a ∈ S ↔ a ∈ M) as HSM by (intros a; by rewrite HS).
  assert (StronglySorted (λ a b, str_ltb (ma_LastSeen a) (ma_LastSeen b) = false) S) as Hnew.
  { eapply StronglySorted_weaken; [|exact Hsort]. intros a b [? _]%alert_lt_false. done. }
  rewrite HA in Hnew. apply StronglySorted_app in Hnew as (Hcross & HnewA & _).
  split_and!.
  - assert (NoDup (alert_key <$> S)) as HnS by by rewrite HS.
    rewrite HA, fmap_app in HnS. by apply NoDup_app in HnS as [? _].
  - unfold A, event_alerts. rewrite length_take. lia.
  - done.
  - intros a Ha. apply Hsum, by_key_lookup; [done|]. apply HSM. rewrite HA. set_solver.
  - intros e He. destruct (by_key M !! alert_key e) as [x|] eqn:Hx.
    + pose proof (su_latest _ _ (Hsum _ _ Hx) e) as Hlate. apply by_key_elem in Hx as [Hx Hk].
      apply HSM in Hx. rewrite HA, elem_of_app in Hx. destruct Hx as [Hx|Hx]; [by left; exists x|right].
      split.
      * unfold A, event_alerts. fold L M S. rewrite length_take. apply list_elem_of_lookup_1 in Hx as [i Hi].
        apply lookup_lt_Some in Hi. rewrite length_drop in Hi. lia.
      * intros a Ha. apply (swo_incomp _ (str_ltb_swo id) _ (ma_LastSeen x)); [|by apply Hcross].
        apply Hlate. apply list_elem_of_filter. done.
    + rewrite Hkey in Hx. assert (e ∈ same_key (alert_key e) L) as Hin by by apply list_elem_of_filter.
      destruct (same_key (alert_key e) L); [by apply not_elem_of_nil in Hin|done].
Qed.
End Feed.

(** ** A small cluster *)
Definition map_range_rev : MapRange :=
  {| range _ m := reverse (map_to_list m); range_perm _ m := reverse_Permutation _ |}.
Definition demo_time : TimeFormat := {| RFC3339 t := pretty t |}.
Definition demo_sizes : Quantity := {| quantity := string; ParseQuantity := inr; Quantity_String := id; Quantity_Value _ := 0 |}.
Module FrameDemo.
Definition disk (path smart : string) : Disk :=
  {| dk_Path := path; dk_Model := ""; dk_Serial := ""; dk_Size := None; dk_Rotational := false; dk_Claimed := false;
     dk_Smart := smart; dk_TempCelsius := None; dk_PowerOnHours := None |}.
Definition inventory (node : string) (ds : list Disk) : NodeInventory :=
  {| inv_meta := demo_meta node [] None; inv_Disks := ds; inv_ObservedAt := None |}.
Definition node (name : string) (labels : gmap string string) : ClusterNode :=
  {| cn_meta := {| Name := name; Namespace := ""; Generation := 1; ResourceVersion := "1"; DeletionTimestamp := None;
                   Finalizers := []; Annotations := ∅; Labels := labels |};
     cn_KubeletVersion := "v1"; cn_Conditions := [{| nc_Type := "Ready"; nc_Status := "True" |}]; cn_Addresses := [("InternalIP", "10.0.0.1")] |}.
Definition event (name msg : string) (count at_ : Z) : Event :=
  {| evt_Namespace := "default"; evt_Kind := "Pod"; evt_Name := name; evt_Reason := "BackOff"; evt_Message := msg;
     evt_Count := count; evt_LastTimestamp := Some at_; evt_EventTime := None; evt_Series := None |}.
Definition state (nodes : list ClusterNode) (invs : list NodeInventory) (evs : list Event) : State :=
  {| st_pools := [inr (demo_pool [] None [])]; st_shares := []; st_inventories := inr <$> invs; st_targets := [];
     st_snapshots := []; st_backing := []; st_nodes := nodes; st_pvcs := []; st_events := evs; SystemNamespace := "stornas" |}.
Definition roles : gmap string string :=
  {["node-role.kubernetes.io/worker" := ""; "node-role.kubernetes.io/control-plane" := ""]}.
Definition n1 : ClusterNode := node "n1" roles.
Definition n2 : ClusterNode := node "n2" ∅.
Definition i1 : NodeInventory := inventory "n1" [disk "/dev/sda" "Failed"; disk "/dev/sdb" "Passed"].
Definition i2 : NodeInventory := inventory "n2" [disk "/dev/sda" "Passed"].
Definition e1 : Event := event "web" "first" 2 5.
Definition e2 : Event := event "web" "again" 3 9.
Definition e3 : Event := event "db" "slow" 1 7.
Definition here : State := state [n1; n2] [i1; i2] [e1; e2; e3].
Definition there : State := state [n2; n1] [i2; i1] [e3; e2; e1].
(** Two events of one identity, seen last in the same second. *)
Definition f1 : Event := event "web" "disk full" 1 5.
Definition f2 : Event := event "web" "no quota" 1 5.
(** Two identities that are one text without a separator. *)
Definition with_reason (ev : Event) (reason : string) : Event :=
  {| evt_Namespace := evt_Namespace ev; evt_Kind := evt_Kind ev; evt_Name := evt_Name ev; evt_Reason := reason;
     evt_Message := evt_Message ev; evt_Count := evt_Count ev; evt_LastTimestamp := evt_LastTimestamp ev;
     evt_EventTime := evt_EventTime ev; evt_Series := evt_Series ev |}.
Definition g1 : Event := with_reason (event "web" "one" 1 5) "sFoo".
Definition g2 : Event := with_reason (event "webs" "two" 1 5) "Foo".
End FrameDemo.

Ltac each H := cbn in H; repeat (apply elem_of_cons in H as [->|H]); try (by apply not_elem_of_nil in H).

Lemma snapshot_deterministic_witness :
  @Snapshot RefMeta.meta demo_sizes demo_time map_range insertion_slice_sort FrameDemo.here =
  @Snapshot RefMeta.meta demo_sizes demo_time map_range_rev insertion_slice_sort FrameDemo.there.
Proof.
  refine (proj1 (snapshot_deterministic map_range map_range_rev FrameDemo.here FrameDemo.there _ _ _)).
  - split; cbn; try done; try apply (Permutation_rev [_; _]); apply (Permutation_rev [_; _; _]).
  - split; cbn; try (apply (bool_decide_unpack _); vm_compute; exact I).
    intros inv Hinv. each Hinv; done.
  - split; intros a b (e & -> & He)%list_elem_of_fmap (f & -> & Hf)%list_elem_of_fmap; each He; each Hf; by vm_compute.
Defined.

Lemma alert_feed_sound_witness :
  let A := @event_alerts demo_time insertion_slice_sort [FrameDemo.e1; FrameDemo.e2; FrameDemo.e3] in
  (λ a, (ma_Message a, ma_Count a)) <$> A = [("again", 5); ("slow", 1)] ∧ NoDup (alert_key <$> A).
Proof.
  split; [by vm_compute|].
  apply (@alert_feed_sound demo_time insertion_slice_sort [FrameDemo.e1; FrameDemo.e2; FrameDemo.e3]).
  intros e He. each He; by vm_compute.
Defined.

(** Without the tie hypothesis the frame follows the listing order: the
    message shown is the one of the event listed first. *)
Example alert_message_follows_order :
  alike (FrameDemo.state [] [] [FrameDemo.f1; FrameDemo.f2]) (FrameDemo.state [] [] [FrameDemo.f2; FrameDemo.f1]) ∧
  let frame evs := @Snapshot RefMeta.meta demo_sizes demo_time map_range insertion_slice_sort (FrameDemo.state [] [] evs) in
  ma_Message <$> fr_Alerts (frame [FrameDemo.f1; FrameDemo.f2]) = ["disk full"] ∧
  ma_Message <$> fr_Alerts (frame [FrameDemo.f2; FrameDemo.f1]) = ["no quota"].
Proof. split; [|by vm_compute]. split; cbn; try done. apply perm_swap. Qed.
(** And so does the order of alerts the comparison cannot tell apart. *)
Example alert_order_follows_listing :
  alike (FrameDemo.state [] [] [FrameDemo.g1; FrameDemo.g2]) (FrameDemo.state [] [] [FrameDemo.g2; FrameDemo.g1]) ∧
  let frame evs := @Snapshot RefMeta.meta demo_sizes demo_time map_range insertion_slice_sort (FrameDemo.state [] [] evs) in
  ma_Message <$> fr_Alerts (frame [FrameDemo.g1; FrameDemo.g2]) = ["one"; "two"] ∧
  ma_Message <$> fr_Alerts (frame [FrameDemo.g2; FrameDemo.g1]) = ["two"; "one"].
Proof. split; [|by vm_compute]. split; cbn; try done. apply perm_swap. Qed.
