(* ===== verification/RestFactory.v ===== *)
(** * internal/restfactory/restfactory.go: clients by bearer token

    A [rest.Config] has the fields the code names; the rest of it (basic auth,
    key material, impersonation, plugins) is one opaque component with its
    zero value.  [build] is the caller's function: any answer it may give.
    [For] is three critical sections with the build between them, so calls
    interleave; [SA] holds its lock throughout. *)

From S2P Require Import Prelude GoStrings TtlCache.
Open Scope Z_scope.

Class RestConfig := { rest_other : Type; rest_zero : rest_other; TokenKey : string → string }.

Record TLSClientConfig := {
  tls_Insecure : bool; tls_ServerName : string; tls_CAFile : string; tls_CAData : string;
  tls_CertFile : string; tls_CertData : string;
}.
Definition saTokenPath : string := "/var/run/secrets/kubernetes.io/serviceaccount/token".
Definition clientTTL : Z := 5 * 60 * 1000000000.

Section Factory.
Context `{RestConfig} {T : Type}.

Record Config := {
  Host : string; APIPath : string; BearerToken : string; BearerTokenFile : string;
  TLS : TLSClientConfig; Other : rest_other;
}.
Definition clearCredentials (full : Config) : Config :=
  {| Host := Host full; APIPath := APIPath full; BearerToken := ""; BearerTokenFile := "";
     TLS := {| tls_Insecure := tls_Insecure (TLS full); tls_ServerName := tls_ServerName (TLS full);
               tls_CAFile := tls_CAFile (TLS full); tls_CAData := tls_CAData (TLS full);
               tls_CertFile := ""; tls_CertData := "" |};
     Other := rest_zero |}.
Definition set_tokens (c : Config) (token file : string) : Config :=
  {| Host := Host c; APIPath := APIPath c; BearerToken := token; BearerTokenFile := file; TLS := TLS c; Other := Other c |}.
Definition hasClientCert (c : Config) : bool :=
  negb (bool_decide (tls_CertFile (TLS c) = "")) || negb (bool_decide (tls_CertData (TLS c) = "")).
(** [mounted]: [os.Stat] of the token path succeeded. *)
Definition saConfig (mounted : bool) (full : Config) : option Config :=
  let cfg := if bool_decide (BearerTokenFile full = "") && bool_decide (BearerToken full = "") && mounted
             then set_tokens full (BearerToken full) saTokenPath else full in
  let cfg := if bool_decide (BearerTokenFile cfg = "") then cfg else set_tokens cfg "" (BearerTokenFile cfg) in
  if bool_decide (BearerToken cfg = "") && bool_decide (BearerTokenFile cfg = "") && negb (hasClientCert cfg) then None
  else Some cfg.

Record Factory := { base : Config; sa_Config : option Config }.
(** [New], after [restConfig] resolved the environment's config. *)
Definition NewFactory (mounted : bool) (full : Config) : Factory :=
  {| base := clearCredentials full; sa_Config := saConfig mounted full |}.

(** ** Calls in flight *)
Inductive flight :=
  | Asked (token : string)
  | Missed (token : string)
  | Built (token : string) (client : T)
  | Answered (token : string) (r : error + T).
Record fstate := {
  fs_cache : gmap string (T * Z); fs_now : Z; fs_for : gmap nat flight;
  fs_saClient : option T; fs_sa : list (error + T);
}.
Definition set_flight (s : fstate) (i : nat) (f : flight) : fstate :=
  {| fs_cache := fs_cache s; fs_now := fs_now s; fs_for := <[i := f]> (fs_for s);
     fs_saClient := fs_saClient s; fs_sa := fs_sa s |}.
Definition with_cache (s : fstate) (c : gmap string (T * Z)) : fstate :=
  {| fs_cache := c; fs_now := fs_now s; fs_for := fs_for s; fs_saClient := fs_saClient s; fs_sa := fs_sa s |}.
Definition sa_answer (s : fstate) (client : option T) (r : error + T) : fstate :=
  {| fs_cache := fs_cache s; fs_now := fs_now s; fs_for := fs_for s; fs_saClient := client; fs_sa := r :: fs_sa s |}.

Context (f : Factory) (build : Config → error + T → Prop).
Definition for_config (token : string) : Config := set_tokens (base f) token (BearerTokenFile (base f)).

Inductive fstep (s : fstate) : fstate → Prop :=
  | step_clock now : fs_now s ≤ now →
      fstep s {| fs_cache := fs_cache s; fs_now := now; fs_for := fs_for s; fs_saClient := fs_saClient s; fs_sa := fs_sa s |}
  | step_ask i token : fs_for s !! i = None → fstep s (set_flight s i (Asked token))
  | step_lookup i token : fs_for s !! i = Some (Asked token) →
      fstep s (set_flight s i (match cache_Get clientTTL (fs_cache s) (fs_now s) (TokenKey token) with
                               | Some c => Answered token (inr c)
                               | None => Missed token
                               end))
  | step_build i token r : fs_for s !! i = Some (Missed token) → build (for_config token) r →
      fstep s (set_flight s i (match r with inr c => Built token c | inl e => Answered token (inl e) end))
  | step_put i token c : fs_for s !! i = Some (Built token c) →
      fstep s (with_cache (set_flight s i (Answered token (inr c)))
                 (cache_Put clientTTL (fs_cache s) (fs_now s) (TokenKey token) c))
  | step_sa_none : sa_Config f = None →
      fstep s (sa_answer s (fs_saClient s)
                 (inl (errorf "no service-account credentials available (set -kubeconfig or run in-cluster)")))
  | step_sa_kept c cfg : sa_Config f = Some cfg → fs_saClient s = Some c → fstep s (sa_answer s (Some c) (inr c))
  | step_sa_build cfg r : sa_Config f = Some cfg → fs_saClient s = None → build cfg r →
      fstep s (sa_answer s (match r with inr c => Some c | inl _ => None end) r).
Definition fstart : fstate := {| fs_cache := ∅; fs_now := 0; fs_for := ∅; fs_saClient := None; fs_sa := [] |}.
Inductive freached : fstate → Prop :=
  | freached_start : freached fstart
  | freached_step s s' : freached s → fstep s s' → freached s'.

(** ** Identity *)
(** [c] was built for [token], up to the cache key. *)
Definition minted (token : string) (c : T) : Prop :=
  ∃ token', TokenKey token' = TokenKey token ∧ build (for_config token') (inr c).
Definition flight_ok (x : flight) : Prop :=
  match x with
  | Built token c => build (for_config token) (inr c)
  | Answered token (inr c) => minted token c
  | _ => True
  end.
Record factory_ok (s : fstate) : Prop := {
  fo_cache : ∀ k c t, fs_cache s !! k = Some (c, t) → ∃ token, TokenKey token = k ∧ build (for_config token) (inr c);
  fo_for : ∀ i x, fs_for s !! i = Some x → flight_ok x;
  fo_sa : ∀ c, inr c ∈ fs_sa s → fs_saClient s = Some c;
  fo_client : ∀ c, fs_saClient s = Some c → ∃ cfg, sa_Config f = Some cfg ∧ build cfg (inr c);
}.

Lemma cache_Get_in (m : gmap string (T * Z)) now k c : cache_Get clientTTL m now k = Some c → ∃ t, m !! k = Some (c, t).
Proof. unfold cache_Get. destruct (m !! k) as [[v t]|]; [|done]. case_match; [|done]. intros [= <-]. eauto. Qed.
Lemma cache_Put_in (m : gmap string (T * Z)) now k v k' x :
  cache_Put clientTTL m now k v !! k' = Some x → (k' = k ∧ x = (v, now)) ∨ m !! k' = Some x.
Proof. unfold cache_Put. rewrite lookup_insert_Some. intros [[-> <-]|[_ [? _]%map_lookup_filter_Some]]; auto. Qed.
Lemma set_flight_ok s i x : factory_ok s → flight_ok x → factory_ok (set_flight s i x).
Proof.
  intros [Hc Hf Hs Hk] Hx. split; try done. intros j y. cbn. rewrite lookup_insert_Some. intros [[_ <-]|[_ Hj]]; eauto.
Qed.

Lemma fstep_ok s s' : factory_ok s → fstep s s' → factory_ok s'.
Proof.
  intros Hok Hst. pose proof Hok as [Hc Hf Hs Hk]. destruct Hst as [now|i token Hi|i token Hi|i token r Hi Hb|i token c Hi|Hn|c cfg Hcf Hcl|cfg r Hcf Hcl Hb].
  - by split.
  - by apply set_flight_ok.
  - apply set_flight_ok; [done|]. destruct (cache_Get _ _ _ _) as [c|] eqn:E; [|done].
    apply cache_Get_in in E as [t E]. exact (Hc _ _ _ E).
  - apply set_flight_ok; [done|]. by destruct r.
  - assert (flight_ok (Built token c)) as Hbuilt by eauto.
    assert (factory_ok (set_flight s i (Answered token (inr c)))) as [_ Hf' Hs' Hk'].
    { apply set_flight_ok; [done|]. exists token. done. }
    split; try done. intros k c' t [[-> [= -> ->]]|E]%cache_Put_in; eauto.
  - split; try done. cbn. intros c [?|Hin]%elem_of_cons; [done|auto].
  - split; try done.
    + cbn. intros c' [[= ->]|Hin%Hs]%elem_of_cons; congruence.
    + cbn. intros c' [= <-]. auto.
  - split; try done; cbn.
    + intros c [<-|Hin%Hs]%elem_of_cons; [done|congruence].
    + intros c. destruct r as [e|c']; [done|]. intros [= <-]. eauto.
Qed.
Lemma freached_ok s : freached s → factory_ok s.
Proof.
  induction 1 as [|s s' _ IH Hst]; [|by eapply fstep_ok].
  split; cbn; intros *; [by rewrite lookup_empty..|by intros ?%elem_of_nil|done].
Qed.
End Factory.

(** The service-account config prefers the refreshed file and has a
    credential. *)
Lemma saConfig_spec `{RestConfig} mounted full cfg :
  saConfig mounted full = Some cfg →
  (BearerTokenFile cfg = "" ∨ BearerToken cfg = "") ∧
  (BearerToken cfg ≠ "" ∨ BearerTokenFile cfg ≠ "" ∨ hasClientCert cfg = true).
Proof.
  unfold saConfig.
  generalize (if bool_decide (BearerTokenFile full = "") && bool_decide (BearerToken full = "") && mounted
              then set_tokens full (BearerToken full) saTokenPath else full). intros c1.
  remember (if bool_decide (BearerTokenFile c1 = "") then c1 else set_tokens c1 "" (BearerTokenFile c1)) as c2 eqn:E2.
  destruct (_ && _ && _) eqn:E; intros [= <-]. split.
  - rewrite E2. destruct (bool_decide (BearerTokenFile c1 = "")) eqn:Ef; [apply bool_decide_eq_true in Ef; auto|by right].
  - apply andb_false_iff in E as [[E|E]%andb_false_iff|E]; [apply bool_decide_eq_false in E; auto..|].
    apply negb_false_iff in E. auto.
Qed.

(** whatever the interleaving of calls, expiries and failed builds, the
    client [For] answers a token with was built from a config whose only
    credential is a bearer token with the same key: no token file, no client
    certificate, nothing else of the server's own identity; [SA] answers one
    client, built from the server's config, whose token file is never shadowed
    by an inline token. *)
Theorem factory_identity `{RestConfig} {T} mounted full (build : Config → error + T → Prop) s :
  freached (NewFactory mounted full) build s →
  (∀ i token c, fs_for s !! i = Some (Answered token (inr c)) →
     ∃ cfg, build cfg (inr c) ∧ TokenKey (BearerToken cfg) = TokenKey token ∧ BearerTokenFile cfg = "" ∧
            hasClientCert cfg = false ∧ Other cfg = rest_zero ∧ Host cfg = Host full ∧
            tls_CAData (TLS cfg) = tls_CAData (TLS full) ∧ tls_Insecure (TLS cfg) = tls_Insecure (TLS full)) ∧
  (∀ c, inr c ∈ fs_sa s → fs_saClient s = Some c ∧
     ∃ cfg, saConfig mounted full = Some cfg ∧ build cfg (inr c) ∧ (BearerTokenFile cfg = "" ∨ BearerToken cfg = "")).
Proof.
  intros [_ Hf Hs Hk]%freached_ok. split.
  - intros i token c (token' & Hkey & Hb)%Hf. eexists. by split.
  - intros c Hc%Hs. split; [done|]. destruct (Hk c Hc) as (cfg & Hcfg & Hb). exists cfg.
    by pose proof (saConfig_spec _ _ _ Hcfg) as [? _].
Qed.

Module FactoryDemo.
Definition rest : RestConfig := {| rest_other := bool; rest_zero := false; TokenKey t := t |}.
Definition tls : TLSClientConfig :=
  {| tls_Insecure := false; tls_ServerName := ""; tls_CAFile := ""; tls_CAData := "ca"; tls_CertFile := "c"; tls_CertData := "" |}.
Definition full : @Config rest :=
  {| Host := "k8s"; APIPath := ""; BearerToken := "sa-token"; BearerTokenFile := ""; TLS := tls; Other := (true : @rest_other rest) |}.
(** Clients that remember their config. *)
Definition build (cfg : @Config rest) (r : error + @Config rest) : Prop := r = inr cfg.
Definition factory : @Factory rest := NewFactory true full.
Definition client : @Config rest := for_config factory "alice".
Definition asked : @fstate (@Config rest) := set_flight fstart 0 (Asked "alice").
Definition missed : @fstate (@Config rest) := set_flight asked 0 (Missed "alice").
Definition built : @fstate (@Config rest) := set_flight missed 0 (Built "alice" client).
Definition served : @fstate (@Config rest) :=
  with_cache (set_flight built 0 (Answered "alice" (inr client))) (cache_Put clientTTL ∅ 0 "alice" client).
End FactoryDemo.

Lemma factory_identity_witness :
  fs_for FactoryDemo.served !! 0%nat = Some (Answered "alice" (inr FactoryDemo.client)) ∧
  ∃ cfg, FactoryDemo.build cfg (inr FactoryDemo.client) ∧ BearerToken cfg = "alice" ∧ Other cfg = @rest_zero FactoryDemo.rest.
Proof.
  split; [by vm_compute|].
  destruct (@factory_identity FactoryDemo.rest _ true FactoryDemo.full FactoryDemo.build FactoryDemo.served) as [Hfor _].
  - apply (freached_step _ _ FactoryDemo.built); [apply (freached_step _ _ FactoryDemo.missed); [apply (freached_step _ _ FactoryDemo.asked);
      [apply (freached_step _ _ fstart); [constructor|]|]|]|].
    + by apply step_ask.
    + exact (step_lookup FactoryDemo.factory FactoryDemo.build FactoryDemo.asked 0 "alice" eq_refl).
    + exact (step_build FactoryDemo.factory FactoryDemo.build FactoryDemo.missed 0 "alice" (inr FactoryDemo.client) eq_refl eq_refl).
    + exact (step_put FactoryDemo.factory FactoryDemo.build FactoryDemo.built 0 "alice" FactoryDemo.client eq_refl).
  - destruct (Hfor 0%nat "alice" FactoryDemo.client eq_refl) as (cfg & Hb & Hk & _ & _ & Ho & _). exists cfg. done.
Defined.
